(* ===== verification/_CoqProject ===== *)
-Q . S2P
Prelude.v
FpSpec.v
FpTheory.v
SfEnv.v
SfPrim.v
SfRound.v
SfAdd.v
SfAddF64.v
SfMul.v
SfCompare.v
SfConvert.v
SfWords.v
SfToInt.v
SfRecip.v
SfDiv.v
SfRecipSqrt.v
SfSqrt.v
SfMulAdd.v
SfMulAddF64.v
FpNearest.v
Encoding.v
Machine.v
MulDiv.v
Misaligned.v
FpLdst.v
FpEmulation.v
Emulation.v
Csr.v
FpInsn.v
FpFused.v
FpConv.v
FpMemory.v
TrapEntry.v
Confine.v
Ipi.v
File.v
CString.v
Snprintf.v
PageTable.v
Mmap.v
MmapInv.v
MmapOps.v
MmapAlloc.v
MmapCalls.v
MmapProtect.v
VirtualMemory.v
VmBoot.v
Elf.v
VmFrames.v
VmTheorems.v
