(* ===== verification/Prelude.v ===== *)
(** * The RISC-V machine-mode monitor and proxy kernel of riscv-pk

    This library models the machine-mode monitor of [riscv-pk], the boot loader and trap
    handler under [src/code/testsuits-for-oskernel/riscv-linux-rootfs/src/riscv-pk], the
    copy of Berkeley SoftFloat it is built with, and the files, the virtual memory and the
    program loader of its proxy kernel.  The monitor runs below an operating system.  A trap
    from the system or its programs enters at [machine/mentry.S], which selects a handler by
    the cause: illegal instructions are emulated ([machine/emulation.c] and the files it
    calls), misaligned accesses are split into bytes ([machine/misaligned_ldst.c]), and what
    the monitor cannot serve is handed to the system ([redirect_trap] of [machine/mtrap.c]).
    On a hart without a floating-point unit the emulation of the F and D extensions
    ([machine/fp_emulation.c], [machine/fp_ldst.c]) computes with SoftFloat ([softfloat/]);
    that is the path the development follows from the trap vector down to the rounding of a
    significand.  Harts signal each other with software interrupts ([send_ipi_many] of
    [mtrap.c] on one side, the trap vector on the other).  The proxy kernel [pk] runs one
    program on the monitor and forwards its system calls to a host: it counts the references
    to open files ([pk/file.c]), maps memory and files on demand ([pk/mmap.c]), each mapping
    a region that the page-table entries of its untouched pages refer to, and loads the
    program with those mappings ([pk/elf.c]).

    ** The configuration

    RV64 with compressed and atomic instructions, little-endian, [PK_ENABLE_FP_EMULATION],
    neither [__riscv_flen] nor [__riscv_muldiv] defined.  SoftFloat is built without
    [SOFTFLOAT_FAST_INT64] and without a 64-by-32 division, tininess is detected after
    rounding, and [int_fast8_t] to [int_fast32_t] are 32 bits wide as in newlib.

    ** Integers, state and effects

    A [w]-bit unsigned integer is a [Z] below [2 ^ w]; [u32], [u64] wrap a result where C
    does, [i32], [i64] reinterpret it as signed.  A SoftFloat routine is a function of the
    rounding mode and of the accrued flags ([fp], [SfEnv.v]).  A handler is a function on the
    state of one hart ([Machine.machine]: the saved integer and floating-point registers,
    [tp] with the emulated FCSR, the CSRs, user memory with its faults), with four outcomes:
    it returns, leaves through [redirect_trap], dies in [bad_trap], or reaches a C operation
    without a defined result ([Machine.outcome]).  Arrays of words are lists; loops over them
    recurse on their length.  An operation of the proxy kernel's memory is a function on its
    state ([PageTable.pages], [Mmap.vm]) that returns, fails an assertion or hangs
    ([PageTable.result]), specified by weakest preconditions ([MmapInv.wp]) under which it does
    not hang.

    Loops without a structural measure take fuel.  The string loops ([CString.v], [Snprintf.v])
    are given it as an argument, and the theorems say that the length of the string or of the
    format is enough.  [__walk_create] restarts after each page it adds, at most twice, and has
    fuel 3.  The loops over pages ([page_fuel]) have one unit per page of the range and one for
    the last test, the search of [__vm_alloc] one per page it can start at; the theorems show
    that no operation runs out.

    ** The files

    - [Prelude.v]: widths, bit operations and their arithmetic, [b2z], the tactics and rewrite
      bases the other files share.
    - [FpSpec.v], [FpTheory.v], [FpNearest.v]: IEEE 754 as a specification.  Magnitudes are
      integers in units of the smallest subnormal, an exact result is a rational in that
      unit, [ieee_round] rounds it; the theory says when rounding depends only on a sticky
      bit, and that the nearest modes return a nearest number.  Nothing here is translated
      from code.
    - [SfEnv.v], [SfPrim.v], [SfRound.v]: [specialize.h], [internals.h], the [s_*.c] primitives,
      rounding and packing.
    - [SfAdd.v], [SfAddF64.v], [SfMul.v], [SfCompare.v], [SfConvert.v], [SfWords.v], [SfToInt.v],
      [SfRecip.v], [SfDiv.v], [SfRecipSqrt.v], [SfSqrt.v], [SfMulAdd.v], [SfMulAddF64.v]: one file
      per group of [f32_*.c], [f64_*.c] and conversion sources, with the internal routines they
      call; [SfWords.v] has the multiword arithmetic, [SfRecip.v] and [SfRecipSqrt.v] the
      table-driven estimates.
    - [Encoding.v]: [encoding.h] and the field macros of [emulation.h], against the fields the
      ISA manual draws.
    - [Machine.v]: the state, the register macros of [emulation.h] and [fp_emulation.h],
      [unprivileged_memory.h], and [redirect_trap], [pmp_trap] and the machine-mode faults of
      [mtrap.c].
    - [MulDiv.v], [Misaligned.v], [FpLdst.v], [FpEmulation.v], [Emulation.v]: the handlers of the
      sources of the same names; [Csr.v] holds the theorems on the CSR instructions.
    - [FpInsn.v], [FpFused.v], [FpConv.v], [FpMemory.v]: the F and D instructions as the ISA
      defines them and the theorems that the handlers implement them.  [FpInsn.FpRoutines]
      is the interface between the handlers and SoftFloat, with one instance per precision.
    - [TrapEntry.v]: the trap path of [mentry.S] around the handlers; [Confine.v]: what a trap
      can change, proved handler by handler through hints.
    - [Ipi.v]: inter-processor interrupts, as a step relation on the list of all harts with
      one step per access to shared memory, in any interleaving.
    - [File.v]: [pk/file.c] and the calls on descriptors of [pk/syscall.c]; the host is a
      parameter, a function on a state of its own.
    - [CString.v], [Snprintf.v]: [util/string.c] and [util/snprintf.c], on memory as a byte for
      every address.
    - [PageTable.v]: the page-table pages of [pk/mmap.c] and the walk, as a map from pages to
      entries.  [Mmap.v]: the rest of [pk/mmap.c].  [MmapInv.v]: the invariant of its state (the
      four kinds of entry, the counts of regions and files).  [MmapOps.v], [MmapAlloc.v],
      [MmapCalls.v], [MmapProtect.v], [VirtualMemory.v], [VmBoot.v], [VmFrames.v]: the
      specifications of the steps, of the search for addresses, of [__do_mmap], [do_mprotect], the
      calls of the program and [pk_vm_init], and that the frames stay where they are.  [Elf.v]:
      [pk/elf.c].  [VmTheorems.v]: the theorems on all of these.  The
      bytes that the host stores for a read are a parameter, [pread_bytes].

    ** What the theorems show

    - SoftFloat addition, subtraction, multiplication, division, square root, fused
      multiply-add, comparison, classification and conversion return the encoding and raise the
      flags that IEEE 754 prescribes, for all operands, rounding modes and initial flags; the
      table-driven estimates stay within the bounds that the divisions and roots need.
    - The handlers decode as the ISA does, compute what the instruction computes, advance the
      program counter and change nothing else; a fault of an access made on behalf of the
      interrupted context is delegated as a page fault of its instruction, and delegation
      leaves the state in which supervisor software expects a trap.
    - A floating-point arithmetic trap, from the entry code through SoftFloat to the exit
      code, acts as the instruction of a hart with a floating-point unit.  Every trap but an
      environment call changes only what the interrupted code could change itself, and resumes
      it or the supervisor.
    - No inter-processor interrupt is lost, senders that wait for each other do not deadlock,
      and every event is eventually served; the calls on descriptors keep the reference
      counts of files exact, and a file is closed on the host with its last reference.
    - The string functions and [vsnprintf] end, compute what the C standard says and write
      nowhere else; a printed number is read back.
    - The page tables implement a map.  Whatever the program calls, each page it can reach is
      backed by its own frame and never by the kernel's memory, the counts of regions are exact,
      and no call hangs; [mmap] is first fit, and each call changes exactly the pages it should.
      A page touched first holds zeros or the bytes of its file, with the rights of its region.
      A loaded segment has exactly the rights of its header.
    - Where the code departs from what it should do, a theorem says what it does: misaligned
      [C.SWSP] and [C.SDSP] with some offsets are refused, misaligned [C.FLD] reads a wrong
      address, conversions between integers and floating-point numbers go wrong for negative
      numbers and round twice, [mhpmevent3] and [mhpmevent4] are open to user mode, the
      emulated FCSR is lost when a trap is delegated, a remote fence may return before it is
      performed, opened files and directories are never closed on the host, and [mmap], [brk],
      [mprotect] and the loader go wrong in five cases ([VmTheorems.vm_defects]).

    ** Not modelled

    - The SBI calls of [mtrap.c] that drive the console and the timer, and the interrupt path of
      [mentry.S] other than inter-processor interrupts: they are accesses to device registers.
      The environment call is a parameter of [TrapEntry.trap_table].
    - Start-up, console and device-tree code ([minit.c], [htif.c], [uart.c], [fdt.c], [bbl/]):
      device registers and memory layout.
    - Of the proxy kernel, the construction of the program's stack ([pk.c]), the dispatch of its
      traps and system calls ([handlers.c], [do_syscall]), the calls that only pass their
      arguments to the host, and [populate_mapping], which touches pages and computes nothing.
      The mailbox to the host is a parameter.  TLB flushes have no effect on the model.
    - The SoftFloat routines and formats the monitor does not call.
    - The Rust kernel, the C library tests and the other programs of the repository. *)

From Stdlib Require Import ZArith Lia Bool List.
From Stdlib Require Zify.
Import ListNotations.

#[global] Open Scope Z_scope.
#[global] Open Scope bool_scope.

(** ** Machine integers

    A C value of a [w]-bit unsigned type is a [Z] in [[0, 2^w)]; the conversion to such a
    type is [wrap w], the conversion to the two's-complement signed type of the same width
    is [swrap w]. *)

Definition wrap (w x : Z) : Z := x mod 2 ^ w.

Definition swrap (w x : Z) : Z := (x + 2 ^ (w - 1)) mod 2 ^ w - 2 ^ (w - 1).

Definition u8 : Z -> Z := wrap 8.
Definition u16 : Z -> Z := wrap 16.
Definition u32 : Z -> Z := wrap 32.
Definition u64 : Z -> Z := wrap 64.
Definition i32 : Z -> Z := swrap 32.
Definition i64 : Z -> Z := swrap 64.

(** C's bit operators.  Left shifts and complements of a [w]-bit operand are written
    [wrap w (a .<< n)] and [wrap w (.~ a)].  The operators bind as they do in C. *)

Declare Scope c_scope.
Delimit Scope c_scope with C.
Infix ".&" := Z.land (at level 52, left associativity) : c_scope.
Infix ".|" := Z.lor (at level 54, left associativity) : c_scope.
Infix ".^" := Z.lxor (at level 53, left associativity) : c_scope.
Infix ".<<" := Z.shiftl (at level 51, left associativity) : c_scope.
Infix ".>>" := Z.shiftr (at level 51, left associativity) : c_scope.
Notation ".~ a" := (Z.lnot a) (at level 35, right associativity) : c_scope.
#[global] Open Scope c_scope.

(** An integer used as a C condition, and a condition used as an integer. *)
Definition nz (x : Z) : bool := negb (x =? 0).

Abbreviation b2z := Z.b2z.

(** ** Powers of two *)

Lemma pow2_pos n : 0 <= n -> 0 < 2 ^ n.
Proof. intros; apply Z.pow_pos_nonneg; lia. Qed.

Lemma pow2_split n m : 0 <= m <= n -> 2 ^ n = 2 ^ m * 2 ^ (n - m).
Proof. intros; rewrite <- Z.pow_add_r by lia; f_equal; lia. Qed.

Lemma pow2_succ n : 0 <= n -> 2 ^ (n + 1) = 2 * 2 ^ n.
Proof. intros; rewrite Z.pow_add_r by lia; lia. Qed.

Lemma pow2_half n : 0 < n -> 2 ^ n = 2 * 2 ^ (n - 1).
Proof. intros; rewrite <- pow2_succ by lia; f_equal; lia. Qed.

Lemma pow2_le n m : 0 <= n <= m -> 2 ^ n <= 2 ^ m.
Proof. intros; apply Z.pow_le_mono_r; lia. Qed.

Lemma pow2_lt n m : 0 <= n < m -> 2 ^ n < 2 ^ m.
Proof. intros; apply Z.pow_lt_mono_r; lia. Qed.

Create HintDb pow2.
#[export] Hint Resolve pow2_pos pow2_le pow2_lt : pow2.
#[export] Hint Extern 1 (_ <= _) => lia : pow2.
#[export] Hint Extern 1 (_ < _) => lia : pow2.

(** ** Wrap-around *)

Lemma wrap_range w x : 0 <= w -> 0 <= wrap w x < 2 ^ w.
Proof. intros; apply Z.mod_pos_bound, pow2_pos; lia. Qed.

Lemma wrap_small w x : 0 <= x < 2 ^ w -> wrap w x = x.
Proof. apply Z.mod_small. Qed.

Lemma wrap_add w x k : 0 <= w -> wrap w (x + k * 2 ^ w) = wrap w x.
Proof. intros; apply Z.mod_add, Z.pow_nonzero; lia. Qed.

Lemma u32_small x : 0 <= x < 0x100000000 -> u32 x = x.
Proof. apply (wrap_small 32). Qed.

Lemma u64_small x : 0 <= x < 0x10000000000000000 -> u64 x = x.
Proof. apply (wrap_small 64). Qed.

Lemma u16_small x : 0 <= x < 0x10000 -> u16 x = x.
Proof. apply (wrap_small 16). Qed.

Lemma u32_range x : 0 <= u32 x < 0x100000000.
Proof. apply (wrap_range 32); lia. Qed.

Lemma u64_range x : 0 <= u64 x < 0x10000000000000000.
Proof. apply (wrap_range 64); lia. Qed.

Lemma swrap_small w x : 0 < w -> - 2 ^ (w - 1) <= x < 2 ^ (w - 1) -> swrap w x = x.
Proof.
  intros Hw Hx; unfold swrap.
  rewrite (pow2_half w), Z.mod_small by lia; lia.
Qed.

Lemma swrap_range w x : 0 < w -> - 2 ^ (w - 1) <= swrap w x < 2 ^ (w - 1).
Proof.
  intros Hw; unfold swrap.
  pose proof (Z.mod_pos_bound (x + 2 ^ (w - 1)) (2 ^ w) (pow2_pos w ltac:(lia))) as H.
  rewrite (pow2_half w) in * by lia; lia.
Qed.

(** Reading a two's-complement pattern: a [w]-bit word at or above [2^(w-1)] is negative. *)
Lemma swrap_unsigned w x :
  0 < w -> 0 <= x < 2 ^ w -> swrap w x = if x <? 2 ^ (w - 1) then x else x - 2 ^ w.
Proof.
  intros Hw Hx; unfold swrap.
  pose proof (pow2_half w Hw) as E.
  destruct (Z.ltb_spec x (2 ^ (w - 1))).
  - rewrite Z.mod_small; lia.
  - replace (x + 2 ^ (w - 1)) with (x - 2 ^ (w - 1) + 1 * 2 ^ w) by lia.
    rewrite Z.mod_add by lia; rewrite Z.mod_small; lia.
Qed.

(** [wsimp] removes the wrap-arounds whose argument [lia] shows to be in range. *)
Ltac wsimp :=
  repeat match goal with
         | |- context [u32 ?x] => rewrite (u32_small x) by lia
         | |- context [u64 ?x] => rewrite (u64_small x) by lia
         | |- context [u16 ?x] => rewrite (u16_small x) by lia
         end.

(** ** Masks and shifts as arithmetic *)

Lemma land_ones_mod a n : 0 <= n -> a .& (2 ^ n - 1) = a mod 2 ^ n.
Proof.
  intros; rewrite <- Z.land_ones by lia; f_equal; rewrite Z.ones_equiv; lia.
Qed.

Lemma shiftr_div a n : 0 <= n -> a .>> n = a / 2 ^ n.
Proof. intros; apply Z.shiftr_div_pow2; lia. Qed.

Lemma shiftl_mul a n : 0 <= n -> a .<< n = a * 2 ^ n.
Proof. intros; apply Z.shiftl_mul_pow2; lia. Qed.

(** Disjoint bit fields: [or] is addition. *)
Lemma lor_add_disjoint a b n :
  0 <= n -> 0 <= a < 2 ^ n -> (b * 2 ^ n) .| a = b * 2 ^ n + a.
Proof.
  intros Hn Ha.
  assert (E : Z.land (b * 2 ^ n) a = 0).
  { apply Z.bits_inj'; intros i Hi.
    rewrite Z.land_spec, Z.bits_0, <- Z.shiftl_mul_pow2, Z.shiftl_spec by lia.
    destruct (Z.ltb_spec i n).
    - rewrite Z.testbit_neg_r by lia; reflexivity.
    - rewrite <- (Z.mod_small a (2 ^ n)) by lia.
      rewrite Z.mod_pow2_bits_high by lia; apply andb_false_r. }
  rewrite <- Z.lxor_lor by exact E; symmetry; apply Z.add_nocarry_lxor; exact E.
Qed.

(** Setting bit [n] of a number whose bits from [n] up are clear. *)
Lemma lor_pow2 a n : 0 <= n -> 0 <= a < 2 ^ n -> a .| 2 ^ n = a + 2 ^ n.
Proof.
  intros Hn Ha; rewrite Z.lor_comm, <- (Z.mul_1_l (2 ^ n)), lor_add_disjoint; lia.
Qed.

Lemma lor_1 a : a .| 1 = 2 * (a / 2) + 1.
Proof.
  rewrite (Z.div_mod a 2) at 1 by lia.
  rewrite (Z.mul_comm 2).
  change (a / 2 * 2) with (a / 2 * 2 ^ 1).
  pose proof (Z.mod_pos_bound a 2 ltac:(lia)).
  rewrite <- lor_add_disjoint by (change (2 ^ 1) with 2; lia).
  rewrite <- Z.lor_assoc.
  assert (C : a mod 2 = 0 \/ a mod 2 = 1) by lia.
  destruct C as [-> | ->]; cbn [Z.lor Pos.lor];
    rewrite lor_add_disjoint by (change (2 ^ 1) with 2; lia); change (2 ^ 1) with 2; lia.
Qed.

(** Clearing low bits, the way C writes it: [a & ~(uintW_t) mask]. *)
Lemma land_wrap_r w a b : 0 <= w -> 0 <= a < 2 ^ w -> a .& wrap w b = a .& b.
Proof.
  intros Hw Ha; unfold wrap; rewrite <- !Z.land_ones by lia.
  rewrite (Z.land_comm b), Z.land_assoc, Z.land_ones, Z.mod_small by lia; reflexivity.
Qed.

Lemma land_not_ones w a k :
  0 <= w -> 0 <= k -> 0 <= a < 2 ^ w -> a .& wrap w (.~ (2 ^ k - 1)) = a - a mod 2 ^ k.
Proof.
  intros Hw Hk Ha; rewrite land_wrap_r by assumption.
  replace (2 ^ k - 1) with (Z.ones k) by (rewrite Z.ones_equiv; lia).
  rewrite <- Z.ldiff_land, Z.ldiff_ones_r, Z.shiftr_div_pow2, Z.shiftl_mul_pow2 by lia.
  pose proof (Z.div_mod a (2 ^ k) (Z.pow_nonzero 2 k ltac:(lia) Hk)); lia.
Qed.

Lemma land_not_b2z w a b :
  0 < w -> 0 <= a < 2 ^ w -> a .& wrap w (.~ b2z b) = if b then a - a mod 2 else a.
Proof.
  intros Hw Ha; destruct b; cbn [Z.b2z].
  - change 1 with (2 ^ 1 - 1); apply (land_not_ones w a 1); lia.
  - rewrite land_wrap_r by lia; change (.~ 0) with (-1); apply Z.land_m1_r.
Qed.

(** Sums and products of non-negative integers. *)
Ltac mul_nonneg :=
  repeat match goal with
         | |- 0 <= _ * _ => apply Z.mul_nonneg_nonneg
         | |- 0 <= _ + _ => apply Z.add_nonneg_nonneg
         end; lia.

(** Case analysis on every conditional of the goal. *)
Ltac case_ifs :=
  repeat match goal with
         | |- context [if ?b then _ else _] => let E := fresh "E" in destruct b eqn:E
         end.

(** Case analysis on one integer comparison of the goal. *)
Ltac zcase :=
  match goal with
  | |- context [?a <? ?b] => destruct (Z.ltb_spec a b)
  | |- context [?a <=? ?b] => destruct (Z.leb_spec a b)
  | |- context [?a =? ?b] => destruct (Z.eqb_spec a b)
  end.

(** Simplification that leaves arithmetic alone. *)
Ltac bsimpl := cbn [andb orb negb xorb Bool.eqb Z.b2z fst snd].

(** Boolean hypotheses as propositions. *)
Ltac breflect :=
  repeat match goal with
         | H : _ && _ = true |- _ => apply andb_prop in H as [? ?]
         | H : _ || _ = false |- _ => apply orb_false_elim in H as [? ?]
         | H : negb _ = true |- _ => apply negb_true_iff in H
         | H : negb _ = false |- _ => apply negb_false_iff in H
         | H : nz _ = _ |- _ => unfold nz in H
         | H : (_ =? _) = true |- _ => apply Z.eqb_eq in H
         | H : (_ =? _) = false |- _ => apply Z.eqb_neq in H
         | H : (_ <? _) = true |- _ => apply Z.ltb_lt in H
         | H : (_ <? _) = false |- _ => apply Z.ltb_ge in H
         | H : (_ <=? _) = true |- _ => apply Z.leb_le in H
         | H : (_ <=? _) = false |- _ => apply Z.leb_gt in H
         end.

Lemma even_mod2 n : Z.even n = (n mod 2 =? 0).
Proof. rewrite Zeven_mod; reflexivity. Qed.

Lemma odd_mod2 n : Z.odd n = (n mod 2 =? 1).
Proof. rewrite Zodd_mod; reflexivity. Qed.

(** A bit field selected in place by a mask. *)
Lemma land_field a n k :
  0 <= n -> 0 <= k -> a .& (2 ^ k - 1) * 2 ^ n = a / 2 ^ n mod 2 ^ k * 2 ^ n.
Proof.
  intros Hn Hk; apply Z.bits_inj'; intros i Hi.
  rewrite Z.land_spec, <- !Z.shiftl_mul_pow2, !Z.shiftl_spec by lia.
  replace (2 ^ k - 1) with (Z.ones k) by (rewrite Z.ones_equiv; lia).
  destruct (Z.ltb_spec i n).
  - rewrite !(Z.testbit_neg_r _ (i - n)) by lia; apply andb_false_r.
  - rewrite <- Z.land_ones, <- Z.shiftr_div_pow2, Z.land_spec, Z.shiftr_spec by lia.
    do 2 f_equal; lia.
Qed.

(** The complement of a word, and masks of it. *)
Lemma wrap_lnot w a : 0 <= w -> 0 <= a < 2 ^ w -> wrap w (.~ a) = 2 ^ w - 1 - a.
Proof.
  intros Hw Ha; unfold wrap, Z.lnot.
  replace (Z.pred (- a)) with (2 ^ w - 1 - a + -1 * 2 ^ w) by lia.
  rewrite Z.mod_add by lia; apply Z.mod_small; lia.
Qed.

Lemma div_mod_digits a m n : 0 <= m -> 0 <= n ->
  a mod 2 ^ (m + n) = a / 2 ^ n mod 2 ^ m * 2 ^ n + a mod 2 ^ n.
Proof.
  intros Hm Hn; pose proof (pow2_pos m Hm); pose proof (pow2_pos n Hn).
  rewrite (Z.add_comm m n), Z.pow_add_r, Z.rem_mul_r by lia; lia.
Qed.

Lemma lxor_range w a b : 0 <= w -> 0 <= a < 2 ^ w -> 0 <= b < 2 ^ w -> 0 <= a .^ b < 2 ^ w.
Proof.
  intros Hw Ha Hb; rewrite <- (Z.mod_small a (2 ^ w)), <- (Z.mod_small b (2 ^ w)) by lia.
  replace (a mod 2 ^ w .^ b mod 2 ^ w) with ((a .^ b) mod 2 ^ w).
  - apply Z.mod_pos_bound, pow2_pos; lia.
  - apply Z.bits_inj'; intros i Hi; rewrite Z.lxor_spec.
    destruct (Z.ltb_spec i w).
    + rewrite !Z.mod_pow2_bits_low, Z.lxor_spec by lia; reflexivity.
    + rewrite !Z.mod_pow2_bits_high by lia; reflexivity.
Qed.

(** Evaluation of the tests between constants, and of the conditionals they decide. *)
Ltac ctest t :=
  tryif (match t with context [?x] => is_var x end) then fail else idtac;
  let v := eval vm_compute in t in
  lazymatch v with
  | true => change t with true
  | false => change t with false
  end.
Ltac ceval :=
  repeat match goal with
         | |- context [Z.eqb ?x ?y] => ctest (Z.eqb x y)
         | |- context [Z.ltb ?x ?y] => ctest (Z.ltb x y)
         | |- context [Z.leb ?x ?y] => ctest (Z.leb x y)
         | |- context [Z.odd ?x] => ctest (Z.odd x)
         | |- context [nz ?x] => ctest (nz x)
         end;
  cbn [orb andb negb]; cbv beta iota.

Lemma u64_idem x : u64 (u64 x) = u64 x.
Proof. apply u64_small, u64_range. Qed.

Lemma swrap_wrap w x : 0 < w -> swrap w (wrap w x) = swrap w x.
Proof.
  intros; unfold swrap, wrap; f_equal.
  rewrite Z.add_mod_idemp_l by (apply Z.pow_nonzero; lia); reflexivity.
Qed.

Lemma i32_u32 x : i32 (u32 x) = i32 x.
Proof. apply swrap_wrap; lia. Qed.

Lemma i64_u64 x : i64 (u64 x) = i64 x.
Proof. apply swrap_wrap; lia. Qed.

(** Scaling a two's-complement reading. *)
Lemma swrap_shift n s v :
  0 < n -> 0 <= s -> swrap (n + s) (v * 2 ^ s) = swrap n v * 2 ^ s.
Proof.
  intros Hn Hs; unfold swrap; pose proof (pow2_pos s Hs); pose proof (pow2_pos n ltac:(lia)).
  replace (n + s - 1) with (n - 1 + s) by lia.
  rewrite !Z.pow_add_r, <- Z.mul_add_distr_r, Z.mul_mod_distr_r by lia; ring.
Qed.

Lemma wrap_swrap w x : wrap w (swrap w x) = wrap w x.
Proof. unfold wrap, swrap; rewrite Zminus_mod_idemp_l; f_equal; lia. Qed.

Lemma u64_swrap x : u64 (i64 x) = u64 x.
Proof. apply wrap_swrap. Qed.

(** A number without bits from [w] up is below [2^w], and conversely. *)
Lemma bits_range w x :
  0 <= w -> (forall i, w <= i -> Z.testbit x i = false) -> 0 <= x < 2 ^ w.
Proof.
  intros Hw H; assert (E : x mod 2 ^ w = x).
  { apply Z.bits_inj'; intros i Hi; destruct (Z.lt_ge_cases i w).
    - apply Z.mod_pow2_bits_low; lia.
    - rewrite Z.mod_pow2_bits_high, H by lia; reflexivity. }
  rewrite <- E; apply Z.mod_pos_bound, pow2_pos; lia.
Qed.

Lemma range_bits w x i : 0 <= w <= i -> 0 <= x < 2 ^ w -> Z.testbit x i = false.
Proof.
  intros Hw Hx; rewrite <- (Z.mod_small x (2 ^ w)) by lia; apply Z.mod_pow2_bits_high; lia.
Qed.

Lemma lor_range w a b : 0 <= w -> 0 <= a < 2 ^ w -> 0 <= b < 2 ^ w -> 0 <= a .| b < 2 ^ w.
Proof.
  intros; apply bits_range; [lia|]; intros i Hi.
  rewrite Z.lor_spec, !(range_bits w) by lia; reflexivity.
Qed.

Lemma land_range_l w a b : 0 <= w -> 0 <= a < 2 ^ w -> 0 <= a .& b < 2 ^ w.
Proof.
  intros; apply bits_range; [lia|]; intros i Hi; rewrite Z.land_spec, (range_bits w) by lia.
  reflexivity.
Qed.

Lemma div_bounds a d : 0 < d -> d * (a / d) <= a < d * (a / d) + d.
Proof. intros; pose proof (Z.div_mod a d); pose proof (Z.mod_pos_bound a d); lia. Qed.

Lemma u32_u64 x : u32 (u64 x) = u32 x.
Proof.
  unfold u32, u64, wrap; change (2 ^ 64) with (2 ^ 32 * 2 ^ 32).
  rewrite Z.rem_mul_r, Z.add_mod, Z.mul_comm, Z.mod_mul, Z.add_0_r, !Z.mod_mod by lia; reflexivity.
Qed.

Lemma nz_lor a b : nz (a .| b) = nz a || nz b.
Proof.
  unfold nz; rewrite <- negb_andb; f_equal; apply eq_true_iff_eq.
  rewrite andb_true_iff, !Z.eqb_eq; apply Z.lor_eq_0_iff.
Qed.

Lemma wrap_opp w x : 0 <= w -> wrap w (- wrap w x) = wrap w (- x).
Proof.
  intros Hw; unfold wrap at 2; rewrite Z.mod_eq by (apply Z.pow_nonzero; lia).
  replace (- (x - 2 ^ w * (x / 2 ^ w))) with (- x + x / 2 ^ w * 2 ^ w) by ring.
  apply wrap_add; assumption.
Qed.
