(* ===== verification/FpSpec.v ===== *)
(** * IEEE 754 binary floating point, as a specification

    The functions here are not translated from code: they say what the SoftFloat routines
    have to compute.  A format has [fbits] fraction bits and [ebits] exponent bits; its
    finite numbers are the integers [mag] (with a sign) in units of the smallest subnormal.
    Exact results are rationals [p / q] in that unit, and [ieee_round] rounds one of them
    to the format, giving the encoding and the exception flags. *)

From S2P Require Import Prelude.
From Stdlib Require Import ZArith Lia Bool.

(** ** Rounding modes and exception flags ([softfloat.h]) *)

Definition softfloat_round_near_even : Z := 0.
Definition softfloat_round_minMag : Z := 1.
Definition softfloat_round_min : Z := 2.
Definition softfloat_round_max : Z := 3.
Definition softfloat_round_near_maxMag : Z := 4.

Definition softfloat_flag_inexact : Z := 1.
Definition softfloat_flag_underflow : Z := 2.
Definition softfloat_flag_overflow : Z := 4.
Definition softfloat_flag_infinite : Z := 8.
Definition softfloat_flag_invalid : Z := 16.

(** ** Rounding a rational to an integer *)

(** Whether [n + r/d] (with [0 <= r < d]) is rounded up, for a result of sign [sign]. *)
Definition rounds_up (rm : Z) (sign : bool) (n r d : Z) : bool :=
  if rm =? softfloat_round_near_even then (d <? 2 * r) || ((2 * r =? d) && Z.odd n)
  else if rm =? softfloat_round_near_maxMag then d <=? 2 * r
  else if rm =? softfloat_round_min then sign && nz r
  else if rm =? softfloat_round_max then negb sign && nz r
  else false.

Definition rint (rm : Z) (sign : bool) (p d : Z) : Z :=
  p / d + b2z (rounds_up rm sign (p / d) (p mod d) d).

(** The modes that carry an overflowing result of sign [sign] to infinity. *)
Definition rounds_away (rm : Z) (sign : bool) : bool :=
  (rm =? softfloat_round_near_even) || (rm =? softfloat_round_near_maxMag)
  || ((rm =? softfloat_round_min) && sign) || ((rm =? softfloat_round_max) && negb sign).

(** ** Formats *)

Record fmt := Fmt { fbits : Z; ebits : Z }.

Definition F32 : fmt := Fmt 23 8.
Definition F64 : fmt := Fmt 52 11.

(** Fields of an encoding. *)
Definition fsign (F : fmt) (a : Z) : bool := Z.odd (a / 2 ^ (fbits F + ebits F)).
Definition fexp (F : fmt) (a : Z) : Z := a / 2 ^ fbits F mod 2 ^ ebits F.
Definition ffrac (F : fmt) (a : Z) : Z := a mod 2 ^ fbits F.

Definition emax (F : fmt) : Z := 2 ^ ebits F - 1.
Definition inf_mag (F : fmt) : Z := emax F * 2 ^ fbits F.
Definition signbit (F : fmt) (s : bool) : Z := b2z s * 2 ^ (fbits F + ebits F).

Definition is_nan (F : fmt) (a : Z) : bool := (fexp F a =? emax F) && nz (ffrac F a).
Definition is_inf (F : fmt) (a : Z) : bool := (fexp F a =? emax F) && (ffrac F a =? 0).
Definition is_snan (F : fmt) (a : Z) : bool :=
  is_nan F a && (ffrac F a <? 2 ^ (fbits F - 1)).

(** Magnitude in units of the smallest subnormal.  (On an infinity it is larger than on
    any finite number, so [fval] also orders the infinities.) *)
Definition mag (F : fmt) (a : Z) : Z :=
  if fexp F a =? 0 then ffrac F a else (2 ^ fbits F + ffrac F a) * 2 ^ (fexp F a - 1).

Definition fval (F : fmt) (a : Z) : Z := if fsign F a then - mag F a else mag F a.

(** One is [2 ^ one_exp] units. *)
Definition one_exp (F : fmt) : Z := 2 ^ (ebits F - 1) - 2 + fbits F.

Definition default_nan (F : fmt) : Z := inf_mag F + 2 ^ (fbits F - 1).

(** ** Rounding a rational magnitude to a format *)

(** Exponent of the quantum at magnitude [p / q]. *)
Definition qexp (F : fmt) (p q : Z) : Z := Z.max 0 (Z.log2 (p / q) - fbits F).

(** The encoding (without sign) of [p / q] rounded to the quantum, exponent unbounded
    above: the fraction's carry runs into the exponent field. *)
Definition rmag (F : fmt) (rm : Z) (s : bool) (p q : Z) : Z :=
  qexp F p q * 2 ^ fbits F + rint rm s p (q * 2 ^ qexp F p q).

(** Below the normal range after rounding to [fbits + 1] significant bits. *)
Definition tiny (F : fmt) (rm : Z) (s : bool) (p q : Z) : bool :=
  (p / q <? 2 ^ fbits F) && (rint rm s (2 * p) q <? 2 ^ (fbits F + 1)).

Definition inexact (p d : Z) : bool := nz (p mod d).

Definition ieee_round (F : fmt) (rm : Z) (s : bool) (p q : Z) : Z * Z :=
  let m := rmag F rm s p q in
  if inf_mag F <=? m then
    (signbit F s + (inf_mag F - b2z (negb (rounds_away rm s))),
     softfloat_flag_overflow .| softfloat_flag_inexact)
  else
    (signbit F s + m,
     if inexact p (q * 2 ^ qexp F p q)
     then softfloat_flag_inexact .|
          (if tiny F rm s p q then softfloat_flag_underflow else 0)
     else 0).

(** ** Operations *)

(** NaN operands: the default NaN, invalid when one of them signals. *)
Definition nan_result (F : fmt) (a b : Z) : Z * Z :=
  (default_nan F, if is_snan F a || is_snan F b then softfloat_flag_invalid else 0).

Definition invalid_result (F : fmt) : Z * Z := (default_nan F, softfloat_flag_invalid).

Definition ieee_add (F : fmt) (rm : Z) (a b : Z) : Z * Z :=
  let sa := fsign F a in
  let sb := fsign F b in
  if is_nan F a || is_nan F b then nan_result F a b
  else if is_inf F a then
    if is_inf F b && xorb sa sb then invalid_result F else (signbit F sa + inf_mag F, 0)
  else if is_inf F b then (signbit F sb + inf_mag F, 0)
  else
    let v := fval F a + fval F b in
    if v =? 0 then
      (signbit F (if xorb sa sb then rm =? softfloat_round_min else sa), 0)
    else ieee_round F rm (v <? 0) (Z.abs v) 1.

Definition fneg (F : fmt) (a : Z) : Z :=
  if fsign F a then a - 2 ^ (fbits F + ebits F) else a + 2 ^ (fbits F + ebits F).

Definition ieee_sub (F : fmt) (rm : Z) (a b : Z) : Z * Z := ieee_add F rm a (fneg F b).

Definition ieee_mul (F : fmt) (rm : Z) (a b : Z) : Z * Z :=
  let s := xorb (fsign F a) (fsign F b) in
  if is_nan F a || is_nan F b then nan_result F a b
  else if is_inf F a || is_inf F b then
    if (mag F a =? 0) || (mag F b =? 0) then invalid_result F
    else (signbit F s + inf_mag F, 0)
  else if (mag F a =? 0) || (mag F b =? 0) then (signbit F s, 0)
  else ieee_round F rm s (mag F a * mag F b) (2 ^ one_exp F).

(** Division; the quotient of magnitudes is in ones, hence the factor. *)
Definition ieee_div (F : fmt) (rm : Z) (a b : Z) : Z * Z :=
  let s := xorb (fsign F a) (fsign F b) in
  if is_nan F a || is_nan F b then nan_result F a b
  else if is_inf F a then
    if is_inf F b then invalid_result F else (signbit F s + inf_mag F, 0)
  else if is_inf F b then (signbit F s, 0)
  else if mag F b =? 0 then
    if mag F a =? 0 then invalid_result F
    else (signbit F s + inf_mag F, softfloat_flag_infinite)
  else if mag F a =? 0 then (signbit F s, 0)
  else ieee_round F rm s (mag F a * 2 ^ one_exp F) (mag F b).

(** The root of a magnitude [x] is [sqrt (x * 2 ^ one_exp)] units.  It lies far above the
    smallest normal number, where the quantum is more than one unit, so a half unit
    stands for the part of an irrational root below the unit. *)
Definition ieee_sqrt (F : fmt) (rm : Z) (a : Z) : Z * Z :=
  if is_nan F a then nan_result F a a
  else if mag F a =? 0 then (a, 0)
  else if fsign F a then invalid_result F
  else if is_inf F a then (a, 0)
  else
    let x := mag F a * 2 ^ one_exp F in
    let r := Z.sqrt x in
    ieee_round F rm false (2 * r + b2z (nz (x - r * r))) 2.

(** [a * b + c] with one rounding. *)
Definition ieee_mul_add (F : fmt) (rm : Z) (a b c : Z) : Z * Z :=
  let sp := xorb (fsign F a) (fsign F b) in
  let sc := fsign F c in
  if is_nan F a || is_nan F b then
    (default_nan F,
     if is_snan F a || is_snan F b || is_snan F c then softfloat_flag_invalid else 0)
  else if (is_inf F a || is_inf F b) && ((mag F a =? 0) || (mag F b =? 0)) then
    invalid_result F
  else if is_nan F c then nan_result F c c
  else if is_inf F a || is_inf F b then
    if is_inf F c && xorb sp sc then invalid_result F else (signbit F sp + inf_mag F, 0)
  else if is_inf F c then (c, 0)
  else
    let v := fval F a * fval F b + fval F c * 2 ^ one_exp F in
    if v =? 0 then
      (signbit F (if xorb sp sc then rm =? softfloat_round_min else sp), 0)
    else ieee_round F rm (v <? 0) (Z.abs v) (2 ^ one_exp F).

(** Comparisons: NaNs are unordered; a signaling comparison raises invalid on any NaN, a
    quiet one on a signaling NaN.  Zeros of both signs are equal, and the infinities lie
    outside the finite numbers. *)
Definition ieee_compare (F : fmt) (rel : Z -> Z -> bool) (signaling : bool) (a b : Z)
  : bool * Z :=
  if is_nan F a || is_nan F b then
    (false, if signaling || is_snan F a || is_snan F b then softfloat_flag_invalid else 0)
  else (rel (fval F a) (fval F b), 0).

(** The class mask of the RISC-V [FCLASS] instruction. *)
Definition ieee_class (F : fmt) (a : Z) : Z :=
  let s := fsign F a in
  if is_nan F a then (if is_snan F a then 2 ^ 8 else 2 ^ 9)
  else if is_inf F a then (if s then 2 ^ 0 else 2 ^ 7)
  else if mag F a =? 0 then (if s then 2 ^ 3 else 2 ^ 4)
  else if mag F a <? 2 ^ fbits F then (if s then 2 ^ 2 else 2 ^ 5)
  else (if s then 2 ^ 1 else 2 ^ 6).

(** Conversions. *)
Definition ieee_convert (F1 F2 : fmt) (rm : Z) (a : Z) : Z * Z :=
  let s := fsign F1 a in
  if is_nan F1 a then (default_nan F2, if is_snan F1 a then softfloat_flag_invalid else 0)
  else if is_inf F1 a then (signbit F2 s + inf_mag F2, 0)
  else if mag F1 a =? 0 then (signbit F2 s, 0)
  else ieee_round F2 rm s (mag F1 a * 2 ^ one_exp F2) (2 ^ one_exp F1).

Definition ieee_from_int (F : fmt) (rm : Z) (n : Z) : Z * Z :=
  if n =? 0 then (0, 0) else ieee_round F rm (n <? 0) (Z.abs n * 2 ^ one_exp F) 1.

(** Conversion to an unsigned [w]-bit integer, out-of-range values clipped with invalid;
    [exact] asks for the inexact flag. *)
Definition ieee_to_uint (F : fmt) (w : Z) (exact : bool) (rm : Z) (a : Z) : Z * Z :=
  let s := fsign F a in
  let n := rint rm s (mag F a) (2 ^ one_exp F) in
  if is_nan F a then (2 ^ w - 1, softfloat_flag_invalid)
  else if is_inf F a || (2 ^ w <=? n) || (s && nz n) then
    (if s then 0 else 2 ^ w - 1, softfloat_flag_invalid)
  else (n, if exact && inexact (mag F a) (2 ^ one_exp F) then softfloat_flag_inexact else 0).
