(* ===== verification/FpTheory.v ===== *)
(** * Rounding: the lemmas the SoftFloat proofs share

    [ieee_round] depends only on the ratio of its arguments; it may be computed from a
    truncated significand whose low bit is "jammed" with the bits shifted out; and it is
    what IEEE 754 asks for: the representable number nearest to the exact value, or the
    neighbour in the rounding direction. *)

From S2P Require Import Prelude FpSpec.
From Stdlib Require Import ZArith Lia Bool.

(** ** Integers *)

Lemma div_ratio p1 d1 p2 d2 :
  0 < d1 -> 0 < d2 -> p1 * d2 = p2 * d1 -> p1 / d1 = p2 / d2.
Proof.
  intros H1 H2 E.
  rewrite <- (Z.div_mul_cancel_r p1 d1 d2), <- (Z.div_mul_cancel_r p2 d2 d1) by lia.
  rewrite E; f_equal; lia.
Qed.

Lemma mod_ratio p1 d1 p2 d2 :
  0 < d1 -> 0 < d2 -> p1 * d2 = p2 * d1 -> (p1 mod d1) * d2 = (p2 mod d2) * d1.
Proof.
  intros H1 H2 E; rewrite !Z.mod_eq, (div_ratio p1 d1 p2 d2) by lia; nia.
Qed.

Lemma rounds_up_ratio rm s n r1 d1 r2 d2 :
  0 < d1 -> 0 < d2 -> r1 * d2 = r2 * d1 ->
  rounds_up rm s n r1 d1 = rounds_up rm s n r2 d2.
Proof.
  intros H1 H2 E; unfold rounds_up, nz.
  assert (A : (d1 <? 2 * r1) = (d2 <? 2 * r2)).
  { apply eq_true_iff_eq; rewrite !Z.ltb_lt; split; intros; nia. }
  assert (B : (2 * r1 =? d1) = (2 * r2 =? d2)).
  { apply eq_true_iff_eq; rewrite !Z.eqb_eq; split; intros; nia. }
  assert (C : (d1 <=? 2 * r1) = (d2 <=? 2 * r2)).
  { apply eq_true_iff_eq; rewrite !Z.leb_le; split; intros; nia. }
  assert (D : (r1 =? 0) = (r2 =? 0)).
  { apply eq_true_iff_eq; rewrite !Z.eqb_eq; split; intros; nia. }
  rewrite A, B, C, D; reflexivity.
Qed.

Lemma rint_ratio rm s p1 d1 p2 d2 :
  0 < d1 -> 0 < d2 -> p1 * d2 = p2 * d1 -> rint rm s p1 d1 = rint rm s p2 d2.
Proof.
  intros H1 H2 E; unfold rint.
  rewrite (div_ratio p1 d1 p2 d2) by assumption.
  rewrite (rounds_up_ratio rm s _ (p1 mod d1) d1 (p2 mod d2) d2);
    auto using mod_ratio.
Qed.

Lemma inexact_ratio p1 d1 p2 d2 :
  0 < d1 -> 0 < d2 -> p1 * d2 = p2 * d1 -> inexact p1 d1 = inexact p2 d2.
Proof.
  intros H1 H2 E; unfold inexact, nz; f_equal.
  pose proof (mod_ratio _ _ _ _ H1 H2 E).
  apply eq_true_iff_eq; rewrite !Z.eqb_eq; split; intros; nia.
Qed.

Lemma rint_range rm s p d : 0 < d -> p / d <= rint rm s p d <= p / d + 1.
Proof. intros; unfold rint; destruct (rounds_up _ _ _ _ _); bsimpl; lia. Qed.

Lemma rint_exact rm s p d : 0 < d -> p mod d = 0 -> rint rm s p d = p / d.
Proof.
  intros Hd E; unfold rint, rounds_up, nz; rewrite E.
  replace (d <? 2 * 0) with false by (symmetry; apply Z.ltb_ge; lia).
  replace (2 * 0 =? d) with false by (symmetry; apply Z.eqb_neq; lia).
  replace (d <=? 2 * 0) with false by (symmetry; apply Z.leb_gt; lia).
  rewrite Z.eqb_refl, !andb_false_r.
  case_ifs; bsimpl; lia.
Qed.

(** ** Jamming *)

Definition jam (n : Z) (sticky : bool) : Z := if sticky then n .| 1 else n.

(** The truncation of [p / d] with the lost fraction jammed into the low bit. *)
Definition jdiv (p d : Z) : Z := jam (p / d) (inexact p d).

Lemma jam_spec n b : jam n b = n + b2z (b && Z.even n).
Proof.
  unfold jam; destruct b; [|bsimpl; lia].
  rewrite lor_1; pose proof (Z.div_mod n 2 ltac:(lia)).
  rewrite even_mod2; destruct (Z.eqb_spec (n mod 2) 0); bsimpl;
    pose proof (Z.mod_pos_bound n 2 ltac:(lia)); lia.
Qed.

Lemma jam_div2 n b : jam n b / 2 = n / 2.
Proof.
  rewrite jam_spec; destruct b; bsimpl; [|f_equal; lia].
  rewrite even_mod2; destruct (Z.eqb_spec (n mod 2) 0); bsimpl; Z.div_mod_to_equations; lia.
Qed.

Lemma jam_div n b j : 1 <= j -> jam n b / 2 ^ j = n / 2 ^ j.
Proof.
  intros; pose proof (pow2_pos (j - 1) ltac:(lia)).
  rewrite (pow2_half j), <- !Z.div_div, jam_div2 by lia; reflexivity.
Qed.

Lemma jam_nonneg n b : 0 <= n -> 0 <= jam n b.
Proof. intros; rewrite jam_spec; destruct (b && Z.even n); bsimpl; lia. Qed.

Lemma jam_add k n b : Z.even k = true -> k + jam n b = jam (k + n) b.
Proof. intros E; rewrite !jam_spec, Z.even_add, E; destruct b, (Z.even n); bsimpl; lia. Qed.

Lemma jam_sub k n b : Z.even k = true -> k - jam n b = jam (k - n - b2z b) b.
Proof.
  intros E; rewrite !jam_spec, !Z.even_sub, E; destruct b, (Z.even n);
    cbn -[Z.sub Z.add]; lia.
Qed.

Lemma jam_compare d m f y Q :
  0 < d -> 0 < Q -> 0 <= f < d -> 0 <= m < 4 * Q ->
  (y = m /\ (f = 0 \/ m mod 2 = 1)) \/ (y = m + 1 /\ f <> 0 /\ m mod 2 = 0) ->
  (2 * (d * m + f) ?= d * (4 * Q)) = (2 * y ?= 4 * Q) /\ (d * m + f =? 0) = (y =? 0).
Proof.
  intros Hd HQ Hf Hm Hy.
  assert (E : m mod 2 = 0 -> m = 2 * (m / 2)) by (Z.div_mod_to_equations; lia).
  assert (O : m mod 2 = 1 -> m = 2 * (m / 2) + 1) by (Z.div_mod_to_equations; lia).
  split.
  - destruct (Z.lt_trichotomy m (2 * Q)) as [L | [L | L]].
    + rewrite (proj2 (Z.compare_lt_iff _ _)) by nia.
      symmetry; apply Z.compare_lt_iff; lia.
    + destruct Hy as [[-> [-> | Hodd]] | (-> & Hf0 & _)]; [| lia |].
      * rewrite !(proj2 (Z.compare_eq_iff _ _)) by nia; reflexivity.
      * rewrite !(proj2 (Z.compare_gt_iff _ _)) by nia; reflexivity.
    + rewrite !(proj2 (Z.compare_gt_iff _ _)) by nia; reflexivity.
  - apply eq_true_iff_eq; rewrite !Z.eqb_eq; split; intros; [|nia].
    assert (f = 0 /\ m = 0) by nia; lia.
Qed.

(** What is left below bit [j] of a jammed number, against the exact remainder. *)
Lemma jam_mod p d j :
  0 < d -> 2 <= j ->
  let r := p mod (d * 2 ^ j) in
  let y := jdiv p d mod 2 ^ j in
  (2 * r ?= d * 2 ^ j) = (2 * y ?= 2 ^ j) /\ (r =? 0) = (y =? 0).
Proof.
  intros Hd Hj r y.
  pose proof (pow2_pos j ltac:(lia)).
  set (n := p / d) in *; set (f := p mod d) in *.
  assert (Hf : 0 <= f < d) by (apply Z.mod_pos_bound; lia).
  assert (Hr : r = d * (n mod 2 ^ j) + f).
  { subst r; rewrite Z.rem_mul_r by lia; subst n f; lia. }
  assert (Hy : y = n mod 2 ^ j + b2z (nz f && Z.even n)).
  { subst y; unfold jdiv, inexact; fold n f; rewrite jam_spec.
    destruct (nz f && Z.even n) eqn:E; bsimpl; [|rewrite !Z.add_0_r; reflexivity].
    apply andb_prop in E as [_ E]; rewrite even_mod2 in E; apply Z.eqb_eq in E.
    rewrite (pow2_half j) in * by lia.
    pose proof (Z.rem_mul_r n 2 (2 ^ (j - 1))) as R1.
    pose proof (Z.rem_mul_r (n + 1) 2 (2 ^ (j - 1))) as R2.
    rewrite R1, R2 by lia.
    replace ((n + 1) / 2) with (n / 2) by (Z.div_mod_to_equations; lia).
    replace ((n + 1) mod 2) with 1 by (Z.div_mod_to_equations; lia).
    lia. }
  assert (Hm : n mod 2 ^ j mod 2 = n mod 2).
  { rewrite (pow2_half j), Z.rem_mul_r by (try apply pow2_pos; lia).
    rewrite (Z.mul_comm 2), Z.mod_add by lia; apply Z.mod_mod; lia. }
  assert (H4 : 2 ^ j = 4 * 2 ^ (j - 2)).
  { rewrite (pow2_half j), (pow2_half (j - 1)) by lia.
    replace (j - 1 - 1) with (j - 2) by lia; lia. }
  pose proof (pow2_pos (j - 2) ltac:(lia)).
  rewrite even_mod2 in Hy; rewrite <- Hm in Hy; clearbody r y.
  set (m := n mod 2 ^ j) in *.
  assert (0 <= m < 2 ^ j) by (apply Z.mod_pos_bound; lia).
  rewrite H4 in *; subst r; apply jam_compare; try assumption.
  subst y; unfold nz; destruct (Z.eqb_spec f 0), (Z.eqb_spec (m mod 2) 0); bsimpl;
    pose proof (Z.mod_pos_bound m 2 ltac:(lia)); lia.
Qed.

Lemma compare_bools a b c d :
  (a ?= b) = (c ?= d) ->
  (b <? a) = (d <? c) /\ (a =? b) = (c =? d) /\ (b <=? a) = (d <=? c).
Proof.
  intros E; rewrite !Z.eqb_compare, E; unfold Z.ltb, Z.leb.
  rewrite (Z.compare_antisym a b), (Z.compare_antisym c d), E; auto.
Qed.

Lemma jdiv_div p d j : 0 < d -> 1 <= j -> p / (d * 2 ^ j) = jdiv p d / 2 ^ j.
Proof.
  intros; pose proof (pow2_pos j ltac:(lia)).
  unfold jdiv; rewrite jam_div, Z.div_div by lia; reflexivity.
Qed.

Lemma rint_jam rm s p d j :
  0 < d -> 2 <= j -> rint rm s p (d * 2 ^ j) = rint rm s (jdiv p d) (2 ^ j).
Proof.
  intros Hd Hj; unfold rint; rewrite (jdiv_div p d j) by lia; do 2 f_equal.
  destruct (jam_mod p d j Hd Hj) as [C E].
  apply compare_bools in C as (C1 & C2 & C3).
  unfold rounds_up, nz; rewrite C1, C2, C3, E; reflexivity.
Qed.

Lemma inexact_jam p d j :
  0 < d -> 2 <= j -> inexact p (d * 2 ^ j) = inexact (jdiv p d) (2 ^ j).
Proof.
  intros Hd Hj; destruct (jam_mod p d j Hd Hj) as [_ E].
  unfold inexact, nz; rewrite E; reflexivity.
Qed.

(** ** Rounding to a format *)

Lemma ieee_round_ratio F rm s p1 q1 p2 q2 :
  0 < q1 -> 0 < q2 -> p1 * q2 = p2 * q1 ->
  ieee_round F rm s p1 q1 = ieee_round F rm s p2 q2.
Proof.
  intros H1 H2 E.
  assert (Q : qexp F p1 q1 = qexp F p2 q2)
    by (unfold qexp; rewrite (div_ratio p1 q1 p2 q2); auto).
  assert (0 < 2 ^ qexp F p2 q2) by (apply pow2_pos; unfold qexp; lia).
  assert (R : rmag F rm s p1 q1 = rmag F rm s p2 q2).
  { unfold rmag; rewrite Q; f_equal; apply rint_ratio; nia. }
  unfold ieee_round, tiny; rewrite R, Q, (div_ratio p1 q1 p2 q2) by auto.
  rewrite (rint_ratio rm s (2 * p1) q1 (2 * p2) q2) by nia.
  rewrite (inexact_ratio p1 (q1 * 2 ^ qexp F p2 q2) p2 (q2 * 2 ^ qexp F p2 q2)) by nia.
  reflexivity.
Qed.

(** Rounding the magnitude [p / d * 2 ^ k]. *)
Definition round_scaled (F : fmt) (rm : Z) (s : bool) (p d k : Z) : Z * Z :=
  ieee_round F rm s (p * 2 ^ Z.max k 0) (d * 2 ^ Z.max (- k) 0).

Lemma round_scaled_eq F rm s p d k c p' q' :
  0 < d -> 0 <= c -> 0 <= c + k -> 0 < q' ->
  p * 2 ^ (c + k) * q' = p' * (d * 2 ^ c) ->
  round_scaled F rm s p d k = ieee_round F rm s p' q'.
Proof.
  intros Hd Hc Hk Hq E; unfold round_scaled.
  pose proof (pow2_pos (Z.max (- k) 0) ltac:(lia)).
  pose proof (pow2_pos c ltac:(lia)).
  apply ieee_round_ratio; [nia | assumption |].
  assert (X : 2 ^ Z.max k 0 * 2 ^ c = 2 ^ (c + k) * 2 ^ Z.max (- k) 0).
  { rewrite <- !Z.pow_add_r by lia; f_equal; lia. }
  apply (Z.mul_reg_r _ _ (2 ^ c)); [lia|].
  transitivity (p * q' * (2 ^ Z.max k 0 * 2 ^ c)); [ring|].
  rewrite X; transitivity (p * 2 ^ (c + k) * q' * 2 ^ Z.max (- k) 0); [ring|].
  rewrite E; ring.
Qed.

Lemma round_scaled_shift F rm s p d k i :
  0 < d -> 0 <= i -> round_scaled F rm s (p * 2 ^ i) d k = round_scaled F rm s p d (k + i).
Proof.
  intros Hd Hi; unfold round_scaled at 2.
  pose proof (pow2_pos (Z.max (- (k + i)) 0) ltac:(lia)).
  apply (round_scaled_eq _ _ _ _ _ _ (Z.max (- k) 0)); try lia.
  assert (X : 2 ^ i * 2 ^ (Z.max (- k) 0 + k) * 2 ^ Z.max (- (k + i)) 0
              = 2 ^ Z.max (k + i) 0 * 2 ^ Z.max (- k) 0).
  { rewrite <- !Z.pow_add_r by lia; f_equal; lia. }
  transitivity (p * d * (2 ^ i * 2 ^ (Z.max (- k) 0 + k) * 2 ^ Z.max (- (k + i)) 0));
    [ring|]; rewrite X; ring.
Qed.

Lemma round_scaled_down F rm s p d k i :
  0 < d -> 0 <= i -> round_scaled F rm s p (d * 2 ^ i) (k + i) = round_scaled F rm s p d k.
Proof.
  intros Hd Hi; pose proof (pow2_pos i Hi); rewrite <- round_scaled_shift by nia.
  unfold round_scaled; pose proof (pow2_pos (Z.max (- k) 0) ltac:(lia)).
  apply ieee_round_ratio; [nia | nia | ring].
Qed.

(** Binades: the quantum of [p / d * 2 ^ k] from the leading bit of [p / d]. *)
Lemma log2_scaled p d k :
  0 < d -> 0 <= k -> d <= p -> Z.log2 (p * 2 ^ k / d) = Z.log2 (p / d) + k.
Proof.
  intros Hd Hk Hp; pose proof (pow2_pos k Hk).
  assert (N : 0 < p / d) by (apply Z.div_str_pos; lia).
  pose proof (Z.log2_spec _ N) as [L U]; rewrite <- Z.add_1_r in U.
  pose proof (Z.log2_nonneg (p / d)).
  pose proof (Z.mul_div_le p d Hd); pose proof (Z.mul_succ_div_gt p d Hd).
  apply Z.log2_unique; [lia|].
  rewrite <- Z.add_1_r, !pow2_succ, !Z.pow_add_r in * by lia.
  set (X := 2 ^ Z.log2 (p / d)) in *; set (K := 2 ^ k) in *.
  assert (d * X <= p < d * (2 * X)) by nia; split.
  - apply Z.div_le_lower_bound; nia.
  - apply Z.div_lt_upper_bound; nia.
Qed.

Lemma log2_div2 n : 2 <= n -> Z.log2 n = Z.log2 (n / 2) + 1.
Proof.
  intros; rewrite <- (Z.div2_div n), Z.div2_spec, Z.log2_shiftr by lia.
  pose proof (Z.log2_le_mono 2 n ltac:(lia)); change (Z.log2 2) with 1 in *; lia.
Qed.

Lemma log2_jam n b : 2 <= n -> Z.log2 (jam n b) = Z.log2 n.
Proof.
  intros H; pose proof (jam_div2 n b).
  assert (0 < n / 2) by (apply Z.div_str_pos; lia).
  rewrite (log2_div2 (jam n b)), (log2_div2 n), H0; auto.
  rewrite jam_spec; destruct (b && Z.even n); bsimpl; lia.
Qed.

Lemma ieee_round_ext F rm s p1 q1 p2 q2 :
  let e := qexp F p2 q2 in
  qexp F p1 q1 = e ->
  rint rm s p1 (q1 * 2 ^ e) = rint rm s p2 (q2 * 2 ^ e) ->
  inexact p1 (q1 * 2 ^ e) = inexact p2 (q2 * 2 ^ e) ->
  tiny F rm s p1 q1 = tiny F rm s p2 q2 ->
  ieee_round F rm s p1 q1 = ieee_round F rm s p2 q2.
Proof.
  intros e He Hr Hi Ht; unfold ieee_round, rmag; rewrite He, Ht; subst e.
  rewrite Hr, Hi; reflexivity.
Qed.

Section RoundJam.
Context (F : fmt) (rm : Z) (s : bool) (p d : Z).
Context (HF : 0 <= fbits F) (Hd : 0 < d) (Hp : 0 <= p).


Lemma ieee_round_jam_down c :
  1 <= c -> (3 <= c \/ 2 ^ (fbits F + 2) <= p / d) ->
  ieee_round F rm s p (d * 2 ^ c) = ieee_round F rm s (jdiv p d) (2 ^ c).
Proof.
  intros Hc H.
  assert (Q : qexp F p (d * 2 ^ c) = qexp F (jdiv p d) (2 ^ c))
    by (unfold qexp; rewrite (jdiv_div p d c) by lia; reflexivity).
  set (e := qexp F (jdiv p d) (2 ^ c)) in *.
  assert (E : 0 <= e /\ 2 <= c + e).
  { subst e; unfold qexp; split; [lia|]; destruct H as [H | H]; [lia|].
    pose proof (pow2_pos (fbits F + 2) ltac:(lia)); pose proof (pow2_pos c ltac:(lia)).
    rewrite <- (jdiv_div p d c), <- Z.div_div, <- shiftr_div, Z.log2_shiftr by lia.
    pose proof (Z.log2_le_mono _ _ H) as L; rewrite Z.log2_pow2 in L by lia; lia. }
  assert (T : tiny F rm s p (d * 2 ^ c) = tiny F rm s (jdiv p d) (2 ^ c)).
  { unfold tiny; rewrite (jdiv_div p d c) by lia.
    destruct (Z.ltb_spec (jdiv p d / 2 ^ c) (2 ^ fbits F)) as [L | L]; [|reflexivity].
    assert (C3 : 3 <= c).
    { destruct H as [H | H]; [lia|]; destruct (Z.le_gt_cases 3 c); [assumption|exfalso].
      pose proof (pow2_pos c ltac:(lia)).
      rewrite <- (jdiv_div p d c), <- Z.div_div in L by lia.
      pose proof (Z.div_le_mono _ _ (2 ^ c) ltac:(lia) H) as D.
      rewrite <- Z.pow_sub_r in D by lia.
      pose proof (pow2_le (fbits F) (fbits F + 2 - c) ltac:(lia)); lia. }
    bsimpl; f_equal; pose proof (pow2_half c ltac:(lia)) as E2.
    pose proof (pow2_pos (c - 1) ltac:(lia)).
    rewrite (rint_ratio _ _ (2 * p) (d * 2 ^ c) p (d * 2 ^ (c - 1))) by nia.
    rewrite (rint_ratio _ _ (2 * jdiv p d) (2 ^ c) (jdiv p d) (2 ^ (c - 1))) by nia.
    apply rint_jam; lia. }
  apply ieee_round_ext; fold e; [assumption | | | assumption].
  - rewrite <- !Z.mul_assoc, <- !Z.pow_add_r by lia; apply rint_jam; lia.
  - rewrite <- !Z.mul_assoc, <- !Z.pow_add_r by lia; apply inexact_jam; lia.
Qed.

Lemma ieee_round_jam_up k :
  0 <= k -> 2 ^ (fbits F + 2) <= p / d ->
  ieee_round F rm s (p * 2 ^ k) d = ieee_round F rm s (jdiv p d * 2 ^ k) 1.
Proof.
  intros Hk H.
  pose proof (pow2_pos k Hk); pose proof (pow2_le 2 (fbits F + 2) ltac:(lia)).
  assert (Hpd : d <= p).
  { destruct (Z.le_gt_cases d p); [assumption|]; rewrite Z.div_small in H by lia; lia. }
  assert (N : p / d <= jdiv p d)
    by (unfold jdiv; rewrite jam_spec; destruct (_ && _); bsimpl; lia).
  assert (L : Z.log2 (p * 2 ^ k / d) = Z.log2 (p / d) + k) by (apply log2_scaled; lia).
  assert (L' : Z.log2 (jdiv p d * 2 ^ k / 1) = Z.log2 (p / d) + k).
  { rewrite log2_scaled, Z.div_1_r by lia; unfold jdiv; rewrite log2_jam by lia; lia. }
  assert (G : fbits F + 2 <= Z.log2 (p / d)).
  { pose proof (Z.log2_le_mono _ _ H) as G; rewrite Z.log2_pow2 in G by lia; lia. }
  set (e := Z.log2 (p / d) + k - fbits F) in *.
  assert (Q1 : qexp F (p * 2 ^ k) d = e) by (unfold qexp; lia).
  assert (Q2 : qexp F (jdiv p d * 2 ^ k) 1 = e) by (unfold qexp; lia).
  pose proof (pow2_split e k ltac:(lia)) as S.
  pose proof (pow2_pos (e - k) ltac:(lia)).
  apply ieee_round_ext; rewrite ?Q2, ?Q1; [reflexivity | | |].
  - rewrite (rint_ratio _ _ (p * 2 ^ k) _ p (d * 2 ^ (e - k))) by nia.
    rewrite (rint_ratio _ _ (jdiv p d * 2 ^ k) _ (jdiv p d) (2 ^ (e - k))) by nia.
    apply rint_jam; lia.
  - rewrite (inexact_ratio (p * 2 ^ k) _ p (d * 2 ^ (e - k))) by nia.
    rewrite (inexact_ratio (jdiv p d * 2 ^ k) _ (jdiv p d) (2 ^ (e - k))) by nia.
    apply inexact_jam; lia.
  - unfold tiny.
    pose proof (pow2_le (fbits F) (fbits F + 2) ltac:(lia)).
    rewrite (proj2 (Z.ltb_ge (p * 2 ^ k / d) _)).
    2: { apply Z.div_le_lower_bound; [lia|]; pose proof (Z.mul_div_le p d Hd); nia. }
    rewrite (proj2 (Z.ltb_ge (jdiv p d * 2 ^ k / 1) _)) by (rewrite Z.div_1_r; nia).
    reflexivity.
Qed.

(** Rounding may start from the jammed truncation of the exact significand. *)
Lemma round_scaled_jam k :
  k <= -3 \/ 2 ^ (fbits F + 2) <= p / d ->
  round_scaled F rm s p d k = round_scaled F rm s (jdiv p d) 1 k.
Proof.
  intros H; unfold round_scaled; destruct (Z.le_gt_cases 0 k).
  - rewrite (Z.max_l k 0), (Z.max_r (- k) 0), Z.pow_0_r, !Z.mul_1_r by lia.
    apply ieee_round_jam_up; lia.
  - rewrite (Z.max_r k 0), (Z.max_l (- k) 0), Z.pow_0_r, !Z.mul_1_r, Z.mul_1_l by lia.
    apply ieee_round_jam_down; lia.
Qed.
End RoundJam.

(** The jammed quotient one bit lower, from the quotient and its exactness. *)
Lemma jdiv_half p d : 0 < d -> jdiv p d = 2 * (p / (d * 2)) + b2z (inexact p (d * 2)).
Proof.
  intros Hd; unfold jdiv; rewrite jam_spec.
  assert (E : p / (d * 2) = p / d / 2) by (rewrite Z.div_div by lia; reflexivity).
  assert (I : p mod (d * 2) = d * (p / d mod 2) + p mod d)
    by (rewrite Z.rem_mul_r by lia; lia).
  rewrite E, even_mod2; unfold inexact, nz; rewrite I.
  pose proof (Z.mod_pos_bound p d Hd); pose proof (Z.div_mod (p / d) 2 ltac:(lia)).
  destruct (Z.eqb_spec (p / d mod 2) 0) as [Z0|N].
  - rewrite Z0 in *; rewrite Z.mul_0_r, Z.add_0_l; destruct (p mod d =? 0); bsimpl; lia.
  - assert (O : p / d mod 2 = 1) by (pose proof (Z.mod_pos_bound (p / d) 2 ltac:(lia)); lia).
    rewrite O, (proj2 (Z.eqb_neq (d * 1 + p mod d) 0)), andb_false_r by lia; bsimpl; lia.
Qed.

(** Rounding a quotient that is known down to the rounding bit and, below it, up to being
    exact. *)
Lemma round_scaled_sticky F rm s z p d g k :
  0 < fbits F -> 0 < d -> 1 <= g -> 2 ^ (fbits F + 1 + g) <= z ->
  z / 2 ^ g = p / (d * 2 ^ g) -> inexact z (2 ^ g) = inexact p (d * 2 ^ g) ->
  round_scaled F rm s z 1 k = round_scaled F rm s p d k.
Proof.
  intros Hf Hd Hg Hz Eq Ei; pose proof (pow2_pos (g - 1) ltac:(lia)) as G.
  rewrite (pow2_half g), (Z.mul_comm 2) in Eq, Ei by lia; rewrite Z.mul_assoc in Eq, Ei.
  set (h := 2 ^ (g - 1)) in *.
  assert (J : jdiv z h = jdiv p (d * h)) by (rewrite !jdiv_half, Eq, Ei by nia; reflexivity).
  assert (Q : z / (h * 2) = p / (d * h) / 2) by (rewrite Z.div_div, Eq by nia; reflexivity).
  assert (Z0 : 2 ^ (fbits F + 2) <= z / h).
  { apply Z.div_le_lower_bound; [lia|]; unfold h; rewrite <- Z.pow_add_r by lia.
    replace (g - 1 + (fbits F + 2)) with (fbits F + 1 + g) by lia; exact Hz. }
  assert (P0 : 2 ^ (fbits F + 2) <= p / (d * h)).
  { rewrite <- Z.div_div in Q by lia.
    replace (fbits F + 2) with (fbits F + 1 + 1) in * by lia.
    rewrite pow2_succ in * by lia; Z.div_mod_to_equations; lia. }
  assert (Hp : 0 <= p).
  { pose proof (pow2_pos (fbits F + 2) ltac:(lia)).
    destruct (Z.lt_ge_cases p 0) as [N|]; [|lia].
    pose proof (Z.div_lt_upper_bound p (d * h) 0 ltac:(nia) ltac:(lia)); lia. }
  pose proof (pow2_pos (fbits F + 1 + g) ltac:(lia)).
  transitivity (round_scaled F rm s z h (k + (g - 1))).
  - symmetry; unfold h; rewrite <- (Z.mul_1_l (2 ^ (g - 1))); apply round_scaled_down; lia.
  - rewrite round_scaled_jam, J, <- round_scaled_jam by (lia || nia || auto).
    apply round_scaled_down; lia.
Qed.
