(* ===== verification/SfEnv.v ===== *)
(** * SoftFloat: environment, encodings and NaNs

    The state SoftFloat reads and writes ([softfloat_roundingMode] and the accumulated
    exception flags, which the port keeps in the [tp] register), as a small monad; the
    field macros of [internals.h]; the NaN conventions of [specialize.h] and
    [s_propagateNaNF32UI.c], [s_propagateNaNF64UI.c]. *)

From S2P Require Import Prelude FpSpec.
From Stdlib Require Import ZArith Lia Bool.

(** ** The floating-point environment *)

(** A routine reads the rounding mode and threads the exception flags. *)
Definition fp (A : Type) : Type := Z -> Z -> A * Z.

Definition ret {A : Type} (a : A) : fp A := fun _ fl => (a, fl).

Definition bind {A B : Type} (c : fp A) (k : A -> fp B) : fp B :=
  fun rm fl => let (a, fl') := c rm fl in k a rm fl'.

Declare Scope fp_scope.
Delimit Scope fp_scope with fp.
Notation "x <- c ;; k" := (bind c (fun x => k))
  (at level 100, c at next level, right associativity) : fp_scope.
Notation "c ;;; k" := (bind c (fun _ : unit => k)) (at level 100, right associativity) : fp_scope.
#[global] Open Scope fp_scope.

Definition softfloat_raiseFlags (which : Z) : fp unit := fun _ fl => (tt, fl .| which).

Definition softfloat_roundingMode : fp Z := fun rm fl => (rm, fl).

(** [if ( c ) softfloat_raiseFlags( which );] *)
Definition raise_if (c : bool) (which : Z) : fp unit :=
  if c then softfloat_raiseFlags which else ret tt.

(** A routine meets a specification that gives its result and the flags it raises. *)
Definition meets {A : Type} (c : fp A) (spec : Z -> A * Z) : Prop :=
  forall rm fl, c rm fl = (fst (spec rm), fl .| snd (spec rm)).

(** ** Encodings ([internals.h]) *)

Definition signF32UI (a : Z) : bool := nz (u32 a .>> 31).
Definition expF32UI (a : Z) : Z := (a .>> 23) .& 0xFF.
Definition fracF32UI (a : Z) : Z := a .& 0x007FFFFF.
Definition packToF32UI (sign : bool) (exp sig : Z) : Z :=
  u32 (u32 (b2z sign .<< 31) + u32 (u32 exp .<< 23) + sig).
Definition isNaNF32UI (a : Z) : bool :=
  (u32 (.~ a) .& 0x7F800000 =? 0) && nz (a .& 0x007FFFFF).

Definition signF64UI (a : Z) : bool := nz (u64 a .>> 63).
Definition expF64UI (a : Z) : Z := (a .>> 52) .& 0x7FF.
Definition fracF64UI (a : Z) : Z := a .& 0x000FFFFFFFFFFFFF.
Definition packToF64UI (sign : bool) (exp sig : Z) : Z :=
  u64 (u64 (b2z sign .<< 63) + u64 (u64 exp .<< 52) + sig).
Definition isNaNF64UI (a : Z) : bool :=
  (u64 (.~ a) .& 0x7FF0000000000000 =? 0) && nz (a .& 0x000FFFFFFFFFFFFF).

Record exp16_sig := ExpSig { es_exp : Z; es_sig : Z }.

(** ** NaNs ([specialize.h]) *)

Definition defaultNaNF32UI : Z := 0x7FC00000.
Definition softfloat_isSigNaNF32UI (uiA : Z) : bool :=
  (uiA .& 0x7FC00000 =? 0x7F800000) && nz (uiA .& 0x003FFFFF).
Definition softfloat_f32UIToCommonNaN (uiA : Z) : fp unit :=
  raise_if (negb (nz (uiA .& 0x00400000))) softfloat_flag_invalid.
Definition softfloat_commonNaNToF32UI : Z := defaultNaNF32UI.

Definition defaultNaNF64UI : Z := 0x7FF8000000000000.
Definition softfloat_isSigNaNF64UI (uiA : Z) : bool :=
  (uiA .& 0x7FF8000000000000 =? 0x7FF0000000000000) && nz (uiA .& 0x0007FFFFFFFFFFFF).
Definition softfloat_f64UIToCommonNaN (uiA : Z) : fp unit :=
  raise_if (negb (nz (uiA .& 0x0008000000000000))) softfloat_flag_invalid.
Definition softfloat_commonNaNToF64UI : Z := defaultNaNF64UI.

Definition softfloat_propagateNaNF32UI (uiA uiB : Z) : fp Z :=
  raise_if (softfloat_isSigNaNF32UI uiA || softfloat_isSigNaNF32UI uiB)
    softfloat_flag_invalid ;;;
  ret defaultNaNF32UI.

Definition softfloat_propagateNaNF64UI (uiA uiB : Z) : fp Z :=
  raise_if (softfloat_isSigNaNF64UI uiA || softfloat_isSigNaNF64UI uiB)
    softfloat_flag_invalid ;;;
  ret defaultNaNF64UI.

(** ** The macros compute the fields *)

Section Fields.
Context (F : fmt) (a : Z).
Context (Hf : 1 <= fbits F) (He : 1 <= ebits F).
Let w := 1 + ebits F + fbits F.
Context (Ha : 0 <= a < 2 ^ w).

Lemma fsign_ltb : fsign F a = (2 ^ (fbits F + ebits F) <=? a).
Proof using All.
  unfold fsign; rewrite odd_mod2.
  pose proof (pow2_pos (fbits F + ebits F) ltac:(lia)).
  assert (E : 2 ^ w = 2 * 2 ^ (fbits F + ebits F))
    by (rewrite <- pow2_succ by lia; f_equal; lia).
  destruct (Z.leb_spec (2 ^ (fbits F + ebits F)) a).
  - replace (a / _) with 1; [reflexivity|].
    apply (Z.div_unique _ _ _ (a - 2 ^ (fbits F + ebits F))); lia.
  - rewrite Z.div_small by lia; reflexivity.
Qed.

(** An encoding is the sum of its fields. *)
Lemma fields_split : a = signbit F (fsign F a) + fexp F a * 2 ^ fbits F + ffrac F a.
Proof using All.
  unfold signbit, fexp, ffrac; rewrite fsign_ltb.
  pose proof (div_mod_digits a (ebits F) (fbits F) ltac:(lia) ltac:(lia)) as D.
  rewrite Z.add_comm in D.
  assert (E : 2 ^ w = 2 * 2 ^ (fbits F + ebits F))
    by (rewrite <- pow2_succ by lia; f_equal; lia).
  destruct (Z.leb_spec (2 ^ (fbits F + ebits F)) a); bsimpl.
  - rewrite (Z.mod_eq a (2 ^ (fbits F + ebits F))) in D by lia.
    replace (a / 2 ^ (fbits F + ebits F)) with 1 in D; [lia|].
    apply (Z.div_unique _ _ _ (a - 2 ^ (fbits F + ebits F))); lia.
  - rewrite (Z.mod_small a) in D by lia; lia.
Qed.

Lemma fexp_range : 0 <= fexp F a <= emax F.
Proof using He.
  unfold fexp, emax.
  pose proof (Z.mod_pos_bound (a / 2 ^ fbits F) _ (pow2_pos (ebits F) ltac:(lia))); lia.
Qed.

Lemma ffrac_range : 0 <= ffrac F a < 2 ^ fbits F.
Proof using Hf. apply Z.mod_pos_bound, pow2_pos; lia. Qed.
End Fields.

Lemma nz_div_pow2 a n : 0 <= a -> 0 <= n -> nz (a / 2 ^ n) = (2 ^ n <=? a).
Proof.
  intros Ha Hn; pose proof (pow2_pos n Hn); unfold nz.
  destruct (Z.leb_spec (2 ^ n) a).
  - pose proof (Z.div_str_pos a (2 ^ n)); rewrite (proj2 (Z.eqb_neq _ _)) by lia; auto.
  - rewrite Z.div_small by lia; reflexivity.
Qed.

(** A mask test that all bits of a field are set. *)
Lemma lnot_field_zero w a n k :
  0 <= n -> 0 <= k -> n + k <= w -> 0 <= a < 2 ^ w ->
  (wrap w (.~ a) .& (2 ^ k - 1) * 2 ^ n =? 0) = (a / 2 ^ n mod 2 ^ k =? 2 ^ k - 1).
Proof.
  intros Hn Hk Hw Ha; pose proof (pow2_pos k Hk); pose proof (pow2_pos n Hn).
  assert (E : wrap w (.~ a) / 2 ^ n mod 2 ^ k = 2 ^ k - 1 - a / 2 ^ n mod 2 ^ k).
  { rewrite wrap_lnot by lia.
    replace (2 ^ w - 1 - a) with ((2 ^ (w - n) - 1 - a / 2 ^ n) * 2 ^ n
                                  + (2 ^ n - 1 - a mod 2 ^ n)).
    2: { pose proof (pow2_split w n ltac:(lia)); pose proof (Z.div_mod a (2 ^ n)); nia. }
    pose proof (Z.mod_pos_bound a (2 ^ n) ltac:(lia)).
    rewrite Z.div_add_l, (Z.div_small (2 ^ n - 1 - _)), Z.add_0_r by lia.
    rewrite (pow2_split (w - n) k) by lia.
    pose proof (Z.mod_pos_bound (a / 2 ^ n) (2 ^ k) ltac:(lia)).
    symmetry; apply (Z.mod_unique_pos _ _ (2 ^ (w - n - k) - 1 - a / 2 ^ n / 2 ^ k));
      [lia|].
    pose proof (Z.div_mod (a / 2 ^ n) (2 ^ k)); lia. }
  rewrite land_field, E by lia.
  apply eq_true_iff_eq; rewrite !Z.eqb_eq; split; intros; nia.
Qed.

(** Signaling NaNs, from the field that joins the exponent and the quiet bit. *)
Lemma snan_fields F a :
  1 <= fbits F -> 1 <= ebits F ->
  let f1 := fbits F - 1 in
  (a / 2 ^ f1 mod 2 ^ (ebits F + 1) * 2 ^ f1 =? inf_mag F) && nz (a mod 2 ^ f1)
  = is_snan F a.
Proof.
  intros Hf He f1; unfold is_snan, is_nan, inf_mag, fexp, ffrac, nz.
  pose proof (pow2_pos f1 ltac:(lia)) as P.
  pose proof (div_mod_digits (a / 2 ^ f1) (ebits F) 1 ltac:(lia) ltac:(lia)) as D1.
  pose proof (div_mod_digits a 1 f1 ltac:(lia) ltac:(lia)) as D2.
  rewrite Z.div_div, <- Z.pow_add_r in D1 by lia.
  replace (f1 + 1) with (fbits F) in D1 by lia; replace (1 + f1) with (fbits F) in D2 by lia.
  change (2 ^ 1) with 2 in *; rewrite D1, D2, (pow2_half (fbits F)) by lia; fold f1.
  pose proof (Z.mod_pos_bound a (2 ^ f1) P).
  pose proof (Z.mod_pos_bound (a / 2 ^ f1) 2 ltac:(lia)).
  set (E := a / (2 * 2 ^ f1) mod 2 ^ ebits F) in *.
  apply eq_true_iff_eq; rewrite !andb_true_iff, !negb_true_iff.
  rewrite !Z.eqb_eq, !Z.eqb_neq, Z.ltb_lt; split; intros H1.
  - destruct H1 as [H1 H2].
    assert (T : E * 2 + a / 2 ^ f1 mod 2 = emax F * 2)
      by (apply (Z.mul_reg_r _ _ (2 ^ f1)); lia).
    assert (T' : a / 2 ^ f1 mod 2 = 0) by lia; rewrite T' in *; lia.
  - destruct H1 as [[H1 H2] H3].
    assert (T : a / 2 ^ f1 mod 2 = 0) by nia; rewrite T in *; nia.
Qed.

Section F32Fields.
Context (a : Z) (Ha : 0 <= a < 0x100000000).

Lemma signF32UI_spec : signF32UI a = fsign F32 a.
Proof using Ha.
  unfold signF32UI; rewrite fsign_ltb by (cbn; lia); wsimp.
  rewrite shiftr_div, nz_div_pow2 by lia; reflexivity.
Qed.

Lemma expF32UI_spec : expF32UI a = fexp F32 a.
Proof using Type.
  unfold expF32UI; rewrite shiftr_div by lia; apply (land_ones_mod _ 8); lia.
Qed.

Lemma fracF32UI_spec : fracF32UI a = ffrac F32 a.
Proof using Type. apply (land_ones_mod _ 23); lia. Qed.

Lemma isNaNF32UI_spec : isNaNF32UI a = is_nan F32 a.
Proof using Ha.
  unfold isNaNF32UI, is_nan; f_equal.
  - apply (lnot_field_zero 32 a 23 8); lia.
  - f_equal; apply (land_ones_mod _ 23); lia.
Qed.

Lemma isSigNaNF32UI_spec : softfloat_isSigNaNF32UI a = is_snan F32 a.
Proof using Type.
  unfold softfloat_isSigNaNF32UI.
  change 0x7FC00000 with ((2 ^ 9 - 1) * 2 ^ 22); rewrite land_field by lia.
  change 0x003FFFFF with (2 ^ 22 - 1); rewrite land_ones_mod by lia.
  apply (snan_fields F32); cbn; lia.
Qed.
End F32Fields.

Section F64Fields.
Context (a : Z) (Ha : 0 <= a < 0x10000000000000000).

Lemma signF64UI_spec : signF64UI a = fsign F64 a.
Proof using Ha.
  unfold signF64UI; rewrite fsign_ltb by (cbn; lia); wsimp.
  rewrite shiftr_div, nz_div_pow2 by lia; reflexivity.
Qed.

Lemma expF64UI_spec : expF64UI a = fexp F64 a.
Proof using Type.
  unfold expF64UI; rewrite shiftr_div by lia; apply (land_ones_mod _ 11); lia.
Qed.

Lemma fracF64UI_spec : fracF64UI a = ffrac F64 a.
Proof using Type. apply (land_ones_mod _ 52); lia. Qed.

Lemma isNaNF64UI_spec : isNaNF64UI a = is_nan F64 a.
Proof using Ha.
  unfold isNaNF64UI, is_nan; f_equal.
  - apply (lnot_field_zero 64 a 52 11); lia.
  - f_equal; apply (land_ones_mod _ 52); lia.
Qed.

Lemma isSigNaNF64UI_spec : softfloat_isSigNaNF64UI a = is_snan F64 a.
Proof using Type.
  unfold softfloat_isSigNaNF64UI.
  change 0x7FF8000000000000 with ((2 ^ 12 - 1) * 2 ^ 51); rewrite land_field by lia.
  change 0x0007FFFFFFFFFFFF with (2 ^ 51 - 1); rewrite land_ones_mod by lia.
  apply (snan_fields F64); cbn; lia.
Qed.
End F64Fields.

Create Rewrite HintDb sf_fields.
#[export] Hint Rewrite signF32UI_spec expF32UI_spec fracF32UI_spec isNaNF32UI_spec
  isSigNaNF32UI_spec signF64UI_spec expF64UI_spec fracF64UI_spec isNaNF64UI_spec
  isSigNaNF64UI_spec using lia : sf_fields.

Lemma fsign_lxor F a b : 0 <= fbits F + ebits F ->
  fsign F (a .^ b) = xorb (fsign F a) (fsign F b).
Proof.
  intros H; unfold fsign; rewrite <- !shiftr_div, <- !Z.testbit_odd by lia; apply Z.lxor_spec.
Qed.

Lemma signbit_range F s : 0 <= signbit F s <= 2 ^ (fbits F + ebits F).
Proof.
  unfold signbit; pose proof (Z.pow_nonneg 2 (fbits F + ebits F) ltac:(lia)).
  destruct s; bsimpl; lia.
Qed.

(** Packing fields that do not overflow the word. *)
Lemma packToF32UI_spec sign exp sig :
  0 <= exp < 2 ^ 9 -> 0 <= sig -> exp * 2 ^ 23 + sig < 2 ^ 31 ->
  packToF32UI sign exp sig = signbit F32 sign + exp * 2 ^ 23 + sig.
Proof.
  intros; unfold packToF32UI, signbit; cbn [fbits ebits F32].
  rewrite !shiftl_mul by lia; change (23 + 8) with 31.
  assert (0 <= b2z sign <= 1) by (destruct sign; bsimpl; lia).
  wsimp; lia.
Qed.

Lemma packToF64UI_spec sign exp sig :
  0 <= exp < 2 ^ 12 -> 0 <= sig -> exp * 2 ^ 52 + sig < 2 ^ 63 ->
  packToF64UI sign exp sig = signbit F64 sign + exp * 2 ^ 52 + sig.
Proof.
  intros; unfold packToF64UI, signbit; cbn [fbits ebits F64].
  rewrite !shiftl_mul by lia; change (52 + 11) with 63.
  assert (0 <= b2z sign <= 1) by (destruct sign; bsimpl; lia).
  wsimp; lia.
Qed.
