(* ===== verification/SfPrim.v ===== *)
(** * SoftFloat: shifts with jamming and leading-zero counts

    [s_shiftRightJam32.c], [s_shiftRightJam64.c], [s_shortShiftRightJam64.c],
    [s_countLeadingZeros8.c], [s_countLeadingZeros32.c], [s_countLeadingZeros64.c]. *)

From S2P Require Import Prelude FpSpec FpTheory.
From Stdlib Require Import ZArith Lia Bool List.
Import ListNotations.

Definition softfloat_shiftRightJam32 (a dist : Z) : Z :=
  if dist <? 31
  then (a .>> dist) .| b2z (nz (u32 (a .<< (u32 (- dist) .& 31))))
  else b2z (nz a).

Definition softfloat_shiftRightJam64 (a dist : Z) : Z :=
  if dist <? 63
  then (a .>> dist) .| b2z (nz (u64 (a .<< (u32 (- dist) .& 63))))
  else b2z (nz a).

Definition softfloat_shortShiftRightJam64 (a dist : Z) : Z :=
  (a .>> dist) .| b2z (nz (a .& (u64 (1 .<< dist) - 1))).

Definition softfloat_countLeadingZeros8 : list Z := [
    8; 7; 6; 6; 5; 5; 5; 5; 4; 4; 4; 4; 4; 4; 4; 4;
    3; 3; 3; 3; 3; 3; 3; 3; 3; 3; 3; 3; 3; 3; 3; 3;
    2; 2; 2; 2; 2; 2; 2; 2; 2; 2; 2; 2; 2; 2; 2; 2;
    2; 2; 2; 2; 2; 2; 2; 2; 2; 2; 2; 2; 2; 2; 2; 2;
    1; 1; 1; 1; 1; 1; 1; 1; 1; 1; 1; 1; 1; 1; 1; 1;
    1; 1; 1; 1; 1; 1; 1; 1; 1; 1; 1; 1; 1; 1; 1; 1;
    1; 1; 1; 1; 1; 1; 1; 1; 1; 1; 1; 1; 1; 1; 1; 1;
    1; 1; 1; 1; 1; 1; 1; 1; 1; 1; 1; 1; 1; 1; 1; 1;
    0; 0; 0; 0; 0; 0; 0; 0; 0; 0; 0; 0; 0; 0; 0; 0;
    0; 0; 0; 0; 0; 0; 0; 0; 0; 0; 0; 0; 0; 0; 0; 0;
    0; 0; 0; 0; 0; 0; 0; 0; 0; 0; 0; 0; 0; 0; 0; 0;
    0; 0; 0; 0; 0; 0; 0; 0; 0; 0; 0; 0; 0; 0; 0; 0;
    0; 0; 0; 0; 0; 0; 0; 0; 0; 0; 0; 0; 0; 0; 0; 0;
    0; 0; 0; 0; 0; 0; 0; 0; 0; 0; 0; 0; 0; 0; 0; 0;
    0; 0; 0; 0; 0; 0; 0; 0; 0; 0; 0; 0; 0; 0; 0; 0;
    0; 0; 0; 0; 0; 0; 0; 0; 0; 0; 0; 0; 0; 0; 0; 0
].

Definition softfloat_countLeadingZeros32 (a : Z) : Z :=
  let count := 0 in
  let '(count, a) :=
    if a <? 0x10000 then (16, u32 (a .<< 16)) else (count, a) in
  let '(count, a) :=
    if a <? 0x1000000 then (count + 8, u32 (a .<< 8)) else (count, a) in
  count + nth (Z.to_nat (a .>> 24)) softfloat_countLeadingZeros8 0.

Definition softfloat_countLeadingZeros64 (a : Z) : Z :=
  let count := 0 in
  let a32 := u32 (a .>> 32) in
  let '(count, a32) :=
    if negb (nz a32) then (32, u32 a) else (count, a32) in
  let '(count, a32) :=
    if a32 <? 0x10000 then (count + 16, u32 (a32 .<< 16)) else (count, a32) in
  let '(count, a32) :=
    if a32 <? 0x1000000 then (count + 8, u32 (a32 .<< 8)) else (count, a32) in
  count + nth (Z.to_nat (a32 .>> 24)) softfloat_countLeadingZeros8 0.

(** ** Shifts *)

Lemma lor_b2z n b : n .| b2z b = jam n b.
Proof. destruct b; cbn [Z.b2z jam]; auto using Z.lor_0_r. Qed.

(** The bits a right shift loses are those a complementary left shift keeps. *)
Lemma nz_shiftl_lost w a dist :
  0 < dist < w -> nz (wrap w (a .<< (w - dist))) = inexact a (2 ^ dist).
Proof.
  intros H; unfold inexact, nz, wrap; f_equal.
  pose proof (pow2_pos dist ltac:(lia)); pose proof (pow2_pos (w - dist) ltac:(lia)).
  rewrite shiftl_mul, (pow2_split w (w - dist)) by lia.
  replace (w - (w - dist)) with dist by lia.
  rewrite (Z.mul_comm (2 ^ (w - dist))), Z.mul_mod_distr_r by lia.
  apply eq_true_iff_eq; rewrite !Z.eqb_eq; split; intros; nia.
Qed.

(** A shift by [w - 1] or more leaves only the sticky bit. *)
Lemma jdiv_large w a dist :
  0 <= w <= dist -> 0 <= a < 2 ^ (w + 1) -> jdiv a (2 ^ dist) = b2z (nz a).
Proof.
  intros H Ha; pose proof (pow2_le w dist ltac:(lia)); pose proof (pow2_pos w ltac:(lia)).
  rewrite pow2_succ in Ha by lia; unfold jdiv, inexact.
  destruct (Z.lt_ge_cases a (2 ^ dist)) as [L | L].
  - rewrite Z.div_small, Z.mod_small by lia; unfold jam; destruct (nz a); reflexivity.
  - assert (D : a / 2 ^ dist = 1)
      by (symmetry; apply (Z.div_unique _ _ _ (a - 2 ^ dist)); lia).
    rewrite D; replace (nz a) with true by (unfold nz; rewrite (proj2 (Z.eqb_neq _ _)); lia).
    unfold jam; destruct (nz _); reflexivity.
Qed.

Lemma neg_mod_mask w n dist :
  0 <= n <= w -> 0 < dist < 2 ^ n -> wrap w (- dist) .& (2 ^ n - 1) = 2 ^ n - dist.
Proof.
  intros H Hd; pose proof (pow2_le n w ltac:(lia)).
  rewrite land_ones_mod by lia; unfold wrap.
  replace (- dist) with (2 ^ w - dist + -1 * 2 ^ w) by lia.
  rewrite Z.mod_add, (Z.mod_small (2 ^ w - dist)) by lia.
  rewrite (pow2_split w n) by lia.
  symmetry; apply (Z.mod_unique_pos _ _ (2 ^ (w - n) - 1)); lia.
Qed.

(** Both shifts compute the truncated quotient with its lost bits jammed. *)
Lemma shiftRightJam32_spec a dist :
  0 <= a < 2 ^ 32 -> 1 <= dist -> softfloat_shiftRightJam32 a dist = jdiv a (2 ^ dist).
Proof.
  intros Ha Hd; unfold softfloat_shiftRightJam32.
  destruct (Z.ltb_spec dist 31); [|symmetry; apply (jdiv_large 31); lia].
  change 31 with (2 ^ 5 - 1) at 1; unfold u32; rewrite neg_mod_mask by lia.
  change (2 ^ 5) with 32; rewrite lor_b2z, nz_shiftl_lost, shiftr_div by lia; reflexivity.
Qed.

Lemma shiftRightJam64_spec a dist :
  0 <= a < 2 ^ 64 -> 1 <= dist -> softfloat_shiftRightJam64 a dist = jdiv a (2 ^ dist).
Proof.
  intros Ha Hd; unfold softfloat_shiftRightJam64.
  destruct (Z.ltb_spec dist 63); [|symmetry; apply (jdiv_large 63); lia].
  change 63 with (2 ^ 6 - 1) at 1; unfold u32, u64; rewrite neg_mod_mask by lia.
  change (2 ^ 6) with 64; rewrite lor_b2z, nz_shiftl_lost, shiftr_div by lia; reflexivity.
Qed.

Lemma shortShiftRightJam64_spec a dist :
  0 <= dist < 64 -> softfloat_shortShiftRightJam64 a dist = jdiv a (2 ^ dist).
Proof.
  intros Hd; unfold softfloat_shortShiftRightJam64.
  pose proof (pow2_pos dist ltac:(lia)); pose proof (pow2_lt dist 64 ltac:(lia)).
  rewrite shiftl_mul, Z.mul_1_l by lia; unfold u64; rewrite wrap_small by lia.
  rewrite lor_b2z, shiftr_div, land_ones_mod by lia; reflexivity.
Qed.

(** ** Leading zeros *)

Lemma countLeadingZeros8_spec i :
  0 < i < 256 -> nth (Z.to_nat i) softfloat_countLeadingZeros8 0 = 7 - Z.log2 i.
Proof.
  intros H.
  assert (A : forallb (fun n => nth n softfloat_countLeadingZeros8 0 =? 7 - Z.log2 (Z.of_nat n))
                (seq 1 255) = true) by (vm_compute; reflexivity).
  rewrite forallb_forall in A.
  specialize (A (Z.to_nat i) ltac:(apply in_seq; lia)).
  rewrite Z2Nat.id in A by lia; lia.
Qed.

Lemma log2_shift a n : 0 < a -> 0 <= n -> Z.log2 (a * 2 ^ n) = Z.log2 a + n.
Proof. intros; rewrite Z.log2_mul_pow2 by lia; lia. Qed.

Lemma log2_div_pow2 a n : 0 <= n -> 2 ^ n <= a -> Z.log2 (a / 2 ^ n) = Z.log2 a - n.
Proof.
  intros Hn H; pose proof (pow2_pos n Hn).
  rewrite <- shiftr_div, Z.log2_shiftr by lia.
  pose proof (Z.log2_le_mono _ _ H) as L; rewrite Z.log2_pow2 in L by lia; lia.
Qed.

(** The table lookup on the top byte of a word that reaches it. *)
Lemma top_byte_clz a :
  2 ^ 24 <= a < 2 ^ 32 ->
  nth (Z.to_nat (a .>> 24)) softfloat_countLeadingZeros8 0 = 31 - Z.log2 a.
Proof.
  intros H; rewrite shiftr_div, countLeadingZeros8_spec, log2_div_pow2 by
    (try (split; [apply Z.div_str_pos | apply Z.div_lt_upper_bound]); lia); lia.
Qed.

Lemma countLeadingZeros32_spec a :
  0 < a < 2 ^ 32 -> softfloat_countLeadingZeros32 a = 31 - Z.log2 a.
Proof.
  intros H; unfold softfloat_countLeadingZeros32.
  do 2 (zcase; rewrite ?shiftl_mul by lia; wsimp);
    rewrite top_byte_clz, ?log2_shift by lia; lia.
Qed.

Lemma countLeadingZeros64_spec a :
  0 < a < 2 ^ 64 -> softfloat_countLeadingZeros64 a = 63 - Z.log2 a.
Proof.
  intros H; unfold softfloat_countLeadingZeros64, nz; rewrite shiftr_div by lia.
  assert (R : 0 <= a / 2 ^ 32 < 2 ^ 32)
    by (split; [apply Z.div_pos | apply Z.div_lt_upper_bound]; lia).
  rewrite (u32_small (a / _)), negb_involutive by lia.
  destruct (Z.eqb_spec (a / 2 ^ 32) 0) as [E | E].
  - assert (a < 2 ^ 32) by (apply Z.div_small_iff in E; lia).
    wsimp; do 2 (zcase; rewrite ?shiftl_mul by lia; wsimp);
      rewrite top_byte_clz, ?log2_shift by lia; lia.
  - assert (G : 2 ^ 32 <= a).
    { destruct (Z.le_gt_cases (2 ^ 32) a); [assumption|]; rewrite Z.div_small in E; lia. }
    pose proof (log2_div_pow2 a 32 ltac:(lia) G).
    do 2 (zcase; rewrite ?shiftl_mul by lia; wsimp);
      rewrite top_byte_clz, ?log2_shift by lia; lia.
Qed.

(** Normalizing by the count puts the leading one at the top. *)
Lemma normalize_range a n :
  0 < a -> Z.log2 a <= n -> 2 ^ n <= a * 2 ^ (n - Z.log2 a) < 2 ^ (n + 1).
Proof.
  intros H Hn; destruct (Z.log2_spec a H) as [L U]; pose proof (Z.log2_nonneg a).
  rewrite <- Z.add_1_r in U.
  pose proof (pow2_pos (n - Z.log2 a) ltac:(lia)).
  replace (2 ^ n) with (2 ^ Z.log2 a * 2 ^ (n - Z.log2 a))
    by (rewrite <- Z.pow_add_r by lia; f_equal; lia).
  replace (2 ^ (n + 1)) with (2 ^ (Z.log2 a + 1) * 2 ^ (n - Z.log2 a))
    by (rewrite <- Z.pow_add_r by lia; f_equal; lia).
  nia.
Qed.
