(* ===== verification/SfRound.v ===== *)
(** * SoftFloat: rounding and packing

    [s_normSubnormalF32Sig.c], [s_normSubnormalF64Sig.c], [s_roundPackToF32.c],
    [s_roundPackToF64.c], [s_normRoundPackToF32.c], [s_normRoundPackToF64.c]: the back end
    every arithmetic routine ends in, and the theorem that it is [ieee_round]. *)

From S2P Require Import Prelude FpSpec FpTheory SfEnv SfPrim.
From Stdlib Require Import ZArith Lia Bool.

(** ** Definitions *)

Definition softfloat_normSubnormalF32Sig (sig : Z) : exp16_sig :=
  let shiftDist := softfloat_countLeadingZeros32 sig - 8 in
  ExpSig (1 - shiftDist) (u32 (sig .<< shiftDist)).

Definition softfloat_normSubnormalF64Sig (sig : Z) : exp16_sig :=
  let shiftDist := softfloat_countLeadingZeros64 sig - 11 in
  ExpSig (1 - shiftDist) (u64 (sig .<< shiftDist)).

Definition softfloat_roundPackToF32 (sign : bool) (exp sig : Z) : fp Z :=
  roundingMode <- softfloat_roundingMode ;;
  let roundNearEven := roundingMode =? softfloat_round_near_even in
  let roundIncrement :=
    if negb roundNearEven && negb (roundingMode =? softfloat_round_near_maxMag)
    then (if roundingMode =? (if sign then softfloat_round_min else softfloat_round_max)
          then 0x7F else 0)
    else 0x40 in
  let roundBits := sig .& 0x7F in
  let finish (exp sig roundBits : Z) : fp Z :=
    let sig := u32 (sig + roundIncrement) .>> 7 in
    raise_if (nz roundBits) softfloat_flag_inexact ;;;
    let sig := sig .& u32 (.~ b2z (negb (nz (roundBits .^ 0x40)) && roundNearEven)) in
    let exp := if negb (nz sig) then 0 else exp in
    ret (packToF32UI sign exp sig) in
  if 0xFD <=? u32 exp then
    if exp <? 0 then
      let isTiny := (exp <? -1) || (u32 (sig + roundIncrement) <? 0x80000000) in
      let sig := softfloat_shiftRightJam32 sig (- exp) in
      let exp := 0 in
      let roundBits := sig .& 0x7F in
      raise_if (isTiny && nz roundBits) softfloat_flag_underflow ;;;
      finish exp sig roundBits
    else if (0xFD <? exp) || (0x80000000 <=? u32 (sig + roundIncrement)) then
      softfloat_raiseFlags (softfloat_flag_overflow .| softfloat_flag_inexact) ;;;
      ret (u32 (packToF32UI sign 0xFF 0 - b2z (negb (nz roundIncrement))))
    else finish exp sig roundBits
  else finish exp sig roundBits.

Definition softfloat_roundPackToF64 (sign : bool) (exp sig : Z) : fp Z :=
  roundingMode <- softfloat_roundingMode ;;
  let roundNearEven := roundingMode =? softfloat_round_near_even in
  let roundIncrement :=
    if negb roundNearEven && negb (roundingMode =? softfloat_round_near_maxMag)
    then (if roundingMode =? (if sign then softfloat_round_min else softfloat_round_max)
          then 0x3FF else 0)
    else 0x200 in
  let roundBits := sig .& 0x3FF in
  let finish (exp sig roundBits : Z) : fp Z :=
    let sig := u64 (sig + roundIncrement) .>> 10 in
    raise_if (nz roundBits) softfloat_flag_inexact ;;;
    let sig := sig .& u64 (.~ b2z (negb (nz (roundBits .^ 0x200)) && roundNearEven)) in
    let exp := if negb (nz sig) then 0 else exp in
    ret (packToF64UI sign exp sig) in
  if 0x7FD <=? u16 exp then
    if exp <? 0 then
      let isTiny := (exp <? -1) || (u64 (sig + roundIncrement) <? 0x8000000000000000) in
      let sig := softfloat_shiftRightJam64 sig (- exp) in
      let exp := 0 in
      let roundBits := sig .& 0x3FF in
      raise_if (isTiny && nz roundBits) softfloat_flag_underflow ;;;
      finish exp sig roundBits
    else if (0x7FD <? exp) || (0x8000000000000000 <=? u64 (sig + roundIncrement)) then
      softfloat_raiseFlags (softfloat_flag_overflow .| softfloat_flag_inexact) ;;;
      ret (u64 (packToF64UI sign 0x7FF 0 - b2z (negb (nz roundIncrement))))
    else finish exp sig roundBits
  else finish exp sig roundBits.

Definition softfloat_normRoundPackToF32 (sign : bool) (exp sig : Z) : fp Z :=
  let shiftDist := softfloat_countLeadingZeros32 sig - 1 in
  let exp := exp - shiftDist in
  if (7 <=? shiftDist) && (u32 exp <? 0xFD)
  then ret (packToF32UI sign (if nz sig then exp else 0) (u32 (sig .<< (shiftDist - 7))))
  else softfloat_roundPackToF32 sign exp (u32 (sig .<< shiftDist)).

Definition softfloat_normRoundPackToF64 (sign : bool) (exp sig : Z) : fp Z :=
  let shiftDist := softfloat_countLeadingZeros64 sig - 1 in
  let exp := exp - shiftDist in
  if (10 <=? shiftDist) && (u32 exp <? 0x7FD)
  then ret (packToF64UI sign (if nz sig then exp else 0) (u64 (sig .<< (shiftDist - 10))))
  else softfloat_roundPackToF64 sign exp (u64 (sig .<< shiftDist)).

(** ** Rounding by adding an increment *)

(** The increment for [j] round bits. *)
Definition round_inc (rm : Z) (sign : bool) (j : Z) : Z :=
  if negb (rm =? softfloat_round_near_even) && negb (rm =? softfloat_round_near_maxMag)
  then (if rm =? (if sign then softfloat_round_min else softfloat_round_max)
        then 2 ^ j - 1 else 0)
  else 2 ^ (j - 1).

Lemma round_inc_range rm s j : 1 <= j -> 0 <= round_inc rm s j < 2 ^ j.
Proof.
  intros; unfold round_inc; pose proof (pow2_half j); pose proof (pow2_pos (j - 1)).
  case_ifs; lia.
Qed.

Lemma round_inc_zero rm s j : 1 <= j -> nz (round_inc rm s j) = rounds_away rm s.
Proof.
  intros; unfold round_inc, rounds_away, nz; pose proof (pow2_half j);
    pose proof (pow2_pos (j - 1)).
  destruct (rm =? softfloat_round_near_even), (rm =? softfloat_round_near_maxMag); bsimpl;
    rewrite ?(proj2 (Z.eqb_neq (2 ^ (j - 1)) 0)) by lia; try reflexivity.
  destruct s; bsimpl; rewrite ?andb_true_r, ?andb_false_r, ?orb_false_r; case_ifs; bsimpl;
    breflect; try apply negb_true_iff, Z.eqb_neq; try reflexivity; lia.
Qed.

(** Adding the increment and dropping the round bits; on a tie in the nearest-even mode the
    low bit is cleared. *)
Lemma round_inc_rint rm s sig j :
  2 <= j -> 0 <= sig ->
  let z := (sig + round_inc rm s j) / 2 ^ j in
  (if (sig mod 2 ^ j =? 2 ^ (j - 1)) && (rm =? softfloat_round_near_even)
   then z - z mod 2 else z) = rint rm s sig (2 ^ j).
Proof.
  intros Hj Hs z.
  pose proof (pow2_half j ltac:(lia)) as E; pose proof (pow2_pos (j - 1) ltac:(lia)) as P.
  pose proof (round_inc_range rm s j ltac:(lia)) as R.
  pose proof (Z.mod_pos_bound sig (2 ^ j) ltac:(lia)) as M.
  set (n := sig / 2 ^ j) in *; set (r := sig mod 2 ^ j) in *.
  assert (D : sig = n * 2 ^ j + r) by (subst n r; rewrite Z.mul_comm; apply Z.div_mod; lia).
  assert (Ez : z = n + b2z (2 ^ j <=? r + round_inc rm s j)).
  { subst z; rewrite D, <- Z.add_assoc, Z.div_add_l by lia; f_equal.
    destruct (Z.leb_spec (2 ^ j) (r + round_inc rm s j)); bsimpl.
    - symmetry; apply (Z.div_unique_pos _ _ _ (r + round_inc rm s j - 2 ^ j)); lia.
    - apply Z.div_small; lia. }
  clearbody z; clear R; unfold rint, rounds_up, round_inc in *; fold n r; clearbody n r.
  destruct (rm =? softfloat_round_near_even) eqn:NE; cbn [andb negb] in *; rewrite ?andb_false_r, ?andb_true_r.
  - rewrite Ez, odd_mod2; unfold nz.
    destruct (Z.eqb_spec r (2 ^ (j - 1))).
    + rewrite (proj2 (Z.leb_le (2 ^ j) _)), (proj2 (Z.ltb_ge (2 ^ j) _)),
        (proj2 (Z.eqb_eq (2 * r) _)) by lia; bsimpl.
      destruct (Z.eqb_spec (n mod 2) 1); bsimpl; Z.div_mod_to_equations; lia.
    + rewrite (proj2 (Z.eqb_neq (2 * r) _)), andb_false_l, orb_false_r by lia; f_equal; f_equal.
      apply eq_true_iff_eq; rewrite Z.leb_le, Z.ltb_lt; lia.
  - destruct (rm =? softfloat_round_near_maxMag); cbn [andb negb] in *.
    + rewrite Ez; do 2 f_equal; apply eq_true_iff_eq; rewrite !Z.leb_le; lia.
    + rewrite Ez; unfold nz; f_equal; f_equal.
      destruct s; bsimpl; apply eq_true_iff_eq; rewrite Z.leb_le; case_ifs;
        rewrite ?negb_true_iff, ?Z.eqb_neq; breflect; subst; try discriminate; try lia.
Qed.

Lemma round_inc_carry rm s sig j n :
  2 <= j -> 1 <= n -> 0 <= sig < 2 ^ (n + j) ->
  (2 ^ (n + j) <=? sig + round_inc rm s j) = (2 ^ n <=? rint rm s sig (2 ^ j)).
Proof.
  intros Hj Hn Hs; rewrite <- (round_inc_rint rm s sig j) by lia.
  pose proof (round_inc_range rm s j ltac:(lia)) as R.
  pose proof (pow2_pos j ltac:(lia)); pose proof (pow2_pos (n - 1) ltac:(lia)).
  pose proof (pow2_half n ltac:(lia)) as E.
  rewrite Z.pow_add_r in * by lia.
  set (z := (sig + round_inc rm s j) / 2 ^ j).
  assert (C : (2 ^ n * 2 ^ j <=? sig + round_inc rm s j) = (2 ^ n <=? z)).
  { apply eq_true_iff_eq; rewrite !Z.leb_le; subst z; split; intros.
    - apply Z.div_le_lower_bound; lia.
    - pose proof (Z.mul_div_le (sig + round_inc rm s j) (2 ^ j)); nia. }
  rewrite C; destruct (_ && _); [|reflexivity].
  assert (z <= 2 ^ n) by (subst z; apply Z.lt_succ_r, Z.div_lt_upper_bound; nia).
  apply eq_true_iff_eq; rewrite !Z.leb_le; Z.div_mod_to_equations; lia.
Qed.

Section RoundPack.
Context (F : fmt) (rm : Z) (s : bool) (exp sig j : Z).
Context (HF : 1 <= fbits F) (Hj : 3 <= j).
Context (Hsig : 2 ^ (fbits F + j) <= sig < 2 ^ (fbits F + j + 1)).

Lemma sig_div : 2 ^ fbits F <= sig / 2 ^ j < 2 ^ (fbits F + 1).
Proof using HF Hj Hsig.
  pose proof (pow2_pos j ltac:(lia)).
  rewrite !pow2_succ, Z.pow_add_r in * by lia.
  split; [apply Z.div_le_lower_bound | apply Z.div_lt_upper_bound]; lia.
Qed.

Lemma rint_sig : 2 ^ fbits F <= rint rm s sig (2 ^ j) <= 2 ^ (fbits F + 1).
Proof using HF Hj Hsig.
  pose proof sig_div; pose proof (rint_range rm s sig (2 ^ j) (pow2_pos j ltac:(lia))); lia.
Qed.

(** A normalized significand in the normal range: the quantum is [2 ^ exp]. *)
Lemma round_scaled_normal :
  0 <= exp ->
  round_scaled F rm s sig 1 (exp - j)
  = let m := exp * 2 ^ fbits F + rint rm s sig (2 ^ j) in
    if inf_mag F <=? m then
      (signbit F s + (inf_mag F - b2z (negb (rounds_away rm s))),
       softfloat_flag_overflow .| softfloat_flag_inexact)
    else (signbit F s + m, if inexact sig (2 ^ j) then softfloat_flag_inexact else 0).
Proof using HF Hj Hsig.
  intros He; pose proof sig_div as D.
  pose proof (pow2_pos j ltac:(lia)); pose proof (pow2_pos exp ltac:(lia)).
  pose proof (pow2_pos (fbits F) ltac:(lia)).
  rewrite (round_scaled_eq _ _ _ _ _ _ j (sig * 2 ^ exp) (2 ^ j)) by
    (try replace (j + (exp - j)) with exp by lia; lia).
  assert (L : Z.log2 (sig * 2 ^ exp / 2 ^ j) = fbits F + exp).
  { rewrite log2_scaled; try lia.
    - rewrite (Z.log2_unique (sig / 2 ^ j) (fbits F)); [lia | lia |].
      rewrite <- Z.add_1_r; lia.
    - pose proof (Z.mul_div_le sig (2 ^ j)); nia. }
  assert (Q : qexp F (sig * 2 ^ exp) (2 ^ j) = exp) by (unfold qexp; lia).
  assert (T : tiny F rm s (sig * 2 ^ exp) (2 ^ j) = false).
  { unfold tiny; rewrite (proj2 (Z.ltb_ge _ (2 ^ fbits F))); [reflexivity|].
    apply Z.div_le_lower_bound; [lia|]; pose proof (Z.mul_div_le sig (2 ^ j)); nia. }
  unfold ieee_round, rmag; rewrite Q, T, Z.lor_0_r.
  rewrite (rint_ratio rm s (sig * 2 ^ exp) _ sig (2 ^ j)) by nia.
  rewrite (inexact_ratio (sig * 2 ^ exp) _ sig (2 ^ j)) by nia.
  reflexivity.
Qed.

(** Below it, the quantum is [1] and the significand is shifted down with jamming. *)
Lemma round_scaled_subnormal :
  exp < 0 -> 2 <= ebits F ->
  let sig' := jdiv sig (2 ^ (- exp)) in
  round_scaled F rm s sig 1 (exp - j)
  = (signbit F s + rint rm s sig' (2 ^ j),
     if inexact sig' (2 ^ j)
     then softfloat_flag_inexact .|
          (if (exp <? -1) || (rint rm s sig (2 ^ j) <? 2 ^ (fbits F + 1))
           then softfloat_flag_underflow else 0)
     else 0).
Proof using HF Hj Hsig.
  intros He Hb sig'; pose proof sig_div as D.
  pose proof (pow2_pos j ltac:(lia)); pose proof (pow2_pos (- exp) ltac:(lia)).
  pose proof (pow2_pos (fbits F) ltac:(lia)).
  pose proof (pow2_half (- exp) ltac:(lia)) as E2; pose proof (pow2_pos (- exp - 1) ltac:(lia)).
  rewrite (round_scaled_eq _ _ _ _ _ _ (j - exp) sig (2 ^ (- exp) * 2 ^ j)).
  2-4: lia. 2: nia.
  2: { replace (j - exp + (exp - j)) with 0 by lia.
       unfold Z.sub; rewrite (Z.pow_add_r 2 j) by lia; lia. }
  assert (V : sig / (2 ^ (- exp) * 2 ^ j) < 2 ^ fbits F).
  { rewrite Z.mul_comm, <- Z.div_div by lia; rewrite pow2_succ in D by lia.
    apply Z.div_lt_upper_bound; nia. }
  assert (Q : qexp F sig (2 ^ (- exp) * 2 ^ j) = 0).
  { unfold qexp; destruct (Z.le_gt_cases (sig / (2 ^ (- exp) * 2 ^ j)) 0) as [N | N].
    - rewrite Z.log2_nonpos by lia; lia.
    - apply Z.log2_lt_pow2 in V; lia. }
  unfold ieee_round, rmag, tiny; rewrite Q, Z.mul_0_l, Z.add_0_l, Z.pow_0_r, Z.mul_1_r.
  rewrite rint_jam, inexact_jam by lia; fold sig'.
  rewrite (proj2 (Z.ltb_lt _ _) V); bsimpl.
  pose proof (rint_range rm s sig' (2 ^ j) ltac:(lia)) as R.
  assert (V' : sig' / 2 ^ j < 2 ^ fbits F) by (unfold sig'; rewrite <- jdiv_div by lia; lia).
  assert (I : 2 * 2 ^ fbits F <= inf_mag F).
  { unfold inf_mag, emax; pose proof (pow2_le 2 (ebits F) ltac:(lia)); nia. }
  rewrite (proj2 (Z.leb_gt (inf_mag F) _)) by lia.
  f_equal; destruct (inexact sig' (2 ^ j)); [|reflexivity]; f_equal.
  rewrite (rint_ratio _ _ (2 * sig) _ sig (2 ^ (- exp - 1) * 2 ^ j)) by nia.
  pose proof rint_sig as RS; rewrite !pow2_succ in * by lia.
  destruct (Z.ltb_spec exp (-1)); bsimpl.
  - pose proof (rint_range rm s sig (2 ^ (- exp - 1) * 2 ^ j) ltac:(nia)).
    assert (sig / (2 ^ (- exp - 1) * 2 ^ j) < 2 ^ fbits F).
    { rewrite (Z.mul_comm (2 ^ _)), <- Z.div_div by lia.
      apply Z.div_lt_upper_bound; pose proof (pow2_le 1 (- exp - 1)); nia. }
    rewrite (proj2 (Z.ltb_lt _ _)) by nia; reflexivity.
  - replace (- exp - 1) with 0 by lia; rewrite Z.pow_0_r, Z.mul_1_l; reflexivity.
Qed.

(** The code's overflow test. *)
Lemma overflow_test :
  let r := rint rm s sig (2 ^ j) in
  (inf_mag F <=? exp * 2 ^ fbits F + r)
  = (emax F - 2 <=? exp) && ((emax F - 2 <? exp) || (2 ^ (fbits F + 1) <=? r)).
Proof using HF Hj Hsig.
  cbv zeta; pose proof rint_sig as R; pose proof (pow2_pos (fbits F) ltac:(lia)).
  unfold inf_mag; rewrite pow2_succ in * by lia.
  apply eq_true_iff_eq; rewrite andb_true_iff, orb_true_iff, !Z.leb_le, Z.ltb_lt; nia.
Qed.
End RoundPack.

(** ** The routines *)

Lemma eq_lxor a b : negb (nz (a .^ b)) = (a =? b).
Proof.
  unfold nz; rewrite negb_involutive; apply eq_true_iff_eq; rewrite !Z.eqb_eq.
  apply Z.lxor_eq_0_iff.
Qed.

Section Finish.
Context (rm : Z) (sign : bool).

Lemma roundF32_rint sig :
  0 <= sig < 2 ^ 31 ->
  (u32 (sig + round_inc rm sign 7) .>> 7)
  .& u32 (.~ b2z (negb (nz (sig .& 0x7F .^ 0x40)) && (rm =? softfloat_round_near_even)))
  = rint rm sign sig (2 ^ 7).
Proof using Type.
  intros H; pose proof (round_inc_range rm sign 7 ltac:(lia)).
  assert (0 <= (sig + round_inc rm sign 7) / 2 ^ 7 < 2 ^ 32)
    by (split; [apply Z.div_pos | apply Z.div_lt_upper_bound]; lia).
  rewrite u32_small, shiftr_div, eq_lxor by lia.
  change (sig .& 0x7F) with (sig .& (2 ^ 7 - 1)); rewrite land_ones_mod by lia.
  unfold u32; rewrite land_not_b2z by lia; apply round_inc_rint; lia.
Qed.

Lemma roundF64_rint sig :
  0 <= sig < 2 ^ 63 ->
  (u64 (sig + round_inc rm sign 10) .>> 10)
  .& u64 (.~ b2z (negb (nz (sig .& 0x3FF .^ 0x200)) && (rm =? softfloat_round_near_even)))
  = rint rm sign sig (2 ^ 10).
Proof using Type.
  intros H; pose proof (round_inc_range rm sign 10 ltac:(lia)).
  assert (0 <= (sig + round_inc rm sign 10) / 2 ^ 10 < 2 ^ 64)
    by (split; [apply Z.div_pos | apply Z.div_lt_upper_bound]; lia).
  rewrite u64_small, shiftr_div, eq_lxor by lia.
  change (sig .& 0x3FF) with (sig .& (2 ^ 10 - 1)); rewrite land_ones_mod by lia.
  unfold u64; rewrite land_not_b2z by lia; apply round_inc_rint; lia.
Qed.
End Finish.

Lemma nz_roundBits a n m : 0 <= n -> m = 2 ^ n - 1 -> nz (a .& m) = inexact a (2 ^ n).
Proof. intros Hn ->; rewrite land_ones_mod by lia; reflexivity. Qed.

Lemma jdiv_le p n : 0 <= p -> 1 <= n -> 0 <= jdiv p (2 ^ n) <= p / 2 + 1.
Proof.
  intros Hp Hn; pose proof (pow2_half n ltac:(lia)); pose proof (pow2_pos (n - 1) ltac:(lia)).
  assert (p / 2 ^ n <= p / 2) by (apply Z.div_le_compat_l; lia).
  unfold jdiv; split; [apply jam_nonneg, Z.div_pos; lia|].
  rewrite jam_spec; destruct (_ && _); bsimpl; lia.
Qed.

Lemma u32_exp exp : - 2 ^ 31 <= exp < 2 ^ 31 -> u32 exp = if exp <? 0 then exp + 2 ^ 32 else exp.
Proof.
  intros H; zcase; wsimp; [|reflexivity].
  unfold u32; rewrite <- (wrap_add 32 exp 1), wrap_small; lia.
Qed.

Lemma u16_exp exp : - 2 ^ 15 <= exp < 2 ^ 15 -> u16 exp = if exp <? 0 then exp + 2 ^ 16 else exp.
Proof.
  intros H; zcase; wsimp; [|reflexivity].
  unfold u16; rewrite <- (wrap_add 16 exp 1), wrap_small; lia.
Qed.

(** Flag sets as sums of raised flags. *)
Lemma raise_if_eq c w rm fl : raise_if c w rm fl = (tt, fl .| (if c then w else 0)).
Proof. destruct c; cbn; rewrite ?Z.lor_0_r; reflexivity. Qed.

Lemma if_same {A : Type} (b : bool) (x : A) : (if b then x else x) = x.
Proof. destruct b; reflexivity. Qed.

Lemma raise_pair fl (t i : bool) u x :
  fl .| (if t && i then u else 0) .| (if i then x else 0)
  = fl .| (if i then x .| (if t then u else 0) else 0).
Proof.
  destruct t, i; bsimpl; rewrite ?Z.lor_0_r; try reflexivity.
  rewrite <- Z.lor_assoc; f_equal; apply Z.lor_comm.
Qed.

(** Rounding and packing a normalized significand: for every exponent and rounding mode the
    result and the flags are those of [ieee_round] on [sig * 2 ^ (exp - 7)]. *)
Lemma roundPackToF32_spec sign exp sig :
  - 2 ^ 31 < exp < 2 ^ 31 -> 2 ^ 30 <= sig < 2 ^ 31 ->
  meets (softfloat_roundPackToF32 sign exp sig)
    (fun rm => round_scaled F32 rm sign sig 1 (exp - 7)).
Proof.
  intros He Hs rm fl; unfold softfloat_roundPackToF32, softfloat_roundingMode, bind.
  change (if negb _ && _ then _ else 64) with (round_inc rm sign 7).
  pose proof (round_inc_range rm sign 7 ltac:(lia)) as Ri.
  pose proof (rint_sig F32 rm sign sig 7 ltac:(cbn; lia) ltac:(lia) Hs) as Rs.
  pose proof (round_inc_carry rm sign sig 7 24 ltac:(lia) ltac:(lia) ltac:(cbn; lia)) as Cy.
  change (2 ^ (24 + 7)) with 0x80000000 in Cy; cbn [fbits F32] in Rs.
  rewrite <- (u32_small (sig + _)) in Cy by lia; rewrite Cy, u32_exp by lia.
  destruct (Z.ltb_spec exp 0).
  - rewrite (proj2 (Z.leb_le 0xFD _)) by lia.
    rewrite (round_scaled_subnormal F32), shiftRightJam32_spec by (cbn; lia).
    pose proof (jdiv_le sig (- exp) ltac:(lia) ltac:(lia)) as J.
    set (sig' := jdiv sig (2 ^ (- exp))) in *.
    assert (0 <= sig' < 2 ^ 31) by (Z.div_mod_to_equations; lia); clearbody sig'.
    rewrite !raise_if_eq, roundF32_rint, if_same, (nz_roundBits _ 7) by (try reflexivity; lia).
    rewrite raise_pair, (Z.ltb_antisym 0x80000000), Cy, <- Z.ltb_antisym; unfold ret.
    pose proof (rint_range rm sign sig' (2 ^ 7) ltac:(lia)).
    assert (0 <= sig' / 2 ^ 7 < 2 ^ 24)
      by (split; [apply Z.div_pos | apply Z.div_lt_upper_bound]; lia).
    rewrite packToF32UI_spec by lia; cbn [fst snd]; f_equal; lia.
  - rewrite (round_scaled_normal F32) by (cbn; lia); cbv zeta.
    pose proof (overflow_test F32 rm sign exp sig 7 ltac:(cbn; lia) ltac:(lia) Hs) as O.
    change (inf_mag F32) with (0xFF * 2 ^ 23) in *; change (emax F32 - 2) with 0xFD in *.
    change (fbits F32) with 23 in *; cbv zeta in O; rewrite O.
    destruct (0xFD <=? exp); [destruct (_ || _)|]; cbn [andb] in *; breflect;
      rewrite ?raise_if_eq, ?roundF32_rint, ?(nz_roundBits _ 7) by (try reflexivity; lia).
    1: { unfold ret, softfloat_raiseFlags; rewrite round_inc_zero, packToF32UI_spec by lia.
         rewrite u32_small; [f_equal; bsimpl; lia|].
         unfold signbit; cbn [fbits ebits F32]; destruct sign, (rounds_away _ _); bsimpl; lia. }
    all: unfold nz, ret; rewrite (proj2 (Z.eqb_neq (rint _ _ _ _) 0)) by lia; bsimpl.
    all: rewrite packToF32UI_spec by lia; f_equal; lia.
Qed.

(** The same for doubles; the cast [(uint16_t) exp] limits the exponents. *)
Lemma roundPackToF64_spec sign exp sig :
  - 2 ^ 15 < exp < 2 ^ 15 -> 2 ^ 62 <= sig < 2 ^ 63 ->
  meets (softfloat_roundPackToF64 sign exp sig)
    (fun rm => round_scaled F64 rm sign sig 1 (exp - 10)).
Proof.
  intros He Hs rm fl; unfold softfloat_roundPackToF64, softfloat_roundingMode, bind.
  change (if negb _ && _ then _ else 512) with (round_inc rm sign 10).
  pose proof (round_inc_range rm sign 10 ltac:(lia)) as Ri.
  pose proof (rint_sig F64 rm sign sig 10 ltac:(cbn; lia) ltac:(lia) Hs) as Rs.
  pose proof (round_inc_carry rm sign sig 10 53 ltac:(lia) ltac:(lia) ltac:(cbn; lia)) as Cy.
  change (2 ^ (53 + 10)) with 0x8000000000000000 in Cy; cbn [fbits F64] in Rs.
  rewrite <- (u64_small (sig + _)) in Cy by lia; rewrite Cy, u16_exp by lia.
  destruct (Z.ltb_spec exp 0).
  - rewrite (proj2 (Z.leb_le 0x7FD _)) by lia.
    rewrite (round_scaled_subnormal F64), shiftRightJam64_spec by (cbn; lia).
    pose proof (jdiv_le sig (- exp) ltac:(lia) ltac:(lia)) as J.
    set (sig' := jdiv sig (2 ^ (- exp))) in *.
    assert (0 <= sig' < 2 ^ 63) by (Z.div_mod_to_equations; lia); clearbody sig'.
    rewrite !raise_if_eq, roundF64_rint, if_same, (nz_roundBits _ 10) by (try reflexivity; lia).
    rewrite raise_pair, (Z.ltb_antisym 0x8000000000000000), Cy, <- Z.ltb_antisym; unfold ret.
    pose proof (rint_range rm sign sig' (2 ^ 10) ltac:(lia)).
    assert (0 <= sig' / 2 ^ 10 < 2 ^ 53)
      by (split; [apply Z.div_pos | apply Z.div_lt_upper_bound]; lia).
    rewrite packToF64UI_spec by lia; cbn [fst snd]; f_equal; lia.
  - rewrite (round_scaled_normal F64) by (cbn; lia); cbv zeta.
    pose proof (overflow_test F64 rm sign exp sig 10 ltac:(cbn; lia) ltac:(lia) Hs) as O.
    change (inf_mag F64) with (0x7FF * 2 ^ 52) in *; change (emax F64 - 2) with 0x7FD in *.
    change (fbits F64) with 52 in *; cbv zeta in O; rewrite O.
    destruct (0x7FD <=? exp); [destruct (_ || _)|]; cbn [andb] in *; breflect;
      rewrite ?raise_if_eq, ?roundF64_rint, ?(nz_roundBits _ 10) by (try reflexivity; lia).
    1: { unfold ret, softfloat_raiseFlags; rewrite round_inc_zero, packToF64UI_spec by lia.
         rewrite u64_small; [f_equal; bsimpl; lia|].
         unfold signbit; cbn [fbits ebits F64]; destruct sign, (rounds_away _ _); bsimpl; lia. }
    all: unfold nz, ret; rewrite (proj2 (Z.eqb_neq (rint _ _ _ _) 0)) by lia; bsimpl.
    all: rewrite packToF64UI_spec by lia; f_equal; lia.
Qed.

(** A normalized significand without round bits is packed as it is. *)
Lemma round_scaled_exact F rm s exp sig j :
  1 <= fbits F -> 3 <= j -> 2 ^ fbits F <= sig < 2 ^ (fbits F + 1) ->
  0 <= exp < emax F - 2 ->
  round_scaled F rm s (sig * 2 ^ j) 1 (exp - j) = (signbit F s + (exp * 2 ^ fbits F + sig), 0).
Proof.
  intros HF Hj Hs He; pose proof (pow2_pos j ltac:(lia)).
  pose proof (pow2_pos (fbits F) ltac:(lia)) as Pf; rewrite pow2_succ in Hs by lia.
  assert (N : 2 ^ (fbits F + j) <= sig * 2 ^ j < 2 ^ (fbits F + j + 1))
    by (rewrite pow2_succ, Z.pow_add_r by lia; nia).
  rewrite (round_scaled_normal F rm s exp _ j) by lia; cbv zeta.
  rewrite rint_exact, Z.div_mul by (try apply Z.mod_mul; lia).
  rewrite (proj2 (Z.leb_gt _ _)) by (unfold inf_mag; nia).
  unfold inexact; rewrite Z.mod_mul by lia; reflexivity.
Qed.

(** Normalizing first: any non-zero significand. *)
Lemma normRoundPackToF32_spec sign exp sig :
  - 2 ^ 30 < exp < 2 ^ 31 -> 0 < sig < 2 ^ 31 ->
  meets (softfloat_normRoundPackToF32 sign exp sig)
    (fun rm => round_scaled F32 rm sign sig 1 (exp - 7)).
Proof.
  intros He Hs rm fl; unfold softfloat_normRoundPackToF32; cbv zeta.
  rewrite countLeadingZeros32_spec by lia.
  assert (0 <= Z.log2 sig < 31) by (split; [apply Z.log2_nonneg | apply Z.log2_lt_pow2; lia]).
  replace (31 - Z.log2 sig - 1) with (30 - Z.log2 sig) by lia.
  pose proof (normalize_range sig 30 ltac:(lia) ltac:(lia)) as N.
  set (sd := 30 - Z.log2 sig) in *; assert (0 <= sd <= 30) by lia; clearbody sd.
  rewrite u32_exp by lia; cbv beta.
  replace (exp - 7) with (exp - sd - 7 + sd) by lia; rewrite <- round_scaled_shift by lia.
  destruct (_ && _) eqn:E.
  - breflect; destruct (Z.ltb_spec (exp - sd) 0); [lia|].
    assert (S : sig * 2 ^ sd = sig * 2 ^ (sd - 7) * 2 ^ 7)
      by (rewrite (pow2_split sd 7) by lia; ring).
    rewrite S in *; rewrite (round_scaled_exact F32) by (cbn; lia).
    unfold nz; rewrite (proj2 (Z.eqb_neq sig 0)), shiftl_mul by lia; bsimpl; wsimp.
    rewrite packToF32UI_spec, Z.lor_0_r by lia; unfold ret; f_equal; cbn [fbits F32]; lia.
  - rewrite shiftl_mul, u32_small by lia; apply roundPackToF32_spec; lia.
Qed.

Lemma normRoundPackToF64_spec sign exp sig :
  - 2 ^ 14 < exp < 2 ^ 15 -> 0 < sig < 2 ^ 63 ->
  meets (softfloat_normRoundPackToF64 sign exp sig)
    (fun rm => round_scaled F64 rm sign sig 1 (exp - 10)).
Proof.
  intros He Hs rm fl; unfold softfloat_normRoundPackToF64; cbv zeta.
  rewrite countLeadingZeros64_spec by lia.
  assert (0 <= Z.log2 sig < 63) by (split; [apply Z.log2_nonneg | apply Z.log2_lt_pow2; lia]).
  replace (63 - Z.log2 sig - 1) with (62 - Z.log2 sig) by lia.
  pose proof (normalize_range sig 62 ltac:(lia) ltac:(lia)) as N.
  set (sd := 62 - Z.log2 sig) in *; assert (0 <= sd <= 62) by lia; clearbody sd.
  rewrite u32_exp by lia; cbv beta.
  replace (exp - 10) with (exp - sd - 10 + sd) by lia; rewrite <- round_scaled_shift by lia.
  destruct (_ && _) eqn:E.
  - breflect; destruct (Z.ltb_spec (exp - sd) 0); [lia|].
    assert (S : sig * 2 ^ sd = sig * 2 ^ (sd - 10) * 2 ^ 10)
      by (rewrite (pow2_split sd 10) by lia; ring).
    rewrite S in *; rewrite (round_scaled_exact F64) by (cbn; lia).
    unfold nz; rewrite (proj2 (Z.eqb_neq sig 0)), shiftl_mul by lia; bsimpl; wsimp.
    rewrite packToF64UI_spec, Z.lor_0_r by lia; unfold ret; f_equal; cbn [fbits F64]; lia.
  - rewrite shiftl_mul, u64_small by lia; apply roundPackToF64_spec; lia.
Qed.

(** Subnormal operands: the significand with its leading bit in place, and the exponent
    that keeps the magnitude. *)
Lemma normSubnormalF32Sig_spec sig :
  0 < sig < 2 ^ 23 ->
  let z := softfloat_normSubnormalF32Sig sig in
  2 ^ 23 <= es_sig z < 2 ^ 24 /\ -22 <= es_exp z <= 0 /\ es_sig z = sig * 2 ^ (1 - es_exp z).
Proof.
  intros H z; subst z; unfold softfloat_normSubnormalF32Sig; cbn [es_sig es_exp].
  rewrite countLeadingZeros32_spec by lia.
  assert (0 <= Z.log2 sig < 23) by (split; [apply Z.log2_nonneg | apply Z.log2_lt_pow2; lia]).
  pose proof (normalize_range sig 23 ltac:(lia) ltac:(lia)) as N.
  replace (31 - Z.log2 sig - 8) with (23 - Z.log2 sig) by lia.
  rewrite shiftl_mul by lia; wsimp.
  replace (1 - (1 - (23 - Z.log2 sig))) with (23 - Z.log2 sig) by lia; lia.
Qed.

Lemma normSubnormalF64Sig_spec sig :
  0 < sig < 2 ^ 52 ->
  let z := softfloat_normSubnormalF64Sig sig in
  2 ^ 52 <= es_sig z < 2 ^ 53 /\ -51 <= es_exp z <= 0 /\ es_sig z = sig * 2 ^ (1 - es_exp z).
Proof.
  intros H z; subst z; unfold softfloat_normSubnormalF64Sig; cbn [es_sig es_exp].
  rewrite countLeadingZeros64_spec by lia.
  assert (0 <= Z.log2 sig < 52) by (split; [apply Z.log2_nonneg | apply Z.log2_lt_pow2; lia]).
  pose proof (normalize_range sig 52 ltac:(lia) ltac:(lia)) as N.
  replace (63 - Z.log2 sig - 11) with (52 - Z.log2 sig) by lia.
  rewrite shiftl_mul by lia; wsimp.
  replace (1 - (1 - (52 - Z.log2 sig))) with (52 - Z.log2 sig) by lia; lia.
Qed.
