(* ===== verification/SfAdd.v ===== *)
(** * SoftFloat: addition and subtraction

    [s_addMagsF32.c], [s_subMagsF32.c], [f32_add.c], [f32_sub.c], and the theorems that they
    compute the correctly rounded sum and difference with IEEE 754's treatment of zeros,
    infinities and NaNs.  The lemmas for every format are here too; doubles are in
    [SfAddF64]. *)

From S2P Require Import Prelude FpSpec FpTheory SfEnv SfPrim SfRound.
From Stdlib Require Import ZArith Lia Bool.

(** ** Definitions *)

Definition softfloat_addMagsF32 (uiA uiB : Z) : fp Z :=
  let expA := expF32UI uiA in
  let sigA := fracF32UI uiA in
  let expB := expF32UI uiB in
  let sigB := fracF32UI uiB in
  let propagateNaN := softfloat_propagateNaNF32UI uiA uiB in
  let expDiff := expA - expB in
  if negb (nz expDiff) then
    if negb (nz expA) then ret (u32 (uiA + sigB))
    else if expA =? 0xFF then
      if nz (sigA .| sigB) then propagateNaN else ret uiA
    else
      let signZ := signF32UI uiA in
      let expZ := expA in
      let sigZ := u32 (0x01000000 + sigA + sigB) in
      if negb (nz (sigZ .& 1)) && (expZ <? 0xFE)
      then ret (packToF32UI signZ expZ (sigZ .>> 1))
      else softfloat_roundPackToF32 signZ expZ (u32 (sigZ .<< 6))
  else
    let signZ := signF32UI uiA in
    let sigA := u32 (sigA .<< 6) in
    let sigB := u32 (sigB .<< 6) in
    let finish (expZ sigA sigB : Z) : fp Z :=
      let sigZ := u32 (0x20000000 + sigA + sigB) in
      let '(expZ, sigZ) :=
        if sigZ <? 0x40000000 then (expZ - 1, u32 (sigZ .<< 1)) else (expZ, sigZ) in
      softfloat_roundPackToF32 signZ expZ sigZ in
    if expDiff <? 0 then
      if expB =? 0xFF then
        if nz sigB then propagateNaN else ret (packToF32UI signZ 0xFF 0)
      else
        let sigA := u32 (sigA + (if nz expA then 0x20000000 else sigA)) in
        let sigA := softfloat_shiftRightJam32 sigA (- expDiff) in
        finish expB sigA sigB
    else
      if expA =? 0xFF then
        if nz sigA then propagateNaN else ret uiA
      else
        let sigB := u32 (sigB + (if nz expB then 0x20000000 else sigB)) in
        let sigB := softfloat_shiftRightJam32 sigB expDiff in
        finish expA sigA sigB.

Definition softfloat_subMagsF32 (uiA uiB : Z) : fp Z :=
  let expA := expF32UI uiA in
  let sigA := fracF32UI uiA in
  let expB := expF32UI uiB in
  let sigB := fracF32UI uiB in
  let propagateNaN := softfloat_propagateNaNF32UI uiA uiB in
  let expDiff := expA - expB in
  if negb (nz expDiff) then
    if expA =? 0xFF then
      if nz (sigA .| sigB) then propagateNaN
      else softfloat_raiseFlags softfloat_flag_invalid ;;; ret defaultNaNF32UI
    else
      let sigDiff := i32 (sigA - sigB) in
      if negb (nz sigDiff) then
        roundingMode <- softfloat_roundingMode ;;
        ret (packToF32UI (roundingMode =? softfloat_round_min) 0 0)
      else
        let expA := if nz expA then expA - 1 else expA in
        let signZ := signF32UI uiA in
        let '(signZ, sigDiff) :=
          if sigDiff <? 0 then (negb signZ, - sigDiff) else (signZ, sigDiff) in
        let shiftDist := softfloat_countLeadingZeros32 sigDiff - 8 in
        let expZ := expA - shiftDist in
        let '(shiftDist, expZ) := if expZ <? 0 then (expA, 0) else (shiftDist, expZ) in
        ret (packToF32UI signZ expZ (sigDiff .<< shiftDist))
  else
    let signZ := signF32UI uiA in
    let sigA := u32 (sigA .<< 7) in
    let sigB := u32 (sigB .<< 7) in
    let finish (signZ : bool) (expZ sigX sigY expDiff : Z) : fp Z :=
      softfloat_normRoundPackToF32 signZ expZ
        (u32 (sigX - softfloat_shiftRightJam32 sigY expDiff)) in
    if expDiff <? 0 then
      let signZ := negb signZ in
      if expB =? 0xFF then
        if nz sigB then propagateNaN else ret (packToF32UI signZ 0xFF 0)
      else
        finish signZ (expB - 1) (sigB .| 0x40000000)
          (u32 (sigA + (if nz expA then 0x40000000 else sigA))) (- expDiff)
    else
      if expA =? 0xFF then
        if nz sigA then propagateNaN else ret uiA
      else
        finish signZ (expA - 1) (sigA .| 0x40000000)
          (u32 (sigB + (if nz expB then 0x40000000 else sigB))) expDiff.

Definition f32_add (a b : Z) : fp Z :=
  if signF32UI (a .^ b) then softfloat_subMagsF32 a b else softfloat_addMagsF32 a b.

Definition f32_sub (a b : Z) : fp Z :=
  if signF32UI (a .^ b) then softfloat_addMagsF32 a b else softfloat_subMagsF32 a b.

(** ** Rounding exact integer magnitudes *)

Section Exact.
Context (F : fmt) (rm : Z) (s : bool) (HF : 1 <= fbits F).

Lemma ieee_round_exact m e :
  0 < m < 2 ^ (fbits F + 1) -> 0 <= e -> (e = 0 \/ 2 ^ fbits F <= m) ->
  e * 2 ^ fbits F + m < inf_mag F ->
  ieee_round F rm s (m * 2 ^ e) 1 = (signbit F s + (e * 2 ^ fbits F + m), 0).
Proof using HF.
  intros Hm He H Hi; pose proof (pow2_pos e He).
  assert (Q : qexp F (m * 2 ^ e) 1 = e).
  { unfold qexp; rewrite Z.div_1_r, Z.log2_mul_pow2 by lia.
    destruct H as [-> | H].
    - pose proof (proj1 (Z.log2_lt_pow2 m (fbits F + 1) ltac:(lia)) ltac:(lia)); lia.
    - rewrite (Z.log2_unique m (fbits F)) by (rewrite <- ?Z.add_1_r; lia); lia. }
  unfold ieee_round, rmag, inexact; rewrite Q, Z.mul_1_l.
  rewrite rint_exact, Z.div_mul, Z.mod_mul by (try apply Z.mod_mul; lia).
  rewrite (proj2 (Z.leb_gt _ _)) by lia; reflexivity.
Qed.
End Exact.

(** ** Aligned sums and differences

    The code shifts the operand with the smaller exponent right with jamming; the sum or
    difference is then the jammed truncation of the exact one. *)

Lemma jdiv_add k p d : 0 < d -> Z.even k = true -> k + jdiv p d = jdiv (k * d + p) d.
Proof.
  intros Hd He; unfold jdiv, inexact.
  rewrite jam_add, Z.div_add_l, Z.add_comm, (Z.add_comm (k * d)), Z.mod_add by (assumption || lia).
  f_equal; lia.
Qed.

Lemma jdiv_sub k p d : 0 < d -> Z.even k = true -> k - jdiv p d = jdiv (k * d - p) d.
Proof.
  intros Hd He; unfold jdiv, inexact; rewrite jam_sub by assumption.
  assert (E : (k * d - p) / d = k - p / d - b2z (nz (p mod d))
              /\ nz ((k * d - p) mod d) = nz (p mod d)).
  { pose proof (Z.mod_pos_bound p d Hd); pose proof (Z.div_mod p d ltac:(lia)).
    unfold nz; destruct (Z.eqb_spec (p mod d) 0) as [Z0 | Z0]; bsimpl.
    - replace (k * d - p) with ((k - p / d) * d) by lia.
      rewrite Z.div_mul, Z.mod_mul by lia; split; [lia | reflexivity].
    - replace (k * d - p) with ((k - p / d - 1) * d + (d - p mod d)) by lia.
      rewrite Z.div_add_l, (Z.div_small (d - p mod d)) by lia; split; [lia|].
      rewrite Z.add_comm, Z.mod_add, (Z.mod_small (d - p mod d)) by lia.
      rewrite (proj2 (Z.eqb_neq _ 0)) by lia; reflexivity. }
  destruct E as [-> ->]; reflexivity.
Qed.

Lemma even_mul_pow2 m j : 1 <= j -> Z.even (m * 2 ^ j) = true.
Proof. intros; rewrite (pow2_half j), Z.even_mul, Z.even_mul by lia; apply orb_true_r. Qed.

Lemma round_scaled_div F rm s p d k :
  0 < d -> p mod d = 0 -> round_scaled F rm s (p / d) 1 k = round_scaled F rm s p d k.
Proof.
  intros Hd E; unfold round_scaled; pose proof (pow2_pos (Z.max (- k) 0) ltac:(lia)).
  apply ieee_round_ratio; [lia | nia |].
  pose proof (Z.div_mod p d ltac:(lia)) as D; rewrite E, Z.add_0_r in D.
  rewrite D at 2; ring.
Qed.

Section Aligned.
Context (F : fmt) (rm : Z) (s : bool) (j ex ey mx my v : Z).
Context (HF : 1 <= fbits F) (Hj : 3 <= j) (He : 0 <= ey < ex).
Context (Hx : 2 ^ fbits F <= mx) (Hy : 0 <= my < 2 ^ (fbits F + 1)).

Lemma round_aligned_add :
  2 * v = mx * 2 ^ ex + my * 2 ^ ey ->
  round_scaled F rm s (mx * 2 ^ (j - 1) + jdiv (my * 2 ^ (j - 1)) (2 ^ (ex - ey))) 1 (ex - j)
  = ieee_round F rm s v 1.
Proof using All.
  intros Hv; pose proof (pow2_pos (ex - ey) ltac:(lia)) as Pd.
  pose proof (pow2_pos (j - 1) ltac:(lia)) as Pj; pose proof (pow2_pos ey ltac:(lia)).
  pose proof (pow2_pos (fbits F) ltac:(lia)).
  pose proof (pow2_split ex (ex - ey) ltac:(lia)) as Sx.
  replace (ex - (ex - ey)) with ey in Sx by lia.
  rewrite jdiv_add by (try apply even_mul_pow2; lia).
  rewrite <- round_scaled_jam; [| lia | lia | mul_nonneg |].
  - apply (round_scaled_eq _ _ _ _ _ _ j); try lia.
    replace (j + (ex - j)) with ex by lia; rewrite (pow2_half j), Sx in * by lia.
    set (D := 2 ^ (ex - ey)) in *; set (J := 2 ^ (j - 1)) in *; set (Y := 2 ^ ey) in *.
    transitivity (D * J * (2 * v)); [rewrite Hv|]; ring.
  - right; pose proof (pow2_le 2 (j - 1) ltac:(lia)).
    rewrite Z.pow_add_r, Z.div_add_l by lia.
    pose proof (Z.div_pos (my * 2 ^ (j - 1)) (2 ^ (ex - ey)) ltac:(nia) ltac:(lia)); nia.
Qed.

Lemma round_aligned_sub :
  2 * v = mx * 2 ^ ex - my * 2 ^ ey ->
  round_scaled F rm s (mx * 2 ^ j - jdiv (my * 2 ^ j) (2 ^ (ex - ey))) 1 (ex - 1 - j)
  = ieee_round F rm s v 1.
Proof using All.
  intros Hv; set (d := ex - ey) in *; pose proof (pow2_pos d ltac:(lia)) as Pd.
  pose proof (pow2_pos j ltac:(lia)) as Pj; pose proof (pow2_pos ey ltac:(lia)).
  pose proof (pow2_pos (fbits F) ltac:(lia)); pose proof (pow2_half d ltac:(lia)).
  pose proof (pow2_split ex d ltac:(lia)) as Sx.
  replace (ex - d) with ey in Sx by lia.
  assert (V : mx * 2 ^ d - my > 0) by (rewrite pow2_succ in Hy by lia;
    pose proof (pow2_pos (d - 1) ltac:(lia)); nia).
  assert (R : round_scaled F rm s (mx * 2 ^ j * 2 ^ d - my * 2 ^ j) (2 ^ d) (ex - 1 - j)
              = ieee_round F rm s v 1).
  { apply (round_scaled_eq _ _ _ _ _ _ (j + 1)); try lia.
    replace (j + 1 + (ex - 1 - j)) with ex by lia; rewrite pow2_succ, Sx in * by lia.
    transitivity (2 ^ d * 2 ^ j * (2 * v)); [rewrite Hv|]; ring. }
  rewrite jdiv_sub by (try apply even_mul_pow2; lia); rewrite <- R.
  destruct (Z.le_gt_cases d j).
  - assert (E : (mx * 2 ^ j * 2 ^ d - my * 2 ^ j) mod 2 ^ d = 0).
    { rewrite (pow2_split j d) by lia.
      replace (_ - _) with ((mx * 2 ^ j - my * 2 ^ (j - d)) * 2 ^ d)
        by (rewrite (pow2_split j d) by lia; ring).
      apply Z.mod_mul; lia. }
    unfold jdiv, inexact, nz; rewrite E; apply round_scaled_div; lia.
  - assert (0 <= 2 ^ j * (mx * 2 ^ d - my)) by mul_nonneg.
    rewrite <- round_scaled_jam; [reflexivity | lia | lia | lia |].
    right; pose proof (pow2_le 3 j ltac:(lia)); pose proof (pow2_le (j + 1) d ltac:(lia)) as L.
    rewrite (Z.pow_add_r 2 (fbits F)), !pow2_succ in * by lia.
    apply Z.div_le_lower_bound; [lia|].
    assert (my * 2 ^ j <= 2 ^ fbits F * 2 ^ d) by nia.
    assert (2 ^ fbits F * 2 ^ j * 2 ^ d <= mx * 2 ^ j * 2 ^ d) by nia.
    assert (2 ^ fbits F * 2 ^ d * 8 <= 2 ^ fbits F * 2 ^ d * 2 ^ j) by nia; nia.
Qed.

Lemma aligned_sub_pos : 0 < mx * 2 ^ j - jdiv (my * 2 ^ j) (2 ^ (ex - ey)) <= mx * 2 ^ j.
Proof using HF Hj He Hx Hy.
  pose proof (pow2_pos (j - 1) ltac:(lia)); pose proof (pow2_pos (fbits F) ltac:(lia)).
  pose proof (pow2_half j ltac:(lia)) as E; pose proof (pow2_le 2 (j - 1) ltac:(lia)).
  pose proof (jdiv_le (my * 2 ^ j) (ex - ey) ltac:(nia) ltac:(lia)) as J.
  replace (my * 2 ^ j) with (my * 2 ^ (j - 1) * 2) in J by lia; rewrite Z.div_mul in J by lia.
  replace (my * 2 ^ (j - 1) * 2) with (my * 2 ^ j) in J by lia.
  rewrite pow2_succ in Hy by lia; nia.
Qed.
End Aligned.

(** ** Specifications of the magnitude routines *)

(** Operands of the same sign [s], and of opposite signs with [a] of sign [s]. *)
Definition add_mags_spec (F : fmt) (s : bool) (a b : Z) (rm : Z) : Z * Z :=
  if is_nan F a || is_nan F b then nan_result F a b
  else if is_inf F a || is_inf F b then (signbit F s + inf_mag F, 0)
  else
    let v := mag F a + mag F b in
    if v =? 0 then (signbit F s, 0) else ieee_round F rm s v 1.

Definition sub_mags_spec (F : fmt) (s : bool) (a b : Z) (rm : Z) : Z * Z :=
  if is_nan F a || is_nan F b then nan_result F a b
  else if is_inf F a then
    if is_inf F b then invalid_result F else (signbit F s + inf_mag F, 0)
  else if is_inf F b then (signbit F (negb s) + inf_mag F, 0)
  else
    let v := mag F a - mag F b in
    if v =? 0 then (signbit F (rm =? softfloat_round_min), 0)
    else ieee_round F rm (xorb s (v <? 0)) (Z.abs v) 1.

Lemma mag_nonneg F a : 1 <= fbits F -> 1 <= ebits F -> 0 <= mag F a.
Proof.
  intros Hf He; pose proof (ffrac_range F a Hf); pose proof (fexp_range F a He).
  pose proof (pow2_pos (fbits F) ltac:(lia)).
  unfold mag; destruct (Z.eqb_spec (fexp F a) 0); [lia|].
  pose proof (pow2_pos (fexp F a - 1) ltac:(lia)); nia.
Qed.

Lemma mag_pos F a : 1 <= fbits F -> 1 <= ebits F -> fexp F a <> 0 -> 0 < mag F a.
Proof.
  intros Hf He E; pose proof (fexp_range F a He); pose proof (ffrac_range F a Hf).
  unfold mag; rewrite (proj2 (Z.eqb_neq _ 0)) by lia.
  pose proof (pow2_pos (fbits F) ltac:(lia)); pose proof (pow2_pos (fexp F a - 1) ltac:(lia)); nia.
Qed.

Lemma ieee_add_mags F rm a b :
  1 <= fbits F -> 1 <= ebits F ->
  ieee_add F rm a b
  = if xorb (fsign F a) (fsign F b) then sub_mags_spec F (fsign F a) a b rm
    else add_mags_spec F (fsign F a) a b rm.
Proof.
  intros Hf He; unfold ieee_add, sub_mags_spec, add_mags_spec, fval.
  pose proof (mag_nonneg F a Hf He); pose proof (mag_nonneg F b Hf He).
  destruct (is_nan F a || is_nan F b); [case_ifs; reflexivity|].
  destruct (fsign F a), (fsign F b); bsimpl; rewrite ?andb_true_r, ?andb_false_r;
    destruct (is_inf F a), (is_inf F b); try reflexivity; bsimpl; cbv zeta.
  all: repeat match goal with |- context [?x =? 0] => destruct (Z.eqb_spec x 0) end; try lia;
    try reflexivity.
  all: f_equal; try lia; apply eq_true_iff_eq; rewrite ?negb_true_iff, ?Z.ltb_lt, ?Z.ltb_ge;
    try lia; zcase; split; (lia || discriminate || reflexivity).
Qed.

Section Fneg.
Context (F : fmt) (b : Z) (Hf : 1 <= fbits F) (He : 1 <= ebits F).
Context (Hb : 0 <= b < 2 ^ (1 + ebits F + fbits F)).

Lemma fneg_fields :
  0 <= fneg F b < 2 ^ (1 + ebits F + fbits F) /\ fsign F (fneg F b) = negb (fsign F b) /\
  fexp F (fneg F b) = fexp F b /\ ffrac F (fneg F b) = ffrac F b.
Proof using All.
  pose proof (pow2_pos (fbits F) ltac:(lia)); pose proof (pow2_pos (ebits F) ltac:(lia)).
  pose proof (fsign_ltb F b Hf He Hb) as S.
  replace (2 ^ (1 + ebits F + fbits F)) with (2 * (2 ^ ebits F * 2 ^ fbits F)) in *
    by (rewrite !Z.pow_add_r by lia; lia).
  assert (W : 2 ^ (fbits F + ebits F) = 2 ^ ebits F * 2 ^ fbits F)
    by (rewrite Z.pow_add_r by lia; lia).
  assert (R : 0 <= fneg F b < 2 * (2 ^ ebits F * 2 ^ fbits F))
    by (unfold fneg; rewrite S, W in *; destruct (Z.leb_spec (2 ^ ebits F * 2 ^ fbits F) b); lia).
  split; [exact R|]; split.
  - rewrite !fsign_ltb; try assumption;
      try (replace (2 ^ (1 + ebits F + fbits F)) with (2 * (2 ^ ebits F * 2 ^ fbits F))
             by (rewrite !Z.pow_add_r by lia; lia); assumption).
    rewrite W in *; unfold fneg; rewrite S, W.
    destruct (Z.leb_spec (2 ^ ebits F * 2 ^ fbits F) b); apply eq_true_iff_eq;
      rewrite ?Z.leb_le, ?negb_true_iff, ?Z.leb_gt; cbn [negb]; intuition (try lia; discriminate).
  - assert (E : exists k, fneg F b = b + k * 2 ^ ebits F * 2 ^ fbits F)
      by (unfold fneg; rewrite W; destruct (fsign F b); [exists (-1) | exists 1]; lia).
    destruct E as [k E]; unfold fexp, ffrac; rewrite E.
    rewrite Z.div_add, !Z.mod_add by lia; auto.
Qed.

Lemma ieee_sub_mags rm a :
  ieee_sub F rm a b
  = if xorb (fsign F a) (fsign F b) then add_mags_spec F (fsign F a) a b rm
    else sub_mags_spec F (fsign F a) a b rm.
Proof using All.
  destruct fneg_fields as (_ & S & E & R).
  unfold ieee_sub; rewrite ieee_add_mags, S by lia.
  unfold sub_mags_spec, add_mags_spec, nan_result, is_snan, is_nan, is_inf, mag.
  rewrite E, R; destruct (fsign F a), (fsign F b); reflexivity.
Qed.
End Fneg.

(** ** The routines on finite operands *)

Lemma propagateNaNF32UI_spec a b :
  meets (softfloat_propagateNaNF32UI a b) (fun _ => nan_result F32 a b).
Proof.
  intros rm fl; unfold softfloat_propagateNaNF32UI, bind.
  rewrite raise_if_eq, !isSigNaNF32UI_spec; reflexivity.
Qed.

(** The significand with its hidden bit, scaled so that [2 * mag = mant * 2 ^ exp]. *)
Definition mant (F : fmt) (a : Z) : Z :=
  if fexp F a =? 0 then 2 * ffrac F a else 2 ^ fbits F + ffrac F a.

Lemma mag_mant F a :
  1 <= fbits F -> 1 <= ebits F -> 2 * mag F a = mant F a * 2 ^ fexp F a.
Proof.
  intros Hf He; pose proof (fexp_range F a He); unfold mag, mant.
  destruct (Z.eqb_spec (fexp F a) 0) as [-> | ]; [rewrite Z.pow_0_r; ring|].
  rewrite (pow2_half (fexp F a)) by lia; ring.
Qed.

Lemma mant_range F a :
  1 <= fbits F -> 0 <= mant F a < 2 ^ (fbits F + 1) /\ (fexp F a <> 0 -> 2 ^ fbits F <= mant F a).
Proof.
  intros Hf; pose proof (ffrac_range F a Hf); unfold mant; rewrite pow2_succ by lia.
  destruct (Z.eqb_spec (fexp F a) 0); lia.
Qed.

Lemma mant_normal F a : fexp F a <> 0 -> mant F a = 2 ^ fbits F + ffrac F a.
Proof. intros; unfold mant; rewrite (proj2 (Z.eqb_neq _ 0)) by assumption; reflexivity. Qed.

(** The end of [softfloat_addMagsF32] on operands of different exponents. *)
Lemma addMagsF32_finish sign x y sigZ :
  fexp F32 y < fexp F32 x < 0xFF ->
  sigZ = mant F32 x * 2 ^ 6 + jdiv (mant F32 y * 2 ^ 6) (2 ^ (fexp F32 x - fexp F32 y)) ->
  meets
    (let '(expZ, sigZ) :=
       if u32 sigZ <? 0x40000000 then (fexp F32 x - 1, u32 (u32 sigZ .<< 1))
       else (fexp F32 x, u32 sigZ) in
     softfloat_roundPackToF32 sign expZ sigZ)
    (fun rm => ieee_round F32 rm sign (mag F32 x + mag F32 y) 1).
Proof.
  intros H ->.
  pose proof (fexp_range F32 y ltac:(cbn; lia)).
  pose proof (mag_mant F32 x ltac:(cbn; lia) ltac:(cbn; lia)) as Mx.
  pose proof (mag_mant F32 y ltac:(cbn; lia) ltac:(cbn; lia)) as My.
  pose proof (mant_range F32 x ltac:(cbn; lia)) as [Rx Nx].
  pose proof (mant_range F32 y ltac:(cbn; lia)) as [Ry _].
  cbn [fbits F32] in *; specialize (Nx ltac:(lia)).
  pose proof (jdiv_le (mant F32 y * 2 ^ 6) (fexp F32 x - fexp F32 y) ltac:(lia) ltac:(lia)) as J.
  assert (A : forall rm, round_scaled F32 rm sign
    (mant F32 x * 2 ^ (7 - 1) + jdiv (mant F32 y * 2 ^ (7 - 1)) (2 ^ (fexp F32 x - fexp F32 y)))
    1 (fexp F32 x - 7) = ieee_round F32 rm sign (mag F32 x + mag F32 y) 1)
    by (intros; apply round_aligned_add; cbn [fbits F32]; lia).
  change (7 - 1) with 6 in A.
  set (z := mant F32 x * 2 ^ 6 + jdiv _ _) in *.
  assert (2 ^ 29 <= z < 2 ^ 31) by (subst z; Z.div_mod_to_equations; lia); clearbody z.
  wsimp; destruct (Z.ltb_spec z 0x40000000).
  - rewrite shiftl_mul by lia; wsimp; intros rm fl.
    rewrite (roundPackToF32_spec sign (fexp F32 x - 1) (z * 2 ^ 1)) by lia.
    rewrite round_scaled_shift, <- A by lia.
    replace (fexp F32 x - 1 - 7 + 1) with (fexp F32 x - 7) by lia; reflexivity.
  - intros rm fl; rewrite roundPackToF32_spec, A by lia; reflexivity.
Qed.

(** Operands of the same exponent: the sum may have one round bit. *)
Lemma addMagsF32_same a b sign :
  fexp F32 a = fexp F32 b -> 0 < fexp F32 a < 0xFF ->
  let sigZ := u32 (0x01000000 + ffrac F32 a + ffrac F32 b) in
  meets
    (if negb (nz (sigZ .& 1)) && (fexp F32 a <? 0xFE)
     then ret (packToF32UI sign (fexp F32 a) (sigZ .>> 1))
     else softfloat_roundPackToF32 sign (fexp F32 a) (u32 (sigZ .<< 6)))
    (fun rm => ieee_round F32 rm sign (mag F32 a + mag F32 b) 1).
Proof.
  intros E H; cbv zeta.
  pose proof (ffrac_range F32 a ltac:(cbn; lia)) as Ra.
  pose proof (ffrac_range F32 b ltac:(cbn; lia)) as Rb.
  cbn [fbits F32] in *; wsimp.
  assert (V : mag F32 a + mag F32 b
              = (0x01000000 + ffrac F32 a + ffrac F32 b) * 2 ^ (fexp F32 a - 1)).
  { unfold mag; rewrite <- E, (proj2 (Z.eqb_neq (fexp F32 a) 0)) by lia; cbn [fbits F32]; ring. }
  rewrite V; set (z := 0x01000000 + ffrac F32 a + ffrac F32 b) in *.
  assert (Rz : 2 ^ 24 <= z < 2 ^ 25) by lia; clearbody z.
  change (z .& 1) with (z .& (2 ^ 1 - 1)); rewrite land_ones_mod by lia.
  unfold nz; rewrite negb_involutive; change (2 ^ 1) with 2.
  destruct (_ && _) eqn:C; intros rm fl.
  - breflect; rewrite shiftr_div by lia; change (2 ^ 1) with 2.
    assert (Z2 : z = 2 * (z / 2)) by (Z.div_mod_to_equations; lia).
    replace (z * 2 ^ (fexp F32 a - 1)) with (z / 2 * 2 ^ fexp F32 a)
      by (rewrite Z2 at 2; rewrite (pow2_half (fexp F32 a)) by lia; ring).
    rewrite (ieee_round_exact F32), packToF32UI_spec
      by (cbn [fbits F32]; change (inf_mag F32) with (0xFF * 2 ^ 23); lia).
    unfold ret; cbn [fst snd fbits F32]; rewrite Z.lor_0_r; f_equal; lia.
  - rewrite shiftl_mul by lia; wsimp; rewrite roundPackToF32_spec by lia.
    rewrite (round_scaled_eq F32 rm sign (z * 2 ^ 6) 1 _ 7 (z * 2 ^ (fexp F32 a - 1)) 1);
      try lia; [reflexivity|].
    replace (7 + (fexp F32 a - 7)) with (fexp F32 a) by lia.
    rewrite (pow2_half (fexp F32 a)) by lia; lia.
Qed.

Lemma sigF32_mant a c :
  c = 2 ^ 6 \/ c = 2 ^ 7 ->
  u32 (u32 (ffrac F32 a * c) + (if nz (fexp F32 a) then 2 ^ 23 * c else u32 (ffrac F32 a * c)))
  = mant F32 a * c.
Proof.
  intros Hc; pose proof (ffrac_range F32 a ltac:(cbn; lia)) as R; cbn [fbits F32] in R.
  unfold mant, nz; cbn [fbits F32].
  assert (0 <= ffrac F32 a * c < 2 ^ 30) by (destruct Hc as [-> | ->]; lia).
  wsimp; destruct (Z.eqb_spec (fexp F32 a) 0); cbn [negb]; destruct Hc as [-> | ->]; wsimp; lia.
Qed.

(** Leaves of the routines: the special operands and the finite ones. *)
Section Leaves.
Context (F : fmt) (s : bool) (a b : Z) (rm : Z).
Context (Hf : 1 <= fbits F) (He : 1 <= ebits F).

Lemma is_nan_fields : fexp F a = emax F -> ffrac F a <> 0 -> is_nan F a = true.
Proof using Type.
  intros E N; unfold is_nan, nz; rewrite E, Z.eqb_refl, (proj2 (Z.eqb_neq _ 0)); auto.
Qed.

Lemma is_inf_fields : fexp F a = emax F -> ffrac F a = 0 -> is_inf F a = true /\ is_nan F a = false.
Proof using Type.
  intros E N; unfold is_nan, is_inf, nz; rewrite E, N, !Z.eqb_refl; auto.
Qed.

Lemma finite_fields : fexp F a <> emax F -> is_inf F a = false /\ is_nan F a = false.
Proof using Type.
  intros E; unfold is_nan, is_inf; rewrite (proj2 (Z.eqb_neq _ _)) by exact E; auto.
Qed.

Lemma mag_sum_neq : fexp F a <> 0 \/ fexp F b <> 0 -> mag F a + mag F b <> 0.
Proof using Hf He.
  intros H; pose proof (mag_nonneg F a Hf He); pose proof (mag_nonneg F b Hf He).
  destruct H as [H | H]; [pose proof (mag_pos F a Hf He H) | pose proof (mag_pos F b Hf He H)]; lia.
Qed.

Lemma add_subnormal :
  2 <= ebits F -> fexp F a = 0 -> fexp F b = 0 ->
  (if mag F a + mag F b =? 0 then (signbit F s, 0)
   else ieee_round F rm s (mag F a + mag F b) 1) = (signbit F s + (ffrac F a + ffrac F b), 0).
Proof using Hf He.
  intros H2 Ea Eb; unfold mag; rewrite Ea, Eb; cbn [Z.eqb].
  pose proof (ffrac_range F a Hf); pose proof (ffrac_range F b Hf).
  destruct (Z.eqb_spec (ffrac F a + ffrac F b) 0); [f_equal; lia|].
  rewrite <- (Z.mul_1_r (ffrac F a + ffrac F b)) at 1; change 1 with (2 ^ 0) at 1.
  pose proof (pow2_le 2 (ebits F) ltac:(lia)).
  rewrite ieee_round_exact; rewrite ?pow2_succ by lia; unfold inf_mag, emax; try lia.
  - reflexivity.
  - nia.
Qed.
End Leaves.

Ltac classify F a :=
  first [ rewrite (is_nan_fields F a) by (cbn; lia)
        | destruct (is_inf_fields F a) as [-> ->]; [cbn; lia | cbn; lia |]
        | destruct (finite_fields F a) as [-> ->]; [cbn; lia |] ].

(** Ranges of the fields of two operands. *)
Ltac operands F a b f m :=
  let N := fresh "N" in
  pose proof (ffrac_range F a ltac:(cbn; lia)); pose proof (ffrac_range F b ltac:(cbn; lia));
  pose proof (fexp_range F a ltac:(cbn; lia)); pose proof (fexp_range F b ltac:(cbn; lia));
  pose proof (fields_split F a ltac:(cbn; lia) ltac:(cbn; lia) ltac:(cbn; lia));
  pose proof (mant_range F a ltac:(cbn; lia)) as [N _];
  pose proof (mant_range F b ltac:(cbn; lia)) as [? _];
  change (fbits F) with f in *; change (emax F) with m in *.

Lemma addMagsF32_spec a b :
  0 <= a < 0x100000000 -> 0 <= b < 0x100000000 ->
  meets (softfloat_addMagsF32 a b) (add_mags_spec F32 (fsign F32 a) a b).
Proof.
  intros Ha Hb rm fl; unfold softfloat_addMagsF32; cbv zeta; autorewrite with sf_fields.
  operands F32 a b 23 0xFF.
  pose proof (sigF32_mant a (2 ^ 6) ltac:(lia)) as Ma.
  pose proof (sigF32_mant b (2 ^ 6) ltac:(lia)) as Mb.
  pose proof (propagateNaNF32UI_spec a b rm fl) as Np.
  rewrite nz_lor; unfold add_mags_spec, nz; change (inf_mag F32) with (0xFF * 2 ^ 23).
  destruct (Z.eqb_spec (fexp F32 a - fexp F32 b) 0) as [D | D]; cbn [negb].
  - destruct (Z.eqb_spec (fexp F32 a) 0) as [Za | Za]; cbn [negb].
    + classify F32 a; classify F32 b; cbn [orb]; cbv zeta.
      rewrite add_subnormal by (cbn; lia); unfold ret; cbn [fst snd]; rewrite Z.lor_0_r.
      pose proof (signbit_range F32 (fsign F32 a) : _ <= _ <= 2 ^ 31).
      f_equal; rewrite u32_small; lia.
    + destruct (Z.eqb_spec (fexp F32 a) 0xFF) as [Ia | Ia].
      * destruct (Z.eqb_spec (ffrac F32 a) 0); destruct (Z.eqb_spec (ffrac F32 b) 0);
          classify F32 a; classify F32 b; cbn [orb negb]; rewrite ?orb_true_r; try exact Np.
        unfold ret; cbn [fst snd]; rewrite Z.lor_0_r; f_equal; lia.
      * classify F32 a; classify F32 b; cbn [orb]; cbv zeta.
        rewrite (proj2 (Z.eqb_neq (_ + _) 0)) by (apply mag_sum_neq; cbn; lia).
        apply addMagsF32_same; lia.
  - rewrite !(shiftl_mul (ffrac F32 _)) by lia; unfold nz in Ma, Mb.
    change (2 ^ 23 * 2 ^ 6) with 0x20000000 in *; rewrite Ma, Mb; clear Ma Mb.
    rewrite !(u32_small (ffrac _ _ * _)) by lia; destruct (Z.ltb_spec (fexp F32 a - fexp F32 b) 0).
    + destruct (Z.eqb_spec (fexp F32 b) 0xFF) as [Ib | Ib].
      * destruct (Z.eqb_spec (ffrac F32 b * 2 ^ 6) 0);
          classify F32 a; classify F32 b; cbn [orb negb]; rewrite ?orb_true_r; try exact Np.
        unfold ret; cbn [fst snd]; rewrite Z.lor_0_r, packToF32UI_spec by lia; f_equal; lia.
      * classify F32 a; classify F32 b; cbn [orb]; cbv zeta.
        rewrite (proj2 (Z.eqb_neq (_ + _) 0)) by (apply mag_sum_neq; cbn; lia).
        rewrite (Z.add_comm (mag _ a)); apply addMagsF32_finish; [lia|].
        rewrite shiftRightJam32_spec, (mant_normal F32 b) by lia.
        replace (- (fexp F32 a - fexp F32 b)) with (fexp F32 b - fexp F32 a) by lia.
        cbn [fbits F32]; lia.
    + destruct (Z.eqb_spec (fexp F32 a) 0xFF) as [Ia | Ia].
      * destruct (Z.eqb_spec (ffrac F32 a * 2 ^ 6) 0);
          classify F32 a; classify F32 b; cbn [orb negb]; rewrite ?orb_true_r; try exact Np.
        unfold ret; cbn [fst snd]; rewrite Z.lor_0_r; f_equal; lia.
      * classify F32 a; classify F32 b; cbn [orb]; cbv zeta.
        rewrite (proj2 (Z.eqb_neq (_ + _) 0)) by (apply mag_sum_neq; cbn; lia).
        apply addMagsF32_finish; [lia|].
        rewrite shiftRightJam32_spec, (mant_normal F32 a) by lia; cbn [fbits F32]; lia.
Qed.

(** Cancellation: the difference of two significands of the same exponent is exact. *)
Lemma ieee_round_cancel F rm s n e :
  1 <= fbits F -> 2 <= ebits F -> 0 < n < 2 ^ fbits F -> 0 <= e <= emax F - 2 ->
  let sd := fbits F - Z.log2 n in
  ieee_round F rm s (n * 2 ^ e) 1
  = (signbit F s
     + (if e - sd <? 0 then n * 2 ^ e else (e - sd) * 2 ^ fbits F + n * 2 ^ sd), 0).
Proof.
  intros Hf He Hn Hr sd; pose proof (pow2_pos e ltac:(lia)).
  pose proof (pow2_pos (fbits F) ltac:(lia)).
  assert (0 <= Z.log2 n < fbits F) by (split; [apply Z.log2_nonneg | apply Z.log2_lt_pow2; lia]).
  pose proof (normalize_range n (fbits F) ltac:(lia) ltac:(lia)) as R; fold sd in R.
  pose proof (pow2_le 2 (ebits F) ltac:(lia)).
  rewrite pow2_succ in R by lia; destruct (Z.ltb_spec (e - sd) 0).
  - assert (n * 2 ^ e < 2 ^ fbits F).
    { pose proof (pow2_le e (sd - 1) ltac:(lia)); pose proof (pow2_half sd ltac:(lia)); nia. }
    rewrite <- (Z.mul_1_r (n * 2 ^ e)) at 1; change 1 with (2 ^ 0) at 1.
    rewrite ieee_round_exact; rewrite ?pow2_succ by lia; unfold inf_mag, emax; try nia.
    reflexivity.
  - replace (n * 2 ^ e) with (n * 2 ^ sd * 2 ^ (e - sd))
      by (rewrite (pow2_split e sd) by lia; ring).
    apply ieee_round_exact; rewrite ?pow2_succ by lia; unfold inf_mag; try lia; nia.
Qed.

(** The difference of two operands of the same exponent. *)
Lemma mag_sub_same F a b :
  fexp F a = fexp F b ->
  mag F a - mag F b
  = (ffrac F a - ffrac F b) * 2 ^ (if nz (fexp F a) then fexp F a - 1 else fexp F a).
Proof.
  intros E; unfold mag, nz; rewrite <- E.
  destruct (Z.eqb_spec (fexp F a) 0) as [-> | ]; cbn [negb]; [rewrite Z.pow_0_r|]; ring.
Qed.

Lemma mag_lt F x y :
  1 <= fbits F -> 1 <= ebits F -> fexp F y < fexp F x -> mag F y < mag F x.
Proof.
  intros Hf He H; pose proof (mag_mant F x Hf He) as Mx; pose proof (mag_mant F y Hf He) as My.
  pose proof (fexp_range F y He).
  pose proof (mant_range F x Hf) as [_ Nx]; pose proof (mant_range F y Hf) as [Ry _].
  specialize (Nx ltac:(lia)); rewrite pow2_succ in Ry by lia.
  pose proof (pow2_pos (fbits F) ltac:(lia)); pose proof (pow2_pos (fexp F y) ltac:(lia)).
  pose proof (pow2_le (fexp F y + 1) (fexp F x) ltac:(lia)) as L.
  rewrite pow2_succ in L by lia; nia.
Qed.

Lemma subMagsF32_cancel sign n e :
  0 < n < 2 ^ 23 -> 0 <= e <= 0xFD ->
  meets
    (let '(shiftDist, expZ) :=
       if e - (softfloat_countLeadingZeros32 n - 8) <? 0 then (e, 0)
       else (softfloat_countLeadingZeros32 n - 8, e - (softfloat_countLeadingZeros32 n - 8)) in
     ret (packToF32UI sign expZ (n .<< shiftDist)))
    (fun rm => ieee_round F32 rm sign (n * 2 ^ e) 1).
Proof.
  intros Hn He rm fl; rewrite countLeadingZeros32_spec by lia.
  rewrite (ieee_round_cancel F32) by (cbn; lia); cbn [fbits F32].
  assert (0 <= Z.log2 n < 23) by (split; [apply Z.log2_nonneg | apply Z.log2_lt_pow2; lia]).
  replace (31 - Z.log2 n - 8) with (23 - Z.log2 n) by lia.
  pose proof (normalize_range n 23 ltac:(lia) ltac:(lia)) as R.
  set (sd := 23 - Z.log2 n) in *.
  destruct (Z.ltb_spec (e - sd) 0); unfold ret; cbn [fst snd]; rewrite Z.lor_0_r, shiftl_mul by lia;
    rewrite packToF32UI_spec; try lia; try (f_equal; lia).
  all: pose proof (pow2_pos e ltac:(lia)); pose proof (pow2_le e sd ltac:(lia)); nia.
Qed.

Lemma scaled_sign n e : 0 <= e ->
  (n * 2 ^ e =? 0) = (n =? 0) /\ (n * 2 ^ e <? 0) = (n <? 0) /\
  Z.abs (n * 2 ^ e) = Z.abs n * 2 ^ e.
Proof.
  intros He; pose proof (pow2_pos e He); repeat split.
  - apply eq_true_iff_eq; rewrite !Z.eqb_eq; nia.
  - apply eq_true_iff_eq; rewrite !Z.ltb_lt; nia.
  - rewrite Z.abs_mul, (Z.abs_eq (2 ^ e)) by lia; reflexivity.
Qed.

Lemma subMagsF32_same sign sigDiff e :
  - 2 ^ 23 < sigDiff < 2 ^ 23 -> 0 <= e <= 0xFD ->
  meets
    (if negb (nz sigDiff) then
       roundingMode <- softfloat_roundingMode ;;
       ret (packToF32UI (roundingMode =? softfloat_round_min) 0 0)
     else
       let '(signZ, sigDiff) :=
         if sigDiff <? 0 then (negb sign, - sigDiff) else (sign, sigDiff) in
       let '(shiftDist, expZ) :=
         if e - (softfloat_countLeadingZeros32 sigDiff - 8) <? 0 then (e, 0)
         else (softfloat_countLeadingZeros32 sigDiff - 8,
               e - (softfloat_countLeadingZeros32 sigDiff - 8)) in
       ret (packToF32UI signZ expZ (sigDiff .<< shiftDist)))
    (fun rm =>
       let v := sigDiff * 2 ^ e in
       if v =? 0 then (signbit F32 (rm =? softfloat_round_min), 0)
       else ieee_round F32 rm (xorb sign (v <? 0)) (Z.abs v) 1).
Proof.
  intros Hd He rm fl; cbv zeta; unfold nz.
  destruct (scaled_sign sigDiff e ltac:(lia)) as (-> & -> & ->).
  destruct (Z.eqb_spec sigDiff 0); cbn [negb].
  - unfold bind, softfloat_roundingMode, ret; cbn [fst snd].
    rewrite Z.lor_0_r, packToF32UI_spec by lia; f_equal; lia.
  - destruct (Z.ltb_spec sigDiff 0); cbn [xorb]; rewrite ?xorb_true_r, ?xorb_false_r.
    + rewrite Z.abs_neq by lia; apply subMagsF32_cancel; lia.
    + rewrite Z.abs_eq by lia; apply subMagsF32_cancel; lia.
Qed.

Lemma subMagsF32_finish sign x y sigZ :
  fexp F32 y < fexp F32 x < 0xFF ->
  sigZ = mant F32 x * 2 ^ 7 - jdiv (mant F32 y * 2 ^ 7) (2 ^ (fexp F32 x - fexp F32 y)) ->
  meets (softfloat_normRoundPackToF32 sign (fexp F32 x - 1) (u32 sigZ))
    (fun rm => ieee_round F32 rm sign (mag F32 x - mag F32 y) 1).
Proof.
  intros H -> rm fl.
  pose proof (fexp_range F32 y ltac:(cbn; lia)).
  pose proof (mag_mant F32 x ltac:(cbn; lia) ltac:(cbn; lia)) as Mx.
  pose proof (mag_mant F32 y ltac:(cbn; lia) ltac:(cbn; lia)) as My.
  pose proof (mant_range F32 x ltac:(cbn; lia)) as [Rx Nx].
  pose proof (mant_range F32 y ltac:(cbn; lia)) as [Ry _].
  specialize (Nx ltac:(lia)).
  pose proof (aligned_sub_pos F32 7 (fexp F32 x) (fexp F32 y) (mant F32 x) (mant F32 y)
    ltac:(cbn; lia) ltac:(lia) ltac:(lia) Nx Ry) as P.
  cbn [fbits F32] in *; rewrite u32_small, normRoundPackToF32_spec by lia.
  rewrite (round_aligned_sub F32 rm sign 7 _ _ _ _ (mag F32 x - mag F32 y)) by (cbn [fbits F32]; lia).
  reflexivity.
Qed.

Lemma subMagsF32_spec a b :
  0 <= a < 0x100000000 -> 0 <= b < 0x100000000 ->
  meets (softfloat_subMagsF32 a b) (sub_mags_spec F32 (fsign F32 a) a b).
Proof.
  intros Ha Hb rm fl; unfold softfloat_subMagsF32; cbv zeta; autorewrite with sf_fields.
  operands F32 a b 23 0xFF.
  pose proof (sigF32_mant a (2 ^ 7) ltac:(lia)) as Ma.
  pose proof (sigF32_mant b (2 ^ 7) ltac:(lia)) as Mb.
  pose proof (propagateNaNF32UI_spec a b rm fl) as Np.
  rewrite nz_lor; unfold sub_mags_spec, nz; change (inf_mag F32) with (0xFF * 2 ^ 23).
  destruct (Z.eqb_spec (fexp F32 a - fexp F32 b) 0) as [D | D]; cbn [negb].
  - destruct (Z.eqb_spec (fexp F32 a) 0xFF) as [Ia | Ia].
    + destruct (Z.eqb_spec (ffrac F32 a) 0); destruct (Z.eqb_spec (ffrac F32 b) 0);
        classify F32 a; classify F32 b; cbn [orb negb]; rewrite ?orb_true_r; try exact Np.
      reflexivity.
    + classify F32 a; classify F32 b; cbn [orb]; cbv zeta.
      rewrite mag_sub_same by lia; unfold i32; rewrite swrap_small by lia.
      apply subMagsF32_same; [lia|]; unfold nz; destruct (Z.eqb_spec (fexp F32 a) 0); cbn [negb]; lia.
  - rewrite !(shiftl_mul (ffrac F32 _)) by lia; unfold nz in Ma, Mb.
    change (2 ^ 23 * 2 ^ 7) with 0x40000000 in *; rewrite Ma, Mb; clear Ma Mb.
    rewrite !(u32_small (ffrac _ _ * _)) by lia.
    change 0x40000000 with (2 ^ 30); rewrite !lor_pow2 by lia.
    destruct (Z.ltb_spec (fexp F32 a - fexp F32 b) 0).
    + destruct (Z.eqb_spec (fexp F32 b) 0xFF) as [Ib | Ib].
      * destruct (Z.eqb_spec (ffrac F32 b * 2 ^ 7) 0);
          classify F32 a; classify F32 b; cbn [orb negb]; rewrite ?orb_true_r; try exact Np.
        unfold ret; cbn [fst snd]; rewrite Z.lor_0_r, packToF32UI_spec by lia; f_equal; lia.
      * classify F32 a; classify F32 b; cbn [orb]; cbv zeta.
        pose proof (mag_lt F32 b a ltac:(cbn; lia) ltac:(cbn; lia) ltac:(lia)).
        rewrite (proj2 (Z.eqb_neq (_ - _) 0)), (proj2 (Z.ltb_lt (_ - _) 0)), xorb_true_r, Z.abs_neq by lia.
        replace (- (mag F32 a - mag F32 b)) with (mag F32 b - mag F32 a) by lia.
        apply subMagsF32_finish; [lia|].
        rewrite shiftRightJam32_spec, (mant_normal F32 b) by lia.
        replace (- (fexp F32 a - fexp F32 b)) with (fexp F32 b - fexp F32 a) by lia.
        cbn [fbits F32]; lia.
    + destruct (Z.eqb_spec (fexp F32 a) 0xFF) as [Ia | Ia].
      * destruct (Z.eqb_spec (ffrac F32 a * 2 ^ 7) 0);
          classify F32 a; classify F32 b; cbn [orb negb]; rewrite ?orb_true_r; try exact Np.
        unfold ret; cbn [fst snd]; rewrite Z.lor_0_r; f_equal; lia.
      * classify F32 a; classify F32 b; cbn [orb]; cbv zeta.
        pose proof (mag_lt F32 a b ltac:(cbn; lia) ltac:(cbn; lia) ltac:(lia)).
        rewrite (proj2 (Z.eqb_neq (_ - _) 0)), (proj2 (Z.ltb_ge (_ - _) 0)), xorb_false_r, Z.abs_eq by lia.
        apply subMagsF32_finish; [lia|].
        rewrite shiftRightJam32_spec, (mant_normal F32 a) by lia; cbn [fbits F32]; lia.
Qed.

Lemma signF32UI_lxor a b :
  0 <= a < 0x100000000 -> 0 <= b < 0x100000000 ->
  signF32UI (a .^ b) = xorb (fsign F32 a) (fsign F32 b).
Proof.
  intros; rewrite signF32UI_spec by (apply (lxor_range 32); lia).
  apply fsign_lxor; cbn; lia.
Qed.

(** ** Correctness of [f32_add] and [f32_sub] *)

Lemma f32_add_spec a b :
  0 <= a < 0x100000000 -> 0 <= b < 0x100000000 ->
  meets (f32_add a b) (fun rm => ieee_add F32 rm a b).
Proof.
  intros Ha Hb rm fl; unfold f32_add; rewrite signF32UI_lxor, ieee_add_mags by (cbn; lia).
  destruct (xorb _ _); [apply subMagsF32_spec | apply addMagsF32_spec]; assumption.
Qed.


Lemma f32_sub_spec a b :
  0 <= a < 0x100000000 -> 0 <= b < 0x100000000 ->
  meets (f32_sub a b) (fun rm => ieee_sub F32 rm a b).
Proof.
  intros Ha Hb rm fl; unfold f32_sub; rewrite signF32UI_lxor, ieee_sub_mags by (cbn; lia).
  destruct (xorb _ _); [apply addMagsF32_spec | apply subMagsF32_spec]; assumption.
Qed.
