(* ===== verification/SfAddF64.v ===== *)
(** * SoftFloat: addition and subtraction of doubles

    [s_addMagsF64.c], [s_subMagsF64.c], [f64_add.c], [f64_sub.c]. *)

From S2P Require Import Prelude FpSpec FpTheory SfEnv SfPrim SfRound SfAdd.
From Stdlib Require Import ZArith Lia Bool.

(** ** Definitions *)

Definition softfloat_addMagsF64 (uiA uiB : Z) (signZ : bool) : fp Z :=
  let expA := expF64UI uiA in
  let sigA := fracF64UI uiA in
  let expB := expF64UI uiB in
  let sigB := fracF64UI uiB in
  let propagateNaN := softfloat_propagateNaNF64UI uiA uiB in
  let expDiff := expA - expB in
  if negb (nz expDiff) then
    if negb (nz expA) then ret (u64 (uiA + sigB))
    else if expA =? 0x7FF then
      if nz (sigA .| sigB) then propagateNaN else ret uiA
    else
      let expZ := expA in
      let sigZ := u64 (0x0020000000000000 + sigA + sigB) in
      let sigZ := u64 (sigZ .<< 9) in
      softfloat_roundPackToF64 signZ expZ sigZ
  else
    let sigA := u64 (sigA .<< 9) in
    let sigB := u64 (sigB .<< 9) in
    let finish (expZ sigA sigB : Z) : fp Z :=
      let sigZ := u64 (0x2000000000000000 + sigA + sigB) in
      let '(expZ, sigZ) :=
        if sigZ <? 0x4000000000000000 then (expZ - 1, u64 (sigZ .<< 1)) else (expZ, sigZ) in
      softfloat_roundPackToF64 signZ expZ sigZ in
    if expDiff <? 0 then
      if expB =? 0x7FF then
        if nz sigB then propagateNaN else ret (packToF64UI signZ 0x7FF 0)
      else
        let sigA :=
          if nz expA then u64 (sigA + 0x2000000000000000) else u64 (sigA .<< 1) in
        let sigA := softfloat_shiftRightJam64 sigA (- expDiff) in
        finish expB sigA sigB
    else
      if expA =? 0x7FF then
        if nz sigA then propagateNaN else ret uiA
      else
        let sigB :=
          if nz expB then u64 (sigB + 0x2000000000000000) else u64 (sigB .<< 1) in
        let sigB := softfloat_shiftRightJam64 sigB expDiff in
        finish expA sigA sigB.

Definition softfloat_subMagsF64 (uiA uiB : Z) (signZ : bool) : fp Z :=
  let expA := expF64UI uiA in
  let sigA := fracF64UI uiA in
  let expB := expF64UI uiB in
  let sigB := fracF64UI uiB in
  let propagateNaN := softfloat_propagateNaNF64UI uiA uiB in
  let expDiff := expA - expB in
  if negb (nz expDiff) then
    if expA =? 0x7FF then
      if nz (sigA .| sigB) then propagateNaN
      else softfloat_raiseFlags softfloat_flag_invalid ;;; ret defaultNaNF64UI
    else
      let sigDiff := i64 (sigA - sigB) in
      if negb (nz sigDiff) then
        roundingMode <- softfloat_roundingMode ;;
        ret (packToF64UI (roundingMode =? softfloat_round_min) 0 0)
      else
        let expA := if nz expA then expA - 1 else expA in
        let '(signZ, sigDiff) :=
          if sigDiff <? 0 then (negb signZ, - sigDiff) else (signZ, sigDiff) in
        let shiftDist := softfloat_countLeadingZeros64 sigDiff - 11 in
        let expZ := expA - shiftDist in
        let '(shiftDist, expZ) := if expZ <? 0 then (expA, 0) else (shiftDist, expZ) in
        ret (packToF64UI signZ expZ (sigDiff .<< shiftDist))
  else
    let sigA := u64 (sigA .<< 10) in
    let sigB := u64 (sigB .<< 10) in
    if expDiff <? 0 then
      let signZ := negb signZ in
      if expB =? 0x7FF then
        if nz sigB then propagateNaN else ret (packToF64UI signZ 0x7FF 0)
      else
        let sigA := u64 (sigA + (if nz expA then 0x4000000000000000 else sigA)) in
        let sigA := softfloat_shiftRightJam64 sigA (- expDiff) in
        let sigB := sigB .| 0x4000000000000000 in
        let expZ := expB in
        let sigZ := u64 (sigB - sigA) in
        softfloat_normRoundPackToF64 signZ (expZ - 1) sigZ
    else
      if expA =? 0x7FF then
        if nz sigA then propagateNaN else ret uiA
      else
        let sigB := u64 (sigB + (if nz expB then 0x4000000000000000 else sigB)) in
        let sigB := softfloat_shiftRightJam64 sigB expDiff in
        let sigA := sigA .| 0x4000000000000000 in
        let expZ := expA in
        let sigZ := u64 (sigA - sigB) in
        softfloat_normRoundPackToF64 signZ (expZ - 1) sigZ.

Definition f64_add (a b : Z) : fp Z :=
  let signA := signF64UI a in
  let signB := signF64UI b in
  (if Bool.eqb signA signB then softfloat_addMagsF64 else softfloat_subMagsF64) a b signA.

Definition f64_sub (a b : Z) : fp Z :=
  let signA := signF64UI a in
  let signB := signF64UI b in
  (if Bool.eqb signA signB then softfloat_subMagsF64 else softfloat_addMagsF64) a b signA.

Lemma propagateNaNF64UI_spec a b :
  meets (softfloat_propagateNaNF64UI a b) (fun _ => nan_result F64 a b).
Proof.
  intros rm fl; unfold softfloat_propagateNaNF64UI, bind.
  rewrite raise_if_eq, !isSigNaNF64UI_spec; reflexivity.
Qed.

(** ** Correctness *)

Lemma addMagsF64_finish sign x y sigZ :
  fexp F64 y < fexp F64 x < 0x7FF ->
  sigZ = mant F64 x * 2 ^ 9 + jdiv (mant F64 y * 2 ^ 9) (2 ^ (fexp F64 x - fexp F64 y)) ->
  meets
    (let '(expZ, sigZ) :=
       if u64 sigZ <? 0x4000000000000000 then (fexp F64 x - 1, u64 (u64 sigZ .<< 1))
       else (fexp F64 x, u64 sigZ) in
     softfloat_roundPackToF64 sign expZ sigZ)
    (fun rm => ieee_round F64 rm sign (mag F64 x + mag F64 y) 1).
Proof.
  intros H ->.
  pose proof (fexp_range F64 y ltac:(cbn; lia)).
  pose proof (mag_mant F64 x ltac:(cbn; lia) ltac:(cbn; lia)) as Mx.
  pose proof (mag_mant F64 y ltac:(cbn; lia) ltac:(cbn; lia)) as My.
  pose proof (mant_range F64 x ltac:(cbn; lia)) as [Rx Nx].
  pose proof (mant_range F64 y ltac:(cbn; lia)) as [Ry _].
  cbn [fbits F64] in *; specialize (Nx ltac:(lia)).
  pose proof (jdiv_le (mant F64 y * 2 ^ 9) (fexp F64 x - fexp F64 y) ltac:(lia) ltac:(lia)) as J.
  assert (A : forall rm, round_scaled F64 rm sign
    (mant F64 x * 2 ^ (10 - 1) + jdiv (mant F64 y * 2 ^ (10 - 1)) (2 ^ (fexp F64 x - fexp F64 y)))
    1 (fexp F64 x - 10) = ieee_round F64 rm sign (mag F64 x + mag F64 y) 1)
    by (intros; apply round_aligned_add; cbn [fbits F64]; lia).
  change (10 - 1) with 9 in A.
  set (z := mant F64 x * 2 ^ 9 + jdiv _ _) in *.
  assert (2 ^ 61 <= z < 2 ^ 63) by (subst z; Z.div_mod_to_equations; lia); clearbody z.
  wsimp; destruct (Z.ltb_spec z 0x4000000000000000).
  - rewrite shiftl_mul by lia; wsimp; intros rm fl.
    rewrite (roundPackToF64_spec sign (fexp F64 x - 1) (z * 2 ^ 1)) by lia.
    rewrite round_scaled_shift, <- A by lia.
    replace (fexp F64 x - 1 - 10 + 1) with (fexp F64 x - 10) by lia; reflexivity.
  - intros rm fl; rewrite roundPackToF64_spec, A by lia; reflexivity.
Qed.

Lemma addMagsF64_same a b sign :
  fexp F64 a = fexp F64 b -> 0 < fexp F64 a < 0x7FF ->
  meets
    (softfloat_roundPackToF64 sign (fexp F64 a)
       (u64 (u64 (0x0020000000000000 + ffrac F64 a + ffrac F64 b) .<< 9)))
    (fun rm => ieee_round F64 rm sign (mag F64 a + mag F64 b) 1).
Proof.
  intros E H rm fl.
  pose proof (ffrac_range F64 a ltac:(cbn; lia)); pose proof (ffrac_range F64 b ltac:(cbn; lia)).
  cbn [fbits F64] in *; wsimp.
  assert (V : mag F64 a + mag F64 b
              = (0x0020000000000000 + ffrac F64 a + ffrac F64 b) * 2 ^ (fexp F64 a - 1)).
  { unfold mag; rewrite <- E, (proj2 (Z.eqb_neq (fexp F64 a) 0)) by lia; cbn [fbits F64]; ring. }
  rewrite V; set (z := 0x0020000000000000 + ffrac F64 a + ffrac F64 b) in *.
  assert (Rz : 2 ^ 53 <= z < 2 ^ 54) by lia; clearbody z.
  rewrite shiftl_mul by lia; wsimp; rewrite roundPackToF64_spec by lia.
  rewrite (round_scaled_eq F64 rm sign (z * 2 ^ 9) 1 _ 10 (z * 2 ^ (fexp F64 a - 1)) 1);
    try lia; [reflexivity|].
  replace (10 + (fexp F64 a - 10)) with (fexp F64 a) by lia.
  rewrite (pow2_half (fexp F64 a)) by lia; lia.
Qed.

Lemma sigF64_mant9 a :
  (if nz (fexp F64 a) then u64 (u64 (ffrac F64 a .<< 9) + 0x2000000000000000)
   else u64 (u64 (ffrac F64 a .<< 9) .<< 1))
  = mant F64 a * 2 ^ 9.
Proof.
  pose proof (ffrac_range F64 a ltac:(cbn; lia)); cbn [fbits F64] in *.
  unfold mant, nz; cbn [fbits F64]; rewrite !shiftl_mul by lia; wsimp.
  destruct (Z.eqb_spec (fexp F64 a) 0); cbn [negb]; wsimp; lia.
Qed.

Lemma sigF64_mant10 a :
  u64 (u64 (ffrac F64 a .<< 10)
       + (if nz (fexp F64 a) then 0x4000000000000000 else u64 (ffrac F64 a .<< 10)))
  = mant F64 a * 2 ^ 10.
Proof.
  pose proof (ffrac_range F64 a ltac:(cbn; lia)); cbn [fbits F64] in *.
  unfold mant, nz; cbn [fbits F64]; rewrite !shiftl_mul by lia; wsimp.
  destruct (Z.eqb_spec (fexp F64 a) 0); cbn [negb]; wsimp; lia.
Qed.

Lemma addMagsF64_spec a b :
  0 <= a < 0x10000000000000000 -> 0 <= b < 0x10000000000000000 ->
  meets (softfloat_addMagsF64 a b (fsign F64 a)) (add_mags_spec F64 (fsign F64 a) a b).
Proof.
  intros Ha Hb rm fl; unfold softfloat_addMagsF64; cbv zeta; autorewrite with sf_fields.
  operands F64 a b 52 0x7FF.
  rewrite !sigF64_mant9.
  pose proof (propagateNaNF64UI_spec a b rm fl) as Np.
  rewrite nz_lor; unfold add_mags_spec, nz; change (inf_mag F64) with (0x7FF * 2 ^ 52).
  destruct (Z.eqb_spec (fexp F64 a - fexp F64 b) 0) as [D | D]; cbn [negb].
  - destruct (Z.eqb_spec (fexp F64 a) 0) as [Za | Za]; cbn [negb].
    + classify F64 a; classify F64 b; cbn [orb]; cbv zeta.
      rewrite add_subnormal by (cbn; lia); unfold ret; cbn [fst snd]; rewrite Z.lor_0_r.
      pose proof (signbit_range F64 (fsign F64 a) : _ <= _ <= 2 ^ 63).
      f_equal; rewrite u64_small; lia.
    + destruct (Z.eqb_spec (fexp F64 a) 0x7FF) as [Ia | Ia].
      * destruct (Z.eqb_spec (ffrac F64 a) 0); destruct (Z.eqb_spec (ffrac F64 b) 0);
          classify F64 a; classify F64 b; cbn [orb negb]; rewrite ?orb_true_r; try exact Np.
        unfold ret; cbn [fst snd]; rewrite Z.lor_0_r; f_equal; lia.
      * classify F64 a; classify F64 b; cbn [orb]; cbv zeta.
        rewrite (proj2 (Z.eqb_neq (_ + _) 0)) by (apply mag_sum_neq; cbn; lia).
        apply addMagsF64_same; lia.
  - rewrite !(shiftl_mul (ffrac F64 _)) by lia.
    rewrite !(u64_small (ffrac _ _ * _)) by lia; destruct (Z.ltb_spec (fexp F64 a - fexp F64 b) 0).
    + destruct (Z.eqb_spec (fexp F64 b) 0x7FF) as [Ib | Ib].
      * destruct (Z.eqb_spec (ffrac F64 b * 2 ^ 9) 0);
          classify F64 a; classify F64 b; cbn [orb negb]; rewrite ?orb_true_r; try exact Np.
        unfold ret; cbn [fst snd]; rewrite Z.lor_0_r, packToF64UI_spec by lia; f_equal; lia.
      * classify F64 a; classify F64 b; cbn [orb]; cbv zeta.
        rewrite (proj2 (Z.eqb_neq (_ + _) 0)) by (apply mag_sum_neq; cbn; lia).
        rewrite (Z.add_comm (mag _ a)); apply addMagsF64_finish; [lia|].
        rewrite shiftRightJam64_spec, (mant_normal F64 b) by lia.
        replace (- (fexp F64 a - fexp F64 b)) with (fexp F64 b - fexp F64 a) by lia.
        cbn [fbits F64]; lia.
    + destruct (Z.eqb_spec (fexp F64 a) 0x7FF) as [Ia | Ia].
      * destruct (Z.eqb_spec (ffrac F64 a * 2 ^ 9) 0);
          classify F64 a; classify F64 b; cbn [orb negb]; rewrite ?orb_true_r; try exact Np.
        unfold ret; cbn [fst snd]; rewrite Z.lor_0_r; f_equal; lia.
      * classify F64 a; classify F64 b; cbn [orb]; cbv zeta.
        rewrite (proj2 (Z.eqb_neq (_ + _) 0)) by (apply mag_sum_neq; cbn; lia).
        apply addMagsF64_finish; [lia|].
        rewrite shiftRightJam64_spec, (mant_normal F64 a) by lia; cbn [fbits F64]; lia.
Qed.

Lemma subMagsF64_cancel sign n e :
  0 < n < 2 ^ 52 -> 0 <= e <= 0x7FD ->
  meets
    (let '(shiftDist, expZ) :=
       if e - (softfloat_countLeadingZeros64 n - 11) <? 0 then (e, 0)
       else (softfloat_countLeadingZeros64 n - 11, e - (softfloat_countLeadingZeros64 n - 11)) in
     ret (packToF64UI sign expZ (n .<< shiftDist)))
    (fun rm => ieee_round F64 rm sign (n * 2 ^ e) 1).
Proof.
  intros Hn He rm fl; rewrite countLeadingZeros64_spec by lia.
  rewrite (ieee_round_cancel F64) by (cbn; lia); cbn [fbits F64].
  assert (0 <= Z.log2 n < 52) by (split; [apply Z.log2_nonneg | apply Z.log2_lt_pow2; lia]).
  replace (63 - Z.log2 n - 11) with (52 - Z.log2 n) by lia.
  pose proof (normalize_range n 52 ltac:(lia) ltac:(lia)) as R.
  set (sd := 52 - Z.log2 n) in *.
  destruct (Z.ltb_spec (e - sd) 0); unfold ret; cbn [fst snd]; rewrite Z.lor_0_r, shiftl_mul by lia;
    rewrite packToF64UI_spec; try lia; try (f_equal; lia).
  all: pose proof (pow2_pos e ltac:(lia)); pose proof (pow2_le e sd ltac:(lia)); nia.
Qed.

Lemma subMagsF64_same sign sigDiff e :
  - 2 ^ 52 < sigDiff < 2 ^ 52 -> 0 <= e <= 0x7FD ->
  meets
    (if negb (nz sigDiff) then
       roundingMode <- softfloat_roundingMode ;;
       ret (packToF64UI (roundingMode =? softfloat_round_min) 0 0)
     else
       let '(signZ, sigDiff) :=
         if sigDiff <? 0 then (negb sign, - sigDiff) else (sign, sigDiff) in
       let '(shiftDist, expZ) :=
         if e - (softfloat_countLeadingZeros64 sigDiff - 11) <? 0 then (e, 0)
         else (softfloat_countLeadingZeros64 sigDiff - 11,
               e - (softfloat_countLeadingZeros64 sigDiff - 11)) in
       ret (packToF64UI signZ expZ (sigDiff .<< shiftDist)))
    (fun rm =>
       let v := sigDiff * 2 ^ e in
       if v =? 0 then (signbit F64 (rm =? softfloat_round_min), 0)
       else ieee_round F64 rm (xorb sign (v <? 0)) (Z.abs v) 1).
Proof.
  intros Hd He rm fl; cbv zeta; unfold nz.
  destruct (scaled_sign sigDiff e ltac:(lia)) as (-> & -> & ->).
  destruct (Z.eqb_spec sigDiff 0); cbn [negb].
  - unfold bind, softfloat_roundingMode, ret; cbn [fst snd].
    rewrite Z.lor_0_r, packToF64UI_spec by lia; f_equal; lia.
  - destruct (Z.ltb_spec sigDiff 0); cbn [xorb]; rewrite ?xorb_true_r, ?xorb_false_r.
    + rewrite Z.abs_neq by lia; apply subMagsF64_cancel; lia.
    + rewrite Z.abs_eq by lia; apply subMagsF64_cancel; lia.
Qed.

Lemma subMagsF64_finish sign x y sigZ :
  fexp F64 y < fexp F64 x < 0x7FF ->
  sigZ = mant F64 x * 2 ^ 10 - jdiv (mant F64 y * 2 ^ 10) (2 ^ (fexp F64 x - fexp F64 y)) ->
  meets (softfloat_normRoundPackToF64 sign (fexp F64 x - 1) (u64 sigZ))
    (fun rm => ieee_round F64 rm sign (mag F64 x - mag F64 y) 1).
Proof.
  intros H -> rm fl.
  pose proof (fexp_range F64 y ltac:(cbn; lia)).
  pose proof (mag_mant F64 x ltac:(cbn; lia) ltac:(cbn; lia)) as Mx.
  pose proof (mag_mant F64 y ltac:(cbn; lia) ltac:(cbn; lia)) as My.
  pose proof (mant_range F64 x ltac:(cbn; lia)) as [Rx Nx].
  pose proof (mant_range F64 y ltac:(cbn; lia)) as [Ry _].
  specialize (Nx ltac:(lia)).
  pose proof (aligned_sub_pos F64 10 (fexp F64 x) (fexp F64 y) (mant F64 x) (mant F64 y)
    ltac:(cbn; lia) ltac:(lia) ltac:(lia) Nx Ry) as P.
  cbn [fbits F64] in *; rewrite u64_small, normRoundPackToF64_spec by lia.
  rewrite (round_aligned_sub F64 rm sign 10 _ _ _ _ (mag F64 x - mag F64 y)) by (cbn [fbits F64]; lia).
  reflexivity.
Qed.

Lemma subMagsF64_spec a b :
  0 <= a < 0x10000000000000000 -> 0 <= b < 0x10000000000000000 ->
  meets (softfloat_subMagsF64 a b (fsign F64 a)) (sub_mags_spec F64 (fsign F64 a) a b).
Proof.
  intros Ha Hb rm fl; unfold softfloat_subMagsF64; cbv zeta; autorewrite with sf_fields.
  operands F64 a b 52 0x7FF.
  rewrite !sigF64_mant10.
  pose proof (propagateNaNF64UI_spec a b rm fl) as Np.
  rewrite nz_lor; unfold sub_mags_spec, nz; change (inf_mag F64) with (0x7FF * 2 ^ 52).
  destruct (Z.eqb_spec (fexp F64 a - fexp F64 b) 0) as [D | D]; cbn [negb].
  - destruct (Z.eqb_spec (fexp F64 a) 0x7FF) as [Ia | Ia].
    + destruct (Z.eqb_spec (ffrac F64 a) 0); destruct (Z.eqb_spec (ffrac F64 b) 0);
        classify F64 a; classify F64 b; cbn [orb negb]; rewrite ?orb_true_r; try exact Np.
      reflexivity.
    + classify F64 a; classify F64 b; cbn [orb]; cbv zeta.
      rewrite mag_sub_same by lia; unfold i64; rewrite swrap_small by lia.
      apply subMagsF64_same; [lia|]; unfold nz; destruct (Z.eqb_spec (fexp F64 a) 0); cbn [negb]; lia.
  - rewrite !(shiftl_mul (ffrac F64 _)) by lia.
    rewrite !(u64_small (ffrac _ _ * _)) by lia.
    change 0x4000000000000000 with (2 ^ 62); rewrite !lor_pow2 by lia.
    destruct (Z.ltb_spec (fexp F64 a - fexp F64 b) 0).
    + destruct (Z.eqb_spec (fexp F64 b) 0x7FF) as [Ib | Ib].
      * destruct (Z.eqb_spec (ffrac F64 b * 2 ^ 10) 0);
          classify F64 a; classify F64 b; cbn [orb negb]; rewrite ?orb_true_r; try exact Np.
        unfold ret; cbn [fst snd]; rewrite Z.lor_0_r, packToF64UI_spec by lia; f_equal; lia.
      * classify F64 a; classify F64 b; cbn [orb]; cbv zeta.
        pose proof (mag_lt F64 b a ltac:(cbn; lia) ltac:(cbn; lia) ltac:(lia)).
        rewrite (proj2 (Z.eqb_neq (_ - _) 0)), (proj2 (Z.ltb_lt (_ - _) 0)), xorb_true_r, Z.abs_neq by lia.
        replace (- (mag F64 a - mag F64 b)) with (mag F64 b - mag F64 a) by lia.
        apply subMagsF64_finish; [lia|].
        rewrite shiftRightJam64_spec, (mant_normal F64 b) by lia.
        replace (- (fexp F64 a - fexp F64 b)) with (fexp F64 b - fexp F64 a) by lia.
        cbn [fbits F64]; lia.
    + destruct (Z.eqb_spec (fexp F64 a) 0x7FF) as [Ia | Ia].
      * destruct (Z.eqb_spec (ffrac F64 a * 2 ^ 10) 0);
          classify F64 a; classify F64 b; cbn [orb negb]; rewrite ?orb_true_r; try exact Np.
        unfold ret; cbn [fst snd]; rewrite Z.lor_0_r; f_equal; lia.
      * classify F64 a; classify F64 b; cbn [orb]; cbv zeta.
        pose proof (mag_lt F64 a b ltac:(cbn; lia) ltac:(cbn; lia) ltac:(lia)).
        rewrite (proj2 (Z.eqb_neq (_ - _) 0)), (proj2 (Z.ltb_ge (_ - _) 0)), xorb_false_r, Z.abs_eq by lia.
        apply subMagsF64_finish; [lia|].
        rewrite shiftRightJam64_spec, (mant_normal F64 a) by lia; cbn [fbits F64]; lia.
Qed.


Lemma eqb_xorb a b : Bool.eqb a b = negb (xorb a b).
Proof. destruct a, b; reflexivity. Qed.

(** ** Correctness of [f64_add] and [f64_sub] *)

Lemma f64_add_spec a b :
  0 <= a < 0x10000000000000000 -> 0 <= b < 0x10000000000000000 ->
  meets (f64_add a b) (fun rm => ieee_add F64 rm a b).
Proof.
  intros Ha Hb rm fl; unfold f64_add; rewrite eqb_xorb, !signF64UI_spec by assumption.
  rewrite ieee_add_mags by (cbn; lia).
  destruct (xorb _ _); [apply subMagsF64_spec | apply addMagsF64_spec]; assumption.
Qed.


Lemma f64_sub_spec a b :
  0 <= a < 0x10000000000000000 -> 0 <= b < 0x10000000000000000 ->
  meets (f64_sub a b) (fun rm => ieee_sub F64 rm a b).
Proof.
  intros Ha Hb rm fl; unfold f64_sub; rewrite eqb_xorb, !signF64UI_spec by assumption.
  rewrite ieee_sub_mags by (cbn; lia).
  destruct (xorb _ _); [apply addMagsF64_spec | apply subMagsF64_spec]; assumption.
Qed.

(** C1: addition and subtraction, [f32_add], [f32_sub], [f64_add] and [f64_sub], return the IEEE
    754 sum and difference: for all operands, rounding modes and initial flags, the encoding and
    the exception flags of the correctly rounded exact result, with the standard's results on
    zeros, subnormals, infinities, quiet and signaling NaNs. *)
Theorem add_sub_correct a b c d :
  0 <= a < 0x100000000 -> 0 <= b < 0x100000000 ->
  0 <= c < 0x10000000000000000 -> 0 <= d < 0x10000000000000000 ->
  (meets (f32_add a b) (fun rm => ieee_add F32 rm a b) /\
   meets (f32_sub a b) (fun rm => ieee_sub F32 rm a b)) /\
  (meets (f64_add c d) (fun rm => ieee_add F64 rm c d) /\
   meets (f64_sub c d) (fun rm => ieee_sub F64 rm c d)).
Proof. auto using f32_add_spec, f32_sub_spec, f64_add_spec, f64_sub_spec. Qed.

(** A rounded sum and the invalid difference of two infinities; an overflowing sum. *)
Lemma add_sub_correct_witness :
  f32_add 0x3F800001 0x33FFFFFF softfloat_round_near_even 0 = (0x3F800002, 1) /\
  f32_sub 0x7F800000 0x7F800000 softfloat_round_min 0 = (0x7FC00000, 16) /\
  f64_add 0x7FEFFFFFFFFFFFFF 0x7C90000000000000 softfloat_round_max 0 = (0x7FF0000000000000, 5).
Proof.
  destruct (add_sub_correct 0x3F800001 0x33FFFFFF 0x7FEFFFFFFFFFFFFF 0x7C90000000000000
              ltac:(lia) ltac:(lia) ltac:(lia) ltac:(lia)) as [[A _] [B _]].
  destruct (add_sub_correct 0x7F800000 0x7F800000 0 0 ltac:(lia) ltac:(lia) ltac:(lia) ltac:(lia))
    as [[_ S] _].
  rewrite A, S, B; vm_compute; auto.
Defined.
