(* ===== verification/SfMul.v ===== *)
(** * SoftFloat: multiplication

    [s_mul64To128M.c], [f32_mul.c], [f64_mul.c], and the theorems that they compute the
    full product and the correctly rounded one. *)

From S2P Require Import Prelude FpSpec FpTheory SfEnv SfPrim SfRound SfAdd SfAddF64.
From Stdlib Require Import ZArith Lia Bool List.
Import ListNotations.

(** ** Definitions *)

(** The words of the product, least significant first ([indexWord( 4, n )] is [n] on this
    little-endian port). *)
Definition softfloat_mul64To128M (a b : Z) : list Z :=
  let a32 := u32 (a .>> 32) in
  let a0 := u32 a in
  let b32 := u32 (b .>> 32) in
  let b0 := u32 b in
  let z0 := u64 (a0 * b0) in
  let mid1 := u64 (a32 * b0) in
  let mid := u64 (mid1 + u64 (a0 * b32)) in
  let z64 := u64 (a32 * b32) in
  let z64 := u64 (z64 + (u64 (b2z (mid <? mid1) .<< 32) .| (mid .>> 32))) in
  let mid := u64 (mid .<< 32) in
  let z0 := u64 (z0 + mid) in
  let z64' := u64 (z64 + b2z (z0 <? mid)) in
  [u32 z0; u32 (z0 .>> 32); u32 z64'; u32 (z64' .>> 32)].

Definition f32_mul (a b : Z) : fp Z :=
  let uiA := a in
  let signA := signF32UI uiA in
  let expA := expF32UI uiA in
  let sigA := fracF32UI uiA in
  let uiB := b in
  let signB := signF32UI uiB in
  let expB := expF32UI uiB in
  let sigB := fracF32UI uiB in
  let signZ := xorb signA signB in
  let propagateNaN := softfloat_propagateNaNF32UI uiA uiB in
  let infArg (magBits : Z) : fp Z :=
    if negb (nz magBits)
    then softfloat_raiseFlags softfloat_flag_invalid ;;; ret defaultNaNF32UI
    else ret (packToF32UI signZ 0xFF 0) in
  let zero := ret (packToF32UI signZ 0 0) in
  let proceed (expA sigA expB sigB : Z) : fp Z :=
    let expZ := expA + expB - 0x7F in
    let sigA := u32 ((sigA .| 0x00800000) .<< 7) in
    let sigB := u32 ((sigB .| 0x00800000) .<< 8) in
    let sigZ := u32 (softfloat_shortShiftRightJam64 (u64 (sigA * sigB)) 32) in
    let '(expZ, sigZ) :=
      if sigZ <? 0x40000000 then (expZ - 1, u32 (sigZ .<< 1)) else (expZ, sigZ) in
    softfloat_roundPackToF32 signZ expZ sigZ in
  let normB (expA sigA : Z) : fp Z :=
    if negb (nz expB) then
      if negb (nz sigB) then zero
      else
        let normExpSig := softfloat_normSubnormalF32Sig sigB in
        proceed expA sigA (es_exp normExpSig) (es_sig normExpSig)
    else proceed expA sigA expB sigB in
  if expA =? 0xFF then
    if nz sigA || ((expB =? 0xFF) && nz sigB) then propagateNaN
    else infArg (expB .| sigB)
  else if expB =? 0xFF then
    if nz sigB then propagateNaN else infArg (expA .| sigA)
  else if negb (nz expA) then
    if negb (nz sigA) then zero
    else
      let normExpSig := softfloat_normSubnormalF32Sig sigA in
      normB (es_exp normExpSig) (es_sig normExpSig)
  else normB expA sigA.

Definition f64_mul (a b : Z) : fp Z :=
  let uiA := a in
  let signA := signF64UI uiA in
  let expA := expF64UI uiA in
  let sigA := fracF64UI uiA in
  let uiB := b in
  let signB := signF64UI uiB in
  let expB := expF64UI uiB in
  let sigB := fracF64UI uiB in
  let signZ := xorb signA signB in
  let propagateNaN := softfloat_propagateNaNF64UI uiA uiB in
  let infArg (magBits : Z) : fp Z :=
    if negb (nz magBits)
    then softfloat_raiseFlags softfloat_flag_invalid ;;; ret defaultNaNF64UI
    else ret (packToF64UI signZ 0x7FF 0) in
  let zero := ret (packToF64UI signZ 0 0) in
  let proceed (expA sigA expB sigB : Z) : fp Z :=
    let expZ := expA + expB - 0x3FF in
    let sigA := u64 ((sigA .| 0x0010000000000000) .<< 10) in
    let sigB := u64 ((sigB .| 0x0010000000000000) .<< 11) in
    let sig128Z := softfloat_mul64To128M sigA sigB in
    let sigZ := u64 (nth 3 sig128Z 0 .<< 32) .| nth 2 sig128Z 0 in
    let sigZ := if nz (nth 1 sig128Z 0) || nz (nth 0 sig128Z 0) then sigZ .| 1 else sigZ in
    let '(expZ, sigZ) :=
      if sigZ <? 0x4000000000000000 then (expZ - 1, u64 (sigZ .<< 1)) else (expZ, sigZ) in
    softfloat_roundPackToF64 signZ expZ sigZ in
  let normB (expA sigA : Z) : fp Z :=
    if negb (nz expB) then
      if negb (nz sigB) then zero
      else
        let normExpSig := softfloat_normSubnormalF64Sig sigB in
        proceed expA sigA (es_exp normExpSig) (es_sig normExpSig)
    else proceed expA sigA expB sigB in
  if expA =? 0x7FF then
    if nz sigA || ((expB =? 0x7FF) && nz sigB) then propagateNaN
    else infArg (expB .| sigB)
  else if expB =? 0x7FF then
    if nz sigB then propagateNaN else infArg (expA .| sigA)
  else if negb (nz expA) then
    if negb (nz sigA) then zero
    else
      let normExpSig := softfloat_normSubnormalF64Sig sigA in
      normB (es_exp normExpSig) (es_sig normExpSig)
  else normB expA sigA.

(** ** The double-width product *)

(** The value of a little-endian array of 32-bit words. *)
Fixpoint words (l : list Z) : Z :=
  match l with
  | [] => 0
  | x :: l => x + 2 ^ 32 * words l
  end.

(** Unsigned overflow shows as a sum below an operand. *)
Lemma add_carry w x y :
  0 <= w -> 0 <= x < 2 ^ w -> 0 <= y < 2 ^ w ->
  wrap w (x + y) = x + y - 2 ^ w * b2z (wrap w (x + y) <? y) /\ 0 <= wrap w (x + y) < 2 ^ w.
Proof.
  intros Hw Hx Hy; split; [|apply wrap_range; lia].
  destruct (Z.lt_ge_cases (x + y) (2 ^ w)).
  - rewrite (wrap_small w (x + y)), (proj2 (Z.ltb_ge _ _)) by lia; bsimpl; lia.
  - replace (wrap w (x + y)) with (x + y - 2 ^ w).
    + rewrite (proj2 (Z.ltb_lt _ _)) by lia; bsimpl; lia.
    + rewrite <- (wrap_add w _ (-1)) by lia; symmetry; rewrite wrap_small; lia.
Qed.

Lemma mul_u32_bound x y : 0 <= x < 2 ^ 32 -> 0 <= y < 2 ^ 32 -> 0 <= x * y <= (2 ^ 32 - 1) * (2 ^ 32 - 1).
Proof. intros; split; [nia|]; apply Z.mul_le_mono_nonneg; lia. Qed.

Lemma u32_split z : 0 <= z < 2 ^ 64 -> u32 z + 2 ^ 32 * u32 (z .>> 32) = z.
Proof.
  intros H; rewrite shiftr_div by lia.
  rewrite (u32_small (z / _)) by (split; [apply Z.div_pos | apply Z.div_lt_upper_bound]; lia).
  unfold u32, wrap; pose proof (Z.div_mod z (2 ^ 32)); lia.
Qed.

Lemma u64_shl32 z : u64 (z .<< 32) = z mod 2 ^ 32 * 2 ^ 32.
Proof.
  rewrite shiftl_mul by lia; unfold u64, wrap.
  change (2 ^ 64) with (2 ^ 32 * 2 ^ 32); apply Z.mul_mod_distr_r; lia.
Qed.

(** The schoolbook product of two-word numbers with its carries. *)
Lemma mul_words P00 P01 P10 P11 :
  let B := (2 ^ 32 - 1) * (2 ^ 32 - 1) in
  0 <= P00 <= B -> 0 <= P01 <= B -> 0 <= P10 <= B -> 0 <= P11 <= B ->
  let T := P00 + 2 ^ 32 * (P10 + P01) + 2 ^ 64 * P11 in
  T < 2 ^ 128 ->
  let mid := u64 (P10 + P01) in
  let z64 := u64 (P11 + (u64 (b2z (mid <? P10) .<< 32) .| (mid .>> 32))) in
  let z0 := u64 (P00 + u64 (mid .<< 32)) in
  words [u32 z0; u32 (z0 .>> 32);
         u32 (u64 (z64 + b2z (z0 <? u64 (mid .<< 32))));
         u32 (u64 (z64 + b2z (z0 <? u64 (mid .<< 32))) .>> 32)] = T.
Proof.
  intros B H00 H01 H10 H11 T HT mid z64 z0.
  assert (C1 : mid = P01 + P10 - 2 ^ 64 * b2z (mid <? P10) /\ 0 <= mid < 2 ^ 64).
  { subst mid; rewrite (Z.add_comm P10); apply (add_carry 64); lia. }
  destruct C1 as [C1 Rm]; set (c1 := b2z (mid <? P10)) in *.
  assert (Rc1 : 0 <= c1 <= 1) by (subst c1; destruct (_ <? _); bsimpl; lia).
  clearbody c1 mid; subst T B.
  pose proof (Z.div_mod mid (2 ^ 32) ltac:(lia)) as Dm.
  pose proof (Z.mod_pos_bound mid (2 ^ 32) ltac:(lia)) as Mm.
  assert (Rd : 0 <= mid / 2 ^ 32 < 2 ^ 32)
    by (split; [apply Z.div_pos | apply Z.div_lt_upper_bound]; lia).
  rewrite u64_shl32 in *; set (l := mid mod 2 ^ 32) in *.
  assert (C2 : z0 = P00 + l * 2 ^ 32 - 2 ^ 64 * b2z (z0 <? l * 2 ^ 32) /\ 0 <= z0 < 2 ^ 64)
    by (subst z0; rewrite u64_shl32; fold l; apply (add_carry 64); lia).
  destruct C2 as [C2 R0]; set (c2 := b2z (z0 <? l * 2 ^ 32)) in *.
  assert (Rc2 : 0 <= c2 <= 1) by (subst c2; destruct (_ <? _); bsimpl; lia).
  clearbody c2 z0; subst z64.
  rewrite (shiftr_div mid), shiftl_mul, (u64_small (c1 * 2 ^ 32)), lor_add_disjoint by lia.
  set (h := mid / 2 ^ 32) in *; clearbody h l.
  rewrite (u64_small (P11 + _)), (u64_small (_ + c2)) by lia.
  pose proof (u32_split z0 R0).
  pose proof (u32_split (P11 + (c1 * 2 ^ 32 + h) + c2) ltac:(lia)).
  cbn [words]; lia.
Qed.

Lemma mul64To128M_words a b :
  0 <= a < 2 ^ 64 -> 0 <= b < 2 ^ 64 ->
  words (softfloat_mul64To128M a b) = a * b.
Proof.
  intros Ha Hb; unfold softfloat_mul64To128M.
  pose proof (u32_split a Ha) as Sa; pose proof (u32_split b Hb) as Sb.
  pose proof (u32_range a); pose proof (u32_range b).
  pose proof (u32_range (a .>> 32)); pose proof (u32_range (b .>> 32)).
  assert (T : u32 a * u32 b + 2 ^ 32 * (u32 (a .>> 32) * u32 b + u32 a * u32 (b .>> 32))
              + 2 ^ 64 * (u32 (a .>> 32) * u32 (b .>> 32)) = a * b)
    by (rewrite <- (f_equal2 Z.mul Sa Sb); ring).
  assert (a * b < 2 ^ 128) by (change (2 ^ 128) with (2 ^ 64 * 2 ^ 64); nia).
  set (a1 := u32 (a .>> 32)) in *; set (a0 := u32 a) in *.
  set (b1 := u32 (b .>> 32)) in *; set (b0 := u32 b) in *; clearbody a1 a0 b1 b0.
  pose proof (mul_u32_bound a0 b0 ltac:(lia) ltac:(lia)).
  pose proof (mul_u32_bound a0 b1 ltac:(lia) ltac:(lia)).
  pose proof (mul_u32_bound a1 b0 ltac:(lia) ltac:(lia)).
  pose proof (mul_u32_bound a1 b1 ltac:(lia) ltac:(lia)).
  rewrite <- T; cbv zeta; wsimp; apply mul_words; lia.
Qed.

(** ** Normalized operands *)

(** [m] and [e] are the significand with its leading bit in place and the exponent of the
    finite operand [a]: [mag a = m * 2 ^ (e - 1)], where [e] may be below 1. *)
Definition norm_operand (F : fmt) (a m e : Z) : Prop :=
  2 ^ fbits F <= m < 2 ^ (fbits F + 1) /\ 1 - fbits F <= e < emax F /\
  mag F a * 2 ^ (fbits F + 1) = m * 2 ^ (e + fbits F).

Lemma norm_operand_normal F a :
  1 <= fbits F -> 1 <= ebits F -> fexp F a <> 0 -> fexp F a <> emax F ->
  norm_operand F a (2 ^ fbits F + ffrac F a) (fexp F a).
Proof.
  intros Hf He H0 H1; pose proof (ffrac_range F a Hf); pose proof (fexp_range F a He).
  unfold norm_operand; rewrite pow2_succ by lia; repeat split; try lia.
  unfold mag; rewrite (proj2 (Z.eqb_neq _ 0)) by lia.
  rewrite Z.pow_add_r, (pow2_half (fexp F a)) by lia; ring.
Qed.

Lemma norm_operand_subnormal F a m e :
  1 <= fbits F -> 2 <= ebits F -> fexp F a = 0 -> 1 - fbits F <= e <= 0 ->
  2 ^ fbits F <= m < 2 ^ (fbits F + 1) -> m = ffrac F a * 2 ^ (1 - e) ->
  norm_operand F a m e.
Proof.
  intros Hf He H0 Hr Hm Em; pose proof (pow2_le 2 (ebits F) ltac:(lia)).
  unfold norm_operand, emax; repeat split; try lia.
  unfold mag; rewrite H0, Em; cbn [Z.eqb].
  rewrite <- Z.mul_assoc, <- Z.pow_add_r by lia; do 2 f_equal; lia.
Qed.

Section RoundMul.
Context (F : fmt) (rm : Z) (s : bool) (j a mA eA b mB eB : Z).
Context (HF : 2 <= fbits F) (Hb : 2 <= ebits F) (Hj : 3 <= j).
Context (NA : norm_operand F a mA eA) (NB : norm_operand F b mB eB).
Let bias := 2 ^ (ebits F - 1) - 1.
Let P := mA * mB * 2 ^ (2 * j + 1).
Let D := 2 ^ (fbits F + j + 2).

Lemma product_range : 2 ^ (fbits F + j - 1) * D <= P < 2 ^ (fbits F + j + 1) * D.
Proof using HF Hb Hj NA NB.
  destruct NA as (Ra & _ & _), NB as (Rb & _ & _); subst P D.
  pose proof (pow2_pos (2 * j + 1) ltac:(lia)); pose proof (pow2_pos (fbits F) ltac:(lia)).
  rewrite pow2_succ in Ra, Rb by lia.
  assert (E : 2 ^ (fbits F + j - 1) * 2 ^ (fbits F + j + 2)
              = 2 ^ fbits F * 2 ^ fbits F * 2 ^ (2 * j + 1))
    by (rewrite <- !Z.pow_add_r by lia; f_equal; lia).
  rewrite (pow2_succ (fbits F + j)), (pow2_half (fbits F + j)) by lia.
  replace (2 * (2 * 2 ^ (fbits F + j - 1)) * 2 ^ (fbits F + j + 2))
    with (2 * 2 ^ fbits F * (2 * 2 ^ fbits F) * 2 ^ (2 * j + 1)) by lia.
  rewrite E.
  split; [apply Z.mul_le_mono_nonneg_r | apply Z.mul_lt_mono_pos_r]; nia.
Qed.

Lemma sigZ_range : 2 ^ (fbits F + j - 1) <= jdiv P D < 2 ^ (fbits F + j + 1).
Proof using HF Hb Hj NA NB.
  pose proof product_range as R; pose proof (pow2_pos (fbits F + j + 2) ltac:(lia)) as PD.
  fold D in PD; pose proof (pow2_half (fbits F + j + 1) ltac:(lia)) as E.
  assert (2 ^ (fbits F + j - 1) <= P / D) by (apply Z.div_le_lower_bound; lia).
  assert (P / D < 2 ^ (fbits F + j + 1)) by (apply Z.div_lt_upper_bound; lia).
  unfold jdiv; rewrite jam_spec; split; [destruct (_ && _); bsimpl; lia|].
  destruct (inexact P D && Z.even (P / D)) eqn:C; bsimpl; [|lia].
  apply andb_prop in C as [_ C]; rewrite even_mod2 in C; apply Z.eqb_eq in C.
  Z.div_mod_to_equations; lia.
Qed.

(** The product of the significands, jammed, rounds to the rounded product. *)
Lemma round_mul :
  round_scaled F rm s (jdiv P D) 1 (eA + eB - bias - j)
  = ieee_round F rm s (mag F a * mag F b) (2 ^ one_exp F).
Proof using HF Hb Hj NA NB.
  pose proof product_range as R; pose proof (pow2_pos (fbits F + j + 2) ltac:(lia)) as PD.
  fold D in PD; pose proof (pow2_pos (fbits F + j - 1) ltac:(lia)).
  pose proof (pow2_le 1 (ebits F - 1) ltac:(lia)).
  rewrite <- round_scaled_jam; [| lia | lia | nia |].
  2: { right; transitivity (2 ^ (fbits F + j - 1)); [apply pow2_le; lia|].
       apply Z.div_le_lower_bound; lia. }
  destruct NA as (_ & Xa & Ma), NB as (_ & Xb & Mb).
  assert (Ho : 0 <= one_exp F) by (unfold one_exp; lia).
  apply (round_scaled_eq _ _ _ _ _ _ (2 * fbits F + bias + j)); try lia.
  pose proof (pow2_pos (fbits F + 1) ltac:(lia)).
  apply (Z.mul_reg_r _ _ (2 ^ (fbits F + 1) * 2 ^ (fbits F + 1))); [nia|].
  transitivity (mag F a * 2 ^ (fbits F + 1) * (mag F b * 2 ^ (fbits F + 1))
                * (D * 2 ^ (2 * fbits F + bias + j))); [|ring].
  rewrite Ma, Mb; subst P D; unfold one_exp.
  transitivity (mA * mB * (2 ^ (2 * j + 1) * 2 ^ (2 * fbits F + bias + j + (eA + eB - bias - j))
    * 2 ^ (2 ^ (ebits F - 1) - 2 + fbits F) * 2 ^ (fbits F + 1) * 2 ^ (fbits F + 1))); [ring|].
  transitivity (mA * mB * (2 ^ (eA + fbits F) * 2 ^ (eB + fbits F) * 2 ^ (fbits F + j + 2)
    * 2 ^ (2 * fbits F + bias + j))); [|ring].
  rewrite <- !Z.pow_add_r by lia; do 2 f_equal; lia.
Qed.
End RoundMul.

(** Setting the hidden bit. *)
Lemma hidden_bit n sig :
  0 <= n -> 0 <= sig < 2 ^ (n + 1) ->
  sig .| 2 ^ n = if sig <? 2 ^ n then 2 ^ n + sig else sig.
Proof.
  intros Hn Hs; rewrite pow2_succ in Hs by lia; destruct (Z.ltb_spec sig (2 ^ n)).
  - rewrite lor_pow2 by lia; lia.
  - replace sig with (1 * 2 ^ n + (sig - 2 ^ n)) at 1 by lia.
    rewrite <- lor_add_disjoint by lia.
    rewrite Z.mul_1_l, Z.lor_comm, Z.lor_assoc, Z.lor_diag.
    rewrite <- (Z.mul_1_l (2 ^ n)) at 1; rewrite lor_add_disjoint by lia; lia.
Qed.

Lemma mulF32_finish sign a mA eA b mB eB :
  norm_operand F32 a mA eA -> norm_operand F32 b mB eB ->
  meets
    (let sigZ := u32 (softfloat_shortShiftRightJam64 (u64 (u32 (mA .<< 7) * u32 (mB .<< 8))) 32) in
     let '(expZ, sigZ) :=
       if sigZ <? 0x40000000 then (eA + eB - 0x7F - 1, u32 (sigZ .<< 1))
       else (eA + eB - 0x7F, sigZ) in
     softfloat_roundPackToF32 sign expZ sigZ)
    (fun rm => ieee_round F32 rm sign (mag F32 a * mag F32 b) (2 ^ one_exp F32)).
Proof.
  intros NA NB.
  pose proof (fun rm => round_mul F32 rm sign 7 a mA eA b mB eB
    ltac:(cbn; lia) ltac:(cbn; lia) ltac:(lia) NA NB) as A.
  pose proof (sigZ_range F32 7 a mA eA b mB eB
    ltac:(cbn; lia) ltac:(cbn; lia) ltac:(lia) NA NB) as R.
  destruct NA as (Ra & Xa & _), NB as (Rb & Xb & _).
  change (fbits F32) with 23 in *; change (emax F32) with 0xFF in *.
  change (2 ^ (ebits F32 - 1) - 1) with 0x7F in A.
  rewrite !shiftl_mul by lia; rewrite (u32_small (mA * _)), (u32_small (mB * _)) by lia.
  rewrite (u64_small (_ * _)) by nia; rewrite shortShiftRightJam64_spec by lia.
  replace (mA * 2 ^ 7 * (mB * 2 ^ 8)) with (mA * mB * 2 ^ (2 * 7 + 1)) by lia.
  change (2 ^ 32) with (2 ^ (23 + 7 + 2)).
  set (z := jdiv _ _) in *; clearbody z; cbv zeta; wsimp; intros rm fl.
  destruct (Z.ltb_spec z 0x40000000).
  - rewrite shiftl_mul by lia; wsimp.
    rewrite roundPackToF32_spec, round_scaled_shift, <- A by lia.
    replace (eA + eB - 127 - 1 - 7 + 1) with (eA + eB - 127 - 7) by lia; reflexivity.
  - rewrite roundPackToF32_spec, A by lia; reflexivity.
Qed.

(** A subnormal operand, normalized by the code. *)
Lemma norm_subnormalF32 a :
  fexp F32 a = 0 -> ffrac F32 a <> 0 ->
  let z := softfloat_normSubnormalF32Sig (ffrac F32 a) in
  norm_operand F32 a (es_sig z .| 0x00800000) (es_exp z).
Proof.
  intros E0 N0 z; pose proof (ffrac_range F32 a ltac:(cbn; lia)) as R; cbn [fbits F32] in R.
  destruct (normSubnormalF32Sig_spec (ffrac F32 a) ltac:(lia)) as (Rs & Re & Es).
  fold z in Rs, Re, Es; change 0x00800000 with (2 ^ 23); rewrite hidden_bit by lia.
  rewrite (proj2 (Z.ltb_ge _ _)) by lia.
  apply norm_operand_subnormal; cbn [fbits F32]; try lia; cbn; lia.
Qed.

Lemma norm_normalF32 a :
  fexp F32 a <> 0 -> fexp F32 a <> 0xFF ->
  norm_operand F32 a (ffrac F32 a .| 0x00800000) (fexp F32 a).
Proof.
  intros N0 N1; pose proof (ffrac_range F32 a ltac:(cbn; lia)) as R; cbn [fbits F32] in R.
  change 0x00800000 with (2 ^ 23); rewrite hidden_bit, (proj2 (Z.ltb_lt _ _)) by lia.
  apply norm_operand_normal; try assumption; cbn; lia.
Qed.

Lemma mag_zero F a :
  1 <= fbits F -> 1 <= ebits F -> (mag F a =? 0) = (fexp F a =? 0) && (ffrac F a =? 0).
Proof.
  intros Hf He; destruct (Z.eqb_spec (fexp F a) 0) as [E | E]; bsimpl.
  - unfold mag; rewrite E; reflexivity.
  - apply Z.eqb_neq; pose proof (mag_pos F a Hf He E); lia.
Qed.

(** A leaf that packs constant fields. *)
Ltac pack_leaf lem :=
  unfold ret; cbn [fst snd]; rewrite Z.lor_0_r, lem by lia; f_equal; lia.

Ltac unnz x := change (nz x) with (negb (x =? 0)).

Lemma f32_mul_spec a b :
  0 <= a < 0x100000000 -> 0 <= b < 0x100000000 ->
  meets (f32_mul a b) (fun rm => ieee_mul F32 rm a b).
Proof.
  intros Ha Hb rm fl; unfold f32_mul; cbv zeta; autorewrite with sf_fields.
  operands F32 a b 23 0xFF.
  pose proof (propagateNaNF32UI_spec a b rm fl) as Np.
  pose proof (norm_normalF32 a) as Na; pose proof (norm_normalF32 b) as Nb.
  pose proof (norm_subnormalF32 a) as Sa; pose proof (norm_subnormalF32 b) as Sb.
  unfold ieee_mul; change (inf_mag F32) with (0xFF * 2 ^ 23).
  rewrite !mag_zero, !nz_lor by (cbn; lia); unfold nz.
  destruct (Z.eqb_spec (fexp F32 a) 0xFF) as [Ia | Ia];
    [|destruct (Z.eqb_spec (fexp F32 b) 0xFF) as [Ib | Ib]].
  - rewrite (proj2 (Z.eqb_neq (fexp F32 a) 0)) by lia.
    destruct (Z.eqb_spec (ffrac F32 a) 0), (Z.eqb_spec (ffrac F32 b) 0),
      (Z.eqb_spec (fexp F32 b) 0xFF), (Z.eqb_spec (fexp F32 b) 0); try lia;
      classify F32 a; classify F32 b; cbn [orb andb negb]; rewrite ?orb_true_r;
      (exact Np || reflexivity || pack_leaf packToF32UI_spec).
  - rewrite (proj2 (Z.eqb_neq (fexp F32 b) 0)) by lia.
    destruct (Z.eqb_spec (ffrac F32 a) 0), (Z.eqb_spec (ffrac F32 b) 0),
      (Z.eqb_spec (fexp F32 a) 0); try lia;
      classify F32 a; classify F32 b; cbn [orb andb negb]; rewrite ?orb_true_r;
      (exact Np || reflexivity || pack_leaf packToF32UI_spec).
  - classify F32 a; classify F32 b; cbn [orb].
    destruct (Z.eqb_spec (fexp F32 a) 0), (Z.eqb_spec (ffrac F32 a) 0),
      (Z.eqb_spec (fexp F32 b) 0), (Z.eqb_spec (ffrac F32 b) 0); cbn [negb orb andb];
      try pack_leaf packToF32UI_spec; apply mulF32_finish; auto.
Qed.

(** ** Doubles *)

Lemma mul64To128M_high a b :
  0 <= a < 2 ^ 64 -> 0 <= b < 2 ^ 64 ->
  let z := softfloat_mul64To128M a b in
  let sigZ := u64 (nth 3 z 0 .<< 32) .| nth 2 z 0 in
  (if nz (nth 1 z 0) || nz (nth 0 z 0) then sigZ .| 1 else sigZ) = jdiv (a * b) (2 ^ 64).
Proof.
  intros Ha Hb z sigZ; pose proof (mul64To128M_words a b Ha Hb) as W; fold z in W.
  assert (R : exists w0 w1 w2 w3, z = [u32 w0; u32 w1; u32 w2; u32 w3])
    by (unfold z, softfloat_mul64To128M; eauto).
  destruct R as (w0 & w1 & w2 & w3 & Ez); subst sigZ; rewrite Ez in *; cbn [nth words] in *.
  pose proof (u32_range w0); pose proof (u32_range w1).
  pose proof (u32_range w2); pose proof (u32_range w3).
  rewrite u64_shl32, Z.mod_small, lor_add_disjoint by lia.
  set (hi := u32 w3 * 2 ^ 32 + u32 w2); set (lo := u32 w0 + 2 ^ 32 * u32 w1).
  assert (E : a * b = lo + hi * 2 ^ 64) by (subst hi lo; lia).
  unfold jdiv, jam, inexact; rewrite E, Z.div_add, Z.mod_add, Z.div_small, Z.mod_small by lia.
  replace (nz lo) with (nz (u32 w1) || nz (u32 w0)); [reflexivity|].
  subst lo; unfold nz; apply eq_true_iff_eq.
  rewrite orb_true_iff, !negb_true_iff, !Z.eqb_neq; lia.
Qed.

Lemma mulF64_finish sign a mA eA b mB eB :
  norm_operand F64 a mA eA -> norm_operand F64 b mB eB ->
  meets
    (let sig128Z := softfloat_mul64To128M (u64 (mA .<< 10)) (u64 (mB .<< 11)) in
     let sigZ := u64 (nth 3 sig128Z 0 .<< 32) .| nth 2 sig128Z 0 in
     let sigZ := if nz (nth 1 sig128Z 0) || nz (nth 0 sig128Z 0) then sigZ .| 1 else sigZ in
     let '(expZ, sigZ) :=
       if sigZ <? 0x4000000000000000 then (eA + eB - 0x3FF - 1, u64 (sigZ .<< 1))
       else (eA + eB - 0x3FF, sigZ) in
     softfloat_roundPackToF64 sign expZ sigZ)
    (fun rm => ieee_round F64 rm sign (mag F64 a * mag F64 b) (2 ^ one_exp F64)).
Proof.
  intros NA NB.
  pose proof (fun rm => round_mul F64 rm sign 10 a mA eA b mB eB
    ltac:(cbn; lia) ltac:(cbn; lia) ltac:(lia) NA NB) as A.
  pose proof (sigZ_range F64 10 a mA eA b mB eB
    ltac:(cbn; lia) ltac:(cbn; lia) ltac:(lia) NA NB) as R.
  destruct NA as (Ra & Xa & _), NB as (Rb & Xb & _).
  change (fbits F64) with 52 in *; change (emax F64) with 0x7FF in *.
  change (2 ^ (ebits F64 - 1) - 1) with 0x3FF in A.
  rewrite (shiftl_mul mA), (shiftl_mul mB) by lia; wsimp.
  cbv zeta; rewrite mul64To128M_high by lia.
  replace (mA * 2 ^ 10 * (mB * 2 ^ 11)) with (mA * mB * 2 ^ (2 * 10 + 1)) by lia.
  change (2 ^ 64) with (2 ^ (52 + 10 + 2)).
  set (z := jdiv _ _) in *; clearbody z; intros rm fl.
  destruct (Z.ltb_spec z 0x4000000000000000).
  - rewrite shiftl_mul by lia; wsimp.
    rewrite roundPackToF64_spec, round_scaled_shift, <- A by lia.
    replace (eA + eB - 0x3FF - 1 - 10 + 1) with (eA + eB - 0x3FF - 10) by lia; reflexivity.
  - rewrite roundPackToF64_spec, A by lia; reflexivity.
Qed.

Lemma norm_subnormalF64 a :
  fexp F64 a = 0 -> ffrac F64 a <> 0 ->
  let z := softfloat_normSubnormalF64Sig (ffrac F64 a) in
  norm_operand F64 a (es_sig z .| 0x0010000000000000) (es_exp z).
Proof.
  intros E0 N0 z; pose proof (ffrac_range F64 a ltac:(cbn; lia)) as R; cbn [fbits F64] in R.
  destruct (normSubnormalF64Sig_spec (ffrac F64 a) ltac:(lia)) as (Rs & Re & Es).
  fold z in Rs, Re, Es; change 0x0010000000000000 with (2 ^ 52); rewrite hidden_bit by lia.
  rewrite (proj2 (Z.ltb_ge _ _)) by lia.
  apply norm_operand_subnormal; cbn [fbits F64]; try lia; cbn; lia.
Qed.

Lemma norm_normalF64 a :
  fexp F64 a <> 0 -> fexp F64 a <> 0x7FF ->
  norm_operand F64 a (ffrac F64 a .| 0x0010000000000000) (fexp F64 a).
Proof.
  intros N0 N1; pose proof (ffrac_range F64 a ltac:(cbn; lia)) as R; cbn [fbits F64] in R.
  change 0x0010000000000000 with (2 ^ 52); rewrite hidden_bit, (proj2 (Z.ltb_lt _ _)) by lia.
  apply norm_operand_normal; try assumption; cbn; lia.
Qed.

Lemma f64_mul_spec a b :
  0 <= a < 0x10000000000000000 -> 0 <= b < 0x10000000000000000 ->
  meets (f64_mul a b) (fun rm => ieee_mul F64 rm a b).
Proof.
  intros Ha Hb rm fl; unfold f64_mul; cbv zeta; autorewrite with sf_fields.
  operands F64 a b 52 0x7FF.
  pose proof (propagateNaNF64UI_spec a b rm fl) as Np.
  pose proof (norm_normalF64 a) as Na; pose proof (norm_normalF64 b) as Nb.
  pose proof (norm_subnormalF64 a) as Sa; pose proof (norm_subnormalF64 b) as Sb.
  unfold ieee_mul; change (inf_mag F64) with (0x7FF * 2 ^ 52).
  rewrite !mag_zero, !nz_lor by (cbn; lia).
  unnz (fexp F64 a); unnz (ffrac F64 a); unnz (fexp F64 b); unnz (ffrac F64 b).
  destruct (Z.eqb_spec (fexp F64 a) 0x7FF) as [Ia | Ia];
    [|destruct (Z.eqb_spec (fexp F64 b) 0x7FF) as [Ib | Ib]].
  - rewrite (proj2 (Z.eqb_neq (fexp F64 a) 0)) by lia.
    destruct (Z.eqb_spec (ffrac F64 a) 0), (Z.eqb_spec (ffrac F64 b) 0),
      (Z.eqb_spec (fexp F64 b) 0x7FF), (Z.eqb_spec (fexp F64 b) 0); try lia;
      classify F64 a; classify F64 b; cbn [orb andb negb]; rewrite ?orb_true_r;
      (exact Np || reflexivity || pack_leaf packToF64UI_spec).
  - rewrite (proj2 (Z.eqb_neq (fexp F64 b) 0)) by lia.
    destruct (Z.eqb_spec (ffrac F64 a) 0), (Z.eqb_spec (ffrac F64 b) 0),
      (Z.eqb_spec (fexp F64 a) 0); try lia;
      classify F64 a; classify F64 b; cbn [orb andb negb]; rewrite ?orb_true_r;
      (exact Np || reflexivity || pack_leaf packToF64UI_spec).
  - classify F64 a; classify F64 b; cbn [orb].
    destruct (Z.eqb_spec (fexp F64 a) 0), (Z.eqb_spec (ffrac F64 a) 0),
      (Z.eqb_spec (fexp F64 b) 0), (Z.eqb_spec (ffrac F64 b) 0); cbn [negb orb andb];
      try pack_leaf packToF64UI_spec; apply mulF64_finish; auto.
Qed.

(** C10: [f32_mul] and [f64_mul] return the IEEE 754 product: for all operands, rounding modes
    and initial flags, the encoding and the exception flags of the correctly rounded exact
    product.  For singles [a] and [b], and for doubles [c] and [d]. *)
Theorem mul_correct a b c d :
  0 <= a < 0x100000000 -> 0 <= b < 0x100000000 ->
  0 <= c < 0x10000000000000000 -> 0 <= d < 0x10000000000000000 ->
  meets (f32_mul a b) (fun rm => ieee_mul F32 rm a b) /\
  meets (f64_mul c d) (fun rm => ieee_mul F64 rm c d).
Proof. split; [apply f32_mul_spec | apply f64_mul_spec]; assumption. Qed.

Lemma mul_correct_witness :
  f32_mul 0x00800001 0x3F7FFFFE softfloat_round_near_even 0 = (0x00800000, 1) /\
  f64_mul 0x3FF0000000000001 0x3FF8000000000000 softfloat_round_max 0 = (0x3FF8000000000002, 1).
Proof.
  destruct (mul_correct 0x00800001 0x3F7FFFFE 0x3FF0000000000001 0x3FF8000000000000
              ltac:(lia) ltac:(lia) ltac:(lia) ltac:(lia)) as [S D].
  rewrite S, D; vm_compute; split; reflexivity.
Defined.
