(* ===== verification/SfCompare.v ===== *)
(** * SoftFloat: comparisons and classification

    [f32_eq.c], [f32_lt.c], [f32_lt_quiet.c], [f32_le.c], [f32_le_quiet.c],
    [f32_eq_signaling.c], [f32_classify.c], [f32_isSignalingNaN.c] and their double
    counterparts: comparing encodings is comparing the numbers they stand for. *)

From S2P Require Import Prelude FpSpec FpTheory SfEnv SfPrim SfRound SfAdd SfMul.
From Stdlib Require Import ZArith Lia Bool.

(** ** Definitions *)

Definition f32_eq (a b : Z) : fp bool :=
  if isNaNF32UI a || isNaNF32UI b then
    raise_if (softfloat_isSigNaNF32UI a || softfloat_isSigNaNF32UI b)
      softfloat_flag_invalid ;;;
    ret false
  else ret ((a =? b) || negb (nz (u32 ((a .| b) .<< 1)))).

Definition f32_eq_signaling (a b : Z) : fp bool :=
  if isNaNF32UI a || isNaNF32UI b then
    softfloat_raiseFlags softfloat_flag_invalid ;;; ret false
  else ret ((a =? b) || negb (nz (u32 ((a .| b) .<< 1)))).

Definition f32_lt (a b : Z) : fp bool :=
  if isNaNF32UI a || isNaNF32UI b then
    softfloat_raiseFlags softfloat_flag_invalid ;;; ret false
  else
    let signA := signF32UI a in
    let signB := signF32UI b in
    ret (if negb (Bool.eqb signA signB) then signA && nz (u32 ((a .| b) .<< 1))
         else negb (a =? b) && xorb signA (a <? b)).

Definition f32_lt_quiet (a b : Z) : fp bool :=
  if isNaNF32UI a || isNaNF32UI b then
    raise_if (softfloat_isSigNaNF32UI a || softfloat_isSigNaNF32UI b)
      softfloat_flag_invalid ;;;
    ret false
  else
    let signA := signF32UI a in
    let signB := signF32UI b in
    ret (if negb (Bool.eqb signA signB) then signA && nz (u32 ((a .| b) .<< 1))
         else negb (a =? b) && xorb signA (a <? b)).

Definition f32_le (a b : Z) : fp bool :=
  if isNaNF32UI a || isNaNF32UI b then
    softfloat_raiseFlags softfloat_flag_invalid ;;; ret false
  else
    let signA := signF32UI a in
    let signB := signF32UI b in
    ret (if negb (Bool.eqb signA signB) then signA || negb (nz (u32 ((a .| b) .<< 1)))
         else (a =? b) || xorb signA (a <? b)).

Definition f32_le_quiet (a b : Z) : fp bool :=
  if isNaNF32UI a || isNaNF32UI b then
    raise_if (softfloat_isSigNaNF32UI a || softfloat_isSigNaNF32UI b)
      softfloat_flag_invalid ;;;
    ret false
  else
    let signA := signF32UI a in
    let signB := signF32UI b in
    ret (if negb (Bool.eqb signA signB) then signA || negb (nz (u32 ((a .| b) .<< 1)))
         else (a =? b) || xorb signA (a <? b)).

Definition f32_classify (a : Z) : Z :=
  let infOrNaN := expF32UI a =? 0xFF in
  let subnormalOrZero := expF32UI a =? 0 in
  let sign := signF32UI a in
  (b2z (sign && infOrNaN && (fracF32UI a =? 0)) .<< 0)
  .| (b2z (sign && negb infOrNaN && negb subnormalOrZero) .<< 1)
  .| (b2z (sign && subnormalOrZero && nz (fracF32UI a)) .<< 2)
  .| (b2z (sign && subnormalOrZero && (fracF32UI a =? 0)) .<< 3)
  .| (b2z (negb sign && infOrNaN && (fracF32UI a =? 0)) .<< 7)
  .| (b2z (negb sign && negb infOrNaN && negb subnormalOrZero) .<< 6)
  .| (b2z (negb sign && subnormalOrZero && nz (fracF32UI a)) .<< 5)
  .| (b2z (negb sign && subnormalOrZero && (fracF32UI a =? 0)) .<< 4)
  .| (b2z (isNaNF32UI a && softfloat_isSigNaNF32UI a) .<< 8)
  .| (b2z (isNaNF32UI a && negb (softfloat_isSigNaNF32UI a)) .<< 9).

Definition f64_eq (a b : Z) : fp bool :=
  if isNaNF64UI a || isNaNF64UI b then
    raise_if (softfloat_isSigNaNF64UI a || softfloat_isSigNaNF64UI b)
      softfloat_flag_invalid ;;;
    ret false
  else ret ((a =? b) || negb (nz ((a .| b) .& 0x7FFFFFFFFFFFFFFF))).

Definition f64_eq_signaling (a b : Z) : fp bool :=
  if isNaNF64UI a || isNaNF64UI b then
    softfloat_raiseFlags softfloat_flag_invalid ;;; ret false
  else ret ((a =? b) || negb (nz ((a .| b) .& 0x7FFFFFFFFFFFFFFF))).

Definition f64_lt (a b : Z) : fp bool :=
  if isNaNF64UI a || isNaNF64UI b then
    softfloat_raiseFlags softfloat_flag_invalid ;;; ret false
  else
    let signA := signF64UI a in
    let signB := signF64UI b in
    ret (if negb (Bool.eqb signA signB) then signA && nz ((a .| b) .& 0x7FFFFFFFFFFFFFFF)
         else negb (a =? b) && xorb signA (a <? b)).

Definition f64_lt_quiet (a b : Z) : fp bool :=
  if isNaNF64UI a || isNaNF64UI b then
    raise_if (softfloat_isSigNaNF64UI a || softfloat_isSigNaNF64UI b)
      softfloat_flag_invalid ;;;
    ret false
  else
    let signA := signF64UI a in
    let signB := signF64UI b in
    ret (if negb (Bool.eqb signA signB) then signA && nz ((a .| b) .& 0x7FFFFFFFFFFFFFFF)
         else negb (a =? b) && xorb signA (a <? b)).

Definition f64_le (a b : Z) : fp bool :=
  if isNaNF64UI a || isNaNF64UI b then
    softfloat_raiseFlags softfloat_flag_invalid ;;; ret false
  else
    let signA := signF64UI a in
    let signB := signF64UI b in
    ret (if negb (Bool.eqb signA signB) then signA || negb (nz ((a .| b) .& 0x7FFFFFFFFFFFFFFF))
         else (a =? b) || xorb signA (a <? b)).

Definition f64_le_quiet (a b : Z) : fp bool :=
  if isNaNF64UI a || isNaNF64UI b then
    raise_if (softfloat_isSigNaNF64UI a || softfloat_isSigNaNF64UI b)
      softfloat_flag_invalid ;;;
    ret false
  else
    let signA := signF64UI a in
    let signB := signF64UI b in
    ret (if negb (Bool.eqb signA signB) then signA || negb (nz ((a .| b) .& 0x7FFFFFFFFFFFFFFF))
         else (a =? b) || xorb signA (a <? b)).

Definition f64_classify (a : Z) : Z :=
  let infOrNaN := expF64UI a =? 0x7FF in
  let subnormalOrZero := expF64UI a =? 0 in
  let sign := signF64UI a in
  (b2z (sign && infOrNaN && (fracF64UI a =? 0)) .<< 0)
  .| (b2z (sign && negb infOrNaN && negb subnormalOrZero) .<< 1)
  .| (b2z (sign && subnormalOrZero && nz (fracF64UI a)) .<< 2)
  .| (b2z (sign && subnormalOrZero && (fracF64UI a =? 0)) .<< 3)
  .| (b2z (negb sign && infOrNaN && (fracF64UI a =? 0)) .<< 7)
  .| (b2z (negb sign && negb infOrNaN && negb subnormalOrZero) .<< 6)
  .| (b2z (negb sign && subnormalOrZero && nz (fracF64UI a)) .<< 5)
  .| (b2z (negb sign && subnormalOrZero && (fracF64UI a =? 0)) .<< 4)
  .| (b2z (isNaNF64UI a && softfloat_isSigNaNF64UI a) .<< 8)
  .| (b2z (isNaNF64UI a && negb (softfloat_isSigNaNF64UI a)) .<< 9).

(** ** The order of encodings *)

(** The encoding without its sign: numbers are ordered as these are. *)
Definition emag (F : fmt) (a : Z) : Z := fexp F a * 2 ^ fbits F + ffrac F a.

Section Order.
Context (F : fmt) (Hf : 1 <= fbits F) (He : 1 <= ebits F).

Lemma mag_mono a b : emag F a < emag F b -> mag F a < mag F b.
Proof using Hf He.
  intros H; pose proof (ffrac_range F a Hf); pose proof (ffrac_range F b Hf).
  unfold emag in H; destruct (Z.lt_ge_cases (fexp F a) (fexp F b)).
  - apply mag_lt; assumption.
  - assert (E : fexp F a = fexp F b) by nia.
    pose proof (fexp_range F b He); unfold mag; rewrite E in *.
    destruct (Z.eqb_spec (fexp F b) 0); [lia|].
    pose proof (pow2_pos (fexp F b - 1) ltac:(lia)); nia.
Qed.

Lemma mag_emag a b : emag F a = emag F b -> mag F a = mag F b.
Proof using Hf He.
  intros H; pose proof (ffrac_range F a Hf); pose proof (ffrac_range F b Hf).
  unfold emag in H; assert (E : fexp F a = fexp F b) by nia.
  assert (E' : ffrac F a = ffrac F b) by nia; unfold mag; rewrite E, E'; reflexivity.
Qed.

Lemma mag_compare a b : (mag F a ?= mag F b) = (emag F a ?= emag F b).
Proof using Hf He.
  destruct (Z.compare_spec (emag F a) (emag F b)) as [E | L | G].
  - apply Z.compare_eq_iff, mag_emag, E.
  - apply Z.compare_lt_iff, mag_mono, L.
  - apply Z.compare_gt_iff, mag_mono, G.
Qed.

Lemma emag_zero a : (mag F a =? 0) = (emag F a =? 0).
Proof using Hf He.
  rewrite mag_zero by assumption; pose proof (ffrac_range F a Hf).
  pose proof (fexp_range F a He); pose proof (pow2_pos (fbits F) ltac:(lia)).
  apply eq_true_iff_eq; unfold emag; rewrite andb_true_iff, !Z.eqb_eq; nia.
Qed.

Context (a b : Z).
Context (Ha : 0 <= a < 2 ^ (1 + ebits F + fbits F)) (Hb : 0 <= b < 2 ^ (1 + ebits F + fbits F)).

Lemma emag_mod : emag F a = a mod 2 ^ (fbits F + ebits F).
Proof using Hf He.
  unfold emag, fexp, ffrac; rewrite <- div_mod_digits by lia; do 2 f_equal; lia.
Qed.

Lemma emag_range : 0 <= emag F a < 2 ^ (fbits F + ebits F).
Proof using Hf He. rewrite emag_mod; apply Z.mod_pos_bound, pow2_pos; lia. Qed.
End Order.

Section Compare.
Context (F : fmt) (Hf : 1 <= fbits F) (He : 1 <= ebits F) (a b : Z).
Context (Ha : 0 <= a < 2 ^ (1 + ebits F + fbits F)) (Hb : 0 <= b < 2 ^ (1 + ebits F + fbits F)).
Let zeros := (emag F a =? 0) && (emag F b =? 0).

(** The sign and the two magnitudes decide every comparison. *)
Lemma compare_values :
  let sa := fsign F a in let sb := fsign F b in
  (fval F a <? fval F b)
  = (if negb (Bool.eqb sa sb) then sa && negb zeros
     else negb (a =? b) && xorb sa (a <? b)) /\
  (fval F a <=? fval F b)
  = (if negb (Bool.eqb sa sb) then sa || zeros else (a =? b) || xorb sa (a <? b)) /\
  (fval F a =? fval F b) = (a =? b) || zeros.
Proof using All.
  cbv zeta; subst zeros.
  pose proof (fields_split F a Hf He Ha) as Ea; pose proof (fields_split F b Hf He Hb) as Eb.
  rewrite <- Z.add_assoc in Ea, Eb; fold (emag F a) in Ea; fold (emag F b) in Eb.
  pose proof (emag_range F Hf He a); pose proof (emag_range F Hf He b).
  pose proof (mag_compare F Hf He a b) as C.
  pose proof (emag_zero F Hf He a) as Za; pose proof (emag_zero F Hf He b) as Zb.
  pose proof (mag_nonneg F a Hf He); pose proof (mag_nonneg F b Hf He).
  rewrite <- Za, <- Zb; unfold fval; unfold signbit in *.
  set (S := 2 ^ (fbits F + ebits F)) in *.
  destruct (Z.eqb_spec (emag F a) 0), (Z.eqb_spec (emag F b) 0); rewrite ?Za, ?Zb; breflect;
    destruct (Z.compare_spec (emag F a) (emag F b));
    rewrite ?Z.compare_eq_iff, ?Z.compare_lt_iff, ?Z.compare_gt_iff in C;
    destruct (fsign F a), (fsign F b); cbn [Z.b2z Bool.eqb negb andb orb xorb] in *;
    repeat split; apply eq_true_iff_eq;
    rewrite ?andb_true_iff, ?orb_true_iff, ?negb_true_iff, ?Z.ltb_lt, ?Z.leb_le, ?Z.eqb_eq,
      ?Z.eqb_neq, ?Z.ltb_ge; try lia; zcase; intuition (lia || discriminate).
Qed.
End Compare.

(** The tests for two zeros. *)
Lemma lor_mod a b n : 0 <= n -> (a .| b) mod 2 ^ n = a mod 2 ^ n .| b mod 2 ^ n.
Proof. intros; rewrite <- !Z.land_ones by lia; apply Z.land_lor_distr_l. Qed.

Lemma zerosF32 a b :
  nz (u32 ((a .| b) .<< 1)) = negb ((emag F32 a =? 0) && (emag F32 b =? 0)).
Proof.
  rewrite !emag_mod by (cbn; lia); cbn [fbits ebits F32]; change (23 + 8) with 31.
  rewrite shiftl_mul by lia; unfold u32, wrap, nz; f_equal.
  change (2 ^ 32) with (2 ^ 31 * 2 ^ 1); rewrite Z.mul_mod_distr_r, lor_mod by lia.
  apply eq_true_iff_eq; rewrite andb_true_iff, !Z.eqb_eq, <- Z.lor_eq_0_iff; lia.
Qed.

Lemma zerosF64 a b :
  nz ((a .| b) .& 0x7FFFFFFFFFFFFFFF) = negb ((emag F64 a =? 0) && (emag F64 b =? 0)).
Proof.
  rewrite !emag_mod by (cbn; lia); cbn [fbits ebits F64]; change (52 + 11) with 63.
  change 0x7FFFFFFFFFFFFFFF with (2 ^ 63 - 1); rewrite land_ones_mod, lor_mod by lia.
  unfold nz; f_equal; apply eq_true_iff_eq.
  rewrite andb_true_iff, !Z.eqb_eq, <- Z.lor_eq_0_iff; lia.
Qed.

(** The common shape of the six comparisons. *)
Ltac compare_routine F fn zeros Ha Hb :=
  intros rm fl; unfold fn, ieee_compare; autorewrite with sf_fields;
  pose proof (compare_values F ltac:(cbn; lia) ltac:(cbn; lia) _ _ Ha Hb) as (L & E & Q);
  rewrite ?L, ?E, ?Q, ?zeros, ?negb_involutive;
  destruct (is_nan F _ || is_nan F _); unfold bind, ret, softfloat_raiseFlags;
  rewrite ?raise_if_eq; cbn [orb fst snd]; rewrite ?Z.lor_0_r; reflexivity.

Section F32Compare.
Context (a b : Z) (Ha : 0 <= a < 2 ^ 32) (Hb : 0 <= b < 2 ^ 32).

Lemma f32_eq_spec :
  meets (f32_eq a b) (fun _ => ieee_compare F32 Z.eqb false a b).
Proof using Ha Hb. compare_routine F32 f32_eq zerosF32 Ha Hb. Qed.

Lemma f32_eq_signaling_spec :
  meets (f32_eq_signaling a b) (fun _ => ieee_compare F32 Z.eqb true a b).
Proof using Ha Hb. compare_routine F32 f32_eq_signaling zerosF32 Ha Hb. Qed.

Lemma f32_lt_spec :
  meets (f32_lt a b) (fun _ => ieee_compare F32 Z.ltb true a b).
Proof using Ha Hb. compare_routine F32 f32_lt zerosF32 Ha Hb. Qed.

Lemma f32_lt_quiet_spec :
  meets (f32_lt_quiet a b) (fun _ => ieee_compare F32 Z.ltb false a b).
Proof using Ha Hb. compare_routine F32 f32_lt_quiet zerosF32 Ha Hb. Qed.

Lemma f32_le_spec :
  meets (f32_le a b) (fun _ => ieee_compare F32 Z.leb true a b).
Proof using Ha Hb. compare_routine F32 f32_le zerosF32 Ha Hb. Qed.

Lemma f32_le_quiet_spec :
  meets (f32_le_quiet a b) (fun _ => ieee_compare F32 Z.leb false a b).
Proof using Ha Hb. compare_routine F32 f32_le_quiet zerosF32 Ha Hb. Qed.

End F32Compare.

Section F64Compare.
Context (a b : Z) (Ha : 0 <= a < 2 ^ 64) (Hb : 0 <= b < 2 ^ 64).

Lemma f64_eq_spec :
  meets (f64_eq a b) (fun _ => ieee_compare F64 Z.eqb false a b).
Proof using Ha Hb. compare_routine F64 f64_eq zerosF64 Ha Hb. Qed.

Lemma f64_eq_signaling_spec :
  meets (f64_eq_signaling a b) (fun _ => ieee_compare F64 Z.eqb true a b).
Proof using Ha Hb. compare_routine F64 f64_eq_signaling zerosF64 Ha Hb. Qed.

Lemma f64_lt_spec :
  meets (f64_lt a b) (fun _ => ieee_compare F64 Z.ltb true a b).
Proof using Ha Hb. compare_routine F64 f64_lt zerosF64 Ha Hb. Qed.

Lemma f64_lt_quiet_spec :
  meets (f64_lt_quiet a b) (fun _ => ieee_compare F64 Z.ltb false a b).
Proof using Ha Hb. compare_routine F64 f64_lt_quiet zerosF64 Ha Hb. Qed.

Lemma f64_le_spec :
  meets (f64_le a b) (fun _ => ieee_compare F64 Z.leb true a b).
Proof using Ha Hb. compare_routine F64 f64_le zerosF64 Ha Hb. Qed.

Lemma f64_le_quiet_spec :
  meets (f64_le_quiet a b) (fun _ => ieee_compare F64 Z.leb false a b).
Proof using Ha Hb. compare_routine F64 f64_le_quiet zerosF64 Ha Hb. Qed.

End F64Compare.

(** C28: The comparisons decide IEEE 754's relations on the numbers the operands stand for:
    zeros of both signs are equal, infinities lie outside the finite numbers, NaNs are
    unordered; the [eq] and [quiet] routines raise invalid exactly on signaling NaNs, the
    others on every NaN.  For singles [a] and [b], and for doubles [c] and [d]. *)
Theorem compare_correct a b c d :
  0 <= a < 2 ^ 32 -> 0 <= b < 2 ^ 32 -> 0 <= c < 2 ^ 64 -> 0 <= d < 2 ^ 64 ->
  (meets (f32_eq a b) (fun _ => ieee_compare F32 Z.eqb false a b) /\
   meets (f32_eq_signaling a b) (fun _ => ieee_compare F32 Z.eqb true a b) /\
   meets (f32_lt a b) (fun _ => ieee_compare F32 Z.ltb true a b) /\
   meets (f32_lt_quiet a b) (fun _ => ieee_compare F32 Z.ltb false a b) /\
   meets (f32_le a b) (fun _ => ieee_compare F32 Z.leb true a b) /\
   meets (f32_le_quiet a b) (fun _ => ieee_compare F32 Z.leb false a b)) /\
  (meets (f64_eq c d) (fun _ => ieee_compare F64 Z.eqb false c d) /\
   meets (f64_eq_signaling c d) (fun _ => ieee_compare F64 Z.eqb true c d) /\
   meets (f64_lt c d) (fun _ => ieee_compare F64 Z.ltb true c d) /\
   meets (f64_lt_quiet c d) (fun _ => ieee_compare F64 Z.ltb false c d) /\
   meets (f64_le c d) (fun _ => ieee_compare F64 Z.leb true c d) /\
   meets (f64_le_quiet c d) (fun _ => ieee_compare F64 Z.leb false c d)).
Proof.
  intros Ha Hb Hc Hd; repeat split;
    auto using f32_eq_spec, f32_eq_signaling_spec, f32_lt_spec, f32_lt_quiet_spec,
      f32_le_spec, f32_le_quiet_spec, f64_eq_spec, f64_eq_signaling_spec, f64_lt_spec,
      f64_lt_quiet_spec, f64_le_spec, f64_le_quiet_spec.
Qed.

(** Minus zero against zero, and a quiet NaN against 1. *)
Lemma compare_correct_witness :
  f32_eq 0x80000000 0 0 0 = (true, 0) /\ f32_lt 0x80000000 0 0 0 = (false, 0) /\
  f64_le 0x7FF8000000000000 0x3FF0000000000000 0 0 = (false, 16) /\
  f64_le_quiet 0x7FF8000000000000 0x3FF0000000000000 0 0 = (false, 0).
Proof.
  destruct (compare_correct 0x80000000 0 0x7FF8000000000000 0x3FF0000000000000
              ltac:(lia) ltac:(lia) ltac:(lia) ltac:(lia))
    as ((E & _ & L & _) & _ & _ & _ & _ & G & Q).
  rewrite E, L, G, Q; vm_compute; repeat split; reflexivity.
Defined.

(** ** Classification *)

Lemma class_cases F a :
  1 <= fbits F -> 1 <= ebits F -> mag F a < 2 ^ fbits F <-> fexp F a = 0.
Proof.
  intros Hf He; pose proof (ffrac_range F a Hf); pose proof (fexp_range F a He).
  unfold mag; destruct (Z.eqb_spec (fexp F a) 0); [lia|].
  pose proof (pow2_pos (fexp F a - 1) ltac:(lia)); split; [nia | lia].
Qed.

Lemma f32_classify_spec a : 0 <= a < 0x100000000 -> f32_classify a = ieee_class F32 a.
Proof.
  intros Ha; unfold f32_classify, ieee_class; autorewrite with sf_fields.
  pose proof (class_cases F32 a ltac:(cbn; lia) ltac:(cbn; lia)) as C.
  rewrite mag_zero by (cbn; lia); unfold is_snan, is_nan, is_inf, nz.
  change (emax F32) with 0xFF.
  destruct (Z.eqb_spec (fexp F32 a) 0xFF), (Z.eqb_spec (fexp F32 a) 0); try lia;
    destruct (ffrac F32 a =? 0), (fsign F32 a), (_ <? 2 ^ (_ - 1)),
      (Z.ltb_spec (mag F32 a) (2 ^ fbits F32)); try reflexivity; exfalso; tauto || lia.
Qed.

Lemma f64_classify_spec a : 0 <= a < 0x10000000000000000 -> f64_classify a = ieee_class F64 a.
Proof.
  intros Ha; unfold f64_classify, ieee_class; autorewrite with sf_fields.
  pose proof (class_cases F64 a ltac:(cbn; lia) ltac:(cbn; lia)) as C.
  rewrite mag_zero by (cbn; lia); unfold is_snan, is_nan, is_inf, nz.
  change (emax F64) with 0x7FF.
  destruct (Z.eqb_spec (fexp F64 a) 0x7FF), (Z.eqb_spec (fexp F64 a) 0); try lia;
    destruct (ffrac F64 a =? 0), (fsign F64 a), (_ <? 2 ^ (_ - 1)),
      (Z.ltb_spec (mag F64 a) (2 ^ fbits F64)); try reflexivity; exfalso; tauto || lia.
Qed.
