(* ===== verification/SfConvert.v ===== *)
(** * SoftFloat: conversions between formats and from integers

    [f32_to_f64.c], [f64_to_f32.c], [ui32_to_f32.c], [ui32_to_f64.c], [ui64_to_f32.c],
    [ui64_to_f64.c], [i32_to_f32.c], [i32_to_f64.c], [i64_to_f32.c], [i64_to_f64.c].
    Arguments of signed types are integers in the type's range. *)

From S2P Require Import Prelude FpSpec FpTheory SfEnv SfPrim SfRound SfAdd SfMul.
From Stdlib Require Import ZArith Lia Bool.

(** ** Definitions *)

Definition f32_to_f64 (a : Z) : fp Z :=
  let uiA := a in
  let sign := signF32UI uiA in
  let exp := expF32UI uiA in
  let frac := fracF32UI uiA in
  let pack (exp frac : Z) : fp Z := ret (packToF64UI sign (exp + 0x380) (u64 (frac .<< 29))) in
  if exp =? 0xFF then
    if nz frac then softfloat_f32UIToCommonNaN uiA ;;; ret softfloat_commonNaNToF64UI
    else ret (packToF64UI sign 0x7FF 0)
  else if negb (nz exp) then
    if negb (nz frac) then ret (packToF64UI sign 0 0)
    else
      let normExpSig := softfloat_normSubnormalF32Sig frac in
      pack (es_exp normExpSig - 1) (es_sig normExpSig)
  else pack exp frac.

Definition f64_to_f32 (a : Z) : fp Z :=
  let uiA := a in
  let sign := signF64UI uiA in
  let exp := expF64UI uiA in
  let frac := fracF64UI uiA in
  if exp =? 0x7FF then
    if nz frac then softfloat_f64UIToCommonNaN uiA ;;; ret softfloat_commonNaNToF32UI
    else ret (packToF32UI sign 0xFF 0)
  else
    let frac32 := u32 (softfloat_shortShiftRightJam64 frac 22) in
    if negb (nz (exp .| frac32)) then ret (packToF32UI sign 0 0)
    else softfloat_roundPackToF32 sign (exp - 0x381) (frac32 .| 0x40000000).

Definition ui32_to_f32 (a : Z) : fp Z :=
  if negb (nz a) then ret 0
  else if nz (a .& 0x80000000)
  then softfloat_roundPackToF32 false 0x9D ((a .>> 1) .| (a .& 1))
  else softfloat_normRoundPackToF32 false 0x9C a.

Definition ui32_to_f64 (a : Z) : fp Z :=
  if negb (nz a) then ret 0
  else
    let shiftDist := softfloat_countLeadingZeros32 a + 21 in
    ret (packToF64UI false (0x432 - shiftDist) (u64 (a .<< shiftDist))).

Definition ui64_to_f32 (a : Z) : fp Z :=
  let shiftDist := softfloat_countLeadingZeros64 a - 40 in
  if 0 <=? shiftDist then
    ret (if nz a then packToF32UI false (0x95 - shiftDist) (u32 (u32 a .<< shiftDist)) else 0)
  else
    let shiftDist := shiftDist + 7 in
    let sig :=
      if shiftDist <? 0 then u32 (softfloat_shortShiftRightJam64 a (- shiftDist))
      else u32 (u32 a .<< shiftDist) in
    softfloat_roundPackToF32 false (0x9C - shiftDist) sig.

Definition ui64_to_f64 (a : Z) : fp Z :=
  if negb (nz a) then ret 0
  else if nz (a .& 0x8000000000000000)
  then softfloat_roundPackToF64 false 0x43D (softfloat_shortShiftRightJam64 a 1)
  else softfloat_normRoundPackToF64 false 0x43C a.

Definition i32_to_f32 (a : Z) : fp Z :=
  let sign := a <? 0 in
  if negb (nz (a .& 0x7FFFFFFF)) then ret (if sign then packToF32UI true 0x9E 0 else 0)
  else
    let absA := if sign then u32 (- u32 a) else u32 a in
    softfloat_normRoundPackToF32 sign 0x9C absA.

Definition i32_to_f64 (a : Z) : fp Z :=
  if negb (nz a) then ret 0
  else
    let sign := a <? 0 in
    let absA := if sign then u32 (- u32 a) else u32 a in
    let shiftDist := softfloat_countLeadingZeros32 absA + 21 in
    ret (packToF64UI sign (0x432 - shiftDist) (u64 (absA .<< shiftDist))).

Definition i64_to_f32 (a : Z) : fp Z :=
  let sign := a <? 0 in
  let absA := if sign then u64 (- u64 a) else u64 a in
  let shiftDist := softfloat_countLeadingZeros64 absA - 40 in
  if 0 <=? shiftDist then
    ret (if nz a then packToF32UI sign (0x95 - shiftDist) (u32 (u32 absA .<< shiftDist)) else 0)
  else
    let shiftDist := shiftDist + 7 in
    let sig :=
      if shiftDist <? 0 then u32 (softfloat_shortShiftRightJam64 absA (- shiftDist))
      else u32 (u32 absA .<< shiftDist) in
    softfloat_roundPackToF32 sign (0x9C - shiftDist) sig.

Definition i64_to_f64 (a : Z) : fp Z :=
  let sign := a <? 0 in
  if negb (nz (u64 a .& 0x7FFFFFFFFFFFFFFF))
  then ret (if sign then packToF64UI true 0x43E 0 else 0)
  else
    let absA := if sign then u64 (- u64 a) else u64 a in
    softfloat_normRoundPackToF64 sign 0x43C absA.

(** ** Between formats *)

Lemma snan_quiet_bit F a :
  1 <= fbits F -> is_nan F a = true ->
  negb (nz (a .& 2 ^ (fbits F - 1))) = is_snan F a.
Proof.
  intros Hf N; unfold is_snan; rewrite N; cbn [andb].
  pose proof (land_field a (fbits F - 1) 1 ltac:(lia) ltac:(lia)) as L.
  change (2 ^ 1 - 1) with 1 in L; rewrite Z.mul_1_l in L; rewrite L; change (2 ^ 1) with 2.
  pose proof (div_mod_digits a 1 (fbits F - 1) ltac:(lia) ltac:(lia)) as D.
  replace (1 + (fbits F - 1)) with (fbits F) in D by lia; change (2 ^ 1) with 2 in D.
  unfold nz, ffrac; rewrite negb_involutive, D.
  pose proof (pow2_pos (fbits F - 1) ltac:(lia)).
  pose proof (Z.mod_pos_bound a (2 ^ (fbits F - 1)) ltac:(lia)).
  pose proof (Z.mod_pos_bound (a / 2 ^ (fbits F - 1)) 2 ltac:(lia)).
  set (t := a / _ mod 2) in *; assert (T : t = 0 \/ t = 1) by lia.
  apply eq_true_iff_eq; rewrite Z.eqb_eq, Z.ltb_lt; destruct T as [-> | ->]; lia.
Qed.

Lemma f32UIToCommonNaN_spec a rm fl :
  is_nan F32 a = true ->
  softfloat_f32UIToCommonNaN a rm fl
  = (tt, fl .| (if is_snan F32 a then softfloat_flag_invalid else 0)).
Proof.
  intros N; unfold softfloat_f32UIToCommonNaN; rewrite raise_if_eq.
  rewrite <- (snan_quiet_bit F32) by (assumption || (cbn; lia)); reflexivity.
Qed.

Lemma f64UIToCommonNaN_spec a rm fl :
  is_nan F64 a = true ->
  softfloat_f64UIToCommonNaN a rm fl
  = (tt, fl .| (if is_snan F64 a then softfloat_flag_invalid else 0)).
Proof.
  intros N; unfold softfloat_f64UIToCommonNaN; rewrite raise_if_eq.
  rewrite <- (snan_quiet_bit F64) by (assumption || (cbn; lia)); reflexivity.
Qed.

(** Widening is exact. *)
Lemma ieee_widen rm s a m e :
  norm_operand F32 a m e ->
  ieee_round F64 rm s (mag F32 a * 2 ^ one_exp F64) (2 ^ one_exp F32)
  = (signbit F64 s + ((e - 1 + 0x380) * 2 ^ 52 + m * 2 ^ 29), 0).
Proof.
  intros (Rm & Re & E); change (fbits F32) with 23 in *; change (emax F32) with 0xFF in *.
  change 52 with (fbits F64) at 1.
  rewrite <- (ieee_round_exact F64 rm) by (cbn [fbits F64]; change (inf_mag F64) with (0x7FF * 2 ^ 52); lia).
  change (one_exp F64) with 1074; change (one_exp F32) with 149.
  apply ieee_round_ratio; try lia.
  apply (Z.mul_reg_r _ _ (2 ^ (23 + 1))); [lia|].
  transitivity (mag F32 a * 2 ^ (23 + 1) * 2 ^ 1074); [ring|]; rewrite E.
  transitivity (m * (2 ^ (e + 23) * 2 ^ 1074)); [ring|].
  transitivity (m * (2 ^ 29 * 2 ^ (e - 1 + 0x380) * 2 ^ 149 * 2 ^ (23 + 1))); [|ring].
  rewrite <- !Z.pow_add_r by lia; do 2 f_equal; lia.
Qed.

Lemma f32_to_f64_spec a :
  0 <= a < 0x100000000 ->
  meets (f32_to_f64 a) (fun rm => ieee_convert F32 F64 rm a).
Proof.
  intros Ha rm fl; unfold f32_to_f64; cbv zeta; autorewrite with sf_fields.
  pose proof (ffrac_range F32 a ltac:(cbn; lia)); pose proof (fexp_range F32 a ltac:(cbn; lia)).
  change (fbits F32) with 23 in *; change (emax F32) with 0xFF in *.
  unfold ieee_convert, nz; change (inf_mag F64) with (0x7FF * 2 ^ 52).
  rewrite mag_zero by (cbn; lia).
  destruct (Z.eqb_spec (fexp F32 a) 0xFF); [|destruct (Z.eqb_spec (fexp F32 a) 0)];
    destruct (Z.eqb_spec (ffrac F32 a) 0); cbn [negb andb].
  - classify F32 a; pack_leaf packToF64UI_spec.
  - pose proof (is_nan_fields F32 a ltac:(cbn; lia) ltac:(lia)) as N; rewrite N.
    unfold bind; rewrite f32UIToCommonNaN_spec by exact N; reflexivity.
  - classify F32 a; pack_leaf packToF64UI_spec.
  - classify F32 a; destruct (normSubnormalF32Sig_spec (ffrac F32 a) ltac:(lia)) as (Rs & Re & Es).
    set (z := softfloat_normSubnormalF32Sig _) in *.
    rewrite (ieee_widen rm _ a (es_sig z) (es_exp z))
      by (apply norm_operand_subnormal; cbn [fbits ebits F32]; lia).
    rewrite shiftl_mul by lia; wsimp; pack_leaf packToF64UI_spec.
  - classify F32 a; rewrite (ieee_widen rm _ a (2 ^ 23 + ffrac F32 a) (fexp F32 a))
      by (apply norm_operand_normal; cbn; lia).
    rewrite shiftl_mul by lia; wsimp; pack_leaf packToF64UI_spec.
  - classify F32 a; rewrite (ieee_widen rm _ a (2 ^ 23 + ffrac F32 a) (fexp F32 a))
      by (apply norm_operand_normal; cbn; lia).
    rewrite shiftl_mul by lia; wsimp; pack_leaf packToF64UI_spec.
Qed.

(** ** Narrowing *)

(** Below half of the smallest subnormal only the sign of the error matters. *)
Lemma rint_small rm s p d : 0 < d -> 0 < p -> 2 * p < d ->
  rint rm s p d = b2z (rounds_up rm s 0 1 3).
Proof.
  intros Hd Hp Hs; unfold rint; rewrite Z.div_small, Z.mod_small by lia.
  unfold rounds_up, nz; rewrite (proj2 (Z.ltb_ge _ _)), (proj2 (Z.eqb_neq (2 * p) _)),
    (proj2 (Z.leb_gt d _)), (proj2 (Z.eqb_neq p 0)) by lia; reflexivity.
Qed.

Lemma ieee_round_small F rm s p d :
  2 <= fbits F -> 2 <= ebits F -> 0 < d -> 0 < p -> 4 * p < d ->
  ieee_round F rm s p d = ieee_round F rm s 1 5.
Proof.
  intros Hf He Hd Hp Hs.
  assert (G : forall p d, 0 < d -> 0 < p -> 4 * p < d ->
    ieee_round F rm s p d = (signbit F s + b2z (rounds_up rm s 0 1 3),
      softfloat_flag_inexact .| softfloat_flag_underflow)); [|rewrite !G; (reflexivity || lia)].
  clear p d Hd Hp Hs; intros p d Hd Hp Hs.
  assert (Q : qexp F p d = 0) by (unfold qexp; rewrite Z.div_small by lia; cbn; lia).
  pose proof (pow2_le 2 (fbits F) ltac:(lia)); pose proof (pow2_le 2 (ebits F) ltac:(lia)).
  unfold ieee_round, rmag, tiny, inexact, nz; rewrite Q, Z.pow_0_r, Z.mul_1_r, Z.mul_0_l, Z.add_0_l.
  rewrite !rint_small, Z.div_small, Z.mod_small by lia.
  rewrite (proj2 (Z.ltb_lt 0 _)), (proj2 (Z.eqb_neq p 0)) by lia; bsimpl.
  rewrite (proj2 (Z.leb_gt _ _)), (proj2 (Z.ltb_lt _ (2 ^ (fbits F + 1)))); [reflexivity | |].
  - pose proof (pow2_le 2 (fbits F + 1) ltac:(lia)); destruct (rounds_up _ _ _ _ _); bsimpl; lia.
  - unfold inf_mag, emax; destruct (rounds_up _ _ _ _ _); bsimpl; nia.
Qed.

Lemma jdiv_lt p n k : 0 <= n -> 1 <= k -> 0 <= p < 2 ^ (n + k) -> 0 <= jdiv p (2 ^ n) < 2 ^ k.
Proof.
  intros Hn Hk Hp; pose proof (pow2_pos n Hn); rewrite Z.pow_add_r in Hp by lia.
  assert (0 <= p / 2 ^ n < 2 ^ k)
    by (split; [apply Z.div_pos | apply Z.div_lt_upper_bound]; lia).
  unfold jdiv; rewrite jam_spec; pose proof (pow2_half k ltac:(lia)).
  destruct (inexact p (2 ^ n) && Z.even (p / 2 ^ n)) eqn:C; bsimpl; [|lia].
  apply andb_prop in C as [_ C]; rewrite even_mod2 in C; apply Z.eqb_eq in C.
  Z.div_mod_to_equations; lia.
Qed.

Lemma jdiv_zero p d : 0 <= p -> 0 < d -> (jdiv p d =? 0) = (p =? 0).
Proof.
  intros Hp Hd; pose proof (Z.div_mod p d ltac:(lia)); pose proof (Z.mod_pos_bound p d Hd).
  pose proof (Z.div_pos p d Hp Hd).
  apply eq_true_iff_eq; rewrite !Z.eqb_eq; unfold jdiv, inexact, nz; rewrite jam_spec.
  destruct (Z.eqb_spec (p mod d) 0); bsimpl; [nia|].
  rewrite even_mod2; destruct (Z.eqb_spec (p / d mod 2) 0) as [E | E]; bsimpl; split; intros; try nia.
  assert (Q : p / d = 0) by lia; rewrite Q in E; cbn in E; lia.
Qed.

Lemma narrow_round rm s a :
  fexp F64 a <> 0x7FF -> mag F64 a <> 0 ->
  round_scaled F32 rm s (2 ^ 30 + jdiv (ffrac F64 a) (2 ^ 22)) 1 (fexp F64 a - 0x381 - 7)
  = ieee_round F32 rm s (mag F64 a * 2 ^ one_exp F32) (2 ^ one_exp F64).
Proof.
  intros He Hm; change (one_exp F64) with 1074; change (one_exp F32) with 149.
  pose proof (ffrac_range F64 a ltac:(cbn; lia)); pose proof (fexp_range F64 a ltac:(cbn; lia)).
  change (fbits F64) with 52 in *; change (emax F64) with 0x7FF in *.
  pose proof (jdiv_lt (ffrac F64 a) 22 30 ltac:(lia) ltac:(lia) ltac:(lia)).
  destruct (Z.eq_dec (fexp F64 a) 0) as [E | E].
  - assert (M : mag F64 a = ffrac F64 a) by (unfold mag; rewrite E; reflexivity).
    unfold round_scaled; rewrite E, M in *.
    change (Z.max (0 - 0x381 - 7) 0) with 0; change (Z.max (- (0 - 0x381 - 7)) 0) with 904.
    rewrite (ieee_round_small F32 _ _ (_ * 2 ^ 0)) by (cbn [fbits ebits F32]; lia).
    rewrite (ieee_round_small F32 _ _ (_ * 2 ^ 149)) by (cbn [fbits ebits F32]; lia); reflexivity.
  - rewrite jdiv_add by (reflexivity || lia).
    rewrite <- round_scaled_jam; [| cbn; lia | lia | lia |].
    2: { right; apply Z.div_le_lower_bound; cbn [fbits F32]; lia. }
    apply (round_scaled_eq _ _ _ _ _ _ 1000); try lia.
    unfold mag; rewrite (proj2 (Z.eqb_neq _ 0)) by lia; cbn [fbits F64].
    transitivity ((2 ^ 52 + ffrac F64 a) * (2 ^ (1000 + (fexp F64 a - 0x381 - 7)) * 2 ^ 1074)); [ring|].
    transitivity ((2 ^ 52 + ffrac F64 a) * (2 ^ (fexp F64 a - 1) * 2 ^ 149 * 2 ^ 22 * 2 ^ 1000)); [|ring].
    rewrite <- !Z.pow_add_r by lia; do 2 f_equal; lia.
Qed.

Lemma f64_to_f32_spec a :
  0 <= a < 0x10000000000000000 ->
  meets (f64_to_f32 a) (fun rm => ieee_convert F64 F32 rm a).
Proof.
  intros Ha rm fl; unfold f64_to_f32; cbv zeta; autorewrite with sf_fields.
  pose proof (ffrac_range F64 a ltac:(cbn; lia)); pose proof (fexp_range F64 a ltac:(cbn; lia)).
  change (fbits F64) with 52 in *; change (emax F64) with 0x7FF in *.
  pose proof (jdiv_lt (ffrac F64 a) 22 30 ltac:(lia) ltac:(lia) ltac:(lia)).
  rewrite shortShiftRightJam64_spec, nz_lor, (u32_small (jdiv _ _)) by lia.
  change 0x40000000 with (2 ^ 30); rewrite lor_pow2, (Z.add_comm _ (2 ^ 30)) by lia.
  unfold ieee_convert, nz; rewrite mag_zero, jdiv_zero by (cbn; lia).
  change (inf_mag F32) with (0xFF * 2 ^ 23).
  destruct (Z.eqb_spec (fexp F64 a) 0x7FF).
  - destruct (Z.eqb_spec (ffrac F64 a) 0); cbn [negb].
    + classify F64 a; pack_leaf packToF32UI_spec.
    + pose proof (is_nan_fields F64 a ltac:(cbn; lia) ltac:(lia)) as N; rewrite N.
      unfold bind; rewrite f64UIToCommonNaN_spec by exact N; reflexivity.
  - classify F64 a; rewrite <- negb_andb, negb_involutive, <- mag_zero by (cbn; lia).
    destruct (Z.eqb_spec (mag F64 a) 0); [pack_leaf packToF32UI_spec|].
    rewrite roundPackToF32_spec, narrow_round by lia; reflexivity.
Qed.

(** ** From integers *)

Lemma round_scaled_int F rm s n : 0 <= one_exp F ->
  round_scaled F rm s n 1 (one_exp F) = ieee_round F rm s (n * 2 ^ one_exp F) 1.
Proof.
  intros H; unfold round_scaled; rewrite Z.max_l, Z.max_r, Z.pow_0_r by lia; reflexivity.
Qed.

(** Magnitude of a negative argument, the way the code negates it. *)
Lemma abs_u32 a :
  - 2 ^ 31 <= a < 2 ^ 31 -> (if a <? 0 then u32 (- u32 a) else u32 a) = Z.abs a.
Proof.
  intros H; rewrite (u32_exp a) by lia; destruct (Z.ltb_spec a 0).
  - unfold u32; rewrite <- (wrap_add 32 _ 1), wrap_small by lia; lia.
  - lia.
Qed.

Lemma u64_signed a : - 2 ^ 63 <= a < 2 ^ 63 -> u64 a = if a <? 0 then a + 2 ^ 64 else a.
Proof.
  intros H; zcase; wsimp; [|reflexivity].
  unfold u64; rewrite <- (wrap_add 64 a 1), wrap_small; lia.
Qed.

Lemma abs_u64 a :
  - 2 ^ 63 <= a < 2 ^ 63 -> (if a <? 0 then u64 (- u64 a) else u64 a) = Z.abs a.
Proof.
  intros H; rewrite (u64_signed a) by lia; destruct (Z.ltb_spec a 0).
  - unfold u64; rewrite <- (wrap_add 64 _ 1), wrap_small by lia; lia.
  - lia.
Qed.

(** The top bit of a word. *)
Lemma nz_top_bit a n :
  0 <= n -> 0 <= a < 2 ^ (n + 1) -> nz (a .& 2 ^ n) = (2 ^ n <=? a).
Proof.
  intros Hn Ha; pose proof (pow2_pos n Hn); rewrite pow2_succ in Ha by lia.
  pose proof (land_field a n 1 ltac:(lia) ltac:(lia)) as L.
  change (2 ^ 1 - 1) with 1 in L; rewrite Z.mul_1_l in L; rewrite L.
  unfold nz; destruct (Z.leb_spec (2 ^ n) a) as [G | G].
  - replace (a / 2 ^ n) with 1 by (apply (Z.div_unique_pos _ _ _ (a - 2 ^ n)); lia).
    rewrite (proj2 (Z.eqb_neq _ 0)); [reflexivity | change (1 mod 2 ^ 1) with 1; lia].
  - rewrite Z.div_small by lia; reflexivity.
Qed.

Lemma sticky_low_bit a : (a .>> 1) .| (a .& 1) = jdiv a (2 ^ 1).
Proof.
  change (a .& 1) with (a .& (2 ^ 1 - 1)); rewrite land_ones_mod, shiftr_div by lia.
  unfold jdiv, inexact, nz; change (2 ^ 1) with 2.
  pose proof (Z.mod_pos_bound a 2 ltac:(lia)).
  destruct (Z.eqb_spec (a mod 2) 0) as [-> | ]; [apply Z.lor_0_r|].
  replace (a mod 2) with 1 by lia; reflexivity.
Qed.

Section FromInt.
Context (rm fl : Z).

(** Exact conversion of a magnitude below [2 ^ 53] to double. *)
Lemma pack_intF64 sign n :
  0 < n < 2 ^ 32 ->
  ret (packToF64UI sign (0x432 - (softfloat_countLeadingZeros32 n + 21))
         (u64 (n .<< (softfloat_countLeadingZeros32 n + 21)))) rm fl
  = (fst (ieee_round F64 rm sign (n * 2 ^ one_exp F64) 1),
     fl .| snd (ieee_round F64 rm sign (n * 2 ^ one_exp F64) 1)).
Proof using Type.
  intros Hn; rewrite countLeadingZeros32_spec by lia; change (one_exp F64) with 1074.
  assert (0 <= Z.log2 n < 32) by (split; [apply Z.log2_nonneg | apply Z.log2_lt_pow2; lia]).
  pose proof (normalize_range n 52 ltac:(lia) ltac:(lia)) as R.
  replace (31 - Z.log2 n + 21) with (52 - Z.log2 n) by lia.
  set (sd := 52 - Z.log2 n) in *; rewrite shiftl_mul by lia; wsimp.
  replace (n * 2 ^ 1074) with (n * 2 ^ sd * 2 ^ (1074 - sd))
    by (rewrite (pow2_split 1074 sd) by lia; ring).
  rewrite (ieee_round_exact F64) by (cbn [fbits F64]; change (inf_mag F64) with (0x7FF * 2 ^ 52); lia).
  cbn [fbits F64]; pack_leaf packToF64UI_spec.
Qed.

(** A 64-bit magnitude to single. *)
Lemma round_int64F32 sign n :
  0 < n < 2 ^ 64 ->
  let shiftDist := softfloat_countLeadingZeros64 n - 40 in
  (if 0 <=? shiftDist then ret (packToF32UI sign (0x95 - shiftDist) (u32 (u32 n .<< shiftDist)))
   else
     let shiftDist := shiftDist + 7 in
     let sig :=
       if shiftDist <? 0 then u32 (softfloat_shortShiftRightJam64 n (- shiftDist))
       else u32 (u32 n .<< shiftDist) in
     softfloat_roundPackToF32 sign (0x9C - shiftDist) sig) rm fl
  = (fst (ieee_round F32 rm sign (n * 2 ^ one_exp F32) 1),
     fl .| snd (ieee_round F32 rm sign (n * 2 ^ one_exp F32) 1)).
Proof using Type.
  intros Hn; cbv zeta; rewrite countLeadingZeros64_spec by lia; change (one_exp F32) with 149.
  assert (0 <= Z.log2 n < 64) by (split; [apply Z.log2_nonneg | apply Z.log2_lt_pow2; lia]).
  pose proof (Z.log2_spec n ltac:(lia)) as [L U]; rewrite <- Z.add_1_r in U.
  destruct (Z.leb_spec 0 (63 - Z.log2 n - 40)).
  - pose proof (normalize_range n 23 ltac:(lia) ltac:(lia)) as R.
    pose proof (pow2_le (Z.log2 n + 1) 24 ltac:(lia)).
    replace (63 - Z.log2 n - 40) with (23 - Z.log2 n) by lia.
    set (sd := 23 - Z.log2 n) in *; rewrite shiftl_mul by lia; wsimp.
    replace (n * 2 ^ 149) with (n * 2 ^ sd * 2 ^ (149 - sd))
      by (rewrite (pow2_split 149 sd) by lia; ring).
    rewrite (ieee_round_exact F32) by (cbn [fbits F32]; change (inf_mag F32) with (0xFF * 2 ^ 23); lia).
    cbn [fbits F32]; pack_leaf packToF32UI_spec.
  - replace (63 - Z.log2 n - 40 + 7) with (30 - Z.log2 n) by lia.
    destruct (Z.ltb_spec (30 - Z.log2 n) 0).
    + set (d := - (30 - Z.log2 n)) in *.
      pose proof (jdiv_lt n d 31 ltac:(lia) ltac:(lia)
        ltac:(replace (d + 31) with (Z.log2 n + 1) by lia; lia)) as B.
      assert (2 ^ 30 <= jdiv n (2 ^ d)).
      { transitivity (n / 2 ^ d); [|unfold jdiv; rewrite jam_spec; destruct (_ && _); bsimpl; lia].
        apply Z.div_le_lower_bound; [apply pow2_pos; lia|].
        rewrite <- Z.pow_add_r by lia; replace (d + 30) with (Z.log2 n) by lia; lia. }
      rewrite shortShiftRightJam64_spec by lia; wsimp.
      rewrite roundPackToF32_spec by lia.
      rewrite <- round_scaled_jam; [| cbn; lia | apply pow2_pos; lia | lia | right].
      * rewrite (round_scaled_eq F32 rm sign n (2 ^ d) _ 0 (n * 2 ^ 149) 1); try lia;
          [reflexivity|].
        replace (0 + (156 - (30 - Z.log2 n) - 7)) with (149 + d) by lia.
        rewrite Z.pow_add_r by lia; ring.
      * cbn [fbits F32]; apply Z.div_le_lower_bound; [apply pow2_pos; lia|].
        rewrite <- Z.pow_add_r by lia.
        pose proof (pow2_le (d + (23 + 2)) (Z.log2 n) ltac:(lia)); lia.
    + pose proof (normalize_range n 30 ltac:(lia) ltac:(lia)) as R.
      pose proof (pow2_le (Z.log2 n + 1) 31 ltac:(lia)).
      set (sd := 30 - Z.log2 n) in *; rewrite shiftl_mul by lia; wsimp.
      rewrite roundPackToF32_spec, round_scaled_shift by lia.
      replace (156 - sd - 7 + sd) with (one_exp F32) by (change (one_exp F32) with 149; lia).
      rewrite round_scaled_int by (cbn; lia); reflexivity.
Qed.
End FromInt.

(** A signed argument whose bits below the sign are all zero. *)
Lemma land_below_sign a n :
  0 <= n -> - 2 ^ n <= a < 2 ^ n -> nz (a .& (2 ^ n - 1)) = negb ((a =? 0) || (a =? - 2 ^ n)).
Proof.
  intros Hn Ha; pose proof (pow2_pos n Hn); rewrite land_ones_mod by lia; unfold nz; f_equal.
  destruct (Z.ltb_spec a 0).
  - replace (a mod 2 ^ n) with ((a + 2 ^ n) mod 2 ^ n)
      by (rewrite <- (Z.mod_add a 1 (2 ^ n)) by lia; f_equal; lia).
    rewrite Z.mod_small by lia; apply eq_true_iff_eq; rewrite orb_true_iff, !Z.eqb_eq; lia.
  - rewrite Z.mod_small by lia; apply eq_true_iff_eq; rewrite orb_true_iff, !Z.eqb_eq; lia.
Qed.

Lemma ui32_to_f32_spec n :
  0 <= n < 2 ^ 32 -> meets (ui32_to_f32 n) (fun rm => ieee_from_int F32 rm n).
Proof.
  intros Hn rm fl; unfold ui32_to_f32, ieee_from_int; unnz n; rewrite negb_involutive.
  destruct (Z.eqb_spec n 0); [cbn; rewrite Z.lor_0_r; reflexivity|].
  rewrite (proj2 (Z.ltb_ge n 0)), Z.abs_eq, <- round_scaled_int by (cbn; lia).
  rewrite (nz_top_bit n 31 ltac:(lia) Hn : nz (n .& 0x80000000) = _).
  destruct (Z.leb_spec (2 ^ 31) n); [|rewrite normRoundPackToF32_spec by lia; reflexivity].
  rewrite sticky_low_bit.
  pose proof (jdiv_lt n 1 31 ltac:(lia) ltac:(lia) ltac:(lia)).
  assert (2 ^ 30 <= n / 2 ^ 1) by (apply Z.div_le_lower_bound; lia).
  assert (n / 2 ^ 1 <= jdiv n (2 ^ 1))
    by (unfold jdiv; rewrite jam_spec; destruct (_ && _); bsimpl; lia).
  rewrite roundPackToF32_spec by lia.
  rewrite <- round_scaled_jam by (cbn [fbits F32]; lia).
  rewrite (round_scaled_eq F32 rm false n (2 ^ 1) _ 0 (n * 2 ^ 149) 1) by lia.
  rewrite round_scaled_int by (cbn; lia); reflexivity.
Qed.

Lemma ui64_to_f64_spec n :
  0 <= n < 2 ^ 64 -> meets (ui64_to_f64 n) (fun rm => ieee_from_int F64 rm n).
Proof.
  intros Hn rm fl; unfold ui64_to_f64, ieee_from_int; unnz n; rewrite negb_involutive.
  destruct (Z.eqb_spec n 0); [cbn; rewrite Z.lor_0_r; reflexivity|].
  rewrite (proj2 (Z.ltb_ge n 0)), Z.abs_eq, <- round_scaled_int by (cbn; lia).
  rewrite (nz_top_bit n 63 ltac:(lia) Hn : nz (n .& 0x8000000000000000) = _).
  destruct (Z.leb_spec (2 ^ 63) n); [|rewrite normRoundPackToF64_spec by lia; reflexivity].
  rewrite shortShiftRightJam64_spec by lia.
  pose proof (jdiv_lt n 1 63 ltac:(lia) ltac:(lia) ltac:(lia)).
  assert (2 ^ 62 <= n / 2 ^ 1) by (apply Z.div_le_lower_bound; lia).
  assert (n / 2 ^ 1 <= jdiv n (2 ^ 1))
    by (unfold jdiv; rewrite jam_spec; destruct (_ && _); bsimpl; lia).
  rewrite roundPackToF64_spec by lia.
  rewrite <- round_scaled_jam by (cbn [fbits F64]; lia).
  rewrite (round_scaled_eq F64 rm false n (2 ^ 1) _ 0 (n * 2 ^ 1074) 1) by lia.
  rewrite round_scaled_int by (cbn; lia); reflexivity.
Qed.

Lemma ui32_to_f64_spec n :
  0 <= n < 2 ^ 32 -> meets (ui32_to_f64 n) (fun rm => ieee_from_int F64 rm n).
Proof.
  intros Hn rm fl; unfold ui32_to_f64, ieee_from_int; unnz n; rewrite negb_involutive.
  destruct (Z.eqb_spec n 0); [cbn; rewrite Z.lor_0_r; reflexivity|].
  rewrite (proj2 (Z.ltb_ge n 0)), Z.abs_eq by lia; apply pack_intF64; lia.
Qed.

Lemma i32_to_f64_spec n :
  - 2 ^ 31 <= n < 2 ^ 31 -> meets (i32_to_f64 n) (fun rm => ieee_from_int F64 rm n).
Proof.
  intros Hn rm fl; unfold i32_to_f64, ieee_from_int; unnz n; rewrite negb_involutive.
  destruct (Z.eqb_spec n 0); [cbn; rewrite Z.lor_0_r; reflexivity|].
  cbv zeta; rewrite abs_u32 by lia; apply pack_intF64; lia.
Qed.

Lemma ui64_to_f32_spec n :
  0 <= n < 2 ^ 64 -> meets (ui64_to_f32 n) (fun rm => ieee_from_int F32 rm n).
Proof.
  intros Hn rm fl; unfold ui64_to_f32, ieee_from_int; unnz n.
  destruct (Z.eqb_spec n 0) as [-> | N]; [cbn; rewrite Z.lor_0_r; reflexivity|].
  rewrite (proj2 (Z.ltb_ge n 0)), Z.abs_eq by lia; apply round_int64F32; lia.
Qed.

Lemma i64_to_f32_spec n :
  - 2 ^ 63 <= n < 2 ^ 63 -> meets (i64_to_f32 n) (fun rm => ieee_from_int F32 rm n).
Proof.
  intros Hn rm fl; unfold i64_to_f32, ieee_from_int; unnz n; rewrite abs_u64 by lia.
  destruct (Z.eqb_spec n 0) as [-> | N]; [cbn; rewrite Z.lor_0_r; reflexivity|].
  apply round_int64F32; lia.
Qed.

Lemma i32_to_f32_spec n :
  - 2 ^ 31 <= n < 2 ^ 31 -> meets (i32_to_f32 n) (fun rm => ieee_from_int F32 rm n).
Proof.
  intros Hn rm fl; unfold i32_to_f32, ieee_from_int; cbv zeta; rewrite abs_u32 by lia.
  rewrite (land_below_sign n 31 ltac:(lia) Hn : nz (n .& 0x7FFFFFFF) = _), negb_involutive.
  destruct (Z.eqb_spec n 0) as [-> | N]; [cbn; rewrite Z.lor_0_r; reflexivity|].
  destruct (Z.eqb_spec n (- 2 ^ 31)) as [-> | M]; [|].
  { change (Z.abs (- 2 ^ 31) * 2 ^ one_exp F32) with (2 ^ 23 * 2 ^ 157).
    rewrite (ieee_round_exact F32) by (cbn [fbits F32]; change (inf_mag F32) with (0xFF * 2 ^ 23); lia).
    cbn [orb fbits F32]; change (- 2 ^ 31 <? 0) with true; pack_leaf packToF32UI_spec. }
  rewrite <- round_scaled_int by (cbn; lia).
  cbn [orb]; rewrite normRoundPackToF32_spec by lia; reflexivity.
Qed.

Lemma i64_to_f64_spec n :
  - 2 ^ 63 <= n < 2 ^ 63 -> meets (i64_to_f64 n) (fun rm => ieee_from_int F64 rm n).
Proof.
  intros Hn rm fl; unfold i64_to_f64, ieee_from_int; cbv zeta; rewrite abs_u64 by lia.
  assert (L : nz (u64 n .& 0x7FFFFFFFFFFFFFFF) = negb ((n =? 0) || (n =? - 2 ^ 63))).
  { rewrite <- (land_below_sign n 63) by lia; change 0x7FFFFFFFFFFFFFFF with (2 ^ 63 - 1).
    rewrite !land_ones_mod by lia; unfold u64, wrap; f_equal.
    change (2 ^ 64) with (2 ^ 63 * 2); rewrite Z.rem_mul_r, Z.mul_comm by lia.
    rewrite Z.mod_add, Z.mod_mod by lia; reflexivity. }
  rewrite L, negb_involutive.
  destruct (Z.eqb_spec n 0) as [-> | N]; [cbn; rewrite Z.lor_0_r; reflexivity|].
  destruct (Z.eqb_spec n (- 2 ^ 63)) as [-> | M]; [|].
  { change (Z.abs (- 2 ^ 63) * 2 ^ one_exp F64) with (2 ^ 52 * 2 ^ 1085).
    rewrite (ieee_round_exact F64) by (cbn [fbits F64]; change (inf_mag F64) with (0x7FF * 2 ^ 52); lia).
    cbn [orb fbits F64]; change (- 2 ^ 63 <? 0) with true; pack_leaf packToF64UI_spec. }
  rewrite <- round_scaled_int by (cbn; lia).
  cbn [orb]; rewrite normRoundPackToF64_spec by lia; reflexivity.
Qed.
