(* ===== verification/SfWords.v ===== *)
(** * SoftFloat: multiword integers

    [s_addM.c], [s_subM.c], [s_negXM.c], [s_shortShiftRightM.c], [s_shortShiftLeftM.c],
    [s_shiftLeftM.c], [s_shortShiftRightJamM.c] and [s_shiftRightJamM.c].  A multiword
    integer is an array of 32-bit words, least significant first; a pointer is an index into
    one array, so that sources and destinations may overlap as they do in the calls.  Each
    routine is proved to compute its arithmetic operation for every size and every overlap
    it admits. *)

From S2P Require Import Prelude FpSpec FpTheory SfEnv SfPrim SfRound SfAdd SfMul SfConvert.
From Stdlib Require Import ZArith Lia Bool List.
Import ListNotations.

(** ** Definitions *)

Definition load (m : list Z) (i : nat) : Z := nth i m 0.

Fixpoint store (m : list Z) (i : nat) (v : Z) : list Z :=
  match m, i with
  | [], _ => []
  | _ :: m, O => v :: m
  | x :: m, S i => x :: store m i v
  end.

(** The [while] loop of [softfloat_shortShiftRightJamM]; [n] is [lastIndex - index]. *)
Fixpoint shortShiftRightJamM_loop (aPtr : nat) (dist : Z) (zPtr : nat) (n : nat)
    (m : list Z) (index : nat) (partWordZ : Z) : list Z :=
  match n with
  | O => store m (zPtr + index) partWordZ
  | S n =>
      let wordA := load m (aPtr + (index + 1)) in
      let m := store m (zPtr + index) (u32 (wordA .<< (u32 (- dist) .& 31)) .| partWordZ) in
      shortShiftRightJamM_loop aPtr dist zPtr n m (index + 1) (wordA .>> dist)
  end.

Definition softfloat_shortShiftRightJamM (m : list Z) (size_words aPtr : nat) (dist : Z)
    (zPtr : nat) : list Z :=
  let wordA := load m aPtr in
  let partWordZ := wordA .>> dist in
  let partWordZ := if negb (u32 (partWordZ .<< dist) =? wordA) then partWordZ .| 1 else partWordZ in
  shortShiftRightJamM_loop aPtr dist zPtr (size_words - 1) m 0 partWordZ.

(** The first loop of [softfloat_shiftRightJamM]: the first nonzero of [i] words, or the
    last one. *)
Fixpoint shiftRightJamM_scan (m : list Z) (ptr i : nat) (wordJam : Z) : Z :=
  match i with
  | O => wordJam
  | S i =>
      let wordJam := load m ptr in
      if nz wordJam then wordJam else shiftRightJamM_scan m (ptr + 1) i wordJam
  end.

Fixpoint copy_words (m : list Z) (aPtr ptr i : nat) : list Z :=
  match i with
  | O => m
  | S i => copy_words (store m ptr (load m aPtr)) (aPtr + 1) (ptr + 1) i
  end.

Fixpoint zero_words (m : list Z) (ptr i : nat) : list Z :=
  match i with
  | O => m
  | S i => zero_words (store m ptr 0) (ptr + 1) i
  end.

(** [None] stands for the call the documentation excludes, [dist = 0], on which the last
    loop runs past the array. *)
Definition softfloat_shiftRightJamM (m : list Z) (size_words aPtr : nat) (dist : Z)
    (zPtr : nat) : option (list Z) :=
  let wordDist := Z.min (dist .>> 5) (Z.of_nat size_words) in
  let wd := Z.to_nat wordDist in
  let wordJam := if nz wordDist then shiftRightJamM_scan m aPtr wd 0 else 0 in
  let jam (m : list Z) : option (list Z) :=
    Some (if nz wordJam then store m zPtr (load m zPtr .| 1) else m) in
  let clear (m : list Z) (ptr : nat) : option (list Z) :=
    if nz wordDist then jam (zero_words m ptr wd) else None in
  if (wd <? size_words)%nat then
    let innerDist := dist .& 31 in
    if nz innerDist then
      let m := softfloat_shortShiftRightJamM m (size_words - wd) (aPtr + wd) innerDist zPtr in
      if negb (nz wordDist) then jam m else clear m (zPtr + (size_words - wd))%nat
    else
      let m := copy_words m (aPtr + wd) zPtr (size_words - wd) in
      clear m (zPtr + (size_words - wd))%nat
  else clear m zPtr.

(** The loops; [n] is [lastIndex - index]. *)
Fixpoint addM_loop (aPtr bPtr zPtr n : nat) (m : list Z) (index : nat) (carry : Z) : list Z :=
  let wordA := load m (aPtr + index) in
  let wordZ := u32 (wordA + load m (bPtr + index) + carry) in
  let m := store m (zPtr + index) wordZ in
  match n with
  | O => m
  | S n =>
      let carry := if negb (wordZ =? wordA) then b2z (wordZ <? wordA) else carry in
      addM_loop aPtr bPtr zPtr n m (index + 1) carry
  end.

Definition softfloat_addM (m : list Z) (size_words aPtr bPtr zPtr : nat) : list Z :=
  addM_loop aPtr bPtr zPtr (size_words - 1) m 0 0.

Fixpoint subM_loop (aPtr bPtr zPtr n : nat) (m : list Z) (index : nat) (borrow : Z) : list Z :=
  let wordA := load m (aPtr + index) in
  let wordB := load m (bPtr + index) in
  let m := store m (zPtr + index) (u32 (wordA - wordB - borrow)) in
  match n with
  | O => m
  | S n =>
      let borrow := if nz borrow then b2z (wordA <=? wordB) else b2z (wordA <? wordB) in
      subM_loop aPtr bPtr zPtr n m (index + 1) borrow
  end.

Definition softfloat_subM (m : list Z) (size_words aPtr bPtr zPtr : nat) : list Z :=
  subM_loop aPtr bPtr zPtr (size_words - 1) m 0 0.

Fixpoint negXM_loop (zPtr n : nat) (m : list Z) (index : nat) (carry : Z) : list Z :=
  let word := u32 (u32 (.~ load m (zPtr + index)) + carry) in
  let m := store m (zPtr + index) word in
  match n with
  | O => m
  | S n => negXM_loop zPtr n m (index + 1) (if nz word then 0 else carry)
  end.

Definition softfloat_negXM (m : list Z) (size_words zPtr : nat) : list Z :=
  negXM_loop zPtr (size_words - 1) m 0 1.

Fixpoint shortShiftRightM_loop (aPtr : nat) (dist : Z) (zPtr n : nat) (m : list Z)
    (index : nat) (partWordZ : Z) : list Z :=
  match n with
  | O => store m (zPtr + index) partWordZ
  | S n =>
      let wordA := load m (aPtr + (index + 1)) in
      let m := store m (zPtr + index) (u32 (wordA .<< (u32 (- dist) .& 31)) .| partWordZ) in
      shortShiftRightM_loop aPtr dist zPtr n m (index + 1) (wordA .>> dist)
  end.

Definition softfloat_shortShiftRightM (m : list Z) (size_words aPtr : nat) (dist : Z)
    (zPtr : nat) : list Z :=
  shortShiftRightM_loop aPtr dist zPtr (size_words - 1) m 0 (load m aPtr .>> dist).

(** [index] counts down to [0]. *)
Fixpoint shortShiftLeftM_loop (aPtr : nat) (dist : Z) (zPtr : nat) (m : list Z)
    (index : nat) (partWordZ : Z) : list Z :=
  match index with
  | O => store m zPtr partWordZ
  | S index' =>
      let wordA := load m (aPtr + index') in
      let m := store m (zPtr + index) (partWordZ .| (wordA .>> (u32 (- dist) .& 31))) in
      shortShiftLeftM_loop aPtr dist zPtr m index' (u32 (wordA .<< dist))
  end.

Definition softfloat_shortShiftLeftM (m : list Z) (size_words aPtr : nat) (dist : Z)
    (zPtr : nat) : list Z :=
  shortShiftLeftM_loop aPtr dist zPtr m (size_words - 1)
    (u32 (load m (aPtr + (size_words - 1)) .<< dist)).

(** Copying [i] words downwards, from [aPtr] to [destPtr]. *)
Fixpoint copy_words_down (m : list Z) (aPtr destPtr i : nat) : list Z :=
  match i with
  | O => m
  | S i => copy_words_down (store m destPtr (load m aPtr)) (aPtr - 1) (destPtr - 1) i
  end.

(** [None]: the excluded call with [dist = 0], whose last loop runs past the array. *)
Definition softfloat_shiftLeftM (m : list Z) (size_words aPtr : nat) (dist : Z)
    (zPtr : nat) : option (list Z) :=
  let wordDist := dist .>> 5 in
  let wd := Z.to_nat wordDist in
  let clear (m : list Z) (wordDist : nat) : option (list Z) :=
    match wordDist with
    | O => None
    | S _ => Some (zero_words m zPtr wordDist)
    end in
  if wordDist <? Z.of_nat size_words then
    let innerDist := dist .& 31 in
    if nz innerDist then
      let m := softfloat_shortShiftLeftM m (size_words - wd) aPtr innerDist (zPtr + wd) in
      if negb (nz wordDist) then Some m else clear m wd
    else
      let m := copy_words_down m (aPtr + (size_words - wd - 1)) (zPtr + (size_words - 1))
                 (size_words - wd) in
      clear m wd
  else clear m size_words.

(** ** Shifting with jamming *)

(** Dropping the low [k] bits into the sticky bit. *)
Lemma jdiv_low a R k n :
  0 <= k -> 0 <= a < 2 ^ k -> 0 <= n ->
  jdiv (a + 2 ^ k * R) (2 ^ (k + n)) = jam (jdiv R (2 ^ n)) (nz a).
Proof.
  intros Hk Ha Hn; pose proof (pow2_pos n Hn); pose proof (pow2_pos k Hk).
  rewrite Z.pow_add_r by lia; unfold jdiv, inexact, nz.
  replace ((a + 2 ^ k * R) / (2 ^ k * 2 ^ n)) with (R / 2 ^ n).
  2: { rewrite <- Z.div_div, (Z.mul_comm _ R), Z.div_add, (Z.div_small a) by lia; reflexivity. }
  replace ((a + 2 ^ k * R) mod (2 ^ k * 2 ^ n)) with (a + 2 ^ k * (R mod 2 ^ n)).
  2: { rewrite Z.rem_mul_r by lia.
       rewrite (Z.mul_comm _ R), Z.mod_add, Z.div_add, (Z.mod_small a), (Z.div_small a) by lia;
         reflexivity. }
  pose proof (Z.mod_pos_bound R (2 ^ n) ltac:(lia)).
  destruct (Z.eqb_spec a 0), (Z.eqb_spec (R mod 2 ^ n) 0); cbn [negb jam];
    rewrite ?(proj2 (Z.eqb_eq (_ + _) 0)), ?(proj2 (Z.eqb_neq (_ + _) 0)) by nia; cbn [negb jam];
    try reflexivity.
  rewrite <- Z.lor_assoc; reflexivity.
Qed.

(** One word of a short shift: the low bits of the next word join the kept bits. *)
Lemma shift_word w p r :
  1 <= r < 32 -> 0 <= w < 2 ^ 32 -> 0 <= p < 2 ^ (32 - r) ->
  u32 (w .<< (u32 (- r) .& 31)) .| p = p + 2 ^ (32 - r) * (w mod 2 ^ r).
Proof.
  intros Hr Hw Hp; change 31 with (2 ^ 5 - 1); unfold u32 at 2.
  rewrite neg_mod_mask, shiftl_mul by (change (2 ^ 5) with 32; lia); change (2 ^ 5) with 32.
  unfold u32, wrap; rewrite (pow2_split 32 (32 - r)) by lia.
  replace (32 - (32 - r)) with r by lia; rewrite (Z.mul_comm (2 ^ (32 - r))).
  rewrite Z.mul_mod_distr_r, lor_add_disjoint by (try apply Z.pow_nonzero; lia); lia.
Qed.

Lemma jam_first_word w r :
  1 <= r < 32 -> 0 <= w < 2 ^ 32 ->
  (if negb (u32 ((w .>> r) .<< r) =? w) then (w .>> r) .| 1 else w .>> r) = jdiv w (2 ^ r).
Proof.
  intros Hr Hw; pose proof (pow2_pos r ltac:(lia)).
  rewrite shiftr_div, shiftl_mul by lia; unfold jdiv, jam, inexact, nz.
  pose proof (Z.div_mod w (2 ^ r) ltac:(lia)); pose proof (Z.mod_pos_bound w (2 ^ r) ltac:(lia)).
  pose proof (Z.div_pos w (2 ^ r) ltac:(lia) ltac:(lia)).
  rewrite u32_small by nia.
  replace (w / 2 ^ r * 2 ^ r =? w) with (w mod 2 ^ r =? 0); [reflexivity|].
  apply eq_true_iff_eq; rewrite !Z.eqb_eq; lia.
Qed.

(** A word's value below a bit position. *)
Lemma word_bounds w r :
  1 <= r < 32 -> 0 <= w < 2 ^ 32 ->
  0 <= w .>> r < 2 ^ (32 - r) /\ 0 <= jdiv w (2 ^ r) < 2 ^ (32 - r).
Proof.
  intros Hr Hw; split.
  - rewrite shiftr_div by lia; pose proof (pow2_pos r ltac:(lia)).
    rewrite (pow2_split 32 r) in Hw by lia.
    split; [apply Z.div_pos | apply Z.div_lt_upper_bound]; lia.
  - apply jdiv_lt; try lia; replace (r + (32 - r)) with 32 by lia; lia.
Qed.

(** The words of a shift by less than a word. *)
Section ShortShift.
Context (r : Z) (Hr : 1 <= r < 32).

Lemma short_step p w R :
  0 <= w < 2 ^ 32 -> 0 <= p < 2 ^ (32 - r) ->
  let z := u32 (w .<< (u32 (- r) .& 31)) .| p in
  0 <= z < 2 ^ 32 /\
  z + 2 ^ 32 * ((w .>> r) + R) = p + 2 ^ (32 - r) * w + 2 ^ 32 * R.
Proof using Hr.
  intros Hw Hp z; subst z; rewrite shift_word, shiftr_div by lia.
  pose proof (pow2_pos r ltac:(lia)); pose proof (pow2_pos (32 - r) ltac:(lia)).
  pose proof (pow2_split 32 r ltac:(lia)) as S.
  pose proof (Z.div_mod w (2 ^ r) ltac:(lia)); pose proof (Z.mod_pos_bound w (2 ^ r) ltac:(lia)).
  split; [split; nia|].
  replace (2 ^ (32 - r) * w) with (2 ^ (32 - r) * (w mod 2 ^ r) + 2 ^ 32 * (w / 2 ^ r)); [ring|].
  rewrite S; transitivity (2 ^ (32 - r) * (2 ^ r * (w / 2 ^ r) + w mod 2 ^ r)); [ring|].
  rewrite <- Z.div_mod by lia; reflexivity.
Qed.

Lemma jdiv_word_low a R :
  jdiv (a + 2 ^ 32 * R) (2 ^ r) = jdiv a (2 ^ r) + 2 ^ (32 - r) * R.
Proof using Hr.
  pose proof (pow2_pos r ltac:(lia)); rewrite (pow2_split 32 r) by lia.
  rewrite (Z.add_comm (jdiv _ _)), jdiv_add; [| lia |].
  - f_equal; ring.
  - rewrite Z.mul_comm; apply even_mul_pow2; lia.
Qed.
End ShortShift.

Definition word (x : Z) : Prop := 0 <= x < 2 ^ 32.

Lemma jam_word x b : word x -> word (jam x b).
Proof.
  unfold word; intros H; rewrite jam_spec; destruct (b && Z.even x) eqn:C; bsimpl; [|lia].
  apply andb_prop in C as [_ C]; rewrite even_mod2 in C; apply Z.eqb_eq in C.
  Z.div_mod_to_equations; lia.
Qed.

Lemma jam_words x l b : words (jam x b :: l) = jam (words (x :: l)) b.
Proof.
  cbn [words]; rewrite !(Z.add_comm _ (2 ^ 32 * _)); apply jam_add.
  rewrite Z.mul_comm; apply even_mul_pow2; lia.
Qed.

Lemma jam_or n (x y : bool) : jam (jam n x) y = jam n (x || y).
Proof. destruct x, y; cbn [jam orb]; rewrite <- ?Z.lor_assoc; reflexivity. Qed.

Lemma jdiv_1 p : jdiv p 1 = p.
Proof. unfold jdiv, inexact, jam; rewrite Z.mod_1_r, Z.div_1_r; reflexivity. Qed.

(** ** Arrays *)

Fixpoint value (m : list Z) (p n : nat) : Z :=
  match n with
  | O => 0
  | S n => load m p + 2 ^ 32 * value m (S p) n
  end.

Definition all_words (m : list Z) : Prop := Forall word m.

(** [m'] differs from [m] at most in the [n] words from [p]. *)
Definition only (p n : nat) (m m' : list Z) : Prop :=
  length m' = length m /\ all_words m' /\
  forall i, (i < p \/ p + n <= i)%nat -> load m' i = load m i.

Lemma length_store m i v : length (store m i v) = length m.
Proof. revert i; induction m; intros [|i]; cbn; auto. Qed.

Lemma load_store m i j v : (i < length m)%nat ->
  load (store m i v) j = if (j =? i)%nat then v else load m j.
Proof.
  unfold load; revert i j; induction m as [|x m IH]; intros [|i] [|j] H; cbn in *; try lia; auto.
  apply IH; lia.
Qed.

Lemma load_word m i : all_words m -> word (load m i).
Proof.
  intros H; unfold load, all_words in *; destruct (Nat.lt_ge_cases i (length m)).
  - rewrite Forall_forall in H; apply H, nth_In; lia.
  - rewrite nth_overflow by lia; unfold word; lia.
Qed.

Lemma all_words_store m i v : all_words m -> word v -> all_words (store m i v).
Proof.
  intros H Hv; revert i; induction H as [|x m Hx H IH]; intros [|i]; cbn; constructor; auto.
  apply IH.
Qed.

Create HintDb words.
#[export] Hint Resolve load_word all_words_store : words.

Lemma only_refl p n m : all_words m -> only p n m m.
Proof. intros; repeat split; auto. Qed.

Lemma only_trans p n m1 m2 m3 : only p n m1 m2 -> only p n m2 m3 -> only p n m1 m3.
Proof.
  intros (L1 & _ & E1) (L2 & A & E2); split; [congruence|]; split; [exact A|].
  intros i Hi; rewrite E2, E1; auto.
Qed.

Lemma only_weaken p n p' n' m1 m2 : (p' <= p)%nat -> (p + n <= p' + n')%nat -> only p n m1 m2 ->
  only p' n' m1 m2.
Proof. intros Hp Hn (L & A & E); repeat split; auto; intros i Hi; apply E; lia. Qed.

Lemma only_store p n m i v :
  all_words m -> word v -> (p <= i < p + n)%nat -> (i < length m)%nat -> only p n m (store m i v).
Proof.
  intros A W Hi Hl; split; [apply length_store|]; split; [auto with words|].
  intros j Hj; rewrite load_store by lia; destruct (Nat.eqb_spec j i); [lia | reflexivity].
Qed.

Lemma value_ext m m' p n :
  (forall i, (p <= i < p + n)%nat -> load m' i = load m i) -> value m' p n = value m p n.
Proof.
  revert p; induction n as [|n IH]; intros p H; cbn [value]; [reflexivity|].
  rewrite H, IH by (intros; apply H || lia; lia); reflexivity.
Qed.

Lemma only_value p n m m' q k :
  only p n m m' -> (q + k <= p \/ p + n <= q)%nat -> value m' q k = value m q k.
Proof. intros (_ & _ & E) H; apply value_ext; intros; apply E; lia. Qed.

(** The number of values of [n] words. *)
Definition radix (n : nat) : Z := 2 ^ (32 * Z.of_nat n).

Lemma radix_succ n : radix (S n) = 2 ^ 32 * radix n.
Proof. unfold radix; rewrite <- Z.pow_add_r by lia; f_equal; lia. Qed.

Lemma radix_pos n : 0 < radix n.
Proof. apply pow2_pos; lia. Qed.

Lemma value_range m p n : all_words m -> 0 <= value m p n < radix n.
Proof.
  intros A; revert p; induction n as [|n IH]; intros p; cbn [value]; [cbn; lia|].
  rewrite radix_succ; pose proof (load_word m p A) as L; unfold word in L; specialize (IH (S p));
    lia.
Qed.

Lemma value_app m p j k : value m p (j + k) = value m p j + radix j * value m (p + j) k.
Proof.
  revert p; induction j as [|j IH]; intros p.
  - cbn [value Nat.add]; rewrite Nat.add_0_r; change (radix 0) with 1; lia.
  - cbn [value Nat.add]; rewrite IH, radix_succ; replace (S p + j)%nat with (p + S j)%nat by lia;
      ring.
Qed.

(** ** Addition, subtraction and negation *)

Lemma carry_step a b c :
  word a -> word b -> c = 0 \/ c = 1 ->
  let z := u32 (a + b + c) in
  let c' := if negb (z =? a) then b2z (z <? a) else c in
  word z /\ (c' = 0 \/ c' = 1) /\ z + 2 ^ 32 * c' = a + b + c.
Proof.
  intros Ha Hb Hc z c'; unfold word in *.
  assert (Hz : z = a + b + c \/ z = a + b + c - 2 ^ 32).
  { subst z; destruct (Z.lt_ge_cases (a + b + c) (2 ^ 32)); [left; apply u32_small; lia | right].
    unfold u32; rewrite <- (wrap_add 32 _ (-1)), wrap_small by lia; lia. }
  pose proof (u32_range (a + b + c)) as R; fold z in R; clearbody z.
  subst c'; destruct (Z.eqb_spec z a); cbn [negb]; [lia|].
  destruct (Z.ltb_spec z a); cbn [b2z]; lia.
Qed.

Lemma borrow_step a b c :
  word a -> word b -> c = 0 \/ c = 1 ->
  let z := u32 (a - b - c) in
  let c' := if nz c then b2z (a <=? b) else b2z (a <? b) in
  word z /\ (c' = 0 \/ c' = 1) /\ z - 2 ^ 32 * c' = a - b - c.
Proof.
  intros Ha Hb Hc z c'; unfold word in *.
  assert (Ec : c' = b2z (a - b - c <? 0)).
  { subst c'; destruct Hc as [-> | ->]; cbn [nz Z.eqb negb]; f_equal; apply eq_true_iff_eq;
      rewrite ?Z.leb_le, !Z.ltb_lt; lia. }
  clearbody c'; subst c' z; destruct (Z.ltb_spec (a - b - c) 0); cbn [b2z].
  - unfold u32; rewrite <- (wrap_add 32 _ 1), wrap_small by lia; lia.
  - rewrite u32_small by lia; lia.
Qed.

Lemma negate_step a c :
  word a -> c = 0 \/ c = 1 ->
  let z := u32 (u32 (.~ a) + c) in
  let c' := if nz z then 0 else c in
  word z /\ (c' = 0 \/ c' = 1) /\ z + 2 ^ 32 * c' = 2 ^ 32 - 1 - a + c.
Proof.
  intros Ha Hc z c'; subst z c'; unfold word in *.
  replace (u32 (.~ a)) with (2 ^ 32 - 1 - a) by (symmetry; apply (wrap_lnot 32); lia).
  destruct (Z.eq_dec (2 ^ 32 - 1 - a + c) (2 ^ 32)) as [E | N].
  - rewrite E; change (u32 (2 ^ 32)) with 0; cbn [nz Z.eqb negb]; lia.
  - rewrite (u32_small (_ + _)) by lia; unfold nz.
    destruct (Z.eqb_spec (2 ^ 32 - 1 - a + c) 0); cbn [negb]; lia.
Qed.

(** A word stored at [z] is not read again through [p]. *)
Definition clear_of (z p n : nat) : Prop := (z <= p \/ p + n < z)%nat.

Lemma value_store m z p n i v :
  (z + i < length m)%nat -> clear_of z p n ->
  value (store m (z + i) v) (p + (i + 1)) n = value m (p + (i + 1)) n.
Proof.
  unfold clear_of; intros Hl H; apply value_ext; intros j Hj; rewrite load_store by exact Hl.
  destruct (Nat.eqb_spec j (z + i)); [lia | reflexivity].
Qed.

Lemma value_step m p i n : value m (p + i) (S n) = load m (p + i) + 2 ^ 32 * value m (p + (i + 1)) n.
Proof. cbn [value]; replace (S (p + i)) with (p + (i + 1))%nat by lia; reflexivity. Qed.

(** One turn of a loop that stores word [i] and continues with the [n] above it. *)
Lemma loop_turn m z i n v m' :
  all_words m -> word v -> (z + i + n < length m)%nat ->
  only (z + (i + 1)) n (store m (z + i) v) m' ->
  only (z + i) (S n) m m' /\
  value m' (z + i) (S n) = v + 2 ^ 32 * value m' (z + (i + 1)) n.
Proof.
  intros A Wv Hl O; assert (S1 : only (z + i) (S n) m (store m (z + i) v))
    by (apply only_store; auto; lia).
  split; [apply (only_trans _ _ _ _ _ S1); revert O; apply only_weaken; lia|].
  cbn [value]; replace (S (z + i)) with (z + (i + 1))%nat by lia; do 2 f_equal.
  destruct O as (_ & _ & E); rewrite E, load_store, Nat.eqb_refl by lia; reflexivity.
Qed.

(** The last turn. *)
Lemma loop_end m z i v :
  all_words m -> word v -> (z + i < length m)%nat ->
  only (z + i) 1 m (store m (z + i) v) /\ value (store m (z + i) v) (z + i) 1 = v.
Proof.
  intros A Wv Hl; split; [apply only_store; auto; lia|].
  cbn [value]; rewrite load_store, Nat.eqb_refl by lia; lia.
Qed.

Lemma addM_loop_spec aPtr bPtr zPtr n m i c :
  all_words m -> c = 0 \/ c = 1 -> clear_of zPtr aPtr n -> clear_of zPtr bPtr n ->
  (zPtr + i + n < length m)%nat ->
  let m' := addM_loop aPtr bPtr zPtr n m i c in
  only (zPtr + i) (S n) m m' /\
  exists c', 0 <= c' /\
    value m' (zPtr + i) (S n) + radix (S n) * c'
    = value m (aPtr + i) (S n) + value m (bPtr + i) (S n) + c.
Proof.
  revert m i c; induction n as [|n IH]; intros m i c A Hc Ca Cb Hl; cbn [addM_loop].
  all: destruct (carry_step (load m (aPtr + i)) (load m (bPtr + i)) c) as (Wz & Hc' & E);
    auto with words.
  - destruct (loop_end m zPtr i _ A Wz ltac:(lia)) as [O V]; split; [exact O|].
    rewrite V; cbn [value]; change (radix 1) with (2 ^ 32); eexists; split; [|rewrite E; ring]; lia.
  - set (z := u32 _) in *; set (c1 := if negb _ then _ else _) in *; clearbody z c1.
    destruct (IH (store m (zPtr + i) z) (i + 1)%nat c1) as (O & c' & P & V); auto with words;
      try (unfold clear_of in *; lia); [rewrite length_store; lia|].
    destruct (loop_turn m zPtr i (S n) z _ A Wz ltac:(lia) O) as [O' V']; split; [exact O'|].
    exists c'; split; [exact P|]; rewrite !value_store in V by (assumption || lia).
    rewrite V', (radix_succ (S n)), (value_step m aPtr), (value_step m bPtr); lia.
Qed.

Lemma subM_loop_spec aPtr bPtr zPtr n m i c :
  all_words m -> c = 0 \/ c = 1 -> clear_of zPtr aPtr n -> clear_of zPtr bPtr n ->
  (zPtr + i + n < length m)%nat ->
  let m' := subM_loop aPtr bPtr zPtr n m i c in
  only (zPtr + i) (S n) m m' /\
  exists c',
    value m' (zPtr + i) (S n) - radix (S n) * c'
    = value m (aPtr + i) (S n) - value m (bPtr + i) (S n) - c.
Proof.
  revert m i c; induction n as [|n IH]; intros m i c A Hc Ca Cb Hl; cbn [subM_loop].
  all: destruct (borrow_step (load m (aPtr + i)) (load m (bPtr + i)) c) as (Wz & Hc' & E);
    auto with words.
  - destruct (loop_end m zPtr i _ A Wz ltac:(lia)) as [O V]; split; [exact O|].
    rewrite V; cbn [value]; change (radix 1) with (2 ^ 32); eexists; rewrite E; ring.
  - set (z := u32 _) in *; set (c1 := if nz _ then _ else _) in *; clearbody z c1.
    destruct (IH (store m (zPtr + i) z) (i + 1)%nat c1) as (O & c' & V); auto with words;
      try (unfold clear_of in *; lia); [rewrite length_store; lia|].
    destruct (loop_turn m zPtr i (S n) z _ A Wz ltac:(lia) O) as [O' V']; split; [exact O'|].
    exists c'; rewrite !value_store in V by (assumption || lia).
    rewrite V', (radix_succ (S n)), (value_step m aPtr), (value_step m bPtr); lia.
Qed.

Lemma negXM_loop_spec zPtr n m i c :
  all_words m -> c = 0 \/ c = 1 -> (zPtr + i + n < length m)%nat ->
  let m' := negXM_loop zPtr n m i c in
  only (zPtr + i) (S n) m m' /\
  exists c',
    value m' (zPtr + i) (S n) + radix (S n) * c' = radix (S n) - 1 - value m (zPtr + i) (S n) + c.
Proof.
  revert m i c; induction n as [|n IH]; intros m i c A Hc Hl; cbn [negXM_loop].
  all: destruct (negate_step (load m (zPtr + i)) c) as (Wz & Hc' & E); auto with words.
  - destruct (loop_end m zPtr i _ A Wz ltac:(lia)) as [O V]; split; [exact O|].
    rewrite V; cbn [value]; change (radix 1) with (2 ^ 32).
    set (c1 := if nz _ then _ else _) in *; exists c1; lia.
  - set (z := u32 _) in *; set (c1 := if nz _ then _ else _) in *; clearbody z c1.
    destruct (IH (store m (zPtr + i) z) (i + 1)%nat c1) as (O & c' & V); auto with words;
      [rewrite length_store; lia|].
    destruct (loop_turn m zPtr i (S n) z _ A Wz ltac:(lia) O) as [O' V']; split; [exact O'|].
    exists c'; rewrite value_store in V by (unfold clear_of; lia).
    rewrite V', (radix_succ (S n)), (value_step m zPtr); lia.
Qed.

(** The routines on [n] words, modulo the radix. *)
Lemma value_mod m p n x c : all_words m -> value m p n + radix n * c = x ->
  value m p n = x mod radix n.
Proof.
  intros A E; pose proof (value_range m p n A).
  apply (Z.mod_unique_pos x (radix n) c); [exact H | lia].
Qed.

Lemma addM_spec m n aPtr bPtr zPtr :
  (0 < n)%nat -> all_words m -> (zPtr + n <= length m)%nat ->
  clear_of zPtr aPtr (n - 1) -> clear_of zPtr bPtr (n - 1) ->
  let m' := softfloat_addM m n aPtr bPtr zPtr in
  only zPtr n m m' /\ value m' zPtr n = (value m aPtr n + value m bPtr n) mod radix n.
Proof.
  intros Hn A Hl Ca Cb; destruct n as [|n]; [lia|].
  unfold softfloat_addM; cbn [Nat.sub] in *; rewrite Nat.sub_0_r in *.
  destruct (addM_loop_spec aPtr bPtr zPtr n m 0 0) as (O & c' & _ & E); auto; [lia|].
  rewrite !Nat.add_0_r, Z.add_0_r in *; split; [exact O|].
  apply (value_mod _ _ _ _ c'); [apply O | exact E].
Qed.

Lemma subM_spec m n aPtr bPtr zPtr :
  (0 < n)%nat -> all_words m -> (zPtr + n <= length m)%nat ->
  clear_of zPtr aPtr (n - 1) -> clear_of zPtr bPtr (n - 1) ->
  let m' := softfloat_subM m n aPtr bPtr zPtr in
  only zPtr n m m' /\ value m' zPtr n = (value m aPtr n - value m bPtr n) mod radix n.
Proof.
  intros Hn A Hl Ca Cb; destruct n as [|n]; [lia|].
  unfold softfloat_subM; cbn [Nat.sub] in *; rewrite Nat.sub_0_r in *.
  destruct (subM_loop_spec aPtr bPtr zPtr n m 0 0) as (O & c' & E); auto; [lia|].
  rewrite !Nat.add_0_r, Z.sub_0_r in *; split; [exact O|].
  apply (value_mod _ _ _ _ (- c')); [apply O | lia].
Qed.

Lemma negXM_spec m n zPtr :
  (0 < n)%nat -> all_words m -> (zPtr + n <= length m)%nat ->
  let m' := softfloat_negXM m n zPtr in
  only zPtr n m m' /\ value m' zPtr n = (- value m zPtr n) mod radix n.
Proof.
  intros Hn A Hl; destruct n as [|n]; [lia|].
  unfold softfloat_negXM; cbn [Nat.sub]; rewrite Nat.sub_0_r.
  destruct (negXM_loop_spec zPtr n m 0 1) as (O & c' & E); auto; [lia|].
  rewrite !Nat.add_0_r in *; split; [exact O|].
  apply (value_mod _ _ _ _ (c' - 1)); [apply O | lia].
Qed.

(** ** Shifts to the right *)

Section ShiftRight.
Context (r : Z) (Hr : 1 <= r < 32).

Lemma shortShiftRightJamM_loop_spec aPtr zPtr n m i p :
  all_words m -> 0 <= p < 2 ^ (32 - r) -> clear_of zPtr aPtr n -> (zPtr + i + n < length m)%nat ->
  let m' := shortShiftRightJamM_loop aPtr r zPtr n m i p in
  only (zPtr + i) (S n) m m' /\
  value m' (zPtr + i) (S n) = p + 2 ^ (32 - r) * value m (aPtr + (i + 1)) n.
Proof using Hr.
  pose proof (pow2_le (32 - r) 32 ltac:(lia)).
  revert m i p; induction n as [|n IH]; intros m i p A Hp Ca Hl; cbn [shortShiftRightJamM_loop].
  - destruct (loop_end m zPtr i p A ltac:(unfold word; lia) ltac:(lia)) as [O V].
    split; [exact O|]; rewrite V; cbn [value]; lia.
  - pose proof (load_word m (aPtr + (i + 1)) A) as Ww; set (w := load m (aPtr + (i + 1))) in *.
    destruct (word_bounds w r Hr Ww) as [Hp' _].
    destruct (short_step r Hr p w (2 ^ (32 - r) * value m (aPtr + (i + 1 + 1)) n) Ww Hp) as [Wz E].
    set (z := u32 _ .| p) in *.
    destruct (IH (store m (zPtr + i) z) (i + 1)%nat (w .>> r)) as [O V]; auto with words;
      try (unfold clear_of in *; lia); [rewrite length_store; lia|].
    destruct (loop_turn m zPtr i (S n) z _ A Wz ltac:(lia) O) as [O' V']; split; [exact O'|].
    replace (aPtr + (i + 1 + 1))%nat with (aPtr + 1 + (i + 1))%nat in V by lia.
    rewrite value_store in V by (unfold clear_of in *; lia).
    replace (aPtr + 1 + (i + 1))%nat with (aPtr + (i + 1 + 1))%nat in V by lia.
    rewrite V', V, E, (value_step m aPtr (i + 1)); subst w; ring.
Qed.

Lemma shortShiftRightJamM_spec m n aPtr zPtr :
  (0 < n)%nat -> all_words m -> (zPtr + n <= length m)%nat -> clear_of zPtr aPtr (n - 1) ->
  let m' := softfloat_shortShiftRightJamM m n aPtr r zPtr in
  only zPtr n m m' /\ value m' zPtr n = jdiv (value m aPtr n) (2 ^ r).
Proof using Hr.
  intros Hn A Hl Ca; destruct n as [|n]; [lia|].
  unfold softfloat_shortShiftRightJamM; cbn [Nat.sub] in *; rewrite Nat.sub_0_r in *.
  pose proof (load_word m aPtr A) as Wa; rewrite jam_first_word by assumption.
  destruct (word_bounds _ r Hr Wa) as [_ J].
  destruct (shortShiftRightJamM_loop_spec aPtr zPtr n m 0 (jdiv (load m aPtr) (2 ^ r)))
    as [O V]; auto; [lia|].
  rewrite Nat.add_0_r in *; split; [exact O|]; rewrite V; cbn [value].
  rewrite jdiv_word_low by assumption; replace (aPtr + (0 + 1))%nat with (S aPtr) by lia;
    reflexivity.
Qed.

Lemma shortShiftRightM_spec m n aPtr zPtr :
  (0 < n)%nat -> all_words m -> (zPtr + n <= length m)%nat -> clear_of zPtr aPtr (n - 1) ->
  let m' := softfloat_shortShiftRightM m n aPtr r zPtr in
  only zPtr n m m' /\ value m' zPtr n = value m aPtr n / 2 ^ r.
Proof using Hr.
  intros Hn A Hl Ca; destruct n as [|n]; [lia|].
  unfold softfloat_shortShiftRightM; cbn [Nat.sub] in *; rewrite Nat.sub_0_r in *.
  change shortShiftRightM_loop with shortShiftRightJamM_loop.
  pose proof (load_word m aPtr A) as Wa; destruct (word_bounds _ r Hr Wa) as [J _].
  destruct (shortShiftRightJamM_loop_spec aPtr zPtr n m 0 (load m aPtr .>> r)) as [O V]; auto;
    [lia|].
  rewrite Nat.add_0_r in *; split; [exact O|]; rewrite V; cbn [value].
  replace (aPtr + (0 + 1))%nat with (S aPtr) by lia; rewrite shiftr_div, (pow2_split 32 r) by lia.
  rewrite <- Z.mul_assoc, (Z.mul_comm (2 ^ r)), Z.div_add by (apply Z.pow_nonzero; lia);
    reflexivity.
Qed.
End ShiftRight.

Lemma scan_spec m p n :
  all_words m -> nz (shiftRightJamM_scan m p n 0) = nz (value m p n).
Proof.
  intros A; revert p; induction n as [|n IH]; intros p; cbn [shiftRightJamM_scan value];
    [reflexivity|].
  pose proof (load_word m p A) as Wl; pose proof (value_range m (S p) n A).
  destruct (nz (load m p)) eqn:E.
  - rewrite E; symmetry; unfold nz, word in *; rewrite negb_true_iff, Z.eqb_neq in *; lia.
  - assert (E0 : load m p = 0) by (unfold nz in E; rewrite negb_false_iff, Z.eqb_eq in E; exact E).
    rewrite E0, Nat.add_1_r, IH; unfold nz; f_equal; apply eq_true_iff_eq; rewrite !Z.eqb_eq; lia.
Qed.

(** A loop turn that moves its pointers. *)
Lemma loop_start m p n v m' :
  all_words m -> word v -> (p + n < length m)%nat -> only (p + 1) n (store m p v) m' ->
  only p (S n) m m' /\ value m' p (S n) = v + 2 ^ 32 * value m' (p + 1) n.
Proof.
  intros A Wv Hl O; pose proof (loop_turn m p 0 n v m' A Wv) as T.
  rewrite Nat.add_0_r in T; exact (T Hl O).
Qed.

Lemma zero_words_spec m p n :
  all_words m -> (p + n <= length m)%nat ->
  only p n m (zero_words m p n) /\ value (zero_words m p n) p n = 0.
Proof.
  revert m p; induction n as [|n IH]; intros m p A Hl; cbn [zero_words]; [split;
    auto using only_refl|].
  assert (W0 : word 0) by (unfold word; lia).
  destruct (IH (store m p 0) (p + 1)%nat) as [O V]; auto with words; [rewrite length_store; lia|].
  destruct (loop_start m p n 0 _ A W0 ltac:(lia) O) as [O' V'].
  split; [exact O'|]; rewrite V', V; reflexivity.
Qed.

Lemma copy_words_spec m a p n :
  all_words m -> (p + n <= length m)%nat -> (p <= a)%nat ->
  only p n m (copy_words m a p n) /\ value (copy_words m a p n) p n = value m a n.
Proof.
  revert m a p; induction n as [|n IH]; intros m a p A Hl Hp; cbn [copy_words]; [split;
    auto using only_refl|].
  pose proof (load_word m a A) as Wa.
  destruct (IH (store m p (load m a)) (a + 1)%nat (p + 1)%nat) as [O V]; auto with words;
    [rewrite length_store; lia | lia|].
  destruct (loop_start m p n _ _ A Wa ltac:(lia) O) as [O' V'].
  split; [exact O'|]; rewrite V', V; cbn [value].
  rewrite (value_ext m); [rewrite Nat.add_1_r; reflexivity|].
  intros i Hi; rewrite load_store by lia; destruct (Nat.eqb_spec i p); [lia | reflexivity].
Qed.

Lemma nz_true x : x <> 0 -> nz x = true.
Proof. intros; unfold nz; rewrite (proj2 (Z.eqb_neq x 0)); auto. Qed.

Lemma jam_store m z n (b : bool) :
  (0 < n)%nat -> all_words m -> (z < length m)%nat ->
  let m' := if b then store m z (load m z .| 1) else m in
  only z n m m' /\ value m' z n = jam (value m z n) b.
Proof.
  intros Hn A Hl; destruct b; [|split; [apply only_refl; exact A | reflexivity]].
  pose proof (jam_word (load m z) true (load_word m z A)) as Wj; cbn [jam] in Wj.
  split; [apply only_store; auto; lia|]; destruct n as [|n]; [lia|]; cbn [value].
  rewrite load_store, Nat.eqb_refl, (value_ext m) by (first [exact Hl | intros i Hi;
    rewrite load_store by exact Hl; destruct (Nat.eqb_spec i z); [lia | reflexivity]]).
  change (_ .| 1) with (jam (load m z) true); rewrite !(Z.add_comm (_ m z)), (Z.add_comm (jam _ _)).
  apply jam_add; rewrite Z.mul_comm; apply even_mul_pow2; lia.
Qed.

Section ShiftRightJam.
Context (m : list Z) (n aPtr zPtr : nat) (dist : Z).
Hypothesis Hn : (0 < n)%nat.
Hypothesis Am : all_words m.
Hypothesis Hl : (zPtr + n <= length m)%nat.
Hypothesis Hp : (zPtr <= aPtr)%nat.

(** The words that survive the shift, moved into place. *)
Lemma shift_words wd r :
  (wd < n)%nat -> 0 <= r < 32 ->
  let m' := if nz r then softfloat_shortShiftRightJamM m (n - wd) (aPtr + wd) r zPtr
            else copy_words m (aPtr + wd) zPtr (n - wd) in
  only zPtr (n - wd) m m' /\
  value m' zPtr (n - wd) = jdiv (value m (aPtr + wd) (n - wd)) (2 ^ r).
Proof using All.
  intros Hw Hr; unfold nz; destruct (Z.eqb_spec r 0) as [-> | N]; cbn [negb].
  - rewrite Z.pow_0_r, jdiv_1; apply copy_words_spec; auto; lia.
  - apply shortShiftRightJamM_spec; auto; unfold clear_of; lia.
Qed.

(** Clearing the words above them and jamming. *)
Lemma clear_and_jam m' wd v (b : bool) :
  (wd <= n)%nat -> all_words m' -> length m' = length m -> only zPtr (n - wd) m m' ->
  value m' zPtr (n - wd) = v ->
  let m'' := zero_words m' (zPtr + (n - wd)) wd in
  let m3 := if b then store m'' zPtr (load m'' zPtr .| 1) else m'' in
  only zPtr n m m3 /\ value m3 zPtr n = jam v b.
Proof using All.
  intros Hw A L O V m'' m3.
  destruct (zero_words_spec m' (zPtr + (n - wd)) wd A ltac:(lia)) as [O1 V1]; fold m'' in O1, V1.
  destruct (jam_store m'' zPtr n b Hn ltac:(apply O1) ltac:(destruct O1; lia)) as [O2 V2];
    fold m3 in O2, V2.
  split.
  - apply (only_trans _ _ _ m'); [revert O; apply only_weaken; lia|].
    apply (only_trans _ _ _ m''); [revert O1; apply only_weaken; lia | exact O2].
  - rewrite V2; f_equal; replace n with (n - wd + wd)%nat at 1 by lia; rewrite value_app, V1.
    rewrite (only_value _ _ _ _ _ _ O1) by lia; lia.
Qed.

Lemma shiftRightJamM_spec :
  1 <= dist ->
  exists m', softfloat_shiftRightJamM m n aPtr dist zPtr = Some m' /\ only zPtr n m m' /\
    value m' zPtr n = jdiv (value m aPtr n) (2 ^ dist).
Proof using All.
  intros Hd; unfold softfloat_shiftRightJamM.
  change 31 with (2 ^ 5 - 1); rewrite land_ones_mod, shiftr_div by lia; change (2 ^ 5) with 32.
  set (wd := Z.to_nat (Z.min (dist / 32) (Z.of_nat n))).
  pose proof (Z.div_mod dist 32 ltac:(lia)) as D;
    pose proof (Z.mod_pos_bound dist 32 ltac:(lia)) as M.
  assert (Hw : (wd <= n)%nat) by (subst wd; lia).
  assert (Ew : Z.min (dist / 32) (Z.of_nat n) = Z.of_nat wd) by (subst wd; rewrite Z2Nat.id; lia).
  rewrite Ew; clearbody wd.
  set (r := dist - 32 * Z.of_nat wd).
  assert (R : 0 <= r /\ ((wd < n)%nat -> dist mod 32 = r)) by (subst r; lia); destruct R as [R0 R1].
  assert (J : jdiv (value m aPtr n) (2 ^ dist)
              = jam (jdiv (value m (aPtr + wd) (n - wd)) (2 ^ r)) (nz (value m aPtr wd))).
  { replace dist with (32 * Z.of_nat wd + r) by (subst r; lia).
    rewrite <- (jdiv_low _ _ (32 * Z.of_nat wd)) by (first [apply value_range; exact Am | lia]).
    fold (radix wd).
    rewrite <- value_app; do 2 f_equal; lia. }
  rewrite J; clear J.
  assert (B : nz (if nz (Z.of_nat wd) then shiftRightJamM_scan m aPtr wd 0 else 0)
              = nz (value m aPtr wd)).
  { destruct wd as [|w]; [reflexivity|]; change (nz (Z.of_nat (S w))) with true; cbv iota.
    apply scan_spec; exact Am. }
  rewrite B; set (b := nz (value m aPtr wd)) in *; clearbody b; clear B.
  destruct (Nat.ltb_spec wd n) as [L | L].
  - rewrite (R1 L) in *; destruct (shift_words wd r L ltac:(lia)) as [O V].
    destruct (clear_and_jam _ wd _ b Hw ltac:(apply O) ltac:(apply O) O V) as [O3 V3].
    eexists; split; [|split; [exact O3 | exact V3]].
    destruct wd as [|w]; [|change (nz (Z.of_nat (S w))) with true; destruct (nz r); reflexivity].
    assert (N : nz r = true) by (apply nz_true; subst r; lia); rewrite N; reflexivity.
  - assert (E : wd = n) by lia; subst wd.
    assert (O : only zPtr (n - n) m m) by (apply only_refl; exact Am).
    destruct (clear_and_jam m n (value m zPtr (n - n)) b Hw Am eq_refl O eq_refl) as [O3 V3].
    rewrite Nat.sub_diag, Nat.add_0_r in *; eexists; split; [|split; [exact O3|]].
    + replace (nz (Z.of_nat n)) with true by (symmetry; apply nz_true; lia); reflexivity.
    + rewrite V3; cbn [value]; unfold jdiv, inexact, jam at 2.
      rewrite Z.div_0_l, Z.mod_0_l by (apply Z.pow_nonzero; lia); reflexivity.
Qed.
End ShiftRightJam.

(** ** Shifts to the left *)

Lemma left_step w r part :
  1 <= r < 32 -> word w -> word part -> part mod 2 ^ r = 0 ->
  let z := part .| (w .>> (u32 (- r) .& 31)) in
  let part' := u32 (w .<< r) in
  word z /\ word part' /\ part' mod 2 ^ r = 0 /\ 2 ^ 32 * z + part' = 2 ^ 32 * part + 2 ^ r * w.
Proof.
  intros Hr Hw Hp Hm; unfold word in *; cbv zeta.
  replace (u32 (- r) .& 31) with (32 - r) by (symmetry; apply (neg_mod_mask 32 5); lia).
  rewrite shiftr_div, shiftl_mul by lia.
  pose proof (pow2_pos r ltac:(lia)); pose proof (pow2_pos (32 - r) ltac:(lia)).
  pose proof (pow2_split 32 r ltac:(lia)) as S.
  assert (Q : 0 <= w / 2 ^ (32 - r) < 2 ^ r)
    by (split; [apply Z.div_pos | apply Z.div_lt_upper_bound]; lia).
  assert (P : part = part / 2 ^ r * 2 ^ r) by (rewrite (Z.div_mod part (2 ^ r)) at 1 by lia; lia).
  replace (part .| w / 2 ^ (32 - r)) with (part + w / 2 ^ (32 - r))
    by (rewrite P; symmetry; apply lor_add_disjoint; lia).
  assert (E : u32 (w * 2 ^ r) = w mod 2 ^ (32 - r) * 2 ^ r).
  { unfold u32, wrap; rewrite S at 1; rewrite (Z.mul_comm (2 ^ r)).
    apply Z.mul_mod_distr_r; apply Z.pow_nonzero; lia. }
  rewrite E; pose proof (Z.mod_pos_bound w (2 ^ (32 - r)) ltac:(lia)).
  pose proof (Z.div_mod w (2 ^ (32 - r)) ltac:(lia)) as D.
  set (h := w / 2 ^ (32 - r)) in *; set (l := w mod 2 ^ (32 - r)) in *; clearbody h l.
  assert (U : part / 2 ^ r + 1 <= 2 ^ (32 - r)).
  { assert (part / 2 ^ r < 2 ^ (32 - r)) by (apply Z.div_lt_upper_bound; lia); lia. }
  apply (Z.mul_le_mono_nonneg_r _ _ (2 ^ r)) in U; [|lia].
  assert (L : (l + 1) * 2 ^ r <= 2 ^ (32 - r) * 2 ^ r) by (apply Z.mul_le_mono_nonneg_r; lia).
  split; [lia|]; split; [split; [nia | lia]|]; split.
  - apply Z.mod_mul; lia.
  - rewrite D, S; ring.
Qed.

Lemma value_last m p n : value m p (S n) = value m p n + radix n * load m (p + n).
Proof. rewrite <- Nat.add_1_r, value_app; cbn [value]; lia. Qed.

Lemma shortShiftLeftM_loop_spec r aPtr zPtr m i part :
  1 <= r < 32 -> all_words m -> (aPtr <= zPtr)%nat -> (zPtr + i < length m)%nat ->
  word part -> part mod 2 ^ r = 0 ->
  let m' := shortShiftLeftM_loop aPtr r zPtr m i part in
  only zPtr (S i) m m' /\ value m' zPtr (S i) = part * radix i + 2 ^ r * value m aPtr i.
Proof.
  intros Hr; revert m part; induction i as [|i IH]; intros m part A Ha Hl Wp Mp;
    cbn [shortShiftLeftM_loop].
  - destruct (loop_end m zPtr 0 part A Wp ltac:(lia)) as [O V]; rewrite Nat.add_0_r in *.
    split; [exact O|]; rewrite V; cbn [value]; change (radix 0) with 1; lia.
  - destruct (left_step (load m (aPtr + i)) r part Hr (load_word m _ A) Wp Mp) as (Wz & Wq & Mq & E).
    set (z := part .| _) in *; set (part' := u32 (_ .<< r)) in *; clearbody z part'.
    destruct (IH (store m (zPtr + S i) z) part') as [O V]; auto with words; [rewrite length_store;
      lia|].
    split.
    + apply (only_trans _ _ _ (store m (zPtr + S i) z)); [apply only_store; auto; lia|].
      revert O; apply only_weaken; lia.
    + rewrite value_last, V; destruct O as (_ & _ & O).
      rewrite O, load_store, Nat.eqb_refl by lia.
      rewrite (value_ext m (store m (zPtr + S i) z)).
      * rewrite (value_last m aPtr), radix_succ; nia.
      * intros j Hj; rewrite load_store by lia; destruct (Nat.eqb_spec j (zPtr + S i));
          [lia | reflexivity].
Qed.

Lemma shortShiftLeftM_spec r m n aPtr zPtr :
  1 <= r < 32 -> (0 < n)%nat -> all_words m -> (zPtr + n <= length m)%nat -> (aPtr <= zPtr)%nat ->
  let m' := softfloat_shortShiftLeftM m n aPtr r zPtr in
  only zPtr n m m' /\ value m' zPtr n = (value m aPtr n * 2 ^ r) mod radix n.
Proof.
  intros Hr Hn A Hl Ha; destruct n as [|n]; [lia|].
  unfold softfloat_shortShiftLeftM; cbn [Nat.sub]; rewrite Nat.sub_0_r.
  assert (Z0 : word 0) by (unfold word; lia).
  assert (M0 : 0 mod 2 ^ r = 0) by (apply Z.mod_0_l, Z.pow_nonzero; lia).
  destruct (left_step (load m (aPtr + n)) r 0 Hr (load_word m _ A) Z0 M0) as (_ & Wq & Mq & E).
  destruct (shortShiftLeftM_loop_spec r aPtr zPtr m n _ Hr A Ha ltac:(lia) Wq Mq) as [O V].
  split; [exact O|]; set (q := u32 (_ .<< r)) in *; set (z := 0 .| _) in *; clearbody q z.
  apply (value_mod _ _ _ _ z); [apply O|].
  rewrite V, value_last, radix_succ; nia.
Qed.

Lemma copy_words_down_spec m a z n :
  all_words m -> (z + n <= length m)%nat -> (a <= z)%nat ->
  let m' := copy_words_down m (a + n - 1) (z + n - 1) n in
  only z n m m' /\ value m' z n = value m a n.
Proof.
  revert m; induction n as [|n IH]; intros m A Hl Ha; cbn [copy_words_down];
    [split; [apply only_refl; exact A | reflexivity]|].
  replace (a + S n - 1)%nat with (a + n)%nat by lia;
    replace (z + S n - 1)%nat with (z + n)%nat by lia.
  pose proof (load_word m (a + n) A) as Wv; set (v := load m (a + n)) in *.
  destruct (IH (store m (z + n) v)) as [O V]; auto with words; [rewrite length_store; lia|].
  split.
  - apply (only_trans _ _ _ (store m (z + n) v)); [apply only_store; auto; lia|].
    revert O; apply only_weaken; lia.
  - rewrite value_last, V; destruct O as (_ & _ & O); rewrite O, load_store, Nat.eqb_refl by lia.
    rewrite (value_ext m (store m (z + n) v)); [rewrite value_last; reflexivity|].
    intros j Hj; rewrite load_store by lia; destruct (Nat.eqb_spec j (z + n)); [lia | reflexivity].
Qed.

Section ShiftLeft.
Context (m : list Z) (n aPtr zPtr : nat) (dist : Z).
Hypothesis Hn : (0 < n)%nat.
Hypothesis Am : all_words m.
Hypothesis Hl : (zPtr + n <= length m)%nat.
Hypothesis Hp : (aPtr <= zPtr)%nat.

Lemma shift_words_left wd r :
  (wd < n)%nat -> 0 <= r < 32 ->
  let m' := if nz r then softfloat_shortShiftLeftM m (n - wd) aPtr r (zPtr + wd)
            else copy_words_down m (aPtr + (n - wd - 1)) (zPtr + (n - 1)) (n - wd) in
  only (zPtr + wd) (n - wd) m m' /\
  value m' (zPtr + wd) (n - wd) = (value m aPtr (n - wd) * 2 ^ r) mod radix (n - wd).
Proof using All.
  intros Hw Hr; unfold nz; destruct (Z.eqb_spec r 0) as [-> | N]; cbn [negb].
  - rewrite Z.pow_0_r, Z.mul_1_r, Z.mod_small by (apply value_range; exact Am).
    replace (aPtr + (n - wd - 1))%nat with (aPtr + (n - wd) - 1)%nat by lia.
    replace (zPtr + (n - 1))%nat with (zPtr + wd + (n - wd) - 1)%nat by lia.
    apply copy_words_down_spec; auto; lia.
  - apply shortShiftLeftM_spec; auto; lia.
Qed.

(** The shifted words above [wd] zeros. *)
Lemma value_shifted wd r V :
  (wd <= n)%nat -> 0 <= r ->
  radix wd * ((V mod radix (n - wd) * 2 ^ r) mod radix (n - wd))
  = (V * 2 ^ (32 * Z.of_nat wd + r)) mod radix n.
Proof using All.
  intros Hw Hr; pose proof (radix_pos wd); pose proof (radix_pos (n - wd)).
  rewrite Z.mul_mod_idemp_l, <- Z.mul_mod_distr_l by lia.
  assert (E : radix wd * radix (n - wd) = radix n)
    by (unfold radix; rewrite <- Z.pow_add_r by lia; f_equal; lia).
  rewrite E, Z.pow_add_r by lia; fold (radix wd); f_equal; ring.
Qed.

Lemma shiftLeftM_spec :
  1 <= dist ->
  exists m', softfloat_shiftLeftM m n aPtr dist zPtr = Some m' /\ only zPtr n m m' /\
    value m' zPtr n = (value m aPtr n * 2 ^ dist) mod radix n.
Proof using All.
  intros Hd; unfold softfloat_shiftLeftM.
  change 31 with (2 ^ 5 - 1); rewrite land_ones_mod, shiftr_div by lia; change (2 ^ 5) with 32.
  pose proof (Z.div_mod dist 32 ltac:(lia)) as D;
    pose proof (Z.mod_pos_bound dist 32 ltac:(lia)) as M.
  set (r := dist mod 32) in *; set (wd := Z.to_nat (dist / 32)).
  assert (Ew : dist / 32 = Z.of_nat wd) by (subst wd; rewrite Z2Nat.id; lia).
  rewrite Ew in *; clearbody wd r; destruct (Z.ltb_spec (Z.of_nat wd) (Z.of_nat n)) as [L | L].
  - destruct (shift_words_left wd r ltac:(lia) M) as [O V]; set (m1 := if nz r then _ else _) in *.
    destruct (zero_words_spec m1 zPtr wd ltac:(apply O) ltac:(destruct O; lia)) as [O1 V1].
    exists (zero_words m1 zPtr wd); split; [|split].
    + destruct wd as [|w]; [|destruct (nz r); reflexivity].
      assert (N : nz r = true) by (apply nz_true; lia); subst m1; rewrite N; reflexivity.
    + apply (only_trans _ _ _ m1); [revert O | revert O1]; apply only_weaken; lia.
    + replace n with (wd + (n - wd))%nat at 1 by lia.
      rewrite value_app, V1, (only_value _ _ _ _ _ _ O1), V by lia.
      assert (Ev : value m aPtr (n - wd) = value m aPtr n mod radix (n - wd)).
      { replace n with (n - wd + wd)%nat at 2 by lia; rewrite value_app, Z.mul_comm, Z.mod_add
          by (pose proof (radix_pos (n - wd)); lia).
        symmetry; apply Z.mod_small, value_range, Am. }
      rewrite Ev, Z.add_0_l, value_shifted by lia; do 3 f_equal; lia.
  - destruct n as [|k]; [lia|]; set (n' := S k) in *.
    destruct (zero_words_spec m zPtr n' Am Hl) as [O V].
    exists (zero_words m zPtr n'); split; [reflexivity|]; split; [exact O|]; rewrite V; symmetry.
    replace dist with (32 * Z.of_nat n' + (dist - 32 * Z.of_nat n')) by lia.
    rewrite Z.pow_add_r by lia; fold (radix n').
    rewrite Z.mul_assoc, (Z.mul_comm _ (radix n')), <- Z.mul_assoc, Z.mul_comm.
    apply Z.mod_mul; pose proof (radix_pos n'); lia.
Qed.
End ShiftLeft.

(** ** Arrays given by their words *)

Lemma value_words l : value l 0 (length l) = words l.
Proof.
  assert (G : forall p q, value (p ++ q) (length p) (length q) = words q).
  { intros p q; revert p; induction q as [|x q IH]; intros p; cbn [length value words];
      [reflexivity|].
    unfold load; rewrite nth_middle; specialize (IH (p ++ [x])).
    rewrite <- app_assoc, length_app, Nat.add_1_r in IH; cbn [app] in IH; rewrite IH; reflexivity. }
  exact (G [] l).
Qed.

(** ** Theorem *)

(** The multiword primitives compute addition, subtraction and negation modulo the radix,
    the left shift modulo the radix, and the right shift with the lost bits jammed into the
    lowest one, for arrays of any size, whether the operands are disjoint or overlap as the
    callers make them, and change no word outside the result.  The two shifts by a variable
    distance return for every distance but zero. *)
Lemma multiword_correct m n aPtr bPtr zPtr dist :
  (0 < n)%nat -> all_words m -> (zPtr <= aPtr)%nat -> (zPtr <= bPtr)%nat ->
  (aPtr + n <= length m)%nat -> 1 <= dist ->
  (let m' := softfloat_addM m n aPtr bPtr zPtr in
   only zPtr n m m' /\ value m' zPtr n = (value m aPtr n + value m bPtr n) mod radix n) /\
  (let m' := softfloat_subM m n aPtr bPtr zPtr in
   only zPtr n m m' /\ value m' zPtr n = (value m aPtr n - value m bPtr n) mod radix n) /\
  (let m' := softfloat_negXM m n zPtr in
   only zPtr n m m' /\ value m' zPtr n = (- value m zPtr n) mod radix n) /\
  (exists m', softfloat_shiftRightJamM m n aPtr dist zPtr = Some m' /\
   only zPtr n m m' /\ value m' zPtr n = jdiv (value m aPtr n) (2 ^ dist)) /\
  (exists m', softfloat_shiftLeftM m n zPtr dist aPtr = Some m' /\
   only aPtr n m m' /\ value m' aPtr n = (value m zPtr n * 2 ^ dist) mod radix n).
Proof.
  intros Hn A Ha Hb Hl Hd.
  split; [apply addM_spec; auto; unfold clear_of; lia|].
  split; [apply subM_spec; auto; unfold clear_of; lia|].
  split; [apply negXM_spec; auto; lia|].
  split; [apply shiftRightJamM_spec; auto; lia | apply shiftLeftM_spec; auto].
Qed.
