(* ===== verification/SfToInt.v ===== *)
(** * SoftFloat: conversion of a double to an unsigned 64-bit integer

    [s_roundMToUI64.c] and [f64_to_ui64.c], on the multiword integers of [SfWords]. *)

From S2P Require Import Prelude FpSpec FpTheory SfEnv SfPrim SfRound SfAdd SfMul SfConvert.
From S2P Require Import SfWords.
From Stdlib Require Import ZArith Lia Bool List.
Import ListNotations.

(** ** Definitions *)

Definition ui64_fromPosOverflow : Z := 0xFFFFFFFFFFFFFFFF.
Definition ui64_fromNegOverflow : Z := 0.
Definition ui64_fromNaN : Z := 0xFFFFFFFFFFFFFFFF.

(** The labels of [softfloat_roundMToUI64]: [invalid], the code after the conditional, and
    [increment]. *)
Definition roundMToUI64_invalid (sign : bool) : fp Z :=
  softfloat_raiseFlags softfloat_flag_invalid ;;;
  ret (if sign then ui64_fromNegOverflow else ui64_fromPosOverflow).

Definition roundMToUI64_finish (sign : bool) (sigExtra : Z) (exact : bool) (sig : Z) : fp Z :=
  if sign && nz sig then roundMToUI64_invalid sign
  else raise_if (nz sigExtra && exact) softfloat_flag_inexact ;;; ret sig.

Definition roundMToUI64_increment (sign : bool) (sigExtra roundingMode : Z) (exact : bool)
    (sig : Z) : fp Z :=
  let sig := u64 (sig + 1) in
  if negb (nz sig) then roundMToUI64_invalid sign
  else
    roundMToUI64_finish sign sigExtra exact
      (if (sigExtra =? 0x80000000) && (roundingMode =? softfloat_round_near_even)
       then sig .& u64 (.~ 1) else sig).

Definition softfloat_roundMToUI64 (sign : bool) (extSigPtr : list Z) (roundingMode : Z)
    (exact : bool) : fp Z :=
  let sig := u64 (load extSigPtr 2 .<< 32) .| load extSigPtr 1 in
  let sigExtra := load extSigPtr 0 in
  let finish := roundMToUI64_finish sign sigExtra exact in
  let increment := roundMToUI64_increment sign sigExtra roundingMode exact in
  if (roundingMode =? softfloat_round_near_maxMag) || (roundingMode =? softfloat_round_near_even)
  then if 0x80000000 <=? sigExtra then increment sig else finish sig
  else if sign then
    if negb (nz (sig .| sigExtra)) then ret 0
    else if roundingMode =? softfloat_round_min then roundMToUI64_invalid sign
    else finish sig
  else
    if (roundingMode =? softfloat_round_max) && nz sigExtra then increment sig
    else finish sig.

Definition f64_to_ui64 (a : Z) (roundingMode : Z) (exact : bool) : fp Z :=
  let uiA := a in
  let sign := signF64UI uiA in
  let exp := expF64UI uiA in
  let sig := fracF64UI uiA in
  let sig := if nz exp then sig .| 0x0010000000000000 else sig in
  let shiftDist := 0x433 - exp in
  if shiftDist <=? 0 then
    if shiftDist <? -11 then
      softfloat_raiseFlags softfloat_flag_invalid ;;;
      ret (if (exp =? 0x7FF) && nz (fracF64UI uiA) then ui64_fromNaN
           else if sign then ui64_fromNegOverflow else ui64_fromPosOverflow)
    else
      let sig := u64 (sig .<< (- shiftDist)) in
      softfloat_roundMToUI64 sign [0; u32 sig; u32 (sig .>> 32)] roundingMode exact
  else
    match softfloat_shiftRightJamM [0; u32 sig; u32 (sig .>> 32)] 3 0 shiftDist 0 with
    | Some extSig => softfloat_roundMToUI64 sign extSig roundingMode exact
    | None => ret 0
    end.

(** ** Shifting with jamming *)

(** The shift of three words by any distance but zero is the jammed quotient. *)
Lemma shiftRightJam96M_spec a b c dist :
  word a -> word b -> word c -> 1 <= dist ->
  exists x y z, softfloat_shiftRightJamM [a; b; c] 3 0 dist 0 = Some [x; y; z] /\
    word x /\ word y /\ word z /\ words [x; y; z] = jdiv (words [a; b; c]) (2 ^ dist).
Proof.
  intros Ha Hb Hc Hd; assert (A : all_words [a; b; c]) by (unfold all_words; auto).
  destruct (shiftRightJamM_spec [a; b; c] 3 0 0 dist ltac:(lia) A ltac:(cbn; lia) ltac:(lia) Hd)
    as (m' & E & (L & A' & _) & V).
  destruct m' as [|x [|y [|z [|]]]]; try discriminate L; exists x, y, z.
  unfold all_words in A'; rewrite !Forall_cons_iff in A'; destruct A' as (? & ? & ? & _); auto.
Qed.

(** ** Rounding the extended significand *)

Lemma rint_up rm s n x :
  0 <= x < 2 ^ 32 ->
  rint rm s (n * 2 ^ 32 + x) (2 ^ 32) = n + b2z (rounds_up rm s n x (2 ^ 32)) /\
  inexact (n * 2 ^ 32 + x) (2 ^ 32) = nz x.
Proof.
  intros Hx; unfold rint, inexact.
  rewrite (Z.add_comm (n * _)), Z.div_add, Z.mod_add, Z.div_small, Z.mod_small by lia; auto.
Qed.

Section RoundM.
Context (sign : bool) (x rm : Z) (exact : bool) (env fl : Z) (Hx : word x).

(** The clipped integer result [n] with its flags. *)
Definition ui64_result (n : Z) : Z * Z :=
  if (2 ^ 64 <=? n) || (sign && nz n)
  then (if sign then 0 else 2 ^ 64 - 1, fl .| softfloat_flag_invalid)
  else (n, fl .| (if exact && nz x then softfloat_flag_inexact else 0)).

Lemma finish_spec sig :
  0 <= sig < 2 ^ 64 -> roundMToUI64_finish sign x exact sig env fl = ui64_result sig.
Proof using Type.
  intros Hs; unfold roundMToUI64_finish, ui64_result.
  rewrite (proj2 (Z.leb_gt (2 ^ 64) sig)) by lia; cbn [orb].
  destruct (sign && nz sig); [reflexivity|]; unfold bind; rewrite raise_if_eq, andb_comm.
  reflexivity.
Qed.

Lemma increment_spec sig :
  0 <= sig < 2 ^ 64 ->
  roundMToUI64_increment sign x rm exact sig env fl
  = ui64_result (if (x =? 0x80000000) && (rm =? softfloat_round_near_even)
                 then sig + 1 - (sig + 1) mod 2 else sig + 1).
Proof using Type.
  intros Hs; unfold roundMToUI64_increment.
  destruct (Z.eq_dec sig (2 ^ 64 - 1)) as [-> | N].
  - change (u64 (2 ^ 64 - 1 + 1)) with 0; change (2 ^ 64 - 1 + 1) with (2 ^ 64).
    change (2 ^ 64 - 2 ^ 64 mod 2) with (2 ^ 64); rewrite !if_same; reflexivity.
  - rewrite u64_small by lia; unfold nz; rewrite (proj2 (Z.eqb_neq (sig + 1) 0)) by lia.
    cbn [negb]; unfold u64 at 1; change (.~ 1) with (.~ b2z true).
    rewrite land_not_b2z by lia; rewrite finish_spec; [reflexivity|].
    pose proof (Z.mod_pos_bound (sig + 1) 2 ltac:(lia)); destruct (_ && _); lia.
Qed.
End RoundM.

Lemma roundMToUI64_spec sign x y z rm exact env fl :
  word x -> word y -> word z ->
  let v := words [x; y; z] in
  softfloat_roundMToUI64 sign [x; y; z] rm exact env fl
  = ui64_result sign x exact fl (rint rm sign v (2 ^ 32)) /\ inexact v (2 ^ 32) = nz x.
Proof.
  intros Hx Hy Hz v; unfold word in *; unfold softfloat_roundMToUI64, load; cbn [nth].
  rewrite u64_shl32, Z.mod_small, lor_add_disjoint by lia.
  set (sig := z * 2 ^ 32 + y).
  assert (Ev : v = sig * 2 ^ 32 + x) by (subst v sig; cbn [words]; ring).
  assert (Rs : 0 <= sig < 2 ^ 64) by (subst sig; lia).
  destruct (rint_up rm sign sig x Hx) as [En Ei]; rewrite Ev, En, Ei; split; [|reflexivity].
  clearbody sig; clear Ev En Ei v; unfold rounds_up; rewrite nz_lor, odd_mod2.
  destruct (Z.eqb_spec rm softfloat_round_near_even) as [-> | N0].
  - cbn [Z.eqb softfloat_round_near_even softfloat_round_near_maxMag orb].
    destruct (Z.leb_spec 0x80000000 x).
    + rewrite increment_spec by assumption; f_equal.
      destruct (Z.eqb_spec x 0x80000000), (Z.ltb_spec (2 ^ 32) (2 * x)), (Z.eqb_spec (2 * x) (2 ^ 32));
        try lia; cbn [andb orb Z.b2z softfloat_round_near_even Z.eqb]; try lia.
      destruct (Z.eqb_spec (sig mod 2) 1); cbn [Z.b2z]; Z.div_mod_to_equations; lia.
    + rewrite finish_spec by assumption; f_equal.
      rewrite (proj2 (Z.ltb_ge (2 ^ 32) _)), (proj2 (Z.eqb_neq (2 * x) _)) by lia; bsimpl; lia.
  - rewrite orb_false_r; destruct (rm =? softfloat_round_near_maxMag).
    + assert (E : (0x80000000 <=? x) = (2 ^ 32 <=? 2 * x))
        by (apply eq_true_iff_eq; rewrite !Z.leb_le; lia).
      rewrite E; destruct (2 ^ 32 <=? 2 * x).
      * rewrite increment_spec, (proj2 (Z.eqb_neq rm _)), andb_false_r by assumption; reflexivity.
      * rewrite finish_spec by assumption; f_equal; bsimpl; lia.
    + unfold nz; destruct sign, (Z.eqb_spec rm softfloat_round_min) as [-> | N2];
        cbn [andb negb orb]; rewrite ?if_same; cbn [Z.b2z]; rewrite ?Z.add_0_r.
      * unfold ui64_result, nz; destruct (Z.eqb_spec sig 0) as [-> | S0], (Z.eqb_spec x 0);
          cbn [negb orb Z.b2z]; rewrite ?andb_false_r;
          rewrite ?(proj2 (Z.eqb_neq (_ + _) 0)) by lia; cbn; rewrite ?orb_true_r, ?Z.lor_0_r;
          reflexivity.
      * destruct (Z.eqb_spec sig 0) as [-> | S0], (Z.eqb_spec x 0) as [-> | X0]; cbn [negb orb];
          rewrite ?finish_spec by lia; try reflexivity.
        unfold ui64_result; cbn; rewrite andb_false_r, Z.lor_0_r; reflexivity.
      * apply finish_spec; assumption.
      * destruct ((rm =? softfloat_round_max) && negb (x =? 0)) eqn:E.
        -- rewrite increment_spec, (proj2 (Z.eqb_neq rm softfloat_round_near_even)), andb_false_r
             by assumption.
           breflect; rewrite (proj2 (Z.eqb_eq rm _)), (proj2 (Z.eqb_neq x 0)) by assumption.
           reflexivity.
        -- rewrite finish_spec by assumption; f_equal.
           destruct (rm =? softfloat_round_max); cbn [andb] in E; rewrite ?E; cbn [Z.b2z]; lia.
Qed.

(** ** The conversion *)

Lemma mag_f64_scaled a :
  fexp F64 a <> 0x7FF ->
  let sig := if nz (fexp F64 a) then ffrac F64 a .| 0x0010000000000000 else ffrac F64 a in
  0 <= sig < 2 ^ 53 /\
  (1 <= fexp F64 a -> mag F64 a = sig * 2 ^ (fexp F64 a - 1)) /\ (fexp F64 a = 0 -> mag F64 a = sig).
Proof.
  intros H; pose proof (ffrac_range F64 a ltac:(cbn; lia)) as R; cbn [fbits F64] in R.
  unfold nz, mag; cbn [fbits F64].
  destruct (Z.eqb_spec (fexp F64 a) 0); cbn [negb]; [lia|].
  change 0x0010000000000000 with (2 ^ 52); rewrite lor_pow2 by lia.
  repeat split; try lia; intros; f_equal; lia.
Qed.

(** The extended significand after alignment rounds as the number does. *)
Lemma ext_sig_left rm s a k :
  fexp F64 a <> 0x7FF -> 0x433 <= fexp F64 a -> k = fexp F64 a - 0x433 ->
  let sig := if nz (fexp F64 a) then ffrac F64 a .| 0x0010000000000000 else ffrac F64 a in
  rint rm s (sig * 2 ^ k * 2 ^ 32) (2 ^ 32) = rint rm s (mag F64 a) (2 ^ one_exp F64) /\
  inexact (sig * 2 ^ k * 2 ^ 32) (2 ^ 32) = inexact (mag F64 a) (2 ^ one_exp F64).
Proof.
  intros Hi He ->; cbv zeta; destruct (mag_f64_scaled a Hi) as (_ & M & _).
  rewrite M by lia; set (sig := if nz _ then _ else _); change (one_exp F64) with 1074.
  assert (E : sig * 2 ^ (fexp F64 a - 1) = sig * 2 ^ (fexp F64 a - 0x433) * 2 ^ 1074)
    by (rewrite <- Z.mul_assoc, <- Z.pow_add_r by lia; do 2 f_equal; lia).
  rewrite E; split; [apply rint_ratio | apply inexact_ratio]; try lia; ring.
Qed.

Lemma ext_sig_right rm s a :
  fexp F64 a < 0x433 ->
  let sig := if nz (fexp F64 a) then ffrac F64 a .| 0x0010000000000000 else ffrac F64 a in
  let v := jdiv (sig * 2 ^ 32) (2 ^ (0x433 - fexp F64 a)) in
  rint rm s v (2 ^ 32) = rint rm s (mag F64 a) (2 ^ one_exp F64) /\
  inexact v (2 ^ 32) = inexact (mag F64 a) (2 ^ one_exp F64).
Proof.
  intros He; cbv zeta; pose proof (fexp_range F64 a ltac:(cbn; lia)).
  destruct (mag_f64_scaled a ltac:(lia)) as (Rs & M & M0).
  set (sig := if nz _ then _ else _) in *; change (one_exp F64) with 1074.
  pose proof (pow2_pos (0x433 - fexp F64 a) ltac:(lia)).
  rewrite <- rint_jam, <- inexact_jam by lia.
  rewrite (rint_ratio rm s _ _ sig (2 ^ (0x433 - fexp F64 a))) by nia.
  rewrite (inexact_ratio _ _ sig (2 ^ (0x433 - fexp F64 a))) by nia.
  destruct (Z.eq_dec (fexp F64 a) 0) as [E | E].
  - rewrite M0, E by assumption; change (0x433 - 0) with 1075.
    destruct (Z.eq_dec sig 0) as [-> | N]; [rewrite !rint_exact by (try reflexivity; lia); auto|].
    rewrite !rint_small by lia; unfold inexact; rewrite !Z.mod_small by lia; auto.
  - rewrite M by lia.
    assert (X : 2 ^ 1074 = 2 ^ (fexp F64 a - 1) * 2 ^ (0x433 - fexp F64 a))
      by (rewrite <- Z.pow_add_r by lia; f_equal; lia).
    pose proof (pow2_pos (fexp F64 a - 1) ltac:(lia)).
    rewrite X; split; [apply rint_ratio | apply inexact_ratio]; try nia; ring.
Qed.

(** Beyond the alignable exponents the value is out of range. *)
Lemma too_large rm s a :
  0x43E < fexp F64 a < 0x7FF -> 2 ^ 64 <= rint rm s (mag F64 a) (2 ^ one_exp F64).
Proof.
  intros He; destruct (mag_f64_scaled a ltac:(lia)) as (_ & M & _).
  pose proof (ffrac_range F64 a ltac:(cbn; lia)) as R; cbn [fbits F64] in R.
  change (one_exp F64) with 1074; pose proof (rint_range rm s (mag F64 a) (2 ^ 1074) ltac:(lia)).
  enough (2 ^ 64 <= mag F64 a / 2 ^ 1074) by lia; apply Z.div_le_lower_bound; [lia|].
  unfold mag; rewrite (proj2 (Z.eqb_neq _ 0)) by lia; cbn [fbits F64].
  transitivity (2 ^ 52 * 2 ^ (0x43F - 1)); [cbn; lia|].
  apply Z.mul_le_mono_nonneg; try apply Z.pow_le_mono_r; lia.
Qed.

Lemma words_shifted z : 0 <= z < 2 ^ 64 ->
  word (u32 z) /\ word (u32 (z .>> 32)) /\ words [0; u32 z; u32 (z .>> 32)] = z * 2 ^ 32.
Proof.
  intros H; pose proof (u32_split z H) as S; split; [apply u32_range|]; split; [apply u32_range|].
  cbn [words]; lia.
Qed.

Lemma f64_to_ui64_spec a rm exact :
  0 <= a < 0x10000000000000000 ->
  meets (f64_to_ui64 a rm exact) (fun _ => ieee_to_uint F64 64 exact rm a).
Proof.
  intros Ha env fl; unfold f64_to_ui64; cbv zeta; autorewrite with sf_fields.
  pose proof (fexp_range F64 a ltac:(cbn; lia)) as Re; change (emax F64) with 0x7FF in Re.
  pose proof (ffrac_range F64 a ltac:(cbn; lia)) as Rf; cbn [fbits F64] in Rf.
  unfold ieee_to_uint.
  destruct (Z.leb_spec (0x433 - fexp F64 a) 0); [destruct (Z.ltb_spec (0x433 - fexp F64 a) (-11))|].
  - unnz (ffrac F64 a); destruct (Z.eqb_spec (fexp F64 a) 0x7FF) as [I | I]; cbn [andb].
    + destruct (Z.eqb_spec (ffrac F64 a) 0); classify F64 a; cbn [orb negb];
        destruct (fsign F64 a); reflexivity.
    + classify F64 a; cbn [orb]; rewrite (proj2 (Z.leb_le (2 ^ 64) _)) by (apply too_large; lia).
      destruct (fsign F64 a); reflexivity.
  - classify F64 a; cbn [orb].
    destruct (mag_f64_scaled a ltac:(lia)) as (Rs & _ & _).
    destruct (ext_sig_left rm (fsign F64 a) a (- (0x433 - fexp F64 a)) ltac:(lia) ltac:(lia) ltac:(lia))
      as [En Ei].
    set (sig := if nz _ then _ else _) in *.
    assert (0 <= sig * 2 ^ (- (0x433 - fexp F64 a)) < 2 ^ 64).
    { pose proof (pow2_le (- (0x433 - fexp F64 a)) 11 ltac:(lia));
        pose proof (pow2_pos (- (0x433 - fexp F64 a)) ltac:(lia)); nia. }
    rewrite shiftl_mul, u64_small by lia.
    destruct (words_shifted (sig * 2 ^ (- (0x433 - fexp F64 a))) ltac:(lia)) as (W1 & W2 & V).
    destruct (roundMToUI64_spec (fsign F64 a) 0 _ _ rm exact env fl ltac:(unfold word; lia) W1 W2)
      as [-> I].
    rewrite V, En, Ei in *; unfold ui64_result; rewrite I.
    destruct (_ || _), (fsign F64 a); reflexivity.
  - classify F64 a; cbn [orb].
    destruct (mag_f64_scaled a ltac:(lia)) as (Rs & _ & _).
    destruct (ext_sig_right rm (fsign F64 a) a ltac:(lia)) as [En Ei].
    set (sig := if nz _ then _ else _) in *.
    destruct (words_shifted sig ltac:(lia)) as (W1 & W2 & V).
    destruct (shiftRightJam96M_spec 0 _ _ (0x433 - fexp F64 a) ltac:(unfold word; lia) W1 W2 ltac:(lia))
      as (x & y & z & -> & Wx & Wy & Wz & V').
    destruct (roundMToUI64_spec (fsign F64 a) x y z rm exact env fl Wx Wy Wz) as [-> I].
    rewrite V', V, En, Ei in *; unfold ui64_result; rewrite I.
    destruct (_ || _), (fsign F64 a); reflexivity.
Qed.

(** ** The conversions *)

(** C24: the conversions.  [f32_to_f64] widens exactly and [f64_to_f32] narrows with correct
    rounding and flags, including the subnormal doubles to which the routine adds a hidden bit
    they do not have; NaNs become the default NaN, with invalid raised when signaling.
    [f64_to_ui64] rounds a double to an unsigned 64-bit integer in the mode given as its
    argument: the rounded value when it is in range, otherwise the saturated value with invalid
    raised; inexact is raised when asked for and the value changed.  The conversions from 32- and
    64-bit integers, signed and unsigned, to single and double return the correctly rounded value
    of the integer and its flags. *)
Theorem conversions_correct a b n rm exact :
  0 <= a < 0x100000000 -> 0 <= b < 0x10000000000000000 ->
  meets (f32_to_f64 a) (fun rm => ieee_convert F32 F64 rm a) /\
  meets (f64_to_f32 b) (fun rm => ieee_convert F64 F32 rm b) /\
  meets (f64_to_ui64 b rm exact) (fun _ => ieee_to_uint F64 64 exact rm b) /\
  (0 <= n < 2 ^ 32 ->
   meets (ui32_to_f32 n) (fun rm => ieee_from_int F32 rm n) /\
   meets (ui32_to_f64 n) (fun rm => ieee_from_int F64 rm n)) /\
  (0 <= n < 2 ^ 64 ->
   meets (ui64_to_f32 n) (fun rm => ieee_from_int F32 rm n) /\
   meets (ui64_to_f64 n) (fun rm => ieee_from_int F64 rm n)) /\
  (- 2 ^ 31 <= n < 2 ^ 31 ->
   meets (i32_to_f32 n) (fun rm => ieee_from_int F32 rm n) /\
   meets (i32_to_f64 n) (fun rm => ieee_from_int F64 rm n)) /\
  (- 2 ^ 63 <= n < 2 ^ 63 ->
   meets (i64_to_f32 n) (fun rm => ieee_from_int F32 rm n) /\
   meets (i64_to_f64 n) (fun rm => ieee_from_int F64 rm n)).
Proof.
  intros A B; split; [|split; [|split]];
    [apply f32_to_f64_spec, A | apply f64_to_f32_spec, B | apply f64_to_ui64_spec, B|].
  repeat split; auto using ui32_to_f32_spec, ui32_to_f64_spec, ui64_to_f32_spec,
    ui64_to_f64_spec, i32_to_f32_spec, i32_to_f64_spec, i64_to_f32_spec, i64_to_f64_spec.
Qed.

Lemma conversions_correct_witness :
  f32_to_f64 0x00000001 0 0 = (0x36A0000000000000, 0) /\
  f64_to_f32 0x3690000000000001 softfloat_round_near_even 0 = (0x00000001, 3) /\
  f64_to_ui64 0x3690000000000001 softfloat_round_max true 0 0 = (1, 1) /\
  ui64_to_f64 0xFFFFFFFFFFFFFFFF softfloat_round_near_even 0 = (0x43F0000000000000, 1).
Proof.
  destruct (conversions_correct 0x00000001 0x3690000000000001 0xFFFFFFFFFFFFFFFF
              softfloat_round_max true ltac:(lia) ltac:(lia)) as (W & N & I & _ & U & _).
  destruct (U ltac:(lia)) as [_ D]; rewrite W, N, I, D; vm_compute; auto.
Defined.
