(* ===== verification/SfRecip.v ===== *)
(** * SoftFloat: the reciprocal estimate ([s_approxRecip_1Ks.c], [s_approxRecip32_1.c])

    [softfloat_approxRecip32_1 a] approximates [2^63 / a] from below by a table lookup with
    linear interpolation and one step of a third-order iteration.  The estimate never
    exceeds the reciprocal and is short of it by little more than two units in the last
    place; for the significands of singles it is short by less than the margin
    [f32_div] allows. *)

From S2P Require Import Prelude.
From Stdlib Require Import ZArith Lia Bool List.
Import ListNotations.

(** ** Definitions *)

Definition softfloat_approxRecip_1k0s : list Z := [
  0xFFC4; 0xF0BE; 0xE363; 0xD76F; 0xCCAD; 0xC2F0; 0xBA16; 0xB201;
  0xAA97; 0xA3C6; 0x9D7A; 0x97A6; 0x923C; 0x8D32; 0x887E; 0x8417].

Definition softfloat_approxRecip_1k1s : list Z := [
  0xF0F1; 0xD62C; 0xBFA1; 0xAC77; 0x9C0A; 0x8DDB; 0x8185; 0x76BA;
  0x6D3B; 0x64D4; 0x5D5C; 0x56B1; 0x50B6; 0x4B55; 0x4679; 0x4211].

Definition softfloat_approxRecip32_1 (a : Z) : Z :=
  let index := Z.to_nat ((a .>> 27) .& 0xF) in
  let eps := u16 (a .>> 11) in
  let r0 := u16 (nth index softfloat_approxRecip_1k0s 0
                 - (u32 (nth index softfloat_approxRecip_1k1s 0 * eps) .>> 20)) in
  let sigma0 := u32 (.~ u32 (u64 (r0 * a) .>> 7)) in
  let r := u32 (u32 (r0 .<< 16) + (u64 (r0 * sigma0) .>> 24)) in
  let sqrSigma0 := u32 (u64 (sigma0 * sigma0) .>> 32) in
  u32 (r + (u64 (r * sqrSigma0) .>> 48)).

(** ** The initial estimate

    On the interval of index [i] the error [2^47 - r0 * a] is a quadratic in the offset
    [x] of [a]: positive because its discriminant is negative, bounded because it is convex
    and bounded at both ends. *)

Lemma quad_pos al be ga x : 0 < al -> be * be < 4 * al * ga -> 0 < al * x * x + be * x + ga.
Proof.
  intros Ha Hd.
  assert (0 < 4 * al * (al * x * x + be * x + ga)); [|nia].
  replace (4 * al * (al * x * x + be * x + ga))
    with ((2 * al * x + be) * (2 * al * x + be) + (4 * al * ga - be * be)) by ring.
  pose proof (Z.square_nonneg (2 * al * x + be)); lia.
Qed.

Lemma quad_concave al be ga n x c :
  0 <= al -> 0 <= x <= n -> 0 < n -> c < ga -> c < ga + be * n - al * n * n ->
  c < ga + be * x - al * x * x.
Proof.
  intros Ha Hx Hn H0 H1.
  assert (0 < n * (ga + be * x - al * x * x - c)); [|nia].
  replace (n * (ga + be * x - al * x * x - c))
    with ((n - x) * (ga - c) + x * (ga + be * n - al * n * n - c) + al * x * (n - x) * n)
    by ring.
  assert (0 <= al * x * (n - x) * n) by (repeat apply Z.mul_nonneg_nonneg; lia).
  destruct (Z.eq_dec x n); nia.
Qed.

(** The bound on the error of the initial estimate; the last interval needs a sharper one. *)
Definition recip_err (i : Z) : Z := if i =? 15 then 43980465111 else 2 ^ 37.

Definition recip_index_ok (i : Z) : bool :=
  let k0 := nth (Z.to_nat i) softfloat_approxRecip_1k0s 0 in
  let k1 := nth (Z.to_nat i) softfloat_approxRecip_1k1s 0 in
  let b := 2 ^ 31 + i * 2 ^ 27 in
  let al := 2 ^ 11 * k1 in
  let k0' := 2 ^ 20 * k0 + 2 ^ 20 in
  let be := k1 * (b + 2047) - 2 ^ 11 * k0' in
  (0 <? k1) && (k1 <? 2 ^ 16) && (k1 <? k0 * 16) && (k0 <? 2 ^ 16)
  && (be * be <? 4 * al * (2 ^ 67 - k0' * (b + 2047)))
  && (2 ^ 67 - 2 ^ 20 * recip_err i <? 2 ^ 20 * k0 * b)
  && (2 ^ 67 - 2 ^ 20 * recip_err i <? (2 ^ 20 * k0 - k1 * 2 ^ 16) * (b + 2 ^ 27)).

Lemma recip_index_all i : 0 <= i < 16 -> recip_index_ok i = true.
Proof.
  intros H.
  assert (C : forallb (fun n => recip_index_ok (Z.of_nat n)) (seq 0 16) = true)
    by (vm_compute; reflexivity).
  rewrite forallb_forall in C; specialize (C (Z.to_nat i)).
  rewrite Z2Nat.id in C by lia; apply C, in_seq; lia.
Qed.

Lemma recip_r0 i x y k0 k1 :
  0 <= i < 16 -> 0 <= x < 2 ^ 16 -> 0 <= y < 2 ^ 11 ->
  k0 = nth (Z.to_nat i) softfloat_approxRecip_1k0s 0 ->
  k1 = nth (Z.to_nat i) softfloat_approxRecip_1k1s 0 ->
  let a := 2 ^ 31 + i * 2 ^ 27 + x * 2 ^ 11 + y in
  let r0 := k0 - k1 * x / 2 ^ 20 in
  0 <= k1 < 2 ^ 16 /\ 0 < r0 < 2 ^ 16 /\ 0 < 2 ^ 47 - r0 * a < recip_err i.
Proof.
  intros Hi Hx Hy E0 E1 a r0.
  pose proof (recip_index_all i Hi) as C; unfold recip_index_ok in C.
  rewrite <- E0, <- E1 in C; rewrite !andb_true_iff, !Z.ltb_lt in C.
  destruct C as ((((((C1 & C2) & C3) & C4) & C5) & C6) & C7).
  set (b := 2 ^ 31 + i * 2 ^ 27) in *.
  set (e := recip_err i) in *.
  set (q := k1 * x / 2 ^ 20) in *.
  assert (Hq : 2 ^ 20 * q <= k1 * x < 2 ^ 20 * q + 2 ^ 20) by (apply div_bounds; lia).
  assert (Hb : 2 ^ 31 <= b) by (subst b; lia).
  assert (Hkx : 0 <= k1 * x <= k1 * 2 ^ 16) by nia.
  assert (Hr : 0 < r0 < 2 ^ 16) by (subst r0; lia).
  pose proof (quad_pos (2 ^ 11 * k1) _ _ x ltac:(lia) C5) as P.
  pose proof (quad_concave (2 ^ 11 * k1) (2 ^ 11 * (2 ^ 20 * k0) - k1 * b) (2 ^ 20 * k0 * b)
                (2 ^ 16) x (2 ^ 67 - 2 ^ 20 * e) ltac:(lia) ltac:(lia) ltac:(lia) C6) as Q.
  clearbody q b e; clear E0 E1 C3 C5 Hkx.
  repeat split; try lia; subst r0 a.
  - assert ((2 ^ 20 * (k0 - q)) * (b + x * 2 ^ 11 + y)
            <= (2 ^ 20 * k0 + 2 ^ 20 - k1 * x) * (b + 2047 + 2 ^ 11 * x)); [|nia].
    apply Z.mul_le_mono_nonneg; lia.
  - assert ((2 ^ 20 * k0 - k1 * x) * (b + 2 ^ 11 * x)
            <= (2 ^ 20 * (k0 - q)) * (b + x * 2 ^ 11 + y)); [|nia].
    apply Z.mul_le_mono_nonneg; lia.
Qed.

(** ** The iteration

    [E] is the error of the initial estimate and [sg] its upper bits; the iteration
    multiplies the estimate by [1 + s] and [1 + s^2], [s] the relative error, each product
    truncated. *)

Section Iteration.
Context (a r0 sg f S g : Z).
Hypothesis Ha : 0 < a.
Hypothesis Hr0 : 0 < r0.
Hypothesis Hsg : 0 <= sg.
Hypothesis HE : 128 * sg + 1 <= 2 ^ 47 - r0 * a <= 128 * sg + 128.
Hypothesis Hf : 2 ^ 24 * f <= r0 * sg < 2 ^ 24 * f + 2 ^ 24.
Hypothesis HS : 2 ^ 32 * S <= sg * sg < 2 ^ 32 * S + 2 ^ 32.
Hypothesis Hg : 2 ^ 48 * g <= (r0 * 2 ^ 16 + f) * S < 2 ^ 48 * g + 2 ^ 48.

Lemma iter_r1 :
  r0 * (2 ^ 40 + sg) - 2 ^ 24 < 2 ^ 24 * (r0 * 2 ^ 16 + f) <= r0 * (2 ^ 40 + sg).
Proof. lia. Qed.

Lemma iter_upper : (r0 * 2 ^ 16 + f + g) * a < 2 ^ 63.
Proof.
  pose proof iter_r1 as R1; set (r1 := r0 * 2 ^ 16 + f) in *.
  assert (0 <= r1) by (unfold r1; nia).
  assert (A : 2 ^ 80 * (r1 + g) <= r1 * (2 ^ 80 + sg * sg)) by nia.
  assert (B : 2 ^ 104 * (r1 + g) <= r0 * (2 ^ 40 + sg) * (2 ^ 80 + sg * sg)) by nia.
  assert (C : 2 ^ 104 * ((r1 + g) * a) <= (r0 * a) * ((2 ^ 40 + sg) * (2 ^ 80 + sg * sg))) by nia.
  assert (D : (r0 * a) * ((2 ^ 40 + sg) * (2 ^ 80 + sg * sg))
              < 2 ^ 7 * (2 ^ 40 - sg) * ((2 ^ 40 + sg) * (2 ^ 80 + sg * sg)))
    by (apply Z.mul_lt_mono_pos_r; nia).
  replace (2 ^ 7 * (2 ^ 40 - sg) * ((2 ^ 40 + sg) * (2 ^ 80 + sg * sg)))
    with (2 ^ 167 - 2 ^ 7 * ((sg * sg) * (sg * sg))) in D by ring.
  pose proof (Z.square_nonneg (sg * sg)); lia.
Qed.

Lemma iter_lower :
  2 ^ 104 * (2 ^ 63 - (r0 * 2 ^ 16 + f + g) * a)
  <= 2 ^ 105 * a + 2 ^ 24 * (sg * sg) * a
     + 2 ^ 7 * ((sg * sg) * (sg * sg) + 2 ^ 112 + (2 ^ 40 + sg) * (2 ^ 80 + sg * sg)).
Proof.
  pose proof iter_r1 as R1; set (r1 := r0 * 2 ^ 16 + f) in *.
  assert (0 <= r1) by (unfold r1; nia).
  set (T := 2 ^ 80 + sg * sg - 2 ^ 32) in *.
  assert (HT : 0 < T) by (unfold T; nia).
  assert (A : r1 * T - 2 ^ 80 <= 2 ^ 80 * (r1 + g)) by (unfold T; nia).
  assert (B : (r0 * (2 ^ 40 + sg) - 2 ^ 24) * T - 2 ^ 104 <= 2 ^ 104 * (r1 + g)) by nia.
  assert (C : (r0 * a) * ((2 ^ 40 + sg) * T) - a * (2 ^ 24 * T + 2 ^ 104)
              <= 2 ^ 104 * ((r1 + g) * a))
    by (apply (Z.mul_le_mono_nonneg_r _ _ a) in B; lia).
  assert (D : 2 ^ 7 * (2 ^ 40 - sg - 1) * ((2 ^ 40 + sg) * T) <= (r0 * a) * ((2 ^ 40 + sg) * T))
    by (apply Z.mul_le_mono_nonneg_r; nia).
  assert (X : a * (2 ^ 24 * T + 2 ^ 104) <= 2 ^ 105 * a + 2 ^ 24 * (sg * sg) * a)
    by (unfold T; lia).
  assert (Y : 2 ^ 160 - (sg * sg) * (sg * sg) - 2 ^ 112 - (2 ^ 40 + sg) * (2 ^ 80 + sg * sg)
              <= (2 ^ 40 - sg - 1) * ((2 ^ 40 + sg) * T)).
  { replace ((2 ^ 40 - sg - 1) * ((2 ^ 40 + sg) * T))
      with (2 ^ 160 - (sg * sg) * (sg * sg) - 2 ^ 112 - (2 ^ 40 + sg) * (2 ^ 80 + sg * sg)
            + 2 ^ 32 * (sg * sg + 2 ^ 40 + sg)) by (unfold T; ring).
    pose proof (Z.square_nonneg sg); lia. }
  lia.
Qed.
End Iteration.

(** ** The estimate without its wrap-arounds *)

Definition recip_iter (r0 sg : Z) : Z :=
  let r1 := r0 * 2 ^ 16 + r0 * sg / 2 ^ 24 in
  r1 + r1 * (sg * sg / 2 ^ 32) / 2 ^ 48.

Lemma recip_iter_bounds a r0 sg :
  0 < a -> 0 < r0 -> 0 <= sg ->
  128 * sg + 1 <= 2 ^ 47 - r0 * a <= 128 * sg + 128 ->
  recip_iter r0 sg * a < 2 ^ 63 /\
  2 ^ 104 * (2 ^ 63 - recip_iter r0 sg * a)
  <= 2 ^ 105 * a + 2 ^ 24 * (sg * sg) * a
     + 2 ^ 7 * ((sg * sg) * (sg * sg) + 2 ^ 112 + (2 ^ 40 + sg) * (2 ^ 80 + sg * sg)).
Proof.
  intros Ha Hr Hs HE; unfold recip_iter.
  set (f := r0 * sg / 2 ^ 24); set (S := sg * sg / 2 ^ 32).
  set (g := (r0 * 2 ^ 16 + f) * S / 2 ^ 48).
  pose proof (div_bounds (r0 * sg) (2 ^ 24) ltac:(lia)).
  pose proof (div_bounds (sg * sg) (2 ^ 32) ltac:(lia)).
  pose proof (div_bounds ((r0 * 2 ^ 16 + f) * S) (2 ^ 48) ltac:(lia)).
  split; [apply (iter_upper a r0 sg f S g) | apply (iter_lower a r0 sg f S g)]; assumption.
Qed.

Lemma recip_sigma v E : v = 2 ^ 47 - E -> 0 < E <= 2 ^ 37 ->
  let sg := u32 (.~ u32 (u64 v .>> 7)) in
  0 <= sg < 2 ^ 30 /\ 128 * sg + 1 <= E <= 128 * sg + 128.
Proof.
  intros -> HE sg; subst sg.
  rewrite u64_small, shiftr_div by lia.
  unfold u32; rewrite wrap_lnot by (apply wrap_range || idtac; lia).
  set (q := (2 ^ 47 - E) / 2 ^ 7).
  pose proof (div_bounds (2 ^ 47 - E) (2 ^ 7) ltac:(lia)) as B; fold q in B.
  replace (wrap 32 q) with (q - 255 * 2 ^ 32); [lia|].
  rewrite <- (wrap_add 32 q (-255)), wrap_small by lia; lia.
Qed.

Definition recip_start (a : Z) : Z :=
  let i := Z.to_nat (a / 2 ^ 27 mod 16) in
  nth i softfloat_approxRecip_1k0s 0
  - nth i softfloat_approxRecip_1k1s 0 * (a / 2 ^ 11 mod 2 ^ 16) / 2 ^ 20.

Definition recip_sig (a : Z) : Z := (2 ^ 47 - 1 - recip_start a * a) / 2 ^ 7.

Lemma recip_start_bounds a :
  2 ^ 31 <= a < 2 ^ 32 ->
  let i := a / 2 ^ 27 mod 16 in
  0 <= nth (Z.to_nat i) softfloat_approxRecip_1k1s 0 < 2 ^ 16 /\
  0 < recip_start a < 2 ^ 16 /\ 0 < 2 ^ 47 - recip_start a * a < recip_err i.
Proof.
  intros Ha i; unfold recip_start; fold i.
  assert (E : a = 2 ^ 31 + i * 2 ^ 27 + (a / 2 ^ 11 mod 2 ^ 16) * 2 ^ 11 + a mod 2 ^ 11)
    by (subst i; Z.div_mod_to_equations; lia).
  pose proof (recip_r0 i (a / 2 ^ 11 mod 2 ^ 16) (a mod 2 ^ 11) _ _
                ltac:(apply Z.mod_pos_bound; lia) ltac:(apply Z.mod_pos_bound; lia)
                ltac:(apply Z.mod_pos_bound; lia) eq_refl eq_refl) as P.
  cbv zeta in P; rewrite <- E in P; exact P.
Qed.

Lemma recip_sig_bounds a :
  2 ^ 31 <= a < 2 ^ 32 ->
  0 <= recip_sig a < 2 ^ 30 /\ 128 * recip_sig a < recip_err (a / 2 ^ 27 mod 16) /\
  128 * recip_sig a + 1 <= 2 ^ 47 - recip_start a * a <= 128 * recip_sig a + 128.
Proof.
  intros Ha; destruct (recip_start_bounds a Ha) as (_ & R & E).
  assert (recip_err (a / 2 ^ 27 mod 16) <= 2 ^ 37)
    by (unfold recip_err; destruct (_ =? 15); lia).
  unfold recip_sig; pose proof (div_bounds (2 ^ 47 - 1 - recip_start a * a) (2 ^ 7) ltac:(lia)).
  lia.
Qed.

Lemma recip_iter_range a :
  2 ^ 31 <= a < 2 ^ 32 ->
  0 <= recip_iter (recip_start a) (recip_sig a) < 2 ^ 32.
Proof.
  intros Ha; destruct (recip_start_bounds a Ha) as (_ & R & _).
  destruct (recip_sig_bounds a Ha) as (S & _ & E).
  destruct (recip_iter_bounds a (recip_start a) (recip_sig a)) as [U _]; try lia.
  split; [|nia].
  unfold recip_iter; set (sg := recip_sig a) in *; set (r0 := recip_start a) in *.
  assert (0 <= r0 * sg / 2 ^ 24) by (apply Z.div_pos; nia).
  assert (0 <= sg * sg / 2 ^ 32) by (apply Z.div_pos; nia).
  assert (0 <= (r0 * 2 ^ 16 + r0 * sg / 2 ^ 24) * (sg * sg / 2 ^ 32) / 2 ^ 48)
    by (apply Z.div_pos; nia).
  lia.
Qed.

Lemma approxRecip32_1_iter a :
  2 ^ 31 <= a < 2 ^ 32 ->
  softfloat_approxRecip32_1 a = recip_iter (recip_start a) (recip_sig a).
Proof.
  intros Ha; destruct (recip_start_bounds a Ha) as (K & R & E).
  pose proof (recip_iter_range a Ha) as I.
  destruct (recip_sig_bounds a Ha) as (Sr & _ & Se).
  unfold softfloat_approxRecip32_1.
  change 0xF with (2 ^ 4 - 1); rewrite land_ones_mod, !(shiftr_div a) by lia.
  change (2 ^ 4) with 16; change (u16 (a / 2 ^ 11)) with (a / 2 ^ 11 mod 2 ^ 16).
  set (k1 := nth _ softfloat_approxRecip_1k1s 0) in *.
  pose proof (Z.mod_pos_bound (a / 2 ^ 11) (2 ^ 16) ltac:(lia)) as X.
  rewrite (u32_small (k1 * _)), shiftr_div by nia.
  change (nth _ softfloat_approxRecip_1k0s 0 - k1 * _ / 2 ^ 20) with (recip_start a).
  rewrite (u16_small (recip_start a)) by lia.
  set (r0 := recip_start a) in *; fold r0 in E.
  assert (Sg : u32 (.~ u32 (u64 (r0 * a) .>> 7)) = recip_sig a).
  { assert (recip_err (a / 2 ^ 27 mod 16) <= 2 ^ 37)
      by (unfold recip_err; destruct (_ =? 15); lia).
    destruct (recip_sigma (r0 * a) (2 ^ 47 - r0 * a)) as [_ B]; lia. }
  rewrite Sg; set (sg := recip_sig a) in *; clearbody r0 sg k1.
  rewrite (u32_small (r0 .<< 16)), shiftl_mul by (rewrite ?shiftl_mul by lia; lia).
  rewrite (u64_small (r0 * sg)), (shiftr_div (r0 * sg)) by nia.
  rewrite (u64_small (sg * sg)), (shiftr_div (sg * sg)) by nia.
  unfold recip_iter in *; cbv zeta in *.
  set (r1 := r0 * 2 ^ 16 + r0 * sg / 2 ^ 24) in *.
  assert (S2 : 0 <= sg * sg / 2 ^ 32 < 2 ^ 28)
    by (split; [apply Z.div_pos | apply Z.div_lt_upper_bound]; nia).
  assert (R1 : 0 <= r1)
    by (unfold r1; pose proof (Z.div_pos (r0 * sg) (2 ^ 24) ltac:(nia) ltac:(lia)); lia).
  set (S := sg * sg / 2 ^ 32) in *.
  pose proof (Z.div_pos (r1 * S) (2 ^ 48) ltac:(nia) ltac:(lia)).
  rewrite (u32_small r1), (u32_small S), (u64_small (r1 * S)), shiftr_div by nia.
  apply u32_small; lia.
Qed.

(** ** The error of the estimate *)

Lemma approxRecip32_1_error a c :
  2 ^ 31 <= a < 2 ^ 32 -> 0 <= c -> recip_sig a <= c ->
  2 ^ 104 * (2 ^ 63 - softfloat_approxRecip32_1 a * a)
  <= 2 ^ 105 * a + 2 ^ 56 * (c * c)
     + 2 ^ 7 * ((c * c) * (c * c) + 2 ^ 112 + (2 ^ 40 + c) * (2 ^ 80 + c * c)).
Proof.
  intros Ha Hc Hs; rewrite approxRecip32_1_iter by assumption.
  destruct (recip_start_bounds a Ha) as (_ & R & _); destruct (recip_sig_bounds a Ha) as (S & _ & E).
  destruct (recip_iter_bounds a (recip_start a) (recip_sig a)) as [_ L]; try lia.
  set (sg := recip_sig a) in *.
  assert (A : 0 <= sg * sg <= c * c) by (split; [|apply Z.mul_le_mono_nonneg]; nia).
  assert (B : (sg * sg) * (sg * sg) <= (c * c) * (c * c)) by (apply Z.mul_le_mono_nonneg; lia).
  assert (C : (2 ^ 40 + sg) * (2 ^ 80 + sg * sg) <= (2 ^ 40 + c) * (2 ^ 80 + c * c))
    by (apply Z.mul_le_mono_nonneg; lia).
  assert (D : 2 ^ 24 * (sg * sg) * a <= 2 ^ 56 * (c * c)).
  { replace (2 ^ 56 * (c * c)) with (2 ^ 24 * (c * c) * 2 ^ 32) by ring.
    apply Z.mul_le_mono_nonneg; lia. }
  lia.
Qed.

Lemma approxRecip32_1_bounds a :
  2 ^ 31 <= a < 2 ^ 32 ->
  let r := softfloat_approxRecip32_1 a in
  0 <= r < 2 ^ 32 /\ r * a < 2 ^ 63 <= r * a + 2 * a + 17000000.
Proof.
  intros Ha r; destruct (recip_start_bounds a Ha) as (_ & R & _).
  destruct (recip_sig_bounds a Ha) as (S & _ & E).
  pose proof (approxRecip32_1_error a (2 ^ 30) Ha ltac:(lia) ltac:(lia)) as L; fold r in L.
  pose proof (recip_iter_range a Ha) as I.
  destruct (recip_iter_bounds a (recip_start a) (recip_sig a)) as [U _]; try lia.
  subst r; rewrite approxRecip32_1_iter in * by assumption.
  change (2 ^ 30 * 2 ^ 30) with (2 ^ 60) in L; lia.
Qed.

(** Near [2^32] the two truncations of the iteration leave no margin in general; the
    divisors there that are significands of singles are checked one by one. *)

Definition recip_check (a : Z) : bool :=
  let r0 := 0x8417 - ((0x4211 * ((a .>> 11) - 31 * 2 ^ 16)) .>> 20) in
  let sg := (0x7FFFFFFFFFFF - r0 * a) .>> 7 in
  let r1 := (r0 .<< 16) + ((r0 * sg) .>> 24) in
  0x7FFFFFFE00000000 <=? (r1 + ((r1 * ((sg * sg) .>> 32)) .>> 48)) * a.

Fixpoint recip_checks (n : nat) (a : Z) : bool :=
  match n with
  | O => true
  | S n => recip_check a && recip_checks n (a - 256)
  end.

Lemma recip_checks_spec n : forall a k,
  recip_checks n a = true -> 0 <= k < Z.of_nat n -> recip_check (a - 256 * k) = true.
Proof.
  induction n as [|n IH]; intros a k H Hk; [lia|].
  cbn [recip_checks] in H; apply andb_prop in H as [H0 H1].
  destruct (Z.eq_dec k 0) as [->|N]; [rewrite Z.mul_0_r, Z.sub_0_r; exact H0|].
  replace (a - 256 * k) with (a - 256 - 256 * (k - 1)) by lia; apply IH; [exact H1 | lia].
Qed.

Lemma recip_checks_all : recip_checks (Z.to_nat 17000) 0xFFFFFF00 = true.
Proof. vm_compute; reflexivity. Qed.

Lemma recip_check_iter a :
  31 * 2 ^ 27 <= a < 2 ^ 32 -> recip_check a = true ->
  2 ^ 63 - 2 ^ 33 <= softfloat_approxRecip32_1 a * a.
Proof.
  intros Ha C; rewrite approxRecip32_1_iter by lia.
  unfold recip_check in C; rewrite !shiftr_div, shiftl_mul in C by lia; cbv zeta in C.
  apply Z.leb_le in C.
  assert (I : a / 2 ^ 27 mod 16 = 15) by (Z.div_mod_to_equations; lia).
  assert (X : a / 2 ^ 11 mod 2 ^ 16 = a / 2 ^ 11 - 31 * 2 ^ 16) by (Z.div_mod_to_equations; lia).
  unfold recip_iter, recip_sig, recip_start; rewrite I, X.
  change (Z.to_nat 15) with 15%nat; cbn [nth softfloat_approxRecip_1k0s softfloat_approxRecip_1k1s].
  exact C.
Qed.

Lemma approxRecip32_1_single a :
  2 ^ 31 <= a < 2 ^ 32 -> a mod 256 = 0 ->
  2 ^ 63 <= softfloat_approxRecip32_1 a * a + 2 ^ 33.
Proof.
  intros Ha Hm; destruct (Z.lt_ge_cases a (31 * 2 ^ 27)) as [Hl|Hl];
    [pose proof (approxRecip32_1_bounds a Ha) as B; cbv zeta in B; lia|].
  destruct (Z.le_gt_cases a (2 ^ 32 - 17000 * 256)) as [Hc|Hc].
  - destruct (recip_sig_bounds a Ha) as (_ & S & _).
    assert (I : a / 2 ^ 27 mod 16 = 15) by (Z.div_mod_to_equations; lia).
    rewrite I in S; change (recip_err 15) with 43980465111 in S.
    pose proof (approxRecip32_1_error a 343597384 Ha ltac:(lia) ltac:(lia)); lia.
  - cut (2 ^ 63 - 2 ^ 33 <= softfloat_approxRecip32_1 a * a); [lia|].
    apply recip_check_iter; [lia|].
    replace a with (0xFFFFFF00 - 256 * ((0xFFFFFF00 - a) / 256))
      by (Z.div_mod_to_equations; lia).
    apply (recip_checks_spec (Z.to_nat 17000)); [apply recip_checks_all|].
    Z.div_mod_to_equations; lia.
Qed.
