(* ===== verification/SfDiv.v ===== *)
(** * SoftFloat: division

    [f32_div.c], [f64_div.c]: a quotient estimate from the reciprocal of the divisor, and
    an exact remainder where the estimate leaves the rounding open. *)

From S2P Require Import Prelude FpSpec FpTheory SfEnv SfPrim SfRound SfAdd SfAddF64 SfMul SfConvert SfRecip.
From Stdlib Require Import ZArith Lia Bool List.
Import ListNotations.

(** ** Definitions *)

(** The quotient of two significands in [[2^23, 2^24)], with its exponent adjustment and
    the sticky bit: the statements after the normalisation of [f32_div]. *)
Definition f32_div_sig (expZ sigA sigB : Z) : Z * Z :=
  let '(expZ, sigA) :=
    if sigA <? sigB then (expZ - 1, u32 (sigA .<< 8)) else (expZ, u32 (sigA .<< 7)) in
  let sigB := u32 (sigB .<< 8) in
  let sigZ := u32 (u64 (sigA * softfloat_approxRecip32_1 sigB) .>> 32) in
  let sigZ := u32 (sigZ + 2) in
  let sigZ :=
    if sigZ .& 0x3F <? 2 then
      let sigZ := sigZ .& u32 (.~ 3) in
      let rem := u64 (u64 (sigA .<< 32) - u64 (u32 (sigZ .<< 1) * sigB)) in
      if nz (rem .& 0x8000000000000000) then u32 (sigZ - 4)
      else if nz rem then sigZ .| 1 else sigZ
    else sigZ in
  (expZ, sigZ).

Definition f32_div (a b : Z) : fp Z :=
  let uiA := a in
  let signA := signF32UI uiA in
  let expA := expF32UI uiA in
  let sigA := fracF32UI uiA in
  let uiB := b in
  let signB := signF32UI uiB in
  let expB := expF32UI uiB in
  let sigB := fracF32UI uiB in
  let signZ := xorb signA signB in
  let propagateNaN := softfloat_propagateNaNF32UI uiA uiB in
  let invalid := softfloat_raiseFlags softfloat_flag_invalid ;;; ret defaultNaNF32UI in
  let infinity := ret (packToF32UI signZ 0xFF 0) in
  let zero := ret (packToF32UI signZ 0 0) in
  let proceed (expA sigA expB sigB : Z) : fp Z :=
    let expZ := expA - expB + 0x7E in
    let sigA := sigA .| 0x00800000 in
    let sigB := sigB .| 0x00800000 in
    let '(expZ, sigZ) := f32_div_sig expZ sigA sigB in
    softfloat_roundPackToF32 signZ expZ sigZ in
  let normA (expB sigB : Z) : fp Z :=
    if negb (nz expA) then
      if negb (nz sigA) then zero
      else
        let normExpSig := softfloat_normSubnormalF32Sig sigA in
        proceed (es_exp normExpSig) (es_sig normExpSig) expB sigB
    else proceed expA sigA expB sigB in
  if expA =? 0xFF then
    if nz sigA then propagateNaN
    else if expB =? 0xFF then (if nz sigB then propagateNaN else invalid)
    else infinity
  else if expB =? 0xFF then
    if nz sigB then propagateNaN else zero
  else if negb (nz expB) then
    if negb (nz sigB) then
      if negb (nz (expA .| sigA)) then invalid
      else softfloat_raiseFlags softfloat_flag_infinite ;;; infinity
    else
      let normExpSig := softfloat_normSubnormalF32Sig sigB in
      normA (es_exp normExpSig) (es_sig normExpSig)
  else normA expB sigB.

(** The quotient of two significands in [[2^52, 2^53)]: the statements after the
    normalisation of [f64_div]. *)
Definition f64_div_sig (expZ sigA sigB : Z) : Z * Z :=
  let '(expZ, sigA) :=
    if sigA <? sigB then (expZ - 1, u64 (sigA .<< 11)) else (expZ, u64 (sigA .<< 10)) in
  let sigB := u64 (sigB .<< 11) in
  let recip32 := u32 (softfloat_approxRecip32_1 (u32 (sigB .>> 32)) - 2) in
  let sig32Z := u32 (u64 (u32 (sigA .>> 32) * recip32) .>> 32) in
  let doubleTerm := u32 (sig32Z .<< 1) in
  let rem :=
    u64 (u64 (u64 (sigA - u64 (doubleTerm * u32 (sigB .>> 32))) .<< 28)
         - u64 (doubleTerm * (u32 sigB .>> 4))) in
  let q := u32 ((u64 (u32 (rem .>> 32) * recip32) .>> 32) + 4) in
  let sigZ := u64 (u64 (sig32Z .<< 32) + u64 (q .<< 4)) in
  let sigZ :=
    if sigZ .& 0x1FF <? 4 .<< 4 then
      let q := q .& u32 (.~ 7) in
      let sigZ := sigZ .& u64 (.~ 0x7F) in
      let doubleTerm := u32 (q .<< 1) in
      let rem :=
        u64 (u64 (u64 (rem - u64 (doubleTerm * u32 (sigB .>> 32))) .<< 28)
             - u64 (doubleTerm * (u32 sigB .>> 4))) in
      if nz (rem .& 0x8000000000000000) then u64 (sigZ - (1 .<< 7))
      else if nz rem then sigZ .| 1 else sigZ
    else sigZ in
  (expZ, sigZ).

Definition f64_div (a b : Z) : fp Z :=
  let uiA := a in
  let signA := signF64UI uiA in
  let expA := expF64UI uiA in
  let sigA := fracF64UI uiA in
  let uiB := b in
  let signB := signF64UI uiB in
  let expB := expF64UI uiB in
  let sigB := fracF64UI uiB in
  let signZ := xorb signA signB in
  let propagateNaN := softfloat_propagateNaNF64UI uiA uiB in
  let invalid := softfloat_raiseFlags softfloat_flag_invalid ;;; ret defaultNaNF64UI in
  let infinity := ret (packToF64UI signZ 0x7FF 0) in
  let zero := ret (packToF64UI signZ 0 0) in
  let proceed (expA sigA expB sigB : Z) : fp Z :=
    let expZ := expA - expB + 0x3FE in
    let sigA := sigA .| 0x0010000000000000 in
    let sigB := sigB .| 0x0010000000000000 in
    let '(expZ, sigZ) := f64_div_sig expZ sigA sigB in
    softfloat_roundPackToF64 signZ expZ sigZ in
  let normA (expB sigB : Z) : fp Z :=
    if negb (nz expA) then
      if negb (nz sigA) then zero
      else
        let normExpSig := softfloat_normSubnormalF64Sig sigA in
        proceed (es_exp normExpSig) (es_sig normExpSig) expB sigB
    else proceed expA sigA expB sigB in
  if expA =? 0x7FF then
    if nz sigA then propagateNaN
    else if expB =? 0x7FF then (if nz sigB then propagateNaN else invalid)
    else infinity
  else if expB =? 0x7FF then
    if nz sigB then propagateNaN else zero
  else if negb (nz expB) then
    if negb (nz sigB) then
      if negb (nz (expA .| sigA)) then invalid
      else softfloat_raiseFlags softfloat_flag_infinite ;;; infinity
    else
      let normExpSig := softfloat_normSubnormalF64Sig sigB in
      normA (es_exp normExpSig) (es_sig normExpSig)
  else normA expB sigB.

(** ** Quotients known up to a block

    [z] stands for the quotient [p / d] when both lie in the same open block of [G]
    consecutive integers, or at the start of it. *)

Definition stands_for (G z p d : Z) : Prop :=
  z / G = p / (d * G) /\ inexact z G = inexact p (d * G).

Lemma stands_open G n l p d :
  0 < d -> 0 < l < G -> G * n * d < p < G * (n + 1) * d -> stands_for G (G * n + l) p d.
Proof.
  intros Hd Hl Hp.
  assert (Q : p / (d * G) = n) by (symmetry; apply (Z.div_unique_pos _ _ _ (p - d * G * n)); lia).
  assert (M : p mod (d * G) <> 0) by (pose proof (Z.div_mod p (d * G)); nia).
  assert (Qz : (G * n + l) / G = n) by (symmetry; apply (Z.div_unique_pos _ _ _ l); lia).
  assert (Mz : (G * n + l) mod G = l) by (symmetry; apply (Z.mod_unique_pos _ _ n); lia).
  split; [lia|]; unfold inexact, nz.
  rewrite Mz, !(proj2 (Z.eqb_neq _ 0)) by lia; reflexivity.
Qed.

Lemma stands_exact G n p d : 0 < d -> 0 < G -> p = G * n * d -> stands_for G (G * n) p d.
Proof.
  intros Hd HG ->; split.
  - rewrite (Z.mul_comm G n), Z.div_mul by lia.
    apply (Z.div_unique_pos _ _ _ 0); nia.
  - unfold inexact, nz; rewrite (Z.mul_comm G n), Z.mod_mul by lia.
    replace (n * G * d) with (n * (d * G)) by ring; rewrite Z.mod_mul by lia; reflexivity.
Qed.

Lemma stands_range G z p d lo hi :
  0 < d -> 0 < G -> stands_for G z p d -> lo * (d * G) <= p < hi * (d * G) ->
  lo * G <= z < hi * G.
Proof.
  intros Hd HG [Q _] Hp; pose proof (div_bounds z G HG) as B.
  assert (lo <= p / (d * G)) by (apply Z.div_le_lower_bound; nia).
  assert (p / (d * G) < hi) by (apply Z.div_lt_upper_bound; nia).
  rewrite Q in B; nia.
Qed.

Lemma stands_scale G z p d c :
  0 < G -> 0 < d -> 0 < c -> stands_for G z (p * c) (d * c) -> stands_for G z p d.
Proof.
  intros HG Hd Hc [Q I]; split; [rewrite Q | rewrite I]; [apply div_ratio | apply inexact_ratio];
    nia || ring.
Qed.

(** The sign of a 64-bit difference that is small as an integer. *)
Lemma u64_sign x : - 2 ^ 63 <= x < 2 ^ 63 -> nz (u64 x .& 0x8000000000000000) = (x <? 0).
Proof.
  intros H; change 0x8000000000000000 with (2 ^ 63); rewrite nz_top_bit by (lia || apply u64_range).
  destruct (Z.ltb_spec x 0).
  - unfold u64; rewrite <- (wrap_add 64 x 1), wrap_small by lia; apply Z.leb_le; lia.
  - rewrite u64_small by lia; apply Z.leb_gt; lia.
Qed.

(** ** The quotient of two single-precision significands *)

Section DivSigF32.
Context (sA r a : Z).
Hypothesis HA : 0 < sA <= a.
Hypothesis Ha : 2 ^ 31 <= a < 2 ^ 32.
Hypothesis Hr : 0 <= r < 2 ^ 32.
Hypothesis Hup : r * a < 2 ^ 63.
Hypothesis Hlo : 2 ^ 63 <= r * a + 2 ^ 33.
Let est := sA * r / 2 ^ 32.

Lemma div_estimateF32 : est * a < sA * 2 ^ 31 < (est + 3) * a.
Proof using HA Ha Hr Hup Hlo.
  pose proof (div_bounds (sA * r) (2 ^ 32) ltac:(lia)) as B; fold est in B; clearbody est.
  assert (L : 2 ^ 32 * est * a <= sA * r * a) by (apply Z.mul_le_mono_nonneg_r; lia).
  assert (U : sA * r * a < (2 ^ 32 * est + 2 ^ 32) * a) by (apply Z.mul_lt_mono_pos_r; lia).
  assert (X : sA * (r * a) < sA * 2 ^ 63) by (apply Z.mul_lt_mono_pos_l; lia).
  assert (Y : sA * 2 ^ 63 <= sA * (r * a + 2 ^ 33)) by (apply Z.mul_le_mono_nonneg_l; lia).
  lia.
Qed.

(** The estimate, raised by two, and the correction by the exact remainder. *)
Lemma div_correctF32 :
  2 ^ 30 * a <= sA * 2 ^ 31 <= (2 ^ 31 - 64) * a ->
  let sigZ := u32 (est + 2) in
  let z :=
    if sigZ .& 0x3F <? 2 then
      let sigZ := sigZ .& u32 (.~ 3) in
      let rem := u64 (u64 (sA .<< 32) - u64 (u32 (sigZ .<< 1) * a)) in
      if nz (rem .& 0x8000000000000000) then u32 (sigZ - 4)
      else if nz rem then sigZ .| 1 else sigZ
    else sigZ in
  2 ^ 30 <= z < 2 ^ 31 /\ stands_for 64 z (sA * 2 ^ 31) a.
Proof using HA Ha Hr Hup Hlo.
  intros HQ; pose proof div_estimateF32 as E; clearbody est; set (p := sA * 2 ^ 31) in *.
  assert (Re : 2 ^ 30 < est + 3 /\ est < 2 ^ 31 - 64)
    by (split; apply (Z.mul_lt_mono_pos_r a); lia).
  cbv zeta; rewrite (u32_small (est + 2)) by lia; set (s := est + 2) in *.
  change 0x3F with (2 ^ 6 - 1); rewrite land_ones_mod by lia; change (2 ^ 6) with 64.
  set (z := if _ <? 2 then _ else _).
  cut (stands_for 64 z p a).
  { intros S; split; [|exact S].
    pose proof (stands_range 64 z p a (2 ^ 24) (2 ^ 25) ltac:(lia) ltac:(lia) S); lia. }
  subst z; pose proof (Z.div_mod s 64 ltac:(lia)) as D.
  pose proof (Z.mod_pos_bound s 64 ltac:(lia)) as M.
  set (n := s / 64) in *; set (l := s mod 64) in *.
  assert (Es : est * a = 64 * (n * a) + l * a - 2 * a) by (replace est with (s - 2) by lia; lia).
  assert (La : 0 <= l * a <= 63 * a) by (split; [|apply Z.mul_le_mono_nonneg_r]; nia).
  destruct (Z.ltb_spec l 2) as [L|L].
  2: { assert (2 * a <= l * a) by (apply Z.mul_le_mono_nonneg_r; lia).
       rewrite D; apply stands_open; lia. }
  assert (l * a <= 1 * a) by (apply Z.mul_le_mono_nonneg_r; lia).
  assert (N : s .& u32 (.~ 3) = 64 * n).
  { change 3 with (2 ^ 2 - 1); unfold u32; rewrite land_not_ones by lia.
    change (2 ^ 2) with 4; clearbody n l; Z.div_mod_to_equations; lia. }
  rewrite N, !shiftl_mul, (u32_small (64 * n * 2 ^ 1)) by lia.
  assert (0 <= n * a) by nia.
  rewrite (u64_small (sA * 2 ^ 32)), (u64_small (64 * n * 2 ^ 1 * a)) by lia.
  replace (sA * 2 ^ 32 - 64 * n * 2 ^ 1 * a) with (2 * (p - 64 * n * a)) by lia.
  rewrite u64_sign by lia; destruct (Z.ltb_spec (2 * (p - 64 * n * a)) 0).
  - rewrite u32_small by lia; replace (64 * n - 4) with (64 * (n - 1) + 60) by lia.
    apply stands_open; lia.
  - rewrite u64_small by lia; unfold nz; destruct (Z.eqb_spec (2 * (p - 64 * n * a)) 0); cbn [negb].
    + apply stands_exact; lia.
    + replace (64 * n .| 1) with (64 * n + 1)
        by (rewrite lor_1; f_equal; Z.div_mod_to_equations; lia).
      apply stands_open; lia.
Qed.
End DivSigF32.

Lemma f32_div_sig_spec expZ mA mB :
  2 ^ 23 <= mA < 2 ^ 24 -> 2 ^ 23 <= mB < 2 ^ 24 ->
  exists j z, (j = 0 \/ j = 1) /\ f32_div_sig expZ mA mB = (expZ - j, z) /\
    2 ^ 30 <= z < 2 ^ 31 /\ stands_for 64 z (mA * 2 ^ (30 + j)) mB.
Proof.
  intros HA HB; set (a := mB * 2 ^ 8).
  assert (R : 2 ^ 31 <= a < 2 ^ 32) by lia.
  pose proof (approxRecip32_1_bounds a R) as (R1 & R2 & _).
  pose proof (approxRecip32_1_single a R (Z.mod_mul mB 256 ltac:(lia))) as R3.
  unfold f32_div_sig; rewrite !shiftl_mul by lia; fold a.
  rewrite (u32_small a) by lia.
  assert (K : exists j, (j = 0 \/ j = 1) /\
    (if mA <? mB then (expZ - 1, u32 (mA * 2 ^ 8)) else (expZ, u32 (mA * 2 ^ 7)))
    = (expZ - j, mA * 2 ^ (7 + j)) /\
    2 ^ 30 * a <= mA * 2 ^ (7 + j) * 2 ^ 31 <= (2 ^ 31 - 64) * a /\ mA * 2 ^ (7 + j) <= a).
  { destruct (Z.ltb_spec mA mB); [exists 1 | exists 0]; rewrite u32_small by lia;
      [change (7 + 1) with 8 | change (7 + 0) with 7; rewrite Z.sub_0_r];
      (split; [lia | split; [reflexivity | unfold a; lia]]). }
  destruct K as (j & Hj & -> & HQ & HL); cbv beta iota zeta.
  set (r := softfloat_approxRecip32_1 a) in *.
  assert (0 < mA * 2 ^ (7 + j)) by (destruct Hj; subst j; lia).
  assert (mA * 2 ^ (7 + j) * r < 2 ^ 64) by nia.
  set (sA := mA * 2 ^ (7 + j)) in *.
  rewrite (u64_small (sA * r)), (shiftr_div (sA * r)) by nia.
  pose proof (div_correctF32 sA r a ltac:(lia) R R1 R2 R3 HQ) as [Z1 Z2].
  rewrite (u32_small (sA * r / 2 ^ 32)) by (split; [apply Z.div_pos | apply Z.div_lt_upper_bound]; nia).
  exists j; eexists; split; [exact Hj | split; [reflexivity | split; [exact Z1|]]].
  apply (stands_scale _ _ _ _ (2 ^ 8)); [lia..|].
  replace (mA * 2 ^ (30 + j) * 2 ^ 8) with (sA * 2 ^ 31); [exact Z2|].
  unfold sA; rewrite <- !Z.mul_assoc, <- !Z.pow_add_r by lia; do 2 f_equal; lia.
Qed.

(** ** Rounding the quotient *)

Lemma norm_operand_mag_pos F a m e : 1 <= fbits F -> norm_operand F a m e -> 0 < mag F a.
Proof.
  intros Hf (Hm & He & E); pose proof (pow2_pos (fbits F) ltac:(lia)).
  pose proof (pow2_pos (fbits F + 1) ltac:(lia)); pose proof (pow2_pos (e + fbits F) ltac:(lia)).
  nia.
Qed.

Lemma round_div F rm s a mA eA b mB eB n k :
  1 <= fbits F -> 1 <= ebits F -> norm_operand F a mA eA -> norm_operand F b mB eB ->
  0 <= n -> n + k = eA - eB + one_exp F ->
  round_scaled F rm s (mA * 2 ^ n) mB k
  = ieee_round F rm s (mag F a * 2 ^ one_exp F) (mag F b).
Proof.
  intros Hf He NA NB Hn Hk; pose proof (norm_operand_mag_pos F b mB eB Hf NB).
  destruct NA as (Ra & Xa & Ma), NB as (Rb & Xb & Mb).
  pose proof (pow2_pos (fbits F) ltac:(lia)); pose proof (pow2_le 0 (ebits F - 1) ltac:(lia)).
  pose proof (pow2_half (ebits F) ltac:(lia)).
  assert (Ho : 0 <= one_exp F) by (unfold one_exp; lia).
  apply (round_scaled_eq _ _ _ _ _ _ (Z.max (- k) 0)); try lia.
  apply (Z.mul_reg_r _ _ (2 ^ (fbits F + 1))); [apply Z.pow_nonzero; lia|].
  set (c := Z.max (- k) 0).
  transitivity (mA * 2 ^ n * 2 ^ (c + k) * (mag F b * 2 ^ (fbits F + 1))); [ring|].
  transitivity (mag F a * 2 ^ (fbits F + 1) * 2 ^ one_exp F * (mB * 2 ^ c)); [|ring].
  rewrite Ma, Mb.
  transitivity (mA * mB * (2 ^ n * 2 ^ (c + k) * 2 ^ (eB + fbits F))); [ring|].
  transitivity (mA * mB * (2 ^ (eA + fbits F) * 2 ^ one_exp F * 2 ^ c)); [|ring].
  rewrite <- !Z.pow_add_r by lia; do 2 f_equal; lia.
Qed.

Lemma divF32_finish sign a mA eA b mB eB :
  norm_operand F32 a mA eA -> norm_operand F32 b mB eB ->
  meets
    (let '(expZ, sigZ) := f32_div_sig (eA - eB + 0x7E) mA mB in
     softfloat_roundPackToF32 sign expZ sigZ)
    (fun rm => ieee_round F32 rm sign (mag F32 a * 2 ^ one_exp F32) (mag F32 b)).
Proof.
  intros NA NB rm fl.
  assert (RA : 2 ^ 23 <= mA < 2 ^ 24) by apply NA; assert (RB : 2 ^ 23 <= mB < 2 ^ 24) by apply NB.
  destruct (f32_div_sig_spec (eA - eB + 0x7E) mA mB RA RB) as (j & z & Hj & -> & Hz & Sq & Si).
  assert (EA : -22 <= eA < 255) by apply NA; assert (EB : -22 <= eB < 255) by apply NB.
  rewrite roundPackToF32_spec by lia.
  rewrite (round_scaled_sticky F32 rm sign z (mA * 2 ^ (30 + j)) mB 6) by (auto; cbn; lia).
  rewrite (round_div F32 rm sign a mA eA b mB eB) 
    by (auto; (change (one_exp F32) with 149; lia) || (cbn; lia)).
  reflexivity.
Qed.

(** The cases of a division by the classes of its operands; [lem] packs the fields, [fin]
    ends the finite case. *)
Ltac flag_leaf lem :=
  unfold bind, softfloat_raiseFlags, ret; cbn [fst snd]; rewrite lem by lia; f_equal; lia.

Ltac div_cases F a b m Np lem fin :=
  destruct (Z.eqb_spec (fexp F a) m) as [Ia | Ia];
    [|destruct (Z.eqb_spec (fexp F b) m) as [Ib | Ib]];
  [ rewrite (proj2 (Z.eqb_neq (fexp F a) 0)) by lia;
    destruct (Z.eqb_spec (ffrac F a) 0), (Z.eqb_spec (ffrac F b) 0),
      (Z.eqb_spec (fexp F b) m), (Z.eqb_spec (fexp F b) 0); try lia;
    classify F a; classify F b; cbn [orb andb negb]; rewrite ?orb_true_r;
    (exact Np || reflexivity || pack_leaf lem)
  | rewrite (proj2 (Z.eqb_neq (fexp F b) 0)) by lia;
    destruct (Z.eqb_spec (ffrac F a) 0), (Z.eqb_spec (ffrac F b) 0),
      (Z.eqb_spec (fexp F a) 0); try lia;
    classify F a; classify F b; cbn [orb andb negb]; rewrite ?orb_true_r;
    (exact Np || reflexivity || pack_leaf lem)
  | classify F a; classify F b; cbn [orb];
    destruct (Z.eqb_spec (fexp F a) 0), (Z.eqb_spec (ffrac F a) 0),
      (Z.eqb_spec (fexp F b) 0), (Z.eqb_spec (ffrac F b) 0); cbn [negb orb andb];
    (solve [apply fin; auto] || reflexivity || pack_leaf lem || flag_leaf lem) ].

Lemma f32_div_spec a b :
  0 <= a < 0x100000000 -> 0 <= b < 0x100000000 ->
  meets (f32_div a b) (fun rm => ieee_div F32 rm a b).
Proof.
  intros Ha Hb rm fl; unfold f32_div; cbv zeta; autorewrite with sf_fields.
  operands F32 a b 23 0xFF.
  pose proof (propagateNaNF32UI_spec a b rm fl) as Np.
  pose proof (norm_normalF32 a) as Na; pose proof (norm_normalF32 b) as Nb.
  pose proof (norm_subnormalF32 a) as Sa; pose proof (norm_subnormalF32 b) as Sb.
  unfold ieee_div; change (inf_mag F32) with (0xFF * 2 ^ 23).
  rewrite !mag_zero, !nz_lor by (cbn; lia); unfold nz.
  div_cases F32 a b 0xFF Np packToF32UI_spec divF32_finish.
Qed.

(** ** The quotient of two double-precision significands

    The reciprocal of the upper half [bh] of the divisor gives the upper half of the
    quotient; the exact remainder, divided the same way, gives 28 more bits. *)

(** Modular arithmetic in a remainder step. *)
Lemma u64_rem_step x b n c :
  u64 (u64 (u64 (x - u64 b) * 2 ^ n) - u64 c) = u64 ((x - b) * 2 ^ n - c).
Proof.
  unfold u64, wrap.
  rewrite !Zminus_mod_idemp_r, !Zminus_mod_idemp_l.
  rewrite <- (Zminus_mod_idemp_l (_ * _)), Zmult_mod_idemp_l, Zminus_mod_idemp_l.
  reflexivity.
Qed.

Section DivSigF64.
Context (B R : Z).
Hypothesis HB : 2 ^ 63 <= B < 2 ^ 64.
Hypothesis HR : 0 <= R < 2 ^ 32.
Hypothesis Hup : R * B < 2 ^ 95.
Hypothesis Hlo : 2 ^ 95 <= R * B + 4 * B + 2 ^ 57.

(** One step: [x / 2^64] times [R] is an estimate of [x * 2^31 / B] from below. *)
Lemma div_step x q :
  0 < x < 2 ^ 64 -> q = x / 2 ^ 32 * R / 2 ^ 32 ->
  q * B < x * 2 ^ 31 /\
  x * 2 ^ 95 < (q + 1) * 2 ^ 64 * B + 2 ^ 127 + x * (4 * B + 2 ^ 57).
Proof using HB HR Hup Hlo.
  intros Hx Hq; pose proof (div_bounds x (2 ^ 32) ltac:(lia)) as X.
  set (h := x / 2 ^ 32) in *; assert (0 <= h) by (apply Z.div_pos; lia).
  pose proof (div_bounds (h * R) (2 ^ 32) ltac:(lia)) as Q; rewrite <- Hq in Q.
  assert (0 <= R * B) by nia.
  assert (A1 : 2 ^ 32 * q * (2 ^ 32 * B) <= h * R * (2 ^ 32 * B)) by (apply Z.mul_le_mono_nonneg_r; lia).
  assert (A2 : 2 ^ 32 * h * (R * B) <= x * (R * B)) by (apply Z.mul_le_mono_nonneg_r; lia).
  assert (A3 : x * (R * B) < x * 2 ^ 95) by (apply Z.mul_lt_mono_pos_l; lia).
  assert (B1 : h * R * (2 ^ 32 * B) < (2 ^ 32 * q + 2 ^ 32) * (2 ^ 32 * B))
    by (apply Z.mul_lt_mono_pos_r; lia).
  assert (B2 : x * (R * B) <= (2 ^ 32 * h + 2 ^ 32) * (R * B)) by (apply Z.mul_le_mono_nonneg_r; lia).
  assert (B3 : x * 2 ^ 95 <= x * (R * B + 4 * B + 2 ^ 57)) by (apply Z.mul_le_mono_nonneg_l; lia).
  split; lia.
Qed.

Context (sA : Z).
Hypothesis HA : 0 < sA < B.
Let s32 := sA / 2 ^ 32 * R / 2 ^ 32.

(** The first remainder, in units of [2^4]. *)
Lemma div_rem1 :
  0 < sA * 2 ^ 32 - 2 * s32 * B < 11 * 2 ^ 64 + 2 ^ 58 /\
  sA * 2 ^ 32 - 2 * s32 * B < 12 * B + 2 ^ 58.
Proof using HB HR Hup Hlo HA.
  destruct (div_step sA s32 ltac:(lia) eq_refl) as [L U]; clearbody s32.
  assert (X : sA * (4 * B) < B * (4 * B)) by (apply Z.mul_lt_mono_pos_r; lia).
  assert (Y : B * (4 * B) <= 2 ^ 64 * (4 * B)) by (apply Z.mul_le_mono_nonneg_r; lia).
  lia.
Qed.

Lemma s32_range : 0 <= s32 < 2 ^ 31.
Proof using HB HR Hup Hlo HA.
  destruct div_rem1 as [X1 _]; split.
  - apply Z.div_pos; [apply Z.mul_nonneg_nonneg; [apply Z.div_pos|] |]; lia.
  - clearbody s32; apply (Z.mul_lt_mono_pos_r B); lia.
Qed.

Context (rem : Z).
Hypothesis Hrem : 16 * rem = sA * 2 ^ 32 - 2 * s32 * B.
Let q := rem / 2 ^ 32 * R / 2 ^ 32.

Lemma div_rem2 :
  0 < rem < 2 ^ 64 /\ q * B < rem * 2 ^ 31 < (q + 5) * B /\ 0 <= q < 2 ^ 31 - 16.
Proof using HB HR Hup Hlo HA Hrem.
  destruct div_rem1 as [X1 X2]; rewrite <- Hrem in X1, X2; clearbody s32.
  assert (Hr : 0 < rem < 2 ^ 64) by lia.
  destruct (div_step rem q Hr eq_refl) as [L U].
  assert (0 <= q) by (apply Z.div_pos; [apply Z.mul_nonneg_nonneg; [apply Z.div_pos|] |]; lia).
  clearbody q.
  assert (Y : 16 * rem * (4 * B + 2 ^ 57) <= (11 * 2 ^ 64 + 2 ^ 58) * (4 * B + 2 ^ 57))
    by (apply Z.mul_le_mono_nonneg_r; lia).
  split; [lia|]; split; [lia|].
  split; [lia|]; apply (Z.mul_lt_mono_pos_r B); lia.
Qed.

(** The low part of the quotient, raised by four, and the second remainder. *)
Lemma div_correctF64 b4 bh :
  B = bh * 2 ^ 32 + 16 * b4 ->
  let q := u32 (q + 4) in
  let sigZ := u64 (u64 (s32 .<< 32) + u64 (q .<< 4)) in
  let z :=
    if sigZ .& 0x1FF <? 4 .<< 4 then
      let q := q .& u32 (.~ 7) in
      let sigZ := sigZ .& u64 (.~ 0x7F) in
      let doubleTerm := u32 (q .<< 1) in
      let rem := u64 (u64 (u64 (rem - u64 (doubleTerm * bh)) .<< 28) - u64 (doubleTerm * b4)) in
      if nz (rem .& 0x8000000000000000) then u64 (sigZ - (1 .<< 7))
      else if nz rem then sigZ .| 1 else sigZ
    else sigZ in
  stands_for 512 z (sA * 2 ^ 63) B.
Proof using HB HR Hup Hlo HA Hrem.
  intros EB; destruct div_rem2 as (Hr & Y & Hq); pose proof s32_range as Hs; clearbody q s32.
  cbv zeta; rewrite (u32_small (q + 4)) by lia; set (v := q + 4) in *.
  rewrite !shiftl_mul, (u64_small (s32 * _)), (u64_small (v * _)) by lia.
  rewrite (u64_small (_ + _)) by lia.
  change 0x1FF with (2 ^ 9 - 1); rewrite land_ones_mod by lia; change (2 ^ 9) with 512.
  change (4 * 2 ^ 4) with 64.
  pose proof (Z.div_mod v 32 ltac:(lia)) as D; pose proof (Z.mod_pos_bound v 32 ltac:(lia)) as M.
  set (n := v / 32) in *; set (l := v mod 32) in *; clearbody n l.
  set (N := s32 * 2 ^ 23 + n); set (y := rem * 2 ^ 31) in *.
  assert (EZ : s32 * 2 ^ 32 + v * 2 ^ 4 = 512 * N + 16 * l) by lia.
  assert (EP : sA * 2 ^ 63 = 512 * N * B + 16 * (y - 32 * n * B)) by lia.
  assert (Eq : q * B = 32 * n * B + l * B - 4 * B) by (replace q with (v - 4) by lia; lia).
  assert (Lb : 0 <= l * B <= 31 * B) by (split; [|apply Z.mul_le_mono_nonneg_r]; nia).
  rewrite EZ, EP.
  replace ((512 * N + 16 * l) mod 512) with (16 * l) by (apply (Z.mod_unique_pos _ _ N); lia).
  destruct (Z.ltb_spec (16 * l) 64) as [L|L].
  2: { assert (4 * B <= l * B) by (apply Z.mul_le_mono_nonneg_r; lia).
       apply stands_open; lia. }
  assert (l * B <= 3 * B) by (apply Z.mul_le_mono_nonneg_r; lia).
  assert (E7 : v .& u32 (.~ 7) = 32 * n).
  { change 7 with (2 ^ 3 - 1); unfold u32; rewrite land_not_ones by lia.
    change (2 ^ 3) with 8; Z.div_mod_to_equations; lia. }
  assert (E7F : (512 * N + 16 * l) .& u64 (.~ 127) = 512 * N).
  { change 127 with (2 ^ 7 - 1); unfold u64; rewrite land_not_ones by lia.
    change (2 ^ 7) with 128; clearbody N; Z.div_mod_to_equations; lia. }
  rewrite E7, E7F, (u32_small (32 * n * 2 ^ 1)), u64_rem_step by lia.
  set (d := (rem - _) * _ - _).
  assert (Ed : 8 * d = y - 32 * n * B) by (subst d y; lia).
  rewrite <- Ed in *; clearbody d; rewrite u64_sign by lia.
  destruct (Z.ltb_spec d 0).
  - rewrite u64_small by lia; replace (512 * N - 1 * 2 ^ 7) with (512 * (N - 1) + 384) by lia.
    apply stands_open; lia.
  - rewrite u64_small by lia; unfold nz; destruct (Z.eqb_spec d 0); cbn [negb].
    + apply stands_exact; lia.
    + replace (512 * N .| 1) with (512 * N + 1)
        by (rewrite lor_1; f_equal; Z.div_mod_to_equations; lia).
      apply stands_open; lia.
Qed.
End DivSigF64.

Lemma recip64_bounds B :
  2 ^ 63 <= B < 2 ^ 64 ->
  let R := softfloat_approxRecip32_1 (B / 2 ^ 32) - 2 in
  0 <= R < 2 ^ 32 /\ R * B < 2 ^ 95 <= R * B + 4 * B + 2 ^ 57.
Proof.
  intros HB R; pose proof (div_bounds B (2 ^ 32) ltac:(lia)) as D.
  set (bh := B / 2 ^ 32) in *; assert (Hb : 2 ^ 31 <= bh < 2 ^ 32) by lia.
  pose proof (approxRecip32_1_bounds bh Hb) as (R1 & R2); cbv zeta in R2.
  set (r := softfloat_approxRecip32_1 bh) in *; clearbody r bh; subst R.
  assert (2 <= r) by nia.
  assert (U : (r - 2) * B <= (r - 2) * (2 ^ 32 * bh + 2 ^ 32)) by (apply Z.mul_le_mono_nonneg_l; lia).
  assert (L : (r - 2) * (2 ^ 32 * bh) <= (r - 2) * B) by (apply Z.mul_le_mono_nonneg_l; lia).
  lia.
Qed.

Lemma u32_half x : 0 <= x < 2 ^ 64 -> u32 (x / 2 ^ 32) = x / 2 ^ 32.
Proof. intros; apply u32_small; split; [apply Z.div_pos | apply Z.div_lt_upper_bound]; lia. Qed.

Lemma div_coreF64 sigA sigB :
  2 ^ 63 <= sigB < 2 ^ 64 -> sigB mod 16 = 0 -> 0 < sigA < sigB ->
  let recip32 := u32 (softfloat_approxRecip32_1 (u32 (sigB .>> 32)) - 2) in
  let sig32Z := u32 (u64 (u32 (sigA .>> 32) * recip32) .>> 32) in
  let doubleTerm := u32 (sig32Z .<< 1) in
  let rem :=
    u64 (u64 (u64 (sigA - u64 (doubleTerm * u32 (sigB .>> 32))) .<< 28)
         - u64 (doubleTerm * (u32 sigB .>> 4))) in
  let q := u32 ((u64 (u32 (rem .>> 32) * recip32) .>> 32) + 4) in
  let sigZ := u64 (u64 (sig32Z .<< 32) + u64 (q .<< 4)) in
  let z :=
    if sigZ .& 0x1FF <? 4 .<< 4 then
      let q := q .& u32 (.~ 7) in
      let sigZ := sigZ .& u64 (.~ 0x7F) in
      let doubleTerm := u32 (q .<< 1) in
      let rem :=
        u64 (u64 (u64 (rem - u64 (doubleTerm * u32 (sigB .>> 32))) .<< 28)
             - u64 (doubleTerm * (u32 sigB .>> 4))) in
      if nz (rem .& 0x8000000000000000) then u64 (sigZ - (1 .<< 7))
      else if nz rem then sigZ .| 1 else sigZ
    else sigZ in
  stands_for 512 z (sigA * 2 ^ 63) sigB.
Proof.
  intros HB HM HA.
  pose proof (recip64_bounds sigB HB) as (R1 & R2 & R3).
  rewrite (shiftr_div sigB), (shiftr_div sigA), !u32_half by lia.
  assert (EB : sigB = sigB / 2 ^ 32 * 2 ^ 32 + 16 * (u32 sigB .>> 4))
    by (rewrite shiftr_div by lia; unfold u32, wrap; Z.div_mod_to_equations; lia).
  set (bh := sigB / 2 ^ 32) in *; set (b4 := u32 sigB .>> 4) in *; clearbody bh b4.
  set (R := softfloat_approxRecip32_1 bh - 2) in *; clearbody R.
  rewrite (u32_small R) by lia; intros recip32 sig32Z doubleTerm; subst recip32.
  pose proof (s32_range sigB R HB R1 R2 R3 sigA HA) as Hs.
  pose proof (div_bounds sigA (2 ^ 32) ltac:(lia)) as DA.
  assert (ES : sig32Z = sigA / 2 ^ 32 * R / 2 ^ 32).
  { pose proof (mul_u32_bound (sigA / 2 ^ 32) R ltac:(lia) ltac:(lia)).
    subst sig32Z; rewrite u64_small, shiftr_div by lia; apply u32_small; lia. }
  pose proof (div_rem1 sigB R HB R1 R2 R3 sigA HA) as X.
  rewrite <- ES in Hs, X; subst doubleTerm.
  rewrite (u32_small (sig32Z .<< 1)), (shiftl_mul sig32Z 1) by (rewrite ?shiftl_mul; lia).
  rewrite (shiftl_mul (u64 _) 28), u64_rem_step by lia.
  set (rem := (sigA - _) * _ - _).
  assert (Hrem : 16 * rem = sigA * 2 ^ 32 - 2 * (sigA / 2 ^ 32 * R / 2 ^ 32) * sigB)
    by (rewrite <- ES; subst rem; lia).
  clearbody rem; rewrite (u64_small rem) by (rewrite ES in X; lia).
  pose proof (div_rem2 sigB R HB R1 R2 R3 sigA HA rem Hrem) as (Hr & _ & Hq).
  pose proof (div_correctF64 sigB R HB R1 R2 R3 sigA HA rem Hrem b4 bh EB) as Z.
  cbv zeta in Z |- *; rewrite <- ES in Z.
  pose proof (div_bounds rem (2 ^ 32) ltac:(lia)) as DR.
  pose proof (mul_u32_bound (rem / 2 ^ 32) R ltac:(lia) ltac:(lia)).
  rewrite (shiftr_div rem), u32_half, (u64_small (rem / 2 ^ 32 * R)) by lia.
  rewrite (shiftr_div (rem / 2 ^ 32 * R)) by lia.
  exact Z.
Qed.

Lemma f64_div_sig_spec expZ mA mB :
  2 ^ 52 <= mA < 2 ^ 53 -> 2 ^ 52 <= mB < 2 ^ 53 ->
  exists j z, (j = 0 \/ j = 1) /\ f64_div_sig expZ mA mB = (expZ - j, z) /\
    2 ^ 62 <= z < 2 ^ 63 /\ stands_for 512 z (mA * 2 ^ (62 + j)) mB.
Proof.
  intros HA HB; set (B := mB * 2 ^ 11).
  assert (RB : 2 ^ 63 <= B < 2 ^ 64) by lia.
  assert (MB : B mod 16 = 0)
    by (unfold B; replace (mB * 2 ^ 11) with (mB * 2 ^ 7 * 16) by lia; apply Z.mod_mul; lia).
  unfold f64_div_sig; rewrite !(shiftl_mul mA), !(shiftl_mul mB) by lia; fold B.
  rewrite (u64_small B) by lia.
  assert (K : exists j, (j = 0 \/ j = 1) /\
    (if mA <? mB then (expZ - 1, u64 (mA * 2 ^ 11)) else (expZ, u64 (mA * 2 ^ 10)))
    = (expZ - j, mA * 2 ^ (10 + j)) /\
    2 ^ 62 * B <= mA * 2 ^ (10 + j) * 2 ^ 63 < 2 ^ 63 * B /\ 0 < mA * 2 ^ (10 + j)).
  { destruct (Z.ltb_spec mA mB); [exists 1 | exists 0]; rewrite u64_small by lia;
      [change (10 + 1) with 11 | change (10 + 0) with 10; rewrite Z.sub_0_r];
      (split; [lia | split; [reflexivity | unfold B; lia]]). }
  destruct K as (j & Hj & -> & HQ & HL); cbv beta iota zeta; set (sA := mA * 2 ^ (10 + j)) in *.
  pose proof (div_coreF64 sA B RB MB ltac:(lia)) as Z.
  cbv zeta in Z; exists j; eexists; split; [exact Hj | split; [reflexivity|]].
  split; [|apply (stands_scale _ _ _ _ (2 ^ 11)); [lia..|]].
  - pose proof (stands_range 512 _ (sA * 2 ^ 63) B (2 ^ 53) (2 ^ 54) ltac:(lia) ltac:(lia) Z); lia.
  - replace (mA * 2 ^ (62 + j) * 2 ^ 11) with (sA * 2 ^ 63); [exact Z|].
    unfold sA; rewrite <- !Z.mul_assoc, <- !Z.pow_add_r by lia; do 2 f_equal; lia.
Qed.

Lemma divF64_finish sign a mA eA b mB eB :
  norm_operand F64 a mA eA -> norm_operand F64 b mB eB ->
  meets
    (let '(expZ, sigZ) := f64_div_sig (eA - eB + 0x3FE) mA mB in
     softfloat_roundPackToF64 sign expZ sigZ)
    (fun rm => ieee_round F64 rm sign (mag F64 a * 2 ^ one_exp F64) (mag F64 b)).
Proof.
  intros NA NB rm fl.
  assert (RA : 2 ^ 52 <= mA < 2 ^ 53) by apply NA; assert (RB : 2 ^ 52 <= mB < 2 ^ 53) by apply NB.
  destruct (f64_div_sig_spec (eA - eB + 0x3FE) mA mB RA RB) as (j & z & Hj & -> & Hz & Sq & Si).
  assert (EA : -51 <= eA < 2047) by apply NA; assert (EB : -51 <= eB < 2047) by apply NB.
  rewrite roundPackToF64_spec by lia.
  rewrite (round_scaled_sticky F64 rm sign z (mA * 2 ^ (62 + j)) mB 9) by (auto; cbn; lia).
  rewrite (round_div F64 rm sign a mA eA b mB eB)
    by (auto; (change (one_exp F64) with 1074; lia) || (cbn; lia)).
  reflexivity.
Qed.

Lemma f64_div_spec a b :
  0 <= a < 0x10000000000000000 -> 0 <= b < 0x10000000000000000 ->
  meets (f64_div a b) (fun rm => ieee_div F64 rm a b).
Proof.
  intros Ha Hb rm fl; unfold f64_div; cbv zeta; autorewrite with sf_fields.
  operands F64 a b 52 0x7FF.
  pose proof (propagateNaNF64UI_spec a b rm fl) as Np.
  pose proof (norm_normalF64 a) as Na; pose proof (norm_normalF64 b) as Nb.
  pose proof (norm_subnormalF64 a) as Sa; pose proof (norm_subnormalF64 b) as Sb.
  unfold ieee_div; change (inf_mag F64) with (0x7FF * 2 ^ 52).
  rewrite !mag_zero, !nz_lor by (cbn; lia); unfold nz.
  div_cases F64 a b 0x7FF Np packToF64UI_spec divF64_finish.
Qed.

(** ** Theorems *)

(** C2: [f32_div] and [f64_div] return the IEEE 754 quotient: for all operands, rounding
    modes and initial flags, the encoding and the exception flags (division by zero and
    invalid included) of the correctly rounded exact quotient.  For singles [a] and [b], and
    for doubles [c] and [d]. *)
Theorem div_correct a b c d :
  0 <= a < 0x100000000 -> 0 <= b < 0x100000000 ->
  0 <= c < 0x10000000000000000 -> 0 <= d < 0x10000000000000000 ->
  meets (f32_div a b) (fun rm => ieee_div F32 rm a b) /\
  meets (f64_div c d) (fun rm => ieee_div F64 rm c d).
Proof. split; [apply f32_div_spec | apply f64_div_spec]; assumption. Qed.

Lemma div_correct_witness :
  f32_div 0x3F800000 0x40400000 softfloat_round_near_even 0 = (0x3EAAAAAB, 1) /\
  f64_div 0x3FF0000000000000 0x4008000000000000 softfloat_round_max 0 = (0x3FD5555555555556, 1).
Proof.
  destruct (div_correct 0x3F800000 0x40400000 0x3FF0000000000000 0x4008000000000000
              ltac:(lia) ltac:(lia) ltac:(lia) ltac:(lia)) as [S D].
  rewrite S, D; vm_compute; split; reflexivity.
Defined.
