(* ===== verification/SfRecipSqrt.v ===== *)
(** * SoftFloat: the estimate of a reciprocal root ([s_approxRecipSqrt_1Ks.c], [s_approxRecipSqrt32_1.c])

    [softfloat_approxRecipSqrt32_1 oddExpA a] approximates [sqrt (2^95 / (c * a))] from below,
    [c] being 1 for an odd exponent and 2 for an even one, by a table lookup with linear
    interpolation and a third-order iteration.  The estimate is less than the root and short
    of it by less than 17/8 units in the last place, and by little more than 2 units for the
    largest significands. *)

From S2P Require Import Prelude SfConvert SfRecip.
From Stdlib Require Import ZArith Lia Bool List.
Import ListNotations.

(** ** Definitions *)

Definition softfloat_approxRecipSqrt_1k0s : list Z := [
  0xB4C9; 0xFFAB; 0xAA7D; 0xF11C; 0xA1C5; 0xE4C7; 0x9A43; 0xDA29;
  0x93B5; 0xD0E5; 0x8DED; 0xC8B7; 0x88C6; 0xC16D; 0x8424; 0xBAE1].

Definition softfloat_approxRecipSqrt_1k1s : list Z := [
  0xA5A5; 0xEA42; 0x8C21; 0xC62D; 0x788F; 0xAA7F; 0x6928; 0x94B6;
  0x5CC7; 0x8335; 0x52A6; 0x74E2; 0x4A3E; 0x68FE; 0x432B; 0x5EFD].

Definition softfloat_approxRecipSqrt32_1 (oddExpA a : Z) : Z :=
  let index := Z.to_nat (((a .>> 27) .& 0xE) + oddExpA) in
  let eps := u16 (a .>> 12) in
  let r0 := u16 (nth index softfloat_approxRecipSqrt_1k0s 0
                 - (u32 (nth index softfloat_approxRecipSqrt_1k1s 0 * eps) .>> 20)) in
  let ESqrR0 := u32 (r0 * r0) in
  let ESqrR0 := if negb (nz oddExpA) then u32 (ESqrR0 .<< 1) else ESqrR0 in
  let sigma0 := u32 (.~ u32 (u64 (ESqrR0 * a) .>> 23)) in
  let r := u32 (u32 (r0 .<< 16) + (u64 (r0 * sigma0) .>> 25)) in
  let sqrSigma0 := u32 (u64 (sigma0 * sigma0) .>> 32) in
  let r := u32 (r + (u64 (u32 ((r .>> 1) + (r .>> 3) - u32 (r0 .<< 14)) * sqrSigma0) .>> 48)) in
  if negb (nz (r .& 0x80000000)) then 0x80000000 else r.

(** ** The initial estimate

    On the interval of index [i] the product [c * r0^2 * a] is a cubic in the offset [x] of
    [a]: below [2^63] by the inequality of the means, and bounded from below because it is
    concave. *)

Lemma means_3 u w : 0 <= u -> 0 <= w -> 27 * (u * u * w) <= (2 * u + w) * ((2 * u + w) * (2 * u + w)).
Proof.
  intros Hu Hw.
  assert (E : (2 * u + w) * ((2 * u + w) * (2 * u + w)) - 27 * (u * u * w)
              = (w - u) * (w - u) * (8 * u + w)) by ring.
  pose proof (Z.mul_nonneg_nonneg _ _ (Z.square_nonneg (w - u)) (ltac:(lia) : 0 <= 8 * u + w)); lia.
Qed.

Lemma cubic_concave p q s t n x C :
  0 <= q -> 0 <= t -> 0 <= x <= n -> 0 < n -> q * (2 * t * n + s) <= 2 * t * p ->
  C < p * p * s -> C < (p - q * n) * (p - q * n) * (s + t * n) ->
  C < (p - q * x) * (p - q * x) * (s + t * x).
Proof.
  intros Hq Ht Hx Hn Hc H0 H1.
  set (f0 := p * p * s) in *; set (f1 := (p - q * n) * (p - q * n) * (s + t * n)) in *.
  set (f := (p - q * x) * (p - q * x) * (s + t * x)).
  assert (E : n * f = (n - x) * f0 + x * f1 + n * x * (n - x) * q * (2 * t * p - q * (s + t * (x + n))))
    by (subst f f0 f1; ring).
  assert (0 <= 2 * t * p - q * (s + t * (x + n))).
  { assert (q * (s + t * (x + n)) <= q * (2 * t * n + s)); [|lia].
    apply Z.mul_le_mono_nonneg_l; [lia|]; nia. }
  assert (0 <= n * x * (n - x) * q * (2 * t * p - q * (s + t * (x + n))))
    by (repeat apply Z.mul_nonneg_nonneg; lia).
  clearbody f f0 f1; assert (n * C < n * f); [|nia].
  assert (A : (n - x) * C <= (n - x) * f0) by (apply Z.mul_le_mono_nonneg_l; lia).
  assert (B : x * C <= x * f1) by (apply Z.mul_le_mono_nonneg_l; lia).
  destruct (Z.eq_dec x 0) as [X|X].
  - assert ((n - x) * C < (n - x) * f0) by (apply Z.mul_lt_mono_pos_l; lia); lia.
  - assert (x * C < x * f1) by (apply Z.mul_lt_mono_pos_l; lia); lia.
Qed.

(** The factor of the exponent's parity. *)
Definition scale (oddExpA : Z) : Z := 2 - oddExpA.

(** The bound on [2^63 - c * r0^2 * a]; for an even exponent it is sharper on the last two
    intervals. *)
Definition rsqrt_err (i : Z) : Z := if (i =? 12) || (i =? 14) then 2 ^ 53 else 3037000499 * 2 ^ 23.

Definition rsqrt_index_ok (i : Z) : bool :=
  let k0 := nth (Z.to_nat i) softfloat_approxRecipSqrt_1k0s 0 in
  let k1 := nth (Z.to_nat i) softfloat_approxRecipSqrt_1k1s 0 in
  let b := 2 ^ 31 + i / 2 * 2 ^ 28 in
  let c := scale (i mod 2) in
  let p := 2 ^ 20 * k0 in
  let T := 2 ^ 12 * (p + 2 ^ 20) + k1 * (b + 4095) in
  let lo := (2 ^ 103 - 2 ^ 40 * rsqrt_err i) / c + 1 in
  (0 <? k1) && (k1 <? 2 ^ 16) && (k1 <? k0 * 16) && (k0 <? 2 ^ 16)
  && (k0 <? (if (i =? 12) || (i =? 14) then 35020 else 2 ^ 16))
  && (c * (T * (T * T)) <? 27 * k1 * 2 ^ 125)
  && (k1 * (2 * 2 ^ 12 * 2 ^ 16 + b) <=? 2 * 2 ^ 12 * p)
  && (lo <? p * p * b)
  && (lo <? (p - k1 * 2 ^ 16) * (p - k1 * 2 ^ 16) * (b + 2 ^ 12 * 2 ^ 16)).

Lemma rsqrt_index_all i : 0 <= i < 16 -> rsqrt_index_ok i = true.
Proof.
  intros H.
  assert (C : forallb (fun n => rsqrt_index_ok (Z.of_nat n)) (seq 0 16) = true)
    by (vm_compute; reflexivity).
  rewrite forallb_forall in C; specialize (C (Z.to_nat i)).
  rewrite Z2Nat.id in C by lia; apply C, in_seq; lia.
Qed.

Lemma rsqrt_upper c k1 p s x :
  0 < c -> 0 < k1 -> 0 <= x -> 0 <= s -> k1 * x <= p ->
  let T := 2 ^ 12 * p + k1 * s in
  c * (T * (T * T)) < 27 * k1 * 2 ^ 125 ->
  c * ((p - k1 * x) * (p - k1 * x) * (s + 2 ^ 12 * x)) < 2 ^ 103.
Proof.
  intros Hc Hk Hx Hs Hp T H; set (u := p - k1 * x); set (v := s + 2 ^ 12 * x).
  pose proof (means_3 (2 ^ 11 * u) (k1 * v) ltac:(subst u; lia) ltac:(subst v; nia)) as M.
  replace (2 * (2 ^ 11 * u) + k1 * v) with T in M by (subst T u v; ring).
  apply (Z.mul_lt_mono_pos_l (27 * k1 * 2 ^ 22)); [lia|].
  replace (27 * k1 * 2 ^ 22 * (c * (u * u * v)))
    with (c * (27 * (2 ^ 11 * u * (2 ^ 11 * u) * (k1 * v)))) by ring.
  replace (27 * k1 * 2 ^ 22 * 2 ^ 103) with (27 * k1 * 2 ^ 125) by ring.
  eapply Z.le_lt_trans; [apply Z.mul_le_mono_nonneg_l; [lia | exact M] | exact H].
Qed.

(** From the two factors to the product. *)
Lemma rsqrt_product c r0 a u v w z e :
  c = 1 \/ c = 2 -> 0 < r0 -> 0 <= w <= 2 ^ 20 * r0 -> 2 ^ 20 * r0 <= u -> 0 <= z <= a -> a <= v ->
  c * (u * u * v) < 2 ^ 103 -> (2 ^ 103 - 2 ^ 40 * e) / c + 1 < w * w * z ->
  0 < 2 ^ 63 - c * (r0 * r0) * a < e.
Proof.
  intros Hc Hr Hw Hu Hz Hv U L.
  assert (S1 : (2 ^ 20 * r0) * (2 ^ 20 * r0) * a <= u * u * v)
    by (apply Z.mul_le_mono_nonneg; try nia; apply Z.mul_le_mono_nonneg; lia).
  assert (S2 : w * w * z <= (2 ^ 20 * r0) * (2 ^ 20 * r0) * a)
    by (apply Z.mul_le_mono_nonneg; try nia; apply Z.mul_le_mono_nonneg; lia).
  set (g := r0 * r0 * a) in *.
  replace ((2 ^ 20 * r0) * (2 ^ 20 * r0) * a) with (2 ^ 40 * g) in S1, S2 by (subst g; ring).
  replace (c * (r0 * r0) * a) with (c * g) by (subst g; ring).
  clearbody g; set (W := w * w * z) in *; set (V := u * u * v) in *; clearbody V W.
  destruct Hc as [-> | ->]; [rewrite Z.div_1_r in L; lia|].
  pose proof (Z.div_mod (2 ^ 103 - 2 ^ 40 * e) 2 ltac:(lia)).
  pose proof (Z.mod_pos_bound (2 ^ 103 - 2 ^ 40 * e) 2 ltac:(lia)); lia.
Qed.

Lemma rsqrt_r0 i x y k0 k1 :
  0 <= i < 16 -> 0 <= x < 2 ^ 16 -> 0 <= y < 2 ^ 12 ->
  k0 = nth (Z.to_nat i) softfloat_approxRecipSqrt_1k0s 0 ->
  k1 = nth (Z.to_nat i) softfloat_approxRecipSqrt_1k1s 0 ->
  let a := 2 ^ 31 + i / 2 * 2 ^ 28 + x * 2 ^ 12 + y in
  let r0 := k0 - k1 * x / 2 ^ 20 in
  0 <= k1 < 2 ^ 16 /\ 0 < r0 < 2 ^ 16 /\ ((i = 12 \/ i = 14) -> r0 < 35020) /\
  0 < 2 ^ 63 - scale (i mod 2) * (r0 * r0) * a < rsqrt_err i.
Proof.
  intros Hi Hx Hy E0 E1 a r0.
  pose proof (rsqrt_index_all i Hi) as C; unfold rsqrt_index_ok in C.
  rewrite <- E0, <- E1 in C; rewrite !andb_true_iff, !Z.ltb_lt, Z.leb_le in C.
  destruct C as ((((((((C1 & C2) & C3) & C4) & C4') & C5) & C6) & C7) & C8).
  assert (Hb : 2 ^ 31 <= 2 ^ 31 + i / 2 * 2 ^ 28) by (pose proof (Z.div_pos i 2); lia).
  set (b := 2 ^ 31 + i / 2 * 2 ^ 28) in *.
  assert (Hc : scale (i mod 2) = 1 \/ scale (i mod 2) = 2)
    by (unfold scale; pose proof (Z.mod_pos_bound i 2); lia).
  set (c := scale (i mod 2)) in *.
  assert (Hkx : 0 <= k1 * x <= k1 * 2 ^ 16)
    by (split; [apply Z.mul_nonneg_nonneg | apply Z.mul_le_mono_nonneg_l]; lia).
  pose proof (cubic_concave (2 ^ 20 * k0) k1 b (2 ^ 12) (2 ^ 16) x _ ltac:(lia) ltac:(lia)
                ltac:(lia) ltac:(lia) C6 C7 C8) as L; clear C6 C7 C8.
  pose proof (rsqrt_upper c k1 (2 ^ 20 * k0 + 2 ^ 20) (b + 4095) x
                ltac:(clear - Hc; lia) ltac:(lia) ltac:(lia) ltac:(lia) ltac:(lia) C5) as U.
  clear C5; pose proof (div_bounds (k1 * x) (2 ^ 20) ltac:(lia)) as Hq.
  assert (Hr : 0 < r0 < 2 ^ 16) by (subst r0; clear - Hq Hkx C3 C4; lia).
  split; [lia|]; split; [exact Hr|]; split.
  { intros [-> | ->]; cbn in C4'; subst r0; clear - C4' Hq Hkx; lia. }
  eapply (rsqrt_product c r0 a _ _ _ _ (rsqrt_err i) Hc); [| | | | | exact U | exact L];
    subst r0 a; clear L U; try lia.
Qed.

(** ** The iteration

    With [s] the relative error of the initial estimate, in units of [2^-40], the iteration
    multiplies the estimate by [1 + s/2 + 3/8 s^2 + 5/16 s^3], the start of the series of
    [1 / sqrt (1 - s)], every product truncated. *)

Definition series (s : Z) : Z := 2 ^ 124 + 2 ^ 83 * s + 3 * 2 ^ 41 * (s * s) + 5 * (s * s * s).

Lemma series_square s :
  series s * series s * (2 ^ 40 - s)
  = 2 ^ 288 - (35 * 2 ^ 122 * (s * s * (s * s)) + 14 * 2 ^ 82 * (s * s * (s * s) * s)
               + 35 * 2 ^ 40 * (s * s * (s * s) * (s * s)) + 25 * (s * s * (s * s) * (s * s) * s)).
Proof. unfold series; ring. Qed.

Section Iteration.
Context (r0 sg f S t g : Z).
Hypothesis Hr0 : 0 < r0 < 2 ^ 16.
Hypothesis Hsg : 0 <= sg <= 3037000499.
Hypothesis Hf : 2 ^ 25 * f <= r0 * sg < 2 ^ 25 * f + 2 ^ 25.
Hypothesis HS : 2 ^ 32 * S <= sg * sg < 2 ^ 32 * S + 2 ^ 32.
Hypothesis Ht : 5 * (r0 * 2 ^ 16 + f) - 2 ^ 17 * r0 - 11 <= 8 * t <= 5 * (r0 * 2 ^ 16 + f) - 2 ^ 17 * r0.
Hypothesis Hg : 2 ^ 48 * g <= t * S < 2 ^ 48 * g + 2 ^ 48.

Lemma rsqrt_sq : 0 <= sg * sg <= 2 ^ 63.
Proof using Hsg. nia. Qed.

Lemma rsqrt_prod : 0 <= r0 * sg <= 2 ^ 48.
Proof using Hsg Hr0. nia. Qed.

Lemma rsqrt_t : 0 <= t < 2 ^ 32.
Proof using Hsg Hr0 Hf Ht. pose proof rsqrt_prod; lia. Qed.

Lemma rsqrt_above : 2 ^ 124 * (r0 * 2 ^ 16 + f + g) <= r0 * 2 ^ 16 * series sg.
Proof using All.
  pose proof rsqrt_t as T; pose proof rsqrt_sq; pose proof rsqrt_prod.
  assert (A : 2 ^ 80 * g <= t * (sg * sg)) by nia.
  assert (B : 2 ^ 28 * t <= r0 * (3 * 2 ^ 41 + 5 * sg)) by lia.
  assert (C : 2 ^ 28 * t * (sg * sg) <= r0 * (3 * 2 ^ 41 + 5 * sg) * (sg * sg))
    by (apply Z.mul_le_mono_nonneg_r; lia).
  unfold series; lia.
Qed.

Lemma rsqrt_below : r0 * 2 ^ 16 * series sg - 2 ^ 125 - 2 ^ 109 <= 2 ^ 124 * (r0 * 2 ^ 16 + f + g).
Proof using All.
  pose proof rsqrt_t as T; pose proof rsqrt_sq; pose proof rsqrt_prod.
  assert (A : t * (sg * sg) - 2 ^ 32 * t - 2 ^ 80 <= 2 ^ 80 * g) by nia.
  assert (B : r0 * (3 * 2 ^ 41 + 5 * sg) - 16 * 2 ^ 25 <= 2 ^ 28 * t) by lia.
  assert (C : (r0 * (3 * 2 ^ 41 + 5 * sg) - 16 * 2 ^ 25) * (sg * sg) <= 2 ^ 28 * t * (sg * sg))
    by (apply Z.mul_le_mono_nonneg_r; lia).
  unfold series; lia.
Qed.
End Iteration.

Section Bounds.
Context (c a r0 sg r : Z).
Hypothesis Hr0 : 0 < r0 < 2 ^ 16.
Hypothesis Hsg : 0 <= sg <= 3037000499.
Hypothesis HE : 2 ^ 23 * sg + 1 <= 2 ^ 63 - c * (r0 * r0) * a <= 2 ^ 23 * sg + 2 ^ 23.
Hypothesis Hca : 0 < c * a.
Hypothesis Hr : 0 <= r.

Lemma rsqrt_scaled N : (r0 * 2 ^ 16 * N) * (r0 * 2 ^ 16 * N) * (c * a) = 2 ^ 32 * (c * (r0 * r0) * a) * (N * N).
Proof using. ring. Qed.

Lemma rsqrt_less : 2 ^ 124 * r <= r0 * 2 ^ 16 * series sg -> r * r * (c * a) < 2 ^ 95.
Proof using All.
  intros H; assert (N : 0 < series sg) by (unfold series; nia).
  assert (A : (2 ^ 124 * r) * (2 ^ 124 * r) * (c * a)
              <= (r0 * 2 ^ 16 * series sg) * (r0 * 2 ^ 16 * series sg) * (c * a)).
  { apply Z.mul_le_mono_nonneg_r; [lia|]; apply Z.mul_le_mono_nonneg; lia. }
  rewrite rsqrt_scaled in A; set (v := c * (r0 * r0) * a) in *.
  assert (B : v * (series sg * series sg) < 2 ^ 23 * (2 ^ 40 - sg) * (series sg * series sg))
    by (apply Z.mul_lt_mono_pos_r; [nia | lia]).
  pose proof (series_square sg) as Q.
  assert (0 <= sg * sg) by nia.
  assert (0 <= sg * sg * (sg * sg)) by nia.
  assert (0 <= sg * sg * (sg * sg) * sg) by nia.
  assert (0 <= sg * sg * (sg * sg) * (sg * sg)) by nia.
  assert (0 <= sg * sg * (sg * sg) * (sg * sg) * sg) by nia.
  lia.
Qed.

Lemma rsqrt_more N X :
  0 <= N -> 2 ^ 288 <= N * N * (2 ^ 40 - sg - 1) -> r0 * 2 ^ 16 * N <= X ->
    2 ^ 343 <= X * X * (c * a).
Proof using All.
  intros HN Q H.
  assert (A : (r0 * 2 ^ 16 * N) * (r0 * 2 ^ 16 * N) * (c * a) <= X * X * (c * a)).
  { apply Z.mul_le_mono_nonneg_r; [lia|]; apply Z.mul_le_mono_nonneg; nia. }
  rewrite rsqrt_scaled in A; set (v := c * (r0 * r0) * a) in *.
  assert (B : 2 ^ 23 * (2 ^ 40 - sg - 1) * (N * N) <= v * (N * N))
    by (apply Z.mul_le_mono_nonneg_r; [nia | lia]).
  lia.
Qed.
End Bounds.

(** The series, raised by [w], makes up for its tail and for the truncation of [s]. *)
Lemma series_raised s m w :
  0 <= s <= m -> m <= 3037000499 -> 0 <= w ->
  35 * 2 ^ 122 * (m * m * (m * m)) + 14 * 2 ^ 82 * (m * m * (m * m) * m)
  + 35 * 2 ^ 40 * (m * m * (m * m) * (m * m)) + 25 * (m * m * (m * m) * (m * m) * m) + 2 ^ 249
  <= 2 * w * 2 ^ 124 * (2 ^ 40 - m - 1) ->
  2 ^ 288 <= (series s + w) * (series s + w) * (2 ^ 40 - s - 1).
Proof.
  intros Hs Hm Hw H.
  replace ((series s + w) * (series s + w) * (2 ^ 40 - s - 1))
    with (series s * series s * (2 ^ 40 - s) - series s * series s
          + (2 * w * series s + w * w) * (2 ^ 40 - s - 1)) by ring.
  rewrite series_square.
  assert (M2 : 0 <= s * s <= m * m) by nia.
  assert (M4 : 0 <= s * s * (s * s) <= m * m * (m * m)) by nia.
  assert (M5 : 0 <= s * s * (s * s) * s <= m * m * (m * m) * m) by nia.
  assert (M6 : 0 <= s * s * (s * s) * (s * s) <= m * m * (m * m) * (m * m)) by nia.
  assert (M7 : 0 <= s * s * (s * s) * (s * s) * s <= m * m * (m * m) * (m * m) * m) by nia.
  assert (N : 2 ^ 124 <= series s <= 5 * 2 ^ 122).
  { unfold series; assert (0 <= s * s * s <= 2 ^ 63 * 2 ^ 32) by nia; nia. }
  assert (A : series s * series s <= 5 * 2 ^ 122 * (5 * 2 ^ 122)) by nia.
  assert (B : 2 * w * 2 ^ 124 * (2 ^ 40 - m - 1) <= (2 * w * series s + w * w) * (2 ^ 40 - s - 1))
    by (apply Z.mul_le_mono_nonneg; nia).
  lia.
Qed.

(** ** The estimate without its wrap-arounds *)

Definition rsqrt_iter (r0 sg : Z) : Z :=
  let r1 := r0 * 2 ^ 16 + r0 * sg / 2 ^ 25 in
  r1 + (r1 / 2 + r1 / 8 - r0 * 2 ^ 14) * (sg * sg / 2 ^ 32) / 2 ^ 48.

Lemma rsqrt_iter_bounds r0 sg :
  0 < r0 < 2 ^ 16 -> 0 <= sg <= 3037000499 ->
  0 <= r0 * sg / 2 ^ 25 < 2 ^ 24 /\ 0 <= sg * sg / 2 ^ 32 < 2 ^ 32 /\
  (let r1 := r0 * 2 ^ 16 + r0 * sg / 2 ^ 25 in 0 <= r1 / 2 + r1 / 8 - r0 * 2 ^ 14 < 2 ^ 32) /\
  r0 * 2 ^ 16 <= rsqrt_iter r0 sg /\
  2 ^ 124 * rsqrt_iter r0 sg <= r0 * 2 ^ 16 * series sg /\
  r0 * 2 ^ 16 * series sg - 2 ^ 125 - 2 ^ 109 <= 2 ^ 124 * rsqrt_iter r0 sg.
Proof.
  intros Hr Hs; unfold rsqrt_iter.
  set (f := r0 * sg / 2 ^ 25); set (S := sg * sg / 2 ^ 32).
  set (r1 := r0 * 2 ^ 16 + f); cbv zeta; set (t := r1 / 2 + r1 / 8 - r0 * 2 ^ 14).
  set (g := t * S / 2 ^ 48).
  pose proof (div_bounds (r0 * sg) (2 ^ 25) ltac:(lia)) as Hf; fold f in Hf.
  pose proof (div_bounds (sg * sg) (2 ^ 32) ltac:(lia)) as HS; fold S in HS.
  pose proof (div_bounds (t * S) (2 ^ 48) ltac:(lia)) as Hg; fold g in Hg.
  assert (Ht : 5 * r1 - 2 ^ 17 * r0 - 11 <= 8 * t <= 5 * r1 - 2 ^ 17 * r0).
  { subst t; pose proof (div_bounds r1 2 ltac:(lia)); pose proof (div_bounds r1 8 ltac:(lia));
      lia. }
  pose proof (rsqrt_prod r0 sg Hr Hs); pose proof (rsqrt_sq sg Hs).
  pose proof (rsqrt_t r0 sg f t Hr Hs Hf Ht) as T.
  assert (0 <= g) by (subst g; apply Z.div_pos; [apply Z.mul_nonneg_nonneg|]; lia).
  split; [lia|]; split; [lia|]; split; [exact T|]; split; [lia|]; split.
  - apply (rsqrt_above r0 sg f S t g); assumption.
  - apply (rsqrt_below r0 sg f S t g); assumption.
Qed.

Definition rsqrt_index (odd a : Z) : Z := a / 2 ^ 28 mod 8 * 2 + odd.

Definition rsqrt_start (odd a : Z) : Z :=
  let i := Z.to_nat (rsqrt_index odd a) in
  nth i softfloat_approxRecipSqrt_1k0s 0
  - nth i softfloat_approxRecipSqrt_1k1s 0 * (a / 2 ^ 12 mod 2 ^ 16) / 2 ^ 20.

Definition rsqrt_sig (odd a : Z) : Z :=
  (2 ^ 63 - 1 - scale odd * (rsqrt_start odd a * rsqrt_start odd a) * a) / 2 ^ 23.

Section Estimate.
Context (odd a : Z) (Ho : odd = 0 \/ odd = 1) (Ha : 2 ^ 31 <= a < 2 ^ 32).

Lemma rsqrt_start_bounds :
  let i := rsqrt_index odd a in
  0 <= nth (Z.to_nat i) softfloat_approxRecipSqrt_1k1s 0 < 2 ^ 16 /\
  0 < rsqrt_start odd a < 2 ^ 16 /\ (odd = 0 -> 7 * 2 ^ 29 <= a -> rsqrt_start odd a < 35020) /\
  0 < 2 ^ 63 - scale odd * (rsqrt_start odd a * rsqrt_start odd a) * a < rsqrt_err i.
Proof using All.
  intros i; pose proof (Z.mod_pos_bound (a / 2 ^ 28) 8 ltac:(lia)) as M.
  assert (I2 : i / 2 = a / 2 ^ 28 mod 8) by (subst i; unfold rsqrt_index; Z.div_mod_to_equations;
    lia).
  assert (Im : i mod 2 = odd) by (subst i; unfold rsqrt_index; Z.div_mod_to_equations; lia).
  assert (E : a = 2 ^ 31 + i / 2 * 2 ^ 28 + (a / 2 ^ 12 mod 2 ^ 16) * 2 ^ 12 + a mod 2 ^ 12)
    by (rewrite I2; Z.div_mod_to_equations; lia).
  pose proof (rsqrt_r0 i (a / 2 ^ 12 mod 2 ^ 16) (a mod 2 ^ 12) _ _
                ltac:(subst i; unfold rsqrt_index; lia) ltac:(apply Z.mod_pos_bound; lia)
                ltac:(apply Z.mod_pos_bound; lia) eq_refl eq_refl) as P.
  cbv zeta in P; rewrite <- E, Im in P; destruct P as (P1 & P2 & P3 & P4).
  split; [exact P1|]; split; [exact P2|]; split; [|exact P4].
  intros -> L; apply P3; subst i; unfold rsqrt_index; Z.div_mod_to_equations; lia.
Qed.

Lemma rsqrt_sig_bounds :
  0 <= rsqrt_sig odd a <= 3037000499 /\
  (odd = 0 -> 7 * 2 ^ 29 <= a -> rsqrt_sig odd a <= 2 ^ 30) /\
  2 ^ 23 * rsqrt_sig odd a + 1
  <= 2 ^ 63 - scale odd * (rsqrt_start odd a * rsqrt_start odd a) * a
  <= 2 ^ 23 * rsqrt_sig odd a + 2 ^ 23.
Proof using All.
  destruct rsqrt_start_bounds as (_ & _ & _ & E); unfold rsqrt_sig.
  set (v := scale odd * _ * a) in *.
  pose proof (div_bounds (2 ^ 63 - 1 - v) (2 ^ 23) ltac:(lia)).
  assert (B : rsqrt_err (rsqrt_index odd a) <= 3037000499 * 2 ^ 23)
    by (unfold rsqrt_err; destruct (_ || _); lia).
  split; [lia|]; split; [|lia]; intros -> L.
  assert (rsqrt_err (rsqrt_index 0 a) = 2 ^ 53); [|lia].
  unfold rsqrt_err; replace (_ || _) with true; [reflexivity|]; symmetry.
  rewrite orb_true_iff, !Z.eqb_eq; unfold rsqrt_index; clearbody v; Z.div_mod_to_equations; lia.
Qed.

(** The iteration stays below [2^32]. *)
Lemma rsqrt_iter_less :
  let r := rsqrt_iter (rsqrt_start odd a) (rsqrt_sig odd a) in
  0 < r < 2 ^ 32 /\ r * r * (scale odd * a) < 2 ^ 95.
Proof using All.
  destruct rsqrt_start_bounds as (_ & R & _ & _); destruct rsqrt_sig_bounds as (S & _ & E).
  destruct (rsqrt_iter_bounds _ _ R S) as (_ & _ & _ & Lo & Up & _); cbv zeta.
  set (r := rsqrt_iter _ _) in *; assert (Hc : 1 <= scale odd <= 2) by (unfold scale; lia).
  assert (L : r * r * (scale odd * a) < 2 ^ 95)
    by (apply (rsqrt_less (scale odd) a (rsqrt_start odd a) (rsqrt_sig odd a) r); auto; nia).
  split; [|exact L]; split; [lia|]; destruct (Z.lt_ge_cases r (2 ^ 32)) as [|G]; [assumption|].
  assert (2 ^ 32 * 2 ^ 32 <= r * r) by (apply Z.mul_le_mono_nonneg; lia); nia.
Qed.

Lemma rsqrt_sigma :
  u32 (.~ u32 (u64 (scale odd * (rsqrt_start odd a * rsqrt_start odd a) * a) .>> 23)) = rsqrt_sig odd a.
Proof using All.
  destruct rsqrt_start_bounds as (_ & R & _ & E0); destruct rsqrt_sig_bounds as (S & _ & E).
  assert (Hc : 1 <= scale odd <= 2) by (unfold scale; lia).
  set (v := scale odd * _ * a) in *; set (sg := rsqrt_sig odd a) in *.
  assert (0 <= v) by (subst v; nia); rewrite u64_small, shiftr_div by lia.
  unfold u32; rewrite wrap_lnot by (apply wrap_range || idtac; lia).
  pose proof (div_bounds v (2 ^ 23) ltac:(lia)) as B; set (q := v / 2 ^ 23) in *.
  replace (wrap 32 q) with (q - 255 * 2 ^ 32); [lia|].
  rewrite <- (wrap_add 32 q (-255)), wrap_small by lia; lia.
Qed.

Lemma approxRecipSqrt32_1_iter :
  softfloat_approxRecipSqrt32_1 odd a
  = Z.max (2 ^ 31) (rsqrt_iter (rsqrt_start odd a) (rsqrt_sig odd a)).
Proof using All.
  destruct rsqrt_start_bounds as (K & R & _ & E0); destruct rsqrt_sig_bounds as (Sr & _ & E).
  destruct (rsqrt_iter_bounds _ _ R Sr) as (F & Q & T & _); destruct rsqrt_iter_less as [I _].
  unfold softfloat_approxRecipSqrt32_1.
  assert (X : ((a .>> 27) .& 0xE) + odd = rsqrt_index odd a).
  { unfold rsqrt_index; f_equal; rewrite shiftr_div by lia.
    change 0xE with ((2 ^ 3 - 1) * 2 ^ 1); rewrite land_field, Z.div_div by lia; reflexivity. }
  rewrite X, (shiftr_div a 12) by lia.
  change (u16 (a / 2 ^ 12)) with (a / 2 ^ 12 mod 2 ^ 16).
  set (k1 := nth _ softfloat_approxRecipSqrt_1k1s 0) in *.
  pose proof (Z.mod_pos_bound (a / 2 ^ 12) (2 ^ 16) ltac:(lia)) as Y.
  rewrite (u32_small (k1 * _)), shiftr_div by nia.
  change (nth _ softfloat_approxRecipSqrt_1k0s 0 - k1 * _ / 2 ^ 20) with (rsqrt_start odd a).
  rewrite (u16_small (rsqrt_start odd a)) by lia.
  pose proof rsqrt_sigma as Sg; set (r0 := rsqrt_start odd a) in *.
  assert (Hc : 1 <= scale odd <= 2) by (unfold scale; lia).
  assert (C : 0 <= scale odd * (r0 * r0) < 2 ^ 32) by (clear - Hc E0 Ha R; nia).
  assert (ES : (if negb (nz odd) then u32 (u32 (r0 * r0) .<< 1) else u32 (r0 * r0)) = scale odd * (r0 * r0)).
  { unfold scale in *; destruct Ho as [-> | ->]; cbn [nz Z.eqb negb].
    - rewrite (u32_small (r0 * r0)), shiftl_mul, u32_small by (rewrite ?shiftl_mul; lia); lia.
    - rewrite u32_small by lia; lia. }
  rewrite ES, Sg; set (sg := rsqrt_sig odd a) in *; clearbody r0 sg k1.
  pose proof (rsqrt_prod r0 sg R Sr); pose proof (rsqrt_sq sg Sr).
  rewrite (shiftl_mul r0 16), (shiftl_mul r0 14), (u32_small (r0 * 2 ^ 16)), (u32_small (r0 * 2 ^ 14)) by lia.
  rewrite (u64_small (r0 * sg)), (shiftr_div (r0 * sg)) by lia.
  rewrite (u64_small (sg * sg)), (shiftr_div (sg * sg)) by lia.
  unfold rsqrt_iter in *; cbv zeta in *.
  set (r1 := r0 * 2 ^ 16 + r0 * sg / 2 ^ 25) in *; set (S := sg * sg / 2 ^ 32) in *.
  assert (R1 : 0 <= r1 < 2 ^ 32).
  { pose proof (Z.div_pos _ (2 ^ 48) (Z.mul_nonneg_nonneg _ _ (proj1 T) (proj1 Q)) ltac:(lia)).
    split; [subst r1|]; lia. }
  rewrite (u32_small r1), (u32_small S), !(shiftr_div r1) by lia.
  change (2 ^ 1) with 2; change (2 ^ 3) with 8; set (t := r1 / 2 + r1 / 8 - r0 * 2 ^ 14) in *.
  assert (0 <= t * S < 2 ^ 64) by (clear - T Q; nia).
  rewrite (u32_small t), (u64_small (t * S)), shiftr_div by lia.
  rewrite u32_small by lia; change 0x80000000 with (2 ^ 31).
  rewrite nz_top_bit by lia; destruct (Z.leb_spec (2 ^ 31) (r1 + t * S / 2 ^ 48)); cbn [negb]; lia.
Qed.

(** Raising the estimate by [B / 2^h] makes up for the error, when [w] is enough for the
    series and the truncations fit. *)
Lemma rsqrt_raised m w h B :
  rsqrt_sig odd a <= m -> m <= 3037000499 -> 0 <= w -> 0 <= h <= 124 ->
  35 * 2 ^ 122 * (m * m * (m * m)) + 14 * 2 ^ 82 * (m * m * (m * m) * m)
  + 35 * 2 ^ 40 * (m * m * (m * m) * (m * m)) + 25 * (m * m * (m * m) * (m * m) * m) + 2 ^ 249
  <= 2 * w * 2 ^ 124 * (2 ^ 40 - m - 1) ->
  rsqrt_start odd a * 2 ^ 16 * w + 2 ^ 125 + 2 ^ 109 <= B * 2 ^ (124 - h) ->
  let r := 2 ^ h * softfloat_approxRecipSqrt32_1 odd a + B in
  2 ^ 343 <= (2 ^ (124 - h) * r) * (2 ^ (124 - h) * r) * (scale odd * a).
Proof using All.
  intros Hm Hm' Hw Hh Q HB r.
  destruct rsqrt_start_bounds as (_ & R & _); destruct rsqrt_sig_bounds as (S & _ & E).
  destruct (rsqrt_iter_bounds _ _ R S) as (_ & _ & _ & _ & _ & Lo).
  assert (Hc : 1 <= scale odd <= 2) by (unfold scale; lia).
  pose proof (series_raised (rsqrt_sig odd a) m w ltac:(lia) Hm' Hw Q) as N.
  apply (rsqrt_more (scale odd) a (rsqrt_start odd a) (rsqrt_sig odd a) 0 R S E ltac:(nia) ltac:(lia)
           (series (rsqrt_sig odd a) + w)); [|exact N|].
  - unfold series; assert (0 <= rsqrt_sig odd a * rsqrt_sig odd a * rsqrt_sig odd a)
      by (repeat apply Z.mul_nonneg_nonneg; lia); nia.
  - subst r; rewrite approxRecipSqrt32_1_iter; set (x := rsqrt_iter _ _) in *.
    assert (P : 2 ^ (124 - h) * 2 ^ h = 2 ^ 124) by (rewrite <- Z.pow_add_r by lia; f_equal; lia).
    replace (2 ^ (124 - h) * (2 ^ h * Z.max (2 ^ 31) x + B))
      with (2 ^ (124 - h) * 2 ^ h * Z.max (2 ^ 31) x + B * 2 ^ (124 - h)) by ring.
    rewrite P; lia.
Qed.

Lemma approxRecipSqrt32_1_bounds :
  let r := softfloat_approxRecipSqrt32_1 odd a in
  2 ^ 31 <= r < 2 ^ 32 /\ r * r * (scale odd * a) < 2 ^ 95 /\
  2 ^ 101 <= (8 * r + 17) * (8 * r + 17) * (scale odd * a).
Proof using All.
  destruct rsqrt_iter_less as [I L]; destruct rsqrt_start_bounds as (_ & R & _).
  destruct rsqrt_sig_bounds as (S & _).
  pose proof (rsqrt_raised 3037000499 (15 * 2 ^ 85) 3 17 ltac:(lia) ltac:(lia) ltac:(lia) ltac:(lia)
                ltac:(vm_compute; congruence) ltac:(lia)) as H; cbv zeta in H.
  cbv zeta; rewrite approxRecipSqrt32_1_iter in *; set (x := rsqrt_iter _ _) in *.
  split; [lia|]; split; [|change (124 - 3) with 121 in H; change (2 ^ 3) with 8 in H; lia].
  unfold scale in *; destruct (Z.max_spec (2 ^ 31) x) as [[_ ->]|[_ ->]]; [exact L | lia].
Qed.

(** The sharper bound for even exponents and large significands. *)
Lemma approxRecipSqrt32_1_sharp :
  odd = 0 -> 7 * 2 ^ 29 <= a ->
  let r := softfloat_approxRecipSqrt32_1 odd a in
  2 ^ 111 <= (2 ^ 8 * r + 513) * (2 ^ 8 * r + 513) * (2 * a).
Proof using All.
  intros O A r; destruct rsqrt_start_bounds as (_ & R & R' & _).
  destruct rsqrt_sig_bounds as (S & S' & _); specialize (R' O A); specialize (S' O A).
  pose proof (rsqrt_raised (2 ^ 30) (3 * 2 ^ 83) 8 513 S' ltac:(lia) ltac:(lia) ltac:(lia)
                ltac:(vm_compute; congruence) ltac:(lia)) as H; cbv zeta in H; fold r in H.
  replace (scale odd) with 2 in H by (rewrite O; reflexivity); change (124 - 8) with 116 in H; lia.
Qed.
End Estimate.
