(* ===== verification/SfSqrt.v ===== *)
(** * SoftFloat: square root ([f32_sqrt.c], [f64_sqrt.c])

    The significand's root is estimated with the reciprocal root of [SfRecipSqrt], and an
    exact remainder decides where the estimate is too close to a boundary of rounding. *)

From S2P Require Import Prelude FpSpec FpTheory SfEnv SfPrim SfRound SfAdd SfAddF64 SfMul SfConvert.
From S2P Require Import SfRecip SfDiv SfRecipSqrt.
From Stdlib Require Import ZArith Lia Bool List.
Import ListNotations.

(** ** Definitions *)

(** The root of a significand in [[2^23, 2^24)], scaled by the parity of the exponent, with
    its sticky bit: the statements after the normalisation of [f32_sqrt]. *)
Definition f32_sqrt_sig (oddExpA sigA : Z) : Z :=
  let sigA := u32 ((sigA .| 0x00800000) .<< 8) in
  let sigZ := u32 (u64 (sigA * softfloat_approxRecipSqrt32_1 oddExpA sigA) .>> 32) in
  let sigZ := if nz oddExpA then sigZ .>> 1 else sigZ in
  let sigZ := u32 (sigZ + 2) in
  if sigZ .& 0x3F <? 2 then
    let shiftedSigZ := sigZ .>> 2 in
    let negRem := u32 (shiftedSigZ * shiftedSigZ) in
    let sigZ := sigZ .& u32 (.~ 3) in
    if nz (negRem .& 0x80000000) then sigZ .| 1
    else if nz negRem then u32 (sigZ - 1) else sigZ
  else sigZ.

Definition f32_sqrt (a : Z) : fp Z :=
  let uiA := a in
  let signA := signF32UI uiA in
  let expA := expF32UI uiA in
  let sigA := fracF32UI uiA in
  let invalid := softfloat_raiseFlags softfloat_flag_invalid ;;; ret defaultNaNF32UI in
  let proceed (expA sigA : Z) : fp Z :=
    let expZ := ((expA - 0x7F) .>> 1) + 0x7E in
    let expA := expA .& 1 in
    softfloat_roundPackToF32 false expZ (f32_sqrt_sig expA sigA) in
  if expA =? 0xFF then
    if nz sigA then softfloat_propagateNaNF32UI uiA 0
    else if negb signA then ret a
    else invalid
  else if signA then
    if negb (nz (expA .| sigA)) then ret a else invalid
  else if negb (nz expA) then
    if negb (nz sigA) then ret a
    else
      let normExpSig := softfloat_normSubnormalF32Sig sigA in
      proceed (es_exp normExpSig) (es_sig normExpSig)
  else proceed expA sigA.

(** The root of a significand in [[2^52, 2^53)]: the statements after the normalisation of
    [f64_sqrt]. *)
Definition f64_sqrt_sig (oddExpA sigA : Z) : Z :=
  let sigA := sigA .| 0x0010000000000000 in
  let sig32A := u32 (sigA .>> 21) in
  let recipSqrt32 := softfloat_approxRecipSqrt32_1 oddExpA sig32A in
  let sig32Z := u32 (u64 (sig32A * recipSqrt32) .>> 32) in
  let '(sigA, sig32Z) :=
    if nz oddExpA then (u64 (sigA .<< 8), sig32Z .>> 1) else (u64 (sigA .<< 9), sig32Z) in
  let rem := u64 (sigA - u64 (sig32Z * sig32Z)) in
  let q := u32 (u64 (u32 (rem .>> 2) * recipSqrt32) .>> 32) in
  let sigZ := u64 ((u64 (sig32Z .<< 32) .| (1 .<< 5)) + u64 (q .<< 3)) in
  if sigZ .& 0x1FF <? 0x22 then
    let sigZ := sigZ .& u64 (.~ 0x3F) in
    let shiftedSigZ := sigZ .>> 6 in
    let rem := u64 (u64 (sigA .<< 52) - u64 (shiftedSigZ * shiftedSigZ)) in
    if nz (rem .& 0x8000000000000000) then u64 (sigZ - 1)
    else if nz rem then sigZ .| 1 else sigZ
  else sigZ.

Definition f64_sqrt (a : Z) : fp Z :=
  let uiA := a in
  let signA := signF64UI uiA in
  let expA := expF64UI uiA in
  let sigA := fracF64UI uiA in
  let invalid := softfloat_raiseFlags softfloat_flag_invalid ;;; ret defaultNaNF64UI in
  let proceed (expA sigA : Z) : fp Z :=
    let expZ := ((expA - 0x3FF) .>> 1) + 0x3FE in
    let expA := expA .& 1 in
    softfloat_roundPackToF64 false expZ (f64_sqrt_sig expA sigA) in
  if expA =? 0x7FF then
    if nz sigA then softfloat_propagateNaNF64UI uiA 0
    else if negb signA then ret a
    else invalid
  else if signA then
    if negb (nz (expA .| sigA)) then ret a else invalid
  else if negb (nz expA) then
    if negb (nz sigA) then ret a
    else
      let normExpSig := softfloat_normSubnormalF64Sig sigA in
      proceed (es_exp normExpSig) (es_sig normExpSig)
  else proceed expA sigA.

(** ** Roots up to a block

    Twice the root of [x], with a half unit for the part of an irrational root below the
    unit: what the specification rounds. *)

Definition root2 (x : Z) : Z := 2 * Z.sqrt x + b2z (nz (x - Z.sqrt x * Z.sqrt x)).

Lemma root2_lt x k : 0 <= x -> 0 <= k -> k * k < x -> 2 * k < root2 x.
Proof.
  intros Hx Hk H; unfold root2, nz; pose proof (Z.sqrt_spec x Hx).
  assert (k <= Z.sqrt x) by (apply Z.sqrt_le_square; lia).
  destruct (Z.eq_dec k (Z.sqrt x)) as [->|]; [|destruct (x - _ =? 0); cbn [negb b2z]; lia].
  rewrite (proj2 (Z.eqb_neq _ 0)) by lia; cbn [negb b2z]; lia.
Qed.

Lemma root2_gt x k : 0 <= x -> 0 <= k -> x < k * k -> root2 x < 2 * k.
Proof.
  intros Hx Hk H; unfold root2; assert (Z.sqrt x < k) by (apply Z.sqrt_lt_square; lia).
  destruct (nz _); cbn [b2z]; lia.
Qed.

Lemma root2_square k : 0 <= k -> root2 (k * k) = 2 * k.
Proof. intros; unfold root2; rewrite Z.sqrt_square, Z.sub_diag by lia; cbn [nz Z.eqb negb b2z];
  lia. Qed.

(** [z] and the root of [x] lie in the same open block of [G] integers, or both at its start. *)
Definition root_block (G z x : Z) : Prop :=
  exists n l, z = G * n + l /\ 0 <= n /\
    ((0 < l < G /\ (G * n) * (G * n) < x < (G * (n + 1)) * (G * (n + 1))) \/
     (l = 0 /\ x = (G * n) * (G * n))).

Lemma root_block_stands G z x : 0 < G -> root_block G z x -> stands_for G z (root2 x) 2.
Proof.
  intros HG (n & l & -> & Hn & [(Hl & Hx) | (-> & ->)]).
  - apply stands_open; [lia | exact Hl|].
    pose proof (root2_lt x (G * n) ltac:(nia) ltac:(nia) ltac:(lia)).
    pose proof (root2_gt x (G * (n + 1)) ltac:(nia) ltac:(nia) ltac:(lia)); lia.
  - rewrite Z.add_0_r; apply stands_exact; [lia | lia|]; rewrite root2_square; nia.
Qed.

Lemma root_block_scale G z x c : 0 < c -> root_block G z x ->
  root_block (G * c) (z * c) (x * (c * c)).
Proof.
  intros Hc (n & l & -> & Hn & H); exists n, (l * c); split; [ring|]; split; [exact Hn|].
  destruct H as [(Hl & Hx) | (-> & ->)]; [left | right; split; ring].
  split; [nia|]; assert (0 < c * c) by nia.
  replace (G * c * n * (G * c * n)) with (G * n * (G * n) * (c * c)) by ring.
  replace (G * c * (n + 1) * (G * c * (n + 1))) with (G * (n + 1) * (G * (n + 1)) * (c * c)) by ring.
  split; apply Z.mul_lt_mono_pos_r; lia.
Qed.

Lemma root_block_range G z x n : 0 < G -> 0 <= n -> root_block G z x ->
  (G * n) * (G * n) <= x < (G * (2 * n)) * (G * (2 * n)) -> G * n <= z < G * (2 * n).
Proof.
  intros HG Hn R Hx; destruct (root_block_stands G z x HG R) as [Q _].
  assert (Z.sqrt x < G * (2 * n)) by (apply Z.sqrt_lt_square; nia).
  assert (G * n <= Z.sqrt x) by (apply Z.sqrt_le_square; nia).
  assert (B : 2 * Z.sqrt x <= root2 x <= 2 * Z.sqrt x + 1) by (unfold root2; destruct (nz _);
    cbn [b2z]; lia).
  assert (n <= root2 x / (2 * G)) by (apply Z.div_le_lower_bound; nia).
  assert (root2 x / (2 * G) < 2 * n) by (apply Z.div_lt_upper_bound; nia).
  pose proof (div_bounds z G HG); nia.
Qed.

(** Rounding a root: [y] is [x] scaled by an even power of two. *)
Lemma round_root F rm s z x y g k :
  0 < fbits F -> 1 <= g -> 0 <= k -> 2 ^ (fbits F + 1 + g) <= z ->
  root_block (2 ^ g) z x -> y = x * (2 ^ k * 2 ^ k) ->
  round_scaled F rm s z 1 k = ieee_round F rm s (root2 y) 2.
Proof.
  intros Hf Hg Hk Hz R ->; pose proof (pow2_pos k Hk); pose proof (pow2_pos g ltac:(lia)).
  pose proof (root_block_scale _ _ _ (2 ^ k) ltac:(lia) R) as R'.
  destruct (root_block_stands (2 ^ g * 2 ^ k) _ _ ltac:(nia) R') as [Q I].
  rewrite <- (Z.pow_add_r 2 g k) in Q, I by lia.
  rewrite <- (Z.add_0_l k) at 1; rewrite <- round_scaled_shift by lia.
  rewrite (round_scaled_sticky F rm s (z * 2 ^ k) (root2 (x * (2 ^ k * 2 ^ k))) 2 (g + k)); auto;
    try lia.
  - unfold round_scaled; rewrite !Z.mul_1_r; reflexivity.
  - rewrite Z.add_assoc, Z.pow_add_r by lia; apply Z.mul_le_mono_nonneg_r; lia.
Qed.

(** ** The root of a single-precision significand *)

Section SqrtSigF32.
Context (c a r : Z).
Hypothesis Hc : c = 1 \/ c = 2.
Hypothesis Ha : 2 ^ 31 <= a < 2 ^ 32.
Hypothesis Hr : 2 ^ 31 <= r < 2 ^ 32.
Hypothesis Hup : r * r * (c * a) < 2 ^ 95.
Hypothesis Hlo : 2 ^ 101 <= (8 * r + 17) * (8 * r + 17) * (c * a).

(** [c] is 1 when the exponent is odd and the estimate is halved. *)
Definition sqrt_est : Z := if c =? 1 then a * r / 2 ^ 32 / 2 else a * r / 2 ^ 32.

Lemma sqrt_est_less : 0 <= sqrt_est /\ sqrt_est * sqrt_est < 2 ^ 29 * (c * a).
Proof using All.
  unfold sqrt_est; pose proof (div_bounds (a * r) (2 ^ 32) ltac:(lia)) as B.
  set (e := a * r / 2 ^ 32) in *; assert (0 <= e) by (apply Z.div_pos; nia).
  assert (S : (2 ^ 32 * e) * (2 ^ 32 * e) <= (a * r) * (a * r)) by (apply Z.mul_le_mono_nonneg;
    lia).
  assert (T : (a * r) * (a * r) * c < a * 2 ^ 95).
  { replace (a * r * (a * r) * c) with (a * (r * r * (c * a))) by ring.
    apply Z.mul_lt_mono_pos_l; lia. }
  destruct Hc as [-> | ->]; cbn [Z.eqb Pos.eqb]; [|split; lia].
  pose proof (div_bounds e 2 ltac:(lia)) as D; set (s := e / 2) in *.
  assert (0 <= s) by lia; split; [lia|].
  assert ((2 * s) * (2 * s) <= e * e) by (apply Z.mul_le_mono_nonneg; lia); lia.
Qed.

(** For a halved estimate, and for the smaller significands of an even exponent. *)
Lemma sqrt_est_close : (c = 1 \/ a <= 7 * 2 ^ 29) ->
  2 ^ 29 * (c * a) < (sqrt_est + 3) * (sqrt_est + 3).
Proof using All.
  intros Hs; unfold sqrt_est; pose proof (div_bounds (a * r) (2 ^ 32) ltac:(lia)) as B.
  set (e := a * r / 2 ^ 32) in *; assert (0 <= e) by (apply Z.div_pos; nia).
  set (w := 2 ^ 35 * (e + 1) + 17 * a).
  assert (W : a * (8 * r + 17) < w) by (subst w; lia).
  assert (S : (a * (8 * r + 17)) * (a * (8 * r + 17)) < w * w) by (apply Z.square_lt_mono_nonneg;
    lia).
  assert (T : a * 2 ^ 101 <= a * (8 * r + 17) * (a * (8 * r + 17)) * c).
  { replace (a * (8 * r + 17) * (a * (8 * r + 17)) * c)
      with (a * ((8 * r + 17) * (8 * r + 17) * (c * a))) by ring.
    apply Z.mul_le_mono_nonneg_l; lia. }
  destruct Hc as [-> | ->]; cbn [Z.eqb Pos.eqb].
  - pose proof (div_bounds e 2 ltac:(lia)) as D; set (s := e / 2) in *.
    assert (w * w <= (2 ^ 36 * (s + 3)) * (2 ^ 36 * (s + 3))) by (apply Z.mul_le_mono_nonneg;
      subst w; lia).
    lia.
  - assert (w * w <= (2 ^ 35 * (e + 3)) * (2 ^ 35 * (e + 3))) by (apply Z.mul_le_mono_nonneg;
      subst w; lia).
    lia.
Qed.
End SqrtSigF32.

(** The candidates [2^24 - (t - j)] with [t^2] just below [2^26 * j]. *)
Definition candidate (j : Z) : Z := 2 ^ 24 - (Z.sqrt (2 ^ 26 * j) - j).

Definition candidate_ok (j : Z) : bool :=
  let a := candidate j * 2 ^ 8 in
  let s := a * softfloat_approxRecipSqrt32_1 0 a / 2 ^ 32 in
  2 ^ 30 * a <? (s + 3) * (s + 3).

Lemma candidates_ok j : 1 <= j <= 16 -> candidate_ok j = true.
Proof.
  intros H.
  assert (C : forallb (fun n => candidate_ok (Z.of_nat n)) (seq 1 16) = true) by (vm_compute;
    reflexivity).
  rewrite forallb_forall in C; specialize (C (Z.to_nat j)).
  rewrite Z2Nat.id in C by lia; apply C, in_seq; lia.
Qed.

(** An integer root [64 * K] just below the root of [2^38 * m] gives a candidate. *)
Lemma close_candidate m K :
  m < 2 ^ 24 ->
  2 ^ 24 - 2 ^ 15 <= m -> 0 <= K -> K * K <= 2 ^ 26 * m -> 2 ^ 26 * m <= K * K + 2 ^ 12 ->
  exists j, 1 <= j <= 16 /\ m = candidate j.
Proof.
  intros Hm M HK L U; set (t := 2 ^ 25 - K); set (j := t - (2 ^ 24 - m)).
  assert (K < 2 ^ 25) by (destruct (Z.lt_ge_cases K (2 ^ 25)); [assumption | nia]).
  assert (E : K * K = 2 ^ 50 - 2 ^ 26 * t + t * t) by (subst t; ring).
  assert (T1 : t * t <= 2 ^ 26 * j) by (subst j; lia).
  assert (T2 : 2 ^ 26 * j <= t * t + 2 ^ 12) by (subst j; lia).
  assert (0 < t) by (subst t; lia); assert (J1 : 1 <= j) by nia.
  assert (Tj : t <= 2 ^ 15 + j) by (subst j; lia).
  assert (j <= 2 ^ 25) by (subst j t; lia).
  assert (t * t <= (2 ^ 15 + j) * (2 ^ 15 + j)) by (apply Z.mul_le_mono_nonneg; lia).
  assert (J0 : j <= 33) by (assert (j * j <= 2 ^ 25 * j) by (apply Z.mul_le_mono_nonneg_r; lia);
    lia).
  assert (J2 : j <= 16) by (assert (j * j <= 33 * j) by (apply Z.mul_le_mono_nonneg_r; lia); lia).
  assert (8000 < t).
  { destruct (Z.le_gt_cases t 8000); [|assumption].
    assert (t * t <= 8000 * 8000) by (apply Z.mul_le_mono_nonneg; lia); lia. }
  exists j; split; [lia|]; unfold candidate.
  replace (Z.sqrt (2 ^ 26 * j)) with t by (symmetry; apply Z.sqrt_unique; lia).
  subst j; lia.
Qed.

(** The largest significands of an even exponent: the estimate may be short by three units
    and a little more, but only where the root is close above a multiple of 64, which leaves
    sixteen candidates. *)
Section Largest.
Context (m r : Z).
Hypothesis Hm : 7 * 2 ^ 21 < m < 2 ^ 24.
Hypothesis Hr : 2 ^ 31 <= r < 2 ^ 32.
Hypothesis Hsharp : 2 ^ 111 <= (2 ^ 8 * r + 513) * (2 ^ 8 * r + 513) * (2 * (m * 2 ^ 8)).

Lemma largest_short :
  let s := m * 2 ^ 8 * r / 2 ^ 32 in
  0 <= s /\ 2 ^ 38 * m * 2 ^ 16 < (2 ^ 8 * (s + 3) + 1) * (2 ^ 8 * (s + 3) + 1) /\
  (m < 2 ^ 24 - 2 ^ 15 -> 2 ^ 38 * m < (s + 3) * (s + 3)).
Proof using Hm Hr Hsharp.
  intros s; set (a := m * 2 ^ 8) in *; assert (Ha : 2 ^ 31 <= a < 2 ^ 32) by (subst a; lia).
  replace (2 ^ 38 * m) with (2 ^ 30 * a) by (subst a; ring).
  pose proof (div_bounds (a * r) (2 ^ 32) ltac:(lia)) as B; fold s in B.
  assert (0 <= s) by (apply Z.div_pos; nia); clearbody s.
  assert (Am : m < 2 ^ 24 - 2 ^ 15 -> a < 2 ^ 32 - 2 ^ 23) by (subst a; lia); clearbody a.
  set (w := 2 ^ 40 * (s + 1) + 513 * a).
  assert (W : a * (2 ^ 8 * r + 513) < w) by (subst w; lia).
  assert (S : (a * (2 ^ 8 * r + 513)) * (a * (2 ^ 8 * r + 513)) < w * w)
    by (apply Z.square_lt_mono_nonneg; lia).
  assert (T : a * 2 ^ 111 <= a * (2 ^ 8 * r + 513) * (a * (2 ^ 8 * r + 513)) * 2).
  { replace (a * (2 ^ 8 * r + 513) * (a * (2 ^ 8 * r + 513)) * 2)
      with (a * ((2 ^ 8 * r + 513) * (2 ^ 8 * r + 513) * (2 * a))) by ring.
    apply Z.mul_le_mono_nonneg_l; lia. }
  split; [assumption|]; split.
  - assert (w * w <= (2 ^ 32 * (2 ^ 8 * (s + 3) + 1)) * (2 ^ 32 * (2 ^ 8 * (s + 3) + 1)))
      by (apply Z.mul_le_mono_nonneg; subst w; lia).
    lia.
  - intros M; specialize (Am M); assert (w * w <= (2 ^ 40 * (s + 3)) * (2 ^ 40 * (s + 3)))
      by (apply Z.mul_le_mono_nonneg; subst w; lia).
    lia.
Qed.

Lemma largest_close :
  r = softfloat_approxRecipSqrt32_1 0 (m * 2 ^ 8) ->
  let s := m * 2 ^ 8 * r / 2 ^ 32 in
  s mod 64 = 61 -> 2 ^ 38 * m < (s + 3) * (s + 3).
Proof using Hm Hr Hsharp.
  intros Er s Hs; destruct largest_short as (S0 & U & L); fold s in S0, U, L.
  destruct (Z.lt_ge_cases m (2 ^ 24 - 2 ^ 15)) as [|M]; [auto|].
  destruct (Z.lt_ge_cases (2 ^ 38 * m) ((s + 3) * (s + 3))) as [|N]; [assumption | exfalso].
  set (K := (s + 3) / 64).
  assert (EK : s + 3 = 64 * K) by (subst K; clearbody s; Z.div_mod_to_equations; lia).
  assert (C : forall j, m = candidate j -> 1 <= j <= 16 -> 2 ^ 38 * m < (s + 3) * (s + 3)).
  { intros j E Hj; pose proof (candidates_ok j Hj) as C; unfold candidate_ok in C;
      rewrite <- E, <- Er in C.
    fold s in C; rewrite Z.ltb_lt in C; clearbody s; lia. }
  clearbody s K; rewrite EK in U, N, C.
  assert (K < 2 ^ 25) by (destruct (Z.lt_ge_cases K (2 ^ 25)); [assumption | nia]).
  destruct (close_candidate m K) as (j & Hj & E); [lia | lia | lia | lia | lia|].
  specialize (C j E Hj); lia.
Qed.
End Largest.

Lemma u32_sign x : - 2 ^ 31 <= x < 2 ^ 31 -> nz (u32 x .& 0x80000000) = (x <? 0).
Proof.
  intros H; change 0x80000000 with (2 ^ 31); rewrite nz_top_bit by (lia || apply u32_range).
  destruct (Z.ltb_spec x 0).
  - unfold u32; rewrite <- (wrap_add 32 x 1), wrap_small by lia; apply Z.leb_le; lia.
  - rewrite u32_small by lia; apply Z.leb_gt; lia.
Qed.

(** The estimate, raised by two, and the correction by the exact remainder. *)
Lemma sqrt_correctF32 s h :
  let x := h * 2 ^ 36 in
  2 ^ 60 <= x < 2 ^ 62 -> 0 <= s -> s * s < x < (s + 4) * (s + 4) ->
  (s mod 64 = 61 -> x < (s + 3) * (s + 3)) ->
  let sigZ := u32 (s + 2) in
  let z :=
    if sigZ .& 0x3F <? 2 then
      let shiftedSigZ := sigZ .>> 2 in
      let negRem := u32 (shiftedSigZ * shiftedSigZ) in
      let sigZ := sigZ .& u32 (.~ 3) in
      if nz (negRem .& 0x80000000) then sigZ .| 1
      else if nz negRem then u32 (sigZ - 1) else sigZ
    else sigZ in
  root_block 64 z x.
Proof.
  intros x Hx Hs Hb Hc sigZ z; subst sigZ z.
  assert (Rs : 2 ^ 30 < s + 4 /\ s < 2 ^ 31) by nia.
  rewrite (u32_small (s + 2)) by lia; set (t := s + 2) in *.
  change 0x3F with (2 ^ 6 - 1); rewrite land_ones_mod by lia; change (2 ^ 6) with 64.
  pose proof (Z.div_mod t 64 ltac:(lia)) as D; pose proof (Z.mod_pos_bound t 64 ltac:(lia)) as M.
  set (n := t / 64) in *; set (l := t mod 64) in *; assert (Hn : 0 <= n) by lia.
  assert (Cl : l = 63 -> x < (s + 3) * (s + 3)) by (intros L; apply Hc; clear Hc Hb;
    Z.div_mod_to_equations; lia).
  destruct (Z.ltb_spec l 2) as [L|L].
  2: { exists n, l; split; [exact D|]; split; [exact Hn|]; left; split; [lia|]; split; [nia|].
       destruct (Z.eq_dec l 63) as [E|].
       - specialize (Cl E); replace (64 * (n + 1)) with (s + 3) by lia; lia.
       - assert ((s + 4) * (s + 4) <= 64 * (n + 1) * (64 * (n + 1))) by (apply Z.mul_le_mono_nonneg; lia).
         lia. }
  assert (N : t .& u32 (.~ 3) = 64 * n).
  { change 3 with (2 ^ 2 - 1); unfold u32; rewrite land_not_ones by lia.
    change (2 ^ 2) with 4; clearbody n l; Z.div_mod_to_equations; lia. }
  assert (Q : t .>> 2 = 16 * n).
  { rewrite shiftr_div by lia; change (2 ^ 2) with 4; clearbody n l; Z.div_mod_to_equations; lia. }
  cbv zeta; rewrite N, Q; set (d := 16 * n * (16 * n) - h * 2 ^ 32).
  assert (Ed : u32 (16 * n * (16 * n)) = u32 d).
  { replace d with (16 * n * (16 * n) + - h * 2 ^ 32) by (subst d; ring).
    symmetry; apply (wrap_add 32); lia. }
  assert (E16 : 16 * d = 64 * n * (64 * n) - x) by (subst d x; ring).
  assert (Rd : - 2 ^ 31 <= d < 2 ^ 31) by nia.
  rewrite Ed, u32_sign by lia; destruct (Z.ltb_spec d 0) as [Nd|Nd].
  - replace (64 * n .| 1) with (64 * n + 1)
      by (rewrite lor_1; f_equal; clearbody n l; Z.div_mod_to_equations; lia).
    exists n, 1; split; [reflexivity|]; split; [exact Hn|]; left; nia.
  - rewrite u32_small by lia; unfold nz; destruct (Z.eqb_spec d 0) as [E|E]; cbn [negb].
    + exists n, 0; split; [lia|]; split; [exact Hn|]; right; lia.
    + rewrite u32_small by lia; exists (n - 1), 63; split; [lia|]; split; [lia|]; left; nia.
Qed.

(** The estimate is short by less than three units, or by less than four away from the
    boundary of a block. *)
Lemma sqrt_est_short odd m :
  odd = 0 \/ odd = 1 -> 2 ^ 23 <= m < 2 ^ 24 ->
  let s := sqrt_est (scale odd) (m * 2 ^ 8) (softfloat_approxRecipSqrt32_1 odd (m * 2 ^ 8)) in
  let x := scale odd * m * 2 ^ 37 in
  0 <= s /\ s * s < x < (s + 4) * (s + 4) /\ (s mod 64 = 61 -> x < (s + 3) * (s + 3)).
Proof.
  intros Ho Hm s x; assert (Ha : 2 ^ 31 <= m * 2 ^ 8 < 2 ^ 32) by lia.
  assert (Hc : scale odd = 1 \/ scale odd = 2) by (unfold scale; lia).
  destruct (approxRecipSqrt32_1_bounds odd (m * 2 ^ 8) Ho Ha) as (Hr & Hup & Hlo).
  destruct (sqrt_est_less (scale odd) (m * 2 ^ 8) _ Hc Ha Hr Hup Hlo) as [S0 S1]; fold s in S0, S1.
  pose proof (sqrt_est_close (scale odd) (m * 2 ^ 8) _ Hc Ha Hr Hup Hlo) as S2; fold s in S2.
  replace (2 ^ 29 * (scale odd * (m * 2 ^ 8))) with x in * by (subst x; ring).
  split; [exact S0|].
  assert (D : (scale odd = 1 \/ m * 2 ^ 8 <= 7 * 2 ^ 29) \/ (odd = 0 /\ 7 * 2 ^ 21 < m))
    by (unfold scale; lia).
  destruct D as [D | [-> Hl]]; [specialize (S2 D); repeat split; auto; nia|].
  pose proof (approxRecipSqrt32_1_sharp 0 (m * 2 ^ 8) Ho Ha eq_refl ltac:(lia)) as Hsh.
  pose proof (largest_short m _ ltac:(lia) Hr Hsh) as (_ & U & _).
  pose proof (largest_close m _ ltac:(lia) Hr Hsh eq_refl) as L; cbv zeta in L, U.
  change (m * 2 ^ 8 * softfloat_approxRecipSqrt32_1 0 (m * 2 ^ 8) / 2 ^ 32) with s in L, U.
  replace (2 ^ 38 * m) with x in L, U by (subst x; unfold scale; ring).
  clearbody s x; repeat split; [exact S1 | | exact L].
  assert ((2 ^ 8 * (s + 3) + 1) * (2 ^ 8 * (s + 3) + 1) <= (2 ^ 8 * (s + 4)) * (2 ^ 8 * (s + 4)))
    by (apply Z.mul_le_mono_nonneg; lia).
  lia.
Qed.

Lemma f32_sqrt_sig_spec odd sigA :
  odd = 0 \/ odd = 1 -> let m := sigA .| 0x00800000 in 2 ^ 23 <= m < 2 ^ 24 ->
  let z := f32_sqrt_sig odd sigA in
  2 ^ 30 <= z < 2 ^ 31 /\ root_block 64 z (scale odd * m * 2 ^ 37).
Proof.
  intros Ho m Hm z; subst z; unfold f32_sqrt_sig; fold m; rewrite shiftl_mul by lia.
  rewrite (u32_small (m * 2 ^ 8)) by lia; set (a := m * 2 ^ 8).
  assert (Ha : 2 ^ 31 <= a < 2 ^ 32) by (subst a; lia).
  assert (Hc : scale odd = 1 \/ scale odd = 2) by (unfold scale; lia).
  destruct (approxRecipSqrt32_1_bounds odd a Ho Ha) as (Hr & _).
  set (r := softfloat_approxRecipSqrt32_1 odd a) in *.
  assert (Es : (if nz odd then u32 (u64 (a * r) .>> 32) .>> 1 else u32 (u64 (a * r) .>> 32))
               = sqrt_est (scale odd) a r).
  { assert (0 <= a * r < 2 ^ 64) by nia.
    rewrite (u64_small (a * r)), (shiftr_div (a * r)), u32_small, shiftr_div
      by (first [lia | split; [apply Z.div_pos | apply Z.div_lt_upper_bound]; lia]).
    unfold sqrt_est, scale; destruct Ho as [-> | ->]; reflexivity. }
  rewrite Es; pose proof (sqrt_est_short odd m Ho Hm) as S; cbv zeta in S; fold a in S; fold r in S.
  set (x := scale odd * m * 2 ^ 37) in *; set (s := sqrt_est (scale odd) a r) in *.
  assert (Hx : 2 ^ 60 <= x < 2 ^ 62) by (subst x; destruct Hc as [-> | ->]; lia).
  set (z := if _ <? 2 then _ else _).
  assert (R : root_block 64 z x).
  { replace x with (2 * (scale odd * m) * 2 ^ 36) in * by (subst x; ring).
    destruct S as (S0 & S1 & S2); exact (sqrt_correctF32 s _ Hx S0 S1 S2). }
  split; [|exact R]; exact (root_block_range 64 z x (2 ^ 24) ltac:(lia) ltac:(lia) R ltac:(lia)).
Qed.

(** ** Rounding the root *)

Lemma scale_pow odd : odd = 0 \/ odd = 1 -> scale odd = 2 ^ (1 - odd).
Proof. intros [-> | ->]; reflexivity. Qed.

Lemma sqrt_operand F a m e j k :
  1 <= fbits F -> norm_operand F a m e -> 0 <= j -> 0 <= k -> 0 <= one_exp F ->
  2 * k + j + (1 - e mod 2) = e - 1 + one_exp F ->
  mag F a * 2 ^ one_exp F = scale (e mod 2) * m * 2 ^ j * (2 ^ k * 2 ^ k).
Proof.
  intros Hf (_ & He & E) Hj Hk Ho H; pose proof (Z.mod_pos_bound e 2 ltac:(lia)).
  rewrite scale_pow by lia; apply (Z.mul_reg_r _ _ (2 ^ (fbits F + 1))); [apply Z.pow_nonzero;
    lia|].
  transitivity (mag F a * 2 ^ (fbits F + 1) * 2 ^ one_exp F); [ring|]; rewrite E.
  transitivity (m * (2 ^ (e + fbits F) * 2 ^ one_exp F)); [ring|].
  transitivity (m * (2 ^ (1 - e mod 2) * 2 ^ j * 2 ^ k * 2 ^ k * 2 ^ (fbits F + 1))); [|ring].
  rewrite <- !Z.pow_add_r by lia; do 2 f_equal; lia.
Qed.

Lemma land_1_mod2 e : e .& 1 = e mod 2.
Proof. change 1 with (2 ^ 1 - 1); rewrite land_ones_mod by lia; reflexivity. Qed.

Lemma sqrtF32_finish a sigA e :
  norm_operand F32 a (sigA .| 0x00800000) e ->
  meets (softfloat_roundPackToF32 false (((e - 0x7F) .>> 1) + 0x7E) (f32_sqrt_sig (e .& 1) sigA))
    (fun rm => ieee_round F32 rm false (root2 (mag F32 a * 2 ^ one_exp F32)) 2).
Proof.
  intros N rm fl; assert (Hm : 2 ^ 23 <= sigA .| 0x00800000 < 2 ^ 24) by apply N.
  assert (He : -22 <= e < 255) by apply N.
  rewrite land_1_mod2, shiftr_div by lia; pose proof (Z.mod_pos_bound e 2 ltac:(lia)).
  destruct (f32_sqrt_sig_spec (e mod 2) sigA ltac:(lia) Hm) as [Hz R].
  set (z := f32_sqrt_sig (e mod 2) sigA) in *; set (k := (e - 0x7F) / 2 ^ 1 + 0x7E - 7).
  assert (Hk : 2 * k + 37 + (1 - e mod 2) = e - 1 + 149 /\ 0 <= k)
    by (subst k; clear - He; Z.div_mod_to_equations; lia).
  rewrite roundPackToF32_spec by (subst k; lia); fold k.
  rewrite (round_root F32 rm false z _ (mag F32 a * 2 ^ one_exp F32) 6 k ltac:(cbn; lia) ltac:(lia)
             ltac:(lia) ltac:(cbn [fbits F32]; lia) R); [reflexivity|].
  apply sqrt_operand; auto; try (cbn; lia); change (one_exp F32) with 149; lia.
Qed.

(** The cases of a root by the class of its operand; [fin] ends the finite case. *)
Ltac sqrt_cases F a m Np fin :=
  destruct (Z.eqb_spec (fexp F a) m) as [Ia | Ia];
  [ rewrite (proj2 (Z.eqb_neq (fexp F a) 0)) by lia;
    destruct (Z.eqb_spec (ffrac F a) 0); classify F a; cbn [negb andb];
    destruct (fsign F a); cbn [negb];
    try (rewrite Np; unfold nan_result; change (is_snan F 0) with false;
         rewrite orb_false_r, orb_diag; reflexivity)
  | classify F a; destruct (Z.eqb_spec (fexp F a) 0), (Z.eqb_spec (ffrac F a) 0), (fsign F a);
    cbn [negb orb andb] ];
  first [ cbn [fst snd]; unfold ret; rewrite Z.lor_0_r; reflexivity | reflexivity
        | apply fin; auto ].

Lemma f32_sqrt_spec a :
  0 <= a < 0x100000000 -> meets (f32_sqrt a) (fun rm => ieee_sqrt F32 rm a).
Proof.
  intros Ha rm fl; unfold f32_sqrt; cbv zeta; autorewrite with sf_fields.
  pose proof (ffrac_range F32 a ltac:(cbn; lia)); pose proof (fexp_range F32 a ltac:(cbn; lia)).
  change (fbits F32) with 23 in *; change (emax F32) with 0xFF in *.
  pose proof (propagateNaNF32UI_spec a 0 rm fl) as Np.
  pose proof (norm_normalF32 a) as Na; pose proof (norm_subnormalF32 a) as Sa.
  unfold ieee_sqrt; fold (root2 (mag F32 a * 2 ^ one_exp F32)).
  rewrite mag_zero, !nz_lor by (cbn; lia); unfold nz.
  sqrt_cases F32 a 0xFF Np sqrtF32_finish.
Qed.

(** ** The root of a double-precision significand

    [b] is the 32-bit head of the significand scaled by the parity of the exponent, [A] the
    significand scaled to the square of the 32-bit estimate [s], and [r] the reciprocal root
    of [b]; one step of Newton's method with the remainder [A - s * s] gives the rest. *)

Section SqrtSigF64.
Context (c b r s A : Z).
Hypothesis Hc : c = 1 \/ c = 2.
Hypothesis Hb : c * 2 ^ 31 <= b < 2 ^ 33.
Hypothesis Hr : 2 ^ 31 <= r < 2 ^ 32.
Hypothesis Hup : r * r * b < 2 ^ 95.
Hypothesis Hlo : 2 ^ 101 <= (8 * r + 17) * (8 * r + 17) * b.
Hypothesis Hs : b * r - 2 ^ 33 < 2 ^ 33 * s <= b * r.
Hypothesis HA : 2 ^ 29 * b <= A < 2 ^ 29 * (b + c).
Hypothesis HA1 : A < 2 ^ 62.

Lemma head_pos : 0 <= s.
Proof using All. nia. Qed.

Lemma head_less : s * s < A.
Proof using All.
  pose proof head_pos.
  assert (S : (2 ^ 33 * s) * (2 ^ 33 * s) <= (b * r) * (b * r)) by (apply Z.mul_le_mono_nonneg;
    lia).
  assert (T : b * (r * r * b) < b * 2 ^ 95) by (apply Z.mul_lt_mono_pos_l; lia).
  clear - S T HA; lia.
Qed.

Lemma head_near : 2 ^ 35 * b < (8 * s + 25) * (8 * s + 25).
Proof using All.
  pose proof head_pos; set (w := 2 ^ 36 * (s + 1) + 17 * b).
  assert (W : b * (8 * r + 17) < w) by (subst w; lia).
  assert (S : (b * (8 * r + 17)) * (b * (8 * r + 17)) < w * w) by (apply Z.square_lt_mono_nonneg;
    lia).
  assert (T : b * 2 ^ 101 <= b * ((8 * r + 17) * (8 * r + 17) * b)) by (apply Z.mul_le_mono_nonneg_l; lia).
  assert (U : w * w <= (2 ^ 33 * (8 * s + 25)) * (2 ^ 33 * (8 * s + 25)))
    by (apply Z.mul_le_mono_nonneg; subst w; lia).
  clear - S T U; clearbody w; lia.
Qed.

Lemma head_short : 4 * A < (2 * s + 7) * (2 * s + 7).
Proof using All.
  pose proof head_near as N; pose proof head_pos.
  assert (G : 2 ^ 35 * c <= 48 * s + 159).
  { destruct Hc as [-> | ->].
    - assert (2 ^ 33 < 8 * s + 25); [|lia].
      apply Z.square_lt_simpl_nonneg; lia.
    - assert (12025908428 < 8 * s + 25); [|lia].
      apply Z.square_lt_simpl_nonneg; lia. }
  lia.
Qed.

Lemma sharp_product : b * r < 3 * 2 ^ 63 - 2 ^ 32 * r.
Proof using All.
  assert ((r - 2 ^ 31) * (r - 2 ^ 32) <= 0) by nia.
  apply (Z.mul_lt_mono_pos_r r); lia.
Qed.

(** The root [t] of [2^64 * A], and the part of it below the head. *)
Context (t w : Z).
Hypothesis Ht : t * t <= 2 ^ 64 * A < (t + 1) * (t + 1).
Hypothesis Hw : t = 2 ^ 32 * s + w.
Hypothesis Ht0 : 0 <= t.

Lemma tail_range : 0 <= w /\ 2 * w < 7 * 2 ^ 32 /\ t < 2 ^ 63.
Proof using All.
  pose proof head_pos; pose proof head_less; pose proof head_short as S.
  assert (2 ^ 32 * s < t + 1) by (apply Z.square_lt_simpl_nonneg; lia).
  assert (2 * t < 2 ^ 32 * (2 * s + 7)) by (apply Z.square_lt_simpl_nonneg; lia).
  assert (t < 2 ^ 63) by (apply Z.square_lt_simpl_nonneg; lia).
  lia.
Qed.

(** The Newton step [v] from the remainder, up to its error. *)
Lemma tail_above v : 2 ^ 31 * v <= (A - s * s) * r - 2 ^ 34 -> v < w.
Proof using All.
  intros Hv; destruct tail_range as (W0 & W1 & T1); pose proof head_pos.
  assert (Sr : 2 ^ 32 * s * r < 2 ^ 94) by nia.
  assert (Tr : t * r < 2 ^ 94 + 2 ^ 63).
  { apply Z.square_lt_simpl_nonneg; [lia|].
    assert ((t * t) * (r * r) <= (2 ^ 64 * A) * (r * r)) by (apply Z.mul_le_mono_nonneg_r; nia).
    assert (A * (r * r) <= 2 ^ 29 * (b + c) * (r * r)) by (apply Z.mul_le_mono_nonneg_r; nia).
    assert (c * (r * r) <= 2 * 2 ^ 64) by (apply Z.mul_le_mono_nonneg; nia).
    lia. }
  assert (R : 2 ^ 64 * (A - s * s) * r <= (w + 1) * (t + 1 + 2 ^ 32 * s) * r).
  { apply Z.mul_le_mono_nonneg_r; [lia|]; subst t; lia. }
  assert (B : (w + 1) * ((t + 1 + 2 ^ 32 * s) * r) <= (w + 1) * (2 ^ 95 + 2 ^ 63 + 2 ^ 32))
    by (apply Z.mul_le_mono_nonneg_l; lia).
  clear - Hv R B W0 W1; lia.
Qed.

Lemma tail_below v : (A - s * s - 3) * r + 2 ^ 36 <= 2 ^ 31 * v -> w < v.
Proof using All.
  intros Hv; destruct tail_range as (W0 & W1 & T1); pose proof head_pos;
    pose proof sharp_product as P.
  assert (Tr : 2 ^ 97 < (t + 1) * (8 * r + 17)).
  { apply Z.square_lt_simpl_nonneg; [nia|].
    assert (0 < (8 * r + 17) * (8 * r + 17)) by nia.
    assert (2 ^ 64 * A * ((8 * r + 17) * (8 * r + 17)) < (t + 1) * (t + 1) * ((8 * r + 17) * (8 * r + 17)))
      by (apply Z.mul_lt_mono_pos_r; lia).
    assert (2 ^ 29 * b * ((8 * r + 17) * (8 * r + 17)) <= A * ((8 * r + 17) * (8 * r + 17)))
      by (apply Z.mul_le_mono_nonneg_r; lia).
    lia. }
  assert (Sr : (b * r - 2 ^ 33) * r <= 2 ^ 33 * s * r) by (apply Z.mul_le_mono_nonneg_r; lia).
  assert (L : 2 ^ 102 - 945 * 2 ^ 63 <= 128 * ((t + 2 ^ 32 * s) * r)) by (clear - Tr Sr Hlo P T1 Hb Hr; lia).
  assert (R : w * (t + 2 ^ 32 * s) * r <= 2 ^ 64 * (A - s * s) * r).
  { apply Z.mul_le_mono_nonneg_r; [lia|]; subst t; lia. }
  assert (B : w * (2 ^ 102 - 945 * 2 ^ 63) <= w * (128 * ((t + 2 ^ 32 * s) * r)))
    by (apply Z.mul_le_mono_nonneg_l; lia).
  clear - Hv R B W0 W1 Hr; lia.
Qed.
End SqrtSigF64.

(** The estimate, a multiple of 8 within [-8, 40) of the root, is raised by 32, and the exact
    remainder decides where it is close to the boundary of a block. *)
Lemma sqrt_correctF64 A sigZ :
  let x := A * 2 ^ 64 in
  sigZ mod 8 = 0 -> 2 ^ 61 <= sigZ < 2 ^ 63 + 2 ^ 6 ->
  (sigZ - 40) * (sigZ - 40) < x < (sigZ + 8) * (sigZ + 8) ->
  let z :=
    if sigZ .& 0x1FF <? 0x22 then
      let sigZ := sigZ .& u64 (.~ 0x3F) in
      let shiftedSigZ := sigZ .>> 6 in
      let rem := u64 (u64 (A .<< 52) - u64 (shiftedSigZ * shiftedSigZ)) in
      if nz (rem .& 0x8000000000000000) then u64 (sigZ - 1)
      else if nz rem then sigZ .| 1 else sigZ
    else sigZ in
  root_block 512 z x.
Proof.
  intros x H8 Hz Hx z; subst z.
  change 0x1FF with (2 ^ 9 - 1); rewrite land_ones_mod by lia; change (2 ^ 9) with 512.
  pose proof (Z.div_mod sigZ 512 ltac:(lia)) as D;
    pose proof (Z.mod_pos_bound sigZ 512 ltac:(lia)) as M.
  assert (M8 : (sigZ mod 512) mod 8 = 0) by (clear - H8; Z.div_mod_to_equations; lia).
  set (n := sigZ / 512) in *; set (l := sigZ mod 512) in *; clearbody n l.
  destruct (Z.ltb_spec l 0x22) as [L|L].
  2: { assert (40 <= l <= 504) by (clear - L M M8; Z.div_mod_to_equations; lia).
       exists n, l; split; [exact D|]; split; [lia|]; left; nia. }
  assert (L32 : l <= 32) by (clear - L M M8; Z.div_mod_to_equations; lia).
  assert (N : sigZ .& u64 (.~ 0x3F) = 512 * n).
  { change 0x3F with (2 ^ 6 - 1); unfold u64; rewrite land_not_ones by lia.
    change (2 ^ 6) with 64; clear - D M L32; Z.div_mod_to_equations; lia. }
  assert (Q : (512 * n) .>> 6 = 8 * n).
  { rewrite shiftr_div by lia; change (2 ^ 6) with 64; clear; Z.div_mod_to_equations; lia. }
  cbv zeta; rewrite N, Q, shiftl_mul by lia; set (d := A * 2 ^ 52 - 8 * n * (8 * n)).
  replace (u64 (u64 (A * 2 ^ 52) - u64 (8 * n * (8 * n)))) with (u64 d)
    by (unfold u64, wrap; apply Zminus_mod).
  assert (Ed : 2 ^ 12 * d = x - 512 * n * (512 * n)) by (subst d x; ring).
  assert (Rd : - 2 ^ 63 <= d < 2 ^ 63) by nia.
  clearbody d x; rewrite u64_sign by lia; destruct (Z.ltb_spec d 0) as [Nd|Nd].
  - rewrite u64_small by lia; exists (n - 1), 511; split; [lia|]; split; [lia|]; left; nia.
  - rewrite u64_small by lia; unfold nz; destruct (Z.eqb_spec d 0) as [E|E]; cbn [negb].
    + exists n, 0; split; [lia|]; split; [lia|]; right; lia.
    + replace (512 * n .| 1) with (512 * n + 1)
        by (rewrite lor_1; f_equal; clear; Z.div_mod_to_equations; lia).
      exists n, 1; split; [reflexivity|]; split; [lia|]; left; nia.
Qed.

(** The Newton step in the unsigned arithmetic of the code. *)
Lemma sqrt_newton s r rem :
  0 <= s < 2 ^ 31 -> 2 ^ 31 <= r < 2 ^ 32 -> 0 <= rem < 2 ^ 34 ->
  let q := u32 (u64 (u32 (rem .>> 2) * r) .>> 32) in
  let sigZ := u64 ((u64 (s .<< 32) .| (1 .<< 5)) + u64 (q .<< 3)) in
  sigZ = 2 ^ 32 * s + 32 + 8 * q /\
  (rem - 3) * r - 2 ^ 34 <= 2 ^ 34 * q <= rem * r.
Proof.
  intros Hs Hr Hrem q sigZ; set (p := rem / 4).
  assert (Hp : 4 * p <= rem <= 4 * p + 3) by (subst p; Z.div_mod_to_equations; lia).
  assert (Hp' : 0 <= p < 2 ^ 32) by lia.
  assert (Eq : q = p * r / 2 ^ 32).
  { subst q; rewrite (shiftr_div rem) by lia; change (rem / 2 ^ 2) with p.
    rewrite (u32_small p) by lia; assert (0 <= p * r < 2 ^ 64) by nia.
    rewrite (u64_small (p * r)), shiftr_div, u32_small
      by (first [lia | split; [apply Z.div_pos | apply Z.div_lt_upper_bound]; lia]); reflexivity. }
  pose proof (div_bounds (p * r) (2 ^ 32) ltac:(lia)) as B; rewrite <- Eq in B; clearbody q p.
  assert (Q : 0 <= q < 2 ^ 32) by nia.
  split; [|nia]; subst sigZ; rewrite !shiftl_mul by lia.
  rewrite (u64_small (s * 2 ^ 32)), (u64_small (q * 2 ^ 3)) by lia.
  rewrite lor_add_disjoint, u64_small by lia; lia.
Qed.

(** The head of the root, as a quotient. *)
Lemma sqrt_head_bounds c a r :
  c = 1 \/ c = 2 -> 0 <= a -> 0 <= r ->
  c * a * r - 2 ^ 33 < 2 ^ 33 * sqrt_est c a r <= c * a * r.
Proof.
  intros Hc Ha Hr; unfold sqrt_est; pose proof (div_bounds (a * r) (2 ^ 32) ltac:(lia)).
  pose proof (div_bounds (a * r / 2 ^ 32) 2 ltac:(lia)).
  destruct Hc as [-> | ->]; cbn [Z.eqb Pos.eqb]; lia.
Qed.

Lemma sqrt_headF64 odd m a r :
  odd = 0 \/ odd = 1 -> 0 <= m < 2 ^ 53 -> 0 <= a < 2 ^ 32 -> 0 <= r < 2 ^ 32 ->
  let sig32Z := u32 (u64 (a * r) .>> 32) in
  (if nz odd then (u64 (m .<< 8), sig32Z .>> 1) else (u64 (m .<< 9), sig32Z))
  = (scale odd * m * 2 ^ 8, sqrt_est (scale odd) a r).
Proof.
  intros Ho Hm Ha Hr sig32Z; subst sig32Z; assert (0 <= a * r < 2 ^ 64) by nia.
  rewrite (u64_small (a * r)), (shiftr_div (a * r)), u32_small, shiftr_div
    by (first [lia | split; [apply Z.div_pos | apply Z.div_lt_upper_bound]; lia]).
  rewrite !shiftl_mul, !u64_small by lia.
  unfold sqrt_est, scale; destruct Ho as [-> | ->]; cbn [nz Z.eqb negb]; f_equal; ring.
Qed.

(** Where the estimate lies with respect to the root. *)
Lemma sqrt_est_near c m a r s :
  let A := c * m * 2 ^ 8 in
  c = 1 \/ c = 2 -> 2 ^ 52 <= m < 2 ^ 53 -> 2 ^ 21 * a <= m < 2 ^ 21 * (a + 1) ->
  2 ^ 31 <= r < 2 ^ 32 -> r * r * (c * a) < 2 ^ 95 ->
  2 ^ 101 <= (8 * r + 17) * (8 * r + 17) * (c * a) ->
  c * a * r - 2 ^ 33 < 2 ^ 33 * s <= c * a * r ->
  (0 <= s < 2 ^ 31 /\ 0 <= A - s * s < 2 ^ 34) /\
  forall q,
    (A - s * s - 3) * r - 2 ^ 34 <= 2 ^ 34 * q <= (A - s * s) * r ->
    (2 ^ 32 * s + 8 * q - 8) * (2 ^ 32 * s + 8 * q - 8) < 2 ^ 64 * A
      < (2 ^ 32 * s + 8 * q + 40) * (2 ^ 32 * s + 8 * q + 40).
Proof.
  intros A Hc Hm Da Hr Hup Hlo Hs; set (b := c * a) in *.
  assert (Hb : c * 2 ^ 31 <= b < 2 ^ 33) by (subst b; destruct Hc as [-> | ->]; lia).
  assert (HA : 2 ^ 29 * b <= A < 2 ^ 29 * (b + c)) by (subst A b; destruct Hc as [-> | ->]; lia).
  assert (HA1 : A < 2 ^ 62) by (subst A; destruct Hc as [-> | ->]; lia).
  clearbody A b; clear m a Hm Da.
  pose proof (head_pos c b r s A Hc Hb Hr Hup Hlo Hs HA HA1) as S0.
  pose proof (head_less c b r s A Hc Hb Hr Hup Hlo Hs HA HA1) as S1.
  pose proof (head_short c b r s A Hc Hb Hr Hup Hlo Hs HA HA1) as S2.
  assert (S3 : s < 2 ^ 31) by (apply Z.square_lt_simpl_nonneg; lia).
  assert (S4 : 2 ^ 31 < 2 * s + 7) by (apply Z.square_lt_simpl_nonneg; lia).
  split; [lia|]; intros q Hq.
  assert (0 <= (A - s * s - 1) * r) by (apply Z.mul_nonneg_nonneg; lia).
  pose proof (Z.sqrt_spec (2 ^ 64 * A) ltac:(lia)) as Ht; cbv zeta in Ht; unfold Z.succ in Ht.
  pose proof (Z.sqrt_nonneg (2 ^ 64 * A)) as Ht0; set (t := Z.sqrt (2 ^ 64 * A)) in *; clearbody t.
  assert (Hw : t = 2 ^ 32 * s + (t - 2 ^ 32 * s)) by ring.
  pose proof (tail_above c b r s A Hc Hb Hr Hup Hlo Hs HA HA1 t _ Ht Hw Ht0 (8 * q - 8) ltac:(lia)) as L.
  pose proof (tail_below c b r s A Hc Hb Hr Hup Hlo Hs HA HA1 t _ Ht Hw Ht0 (8 * q + 40) ltac:(lia)) as U.
  split.
  - apply (Z.lt_le_trans _ (t * t)); [apply Z.square_lt_mono_nonneg; lia | lia].
  - apply (Z.lt_le_trans _ ((t + 1) * (t + 1))); [lia | apply Z.square_le_mono_nonneg; lia].
Qed.

(** The bits of the root computed by the code, in terms of the significand. *)
Lemma f64_sqrt_sig_spec odd sigA :
  odd = 0 \/ odd = 1 -> let m := sigA .| 0x0010000000000000 in 2 ^ 52 <= m < 2 ^ 53 ->
  let z := f64_sqrt_sig odd sigA in
  2 ^ 62 <= z < 2 ^ 63 /\ root_block 512 z (scale odd * m * 2 ^ 72).
Proof.
  intros Ho m Hm z; subst z; unfold f64_sqrt_sig; fold m; cbv zeta; clearbody m.
  rewrite (shiftr_div m) by lia; set (a := m / 2 ^ 21).
  assert (Da : 2 ^ 21 * a <= m < 2 ^ 21 * (a + 1)) by (subst a; Z.div_mod_to_equations; lia).
  clearbody a; assert (Ha : 2 ^ 31 <= a < 2 ^ 32) by lia; rewrite (u32_small a) by lia.
  assert (Hc : scale odd = 1 \/ scale odd = 2) by (unfold scale; lia).
  destruct (approxRecipSqrt32_1_bounds odd a Ho Ha) as (Hr & Hup & Hlo).
  set (r := softfloat_approxRecipSqrt32_1 odd a) in *; clearbody r.
  rewrite sqrt_headF64 by lia; set (c := scale odd) in *; clearbody c.
  pose proof (sqrt_head_bounds c a r Hc ltac:(lia) ltac:(lia)) as Hs;
    set (s := sqrt_est c a r) in *; clearbody s.
  pose proof (sqrt_est_near c m a r s Hc Hm Da Hr Hup Hlo Hs) as ((Hs0 & Hrem) & N);
    cbv zeta in Hrem, N.
  assert (HA : 2 ^ 60 <= c * m * 2 ^ 8 < 2 ^ 62) by (destruct Hc as [-> | ->]; lia).
  assert (Ex : c * m * 2 ^ 72 = c * m * 2 ^ 8 * 2 ^ 64) by ring; rewrite Ex.
  set (A := c * m * 2 ^ 8) in *; clearbody A.
  rewrite (u64_small (s * s)), (u64_small (A - s * s)) by nia.
  pose proof (sqrt_newton s r (A - s * s) Hs0 Hr Hrem) as (Ez & Hq); cbv zeta in Ez, Hq.
  set (q := u32 (u64 (u32 (A - s * s .>> 2) * r) .>> 32)) in *.
  set (sigZ := u64 ((u64 (s .<< 32) .| (1 .<< 5)) + u64 (q .<< 3))) in *.
  assert (Z0 : 0 <= sigZ) by apply u64_range; clearbody q sigZ.
  specialize (N q Hq).
  replace (2 ^ 32 * s + 8 * q - 8) with (sigZ - 40) in N by lia.
  replace (2 ^ 32 * s + 8 * q + 40) with (sigZ + 8) in N by lia.
  assert (Z1 : sigZ - 40 < 2 ^ 63) by (apply Z.square_lt_simpl_nonneg; lia).
  assert (Z2 : 2 ^ 62 < sigZ + 8) by (apply Z.square_lt_simpl_nonneg; lia).
  set (z := if _ <? 0x22 then _ else _).
  assert (R : root_block 512 z (A * 2 ^ 64)).
  { apply (sqrt_correctF64 A sigZ); [|lia|lia].
    rewrite Ez; clear; Z.div_mod_to_equations; lia. }
  split; [|exact R]; exact (root_block_range 512 z _ (2 ^ 53) ltac:(lia) ltac:(lia) R ltac:(lia)).
Qed.

Lemma sqrtF64_finish a sigA e :
  norm_operand F64 a (sigA .| 0x0010000000000000) e ->
  meets (softfloat_roundPackToF64 false (((e - 0x3FF) .>> 1) + 0x3FE) (f64_sqrt_sig (e .& 1) sigA))
    (fun rm => ieee_round F64 rm false (root2 (mag F64 a * 2 ^ one_exp F64)) 2).
Proof.
  intros N rm fl; assert (Hm : 2 ^ 52 <= sigA .| 0x0010000000000000 < 2 ^ 53) by apply N.
  assert (He : -51 <= e < 2047) by apply N.
  rewrite land_1_mod2, shiftr_div by lia; pose proof (Z.mod_pos_bound e 2 ltac:(lia)).
  destruct (f64_sqrt_sig_spec (e mod 2) sigA ltac:(lia) Hm) as [Hz R].
  set (z := f64_sqrt_sig (e mod 2) sigA) in *; set (k := (e - 0x3FF) / 2 ^ 1 + 0x3FE - 10).
  assert (Hk : 2 * k + 72 + (1 - e mod 2) = e - 1 + 1074 /\ 0 <= k)
    by (subst k; clear - He; Z.div_mod_to_equations; lia).
  rewrite roundPackToF64_spec by (subst k; lia); fold k.
  rewrite (round_root F64 rm false z _ (mag F64 a * 2 ^ one_exp F64) 9 k ltac:(cbn; lia) ltac:(lia)
             ltac:(lia) ltac:(cbn [fbits F64]; lia) R); [reflexivity|].
  apply sqrt_operand; auto; try (cbn; lia); change (one_exp F64) with 1074; lia.
Qed.

Lemma f64_sqrt_spec a :
  0 <= a < 0x10000000000000000 -> meets (f64_sqrt a) (fun rm => ieee_sqrt F64 rm a).
Proof.
  intros Ha rm fl; unfold f64_sqrt; cbv zeta; autorewrite with sf_fields.
  pose proof (ffrac_range F64 a ltac:(cbn; lia)); pose proof (fexp_range F64 a ltac:(cbn; lia)).
  change (fbits F64) with 52 in *; change (emax F64) with 0x7FF in *.
  pose proof (propagateNaNF64UI_spec a 0 rm fl) as Np.
  pose proof (norm_normalF64 a) as Na; pose proof (norm_subnormalF64 a) as Sa.
  unfold ieee_sqrt; fold (root2 (mag F64 a * 2 ^ one_exp F64)).
  rewrite mag_zero, !nz_lor by (cbn; lia); unfold nz.
  sqrt_cases F64 a 0x7FF Np sqrtF64_finish.
Qed.

(** ** Theorems *)

(** C3: [f32_sqrt] and [f64_sqrt] return the square root of the operand correctly rounded in
    the current rounding mode, for every operand - the invalid operation on negative numbers
    and the propagation of NaNs included - and add exactly the flags of the operation to the
    accrued ones. *)
Theorem sqrt_correct a b :
  0 <= a < 2 ^ 32 -> 0 <= b < 2 ^ 64 ->
  meets (f32_sqrt a) (fun rm => ieee_sqrt F32 rm a) /\
  meets (f64_sqrt b) (fun rm => ieee_sqrt F64 rm b).
Proof. intros Ha Hb; split; [apply f32_sqrt_spec | apply f64_sqrt_spec]; lia. Qed.

(** The root of 2 in both precisions, rounded to nearest with the inexact flag. *)
Lemma sqrt_correct_witness :
  f32_sqrt 0x40000000 0 0 = (0x3FB504F3, 1) /\
  f64_sqrt 0x4000000000000000 0 0 = (0x3FF6A09E667F3BCD, 1).
Proof.
  destruct (sqrt_correct 0x40000000 0x4000000000000000 ltac:(lia) ltac:(lia)) as [A B].
  split; [rewrite A | rewrite B]; vm_compute; reflexivity.
Defined.
