(* ===== verification/SfMulAdd.v ===== *)
(** * SoftFloat: fused multiply-add of singles ([s_mulAddF32.c])

    The exact product and the addend are aligned, with the bits that fall off jammed into the
    lowest one, added or subtracted, and rounded once.  What does not depend on the precision
    - the exact sum, its rounding, the special operands - is shared with [SfMulAddF64]. *)

From S2P Require Import Prelude FpSpec FpTheory SfEnv SfPrim SfRound SfAdd SfAddF64 SfMul SfConvert.
From S2P Require Import SfRecip SfDiv SfWords.
From Stdlib Require Import ZArith Lia Bool List.
Import ListNotations.

(** ** Single precision *)

Definition softfloat_mulAdd_subC : Z := 1.
Definition softfloat_mulAdd_subProd : Z := 2.

(** The statements that follow the normalisation of the operands, up to [roundPack]: the
    sum of the product [(signProd, expProd, sigProd)] and the addend, both nonzero. *)
Definition mulAddF32_sum (signProd : bool) (expProd sigProd : Z) (signC : bool) (expC sigC : Z)
    : fp Z :=
  let completeCancellation : fp Z :=
    mode <- softfloat_roundingMode ;; ret (packToF32UI (mode =? softfloat_round_min) 0 0) in
  let signZ := signProd in
  let expDiff := expProd - expC in
  if eqb signProd signC then
    let '(expZ, sigZ) :=
      if expDiff <=? 0 then
        (expC, u32 (sigC + softfloat_shiftRightJam64 sigProd (32 - expDiff)))
      else
        let sig64Z :=
          u64 (sigProd + softfloat_shiftRightJam64 (u64 (sigC .<< 32)) expDiff) in
        (expProd, u32 (softfloat_shortShiftRightJam64 sig64Z 32)) in
    let '(expZ, sigZ) :=
      if sigZ <? 0x40000000 then (expZ - 1, u32 (sigZ .<< 1)) else (expZ, sigZ) in
    softfloat_roundPackToF32 signZ expZ sigZ
  else
    let sig64C := u64 (sigC .<< 32) in
    let normalize (signZ : bool) (expZ sig64Z : Z) : fp Z :=
      let shiftDist := softfloat_countLeadingZeros64 sig64Z - 1 in
      let expZ := expZ - shiftDist in
      let shiftDist := shiftDist - 32 in
      let sigZ :=
        if shiftDist <? 0 then u32 (softfloat_shortShiftRightJam64 sig64Z (- shiftDist))
        else u32 (u32 sig64Z .<< shiftDist) in
      softfloat_roundPackToF32 signZ expZ sigZ in
    if expDiff <? 0 then
      normalize signC expC (u64 (sig64C - softfloat_shiftRightJam64 sigProd (- expDiff)))
    else if negb (nz expDiff) then
      let sig64Z := u64 (sigProd - sig64C) in
      if negb (nz sig64Z) then completeCancellation
      else if nz (sig64Z .& 0x8000000000000000)
           then normalize (negb signZ) expProd (u64 (- sig64Z))
           else normalize signZ expProd sig64Z
    else
      normalize signZ expProd (u64 (sigProd - softfloat_shiftRightJam64 sig64C expDiff)).

Definition softfloat_mulAddF32 (uiA uiB uiC op : Z) : fp Z :=
  let signA := signF32UI uiA in
  let expA := expF32UI uiA in
  let sigA := fracF32UI uiA in
  let signB := signF32UI uiB in
  let expB := expF32UI uiB in
  let sigB := fracF32UI uiB in
  let signC := xorb (signF32UI uiC) (op =? softfloat_mulAdd_subC) in
  let expC := expF32UI uiC in
  let sigC := fracF32UI uiC in
  let signProd := xorb (xorb signA signB) (op =? softfloat_mulAdd_subProd) in
  let propagateNaN_ZC (uiZ : Z) : fp Z := softfloat_propagateNaNF32UI uiZ uiC in
  let propagateNaN_ABC : fp Z :=
    uiZ <- softfloat_propagateNaNF32UI uiA uiB ;; propagateNaN_ZC uiZ in
  let invalid : fp Z :=
    softfloat_raiseFlags softfloat_flag_invalid ;;; propagateNaN_ZC defaultNaNF32UI in
  let infProdArg (magBits : Z) : fp Z :=
    if nz magBits then
      let uiZ := packToF32UI signProd 0xFF 0 in
      if negb (expC =? 0xFF) then ret uiZ
      else if nz sigC then propagateNaN_ZC uiZ
      else if eqb signProd signC then ret uiZ
      else invalid
    else invalid in
  let zeroProd : fp Z :=
    if negb (nz (expC .| sigC)) && negb (eqb signProd signC)
    then mode <- softfloat_roundingMode ;; ret (packToF32UI (mode =? softfloat_round_min) 0 0)
    else ret uiC in
  let proceed (expA sigA expB sigB : Z) : fp Z :=
    let expProd := expA + expB - 0x7E in
    let sigA := u32 ((sigA .| 0x00800000) .<< 7) in
    let sigB := u32 ((sigB .| 0x00800000) .<< 7) in
    let sigProd := u64 (sigA * sigB) in
    let '(expProd, sigProd) :=
      if sigProd <? 0x2000000000000000 then (expProd - 1, u64 (sigProd .<< 1))
      else (expProd, sigProd) in
    let addend (expC sigC : Z) : fp Z :=
      mulAddF32_sum signProd expProd sigProd signC expC (u32 ((sigC .| 0x00800000) .<< 6)) in
    if negb (nz expC) then
      if negb (nz sigC) then
        softfloat_roundPackToF32 signProd (expProd - 1)
          (u32 (softfloat_shortShiftRightJam64 sigProd 31))
      else
        let normExpSig := softfloat_normSubnormalF32Sig sigC in
        addend (es_exp normExpSig) (es_sig normExpSig)
    else addend expC sigC in
  let normB (expA sigA : Z) : fp Z :=
    if negb (nz expB) then
      if negb (nz sigB) then zeroProd
      else
        let normExpSig := softfloat_normSubnormalF32Sig sigB in
        proceed expA sigA (es_exp normExpSig) (es_sig normExpSig)
    else proceed expA sigA expB sigB in
  if expA =? 0xFF then
    if nz sigA || ((expB =? 0xFF) && nz sigB) then propagateNaN_ABC
    else infProdArg (expB .| sigB)
  else if expB =? 0xFF then
    if nz sigB then propagateNaN_ABC else infProdArg (expA .| sigA)
  else if expC =? 0xFF then
    if nz sigC then propagateNaN_ZC 0 else ret uiC
  else if negb (nz expA) then
    if negb (nz sigA) then zeroProd
    else
      let normExpSig := softfloat_normSubnormalF32Sig sigA in
      normB (es_exp normExpSig) (es_sig normExpSig)
  else normB expA sigA.

(** ** The exact sum

    [x] and [y] are positive integers that stand for [x * 2 ^ (ex - u)] and
    [y * 2 ^ (ey - u)] units of the smallest subnormal. *)

Definition signed (s : bool) (n : Z) : Z := if s then - n else n.

Definition sum_spec (F : fmt) (u : Z) (sx : bool) (x ex : Z) (sy : bool) (y ey : Z) (rm : Z) : Z * Z :=
  let e := Z.min ex ey in
  let v := signed sx (x * 2 ^ (ex - e)) + signed sy (y * 2 ^ (ey - e)) in
  if v =? 0 then (signbit F (rm =? softfloat_round_min), 0)
  else round_scaled F rm (v <? 0) (Z.abs v) 1 (e - u).

Lemma sum_spec_same F u s x ex y ey rm :
  0 < x -> 0 < y ->
  sum_spec F u s x ex s y ey rm
  = if ex <=? ey then round_scaled F rm s (y * 2 ^ (ey - ex) + x) 1 (ex - u)
    else round_scaled F rm s (x * 2 ^ (ex - ey) + y) 1 (ey - u).
Proof.
  intros Hx Hy; unfold sum_spec.
  pose proof (pow2_pos (ex - Z.min ex ey) ltac:(lia));
    pose proof (pow2_pos (ey - Z.min ex ey) ltac:(lia)).
  set (v := signed s _ + signed s _).
  assert (V : Z.abs v = x * 2 ^ (ex - Z.min ex ey) + y * 2 ^ (ey - Z.min ex ey) /\ v <> 0 /\
    (v <? 0) = s).
  { subst v; destruct s; cbn [signed]; repeat split; nia. }
  destruct V as (-> & V & ->); rewrite (proj2 (Z.eqb_neq v 0)) by exact V.
  destruct (Z.leb_spec ex ey); [rewrite Z.min_l by lia | rewrite Z.min_r by lia];
    rewrite Z.sub_diag, Z.pow_0_r, Z.mul_1_r; f_equal; lia.
Qed.

Lemma sum_spec_opposite F u s x ex y ey rm :
  sum_spec F u s x ex (negb s) y ey rm
  = let d := if ex <=? ey then x - y * 2 ^ (ey - ex) else x * 2 ^ (ex - ey) - y in
    if d =? 0 then (signbit F (rm =? softfloat_round_min), 0)
    else round_scaled F rm (xorb s (d <? 0)) (Z.abs d) 1 (Z.min ex ey - u).
Proof.
  unfold sum_spec; set (d := if ex <=? ey then _ else _); cbv zeta.
  set (v := signed s _ + signed (negb s) _); assert (V : v = signed s d).
  { subst v d; destruct (Z.leb_spec ex ey); [rewrite Z.min_l by lia | rewrite Z.min_r by lia];
      rewrite Z.sub_diag, Z.pow_0_r, Z.mul_1_r; destruct s; cbn [signed negb]; lia. }
  rewrite V; clearbody d; clear V v; destruct s; cbn [signed xorb]; [|reflexivity].
  rewrite Z.abs_opp; destruct (Z.eqb_spec d 0), (Z.eqb_spec (- d) 0); try lia; [reflexivity|].
  f_equal; destruct (Z.ltb_spec d 0), (Z.ltb_spec (- d) 0); cbn; auto; lia.
Qed.

Lemma sum_spec_below F u s x ex y ey rm :
  ex < ey -> 0 < y * 2 ^ (ey - ex) - x ->
  sum_spec F u s x ex (negb s) y ey rm
  = round_scaled F rm (negb s) (y * 2 ^ (ey - ex) - x) 1 (ex - u).
Proof.
  intros He H; rewrite sum_spec_opposite, (proj2 (Z.leb_le ex ey)), Z.min_l by lia; cbv zeta.
  rewrite (proj2 (Z.eqb_neq _ 0)), (proj2 (Z.ltb_lt _ 0)), Z.abs_neq, xorb_true_r by lia.
  f_equal; lia.
Qed.

Lemma sum_spec_above F u s x ex y ey rm :
  ey < ex -> 0 < x * 2 ^ (ex - ey) - y ->
  sum_spec F u s x ex (negb s) y ey rm
  = round_scaled F rm s (x * 2 ^ (ex - ey) - y) 1 (ey - u).
Proof.
  intros He H; rewrite sum_spec_opposite, (proj2 (Z.leb_gt ex ey)), Z.min_r by lia; cbv zeta.
  rewrite (proj2 (Z.eqb_neq _ 0)), (proj2 (Z.ltb_ge _ 0)), Z.abs_eq, xorb_false_r by lia.
  reflexivity.
Qed.

Lemma sum_spec_level F u s x y e rm :
  sum_spec F u s x e (negb s) y e rm
  = if x - y =? 0 then (signbit F (rm =? softfloat_round_min), 0)
    else round_scaled F rm (xorb s (x - y <? 0)) (Z.abs (x - y)) 1 (e - u).
Proof.
  rewrite sum_spec_opposite, Z.leb_refl, Z.min_id, Z.sub_diag, Z.pow_0_r, Z.mul_1_r; reflexivity.
Qed.

(** Jamming before rounding. *)
Lemma round_jammed F rm s p i k :
  0 <= fbits F -> 0 <= i -> 0 <= p -> 2 ^ (fbits F + 2) <= p / 2 ^ i ->
  round_scaled F rm s (jdiv p (2 ^ i)) 1 (k + i) = round_scaled F rm s p 1 k.
Proof.
  intros Hf Hi Hp H; pose proof (pow2_pos i Hi).
  rewrite <- round_scaled_jam by (auto || lia).
  rewrite <- (Z.mul_1_l (2 ^ i)); apply round_scaled_down; lia.
Qed.

Lemma round_divided F rm s p i k :
  0 <= i -> p mod 2 ^ i = 0 ->
  round_scaled F rm s (p / 2 ^ i) 1 (k + i) = round_scaled F rm s p 1 k.
Proof.
  intros Hi H; pose proof (pow2_pos i Hi); rewrite round_scaled_div by (exact H || lia).
  rewrite <- (Z.mul_1_l (2 ^ i)); apply round_scaled_down; lia.
Qed.

(** The rounded sum in terms of the operands. *)
Section FusedRound.
Context (F : fmt) (u t : Z) (a b c x ex y ey : Z).
Hypothesis HF : 1 <= fbits F /\ 2 <= ebits F.
Hypothesis Ht : 0 <= u + t /\ 0 <= ex + one_exp F + t /\ 0 <= ey + one_exp F + t.
Hypothesis Hx : 0 < x.
Hypothesis Hy : 0 < y.
Hypothesis Ex : mag F a * mag F b * 2 ^ (u + t) = x * 2 ^ (ex + one_exp F + t).
Hypothesis Ey : mag F c * 2 ^ one_exp F * 2 ^ (u + t) = y * 2 ^ (ey + one_exp F + t).

Lemma fused_round rm :
  let v := fval F a * fval F b + fval F c * 2 ^ one_exp F in
  let sp := xorb (fsign F a) (fsign F b) in
  sum_spec F u sp x ex (fsign F c) y ey rm
  = if v =? 0 then (signbit F (if xorb sp (fsign F c) then rm =? softfloat_round_min else sp), 0)
    else ieee_round F rm (v <? 0) (Z.abs v) (2 ^ one_exp F).
Proof using All.
  intros v sp; unfold sum_spec; set (e := Z.min ex ey).
  assert (Ho : 0 <= one_exp F) by (unfold one_exp; pose proof (pow2_pos (ebits F - 1) ltac:(lia));
    lia).
  set (w := signed sp (x * 2 ^ (ex - e)) + signed (fsign F c) (y * 2 ^ (ey - e))).
  assert (V : v = signed sp (mag F a * mag F b) + signed (fsign F c) (mag F c * 2 ^ one_exp F)).
  { subst v sp; unfold fval; destruct (fsign F a), (fsign F b), (fsign F c); cbn [signed xorb];
      ring. }
  pose proof (pow2_pos (u + t) ltac:(lia)) as P1.
  pose proof (pow2_pos (e + one_exp F + t) ltac:(lia)) as P2.
  assert (W : v * 2 ^ (u + t) = w * 2 ^ (e + one_exp F + t)).
  { rewrite V; subst w; rewrite !Z.mul_add_distr_r; destruct sp, (fsign F c); cbn [signed];
      rewrite ?Z.mul_opp_l, Ex, Ey, <- !Z.mul_assoc, <- !Z.pow_add_r by lia;
      repeat (f_equal; try lia). }
  assert (Z0 : (w =? 0) = (v =? 0)) by (apply eq_true_iff_eq; rewrite !Z.eqb_eq; nia).
  assert (S0 : (w <? 0) = (v <? 0)) by (apply eq_true_iff_eq; rewrite !Z.ltb_lt; nia).
  assert (A0 : Z.abs v * 2 ^ (u + t) = Z.abs w * 2 ^ (e + one_exp F + t)) by nia.
  rewrite Z0, S0; destruct (Z.eqb_spec v 0) as [E | N].
  - assert (X : xorb sp (fsign F c) = true).
    { rewrite V in E; assert (0 < mag F a * mag F b) by nia;
        assert (0 < mag F c * 2 ^ one_exp F) by nia.
      destruct sp, (fsign F c); cbn [signed] in E; try reflexivity; lia. }
    rewrite X; reflexivity.
  - apply (round_scaled_eq _ _ _ _ _ _ (u + one_exp F + t));
      [lia | lia | lia | apply pow2_pos; lia |].
    replace (u + one_exp F + t + (e - u)) with (e + one_exp F + t) by lia.
    rewrite <- A0, Z.mul_1_l, <- Z.mul_assoc, <- Z.pow_add_r by lia; do 2 f_equal; lia.
Qed.
End FusedRound.

(** A difference computed with the subtrahend jammed: exact after a shift by one, and
    otherwise too large for the jamming to matter. *)
Lemma round_difference F rm s w X Y n k :
  1 <= fbits F -> fbits F + 4 <= w -> 1 <= n -> 2 ^ w <= Y < 2 ^ (w + 1) -> 0 < X < 2 ^ (w + 1) ->
  X mod 2 = 0 -> Y mod 2 = 0 ->
  let z := Y - jdiv X (2 ^ n) in
  0 < Y * 2 ^ n - X /\ 0 < z < 2 ^ (w + 1) /\
  round_scaled F rm s z 1 (k + n) = round_scaled F rm s (Y * 2 ^ n - X) 1 k.
Proof.
  intros Hf Hw Hn HY HX EX EY z; pose proof (pow2_pos n ltac:(lia)) as Pn.
  rewrite pow2_succ in * by lia; pose proof (pow2_le 1 n ltac:(lia)).
  assert (P : 0 < Y * 2 ^ n - X) by nia; split; [exact P|].
  assert (Ev : Z.even Y = true) by (rewrite even_mod2; apply Z.eqb_eq; exact EY).
  assert (Ez : z = jdiv (Y * 2 ^ n - X) (2 ^ n)) by (apply jdiv_sub; assumption).
  pose proof (jdiv_zero (Y * 2 ^ n - X) (2 ^ n) ltac:(lia) Pn) as Z0; rewrite <- Ez in Z0.
  rewrite (proj2 (Z.eqb_neq (_ - _) 0)), Z.eqb_neq in Z0 by lia.
  pose proof (jdiv_le X n ltac:(lia) Hn) as J.
  assert (0 <= z) by (subst z; clear - J HX HY EX; Z.div_mod_to_equations; lia).
  split; [subst z; lia|]; rewrite Ez; destruct (Z.eq_dec n 1) as [-> | N].
  - assert (M : (Y * 2 ^ 1 - X) mod 2 ^ 1 = 0) by (change (2 ^ 1) with 2; Z.div_mod_to_equations;
      lia).
    unfold jdiv, inexact; rewrite M; apply round_divided; [lia | exact M].
  - apply round_jammed; try lia; apply Z.div_le_lower_bound; [lia|].
    pose proof (pow2_le (fbits F + 4) w ltac:(lia)) as B; rewrite !Z.pow_add_r in * by lia.
    pose proof (pow2_pos (fbits F) ltac:(lia)); pose proof (pow2_le 2 n ltac:(lia)).
    assert (4 * X <= 2 ^ n * X) by (apply Z.mul_le_mono_nonneg_r; lia); nia.
Qed.

Lemma jdiv_jdiv p d j : 0 < d -> 2 <= j -> jdiv (jdiv p d) (2 ^ j) = jdiv p (d * 2 ^ j).
Proof.
  intros Hd Hj; unfold jdiv at 1 3; rewrite <- jdiv_div, <- inexact_jam by lia; reflexivity.
Qed.

(** ** Single precision *)

(** The normalisation that ends the subtraction. *)
Lemma mulAddF32_normalize_spec sign expZ z :
  - 2 ^ 30 < expZ < 2 ^ 30 -> 0 < z < 2 ^ 63 ->
  meets
    (let shiftDist := softfloat_countLeadingZeros64 z - 1 in
     let expZ := expZ - shiftDist in
     let shiftDist := shiftDist - 32 in
     let sigZ :=
       if shiftDist <? 0 then u32 (softfloat_shortShiftRightJam64 z (- shiftDist))
       else u32 (u32 z .<< shiftDist) in
     softfloat_roundPackToF32 sign expZ sigZ)
    (fun rm => round_scaled F32 rm sign z 1 (expZ - 39)).
Proof.
  intros He Hz rm fl; rewrite countLeadingZeros64_spec by lia; cbv zeta.
  assert (L : 0 <= Z.log2 z <= 62)
    by (split; [apply Z.log2_nonneg | assert (Z.log2 z < 63) by (apply Z.log2_lt_pow2; lia); lia]).
  pose proof (normalize_range z 62 ltac:(lia) ltac:(lia)) as N.
  replace (63 - Z.log2 z - 1) with (62 - Z.log2 z) by lia.
  set (sd := 62 - Z.log2 z) in *; assert (0 <= sd <= 62) by lia; clearbody sd; clear L.
  destruct (Z.ltb_spec (sd - 32) 0) as [L | L].
  - rewrite shortShiftRightJam64_spec by lia; replace (- (sd - 32)) with (32 - sd) by lia.
    assert (R : 2 ^ 30 <= z / 2 ^ (32 - sd)).
    { apply Z.div_le_lower_bound; [apply pow2_pos; lia|].
      apply (Z.mul_le_mono_pos_r _ _ (2 ^ sd)); [apply pow2_pos; lia|].
      rewrite <- Z.mul_assoc, (Z.mul_comm (2 ^ 30)), Z.mul_assoc, <- Z.pow_add_r by lia.
      replace (32 - sd + sd) with 32 by lia; lia. }
    assert (J : 0 <= jdiv z (2 ^ (32 - sd)) < 2 ^ 31).
    { apply jdiv_lt; try lia; split; [lia|].
      apply (Z.mul_lt_mono_pos_r (2 ^ sd)); [apply pow2_pos; lia|].
      rewrite <- Z.pow_add_r by lia; replace (32 - sd + 31 + sd) with 63 by lia; lia. }
    assert (J' : 2 ^ 30 <= jdiv z (2 ^ (32 - sd)))
      by (unfold jdiv; rewrite jam_spec; destruct (_ && _); bsimpl; lia).
    rewrite u32_small, roundPackToF32_spec by lia; cbv beta.
    replace (expZ - sd - 7) with (expZ - 39 + (32 - sd)) by lia.
    rewrite round_jammed by (cbn [fbits F32]; lia); reflexivity.
  - assert (z < 2 ^ 31).
    { apply (Z.mul_lt_mono_pos_r (2 ^ 32)); [lia|]; pose proof (pow2_le 32 sd ltac:(lia)); nia. }
    rewrite (u32_small z), shiftl_mul by lia.
    assert (E : z * 2 ^ sd = z * 2 ^ (sd - 32) * 2 ^ 32)
      by (rewrite <- Z.mul_assoc, <- Z.pow_add_r by lia; do 2 f_equal; lia).
    rewrite u32_small, roundPackToF32_spec by lia; cbv beta.
    rewrite round_scaled_shift by lia; replace (expZ - sd - 7 + (sd - 32)) with (expZ - 39) by lia.
    reflexivity.
Qed.

Lemma jdiv_bound31 p i : 0 <= i -> 2 ^ (29 + i) <= p < 2 ^ (31 + i) -> 0 <= jdiv p (2 ^ i) < 2 ^ 31.
Proof.
  intros Hi Hp; pose proof (pow2_pos (29 + i) ltac:(lia)).
  apply jdiv_lt; try lia; rewrite (Z.add_comm i); lia.
Qed.

(** The end of an addition: [z] is the jammed sum. *)
Lemma mulAddF32_add_finish sp rm fl e p i :
  0 <= i -> -1000 < e < 1000 -> 2 ^ (29 + i) <= p < 2 ^ (31 + i) ->
  (let '(expZ, sigZ) :=
     if jdiv p (2 ^ i) <? 0x40000000 then (e - 1, u32 (jdiv p (2 ^ i) .<< 1)) else (e, jdiv p (2 ^ i)) in
   softfloat_roundPackToF32 sp expZ sigZ) rm fl
  = (fst (round_scaled F32 rm sp p 1 (e - 7 - i)), fl .| snd (round_scaled F32 rm sp p 1 (e - 7 - i))).
Proof.
  intros Hi He Hp; pose proof (pow2_pos i Hi).
  assert (R : 2 ^ 29 <= p / 2 ^ i).
  { apply Z.div_le_lower_bound; [lia|]; rewrite Z.mul_comm, <- Z.pow_add_r by lia; lia. }
  pose proof (jdiv_bound31 p i Hi Hp) as J.
  assert (J' : 2 ^ 29 <= jdiv p (2 ^ i)) by (unfold jdiv; rewrite jam_spec; destruct (_ && _);
    bsimpl; lia).
  rewrite <- (round_jammed F32 rm sp p i (e - 7 - i)) by (cbn [fbits F32]; lia).
  replace (e - 7 - i + i) with (e - 7) by lia.
  set (z := jdiv p (2 ^ i)) in *; clearbody z; destruct (Z.ltb_spec z 0x40000000).
  - rewrite shiftl_mul, u32_small, roundPackToF32_spec by lia; cbv beta.
    rewrite round_scaled_shift by lia; replace (e - 1 - 7 + 1) with (e - 7) by lia; reflexivity.
  - rewrite roundPackToF32_spec by lia; reflexivity.
Qed.

Lemma complete_cancellationF32 rm fl :
  (mode <- softfloat_roundingMode ;; ret (packToF32UI (mode =? softfloat_round_min) 0 0)) rm fl
  = (fst (signbit F32 (rm =? softfloat_round_min), 0),
     fl .| snd (signbit F32 (rm =? softfloat_round_min), 0)).
Proof.
  unfold bind, softfloat_roundingMode, ret; cbn [fst snd];
    rewrite packToF32UI_spec, Z.lor_0_r by lia.
  f_equal; lia.
Qed.

Lemma mulAddF32_add_spec s x ex sigC ey :
  2 ^ 61 <= x < 2 ^ 62 -> x mod 2 = 0 -> 2 ^ 29 <= sigC < 2 ^ 30 -> sigC mod 2 = 0 ->
  -1000 < ex < 1000 -> -1000 < ey < 1000 ->
  meets (mulAddF32_sum s ex x s ey sigC) (sum_spec F32 39 s x ex s (sigC * 2 ^ 32) ey).
Proof.
  intros Hx Hx2 Hs Hs2 He1 He2 rm fl; unfold mulAddF32_sum; rewrite eqb_reflx, sum_spec_same by lia.
  assert (Es : Z.even sigC = true) by (rewrite even_mod2; apply Z.eqb_eq; exact Hs2).
  assert (Exx : Z.even x = true) by (rewrite even_mod2; apply Z.eqb_eq; exact Hx2).
  cbv zeta; destruct (Z.leb_spec (ex - ey) 0), (Z.leb_spec ex ey); try lia.
  - set (n := ey - ex) in *; replace (32 - (ex - ey)) with (32 + n) by lia.
    pose proof (pow2_pos n ltac:(lia)).
    rewrite shiftRightJam64_spec, jdiv_add by (auto; first [lia | apply pow2_pos; lia]).
    set (p := sigC * 2 ^ (32 + n) + x).
    assert (E : sigC * 2 ^ 32 * 2 ^ n + x = p) by (subst p; rewrite Z.pow_add_r by lia; ring).
    rewrite E; replace (ex - 39) with (ey - 7 - (32 + n)) by lia.
    assert (Rp : 2 ^ (29 + (32 + n)) <= p < 2 ^ (31 + (32 + n))).
    { rewrite <- E, !Z.add_assoc, !(Z.pow_add_r 2 _ n) by lia; change (2 ^ (29 + 32)) with (2 ^ 61).
      change (2 ^ (31 + 32)) with (2 ^ 63); nia. }
    rewrite u32_small by (pose proof (jdiv_bound31 p (32 + n) ltac:(lia) Rp); lia).
    apply mulAddF32_add_finish; lia.
  - set (n := ex - ey) in *; pose proof (pow2_pos n ltac:(lia)).
    rewrite shiftl_mul, (u64_small (sigC * _)), shiftRightJam64_spec, jdiv_add by (auto; lia).
    set (p := x * 2 ^ n + sigC * 2 ^ 32).
    assert (Rp : 2 ^ (29 + (n + 32)) <= p < 2 ^ (31 + (n + 32))).
    { subst p; rewrite !(Z.add_comm n), !Z.add_assoc, !(Z.pow_add_r 2 _ n) by lia.
      change (2 ^ (29 + 32)) with (2 ^ 61); change (2 ^ (31 + 32)) with (2 ^ 63); nia. }
    assert (J : 0 <= jdiv p (2 ^ n) < 2 ^ 63)
      by (apply jdiv_lt; try lia; replace (n + 63) with (31 + (n + 32)) by lia; lia).
    rewrite u64_small, shortShiftRightJam64_spec, jdiv_jdiv, <- Z.pow_add_r by lia.
    rewrite u32_small by (pose proof (jdiv_bound31 p (n + 32) ltac:(lia) Rp); lia).
    replace (ey - 39) with (ex - 7 - (n + 32)) by lia.
    apply mulAddF32_add_finish; lia.
Qed.

Lemma mulAddF32_sub_spec s x ex sigC ey :
  2 ^ 61 <= x < 2 ^ 62 -> x mod 2 = 0 -> 2 ^ 29 <= sigC < 2 ^ 30 -> sigC mod 2 = 0 ->
  -1000 < ex < 1000 -> -1000 < ey < 1000 ->
  meets (mulAddF32_sum s ex x (negb s) ey sigC) (sum_spec F32 39 s x ex (negb s) (sigC * 2 ^ 32) ey).
Proof.
  intros Hx Hx2 Hs Hs2 He1 He2 rm fl; unfold mulAddF32_sum; rewrite eqb_negb2.
  set (y := sigC * 2 ^ 32); assert (Hy : 2 ^ 61 <= y < 2 ^ 62) by (subst y; lia).
  assert (Hy2 : y mod 2 = 0)
    by (subst y; change (2 ^ 32) with (2 ^ 31 * 2); rewrite Z.mul_assoc; apply Z.mod_mul; lia).
  rewrite shiftl_mul, (u64_small (sigC * 2 ^ 32)) by (fold y; lia); fold y; clearbody y; cbv zeta.
  destruct (Z.ltb_spec (ex - ey) 0); [|unnz (ex - ey);
    destruct (Z.eqb_spec (ex - ey) 0) as [Q | Q]; cbn [negb]].
  - set (n := ey - ex) in *; replace (- (ex - ey)) with n by lia.
    destruct (round_difference F32 rm (negb s) 61 x y n (ex - 39)) as (P & Z & E);
      cbn [fbits F32]; auto; try lia.
    rewrite shiftRightJam64_spec, u64_small, mulAddF32_normalize_spec, sum_spec_below by (fold n;
      lia).
    cbv beta; fold n; rewrite <- E; replace (ex - 39 + n) with (ey - 39) by lia; reflexivity.
  - replace ey with ex by lia; rewrite sum_spec_level.
    assert (Ez : (u64 (x - y) =? 0) = (x - y =? 0)).
    { apply eq_true_iff_eq; rewrite !Z.eqb_eq; rewrite u64_signed by lia;
        destruct (Z.ltb_spec (x - y) 0); lia. }
    unnz (u64 (x - y)); rewrite Ez, u64_sign by lia; destruct (Z.eqb_spec (x - y) 0); cbn [negb];
      [apply complete_cancellationF32|].
    destruct (Z.ltb_spec (x - y) 0); rewrite ?xorb_true_r, ?xorb_false_r.
    + replace (u64 (- u64 (x - y))) with (- (x - y)).
      * rewrite mulAddF32_normalize_spec, Z.abs_neq by lia; reflexivity.
      * unfold u64; rewrite wrap_opp, wrap_small by lia; reflexivity.
    + rewrite u64_small, mulAddF32_normalize_spec, Z.abs_eq by lia; reflexivity.
  - set (n := ex - ey) in *.
    destruct (round_difference F32 rm s 61 y x n (ey - 39)) as (P & Z & E);
      cbn [fbits F32]; auto; try lia.
    rewrite shiftRightJam64_spec, u64_small, mulAddF32_normalize_spec, sum_spec_above by (fold n;
      lia).
    cbv beta; fold n; rewrite <- E; replace (ey - 39 + n) with (ex - 39) by lia; reflexivity.
Qed.

Lemma mulAddF32_sum_spec sp x ex sc sigC ey :
  2 ^ 61 <= x < 2 ^ 62 -> x mod 2 = 0 -> 2 ^ 29 <= sigC < 2 ^ 30 -> sigC mod 2 = 0 ->
  -1000 < ex < 1000 -> -1000 < ey < 1000 ->
  meets (mulAddF32_sum sp ex x sc ey sigC) (sum_spec F32 39 sp x ex sc (sigC * 2 ^ 32) ey).
Proof.
  intros; destruct (Bool.bool_dec sc sp) as [-> | N]; [apply mulAddF32_add_spec; assumption|].
  replace sc with (negb sp) by (destruct sp, sc; reflexivity || congruence);
    apply mulAddF32_sub_spec; assumption.
Qed.

(** ** Operands *)

Section Operands.
Context (F : fmt) (u t : Z).
Hypothesis HF : 1 <= fbits F /\ 2 <= ebits F.
Hypothesis Ht : 0 <= t /\ 0 <= u + t.

Lemma one_exp_pos : 0 <= one_exp F.
Proof using HF. unfold one_exp; pose proof (pow2_pos (ebits F - 1) ltac:(lia)); lia. Qed.

Lemma fused_product a mA eA b mB eB g bias j x ex :
  norm_operand F a mA eA -> norm_operand F b mB eB -> 0 <= g + j ->
  0 <= ex + one_exp F + t -> x = mA * mB * 2 ^ (g + j) -> ex = eA + eB - bias - j ->
  g - bias + one_exp F - u = -2 ->
  mag F a * mag F b * 2 ^ (u + t) = x * 2 ^ (ex + one_exp F + t).
Proof using HF Ht.
  intros (_ & Xa & Ma) (_ & Xb & Mb) Hg H0 -> -> E; pose proof (pow2_pos (fbits F + 1) ltac:(lia)).
  apply (Z.mul_reg_r _ _ (2 ^ (fbits F + 1) * 2 ^ (fbits F + 1))); [nia|].
  transitivity (mag F a * 2 ^ (fbits F + 1) * (mag F b * 2 ^ (fbits F + 1)) * 2 ^ (u + t)); [ring|].
  rewrite Ma, Mb.
  transitivity (mA * mB * (2 ^ (eA + fbits F) * 2 ^ (eB + fbits F) * 2 ^ (u + t))); [ring|].
  transitivity (mA * mB * (2 ^ (g + j) * 2 ^ (eA + eB - bias - j + one_exp F + t)
    * 2 ^ (fbits F + 1) * 2 ^ (fbits F + 1))); [|ring].
  rewrite <- !Z.pow_add_r by lia; do 2 f_equal; lia.
Qed.

Lemma fused_addend c mC eC h y :
  norm_operand F c mC eC -> 0 <= h -> 0 <= eC + one_exp F + t -> y = mC * 2 ^ h -> h - u = -1 ->
  mag F c * 2 ^ one_exp F * 2 ^ (u + t) = y * 2 ^ (eC + one_exp F + t).
Proof using HF Ht.
  intros (_ & Xc & Mc) Hh H0 -> E; pose proof (pow2_pos (fbits F + 1) ltac:(lia));
    pose proof one_exp_pos.
  apply (Z.mul_reg_r _ _ (2 ^ (fbits F + 1))); [lia|].
  transitivity (mag F c * 2 ^ (fbits F + 1) * (2 ^ one_exp F * 2 ^ (u + t))); [ring|]; rewrite Mc.
  transitivity (mC * (2 ^ (eC + fbits F) * 2 ^ one_exp F * 2 ^ (u + t))); [ring|].
  transitivity (mC * (2 ^ h * 2 ^ (eC + one_exp F + t) * 2 ^ (fbits F + 1))); [|ring].
  rewrite <- !Z.pow_add_r by lia; do 2 f_equal; lia.
Qed.
End Operands.

(** A finite number is its own rounding. *)
Lemma round_self F rm c k :
  1 <= fbits F -> 1 <= ebits F -> 0 <= k -> 0 <= c < 2 ^ (1 + ebits F + fbits F) ->
  fexp F c <> emax F -> mag F c <> 0 ->
  ieee_round F rm (fsign F c) (mag F c * 2 ^ k) (2 ^ k) = (c, 0).
Proof.
  intros Hf He Hk Hc Nx Nz; pose proof (pow2_pos k Hk).
  rewrite (ieee_round_ratio _ _ _ _ _ (mag F c) 1) by lia.
  pose proof (ffrac_range F c Hf); pose proof (fexp_range F c He) as X.
  pose proof (fields_split F c Hf He Hc) as S; unfold mag in *.
  assert (I : emax F * 2 ^ fbits F = inf_mag F) by reflexivity;
    pose proof (pow2_pos (fbits F) ltac:(lia)).
  destruct (Z.eqb_spec (fexp F c) 0) as [E | E].
  - rewrite <- (Z.mul_1_r (ffrac F c)); change 1 with (2 ^ 0) at 1.
    rewrite ieee_round_exact; rewrite ?pow2_succ by lia; try lia; [f_equal; lia|].
    rewrite <- I; nia.
  - rewrite ieee_round_exact; rewrite ?pow2_succ by lia; try lia; [f_equal; lia|].
    rewrite <- I; nia.
Qed.

(** ** The special operands *)

Lemma run_bind_meets {A} (c : fp Z) (k : Z -> fp A) spec rm fl :
  meets c spec -> bind c k rm fl = k (fst (spec rm)) rm (fl .| snd (spec rm)).
Proof. intros M; unfold bind; rewrite M; reflexivity. Qed.

(** NaNs among three operands, and an invalid product with any addend. *)
Section Invalid.
Context (F : fmt) (prop : Z -> Z -> fp Z).
Hypothesis Hp : forall a b, meets (prop a b) (fun _ => nan_result F a b).
Hypothesis Hd : is_snan F (default_nan F) = false.

Lemma nan_product a b c rm fl :
  (uiZ <- prop a b ;; prop uiZ c) rm fl
  = (default_nan F,
     fl .| (if is_snan F a || is_snan F b || is_snan F c then softfloat_flag_invalid else 0)).
Proof using Hp Hd.
  rewrite (run_bind_meets _ _ _ _ _ (Hp a b)), Hp; unfold nan_result; cbn [fst snd].
  rewrite Hd, <- Z.lor_assoc; cbn [orb]; do 2 f_equal.
  destruct (is_snan F a || is_snan F b), (is_snan F c); reflexivity.
Qed.

Lemma invalid_product c rm fl :
  (softfloat_raiseFlags softfloat_flag_invalid ;;; prop (default_nan F) c) rm fl
  = (fst (invalid_result F), fl .| snd (invalid_result F)).
Proof using Hp Hd.
  unfold bind at 1; cbn [softfloat_raiseFlags]; unfold softfloat_raiseFlags; rewrite Hp.
  unfold nan_result, invalid_result; cbn [fst snd]; rewrite Hd, <- Z.lor_assoc; cbn [orb];
    do 2 f_equal.
  destruct (is_snan F c); reflexivity.
Qed.

Lemma nan_addend z c rm fl :
  is_snan F z = false ->
  prop z c rm fl = (fst (nan_result F c c), fl .| snd (nan_result F c c)).
Proof using Hp. intros E; rewrite Hp; unfold nan_result; rewrite E, orb_diag; reflexivity. Qed.
End Invalid.

(** The finite case of the specification. *)
Definition fused_spec (F : fmt) (a b c rm : Z) : Z * Z :=
  let v := fval F a * fval F b + fval F c * 2 ^ one_exp F in
  let sp := xorb (fsign F a) (fsign F b) in
  if v =? 0 then (signbit F (if xorb sp (fsign F c) then rm =? softfloat_round_min else sp), 0)
  else ieee_round F rm (v <? 0) (Z.abs v) (2 ^ one_exp F).

Section FusedCases.
Context (F : fmt) (u t : Z) (a b c : Z).
Hypothesis HF : 1 <= fbits F /\ 2 <= ebits F.
Hypothesis Ht : 0 <= t /\ 0 <= u + t.

Lemma signed_product :
  fval F a * fval F b = signed (xorb (fsign F a) (fsign F b)) (mag F a * mag F b).
Proof using Type. unfold fval; destruct (fsign F a), (fsign F b); cbn [signed xorb]; ring. Qed.

(** No addend: the rounded product. *)
Lemma fused_no_addend x ex rm :
  mag F c = 0 -> 0 < x -> 0 <= ex + one_exp F + t ->
  mag F a * mag F b * 2 ^ (u + t) = x * 2 ^ (ex + one_exp F + t) ->
  round_scaled F rm (xorb (fsign F a) (fsign F b)) x 1 (ex - u) = fused_spec F a b c rm.
Proof using HF Ht.
  intros Hc Hx He E; unfold fused_spec; rewrite signed_product.
  replace (fval F c) with 0 by (unfold fval; rewrite Hc; destruct (fsign F c); reflexivity).
  rewrite Z.mul_0_l, Z.add_0_r; pose proof (one_exp_pos F HF).
  pose proof (pow2_pos (u + t) ltac:(lia)); pose proof (pow2_pos (ex + one_exp F + t) ltac:(lia)).
  assert (P : 0 < mag F a * mag F b) by nia; set (s := xorb _ _) in *;
    set (n := mag F a * mag F b) in *.
  replace (Z.abs (signed s n)) with n by (destruct s; cbn [signed]; lia).
  replace (signed s n =? 0) with false by (symmetry; apply Z.eqb_neq; destruct s; cbn [signed];
    lia).
  replace (signed s n <? 0) with s by (destruct s; cbn [signed]; symmetry;
    [apply Z.ltb_lt | apply Z.ltb_ge]; lia).
  apply (round_scaled_eq _ _ _ _ _ _ (u + one_exp F + t)); [lia | lia | lia | apply pow2_pos;
    lia |].
  replace (u + one_exp F + t + (ex - u)) with (ex + one_exp F + t) by lia.
  rewrite <- E, Z.mul_1_l, <- Z.mul_assoc, <- Z.pow_add_r by lia; do 2 f_equal; lia.
Qed.

(** A zero product: the addend, with the sign of an exact zero sum. *)
Lemma fused_zero_product rm :
  mag F a = 0 \/ mag F b = 0 -> 0 <= c < 2 ^ (1 + ebits F + fbits F) -> fexp F c <> emax F ->
  fused_spec F a b c rm
  = (if (mag F c =? 0) && negb (eqb (xorb (fsign F a) (fsign F b)) (fsign F c))
     then signbit F (rm =? softfloat_round_min) else c, 0).
Proof using HF.
  intros H Hc Nc; unfold fused_spec; rewrite signed_product.
  replace (mag F a * mag F b) with 0 by (destruct H as [-> | ->]; ring).
  set (sp := xorb (fsign F a) (fsign F b)); replace (signed sp 0) with 0 by (destruct sp;
    reflexivity).
  pose proof (one_exp_pos F HF) as Ho; pose proof (pow2_pos _ Ho) as P; rewrite Z.add_0_l.
  pose proof (mag_nonneg F c ltac:(lia) ltac:(lia)).
  destruct (Z.eqb_spec (mag F c) 0) as [E | E]; cbn [andb].
  - replace (fval F c) with 0 by (unfold fval; rewrite E; destruct (fsign F c); reflexivity).
    pose proof (fields_split F c ltac:(lia) ltac:(lia) Hc) as S; apply Z.eqb_eq in E.
    rewrite mag_zero, andb_true_iff, !Z.eqb_eq in E by lia; destruct E as [E1 E2];
      rewrite E1, E2 in S.
    cbn [Z.mul Z.eqb]; destruct sp, (fsign F c); cbn [xorb eqb negb]; f_equal; lia.
  - set (s := fsign F c) in *.
    assert (V : fval F c * 2 ^ one_exp F = signed s (mag F c * 2 ^ one_exp F))
      by (unfold fval; fold s; destruct s; cbn [signed]; ring).
    rewrite V; assert (0 < mag F c * 2 ^ one_exp F) by nia.
    rewrite (proj2 (Z.eqb_neq _ 0)) by (destruct s; cbn [signed]; lia).
    replace (Z.abs _) with (mag F c * 2 ^ one_exp F) by (destruct s; cbn [signed]; lia).
    replace (signed s _ <? 0) with s
      by (destruct s; cbn [signed]; symmetry; [apply Z.ltb_lt | apply Z.ltb_ge]; lia).
    apply round_self; auto; lia.
Qed.
End FusedCases.

(** ** Single precision: the whole operation *)

(** The normalized product. *)
Lemma mulAddF32_product a mA eA b mB eB :
  norm_operand F32 a mA eA -> norm_operand F32 b mB eB ->
  let sigProd := u64 (u32 (mA .<< 7) * u32 (mB .<< 7)) in
  exists x ex,
    (if sigProd <? 0x2000000000000000 then (eA + eB - 0x7E - 1, u64 (sigProd .<< 1))
     else (eA + eB - 0x7E, sigProd)) = (ex, x) /\
    2 ^ 61 <= x < 2 ^ 62 /\ x mod 2 = 0 /\ -200 < ex < 1000 /\
    mag F32 a * mag F32 b * 2 ^ (39 + 200) = x * 2 ^ (ex + one_exp F32 + 200).
Proof.
  intros Na Nb sigProd; pose proof Na as (Ra & Xa & _); pose proof Nb as (Rb & Xb & _).
  change (fbits F32) with 23 in *; change (emax F32) with 0xFF in *.
  assert (E : sigProd = mA * mB * 2 ^ 14).
  { subst sigProd; rewrite !shiftl_mul by lia;
      rewrite (u32_small (mA * _)), (u32_small (mB * _)) by lia.
    rewrite u64_small by nia; ring. }
  assert (R : 2 ^ 60 <= sigProd < 2 ^ 62) by nia.
  assert (M : forall k, 1 <= k -> (mA * mB * 2 ^ k) mod 2 = 0).
  { intros k Hk; rewrite (pow2_half k), (Z.mul_comm 2), Z.mul_assoc by lia; apply Z.mod_mul; lia. }
  destruct (Z.ltb_spec sigProd 0x2000000000000000).
  - do 2 eexists; split; [reflexivity|]; rewrite shiftl_mul, u64_small, E by lia.
    replace (mA * mB * 2 ^ 14 * 2 ^ 1) with (mA * mB * 2 ^ 15) by ring.
    split; [lia|]; split; [apply M; lia|]; split; [lia|].
    apply (fused_product F32 39 200 ltac:(cbn; lia) ltac:(lia) a mA eA b mB eB 14 0x7E 1); auto;
      change (one_exp F32) with 149; lia.
  - do 2 eexists; split; [reflexivity|]; rewrite E.
    split; [lia|]; split; [apply M; lia|]; split; [lia|].
    apply (fused_product F32 39 200 ltac:(cbn; lia) ltac:(lia) a mA eA b mB eB 14 0x7E 0); auto;
      change (one_exp F32) with 149; lia.
Qed.

Lemma mulAddF32_addend a b c x ex mC eC sp :
  sp = xorb (fsign F32 a) (fsign F32 b) ->
  2 ^ 61 <= x < 2 ^ 62 -> x mod 2 = 0 -> -200 < ex < 1000 ->
  mag F32 a * mag F32 b * 2 ^ (39 + 200) = x * 2 ^ (ex + one_exp F32 + 200) ->
  norm_operand F32 c mC eC ->
  meets (mulAddF32_sum sp ex x (fsign F32 c) eC (u32 (mC .<< 6))) (fused_spec F32 a b c).
Proof.
  intros -> Hx Hx2 He E Nc rm fl; pose proof Nc as (Rc & Xc & _).
  change (fbits F32) with 23 in *; change (emax F32) with 0xFF in *.
  rewrite shiftl_mul, u32_small by lia.
  assert (M : (mC * 2 ^ 6) mod 2 = 0) by (change (2 ^ 6) with (32 * 2); rewrite Z.mul_assoc;
    apply Z.mod_mul; lia).
  rewrite mulAddF32_sum_spec by lia.
  pose proof (fused_addend F32 39 200 ltac:(cbn;
    lia) ltac:(lia) c mC eC 38 (mC * 2 ^ 6 * 2 ^ 32) Nc) as Ec.
  rewrite (fused_round F32 39 200 a b c) by
    (first [assumption | apply Ec; change (one_exp F32) with 149;
      lia | change (one_exp F32) with 149; cbn; lia]).
  reflexivity.
Qed.

(** The product of normalized operands and any finite addend. *)
Lemma mulAddF32_finish a mA eA b mB eB c sp :
  sp = xorb (fsign F32 a) (fsign F32 b) -> fexp F32 c <> 0xFF ->
  norm_operand F32 a mA eA -> norm_operand F32 b mB eB ->
  meets
    (let sigProd := u64 (u32 (mA .<< 7) * u32 (mB .<< 7)) in
     let '(expProd, sigProd) :=
       if sigProd <? 0x2000000000000000 then (eA + eB - 0x7E - 1, u64 (sigProd .<< 1))
       else (eA + eB - 0x7E, sigProd) in
     if negb (nz (fexp F32 c)) then
       if negb (nz (ffrac F32 c)) then
         softfloat_roundPackToF32 sp (expProd - 1) (u32 (softfloat_shortShiftRightJam64 sigProd 31))
       else
         let normExpSig := softfloat_normSubnormalF32Sig (ffrac F32 c) in
         mulAddF32_sum sp expProd sigProd (fsign F32 c) (es_exp normExpSig)
           (u32 ((es_sig normExpSig .| 0x00800000) .<< 6))
     else mulAddF32_sum sp expProd sigProd (fsign F32 c) (fexp F32 c)
            (u32 ((ffrac F32 c .| 0x00800000) .<< 6)))
    (fused_spec F32 a b c).
Proof.
  intros Es Nx Na Nb; destruct (mulAddF32_product a mA eA b mB eB Na Nb) as (x & ex & P & Hx & Hx2 & He & E).
  cbv zeta in *; rewrite P; unfold nz.
  destruct (Z.eqb_spec (fexp F32 c) 0); cbn [negb]; [destruct (Z.eqb_spec (ffrac F32 c) 0);
    cbn [negb]|].
  - intros rm fl; rewrite shortShiftRightJam64_spec by lia.
    assert (J : 2 ^ 30 <= jdiv x (2 ^ 31) < 2 ^ 31).
    { split; [|apply jdiv_lt; lia]; assert (2 ^ 30 <= x / 2 ^ 31) by (apply Z.div_le_lower_bound;
        lia).
      unfold jdiv; rewrite jam_spec; destruct (_ && _); bsimpl; lia. }
    rewrite u32_small, roundPackToF32_spec by lia; cbv beta.
    replace (ex - 1 - 7) with (ex - 39 + 31) by lia.
    rewrite round_jammed by (first [cbn; lia | apply Z.div_le_lower_bound; cbn; lia]).
    subst sp; rewrite (fused_no_addend F32 39 200 a b c ltac:(cbn; lia) ltac:(lia) x ex rm);
      [reflexivity | | lia | change (one_exp F32) with 149; lia | exact E].
    apply Z.eqb_eq; rewrite mag_zero, andb_true_iff, !Z.eqb_eq by (cbn; lia); auto.
  - apply mulAddF32_addend; auto; apply norm_subnormalF32; assumption.
  - apply mulAddF32_addend; auto; apply norm_normalF32; assumption.
Qed.

(** An infinite product. *)
Lemma inf_productF32 sp c rm fl :
  0 <= fexp F32 c <= 0xFF ->
  (if negb (fexp F32 c =? 0xFF) then ret (packToF32UI sp 0xFF 0)
   else if negb (ffrac F32 c =? 0) then softfloat_propagateNaNF32UI (packToF32UI sp 0xFF 0) c
   else if eqb sp (fsign F32 c) then ret (packToF32UI sp 0xFF 0)
   else softfloat_raiseFlags softfloat_flag_invalid ;;;
     softfloat_propagateNaNF32UI defaultNaNF32UI c)
    rm fl
  = let r := if is_nan F32 c then nan_result F32 c c
             else if is_inf F32 c && xorb sp (fsign F32 c) then invalid_result F32
             else (signbit F32 sp + 0xFF * 2 ^ 23, 0) in
    (fst r, fl .| snd r).
Proof.
  intros Hc; destruct (Z.eqb_spec (fexp F32 c) 0xFF); cbn [negb];
    [destruct (Z.eqb_spec (ffrac F32 c) 0); cbn [negb]|]; classify F32 c; cbn [andb orb negb].
  - destruct (eqb sp (fsign F32 c)) eqn:E.
    + apply eqb_prop in E; rewrite <- E, xorb_nilpotent; pack_leaf packToF32UI_spec.
    + replace (xorb sp (fsign F32 c)) with true by (destruct sp, (fsign F32 c); auto; discriminate).
      apply (invalid_product F32 _ propagateNaNF32UI_spec eq_refl).
  - apply (nan_addend F32 _ propagateNaNF32UI_spec); rewrite packToF32UI_spec by lia; destruct sp;
      reflexivity.
  - pack_leaf packToF32UI_spec.
Qed.

Lemma zero_productF32 a b c rm fl :
  0 <= c < 0x100000000 -> fexp F32 c <> 0xFF -> mag F32 a = 0 \/ mag F32 b = 0 ->
  (if negb (negb (fexp F32 c =? 0) || negb (ffrac F32 c =? 0))
      && negb (eqb (xorb (fsign F32 a) (fsign F32 b)) (fsign F32 c))
   then mode <- softfloat_roundingMode ;; ret (packToF32UI (mode =? softfloat_round_min) 0 0)
   else ret c) rm fl
  = (fst (fused_spec F32 a b c rm), fl .| snd (fused_spec F32 a b c rm)).
Proof.
  intros Hc Nc Z0; rewrite (fused_zero_product F32 a b c) by (assumption || cbn; lia).
  rewrite negb_orb, !negb_involutive, mag_zero by (cbn; lia).
  destruct (_ && negb _); [apply complete_cancellationF32|].
  unfold ret; cbn [fst snd]; rewrite Z.lor_0_r; reflexivity.
Qed.

Lemma mulAddF32_spec a b c :
  0 <= a < 0x100000000 -> 0 <= b < 0x100000000 -> 0 <= c < 0x100000000 ->
  meets (softfloat_mulAddF32 a b c 0) (fun rm => ieee_mul_add F32 rm a b c).
Proof.
  intros Ha Hb Hc rm fl; unfold softfloat_mulAddF32.
  change (0 =? softfloat_mulAdd_subC) with false; change (0 =? softfloat_mulAdd_subProd) with false.
  rewrite !xorb_false_r; cbv zeta; autorewrite with sf_fields.
  operands F32 a b 23 0xFF; pose proof (fexp_range F32 c ltac:(cbn; lia)) as Rc;
    change (emax F32) with 0xFF in *.
  pose proof (nan_product F32 _ propagateNaNF32UI_spec eq_refl a b c rm fl) as Np.
  pose proof (invalid_product F32 _ propagateNaNF32UI_spec eq_refl c rm fl) as Ni.
  pose proof (nan_addend F32 _ propagateNaNF32UI_spec 0 c rm fl eq_refl) as Nc.
  pose proof (norm_normalF32 a) as Na; pose proof (norm_normalF32 b) as Nb.
  pose proof (norm_subnormalF32 a) as Sa; pose proof (norm_subnormalF32 b) as Sb.
  pose proof (zero_productF32 a b c rm fl Hc) as Zp.
  pose proof (mag_zero F32 a ltac:(cbn; lia) ltac:(cbn; lia)) as Za.
  pose proof (mag_zero F32 b ltac:(cbn; lia) ltac:(cbn; lia)) as Zb.
  unfold ieee_mul_add; fold (fused_spec F32 a b c rm); change (inf_mag F32) with (0xFF * 2 ^ 23).
  rewrite Za, Zb, !nz_lor; unnz (fexp F32 a); unnz (fexp F32 b); unnz (ffrac F32 a);
    unnz (ffrac F32 b).
  destruct (Z.eqb_spec (fexp F32 a) 0xFF) as [Ia | Ia];
    [|destruct (Z.eqb_spec (fexp F32 b) 0xFF) as [Ib | Ib]].
  - rewrite (proj2 (Z.eqb_neq (fexp F32 a) 0)) by lia.
    destruct (Z.eqb_spec (ffrac F32 a) 0), (Z.eqb_spec (ffrac F32 b) 0),
      (Z.eqb_spec (fexp F32 b) 0xFF), (Z.eqb_spec (fexp F32 b) 0); try lia;
      classify F32 a; classify F32 b; cbn [orb andb negb]; rewrite ?orb_true_r;
      (exact Np || exact Ni || apply (inf_productF32 _ c rm fl Rc)).
  - rewrite (proj2 (Z.eqb_neq (fexp F32 b) 0)) by lia.
    destruct (Z.eqb_spec (ffrac F32 a) 0), (Z.eqb_spec (ffrac F32 b) 0),
      (Z.eqb_spec (fexp F32 a) 0); try lia;
      classify F32 a; classify F32 b; cbn [orb andb negb]; rewrite ?orb_true_r;
      (exact Np || exact Ni || apply (inf_productF32 _ c rm fl Rc)).
  - classify F32 a; classify F32 b; cbn [orb andb].
    destruct (Z.eqb_spec (fexp F32 c) 0xFF) as [Ic | Ic].
    + unnz (ffrac F32 c); destruct (Z.eqb_spec (ffrac F32 c) 0); classify F32 c; cbn [negb];
        [unfold ret; cbn [fst snd]; rewrite Z.lor_0_r; reflexivity | exact Nc].
    + classify F32 c.
      destruct (Z.eqb_spec (fexp F32 a) 0), (Z.eqb_spec (ffrac F32 a) 0),
        (Z.eqb_spec (fexp F32 b) 0), (Z.eqb_spec (ffrac F32 b) 0);
          cbn [negb orb andb] in Za, Zb |- *;
        try apply Z.eqb_eq in Za; try apply Z.eqb_eq in Zb;
        first [apply Zp; auto; fail | apply mulAddF32_finish; auto].
Qed.
