(* ===== verification/SfMulAddF64.v ===== *)
(** * SoftFloat: fused multiply-add of doubles ([s_mulAddF64.c])

    The 128-bit product and the addend are held in one array of 32-bit words, and added,
    subtracted, shifted and normalized with the multiword routines of [SfWords]. *)

From S2P Require Import Prelude FpSpec FpTheory SfEnv SfPrim SfRound SfAdd SfAddF64 SfMul SfConvert.
From S2P Require Import SfRecip SfDiv SfWords SfMulAdd.
From Stdlib Require Import ZArith Lia Bool List.
Import ListNotations.

(** ** Definitions

    The array holds [sig128Z] in words 0 to 3 and [sig128C] in words 4 to 7. *)

Definition hi64 (m : list Z) : Z := u64 (load m 3 .<< 32) .| load m 2.
Definition lo64 (m : list Z) : Z := u64 (load m 1 .<< 32) .| load m 0.

(** [sig128C = sigC << 64] *)
Definition set_sig128C (m : list Z) (sigC : Z) : list Z :=
  let m := store m 7 (u32 (sigC .>> 32)) in
  let m := store m 6 (u32 sigC) in
  let m := store m 5 0 in
  store m 4 0.

(** The labels [sigZ] and [roundPack]. *)
Definition mulAddF64_roundPack (signZ : bool) (expZ sigZ : Z) : fp Z :=
  softfloat_roundPackToF64 signZ (expZ - 1) sigZ.

Definition mulAddF64_sigZ (m : list Z) (signZ : bool) (expZ sigZ : Z) : fp Z :=
  mulAddF64_roundPack signZ expZ
    (if nz (load m 1) || nz (load m 0) then sigZ .| 1 else sigZ).

(** The normalisation that ends the subtraction. *)
Definition mulAddF64_normalize (m : list Z) (signZ : bool) (expZ : Z) : fp Z :=
  let sigZ := hi64 m in
  let '(shiftDist, sigZ) := if negb (nz sigZ) then (64, lo64 m) else (0, sigZ) in
  let shiftDist := shiftDist + softfloat_countLeadingZeros64 sigZ - 1 in
  if nz shiftDist then
    match softfloat_shiftLeftM m 4 0 shiftDist 0 with
    | Some m => mulAddF64_sigZ m signZ (expZ - shiftDist) (hi64 m)
    | None => ret 0
    end
  else mulAddF64_sigZ m signZ expZ sigZ.

(** The alignment of the product and the addend: the array, [expZ] and [sigZ]. *)
Definition mulAddF64_align (m : list Z) (sameSign : bool) (expZ sigZ shiftDist expC sigC : Z)
    : option (list Z * Z * Z) :=
  let expDiff := expZ - expC in
  if expDiff <? 0 then
    if sameSign || (expDiff <? -1) then
      let shiftDist := shiftDist - expDiff in
      Some (m, expC,
        if nz shiftDist then softfloat_shiftRightJam64 sigZ shiftDist else sigZ)
    else
      let m := if negb (nz shiftDist) then softfloat_shortShiftRightM m 4 0 1 0 else m in
      Some (m, expC, sigZ)
  else
    let m := if nz shiftDist then softfloat_addM m 4 0 0 0 else m in
    if negb (nz expDiff) then Some (m, expZ, hi64 m)
    else
      match softfloat_shiftRightJamM (set_sig128C m sigC) 4 4 expDiff 4 with
      | Some m => Some (m, expZ, sigZ)
      | None => None
      end.

(** The statements that follow the normalisation of the operands. *)
Definition mulAddF64_sum (m : list Z) (signZ : bool) (expZ sigZ shiftDist : Z)
    (signC : bool) (expC sigC : Z) : fp Z :=
  let completeCancellation : fp Z :=
    mode <- softfloat_roundingMode ;; ret (packToF64UI (mode =? softfloat_round_min) 0 0) in
  let sameSign := eqb signZ signC in
  let expDiff := expZ - expC in
  match mulAddF64_align m sameSign expZ sigZ shiftDist expC sigC with
  | None => ret 0
  | Some (m, expZ, sigZ) =>
      if sameSign then
        let '(m, sigZ) :=
          if expDiff <=? 0 then (m, u64 (sigZ + sigC))
          else let m := softfloat_addM m 4 0 4 0 in (m, hi64 m) in
        if nz (sigZ .& 0x8000000000000000)
        then mulAddF64_sigZ m signZ (expZ + 1) (softfloat_shortShiftRightJam64 sigZ 1)
        else mulAddF64_sigZ m signZ expZ sigZ
      else if expDiff <? 0 then
        if expDiff <? -1 then
          let sigZ := u64 (sigC - sigZ) in
          let sigZ :=
            if nz (load m 1) || nz (load m 0) then u64 (sigZ - 1) .| 1 else sigZ in
          if negb (nz (sigZ .& 0x4000000000000000))
          then mulAddF64_roundPack signC (expZ - 1) (u64 (sigZ .<< 1))
          else mulAddF64_roundPack signC expZ sigZ
        else
          mulAddF64_normalize (softfloat_subM (set_sig128C m sigC) 4 4 0 0) signC expZ
      else if negb (nz expDiff) then
        let sigZ := u64 (sigZ - sigC) in
        if negb (nz sigZ) && negb (nz (load m 1)) && negb (nz (load m 0))
        then completeCancellation
        else
          let m := store m 3 (u32 (sigZ .>> 32)) in
          let m := store m 2 (u32 sigZ) in
          if nz (sigZ .& 0x8000000000000000)
          then mulAddF64_normalize (softfloat_negXM m 4 0) (negb signZ) expZ
          else mulAddF64_normalize m signZ expZ
      else
        let m := softfloat_subM m 4 0 4 0 in
        if 1 <? expDiff then
          let sigZ := hi64 m in
          if negb (nz (sigZ .& 0x4000000000000000))
          then mulAddF64_sigZ m signZ (expZ - 1) (u64 (sigZ .<< 1))
          else mulAddF64_sigZ m signZ expZ sigZ
        else mulAddF64_normalize m signZ expZ
  end.

Definition softfloat_mulAddF64 (uiA uiB uiC op : Z) : fp Z :=
  let signA := signF64UI uiA in
  let expA := expF64UI uiA in
  let sigA := fracF64UI uiA in
  let signB := signF64UI uiB in
  let expB := expF64UI uiB in
  let sigB := fracF64UI uiB in
  let signC := xorb (signF64UI uiC) (op =? softfloat_mulAdd_subC) in
  let expC := expF64UI uiC in
  let sigC := fracF64UI uiC in
  let signZ := xorb (xorb signA signB) (op =? softfloat_mulAdd_subProd) in
  let propagateNaN_ZC (uiZ : Z) : fp Z := softfloat_propagateNaNF64UI uiZ uiC in
  let propagateNaN_ABC : fp Z :=
    uiZ <- softfloat_propagateNaNF64UI uiA uiB ;; propagateNaN_ZC uiZ in
  let invalid : fp Z :=
    softfloat_raiseFlags softfloat_flag_invalid ;;; propagateNaN_ZC defaultNaNF64UI in
  let infProdArg (magBits : Z) : fp Z :=
    if nz magBits then
      let uiZ := packToF64UI signZ 0x7FF 0 in
      if negb (expC =? 0x7FF) then ret uiZ
      else if nz sigC then propagateNaN_ZC uiZ
      else if eqb signZ signC then ret uiZ
      else invalid
    else invalid in
  let zeroProd : fp Z :=
    if negb (nz (expC .| sigC)) && negb (eqb signZ signC)
    then mode <- softfloat_roundingMode ;; ret (packToF64UI (mode =? softfloat_round_min) 0 0)
    else ret uiC in
  let proceed (expA sigA expB sigB : Z) : fp Z :=
    let expZ := expA + expB - 0x3FE in
    let sigA := u64 ((sigA .| 0x0010000000000000) .<< 10) in
    let sigB := u64 ((sigB .| 0x0010000000000000) .<< 11) in
    let m := softfloat_mul64To128M sigA sigB ++ [0; 0; 0; 0] in
    let sigZ := hi64 m in
    let '(expZ, shiftDist) :=
      if negb (nz (sigZ .& 0x4000000000000000)) then (expZ - 1, -1) else (expZ, 0) in
    let addend (expC sigC : Z) : fp Z :=
      mulAddF64_sum m signZ expZ sigZ shiftDist signC expC
        (u64 ((sigC .| 0x0010000000000000) .<< 10)) in
    if negb (nz expC) then
      if negb (nz sigC) then
        mulAddF64_sigZ m signZ expZ (if nz shiftDist then u64 (sigZ .<< 1) else sigZ)
      else
        let normExpSig := softfloat_normSubnormalF64Sig sigC in
        addend (es_exp normExpSig) (es_sig normExpSig)
    else addend expC sigC in
  let normB (expA sigA : Z) : fp Z :=
    if negb (nz expB) then
      if negb (nz sigB) then zeroProd
      else
        let normExpSig := softfloat_normSubnormalF64Sig sigB in
        proceed expA sigA (es_exp normExpSig) (es_sig normExpSig)
    else proceed expA sigA expB sigB in
  if expA =? 0x7FF then
    if nz sigA || ((expB =? 0x7FF) && nz sigB) then propagateNaN_ABC
    else infProdArg (expB .| sigB)
  else if expB =? 0x7FF then
    if nz sigB then propagateNaN_ABC else infProdArg (expA .| sigA)
  else if expC =? 0x7FF then
    if nz sigC then propagateNaN_ZC 0 else ret uiC
  else if negb (nz expA) then
    if negb (nz sigA) then zeroProd
    else
      let normExpSig := softfloat_normSubnormalF64Sig sigA in
      normB (es_exp normExpSig) (es_sig normExpSig)
  else normB expA sigA.

(** ** Double precision: the array *)

(** The array holds [n] in its lower half and [c] in the upper one. *)
Definition arr (m : list Z) (n c : Z) : Prop :=
  length m = 8%nat /\ all_words m /\ value m 0 4 = n /\ value m 4 4 = c.

Lemma radix4 : radix 4 = 2 ^ 128.
Proof. reflexivity. Qed.

Lemma arr_range m n c : arr m n c -> 0 <= n < 2 ^ 128 /\ 0 <= c < 2 ^ 128.
Proof. intros (_ & A & <- & <-); rewrite <- radix4; split; apply value_range; exact A. Qed.

(** The halves of the lower number. *)
Lemma arr_split m n c :
  arr m n c ->
  n = hi64 m * 2 ^ 64 + lo64 m /\ 0 <= hi64 m < 2 ^ 64 /\ 0 <= lo64 m < 2 ^ 64 /\
  nz (load m 1) || nz (load m 0) = nz (lo64 m).
Proof.
  intros (_ & A & <- & _); unfold hi64, lo64; cbn [value].
  pose proof (load_word m 0 A) as W0; pose proof (load_word m 1 A) as W1.
  pose proof (load_word m 2 A) as W2; pose proof (load_word m 3 A) as W3; unfold word in *.
  rewrite !u64_shl32, !Z.mod_small, !lor_add_disjoint by lia; repeat split; try lia.
  unfold nz; rewrite <- negb_andb; f_equal; apply eq_true_iff_eq.
  rewrite andb_true_iff, !Z.eqb_eq; lia.
Qed.

Lemma arr_lower m m' n c : arr m n c -> only 0 4 m m' -> arr m' (value m' 0 4) c.
Proof.
  intros (L & _ & _ & V) O; pose proof O as (L' & A & _); split; [congruence|]; split; [exact A|].
  split; [reflexivity|]; rewrite (only_value 0 4 m m') by (exact O || lia); exact V.
Qed.

Lemma arr_upper m m' n c : arr m n c -> only 4 4 m m' -> arr m' n (value m' 4 4).
Proof.
  intros (L & _ & V & _) O; pose proof O as (L' & A & _); split; [congruence|]; split; [exact A|].
  split; [|reflexivity]; rewrite (only_value 4 4 m m') by (exact O || lia); exact V.
Qed.

(** The multiword operations the code applies to the array. *)
Lemma arr_double m n c : arr m n c -> arr (softfloat_addM m 4 0 0 0) ((n + n) mod 2 ^ 128) c.
Proof.
  intros H; pose proof H as (L & A & V & _).
  destruct (addM_spec m 4 0 0 0 ltac:(lia) A ltac:(lia) ltac:(unfold clear_of;
    lia) ltac:(unfold clear_of; lia))
    as [O E]; rewrite V in E; rewrite <- radix4, <- E; exact (arr_lower _ _ _ _ H O).
Qed.

Lemma arr_add m n c : arr m n c -> arr (softfloat_addM m 4 0 4 0) ((n + c) mod 2 ^ 128) c.
Proof.
  intros H; pose proof H as (L & A & V & C).
  destruct (addM_spec m 4 0 4 0 ltac:(lia) A ltac:(lia) ltac:(unfold clear_of;
    lia) ltac:(unfold clear_of; lia))
    as [O E]; rewrite V, C in E; rewrite <- radix4, <- E; exact (arr_lower _ _ _ _ H O).
Qed.

Lemma arr_sub m n c : arr m n c -> arr (softfloat_subM m 4 0 4 0) ((n - c) mod 2 ^ 128) c.
Proof.
  intros H; pose proof H as (L & A & V & C).
  destruct (subM_spec m 4 0 4 0 ltac:(lia) A ltac:(lia) ltac:(unfold clear_of;
    lia) ltac:(unfold clear_of; lia))
    as [O E]; rewrite V, C in E; rewrite <- radix4, <- E; exact (arr_lower _ _ _ _ H O).
Qed.

Lemma arr_sub_from m n c : arr m n c -> arr (softfloat_subM m 4 4 0 0) ((c - n) mod 2 ^ 128) c.
Proof.
  intros H; pose proof H as (L & A & V & C).
  destruct (subM_spec m 4 4 0 0 ltac:(lia) A ltac:(lia) ltac:(unfold clear_of;
    lia) ltac:(unfold clear_of; lia))
    as [O E]; rewrite V, C in E; rewrite <- radix4, <- E; exact (arr_lower _ _ _ _ H O).
Qed.

Lemma arr_neg m n c : arr m n c -> arr (softfloat_negXM m 4 0) ((- n) mod 2 ^ 128) c.
Proof.
  intros H; pose proof H as (L & A & V & _).
  destruct (negXM_spec m 4 0 ltac:(lia) A ltac:(lia)) as [O E]; rewrite V in E.
  rewrite <- radix4, <- E; exact (arr_lower _ _ _ _ H O).
Qed.

Lemma arr_half m n c : arr m n c -> arr (softfloat_shortShiftRightM m 4 0 1 0) (n / 2) c.
Proof.
  intros H; pose proof H as (L & A & V & _).
  destruct (shortShiftRightM_spec 1 ltac:(lia) m 4 0 0 ltac:(lia) A ltac:(lia) ltac:(unfold clear_of; lia))
    as [O E]; rewrite V in E; change (2 ^ 1) with 2 in E; rewrite <- E;
      exact (arr_lower _ _ _ _ H O).
Qed.

Lemma arr_shiftLeft m n c d :
  arr m n c -> 1 <= d ->
  exists m', softfloat_shiftLeftM m 4 0 d 0 = Some m' /\ arr m' ((n * 2 ^ d) mod 2 ^ 128) c.
Proof.
  intros H Hd; pose proof H as (L & A & V & _).
  destruct (shiftLeftM_spec m 4 0 0 d ltac:(lia) A ltac:(lia) ltac:(lia) Hd) as (m' & E & O & E').
  exists m'; split; [exact E|]; rewrite V in E'; rewrite <- radix4, <- E';
    exact (arr_lower _ _ _ _ H O).
Qed.

Lemma arr_shiftRightJam m n c d :
  arr m n c -> 1 <= d ->
  exists m', softfloat_shiftRightJamM m 4 4 d 4 = Some m' /\ arr m' n (jdiv c (2 ^ d)).
Proof.
  intros H Hd; pose proof H as (L & A & _ & C).
  destruct (shiftRightJamM_spec m 4 4 4 d ltac:(lia) A ltac:(lia) ltac:(lia) Hd) as (m' & E & O & E').
  exists m'; split; [exact E|]; rewrite C in E'; rewrite <- E'; exact (arr_upper _ _ _ _ H O).
Qed.

Lemma value_store_words m p l0 l1 l2 l3 :
  all_words m -> (p + 4 <= length m)%nat -> word l0 -> word l1 -> word l2 -> word l3 ->
  let m' := store (store (store (store m (p + 3) l3) (p + 2) l2) (p + 1) l1) p l0 in
  only p 4 m m' /\ value m' p 4 = l0 + 2 ^ 32 * (l1 + 2 ^ 32 * (l2 + 2 ^ 32 * l3)).
Proof.
  intros A Hl W0 W1 W2 W3 m'; subst m'; split.
  - repeat (eapply only_trans; [|apply only_store; rewrite ?length_store; auto with words; lia]).
    apply only_refl; exact A.
  - cbn [value]; replace (S p) with (p + 1)%nat by lia; replace (S (p + 1)) with (p + 2)%nat by lia.
    replace (S (p + 2)) with (p + 3)%nat by lia.
    rewrite !load_store by (rewrite ?length_store; lia).
    repeat match goal with |- context [(?i =? ?j)%nat] =>
      first [rewrite (proj2 (Nat.eqb_eq i j)) by lia
        | rewrite (proj2 (Nat.eqb_neq i j)) by lia] end.
    lia.
Qed.

Lemma arr_sig128C m n c s : arr m n c -> 0 <= s < 2 ^ 64 -> arr (set_sig128C m s) n (s * 2 ^ 64).
Proof.
  intros H Hs; pose proof H as (L & A & _); assert (W0 : word 0) by (unfold word; lia).
  destruct (value_store_words m 4 0 0 (u32 s) (u32 (s .>> 32)) A ltac:(lia) W0 W0 (u32_range _) (u32_range _))
    as [O V].
  replace (s * 2 ^ 64) with (value (set_sig128C m s) 4 4); [exact (arr_upper _ _ _ _ H O)|].
  unfold set_sig128C; cbn [Nat.add] in V; rewrite V; pose proof (u32_split s Hs); lia.
Qed.

Lemma arr_set_hi m n c s :
  arr m n c -> 0 <= s < 2 ^ 64 ->
  arr (store (store m 3 (u32 (s .>> 32))) 2 (u32 s)) (s * 2 ^ 64 + lo64 m) c.
Proof.
  intros H Hs; pose proof H as (L & A & _); pose proof (load_word m 0 A) as W0;
    pose proof (load_word m 1 A) as W1.
  pose proof (u32_range s) as R0; pose proof (u32_range (s .>> 32)) as R1.
  set (m' := store _ 2 _).
  assert (O : only 0 4 m m').
  { apply (only_trans _ _ _ (store m 3 (u32 (s .>> 32)))); subst m';
      apply only_store; rewrite ?length_store; auto with words; lia. }
  replace (s * 2 ^ 64 + lo64 m) with (value m' 0 4); [exact (arr_lower _ _ _ _ H O)|].
  subst m'; cbn [value]; rewrite !load_store by (rewrite ?length_store; lia); cbn [Nat.eqb].
  unfold lo64, word in *; rewrite u64_shl32, Z.mod_small, lor_add_disjoint by lia.
  pose proof (u32_split s Hs); lia.
Qed.

(** ** Double precision: rounding the sum *)

Lemma jam_half S b : jam (jdiv S (2 ^ 1)) b = jdiv (jam S b) (2 ^ 1).
Proof.
  rewrite <- !sticky_low_bit; unfold jam; destruct b; [|reflexivity].
  rewrite Z.shiftr_lor, Z.land_lor_distr_l; change (1 .>> 1) with 0; change (1 .& 1) with 1.
  rewrite Z.lor_0_r, Z.lor_assoc; reflexivity.
Qed.

Lemma jdiv_half_again p d : 0 < d -> jdiv (jdiv p d) (2 ^ 1) = jdiv p (d * 2 ^ 1).
Proof.
  intros Hd; unfold jdiv at 1 3; rewrite <- jdiv_div by lia; f_equal.
  change (2 ^ 1) with 2; rewrite (jdiv_half p d) by lia; set (q := p / (d * 2)).
  unfold inexact at 1; replace (2 * q + _) with (b2z (inexact p (d * 2)) + q * 2) by ring.
  rewrite Z.mod_add by lia; destruct (inexact p (d * 2)); reflexivity.
Qed.

Lemma jam_bound b z k : 1 <= k -> 0 <= z < 2 ^ k -> z <= jam z b < 2 ^ k.
Proof.
  intros Hk Hz; rewrite jam_spec; destruct (b && Z.even z) eqn:C; bsimpl; [|lia].
  apply andb_prop in C as [_ C]; rewrite even_mod2 in C; apply Z.eqb_eq in C.
  rewrite (pow2_half k) in * by lia; Z.div_mod_to_equations; lia.
Qed.

(** The label [sigZ]: the low half of the array is jammed into the significand. *)
Lemma mulAddF64_sigZ_spec m n c s e S :
  arr m n c -> - 2 ^ 14 < e < 2 ^ 14 -> 2 ^ 62 <= S < 2 ^ 63 ->
  meets (mulAddF64_sigZ m s e S)
    (fun rm => round_scaled F64 rm s (jam S (nz (lo64 m))) 1 (e - 11)).
Proof.
  intros H He HS rm fl; destruct (arr_split m n c H) as (_ & _ & _ & L).
  unfold mulAddF64_sigZ, mulAddF64_roundPack; rewrite L; fold (jam S (nz (lo64 m))).
  pose proof (jam_bound (nz (lo64 m)) S 63 ltac:(lia) ltac:(lia)).
  rewrite roundPackToF64_spec by lia; cbv beta; replace (e - 1 - 10) with (e - 11) by lia;
    reflexivity.
Qed.

Lemma jam_hi m n c : arr m n c -> jam (hi64 m) (nz (lo64 m)) = jdiv n (2 ^ 64).
Proof.
  intros H; destruct (arr_split m n c H) as (-> & Hh & Hl & _).
  rewrite Z.add_comm, (Z.mul_comm (hi64 m)); change (2 ^ 64) with (2 ^ (64 + 0)) at 2.
  rewrite jdiv_low, Z.pow_0_r, jdiv_1 by lia; reflexivity.
Qed.

(** The end of an addition whose significand with its sticky bit is the jammed sum. *)
Lemma mulAddF64_add_tail m n c s e S P g :
  arr m n c -> - 2 ^ 13 < e < 2 ^ 13 -> 0 <= g -> 0 <= P -> 2 ^ 62 <= S < 2 ^ 64 ->
  jam S (nz (lo64 m)) = jdiv P (2 ^ g) ->
  meets (if nz (S .& 0x8000000000000000)
         then mulAddF64_sigZ m s (e + 1) (softfloat_shortShiftRightJam64 S 1)
         else mulAddF64_sigZ m s e S)
    (fun rm => round_scaled F64 rm s P 1 (e - 11 - g)).
Proof.
  intros H He Hg HP HS Hz rm fl; change 0x8000000000000000 with (2 ^ 63).
  pose proof (pow2_pos g Hg); rewrite nz_top_bit by lia.
  pose proof (jam_bound (nz (lo64 m)) S 64 ltac:(lia) ltac:(lia)) as B; rewrite Hz in B.
  assert (D : 2 ^ 61 <= P / 2 ^ g) by (unfold jdiv in B; rewrite jam_spec in B; destruct (_ && _);
    cbn [b2z] in B; lia).
  destruct (Z.leb_spec (2 ^ 63) S).
  - rewrite shortShiftRightJam64_spec by lia.
    assert (J : 2 ^ 62 <= jdiv S (2 ^ 1) < 2 ^ 63).
    { split; [|apply jdiv_lt; lia].
      unfold jdiv; rewrite jam_spec; assert (2 ^ 62 <= S / 2 ^ 1) by (apply Z.div_le_lower_bound;
        lia).
      destruct (_ && _); bsimpl; lia. }
    rewrite (mulAddF64_sigZ_spec m n c) by (assumption || lia); cbv beta.
    rewrite jam_half, Hz, jdiv_half_again, <- Z.pow_add_r by lia.
    replace (e + 1 - 11) with (e - 11 - g + (g + 1)) by lia.
    rewrite round_jammed; [reflexivity | cbn; lia | lia | lia |].
    cbn [fbits F64]; rewrite (Z.pow_add_r 2 g 1), <- Z.div_div by lia; apply Z.div_le_lower_bound;
      lia.
  - rewrite (mulAddF64_sigZ_spec m n c) by (assumption || lia); cbv beta; rewrite Hz.
    rewrite <- (round_jammed F64 rm s P g (e - 11 - g)) by (cbn [fbits F64]; lia).
    replace (e - 11 - g + g) with (e - 11) by lia; reflexivity.
Qed.

(** The normalisation that ends a subtraction. *)
Lemma mulAddF64_normalize_spec m n c s e :
  arr m n c -> 0 < n < 2 ^ 127 -> - 2 ^ 13 < e < 2 ^ 13 ->
  meets (mulAddF64_normalize m s e) (fun rm => round_scaled F64 rm s n 1 (e - 75)).
Proof.
  intros H Hn He rm fl; unfold mulAddF64_normalize.
  destruct (arr_split m n c H) as (En & Hh & Hl & _).
  set (sd := 126 - Z.log2 n).
  assert (L : 0 <= Z.log2 n <= 126)
    by (split; [apply Z.log2_nonneg | assert (Z.log2 n < 127) by (apply Z.log2_lt_pow2; lia); lia]).
  pose proof (normalize_range n 126 ltac:(lia) ltac:(lia)) as N; fold sd in N.
  assert (Es : (let '(shiftDist, sigZ) := if negb (nz (hi64 m)) then (64, lo64 m) else (0, hi64 m) in
                shiftDist + softfloat_countLeadingZeros64 sigZ - 1) = sd).
  { unfold nz; rewrite negb_involutive; destruct (Z.eqb_spec (hi64 m) 0) as [E | E].
    - rewrite countLeadingZeros64_spec by lia; subst sd; replace n with (lo64 m) by lia; lia.
    - rewrite countLeadingZeros64_spec by lia; subst sd.
      pose proof (Z.log2_nonneg (hi64 m)); pose proof (Z.log2_spec (hi64 m) ltac:(lia)) as B;
        unfold Z.succ in B.
      assert (Z.log2 n = Z.log2 (hi64 m) + 64); [|lia].
      apply Z.log2_unique; [lia|]; unfold Z.succ;
        rewrite <- Z.add_assoc, (Z.add_comm 64), Z.add_assoc.
      rewrite !(Z.pow_add_r 2 _ 64) by lia; lia. }
  assert (Z : forall m', arr m' (n * 2 ^ sd) c ->
    mulAddF64_sigZ m' s (e - sd) (hi64 m') rm fl
    = (fst (round_scaled F64 rm s n 1 (e - 75)), fl .| snd (round_scaled F64 rm s n 1 (e - 75)))).
  { intros m' H'; destruct (arr_split m' _ c H') as (En' & Hh' & Hl' & _).
    rewrite (mulAddF64_sigZ_spec m' (n * 2 ^ sd) c) by (assumption || lia); cbv beta.
    rewrite (jam_hi m' _ c H').
    assert (round_scaled F64 rm s (jdiv (n * 2 ^ sd) (2 ^ 64)) 1 (e - sd - 11)
            = round_scaled F64 rm s n 1 (e - 75)) as ->; [|reflexivity].
    replace (e - sd - 11) with (e - sd - 75 + 64) by lia.
    rewrite round_jammed by (first [lia | cbn [fbits F64]; lia
      | apply Z.div_le_lower_bound; cbn [fbits F64]; lia]).
    rewrite round_scaled_shift by lia; f_equal; lia. }
  set (p := if negb (nz (hi64 m)) then _ else _) in *.
  destruct p as [d sigZ] eqn:Ep; cbv beta iota in Es |- *; rewrite Es.
  unfold nz; destruct (Z.eqb_spec sd 0) as [E | E]; cbn [negb].
  - assert (sigZ = hi64 m) as ->.
    { subst p; unfold nz in Ep; rewrite E, Z.pow_0_r, Z.mul_1_r in N.
      rewrite (proj2 (Z.eqb_neq (hi64 m) 0)) in Ep by lia; injection Ep; auto. }
    rewrite E, Z.sub_0_r, Z.pow_0_r, Z.mul_1_r in Z; apply Z; exact H.
  - destruct (arr_shiftLeft m n c sd H ltac:(lia)) as (m' & -> & H').
    apply Z; rewrite Z.mod_small in H' by lia; exact H'.
Qed.

(** ** Double precision: the sum

    [N] is the product in the array, [q] the shift that is still to be applied to it. *)

(** The difference from a much larger addend: a borrow and a sticky bit for the low half. *)
Lemma borrow_jam R lo i :
  0 <= i -> 0 <= lo < 2 ^ 64 ->
  (if nz lo then (jdiv R (2 ^ i) - 1) .| 1 else jdiv R (2 ^ i)) = jdiv (2 ^ 64 * R - lo) (2 ^ (64 + i)).
Proof.
  intros Hi Hl; pose proof (pow2_pos i Hi); unfold nz; destruct (Z.eqb_spec lo 0) as [-> | E];
    cbn [negb].
  - rewrite Z.sub_0_r, <- (Z.add_0_l (2 ^ 64 * R)), jdiv_low by lia; reflexivity.
  - replace (2 ^ 64 * R - lo) with (2 ^ 64 - lo + 2 ^ 64 * (R - 1)) by ring.
    rewrite jdiv_low, nz_true by lia; cbn [jam]; unfold jdiv at 2.
    set (b := inexact (R - 1) (2 ^ i)); change (jam ((R - 1) / 2 ^ i) b .| 1) with (jam (jam ((R - 1) / 2 ^ i) b) true).
    rewrite jam_or, orb_true_r; cbn [jam]; unfold jdiv, inexact.
    pose proof (Z.div_mod R (2 ^ i) ltac:(lia)) as D;
      pose proof (Z.mod_pos_bound R (2 ^ i) ltac:(lia)) as M.
    unfold nz; destruct (Z.eqb_spec (R mod 2 ^ i) 0) as [Z | Z]; cbn [negb jam].
    + f_equal; apply (Z.div_unique_pos _ _ _ (2 ^ i - 1)); lia.
    + replace ((R - 1) / 2 ^ i) with (R / 2 ^ i) by (apply (Z.div_unique_pos _ _ _ (R mod 2 ^ i - 1)); lia).
      rewrite !lor_1; f_equal; Z.div_mod_to_equations; lia.
Qed.

(** A significand one bit short at most. *)
Lemma roundPack_one s e z rm fl :
  - 2 ^ 13 < e < 2 ^ 13 -> 2 ^ 61 <= z < 2 ^ 63 ->
  (if negb (nz (z .& 0x4000000000000000)) then mulAddF64_roundPack s (e - 1) (u64 (z .<< 1))
   else mulAddF64_roundPack s e z) rm fl
  = (fst (round_scaled F64 rm s z 1 (e - 11)), fl .| snd (round_scaled F64 rm s z 1 (e - 11))).
Proof.
  intros He Hz; change 0x4000000000000000 with (2 ^ 62); rewrite nz_top_bit by lia.
  unfold mulAddF64_roundPack; destruct (Z.leb_spec (2 ^ 62) z); cbn [negb].
  - rewrite roundPackToF64_spec by lia; replace (e - 1 - 10) with (e - 11) by lia; reflexivity.
  - rewrite shiftl_mul, u64_small, roundPackToF64_spec by lia; cbv beta.
    rewrite round_scaled_shift by lia; replace (e - 1 - 1 - 10 + 1) with (e - 11) by lia;
      reflexivity.
Qed.

Lemma complete_cancellationF64 rm fl :
  (mode <- softfloat_roundingMode ;; ret (packToF64UI (mode =? softfloat_round_min) 0 0)) rm fl
  = (fst (signbit F64 (rm =? softfloat_round_min), 0),
     fl .| snd (signbit F64 (rm =? softfloat_round_min), 0)).
Proof.
  unfold bind, softfloat_roundingMode, ret; cbn [fst snd];
    rewrite packToF64UI_spec, Z.lor_0_r by lia.
  f_equal; lia.
Qed.

(** A difference one bit short at most. *)
Lemma sigZ_one m n c s e rm fl :
  arr m n c -> - 2 ^ 13 < e < 2 ^ 13 -> 2 ^ 125 <= n < 2 ^ 127 ->
  (if negb (nz (hi64 m .& 0x4000000000000000)) then mulAddF64_sigZ m s (e - 1) (u64 (hi64 m .<< 1))
   else mulAddF64_sigZ m s e (hi64 m)) rm fl
  = (fst (round_scaled F64 rm s n 1 (e - 75)), fl .| snd (round_scaled F64 rm s n 1 (e - 75))).
Proof.
  intros H He Hn; destruct (arr_split m n c H) as (En & Hh & Hl & _).
  change 0x4000000000000000 with (2 ^ 62); rewrite nz_top_bit by lia.
  destruct (Z.leb_spec (2 ^ 62) (hi64 m)); cbn [negb].
  - rewrite (mulAddF64_sigZ_spec m n c) by (assumption || lia); cbv beta; rewrite (jam_hi m n c H).
    rewrite <- (round_jammed F64 rm s n 64 (e - 75)) by
      (first [lia | cbn [fbits F64]; lia | apply Z.div_le_lower_bound; cbn [fbits F64]; lia]).
    replace (e - 75 + 64) with (e - 11) by lia; reflexivity.
  - rewrite shiftl_mul, u64_small by lia;
      rewrite (mulAddF64_sigZ_spec m n c) by (assumption || lia); cbv beta.
    set (b := nz (lo64 m)); pose proof (jam_bound b (hi64 m * 2 ^ 1) 63 ltac:(lia) ltac:(lia)).
    rewrite (round_scaled_sticky F64 rm s _ n (2 ^ 63) 1 (e - 1 - 11)); try (cbn [fbits F64]; lia).
    + rewrite <- (Z.mul_1_l (2 ^ 63)); replace (e - 1 - 11) with (e - 75 + 63) by lia.
      rewrite round_scaled_down by lia; reflexivity.
    + rewrite jam_div, Z.div_mul by lia; apply (Z.div_unique_pos _ _ _ (lo64 m)); lia.
    + assert (n mod (2 ^ 63 * 2 ^ 1) = lo64 m) as M by (symmetry;
        apply (Z.mod_unique_pos _ _ (hi64 m)); lia).
      unfold inexact; rewrite M; fold b; destruct b; unfold jam.
      * rewrite lor_1, Z.div_mul by lia; change (2 ^ 1) with 2; unfold nz.
        replace ((2 * _ + 1) mod 2) with 1 by (clear; Z.div_mod_to_equations; lia); reflexivity.
      * rewrite Z.mod_mul by lia; reflexivity.
Qed.

Section SumF64.
Context (m : list Z) (N c0 q ex sigC ey : Z) (s : bool) (rm fl : Z).
Hypothesis Hm : arr m N c0.
Hypothesis Hq : q = 0 \/ q = 1.
Hypothesis HN : 2 ^ 126 <= N * 2 ^ q < 2 ^ 127.
Hypothesis HN2 : N mod 2 = 0.
Hypothesis HC : 2 ^ 62 <= sigC < 2 ^ 63.
Hypothesis HC2 : sigC mod 2 = 0.
Hypothesis He : -4000 < ex < 4000 /\ -4000 < ey < 4000.

Definition meets_sum (sc : bool) : Prop :=
  let r := sum_spec F64 75 s (N * 2 ^ q) ex sc (sigC * 2 ^ 64) ey rm in
  mulAddF64_sum m s ex (hi64 m) (- q) sc ey sigC rm fl = (fst r, fl .| snd r).

Lemma sum_facts :
  (N = hi64 m * 2 ^ 64 + lo64 m /\ 0 <= hi64 m < 2 ^ 63 /\ 0 <= lo64 m < 2 ^ 64) /\
  (N * 2 ^ q) mod 2 = 0 /\ (sigC * 2 ^ 64) mod 2 = 0 /\ Z.even sigC = true /\ 0 < N.
Proof using All.
  destruct (arr_split m N c0 Hm) as (E & Hh & Hl & _).
  assert (0 < N < 2 ^ 127) by (destruct Hq as [-> | ->]; lia).
  repeat split; try lia.
  - destruct Hq as [-> | ->]; [rewrite Z.pow_0_r, Z.mul_1_r; exact HN2|].
    change (2 ^ 1) with 2; apply Z.mod_mul; lia.
  - change (2 ^ 64) with (2 ^ 63 * 2); rewrite Z.mul_assoc; apply Z.mod_mul; lia.
  - rewrite even_mod2; apply Z.eqb_eq; exact HC2.
Qed.

(** The product shifted to the exponent of a larger addend. *)
Lemma aligned_hi n :
  1 <= n -> let i := n - q in
  (if nz (- q + n) then softfloat_shiftRightJam64 (hi64 m) (- q + n) else hi64 m) = jdiv (hi64 m) (2 ^ i).
Proof using All.
  intros Hn i; destruct sum_facts as ((_ & Hh & _) & _); replace (- q + n) with i by lia.
  unfold nz; destruct (Z.eqb_spec i 0) as [E | E]; cbn [negb].
  - rewrite E, Z.pow_0_r, jdiv_1; reflexivity.
  - apply shiftRightJam64_spec; lia.
Qed.

Lemma sum_below_same : ex < ey -> meets_sum s.
Proof using All.
  intros H; unfold meets_sum; cbv zeta; destruct sum_facts as ((En & Hh & Hl) & _ & _ & Ec & HN0).
  set (n := ey - ex); unfold mulAddF64_sum, mulAddF64_align.
  rewrite eqb_reflx, (proj2 (Z.ltb_lt (ex - ey) 0)) by lia; cbn [orb].
  replace (- q - (ex - ey)) with (- q + n) by lia; rewrite aligned_hi by lia; cbv zeta.
  rewrite (proj2 (Z.leb_le (ex - ey) 0)) by lia.
  set (i := n - q) in *; assert (Hi : 0 <= i) by lia; pose proof (pow2_pos i Hi).
  assert (Hj : 0 <= jdiv (hi64 m) (2 ^ i) < 2 ^ 63) by (apply jdiv_lt; try lia;
    rewrite Z.pow_add_r by lia; nia).
  rewrite u64_small by lia.
  rewrite (mulAddF64_add_tail m N c0 s ey _ (sigC * 2 ^ (64 + i) + N) (64 + i)); try lia;
    try assumption.
  - rewrite sum_spec_same, (proj2 (Z.leb_le ex ey)) by nia; cbv beta.
    replace (sigC * 2 ^ 64 * 2 ^ (ey - ex) + N * 2 ^ q) with ((sigC * 2 ^ (64 + i) + N) * 2 ^ q).
    + rewrite round_scaled_shift by lia; replace (ey - 11 - (64 + i)) with (ex - 75 + q) by lia;
        reflexivity.
    + rewrite Z.mul_add_distr_r, <- !Z.mul_assoc, <- !Z.pow_add_r by lia; do 3 f_equal; lia.
  - rewrite Z.add_comm, jdiv_add by assumption.
    replace (sigC * 2 ^ (64 + i) + N) with (lo64 m + 2 ^ 64 * (sigC * 2 ^ i + hi64 m))
      by (rewrite Z.pow_add_r by lia; lia).
    rewrite jdiv_low by lia; reflexivity.
Qed.

Lemma sum_below_opposite : ex + 1 < ey -> meets_sum (negb s).
Proof using All.
  intros H; unfold meets_sum; cbv zeta; destruct sum_facts as ((En & Hh & Hl) & Ex2 & Ey2 & Ec & HN0).
  set (n := ey - ex); unfold mulAddF64_sum, mulAddF64_align.
  rewrite eqb_negb2, (proj2 (Z.ltb_lt (ex - ey) 0)), (proj2 (Z.ltb_lt (ex - ey) (-1))) by lia;
    cbn [orb].
  replace (- q - (ex - ey)) with (- q + n) by lia; rewrite aligned_hi by lia; cbv zeta.
  destruct (arr_split m N c0 Hm) as (_ & _ & _ & ->).
  set (i := n - q) in *; assert (Hi : 1 <= i) by lia; pose proof (pow2_pos i ltac:(lia)).
  assert (Hj : 0 <= jdiv (hi64 m) (2 ^ i) < 2 ^ 61).
  { apply jdiv_lt; try lia; pose proof (pow2_le (63 - q) (i + 61) ltac:(lia)).
    split; [lia|]; destruct Hq as [-> | ->]; lia. }
  assert (ES : sigC - jdiv (hi64 m) (2 ^ i) = jdiv (sigC * 2 ^ i - hi64 m) (2 ^ i)) by (apply jdiv_sub; assumption).
  rewrite (u64_small (sigC - _)), (u64_small (_ - 1)), ES, borrow_jam by lia.
  set (P := 2 ^ 64 * (sigC * 2 ^ i - hi64 m) - lo64 m).
  assert (EP : P * 2 ^ q = sigC * 2 ^ 64 * 2 ^ n - N * 2 ^ q).
  { subst P; replace n with (i + q) by lia; rewrite Z.pow_add_r, En by lia; ring. }
  assert (Hz : 2 ^ 61 <= jdiv P (2 ^ (64 + i)) < 2 ^ 63).
  { subst P; rewrite <- borrow_jam, <- ES by lia; destruct (nz (lo64 m)); [|lia].
    change (?x .| 1) with (jam x true); rewrite jam_spec; cbn [andb].
    set (S := sigC - _) in *; destruct (Z.even (S - 1)); cbn [b2z]; lia. }
  rewrite roundPack_one by lia.
  assert (D : 2 ^ 60 <= P / 2 ^ (64 + i)) by (unfold jdiv in Hz; rewrite jam_spec in Hz;
    destruct (_ && _); cbn [b2z] in Hz; lia).
  pose proof (pow2_pos (64 + i) ltac:(lia)) as Pg;
    pose proof (Z.div_mod P (2 ^ (64 + i)) ltac:(lia)).
  pose proof (Z.mod_pos_bound P _ Pg); pose proof (pow2_pos q ltac:(lia)).
  assert (P0 : 0 < P) by nia.
  rewrite sum_spec_below by (fold n; nia); fold n; rewrite <- EP, round_scaled_shift by lia.
  replace (ey - 11) with (ex - 75 + q + (64 + i)) by lia.
  rewrite round_jammed by (cbn [fbits F64]; lia); reflexivity.
Qed.

Lemma sum_next_opposite : ex + 1 = ey -> meets_sum (negb s).
Proof using All.
  intros H; unfold meets_sum; cbv zeta; destruct sum_facts as (_ & Ex2 & _ & _ & HN0).
  unfold mulAddF64_sum, mulAddF64_align; replace (ex - ey) with (-1) by lia; rewrite eqb_negb2.
  change (-1 <? 0) with true; change (-1 <? -1) with false; cbv zeta; cbn [orb].
  set (m' := if negb (nz (- q)) then _ else _).
  assert (A : exists h, arr m' h c0 /\ N * 2 ^ q = h * 2 ^ 1).
  { subst m'; destruct Hq as [-> | ->]; cbn [Z.opp nz Z.eqb negb].
    - exists (N / 2); split; [apply arr_half; exact Hm|]; clear - HN2; Z.div_mod_to_equations; lia.
    - exists N; auto. }
  destruct A as (h & A & Eh); rewrite Eh in *.
  pose proof (arr_sub_from _ _ _ (arr_sig128C m' h c0 sigC A ltac:(lia))) as B.
  rewrite Z.mod_small in B by lia.
  rewrite (mulAddF64_normalize_spec _ _ _ _ _ B) by lia.
  rewrite sum_spec_below by (replace (ey - ex) with 1 by lia; lia).
  replace (ey - ex) with 1 by lia; rewrite <- Z.mul_sub_distr_r, round_scaled_shift by lia.
  replace (ex - 75 + 1) with (ey - 75) by lia; reflexivity.
Qed.

(** With the product shifted into place. *)
Lemma shifted_product : arr (if nz (- q) then softfloat_addM m 4 0 0 0 else m) (N * 2 ^ q) c0.
Proof using All.
  destruct Hq as [-> | ->]; cbn [Z.opp nz Z.eqb negb]; [rewrite Z.pow_0_r, Z.mul_1_r; exact Hm|].
  pose proof (arr_double m N c0 Hm) as D; rewrite Z.mod_small in D by lia.
  replace (N * 2 ^ 1) with (N + N) by ring; exact D.
Qed.

Lemma sum_level_same : ex = ey -> meets_sum s.
Proof using All.
  intros H; unfold meets_sum; cbv zeta; destruct sum_facts as (_ & _ & _ & _ & HN0).
  pose proof shifted_product as A; unfold mulAddF64_sum, mulAddF64_align;
    replace (ex - ey) with 0 by lia.
  rewrite eqb_reflx; cbn [Z.ltb Z.leb Z.compare nz Z.eqb negb];
    set (m1 := if nz (- q) then _ else _) in *.
  set (x := N * 2 ^ q) in *; destruct (arr_split m1 x c0 A) as (En & Hh & Hl & _).
  rewrite u64_small by lia.
  rewrite (mulAddF64_add_tail m1 x c0 s ex _ (x + sigC * 2 ^ 64) 64); try lia; try assumption.
  - rewrite sum_spec_same, (proj2 (Z.leb_le ex ey)) by lia; replace (ey - ex) with 0 by lia.
    rewrite Z.pow_0_r, Z.mul_1_r, (Z.add_comm x); replace (ex - 11 - 64) with (ex - 75) by lia;
      reflexivity.
  - replace (x + sigC * 2 ^ 64) with (lo64 m1 + 2 ^ 64 * (hi64 m1 + sigC)) by lia.
    change (2 ^ 64) with (2 ^ (64 + 0)) at 2; rewrite jdiv_low, Z.pow_0_r, jdiv_1 by lia;
      reflexivity.
Qed.

Lemma sum_level_opposite : ex = ey -> meets_sum (negb s).
Proof using All.
  intros H; unfold meets_sum; cbv zeta; destruct sum_facts as (_ & _ & _ & _ & HN0).
  pose proof shifted_product as A; unfold mulAddF64_sum, mulAddF64_align;
    replace (ex - ey) with 0 by lia.
  rewrite eqb_negb2; cbn [Z.ltb Z.leb Z.compare nz Z.eqb negb];
    set (m1 := if nz (- q) then _ else _) in *.
  set (x := N * 2 ^ q) in *; destruct (arr_split m1 x c0 A) as (En & Hh & Hl & Hlo).
  subst ey; rewrite sum_spec_level; set (d := hi64 m1 - sigC).
  assert (Hd : - 2 ^ 63 <= d < 2 ^ 63) by (subst d; lia).
  replace (x - sigC * 2 ^ 64) with (d * 2 ^ 64 + lo64 m1) by (subst d; lia).
  pose proof (arr_set_hi m1 x c0 (u64 d) A (u64_range d)) as B; rewrite u64_signed in B at 3 by lia.
  rewrite <- andb_assoc, <- negb_orb, Hlo, u64_sign by lia.
  assert (Z0 : negb (nz (u64 d)) && negb (nz (lo64 m1)) = (d * 2 ^ 64 + lo64 m1 =? 0)).
  { unfold nz; rewrite !negb_involutive, u64_signed by lia; apply eq_true_iff_eq.
    rewrite andb_true_iff, !Z.eqb_eq; destruct (Z.ltb_spec d 0); lia. }
  assert (S0 : (d <? 0) = (d * 2 ^ 64 + lo64 m1 <? 0)) by (apply eq_true_iff_eq;
    rewrite !Z.ltb_lt; lia).
  rewrite Z0; destruct (Z.eqb_spec (d * 2 ^ 64 + lo64 m1) 0); [apply complete_cancellationF64|].
  rewrite <- S0; destruct (Z.ltb_spec d 0); rewrite ?xorb_true_r, ?xorb_false_r.
  - apply arr_neg in B.
    replace (- ((d + 2 ^ 64) * 2 ^ 64 + lo64 m1)) with (- (d * 2 ^ 64 + lo64 m1) + (-1) * 2 ^ 128) in B by ring.
    rewrite Z.mod_add, Z.mod_small in B by lia.
    rewrite (mulAddF64_normalize_spec _ _ _ _ _ B), Z.abs_neq by lia; reflexivity.
  - rewrite (mulAddF64_normalize_spec _ _ _ _ _ B), Z.abs_eq by lia; reflexivity.
Qed.

Lemma sum_above_same : ey < ex -> meets_sum s.
Proof using All.
  intros H; unfold meets_sum; cbv zeta; destruct sum_facts as (_ & Ex2 & _ & _ & HN0).
  pose proof shifted_product as A; unfold mulAddF64_sum, mulAddF64_align.
  rewrite eqb_reflx, (proj2 (Z.ltb_ge (ex - ey) 0)), (proj2 (Z.leb_gt (ex - ey) 0)), nz_true by lia.
  cbn [negb]; set (m1 := if nz (- q) then _ else _) in *; set (x := N * 2 ^ q) in *.
  set (n := ex - ey) in *; pose proof (pow2_pos n ltac:(lia)).
  destruct (arr_shiftRightJam _ _ _ n (arr_sig128C m1 x c0 sigC A ltac:(lia)) ltac:(lia)) as (m2 & E & B).
  rewrite E; apply arr_add in B; set (Q := x + jdiv (sigC * 2 ^ 64) (2 ^ n)) in *.
  assert (EQ : Q = jdiv (x * 2 ^ n + sigC * 2 ^ 64) (2 ^ n))
    by (apply jdiv_add; [assumption | rewrite even_mod2; apply Z.eqb_eq; exact Ex2]).
  assert (HQ : x <= Q < 2 ^ 128).
  { assert (0 <= jdiv (sigC * 2 ^ 64) (2 ^ n) < 2 ^ 127); [|subst Q; lia].
    apply jdiv_lt; try lia; rewrite Z.pow_add_r by lia; nia. }
  rewrite (Z.mod_small Q) in B by lia; set (m3 := softfloat_addM m2 4 0 4 0) in *.
  destruct (arr_split _ _ _ B) as (En & Hh & Hl & _); pose proof (jam_hi _ _ _ B) as J.
  rewrite EQ, jdiv_jdiv, <- Z.pow_add_r in J by lia.
  rewrite (mulAddF64_add_tail m3 Q _ s ex (hi64 m3) (x * 2 ^ n + sigC * 2 ^ 64) (n + 64) B ltac:(lia) ltac:(lia) ltac:(nia) ltac:(lia) J).
  rewrite sum_spec_same, (proj2 (Z.leb_gt ex ey)) by lia.
  replace (ex - 11 - (n + 64)) with (ey - 75) by lia; reflexivity.
Qed.

Lemma sum_above_opposite : ey < ex -> meets_sum (negb s).
Proof using All.
  intros H; unfold meets_sum; cbv zeta; destruct sum_facts as (_ & Ex2 & Ey2 & _ & HN0).
  pose proof shifted_product as A; unfold mulAddF64_sum, mulAddF64_align.
  rewrite eqb_negb2, (proj2 (Z.ltb_ge (ex - ey) 0)), nz_true by lia.
  cbn [negb]; set (m1 := if nz (- q) then _ else _) in *; set (x := N * 2 ^ q) in *.
  set (n := ex - ey) in *; pose proof (pow2_pos n ltac:(lia)).
  destruct (arr_shiftRightJam _ _ _ n (arr_sig128C m1 x c0 sigC A ltac:(lia)) ltac:(lia)) as (m2 & E & B).
  rewrite E; apply arr_sub in B.
  destruct (round_difference F64 rm s 126 (sigC * 2 ^ 64) x n (ey - 75)) as (P & Z & R);
    cbn [fbits F64]; auto; try lia.
  rewrite Z.mod_small in B by lia; set (D := x - jdiv (sigC * 2 ^ 64) (2 ^ n)) in *.
  rewrite sum_spec_above by (fold n; lia); fold n; rewrite <- R;
    replace (ey - 75 + n) with (ex - 75) by lia.
  destruct (Z.ltb_spec 1 n); [|apply (mulAddF64_normalize_spec _ _ _ _ _ B); lia].
  apply (sigZ_one _ _ _ _ _ _ _ B); [lia|]; subst D.
  assert (0 <= jdiv (sigC * 2 ^ 64) (2 ^ n) < 2 ^ 125); [|lia].
  apply jdiv_lt; try lia; pose proof (pow2_le 2 n ltac:(lia)); rewrite Z.pow_add_r by lia; nia.
Qed.

Lemma mulAddF64_sum_ok sc : meets_sum sc.
Proof using All.
  destruct (Bool.bool_dec sc s) as [-> | Ns].
  - destruct (Z.lt_trichotomy ex ey) as [H | [H | H]];
      auto using sum_below_same, sum_level_same, sum_above_same.
  - replace sc with (negb s) by (destruct s, sc; reflexivity || congruence).
    destruct (Z.lt_trichotomy ex ey) as [H | [H | H]];
      auto using sum_level_opposite, sum_above_opposite.
    destruct (Z.eq_dec (ex + 1) ey); [apply sum_next_opposite | apply sum_below_opposite]; lia.
Qed.
End SumF64.

(** ** Double precision: the whole operation *)

Lemma arr_product sA sB :
  0 <= sA < 2 ^ 64 -> 0 <= sB < 2 ^ 64 ->
  arr (softfloat_mul64To128M sA sB ++ [0; 0; 0; 0]) (sA * sB) 0.
Proof.
  intros HA HB; pose proof (mul64To128M_words sA sB HA HB) as W.
  assert (R : exists w0 w1 w2 w3, softfloat_mul64To128M sA sB = [u32 w0; u32 w1; u32 w2; u32 w3])
    by (unfold softfloat_mul64To128M; eauto).
  destruct R as (w0 & w1 & w2 & w3 & E); rewrite E in *; cbn [app].
  assert (W0 : word 0) by (unfold word; lia); pose proof u32_range as U.
  split; [reflexivity|]; split; [unfold all_words; repeat (apply Forall_cons;
    [first [exact W0 | apply U]|]); constructor|].
  split; [exact W | reflexivity].
Qed.

(** The product and the shift that normalizes it. *)
Lemma mulAddF64_product a mA eA b mB eB :
  norm_operand F64 a mA eA -> norm_operand F64 b mB eB ->
  let m := softfloat_mul64To128M (u64 (mA .<< 10)) (u64 (mB .<< 11)) ++ [0; 0; 0; 0] in
  exists N q ex,
    (if negb (nz (hi64 m .& 0x4000000000000000)) then (eA + eB - 0x3FE - 1, -1) else (eA + eB - 0x3FE, 0))
      = (ex, - q) /\
    arr m N 0 /\ (q = 0 \/ q = 1) /\ 2 ^ 126 <= N * 2 ^ q < 2 ^ 127 /\ N mod 2 = 0 /\
      -2000 < ex < 4000 /\
    mag F64 a * mag F64 b * 2 ^ (75 + 2000) = N * 2 ^ q * 2 ^ (ex + one_exp F64 + 2000).
Proof.
  intros Na Nb m; pose proof Na as (Ra & Xa & _); pose proof Nb as (Rb & Xb & _).
  change (fbits F64) with 52 in *; change (emax F64) with 0x7FF in *.
  set (N := mA * mB * 2 ^ 21).
  assert (A : arr m N 0).
  { subst m N; rewrite !shiftl_mul, (u64_small (mA * _)), (u64_small (mB * _)) by lia.
    replace (mA * mB * 2 ^ 21) with (mA * 2 ^ 10 * (mB * 2 ^ 11)) by ring; apply arr_product; lia. }
  assert (R : 2 ^ 125 <= N < 2 ^ 127) by (subst N; nia).
  assert (M : N mod 2 = 0)
    by (subst N; change (2 ^ 21) with (2 ^ 20 * 2); rewrite Z.mul_assoc; apply Z.mod_mul; lia).
  destruct (arr_split m N 0 A) as (En & Hh & Hl & _).
  change 0x4000000000000000 with (2 ^ 62); rewrite nz_top_bit by lia.
  exists N; destruct (Z.leb_spec (2 ^ 62) (hi64 m)); cbn [negb].
  - exists 0; eexists; split; [reflexivity|]; repeat split; try lia; try apply A.
    apply (fused_product F64 75 2000 ltac:(cbn; lia) ltac:(lia) a mA eA b mB eB 21 0x3FE 0); auto;
      change (one_exp F64) with 1074; try lia; subst N; ring.
  - exists 1; eexists; split; [reflexivity|]; repeat split; try lia; try apply A.
    apply (fused_product F64 75 2000 ltac:(cbn; lia) ltac:(lia) a mA eA b mB eB 21 0x3FE 1); auto;
      change (one_exp F64) with 1074; try lia; subst N; ring.
Qed.

Lemma mulAddF64_addend a b c m N q ex mC eC sp :
  sp = xorb (fsign F64 a) (fsign F64 b) ->
  arr m N 0 -> q = 0 \/ q = 1 -> 2 ^ 126 <= N * 2 ^ q < 2 ^ 127 -> N mod 2 = 0 ->
    -2000 < ex < 4000 ->
  mag F64 a * mag F64 b * 2 ^ (75 + 2000) = N * 2 ^ q * 2 ^ (ex + one_exp F64 + 2000) ->
  norm_operand F64 c mC eC ->
  meets (mulAddF64_sum m sp ex (hi64 m) (- q) (fsign F64 c) eC (u64 (mC .<< 10))) (fused_spec F64 a b c).
Proof.
  intros -> A Hq HN HN2 He E Nc rm fl; pose proof Nc as (Rc & Xc & _).
  change (fbits F64) with 52 in *; change (emax F64) with 0x7FF in *.
  rewrite shiftl_mul, u64_small by lia.
  assert (M : (mC * 2 ^ 10) mod 2 = 0)
    by (change (2 ^ 10) with (2 ^ 9 * 2); rewrite Z.mul_assoc; apply Z.mod_mul; lia).
  pose proof (mulAddF64_sum_ok m N 0 q ex (mC * 2 ^ 10) eC (xorb (fsign F64 a) (fsign F64 b)) rm fl
                A Hq HN HN2 ltac:(lia) M ltac:(lia) (fsign F64 c)) as S; unfold meets_sum in S;
                  cbv zeta in S.
  rewrite S.
  pose proof (fused_addend F64 75 2000 ltac:(cbn;
    lia) ltac:(lia) c mC eC 74 (mC * 2 ^ 10 * 2 ^ 64) Nc) as Ec.
  rewrite (fused_round F64 75 2000 a b c) by
    (first [assumption | apply Ec; change (one_exp F64) with 1074; lia
           | change (one_exp F64) with 1074; lia | cbn; lia]).
  reflexivity.
Qed.

Lemma mulAddF64_finish a mA eA b mB eB c sp :
  sp = xorb (fsign F64 a) (fsign F64 b) -> fexp F64 c <> 0x7FF ->
  norm_operand F64 a mA eA -> norm_operand F64 b mB eB ->
  meets
    (let m := softfloat_mul64To128M (u64 (mA .<< 10)) (u64 (mB .<< 11)) ++ [0; 0; 0; 0] in
     let '(expZ, shiftDist) :=
       if negb (nz (hi64 m .& 0x4000000000000000)) then (eA + eB - 0x3FE - 1, -1)
       else (eA + eB - 0x3FE, 0) in
     if negb (nz (fexp F64 c)) then
       if negb (nz (ffrac F64 c)) then
         mulAddF64_sigZ m sp expZ (if nz shiftDist then u64 (hi64 m .<< 1) else hi64 m)
       else
         let normExpSig := softfloat_normSubnormalF64Sig (ffrac F64 c) in
         mulAddF64_sum m sp expZ (hi64 m) shiftDist (fsign F64 c) (es_exp normExpSig)
           (u64 ((es_sig normExpSig .| 0x0010000000000000) .<< 10))
     else mulAddF64_sum m sp expZ (hi64 m) shiftDist (fsign F64 c) (fexp F64 c)
            (u64 ((ffrac F64 c .| 0x0010000000000000) .<< 10)))
    (fused_spec F64 a b c).
Proof.
  intros Es Nx Na Nb.
  destruct (mulAddF64_product a mA eA b mB eB Na Nb) as (N & q & ex & P & A & Hq & HN & HN2 & He & E).
  cbv zeta in *; set (m := softfloat_mul64To128M _ _ ++ _) in *; rewrite P.
  unnz (fexp F64 c); destruct (Z.eqb_spec (fexp F64 c) 0) as [Z1 | Z1]; cbn [negb].
  1: unnz (ffrac F64 c); destruct (Z.eqb_spec (ffrac F64 c) 0) as [Z2 | Z2]; cbn [negb].
  - intros rm fl; pose proof (sigZ_one m N 0 sp (ex + q) rm fl A ltac:(lia)) as S.
    rewrite Es in S |- *; rewrite <- (fused_no_addend F64 75 2000 a b c ltac:(cbn;
      lia) ltac:(lia) (N * 2 ^ q) ex rm);
      [ | apply Z.eqb_eq; rewrite mag_zero, andb_true_iff, !Z.eqb_eq by (cbn; lia); auto | lia
      | change (one_exp F64) with 1074; lia | exact E].
    rewrite round_scaled_shift by lia; replace (ex - 75 + q) with (ex + q - 75) by lia; clear P.
    destruct (arr_split m N 0 A) as (En & Hh & Hl & _).
    change 0x4000000000000000 with (2 ^ 62) in S;
      rewrite nz_top_bit in S by (destruct Hq as [-> | ->]; lia).
    destruct Hq as [-> | ->]; cbn [Z.opp nz Z.eqb negb];
      [rewrite (proj2 (Z.leb_le _ _)) in S by lia | rewrite (proj2 (Z.leb_gt _ _)) in S by lia];
      cbn [negb] in S; rewrite <- S by lia; do 2 f_equal; lia.
  - apply mulAddF64_addend with (N := N); auto; apply norm_subnormalF64; assumption.
  - apply mulAddF64_addend with (N := N); auto; apply norm_normalF64; assumption.
Qed.

(** An infinite product. *)
Lemma inf_productF64 sp c rm fl :
  0 <= fexp F64 c <= 0x7FF ->
  (if negb (fexp F64 c =? 0x7FF) then ret (packToF64UI sp 0x7FF 0)
   else if negb (ffrac F64 c =? 0) then softfloat_propagateNaNF64UI (packToF64UI sp 0x7FF 0) c
   else if eqb sp (fsign F64 c) then ret (packToF64UI sp 0x7FF 0)
   else softfloat_raiseFlags softfloat_flag_invalid ;;;
     softfloat_propagateNaNF64UI defaultNaNF64UI c)
    rm fl
  = let r := if is_nan F64 c then nan_result F64 c c
             else if is_inf F64 c && xorb sp (fsign F64 c) then invalid_result F64
             else (signbit F64 sp + 0x7FF * 2 ^ 52, 0) in
    (fst r, fl .| snd r).
Proof.
  intros Hc; destruct (Z.eqb_spec (fexp F64 c) 0x7FF); cbn [negb];
    [destruct (Z.eqb_spec (ffrac F64 c) 0); cbn [negb]|]; classify F64 c; cbn [andb orb negb].
  - destruct (eqb sp (fsign F64 c)) eqn:E.
    + apply eqb_prop in E; rewrite <- E, xorb_nilpotent; pack_leaf packToF64UI_spec.
    + replace (xorb sp (fsign F64 c)) with true by (destruct sp, (fsign F64 c); auto; discriminate).
      apply (invalid_product F64 _ propagateNaNF64UI_spec eq_refl).
  - apply (nan_addend F64 _ propagateNaNF64UI_spec); rewrite packToF64UI_spec by lia; destruct sp;
      reflexivity.
  - pack_leaf packToF64UI_spec.
Qed.

Lemma zero_productF64 a b c rm fl :
  0 <= c < 0x10000000000000000 -> fexp F64 c <> 0x7FF -> mag F64 a = 0 \/ mag F64 b = 0 ->
  (if negb (negb (fexp F64 c =? 0) || negb (ffrac F64 c =? 0))
      && negb (eqb (xorb (fsign F64 a) (fsign F64 b)) (fsign F64 c))
   then mode <- softfloat_roundingMode ;; ret (packToF64UI (mode =? softfloat_round_min) 0 0)
   else ret c) rm fl
  = (fst (fused_spec F64 a b c rm), fl .| snd (fused_spec F64 a b c rm)).
Proof.
  intros Hc Nc Z0; rewrite (fused_zero_product F64 a b c) by (assumption || cbn; lia).
  rewrite negb_orb, !negb_involutive, mag_zero by (cbn; lia).
  destruct (_ && negb _); [apply complete_cancellationF64|].
  unfold ret; cbn [fst snd]; rewrite Z.lor_0_r; reflexivity.
Qed.

Lemma mulAddF64_spec a b c :
  0 <= a < 0x10000000000000000 -> 0 <= b < 0x10000000000000000 -> 0 <= c < 0x10000000000000000 ->
  meets (softfloat_mulAddF64 a b c 0) (fun rm => ieee_mul_add F64 rm a b c).
Proof.
  intros Ha Hb Hc rm fl; unfold softfloat_mulAddF64.
  change (0 =? softfloat_mulAdd_subC) with false; change (0 =? softfloat_mulAdd_subProd) with false.
  rewrite !xorb_false_r; cbv zeta; autorewrite with sf_fields.
  operands F64 a b 52 0x7FF; pose proof (fexp_range F64 c ltac:(cbn; lia)) as Rc;
    change (emax F64) with 0x7FF in *.
  pose proof (nan_product F64 _ propagateNaNF64UI_spec eq_refl a b c rm fl) as Np.
  pose proof (invalid_product F64 _ propagateNaNF64UI_spec eq_refl c rm fl) as Ni.
  pose proof (nan_addend F64 _ propagateNaNF64UI_spec 0 c rm fl eq_refl) as Nc.
  pose proof (norm_normalF64 a) as Na; pose proof (norm_normalF64 b) as Nb.
  pose proof (norm_subnormalF64 a) as Sa; pose proof (norm_subnormalF64 b) as Sb.
  pose proof (zero_productF64 a b c rm fl Hc) as Zp.
  pose proof (mag_zero F64 a ltac:(cbn; lia) ltac:(cbn; lia)) as Za.
  pose proof (mag_zero F64 b ltac:(cbn; lia) ltac:(cbn; lia)) as Zb.
  unfold ieee_mul_add; fold (fused_spec F64 a b c rm); change (inf_mag F64) with (0x7FF * 2 ^ 52).
  rewrite Za, Zb, !nz_lor; unnz (fexp F64 a); unnz (fexp F64 b); unnz (ffrac F64 a);
    unnz (ffrac F64 b).
  destruct (Z.eqb_spec (fexp F64 a) 0x7FF) as [Ia | Ia];
    [|destruct (Z.eqb_spec (fexp F64 b) 0x7FF) as [Ib | Ib]].
  - rewrite (proj2 (Z.eqb_neq (fexp F64 a) 0)) by lia.
    destruct (Z.eqb_spec (ffrac F64 a) 0), (Z.eqb_spec (ffrac F64 b) 0),
      (Z.eqb_spec (fexp F64 b) 0x7FF), (Z.eqb_spec (fexp F64 b) 0); try lia;
      classify F64 a; classify F64 b; cbn [orb andb negb]; rewrite ?orb_true_r;
      (exact Np || exact Ni || apply (inf_productF64 _ c rm fl Rc)).
  - rewrite (proj2 (Z.eqb_neq (fexp F64 b) 0)) by lia.
    destruct (Z.eqb_spec (ffrac F64 a) 0), (Z.eqb_spec (ffrac F64 b) 0),
      (Z.eqb_spec (fexp F64 a) 0); try lia;
      classify F64 a; classify F64 b; cbn [orb andb negb]; rewrite ?orb_true_r;
      (exact Np || exact Ni || apply (inf_productF64 _ c rm fl Rc)).
  - classify F64 a; classify F64 b; cbn [orb andb].
    destruct (Z.eqb_spec (fexp F64 c) 0x7FF) as [Ic | Ic].
    + unnz (ffrac F64 c); destruct (Z.eqb_spec (ffrac F64 c) 0); classify F64 c; cbn [negb];
        [unfold ret; cbn [fst snd]; rewrite Z.lor_0_r; reflexivity | exact Nc].
    + classify F64 c.
      destruct (Z.eqb_spec (fexp F64 a) 0), (Z.eqb_spec (ffrac F64 a) 0),
        (Z.eqb_spec (fexp F64 b) 0), (Z.eqb_spec (ffrac F64 b) 0);
          cbn [negb orb andb] in Za, Zb |- *;
        try apply Z.eqb_eq in Za; try apply Z.eqb_eq in Zb;
        first [apply Zp; auto; fail | apply mulAddF64_finish; auto].
Qed.

(** ** Theorems *)

(** C4: [softfloat_mulAddF32] and [softfloat_mulAddF64], as the monitor calls them, return the
    IEEE 754 fused multiply-add [a * b + c] with a single rounding: for all operands,
    rounding modes and initial flags, subnormals, infinities, NaNs and cancellation to zero
    included. *)
Theorem mul_add_correct a b c d e f :
  0 <= a < 0x100000000 -> 0 <= b < 0x100000000 -> 0 <= c < 0x100000000 ->
  0 <= d < 0x10000000000000000 -> 0 <= e < 0x10000000000000000 -> 0 <= f < 0x10000000000000000 ->
  meets (softfloat_mulAddF32 a b c 0) (fun rm => ieee_mul_add F32 rm a b c) /\
  meets (softfloat_mulAddF64 d e f 0) (fun rm => ieee_mul_add F64 rm d e f).
Proof. split; [apply mulAddF32_spec | apply mulAddF64_spec]; assumption. Qed.

(** [(1 + 2^-23)^2 - (1 + 2^-22)] is exactly [2^-46], which two roundings would lose, and the
    same at double precision. *)
Lemma mul_add_correct_witness :
  softfloat_mulAddF32 0x3F800001 0x3F800001 0xBF800002 0 softfloat_round_near_even 0 = (0x28800000, 0) /\
  softfloat_mulAddF64 0x3FF0000000000001 0x3FF0000000000001 0xBFF0000000000002 0
    softfloat_round_near_even 0 = (0x3970000000000000, 0).
Proof.
  destruct (mul_add_correct 0x3F800001 0x3F800001 0xBF800002 0x3FF0000000000001 0x3FF0000000000001
              0xBFF0000000000002 ltac:(lia) ltac:(lia) ltac:(lia) ltac:(lia) ltac:(lia) ltac:(lia)) as [S D].
  rewrite S, D; vm_compute; split; reflexivity.
Defined.
