(* ===== verification/FpNearest.v ===== *)
(** * What rounding to nearest promises

    [ieee_round] is a formula; this file shows what it means: in the two nearest modes, as
    long as the result does not overflow, no number of the format is closer to the exact
    value.  With the correctness theorems this becomes a statement about the code that does
    not mention the formula. *)

From S2P Require Import Prelude FpSpec FpTheory SfEnv SfAdd SfAddF64 SfMul SfCompare.
From Stdlib Require Import ZArith Lia Bool.

Definition near_mode (rm : Z) : bool :=
  (rm =? softfloat_round_near_even) || (rm =? softfloat_round_near_maxMag).

Lemma rint_nearest rm s p d k :
  near_mode rm = true -> 0 < d -> Z.abs (rint rm s p d * d - p) <= Z.abs (k * d - p).
Proof.
  intros Hm Hd; unfold rint, rounds_up, near_mode in *.
  pose proof (Z.div_mod p d ltac:(lia)); pose proof (Z.mod_pos_bound p d Hd).
  set (n := p / d) in *; set (r := p mod d) in *.
  assert (U : forall u : bool, (u = true -> d <= 2 * r) -> (u = false -> 2 * r <= d) ->
    Z.abs ((n + b2z u) * d - p) <= Z.abs (k * d - p)).
  { intros u H1 H2; destruct (Z.lt_trichotomy k n) as [L | [-> | G]]; destruct u; bsimpl;
      try specialize (H1 eq_refl); try specialize (H2 eq_refl); nia. }
  apply U; destruct (rm =? softfloat_round_near_even); [| | |]; cbn [orb] in Hm; rewrite ?Hm;
    rewrite ?orb_true_iff, ?orb_false_iff, ?andb_true_iff, ?Z.ltb_lt, ?Z.ltb_ge, ?Z.leb_le, ?Z.leb_gt,
      ?Z.eqb_eq; lia.
Qed.

Section Nearest.
Context (F : fmt) (HF : 1 <= fbits F) (HE : 1 <= ebits F).

(** Numbers at or above the binade of quantum [2 ^ e] are multiples of it. *)
Lemma mag_multiple c e :
  0 <= e -> 2 ^ (fbits F + e) <= mag F c -> exists k, mag F c = k * 2 ^ e.
Proof using HF HE.
  intros He Hc; pose proof (ffrac_range F c HF); pose proof (fexp_range F c HE).
  pose proof (pow2_pos (fbits F) ltac:(lia)); pose proof (pow2_pos e He).
  rewrite Z.pow_add_r in Hc by lia.
  unfold mag in *; destruct (Z.eqb_spec (fexp F c) 0).
  - exists (ffrac F c); assert (2 ^ e < 2 ^ 1) by nia.
    assert (e = 0) by (destruct (Z.le_gt_cases 1 e) as [L | L]; [|lia];
      pose proof (pow2_le 1 e ltac:(lia)); lia).
    subst e; lia.
  - destruct (Z.le_gt_cases e (fexp F c - 1)) as [L | L].
    + exists ((2 ^ fbits F + ffrac F c) * 2 ^ (fexp F c - 1 - e)).
      rewrite <- Z.mul_assoc, <- Z.pow_add_r by lia; do 2 f_equal; lia.
    + pose proof (pow2_le (fexp F c - 1 + 1) e ltac:(lia)) as P.
      rewrite pow2_succ in P by lia; nia.
Qed.

(** The number a sum of fields stands for, the fraction's carry included. *)
Lemma mag_encoding s e n :
  0 <= e -> 0 <= n <= 2 ^ (fbits F + 1) -> (e = 0 \/ 2 ^ fbits F <= n) ->
  e * 2 ^ fbits F + n < inf_mag F ->
  let r := signbit F s + (e * 2 ^ fbits F + n) in
  fval F r = (if s then -1 else 1) * (n * 2 ^ e) /\ fexp F r <> emax F.
Proof using HF HE.
  intros He Hn Hc Hi r; pose proof (pow2_pos (fbits F) ltac:(lia)) as Pf.
  pose proof (pow2_pos (ebits F) ltac:(lia)); pose proof (pow2_pos e He).
  unfold inf_mag, emax in *; rewrite pow2_succ in Hn by lia.
  assert (R : 0 <= r < 2 ^ (1 + ebits F + fbits F)).
  { subst r; unfold signbit; rewrite !Z.pow_add_r by lia; destruct s; bsimpl; nia. }
  assert (W : signbit F s = b2z s * 2 ^ ebits F * 2 ^ fbits F)
    by (unfold signbit; rewrite Z.pow_add_r by lia; ring).
  set (m := e * 2 ^ fbits F + n) in *.
  assert (Em : m < 2 ^ ebits F * 2 ^ fbits F) by nia.
  assert (Q : 0 <= m / 2 ^ fbits F < 2 ^ ebits F - 1)
    by (split; [apply Z.div_pos | apply Z.div_lt_upper_bound]; nia).
  assert (S : fsign F r = s).
  { rewrite fsign_ltb by (assumption || lia); subst r; rewrite W, Z.pow_add_r by lia.
    destruct s; bsimpl; [apply Z.leb_le | apply Z.leb_gt]; nia. }
  assert (X : fexp F r = m / 2 ^ fbits F).
  { unfold fexp; subst r; rewrite W, Z.add_comm, Z.div_add, Z.mod_add by lia.
    apply Z.mod_small; lia. }
  assert (Y : ffrac F r = m mod 2 ^ fbits F)
    by (unfold ffrac; subst r; rewrite W, Z.add_comm, Z.mod_add by lia; reflexivity).
  split; [|rewrite X; lia].
  unfold fval, mag; rewrite S, X, Y.
  assert (G : (if m / 2 ^ fbits F =? 0 then m mod 2 ^ fbits F
               else (2 ^ fbits F + m mod 2 ^ fbits F) * 2 ^ (m / 2 ^ fbits F - 1)) = n * 2 ^ e);
    [|rewrite G; destruct s; lia].
  assert (C : (e = 0 /\ n < 2 ^ fbits F) \/ (2 ^ fbits F <= n < 2 * 2 ^ fbits F) \/ n = 2 * 2 ^ fbits F) by lia.
  subst m; destruct C as [[-> Hl] | [Hl | ->]].
  - rewrite Z.mul_0_l, Z.add_0_l, Z.div_small, Z.mod_small by lia; cbn [Z.eqb]; lia.
  - replace (e * 2 ^ fbits F + n) with (n - 2 ^ fbits F + (e + 1) * 2 ^ fbits F) by lia.
    rewrite Z.div_add, Z.mod_add, Z.div_small, Z.mod_small by lia.
    rewrite (proj2 (Z.eqb_neq _ 0)) by lia; replace (0 + (e + 1) - 1) with e by lia; lia.
  - replace (e * 2 ^ fbits F + 2 * 2 ^ fbits F) with (0 + (e + 2) * 2 ^ fbits F) by lia.
    rewrite Z.div_add, Z.mod_add, Z.div_small, Z.mod_small by lia.
    rewrite (proj2 (Z.eqb_neq _ 0)) by lia; replace (0 + (e + 2) - 1) with (e + 1) by lia.
    rewrite pow2_succ by lia; ring.
Qed.

(** The quantum exponent and the significand it gives. *)
Lemma qexp_range rm s p q :
  0 < p -> 0 < q ->
  let e := qexp F p q in
  let n := rint rm s p (q * 2 ^ e) in
  0 <= e /\ 0 <= n <= 2 ^ (fbits F + 1) /\ (e = 0 \/ 2 ^ fbits F <= n) /\
  (e = 0 \/ 2 ^ (fbits F + e) * q <= p).
Proof using HF.
  intros Hp Hq e n; assert (He : 0 <= e) by (unfold e, qexp; lia).
  pose proof (pow2_pos e He); pose proof (pow2_pos (fbits F) ltac:(lia)).
  pose proof (rint_range rm s p (q * 2 ^ e) ltac:(nia)) as R; fold n in R.
  rewrite <- Z.div_div in R by lia; assert (Hv : 0 <= p / q) by (apply Z.div_pos; lia).
  pose proof (Z.div_pos (p / q) (2 ^ e) Hv ltac:(lia)).
  pose proof (Z.mul_div_le p q Hq); clearbody n; remember (p / q) as v eqn:Ev.
  assert (B : v / 2 ^ e < 2 ^ (fbits F + 1) /\ (e = 0 \/ 2 ^ (fbits F + e) <= v)).
  { unfold e, qexp in *; rewrite <- Ev in *; clear Ev; destruct (Z.eq_dec v 0) as [-> | N].
    - rewrite Z.div_0_l by lia; cbn [Z.log2]; split; [apply pow2_pos|]; lia.
    - pose proof (Z.log2_spec v ltac:(lia)) as [L U]; rewrite <- Z.add_1_r in U.
      destruct (Z.le_gt_cases (Z.log2 v) (fbits F)).
      + rewrite Z.max_l, Z.pow_0_r, Z.div_1_r by lia; split; [|lia].
        pose proof (pow2_le (Z.log2 v + 1) (fbits F + 1)); pose proof (Z.log2_nonneg v); lia.
      + rewrite Z.max_r in * by lia; replace (fbits F + (Z.log2 v - fbits F)) with (Z.log2 v) by lia.
        split; [|lia]; apply Z.div_lt_upper_bound; [lia|].
        rewrite <- Z.pow_add_r by lia; replace (Z.log2 v - fbits F + (fbits F + 1)) with (Z.log2 v + 1) by lia; lia. }
  destruct B as [B1 B2]; repeat split; try lia.
  - destruct B2 as [? | B2]; [lia|right].
    transitivity (v / 2 ^ e); [|lia]; apply Z.div_le_lower_bound; [lia|].
    rewrite Z.pow_add_r in B2 by lia; lia.
  - destruct B2 as [? | B2]; [lia|right].
    nia.
Qed.

(** No number of the format is nearer to the exact value than the rounded one. *)
Lemma ieee_round_nearest rm s p q c :
  near_mode rm = true -> 0 < p -> 0 < q -> rmag F rm s p q < inf_mag F ->
  let r := fst (ieee_round F rm s p q) in
  let x := if s then - p else p in
  fexp F r <> emax F /\ Z.abs (fval F r * q - x) <= Z.abs (fval F c * q - x).
Proof using HF HE.
  intros Hm Hp Hq Hi r x.
  assert (Er : r = signbit F s + rmag F rm s p q)
    by (subst r; unfold ieee_round; rewrite (proj2 (Z.leb_gt _ _)) by exact Hi; reflexivity).
  clearbody r; subst r; unfold rmag in *.
  destruct (qexp_range rm s p q Hp Hq) as (He & Hn & Hc & Hb).
  set (e := qexp F p q) in *; set (n := rint rm s p (q * 2 ^ e)) in *.
  destruct (mag_encoding s e n He Hn Hc Hi) as [V X]; split; [exact X|].
  pose proof (pow2_pos e He).
  assert (N : forall k, Z.abs (n * (q * 2 ^ e) - p) <= Z.abs (k * (q * 2 ^ e) - p))
    by (intros; apply rint_nearest; nia || assumption).
  set (y := if s then - fval F c else fval F c).
  assert (G : Z.abs (n * (q * 2 ^ e) - p) <= Z.abs (y * q - p)).
  { assert (Y : y = mag F c \/ y = - mag F c)
      by (subst y; unfold fval; destruct s, (fsign F c); lia).
    destruct (Z.le_gt_cases (2 ^ (fbits F + e)) (mag F c)) as [L | L].
    - destruct (mag_multiple c e He L) as [k K].
      destruct Y as [-> | ->]; rewrite K; [specialize (N k) | specialize (N (- k))];
        [replace (k * 2 ^ e * q) with (k * (q * 2 ^ e)) by ring
        |replace (- (k * 2 ^ e) * q) with (- k * (q * 2 ^ e)) by ring]; exact N.
    - destruct Hb as [E0 | Hb].
      + rewrite E0, Z.pow_0_r, Z.mul_1_r in N |- *; apply N.
      + specialize (N (2 ^ fbits F)); rewrite Z.pow_add_r in * by lia.
        pose proof (mag_nonneg F c HF HE); nia. }
  rewrite V; subst x y; destruct s; nia.
Qed.

(** A finite result in a nearest mode did not overflow. *)
Lemma finite_no_overflow rm s p q :
  near_mode rm = true -> fexp F (fst (ieee_round F rm s p q)) <> emax F ->
  rmag F rm s p q < inf_mag F.
Proof using HF HE.
  intros Hm; unfold ieee_round; destruct (Z.leb_spec (inf_mag F) (rmag F rm s p q)) as [L | L];
    [|auto]; intros X; exfalso; apply X; cbn [fst].
  assert (A : rounds_away rm s = true) by (unfold rounds_away, near_mode in *; rewrite Hm; reflexivity).
  pose proof (pow2_pos (fbits F) ltac:(lia)); pose proof (pow2_pos (ebits F) ltac:(lia)).
  rewrite A; cbn [negb Z.b2z]; unfold fexp, signbit, inf_mag, emax.
  replace (b2z s * 2 ^ (fbits F + ebits F) + ((2 ^ ebits F - 1) * 2 ^ fbits F - 0))
    with ((2 ^ ebits F - 1 + b2z s * 2 ^ ebits F) * 2 ^ fbits F)
    by (rewrite Z.pow_add_r by lia; ring).
  rewrite Z.div_mul, Z.mod_add, Z.mod_small by lia; reflexivity.
Qed.

Lemma add_nearest a b c rm :
  near_mode rm = true -> fexp F a <> emax F -> fexp F b <> emax F ->
  let r := fst (ieee_add F rm a b) in
  fexp F r <> emax F ->
  Z.abs (fval F r - (fval F a + fval F b)) <= Z.abs (fval F c - (fval F a + fval F b)).
Proof using HF HE.
  intros Hm Fa Fb; unfold ieee_add; cbv zeta.
  destruct (finite_fields F a Fa) as [-> ->], (finite_fields F b Fb) as [-> ->]; cbn [orb].
  set (v := fval F a + fval F b); destruct (Z.eqb_spec v 0) as [E | E]; cbn [fst].
  - intros _; rewrite E; set (z := if xorb _ _ then _ else _).
    assert (fval F (signbit F z) = 0).
    { destruct (mag_encoding z 0 0) as [V _]; try (pose proof (pow2_pos (fbits F + 1)); lia).
      - unfold inf_mag, emax; pose proof (pow2_pos (fbits F) ltac:(lia)).
        pose proof (pow2_le 1 (ebits F) ltac:(lia)); nia.
      - rewrite Z.mul_0_l, !Z.add_0_r in V; rewrite V; lia. }
    lia.
  - intros Fr; apply finite_no_overflow in Fr; [|exact Hm].
    destruct (ieee_round_nearest rm (v <? 0) (Z.abs v) 1 c Hm ltac:(lia) ltac:(lia) Fr) as [_ N].
    rewrite !Z.mul_1_r in N; replace (if v <? 0 then - Z.abs v else Z.abs v) with v in N; [exact N|].
    destruct (Z.ltb_spec v 0); lia.
Qed.

Lemma mul_nearest a b c rm :
  0 <= one_exp F ->
  near_mode rm = true -> fexp F a <> emax F -> fexp F b <> emax F ->
  let r := fst (ieee_mul F rm a b) in
  fexp F r <> emax F ->
  Z.abs (fval F r * 2 ^ one_exp F - fval F a * fval F b)
  <= Z.abs (fval F c * 2 ^ one_exp F - fval F a * fval F b).
Proof using HF HE.
  intros Ho Hm Fa Fb; unfold ieee_mul; cbv zeta; set (z := xorb _ _).
  destruct (finite_fields F a Fa) as [-> ->], (finite_fields F b Fb) as [-> ->]; cbn [orb].
  pose proof (mag_nonneg F a HF HE); pose proof (mag_nonneg F b HF HE).
  assert (V : fval F a * fval F b = if z then - (mag F a * mag F b) else mag F a * mag F b)
    by (subst z; unfold fval; destruct (fsign F a), (fsign F b); cbn [xorb]; ring).
  pose proof (pow2_pos (one_exp F) Ho); rewrite V; clearbody z.
  destruct ((mag F a =? 0) || (mag F b =? 0)) eqn:Z0; cbn [fst].
  - intros _; assert (E : mag F a * mag F b = 0)
      by (apply orb_prop in Z0 as [Z0 | Z0]; apply Z.eqb_eq in Z0; rewrite Z0; ring).
    assert (E' : fval F (signbit F z) = 0).
    { destruct (mag_encoding z 0 0) as [W _]; try (pose proof (pow2_pos (fbits F + 1)); lia).
      - unfold inf_mag, emax; pose proof (pow2_pos (fbits F) ltac:(lia)).
        pose proof (pow2_le 1 (ebits F) ltac:(lia)); nia.
      - rewrite Z.mul_0_l, !Z.add_0_r in W; rewrite W; lia. }
    rewrite E', E; destruct z; lia.
  - intros Fr; apply finite_no_overflow in Fr; [|exact Hm]; breflect.
    destruct (ieee_round_nearest rm z (mag F a * mag F b) (2 ^ one_exp F) c Hm ltac:(nia) ltac:(lia) Fr)
      as [_ N]; exact N.
Qed.
End Nearest.

(** ** The code, without the formula *)

(** C29: In the nearest modes [f32_add] returns a single nearest to the exact sum: for finite
    operands and a finite result, every single [c] is at least as far from the exact sum as
    the result. *)
Theorem f32_add_nearest a b c rm fl :
  0 <= a < 0x100000000 -> 0 <= b < 0x100000000 -> near_mode rm = true ->
  fexp F32 a <> 0xFF -> fexp F32 b <> 0xFF ->
  let r := fst (f32_add a b rm fl) in
  fexp F32 r <> 0xFF ->
  Z.abs (fval F32 r - (fval F32 a + fval F32 b)) <= Z.abs (fval F32 c - (fval F32 a + fval F32 b)).
Proof.
  intros Ha Hb Hm Fa Fb; cbv zeta; rewrite (f32_add_spec a b Ha Hb rm fl); cbn [fst].
  apply (add_nearest F32); cbn [fbits ebits F32]; assumption || lia.
Qed.

Lemma f32_add_nearest_witness :
  let r := fst (f32_add 0x4B800000 0x3F800000 softfloat_round_near_even 0) in
  r = 0x4B800000 /\
  Z.abs (fval F32 r - (fval F32 0x4B800000 + fval F32 0x3F800000))
  <= Z.abs (fval F32 0x4B800001 - (fval F32 0x4B800000 + fval F32 0x3F800000)).
Proof.
  split; [vm_compute; reflexivity|].
  apply f32_add_nearest; try lia; vm_compute; congruence.
Defined.

(** In the nearest modes [f64_mul] returns a double nearest to the exact product: for
    finite operands and a finite result, every double [c] is at least as far from the exact
    product as the result.  Values are in units of the smallest subnormal, so the product of
    two values is scaled by the value of one. *)
Lemma f64_mul_nearest a b c rm fl :
  0 <= a < 0x10000000000000000 -> 0 <= b < 0x10000000000000000 -> near_mode rm = true ->
  fexp F64 a <> 0x7FF -> fexp F64 b <> 0x7FF ->
  let r := fst (f64_mul a b rm fl) in
  fexp F64 r <> 0x7FF ->
  Z.abs (fval F64 r * 2 ^ one_exp F64 - fval F64 a * fval F64 b)
  <= Z.abs (fval F64 c * 2 ^ one_exp F64 - fval F64 a * fval F64 b).
Proof.
  intros Ha Hb Hm Fa Fb; cbv zeta; rewrite (f64_mul_spec a b Ha Hb rm fl); cbn [fst].
  apply (mul_nearest F64); cbn [fbits ebits F64]; try (assumption || lia); cbn; lia.
Qed.
