(* ===== verification/Encoding.v ===== *)
(** * RISC-V encodings ([machine/encoding.h], [machine/emulation.h])

    The numeric constants the monitor's handlers use: [mstatus] bits, trap causes, CSR
    numbers and the match/mask pairs of the instructions it emulates; the field and
    immediate macros of [emulation.h] and [bits.h]. *)

From S2P Require Import Prelude.
From Stdlib Require Import ZArith Lia Bool.

(** ** Constants of [encoding.h] *)

Definition MSTATUS_SIE : Z := 0x00000002.
Definition MSTATUS_SPIE : Z := 0x00000020.
Definition MSTATUS_SPP : Z := 0x00000100.
Definition MSTATUS_MPP : Z := 0x00001800.
Definition MSTATUS_FS : Z := 0x00006000.
Definition MSTATUS_MPRV : Z := 0x00020000.
Definition MSTATUS_MXR : Z := 0x00080000.
Definition PRV_U : Z := 0.
Definition PRV_S : Z := 1.
Definition CAUSE_FETCH_ACCESS : Z := 0x1.
Definition CAUSE_ILLEGAL_INSTRUCTION : Z := 0x2.
Definition CAUSE_MISALIGNED_LOAD : Z := 0x4.
Definition CAUSE_LOAD_ACCESS : Z := 0x5.
Definition CAUSE_MISALIGNED_STORE : Z := 0x6.
Definition CAUSE_STORE_ACCESS : Z := 0x7.
Definition CAUSE_SUPERVISOR_ECALL : Z := 0x9.
Definition CAUSE_LOAD_PAGE_FAULT : Z := 0xd.
Definition CAUSE_STORE_PAGE_FAULT : Z := 0xf.
Definition CSR_FFLAGS : Z := 0x1.
Definition CSR_FRM : Z := 0x2.
Definition CSR_FCSR : Z := 0x3.
Definition CSR_CYCLE : Z := 0xc00.
Definition CSR_TIME : Z := 0xc01.
Definition CSR_INSTRET : Z := 0xc02.
Definition CSR_MHPMCOUNTER3 : Z := 0xb03.
Definition CSR_MHPMCOUNTER4 : Z := 0xb04.
Definition CSR_MHPMEVENT3 : Z := 0x323.
Definition CSR_MHPMEVENT4 : Z := 0x324.
Definition MATCH_MUL : Z := 0x2000033.
Definition MASK_MUL : Z := 0xfe00707f.
Definition MATCH_MULH : Z := 0x2001033.
Definition MASK_MULH : Z := 0xfe00707f.
Definition MATCH_MULHSU : Z := 0x2002033.
Definition MASK_MULHSU : Z := 0xfe00707f.
Definition MATCH_MULHU : Z := 0x2003033.
Definition MASK_MULHU : Z := 0xfe00707f.
Definition MATCH_DIV : Z := 0x2004033.
Definition MASK_DIV : Z := 0xfe00707f.
Definition MATCH_DIVU : Z := 0x2005033.
Definition MASK_DIVU : Z := 0xfe00707f.
Definition MATCH_REM : Z := 0x2006033.
Definition MASK_REM : Z := 0xfe00707f.
Definition MATCH_REMU : Z := 0x2007033.
Definition MASK_REMU : Z := 0xfe00707f.
Definition MATCH_MULW : Z := 0x200003b.
Definition MASK_MULW : Z := 0xfe00707f.
Definition MATCH_DIVW : Z := 0x200403b.
Definition MASK_DIVW : Z := 0xfe00707f.
Definition MATCH_DIVUW : Z := 0x200503b.
Definition MASK_DIVUW : Z := 0xfe00707f.
Definition MATCH_REMW : Z := 0x200603b.
Definition MASK_REMW : Z := 0xfe00707f.
Definition MATCH_REMUW : Z := 0x200703b.
Definition MASK_REMUW : Z := 0xfe00707f.
Definition MATCH_LH : Z := 0x1003.
Definition MASK_LH : Z := 0x707f.
Definition MATCH_LW : Z := 0x2003.
Definition MASK_LW : Z := 0x707f.
Definition MATCH_LD : Z := 0x3003.
Definition MASK_LD : Z := 0x707f.
Definition MATCH_LHU : Z := 0x5003.
Definition MASK_LHU : Z := 0x707f.
Definition MATCH_LWU : Z := 0x6003.
Definition MASK_LWU : Z := 0x707f.
Definition MATCH_SH : Z := 0x1023.
Definition MASK_SH : Z := 0x707f.
Definition MATCH_SW : Z := 0x2023.
Definition MASK_SW : Z := 0x707f.
Definition MATCH_SD : Z := 0x3023.
Definition MASK_SD : Z := 0x707f.
Definition MATCH_FLW : Z := 0x2007.
Definition MASK_FLW : Z := 0x707f.
Definition MATCH_FLD : Z := 0x3007.
Definition MASK_FLD : Z := 0x707f.
Definition MATCH_FSW : Z := 0x2027.
Definition MASK_FSW : Z := 0x707f.
Definition MATCH_FSD : Z := 0x3027.
Definition MASK_FSD : Z := 0x707f.
Definition MATCH_FMV_X_W : Z := 0xe0000053.
Definition MASK_FMV_X_W : Z := 0xfff0707f.
Definition MATCH_FCLASS_S : Z := 0xe0001053.
Definition MASK_FCLASS_S : Z := 0xfff0707f.
Definition MATCH_FMV_X_D : Z := 0xe2000053.
Definition MASK_FMV_X_D : Z := 0xfff0707f.
Definition MATCH_FCLASS_D : Z := 0xe2001053.
Definition MASK_FCLASS_D : Z := 0xfff0707f.
Definition MATCH_FMV_W_X : Z := 0xf0000053.
Definition MASK_FMV_W_X : Z := 0xfff0707f.
Definition MATCH_FMV_D_X : Z := 0xf2000053.
Definition MASK_FMV_D_X : Z := 0xfff0707f.
Definition MATCH_C_LD : Z := 0x6000.
Definition MASK_C_LD : Z := 0xe003.
Definition MATCH_C_SD : Z := 0xe000.
Definition MASK_C_SD : Z := 0xe003.
Definition MATCH_C_LDSP : Z := 0x6002.
Definition MASK_C_LDSP : Z := 0xe003.
Definition MATCH_C_SDSP : Z := 0xe002.
Definition MASK_C_SDSP : Z := 0xe003.
Definition MATCH_C_FLD : Z := 0x2000.
Definition MASK_C_FLD : Z := 0xe003.
Definition MATCH_C_LW : Z := 0x4000.
Definition MASK_C_LW : Z := 0xe003.
Definition MATCH_C_FSD : Z := 0xa000.
Definition MASK_C_FSD : Z := 0xe003.
Definition MATCH_C_SW : Z := 0xc000.
Definition MASK_C_SW : Z := 0xe003.
Definition MATCH_C_FLDSP : Z := 0x2002.
Definition MASK_C_FLDSP : Z := 0xe003.
Definition MATCH_C_LWSP : Z := 0x4002.
Definition MASK_C_LWSP : Z := 0xe003.
Definition MATCH_C_FSDSP : Z := 0xa002.
Definition MASK_C_FSDSP : Z := 0xe003.
Definition MATCH_C_SWSP : Z := 0xc002.
Definition MASK_C_SWSP : Z := 0xe003.

(** [(insn & MASK_X) == MATCH_X] *)
Definition matches (insn mask mtch : Z) : bool := insn .& mask =? mtch.

(** ** Fields and immediates ([emulation.h], [bits.h]) *)

Definition SH_RD : Z := 7.
Definition SH_RS1 : Z := 15.
Definition SH_RS2 : Z := 20.
Definition SH_RS2C : Z := 2.
Definition LOG_REGBYTES : Z := 3.
Definition MASK_FUNCT3 : Z := 0x7000.

Definition RV_X (x s n : Z) : Z := (x .>> s) .& ((1 .<< n) - 1).
Definition RVC_LD_IMM (x : Z) : Z := (RV_X x 10 3 .<< 3) .| (RV_X x 5 2 .<< 6).
Definition RVC_LDSP_IMM (x : Z) : Z :=
  (RV_X x 5 2 .<< 3) .| (RV_X x 12 1 .<< 5) .| (RV_X x 2 3 .<< 6).
Definition RVC_SDSP_IMM (x : Z) : Z := (RV_X x 10 3 .<< 3) .| (RV_X x 7 3 .<< 6).
Definition RVC_RS1S (insn : Z) : Z := 8 + RV_X insn SH_RD 3.
Definition RVC_RS2S (insn : Z) : Z := 8 + RV_X insn SH_RS2C 3.
Definition RVC_RS2 (insn : Z) : Z := RV_X insn SH_RS2C 5.

Definition SHIFT_RIGHT (x y : Z) : Z := if y <? 0 then u64 (x .<< - y) else x .>> y.

(** The slot [GET_REG] addresses: a byte offset into the save area, in registers. *)
Definition GET_REG (insn pos : Z) : Z :=
  let mask := (1 .<< (5 + LOG_REGBYTES)) - (1 .<< LOG_REGBYTES) in
  (SHIFT_RIGHT insn (pos - LOG_REGBYTES) .& mask) / 2 ^ LOG_REGBYTES.

Definition IMM_I (insn : Z) : Z := i32 insn .>> 20.
Definition IMM_S (insn : Z) : Z :=
  ((i32 insn .>> 25) .<< 5) .| i32 ((insn .>> 7) .& 0x1f).

Definition GET_PRECISION (insn : Z) : Z := (insn .>> 25) .& 3.
Definition GET_RM (insn : Z) : Z := (insn .>> 12) .& 7.
Definition PRECISION_S : Z := 0.
Definition PRECISION_D : Z := 1.

Definition EXTRACT_FIELD (val which : Z) : Z :=
  (val .& which) / (which .& u64 (.~ (which - 1))).

(** [insn_len] of [pk/pk.h]: the length of the instruction, from its two low bits. *)
Definition insn_len (insn : Z) : Z := if insn .& 3 <? 3 then 2 else 4.

(** ** Instruction fields, as the ISA manual draws them *)

Definition field (insn lo n : Z) : Z := (insn / 2 ^ lo) mod 2 ^ n.
Definition opcode (insn : Z) : Z := field insn 0 7.
Definition rd (insn : Z) : Z := field insn 7 5.
Definition funct3 (insn : Z) : Z := field insn 12 3.
Definition rs1 (insn : Z) : Z := field insn 15 5.
Definition rs2 (insn : Z) : Z := field insn 20 5.
Definition funct7 (insn : Z) : Z := field insn 25 7.
Definition rs3 (insn : Z) : Z := field insn 27 5.

(** ** The macros compute the fields *)

Lemma field_range insn lo n : 0 <= n -> 0 <= field insn lo n < 2 ^ n.
Proof. intros; apply Z.mod_pos_bound, pow2_pos; lia. Qed.

(** A mask splits at any bit into an upper and a lower part. *)
Lemma land_split a m l n :
  0 <= n -> 0 <= l < 2 ^ n ->
  a .& (m * 2 ^ n + l) = ((a / 2 ^ n) .& m) * 2 ^ n + ((a mod 2 ^ n) .& l).
Proof.
  intros Hn Hl.
  assert (Hr : 0 <= (a mod 2 ^ n) .& l < 2 ^ n).
  { rewrite <- (Z.mod_small l (2 ^ n)), <- (Z.land_ones l), Z.land_assoc, Z.land_ones by lia.
    apply Z.mod_pos_bound, pow2_pos; lia. }
  rewrite <- !lor_add_disjoint by lia.
  apply Z.bits_inj'; intros i Hi.
  rewrite Z.land_spec, !Z.lor_spec, Z.land_spec, <- !shiftl_mul, !Z.shiftl_spec, Z.land_spec
    by lia.
  destruct (Z.ltb_spec i n).
  - rewrite !(Z.testbit_neg_r _ (i - n)) by lia.
    rewrite Z.mod_pow2_bits_low by lia; reflexivity.
  - rewrite Z.mod_pow2_bits_high, andb_false_l, orb_false_r by lia.
    rewrite <- shiftr_div, Z.shiftr_spec by lia.
    replace (i - n + n) with i by lia.
    rewrite <- (Z.mod_small l (2 ^ n)), Z.mod_pow2_bits_high, orb_false_r by lia.
    reflexivity.
Qed.

(** [(x >> lo) & (2^n - 1)] is a field. *)
Lemma shift_land_field x lo n : 0 <= lo -> 0 <= n -> (x .>> lo) .& (2 ^ n - 1) = field x lo n.
Proof. intros; unfold field; rewrite shiftr_div, land_ones_mod by lia; reflexivity. Qed.

Lemma GET_RM_field insn : GET_RM insn = funct3 insn.
Proof. apply (shift_land_field insn 12 3); lia. Qed.

Lemma GET_PRECISION_field insn : GET_PRECISION insn = field insn 25 2.
Proof. apply (shift_land_field insn 25 2); lia. Qed.

Lemma RV_X_field x s n : 0 <= s -> 0 <= n -> RV_X x s n = field x s n.
Proof. intros; unfold RV_X; rewrite shiftl_mul, Z.mul_1_l by lia; apply shift_land_field; lia. Qed.

Lemma land_f8_field x : (x .& 0xf8) / 8 = field x 3 5.
Proof.
  change 0xf8 with (31 * 2 ^ 3 + 0).
  rewrite land_split, Z.land_0_r, Z.add_0_r by lia.
  change 8 with (2 ^ 3); rewrite Z.div_mul by lia.
  apply (land_ones_mod (x / 2 ^ 3) 5); lia.
Qed.

Lemma field_shift x p lo n : 0 <= p -> 0 <= lo -> field (x .>> p) lo n = field x (p + lo) n.
Proof.
  intros; unfold field.
  rewrite shiftr_div, Z.div_div, <- Z.pow_add_r by auto with zarith pow2; reflexivity.
Qed.

(** [GET_REG] is the register number at its position, for the positions at or above bit 3
    the 32-bit formats use. *)
Lemma GET_REG_field insn pos : 3 <= pos -> GET_REG insn pos = field insn pos 5.
Proof.
  intros H; unfold GET_REG, SHIFT_RIGHT, LOG_REGBYTES.
  rewrite (proj2 (Z.ltb_ge _ _)) by lia.
  change ((1 .<< (5 + 3)) - (1 .<< 3)) with 0xf8; change (2 ^ 3) with 8.
  rewrite land_f8_field, field_shift by lia; f_equal; lia.
Qed.

(** For the positions below bit 3 [GET_REG] shifts to the left instead. *)
Lemma GET_REG_low insn pos :
  0 <= insn < 2 ^ 59 -> 0 <= pos < 3 -> GET_REG insn pos = field insn pos 5.
Proof.
  intros Hi H; unfold GET_REG, SHIFT_RIGHT, LOG_REGBYTES.
  rewrite (proj2 (Z.ltb_lt _ _)) by lia.
  change ((1 .<< (5 + 3)) - (1 .<< 3)) with 0xf8; change (2 ^ 3) with 8.
  rewrite land_f8_field, shiftl_mul by lia.
  assert (E : 2 ^ 3 = 2 ^ (- (pos - 3)) * 2 ^ pos).
  { rewrite <- Z.pow_add_r by lia; f_equal; lia. }
  pose proof (pow2_pos pos ltac:(lia)); pose proof (pow2_pos (- (pos - 3)) ltac:(lia)).
  rewrite u64_small.
  - unfold field; rewrite E, (Z.mul_comm insn), Z.div_mul_cancel_l by lia; reflexivity.
  - assert (2 ^ (- (pos - 3)) <= 2 ^ 3) by (apply pow2_le; lia); nia.
Qed.

(** ** Decoding by mask

    The two masks of the 32-bit formats select the major opcode, [funct3] and, for the
    register format, [funct7]. *)

Lemma land_707f insn : insn .& 0x707f = funct3 insn * 2 ^ 12 + opcode insn.
Proof.
  change 0x707f with (0x7 * 2 ^ 12 + 0x7f).
  rewrite land_split by lia; f_equal.
  - rewrite <- (Z.mul_1_r 0x7), (land_ones_mod _ 3); [reflexivity|lia].
  - rewrite (land_ones_mod _ 7) by lia; unfold opcode, field.
    rewrite Z.div_1_r; change (2 ^ 12) with (2 ^ 7 * 2 ^ 5).
    rewrite Z.rem_mul_r, Z.add_mod, Z.mul_comm, Z.mod_mul, Z.add_0_r, !Z.mod_mod by lia.
    reflexivity.
Qed.

Lemma field_mod x k lo n : 0 <= lo -> 0 <= n -> lo + n <= k -> field (x mod 2 ^ k) lo n = field x lo n.
Proof.
  intros; unfold field.
  rewrite <- !Z.land_ones, <- !shiftr_div by lia.
  apply Z.bits_inj'; intros i Hi.
  rewrite !Z.land_spec, !Z.shiftr_spec, Z.land_spec, !Z.testbit_ones_nonneg by lia.
  destruct (Z.ltb_spec i n); [|rewrite !andb_false_r; reflexivity].
  rewrite (proj2 (Z.ltb_lt (i + lo) k)), andb_true_r by lia; reflexivity.
Qed.

Lemma land_fe00707f insn :
  insn .& 0xfe00707f = funct7 insn * 2 ^ 25 + funct3 insn * 2 ^ 12 + opcode insn.
Proof.
  change 0xfe00707f with (0x7f * 2 ^ 25 + 0x707f).
  rewrite land_split, land_707f, (land_ones_mod _ 7) by lia.
  unfold funct3, opcode; rewrite !field_mod by lia.
  unfold funct7, field; lia.
Qed.

Lemma matches_707f insn f o :
  0 <= o < 2 ^ 7 ->
  matches insn 0x707f (f * 2 ^ 12 + o) = (opcode insn =? o) && (funct3 insn =? f).
Proof.
  intros Ho; unfold matches; rewrite land_707f.
  pose proof (field_range insn 0 7 ltac:(lia)) as R; fold (opcode insn) in R.
  apply eq_true_iff_eq; rewrite andb_true_iff, !Z.eqb_eq; lia.
Qed.

Lemma land_3_mod x : x .& 3 = x mod 4.
Proof. apply (land_ones_mod x 2); lia. Qed.

Lemma land_e003 insn : insn .& 0xe003 = field insn 13 3 * 2 ^ 13 + insn mod 4.
Proof.
  change 0xe003 with (7 * 2 ^ 13 + 3); rewrite land_split by lia; f_equal.
  - rewrite (land_ones_mod _ 3) by lia; reflexivity.
  - rewrite land_3_mod; change (2 ^ 13) with (4 * 2 ^ 11).
    rewrite Z.rem_mul_r, Z.add_mod, Z.mul_comm, Z.mod_mul, Z.add_0_r, !Z.mod_mod by lia; reflexivity.
Qed.

Lemma matches_e003 insn f q :
  0 <= q < 4 ->
  matches insn 0xe003 (f * 2 ^ 13 + q) = (insn mod 4 =? q) && (field insn 13 3 =? f).
Proof.
  intros Hq; unfold matches; rewrite land_e003.
  pose proof (Z.mod_pos_bound insn 4 ltac:(lia)).
  apply eq_true_iff_eq; rewrite andb_true_iff, !Z.eqb_eq; lia.
Qed.

(** [mask_fields insn] turns the tests of these two masks into tests of fields. *)
Ltac mask_fields insn :=
  repeat match goal with
         | |- context [matches insn ?k ?c] =>
             let k' := eval vm_compute in k in
             lazymatch k' with
             | 0x707f =>
                 let o := eval vm_compute in (c mod 2 ^ 7) in
                 let f := eval vm_compute in (c / 2 ^ 12) in
                 replace (matches insn k c) with ((opcode insn =? o) && (funct3 insn =? f))
                   by (symmetry; apply (matches_707f insn f o); lia)
             | 0xe003 =>
                 let q := eval vm_compute in (c mod 4) in
                 let f := eval vm_compute in (c / 2 ^ 13) in
                 replace (matches insn k c) with ((insn mod 4 =? q) && (field insn 13 3 =? f))
                   by (symmetry; apply (matches_e003 insn f q); lia)
             end
         end.

Lemma opcode_quadrant insn : opcode insn mod 4 = insn mod 4.
Proof.
  unfold opcode, field; rewrite Z.div_1_r; change (2 ^ 7) with (4 * 32).
  rewrite Z.rem_mul_r, Z.add_mod, Z.mul_comm, Z.mod_mul, Z.add_0_r, !Z.mod_mod by lia.
  reflexivity.
Qed.

Lemma field3_cases insn lo :
  field insn lo 3 = 0 \/ field insn lo 3 = 1 \/ field insn lo 3 = 2 \/ field insn lo 3 = 3 \/
  field insn lo 3 = 4 \/ field insn lo 3 = 5 \/ field insn lo 3 = 6 \/ field insn lo 3 = 7.
Proof. pose proof (field_range insn lo 3 ltac:(lia)); lia. Qed.

Lemma funct3_cases insn :
  funct3 insn = 0 \/ funct3 insn = 1 \/ funct3 insn = 2 \/ funct3 insn = 3 \/
  funct3 insn = 4 \/ funct3 insn = 5 \/ funct3 insn = 6 \/ funct3 insn = 7.
Proof. apply field3_cases. Qed.

Lemma quadrant_cases insn : insn mod 4 = 0 \/ insn mod 4 = 1 \/ insn mod 4 = 2 \/ insn mod 4 = 3.
Proof. pose proof (Z.mod_pos_bound insn 4 ltac:(lia)); lia. Qed.

(** The register number of a compressed format, moved to the position of [rd]. *)
Lemma moved_rd insn : GET_REG (u64 (RVC_RS2S insn .<< SH_RD)) SH_RD = 8 + field insn 2 3.
Proof.
  unfold RVC_RS2S, SH_RD, SH_RS2C; rewrite RV_X_field, GET_REG_field, shiftl_mul by lia.
  pose proof (field_range insn 2 3 ltac:(lia)).
  rewrite u64_small by lia; unfold field at 1.
  rewrite Z.div_mul, Z.mod_small by lia; reflexivity.
Qed.
