(* ===== verification/Machine.v ===== *)
(** * The monitor's machine: state, effects and traps

    What the machine-mode trap handlers of [machine/] read and write: the saved integer
    and floating-point registers of the interrupted context, the [tp] register that holds
    the emulated FCSR while a handler runs, the control and status registers, and the
    memory of the interrupted context as [mstatus.MPRV] loads and stores see it.  The
    accessor macros of [emulation.h] and [fp_emulation.h], the unprivileged accesses of
    [unprivileged_memory.h], and the delegation of a trap to supervisor mode of
    [mtrap.c]. *)

From S2P Require Import Prelude SfEnv Encoding.
From Stdlib Require Import ZArith Lia Bool List.
Import ListNotations.

(** ** State *)

Inductive csr :=
| Mstatus | Mepc | Mcause | Mbadaddr | Stvec | Sepc | Scause | Sbadaddr
| Scounteren | Mcycle | Minstret | Mhpmcounter3 | Mhpmcounter4 | Mhpmevent3 | Mhpmevent4.

Definition csr_eq_dec (a b : csr) : {a = b} + {a <> b}.
Proof. decide equality. Defined.

(** [xregs 0] is the save slot of [x0], which the trap entry uses for the emulated FCSR
    and clears before it calls a handler.  [mem a] is the byte at [a] as the interrupted
    context reads it, [None] where its translation faults; [writable a] says whether it may
    store there. *)
Record machine := Machine {
  xregs : Z -> Z;
  fregs : Z -> Z;
  tp : Z;
  csrs : csr -> Z;
  mtime : Z;
  mem : Z -> option Z;
  writable : Z -> bool
}.

Definition upd (f : Z -> Z) (i v : Z) : Z -> Z := fun j => if j =? i then v else f j.

Definition set_xreg (i v : Z) (m : machine) : machine :=
  Machine (upd (xregs m) i v) (fregs m) (tp m) (csrs m) (mtime m) (mem m) (writable m).
Definition set_freg (i v : Z) (m : machine) : machine :=
  Machine (xregs m) (upd (fregs m) i v) (tp m) (csrs m) (mtime m) (mem m) (writable m).
Definition set_tp (v : Z) (m : machine) : machine :=
  Machine (xregs m) (fregs m) v (csrs m) (mtime m) (mem m) (writable m).
Definition set_csrs (f : csr -> Z) (m : machine) : machine :=
  Machine (xregs m) (fregs m) (tp m) f (mtime m) (mem m) (writable m).
Definition set_mem (f : Z -> option Z) (m : machine) : machine :=
  Machine (xregs m) (fregs m) (tp m) (csrs m) (mtime m) f (writable m).
Definition put_csr (c : csr) (v : Z) (m : machine) : machine :=
  set_csrs (fun d => if csr_eq_dec d c then v else csrs m d) m.

(** ** Effects

    A handler returns, or leaves through [redirect_trap] (which never returns to its
    caller), or dies ([bad_trap]), or runs a C operation without a defined result. *)
Inductive outcome (A : Type) :=
| Done (a : A) (m : machine)
| Redirected (m : machine)
| Dead
| Undefined.
Arguments Done {A} a m.
Arguments Redirected {A} m.
Arguments Dead {A}.
Arguments Undefined {A}.

Definition M (A : Type) : Type := machine -> outcome A.

Definition done {A : Type} (a : A) : M A := fun m => Done a m.

Definition mbind {A B : Type} (c : M A) (k : A -> M B) : M B :=
  fun m => match c m with
           | Done a m' => k a m'
           | Redirected m' => Redirected m'
           | Dead => Dead
           | Undefined => Undefined
           end.

Declare Scope mach_scope.
Delimit Scope mach_scope with mach.
Notation "'let!' x ':=' c 'in' k" := (mbind c (fun x => k))
  (at level 10, x name, c at level 100, k at level 200) : mach_scope.
Notation "'do!' c 'in' k" := (mbind c (fun _ : unit => k))
  (at level 10, c at level 100, k at level 200) : mach_scope.
#[global] Open Scope mach_scope.

Definition read_csr (c : csr) : M Z := fun m => Done (csrs m c) m.
Definition write_csr (c : csr) (v : Z) : M unit := fun m => Done tt (put_csr c (u64 v) m).
Definition set_csr_bits (c : csr) (bits : Z) : M unit :=
  fun m => Done tt (put_csr c (csrs m c .| bits) m).
Definition undefined {A : Type} : M A := fun _ => Undefined.

(** ** Registers *)

Definition reg (i : Z) : M Z := fun m => Done (xregs m i) m.
Definition set_reg (i v : Z) : M unit := fun m => Done tt (set_xreg i (u64 v) m).

Definition GET_RS1 (insn : Z) : M Z := reg (GET_REG insn SH_RS1).
Definition GET_RS2 (insn : Z) : M Z := reg (GET_REG insn SH_RS2).
Definition GET_RS1S (insn : Z) : M Z := reg (GET_REG (RVC_RS1S insn) 0).
Definition GET_RS2S (insn : Z) : M Z := reg (GET_REG (RVC_RS2S insn) 0).
Definition GET_RS2C (insn : Z) : M Z := reg (GET_REG insn SH_RS2C).
Definition GET_SP : M Z := reg (GET_REG 2 0).
Definition SET_RD (insn val : Z) : M unit := set_reg (GET_REG insn SH_RD) val.

(** The floating-point save area; a single-precision value is the signed low half. *)
Definition freg_index (insn pos : Z) : Z := (SHIFT_RIGHT insn (pos - 3) .& 0xf8) / 8.
Definition GET_F64_REG (insn pos : Z) : M Z :=
  fun m => Done (i64 (fregs m (freg_index insn pos))) m.
Definition SET_F64_REG (insn pos val : Z) : M unit :=
  fun m => Done tt (set_freg (freg_index insn pos) (u64 val) m).
Definition GET_F32_REG (insn pos : Z) : M Z :=
  fun m => Done (i32 (fregs m (freg_index insn pos))) m.
Definition SET_F32_REG (insn pos val : Z) : M unit :=
  fun m => let i := freg_index insn pos in
           Done tt (set_freg i ((fregs m i / 2 ^ 32) * 2 ^ 32 + u32 val) m).

Definition SET_FS_DIRTY : M unit := set_csr_bits Mstatus MSTATUS_FS.

Definition GET_F32_RS1 (insn : Z) : M Z := GET_F32_REG insn 15.
Definition GET_F32_RS2 (insn : Z) : M Z := GET_F32_REG insn 20.
Definition GET_F64_RS1 (insn : Z) : M Z := GET_F64_REG insn 15.
Definition GET_F64_RS2 (insn : Z) : M Z := GET_F64_REG insn 20.
Definition GET_F64_RS2C (insn : Z) : M Z := GET_F64_REG insn 2.
Definition GET_F64_RS2S (insn : Z) : M Z := GET_F64_REG (RVC_RS2S insn) 0.
Definition SET_F32_RD (insn val : Z) : M unit :=
  do! SET_F32_REG insn 7 val in SET_FS_DIRTY.
Definition SET_F64_RD (insn val : Z) : M unit :=
  do! SET_F64_REG insn 7 val in SET_FS_DIRTY.

(** ** The emulated FCSR, in [tp] *)

Definition GET_FCSR : M Z := fun m => Done (tp m .& 0xFF) m.
Definition SET_FCSR (value : Z) : M unit :=
  do! (fun m => Done tt (set_tp (value .& 0xFF) m)) in SET_FS_DIRTY.
Definition GET_FRM : M Z := let! fcsr := GET_FCSR in done (fcsr .>> 5).
Definition GET_FFLAGS : M Z := let! fcsr := GET_FCSR in done (fcsr .& 0x1F).
Definition SET_FRM (value : Z) : M unit :=
  let! fflags := GET_FFLAGS in SET_FCSR (fflags .| u64 (value .<< 5)).
Definition SET_FFLAGS (value : Z) : M unit :=
  let! frm := GET_FRM in SET_FCSR ((frm .<< 5) .| (value .& 0x1F)).

(** [softfloat_roundingMode] is [tp >> 13]; [softfloat_raiseFlags] ors into [tp].  A
    SoftFloat routine runs on them. *)
Definition rounding_mode (m : machine) : Z := tp m .>> 13.

Definition softfloat {A : Type} (c : fp A) : M A :=
  fun m => let (a, fl) := c (rounding_mode m) (tp m) in Done a (set_tp fl m).

(** [true]: the rounding mode is set up; [false]: the macro returns through
    [truly_illegal_insn]. *)
Definition SETUP_STATIC_ROUNDING (insn : Z) : M bool :=
  fun m =>
    let tp1 := tp m .& 0xFF in
    if insn .& MASK_FUNCT3 =? MASK_FUNCT3 then
      Done true (set_tp (tp1 .| (tp1 .<< 8)) m)
    else if 4 <? GET_RM insn then Done false (set_tp tp1 m)
    else Done true (set_tp (tp1 .| (GET_RM insn .<< 13)) m).

(** ** Delegation to supervisor mode ([mtrap.c]) *)

(** The new [mstatus]: the supervisor's trap stack is pushed and the return goes to
    supervisor mode. *)
Definition redirected_mstatus (mstatus : Z) : Z :=
  let new_mstatus := mstatus .& u64 (.~ (MSTATUS_SPP .| MSTATUS_SPIE .| MSTATUS_SIE)) in
  let mpp_s := MSTATUS_MPP .& (MSTATUS_MPP .>> 1) in
  let new_mstatus :=
    new_mstatus .| (u64 (mstatus * (MSTATUS_SPIE / MSTATUS_SIE)) .& MSTATUS_SPIE) in
  let new_mstatus := new_mstatus .| ((mstatus / (mpp_s / MSTATUS_SPP)) .& MSTATUS_SPP) in
  new_mstatus .| mpp_s.

Definition redirect_trap {A : Type} (epc mstatus badaddr : Z) : M A :=
  do! write_csr Sbadaddr badaddr in
  do! write_csr Sepc epc in
  let! cause := read_csr Mcause in
  do! write_csr Scause cause in
  let! vec := read_csr Stvec in
  do! write_csr Mepc vec in
  do! write_csr Mstatus (redirected_mstatus mstatus) in
  fun m => Redirected m.

Definition truly_illegal_insn {A : Type} (mcause mepc mstatus insn : Z) : M A :=
  redirect_trap mepc mstatus insn.

Definition bad_trap {A : Type} : M A := fun _ => Dead.

Definition pmp_trap (mcause mepc : Z) : M unit :=
  let! mstatus := read_csr Mstatus in
  let! badaddr := read_csr Mbadaddr in
  redirect_trap mepc mstatus badaddr.

(** A fault taken in machine mode, with the saved [a2] and [a3] of the faulting access. *)
Definition machine_page_fault {A : Type} (a2 a3 : Z) : M A :=
  let! mstatus := read_csr Mstatus in
  if nz (mstatus .& MSTATUS_MPRV) then
    let! badaddr := read_csr Mbadaddr in
    redirect_trap a2 a3 badaddr
  else bad_trap.

Definition trap_from_machine_mode {A : Type} (a2 a3 : Z) : M A :=
  let! mcause := read_csr Mcause in
  if (mcause =? CAUSE_LOAD_PAGE_FAULT) || (mcause =? CAUSE_STORE_PAGE_FAULT)
     || (mcause =? CAUSE_FETCH_ACCESS) || (mcause =? CAUSE_LOAD_ACCESS)
     || (mcause =? CAUSE_STORE_ACCESS)
  then machine_page_fault a2 a3
  else bad_trap.

(** ** Unprivileged memory accesses ([unprivileged_memory.h])

    [csrrs mstatus, MPRV] (and [MXR] for a fetch), the access, [csrw mstatus]. *)

Definition access_fault {A : Type} (cause addr mepc mprv : Z) : M A :=
  let! mstatus := read_csr Mstatus in
  do! set_csr_bits Mstatus mprv in
  do! write_csr Mcause cause in
  do! write_csr Mbadaddr addr in
  trap_from_machine_mode mepc mstatus.

(** The little-endian value of the [n] bytes from [addr]; [None] if one of them faults. *)
Fixpoint peek (m : Z -> option Z) (n : nat) (addr : Z) : option Z :=
  match n with
  | O => Some 0
  | S n' => match m (u64 addr), peek m n' (addr + 1) with
            | Some b, Some v => Some (b + 256 * v)
            | _, _ => None
            end
  end.

(** Storing the [n] low bytes of [val] from [addr]. *)
Fixpoint poke (m : Z -> option Z) (n : nat) (addr val : Z) : Z -> option Z :=
  match n with
  | O => m
  | S n' => poke (fun a => if a =? u64 addr then Some (val mod 256) else m a)
              n' (addr + 1) (val / 256)
  end.

Fixpoint can_write (m : machine) (n : nat) (addr : Z) : bool :=
  match n with
  | O => true
  | S n' => writable m (u64 addr) && can_write m n' (addr + 1)
  end.

Definition unprivileged_load (n : nat) (addr mepc : Z) (mprv : Z) : M Z :=
  fun m => match peek (mem m) n addr with
           | Some v => Done v m
           | None => access_fault CAUSE_LOAD_PAGE_FAULT addr mepc mprv m
           end.

Definition unprivileged_store (n : nat) (addr val mepc : Z) : M unit :=
  fun m => if can_write m n addr then Done tt (set_mem (poke (mem m) n addr val) m)
           else access_fault CAUSE_STORE_PAGE_FAULT addr mepc MSTATUS_MPRV m.

Definition load_uint8_t (addr mepc : Z) : M Z := unprivileged_load 1 addr mepc MSTATUS_MPRV.
Definition load_uint64_t (addr mepc : Z) : M Z := unprivileged_load 8 addr mepc MSTATUS_MPRV.
Definition load_int32_t (addr mepc : Z) : M Z :=
  let! v := unprivileged_load 4 addr mepc MSTATUS_MPRV in done (i32 v).
Definition store_uint8_t (addr val mepc : Z) : M unit := unprivileged_store 1 addr val mepc.
Definition store_uint32_t (addr val mepc : Z) : M unit := unprivileged_store 4 addr val mepc.
Definition store_uint64_t (addr val mepc : Z) : M unit := unprivileged_store 8 addr val mepc.

(** The instruction at [mepc] and the [mstatus] of the interrupted context. *)
Definition get_insn (mepc : Z) : M (Z * Z) :=
  let! mstatus := read_csr Mstatus in
  let mprv := MSTATUS_MPRV .| MSTATUS_MXR in
  let rvc_mask := 3 in
  let! val :=
    if nz (mepc .& 2) then
      let! insn := unprivileged_load 2 mepc mepc mprv in
      if negb (insn .& rvc_mask =? rvc_mask) then done insn
      else
        let! tmp := unprivileged_load 2 (mepc + 2) mepc mprv in
        done (u64 (insn + u64 (tmp .<< 16)))
    else
      let! insn := unprivileged_load 4 mepc mepc mprv in
      if insn .& rvc_mask =? rvc_mask then done insn
      else done (u64 (insn .<< 48) .>> 48)
  in
  done (val, mstatus).

(** ** Emulation functions

    [DECLARE_EMULATION_FUNC]: the cause, the address and the status of the trap, and the
    instruction. *)
Definition emulation_func : Type := Z -> Z -> Z -> Z -> M unit.

(** ** Well-formed states: registers hold 64-bit values *)

Record wf (m : machine) : Prop := {
  wf_xregs : forall i, 0 <= xregs m i < 2 ^ 64;
  wf_fregs : forall i, 0 <= fregs m i < 2 ^ 64;
  wf_csrs : forall c, 0 <= csrs m c < 2 ^ 64;
  wf_mtime : 0 <= mtime m < 2 ^ 64;
  wf_mem : forall a b, mem m a = Some b -> 0 <= b < 256
}.

(** ** Running the accessors *)

Lemma run_GET_RS1 insn m : GET_RS1 insn m = Done (xregs m (rs1 insn)) m.
Proof. unfold GET_RS1, reg; rewrite GET_REG_field by (vm_compute; discriminate); reflexivity. Qed.

Lemma run_GET_RS2 insn m : GET_RS2 insn m = Done (xregs m (rs2 insn)) m.
Proof. unfold GET_RS2, reg; rewrite GET_REG_field by (vm_compute; discriminate); reflexivity. Qed.

Lemma run_SET_RD insn v m : SET_RD insn v m = Done tt (set_xreg (rd insn) (u64 v) m).
Proof. unfold SET_RD, set_reg; rewrite GET_REG_field by (vm_compute; discriminate); reflexivity. Qed.

Lemma run_bind {A B} (c : M A) (k : A -> M B) a m m' :
  c m = Done a m' -> mbind c k m = k a m'.
Proof. intros E; unfold mbind; rewrite E; reflexivity. Qed.

(** The state a delegated trap leaves. *)
Definition delegated (epc mstatus badaddr : Z) (m : machine) : machine :=
  put_csr Mstatus (u64 (redirected_mstatus mstatus))
    (put_csr Mepc (u64 (csrs m Stvec))
       (put_csr Scause (u64 (csrs m Mcause))
          (put_csr Sepc (u64 epc) (put_csr Sbadaddr (u64 badaddr) m)))).

Lemma run_redirect_trap {A} epc mstatus badaddr m :
  redirect_trap (A := A) epc mstatus badaddr m = Redirected (delegated epc mstatus badaddr m).
Proof. reflexivity. Qed.

Lemma run_truly_illegal {A} mcause mepc mstatus insn m :
  truly_illegal_insn (A := A) mcause mepc mstatus insn m
  = Redirected (delegated mepc mstatus insn m).
Proof. reflexivity. Qed.

#[global] Opaque redirect_trap truly_illegal_insn.

Create Rewrite HintDb mach.
#[export] Hint Rewrite run_GET_RS1 run_GET_RS2 run_SET_RD @run_redirect_trap @run_truly_illegal
  : mach.

(** [mrun] runs the accessors at the head of the goal. *)
Ltac mrun :=
  unfold mbind, done, undefined, read_csr, write_csr, set_csr_bits in *;
  repeat (autorewrite with mach; cbv beta iota).

(** ** Delegation *)

Lemma testbit_land_pow2 a n i : 0 <= n -> Z.testbit (a .& 2 ^ n) i = Z.testbit a n && (i =? n).
Proof.
  intros; rewrite Z.land_spec, Z.pow2_bits_eqb, (Z.eqb_sym n) by lia.
  destruct (Z.eqb_spec i n); subst; rewrite ?andb_false_r; reflexivity.
Qed.

Lemma redirected_mstatus_bits ms i :
  0 <= ms < 2 ^ 64 -> 0 <= i ->
  Z.testbit (redirected_mstatus ms) i =
    if i =? 1 then false
    else if i =? 5 then Z.testbit ms 1
    else if i =? 8 then Z.testbit ms 11
    else if i =? 11 then true
    else Z.testbit ms i.
Proof.
  intros Hm Hi; unfold redirected_mstatus.
  change (MSTATUS_SPP .| MSTATUS_SPIE .| MSTATUS_SIE) with (2 ^ 8 .| 2 ^ 5 .| 2 ^ 1).
  change (MSTATUS_MPP .& (MSTATUS_MPP .>> 1)) with (2 ^ 11).
  change (MSTATUS_SPIE / MSTATUS_SIE) with (2 ^ 4); change MSTATUS_SPIE with (2 ^ 5).
  change (2 ^ 11 / MSTATUS_SPP) with (2 ^ 3); change MSTATUS_SPP with (2 ^ 8).
  cbv zeta; unfold u64, wrap.
  rewrite !Z.lor_spec, !testbit_land_pow2, Z.land_spec, Z.pow2_bits_eqb by lia.
  rewrite (Z.mod_pow2_bits_low (ms * _)), Z.mul_pow2_bits, <- (shiftr_div ms), Z.shiftr_spec
    by lia.
  assert (E : Z.testbit ms i && Z.testbit ((.~ (2 ^ 8 .| 2 ^ 5 .| 2 ^ 1)) mod 2 ^ 64) i
              = Z.testbit ms i && negb ((i =? 8) || (i =? 5) || (i =? 1))).
  { destruct (Z.ltb_spec i 64).
    - rewrite Z.mod_pow2_bits_low, Z.lnot_spec, !Z.lor_spec, !Z.pow2_bits_eqb by lia.
      rewrite !(Z.eqb_sym i); reflexivity.
    - rewrite <- (Z.mod_small ms (2 ^ 64)), Z.mod_pow2_bits_high by lia; reflexivity. }
  rewrite E, (Z.eqb_sym 11).
  destruct (Z.eqb_spec i 1), (Z.eqb_spec i 5), (Z.eqb_spec i 8), (Z.eqb_spec i 11); subst;
    try lia; cbn; rewrite ?andb_true_r, ?andb_false_r, ?orb_true_r, ?orb_false_r; reflexivity.
Qed.

(** What the supervisor finds after a delegation. *)
Definition sees_trap (epc cause badaddr : Z) (m m' : machine) : Prop :=
  csrs m' Sepc = epc /\ csrs m' Scause = cause /\ csrs m' Sbadaddr = badaddr /\
  csrs m' Mepc = csrs m Stvec.

(** The context a handler must hand back unchanged when it delegates. *)
Definition same_context (m m' : machine) : Prop :=
  xregs m' = xregs m /\ fregs m' = fregs m /\ tp m' = tp m /\ mem m' = mem m.

Lemma delegated_sees epc mstatus badaddr m :
  wf m -> 0 <= epc < 2 ^ 64 -> 0 <= badaddr < 2 ^ 64 ->
  sees_trap epc (csrs m Mcause) badaddr m (delegated epc mstatus badaddr m).
Proof.
  intros W He Hb; unfold sees_trap, delegated; cbn -[u64].
  rewrite !u64_small; auto; try lia; apply (wf_csrs m W).
Qed.

Lemma delegated_context epc mstatus badaddr m :
  same_context m (delegated epc mstatus badaddr m).
Proof. repeat split. Qed.

Lemma redirected_mstatus_range ms :
  0 <= ms < 2 ^ 64 -> 0 <= redirected_mstatus ms < 2 ^ 64.
Proof.
  intros H.
  assert (E : redirected_mstatus ms mod 2 ^ 64 = redirected_mstatus ms).
  { apply Z.bits_inj'; intros i Hi.
    destruct (Z.ltb_spec i 64); [apply Z.mod_pow2_bits_low; lia|].
    rewrite Z.mod_pow2_bits_high, redirected_mstatus_bits by lia.
    rewrite (proj2 (Z.eqb_neq i 1)), (proj2 (Z.eqb_neq i 5)), (proj2 (Z.eqb_neq i 8)),
      (proj2 (Z.eqb_neq i 11)) by lia.
    rewrite <- (Z.mod_small ms (2 ^ 64)), Z.mod_pow2_bits_high by lia; reflexivity. }
  rewrite <- E; apply Z.mod_pos_bound; lia.
Qed.

(** The state after a faulting access on behalf of the interrupted context. *)
Definition faulted (cause addr mprv : Z) (m : machine) : machine :=
  put_csr Mbadaddr (u64 addr)
    (put_csr Mcause (u64 cause) (put_csr Mstatus (csrs m Mstatus .| mprv) m)).

(** A page fault of an unprivileged access ends as a delegated trap of the instruction
    that is being emulated. *)
Lemma run_access_fault {A} cause addr mepc mprv m :
  cause = CAUSE_LOAD_PAGE_FAULT \/ cause = CAUSE_STORE_PAGE_FAULT ->
  Z.testbit mprv 17 = true ->
  access_fault (A := A) cause addr mepc mprv m =
    Redirected (delegated mepc (csrs m Mstatus) (u64 addr) (faulted cause addr mprv m)).
Proof.
  intros Hc Hp; unfold access_fault, trap_from_machine_mode, machine_page_fault; mrun.
  assert (E : csrs (faulted cause addr mprv m) Mcause = cause)
    by (destruct Hc as [-> | ->]; reflexivity).
  assert (P : nz (csrs (faulted cause addr mprv m) Mstatus .& MSTATUS_MPRV) = true).
  { unfold nz; apply negb_true_iff, Z.eqb_neq; intros Z.
    assert (T : Z.testbit (csrs (faulted cause addr mprv m) Mstatus .& MSTATUS_MPRV) 17 = true)
      by (cbn -[Z.testbit]; rewrite Z.land_spec, Z.lor_spec, Hp, orb_true_r; reflexivity).
    rewrite Z in T; discriminate T. }
  fold (faulted cause addr mprv m); cbv beta iota.
  rewrite E; replace (_ || _) with true by (destruct Hc as [-> | ->]; reflexivity).
  cbv beta iota; rewrite P; mrun; reflexivity.
Qed.

(** A delegated fault of an access made for the interrupted context. *)
Lemma faulted_sees cause addr mprv mepc m :
  wf m -> 0 <= mepc < 2 ^ 64 -> 0 <= cause < 16 ->
  let m' := delegated mepc (csrs m Mstatus) (u64 addr) (faulted cause addr mprv m) in
  sees_trap mepc cause (u64 addr) m m' /\ same_context m m'.
Proof.
  intros W He Hc m'; split; [|repeat split].
  unfold m', sees_trap, delegated, faulted; cbn -[u64].
  rewrite !u64_idem, (u64_small mepc), (u64_small cause), (u64_small (csrs m Stvec)); auto;
    try lia; apply (wf_csrs m W).
Qed.

(** ** Well-formedness *)

Lemma wf_put_csr c v m : wf m -> 0 <= v < 2 ^ 64 -> wf (put_csr c v m).
Proof.
  intros W Hv; split; cbn; try apply W; intros d.
  destruct (csr_eq_dec d c); [lia|apply W].
Qed.

Lemma wf_set_xreg i v m : wf m -> 0 <= v < 2 ^ 64 -> wf (set_xreg i v m).
Proof.
  intros W Hv; split; cbn; try apply W; intros d; unfold upd.
  destruct (d =? i); [lia|apply W].
Qed.

Lemma wf_set_freg i v m : wf m -> 0 <= v < 2 ^ 64 -> wf (set_freg i v m).
Proof.
  intros W Hv; split; cbn; try apply W; intros d; unfold upd.
  destruct (d =? i); [lia|apply W].
Qed.

Lemma wf_set_tp v m : wf m -> wf (set_tp v m).
Proof. intros W; split; cbn; apply W. Qed.

Create HintDb wf.
#[export] Hint Resolve wf_put_csr wf_set_xreg wf_set_freg wf_set_tp u64_range wf_xregs wf_fregs
  wf_csrs redirected_mstatus_range : wf.

Lemma wf_delegated epc mstatus badaddr m : wf m -> wf (delegated epc mstatus badaddr m).
Proof. intros W; unfold delegated; auto 10 with wf. Qed.
#[export] Hint Resolve wf_delegated : wf.

(** A machine with every register clear and nothing mapped. *)
Definition blank : machine :=
  Machine (fun _ => 0) (fun _ => 0) 0 (fun _ => 0) 0 (fun _ => None) (fun _ => false).

Lemma wf_blank : wf blank.
Proof. split; intros; cbn in *; try lia; discriminate. Qed.
#[export] Hint Resolve wf_blank : wf.

(** A state whose memory holds the given bytes from the given address. *)
Definition with_bytes (addr : Z) (bytes : list Z) (m : machine) : machine :=
  let inside a := (addr <=? a) && (a <? addr + Z.of_nat (length bytes)) in
  Machine (xregs m) (fregs m) (tp m) (csrs m) (mtime m)
    (fun a => if inside a then nth_error bytes (Z.to_nat (a - addr)) else mem m a)
    (fun a => inside a || writable m a).

Lemma wf_with_bytes addr bytes m :
  wf m -> forallb (fun b => (0 <=? b) && (b <? 256)) bytes = true -> wf (with_bytes addr bytes m).
Proof.
  intros W B; split; cbn -[nth_error]; try apply W; intros a b.
  destruct (_ && _); [|apply W]; intros H%nth_error_In.
  rewrite forallb_forall in B; specialize (B b H); lia.
Qed.
#[export] Hint Resolve wf_with_bytes : wf.


