(* ===== verification/MulDiv.v ===== *)
(** * Emulation of the M extension ([machine/muldiv_emulation.c])

    Multiplication and division for harts without them.  The handlers rely on the C
    operators; a division the C standard leaves undefined is [Undefined]. *)

From S2P Require Import Prelude Encoding Machine.
From Stdlib Require Import ZArith Lia Bool.

(** ** Definitions *)

(** C's signed [/] and [%] at width [w]; no result for a zero divisor and for the
    quotient that overflows. *)
Definition sdiv_defined (w a b : Z) : bool := nz b && negb ((a =? - 2 ^ (w - 1)) && (b =? -1)).
Definition c_sdiv (w a b : Z) : M Z :=
  if sdiv_defined w a b then done (Z.quot a b) else undefined.
Definition c_srem (w a b : Z) : M Z :=
  if sdiv_defined w a b then done (Z.rem a b) else undefined.
Definition c_udiv (a b : Z) : M Z := if nz b then done (a / b) else undefined.
Definition c_urem (a b : Z) : M Z := if nz b then done (a mod b) else undefined.

(** [double_int] is [__int128]; the product of two unsigned words wraps in it. *)
Definition double_mul_hi (a b : Z) : Z := swrap 128 (a * b) .>> 64.

Definition emulate_mul_div : emulation_func := fun mcause mepc mstatus insn =>
  let! rs1 := GET_RS1 insn in
  let! rs2 := GET_RS2 insn in
  let! val :=
    if matches insn MASK_MUL MATCH_MUL then done (u64 (rs1 * rs2))
    else if matches insn MASK_DIV MATCH_DIV then c_sdiv 64 (i64 rs1) (i64 rs2)
    else if matches insn MASK_DIVU MATCH_DIVU then c_udiv rs1 rs2
    else if matches insn MASK_REM MATCH_REM then c_srem 64 (i64 rs1) (i64 rs2)
    else if matches insn MASK_REMU MATCH_REMU then c_urem rs1 rs2
    else if matches insn MASK_MULH MATCH_MULH then done (double_mul_hi (i64 rs1) (i64 rs2))
    else if matches insn MASK_MULHU MATCH_MULHU then done (double_mul_hi rs1 rs2)
    else if matches insn MASK_MULHSU MATCH_MULHSU then done (double_mul_hi (i64 rs1) rs2)
    else truly_illegal_insn mcause mepc mstatus insn in
  SET_RD insn (u64 val).

Definition emulate_mul_div32 : emulation_func := fun mcause mepc mstatus insn =>
  let! rs1 := GET_RS1 insn in
  let! rs2 := GET_RS2 insn in
  let rs1 := u32 rs1 in
  let rs2 := u32 rs2 in
  let! val :=
    if matches insn MASK_MULW MATCH_MULW then done (u32 (rs1 * rs2))
    else if matches insn MASK_DIVW MATCH_DIVW then c_sdiv 32 (i32 rs1) (i32 rs2)
    else if matches insn MASK_DIVUW MATCH_DIVUW then c_udiv rs1 rs2
    else if matches insn MASK_REMW MATCH_REMW then c_srem 32 (i32 rs1) (i32 rs2)
    else if matches insn MASK_REMUW MATCH_REMUW then c_urem rs1 rs2
    else truly_illegal_insn mcause mepc mstatus insn in
  SET_RD insn (i32 val).

(** ** The M extension, as the ISA manual defines it

    [a] and [b] are register values; every division has a result. *)
Definition isa_muldiv (f3 a b : Z) : Z :=
  let sa := i64 a in
  let sb := i64 b in
  if f3 =? 0 then (a * b) mod 2 ^ 64
  else if f3 =? 1 then (sa * sb / 2 ^ 64) mod 2 ^ 64
  else if f3 =? 2 then (sa * b / 2 ^ 64) mod 2 ^ 64
  else if f3 =? 3 then (a * b / 2 ^ 64) mod 2 ^ 64
  else if f3 =? 4 then (if b =? 0 then -1 else Z.quot sa sb) mod 2 ^ 64
  else if f3 =? 5 then (if b =? 0 then -1 else a / b) mod 2 ^ 64
  else if f3 =? 6 then (if b =? 0 then a else Z.rem sa sb) mod 2 ^ 64
  else (if b =? 0 then a else a mod b) mod 2 ^ 64.

(** The 32-bit forms work on the low halves and sign-extend. *)
Definition isa_muldivw (f3 a b : Z) : Z :=
  let sa := i32 a in
  let sb := i32 b in
  let ua := u32 a in
  let ub := u32 b in
  u64 (i32
    (if f3 =? 0 then ua * ub
     else if f3 =? 4 then (if ub =? 0 then -1 else Z.quot sa sb)
     else if f3 =? 5 then (if ub =? 0 then -1 else ua / ub)
     else if f3 =? 6 then (if ub =? 0 then ua else Z.rem sa sb)
     else (if ub =? 0 then ua else ua mod ub))).

(** The operands on which the C expression of a [funct3] has a result. *)
Definition muldiv_defined (f3 a b : Z) : bool :=
  (f3 <? 4) || (if Z.odd f3 then nz b else sdiv_defined 64 (i64 a) (i64 b)).
Definition muldivw_defined (f3 a b : Z) : bool :=
  (f3 <? 4) || (if Z.odd f3 then nz (u32 b) else sdiv_defined 32 (i32 (u32 a)) (i32 (u32 b))).

(** ** Correctness *)

Lemma double_mul_hi_mod a b : u64 (double_mul_hi a b) = (a * b / 2 ^ 64) mod 2 ^ 64.
Proof.
  unfold double_mul_hi, swrap, u64, wrap; rewrite shiftr_div by lia.
  set (x := a * b).
  rewrite (Z.mod_eq (x + _)) by lia.
  replace (x + 2 ^ (128 - 1) - 2 ^ 128 * ((x + 2 ^ (128 - 1)) / 2 ^ 128) - 2 ^ (128 - 1))
    with (x + (- (2 ^ 64 * ((x + 2 ^ (128 - 1)) / 2 ^ 128))) * 2 ^ 64) by lia.
  rewrite Z.div_add by lia.
  replace (x / 2 ^ 64 + _) with (x / 2 ^ 64 + (- ((x + 2 ^ (128 - 1)) / 2 ^ 128)) * 2 ^ 64) by lia.
  apply Z.mod_add; lia.
Qed.

(** A register-format mask leaves the three opcode fields. *)
Lemma matches_r insn op mtch :
  opcode insn = op ->
  matches insn 0xfe00707f mtch = (funct7 insn * 2 ^ 25 + funct3 insn * 2 ^ 12 + op =? mtch).
Proof. intros <-; unfold matches; rewrite land_fe00707f; reflexivity. Qed.

Lemma swrap_0_iff w x : 0 < w -> 0 <= x < 2 ^ w -> swrap w x = 0 -> x = 0.
Proof.
  intros Hw Hx; rewrite swrap_unsigned by lia; pose proof (pow2_half w Hw).
  destruct (Z.ltb_spec x (2 ^ (w - 1))); lia.
Qed.

(** A zero divisor is zero under either reading. *)
Lemma nz_signed w b : 0 < w -> 0 <= b < 2 ^ w -> nz (swrap w b) = nz b.
Proof.
  intros Hw Hb; unfold nz; f_equal; apply eq_true_iff_eq; rewrite !Z.eqb_eq.
  split; [apply swrap_0_iff; lia|intros ->].
  apply swrap_small; [lia|]; pose proof (pow2_pos (w - 1)); lia.
Qed.


(** Outside the M extension no mask matches. *)
Lemma matches_r_other insn op mtch :
  opcode insn = op -> 0 <= op < 2 ^ 7 -> funct7 insn <> 1 -> mtch / 2 ^ 25 = 1 ->
  matches insn 0xfe00707f mtch = false.
Proof.
  intros E Hop H7 Hm; rewrite (matches_r insn op) by assumption.
  pose proof (field_range insn 12 3 ltac:(lia)) as H3; fold (funct3 insn) in H3.
  apply Z.eqb_neq; intros <-; apply H7; rewrite <- Hm.
  apply (Z.div_unique _ _ _ (funct3 insn * 2 ^ 12 + op)); lia.
Qed.

Ltac muldiv_cases Hb :=
  ceval; mrun; rewrite ?u64_idem, ?i32_u32, ?double_mul_hi_mod, ?Hb; try reflexivity;
  unfold nz; destruct (_ =? 0); cbn [negb andb]; mrun; rewrite ?u64_idem; try reflexivity;
  destruct (_ && _); cbn [negb]; mrun; rewrite ?u64_idem; reflexivity.

Lemma run_emulate_mul_div mcause mepc mstatus insn m :
  wf m -> opcode insn = 0x33 ->
  let a := xregs m (rs1 insn) in
  let b := xregs m (rs2 insn) in
  emulate_mul_div mcause mepc mstatus insn m =
    if funct7 insn =? 1 then
      if muldiv_defined (funct3 insn) a b
      then Done tt (set_xreg (rd insn) (isa_muldiv (funct3 insn) a b) m)
      else Undefined
    else Redirected (delegated mepc mstatus insn m).
Proof.
  intros W Hop a b; unfold emulate_mul_div; mrun; fold a b.
  unfold MASK_MUL, MASK_DIV, MASK_DIVU, MASK_REM, MASK_REMU, MASK_MULH, MASK_MULHU, MASK_MULHSU.
  pose proof (nz_signed 64 b ltac:(lia) (wf_xregs m W _)) as Hb; fold (i64 b) in Hb.
  destruct (Z.eqb_spec (funct7 insn) 1) as [E7|E7].
  - rewrite !(matches_r insn 0x33), E7 by assumption.
    unfold c_sdiv, c_srem, c_udiv, c_urem, muldiv_defined, isa_muldiv, sdiv_defined.
    destruct (funct3_cases insn) as [E|[E|[E|[E|[E|[E|[E|E]]]]]]]; rewrite E; muldiv_cases Hb.
  - rewrite !(matches_r_other insn 0x33) by (assumption || reflexivity || lia); mrun; reflexivity.
Qed.

Lemma run_emulate_mul_div32 mcause mepc mstatus insn m :
  opcode insn = 0x3b ->
  let a := xregs m (rs1 insn) in
  let b := xregs m (rs2 insn) in
  emulate_mul_div32 mcause mepc mstatus insn m =
    if (funct7 insn =? 1) && ((funct3 insn =? 0) || (4 <=? funct3 insn)) then
      if muldivw_defined (funct3 insn) a b
      then Done tt (set_xreg (rd insn) (isa_muldivw (funct3 insn) a b) m)
      else Undefined
    else Redirected (delegated mepc mstatus insn m).
Proof.
  intros Hop a b; unfold emulate_mul_div32; mrun; fold a b.
  unfold MASK_MULW, MASK_DIVW, MASK_DIVUW, MASK_REMW, MASK_REMUW.
  pose proof (nz_signed 32 (u32 b) ltac:(lia) (u32_range b)) as Hb; fold (i32 (u32 b)) in Hb.
  rewrite i32_u32 in Hb.
  destruct (Z.eqb_spec (funct7 insn) 1) as [E7|E7]; cbn [andb].
  - rewrite !(matches_r insn 0x3b), E7 by assumption.
    unfold c_sdiv, c_srem, c_udiv, c_urem, muldivw_defined, isa_muldivw, sdiv_defined.
    destruct (funct3_cases insn) as [E|[E|[E|[E|[E|[E|[E|E]]]]]]]; rewrite E, ?i32_u32; muldiv_cases Hb.
  - rewrite !(matches_r_other insn 0x3b) by (assumption || reflexivity || lia); mrun; reflexivity.
Qed.


