(* ===== verification/Misaligned.v ===== *)
(** * Misaligned loads and stores ([machine/misaligned_ldst.c])

    The handlers decode the instruction that trapped, move its bytes one at a time and
    advance [mepc] past it. *)

From S2P Require Import Prelude Encoding Machine.
From Stdlib Require Import ZArith Lia Bool List.
Import ListNotations.

(** ** Definitions *)

Record load_kind := LoadKind {
  lk_len : nat;       (** bytes *)
  lk_shift : Z;       (** the shifts that sign-extend *)
  lk_fp : bool;
  lk_insn : Z         (** the instruction with the destination in the position of [rd] *)
}.

(** The chain of tests of [misaligned_load_trap]; [None] is its last [else]. *)
Definition misaligned_load_decode (insn : Z) : option load_kind :=
  let shift len := 8 * (8 - len) in
  if matches insn MASK_LW MATCH_LW then Some (LoadKind 4 (shift 4) false insn)
  else if matches insn MASK_LD MATCH_LD then Some (LoadKind 8 (shift 8) false insn)
  else if matches insn MASK_LWU MATCH_LWU then Some (LoadKind 4 0 false insn)
  else if matches insn MASK_FLD MATCH_FLD then Some (LoadKind 8 0 true insn)
  else if matches insn MASK_FLW MATCH_FLW then Some (LoadKind 4 0 true insn)
  else if matches insn MASK_LH MATCH_LH then Some (LoadKind 2 (shift 2) false insn)
  else if matches insn MASK_LHU MATCH_LHU then Some (LoadKind 2 0 false insn)
  else if matches insn MASK_C_LD MATCH_C_LD then
    Some (LoadKind 8 (shift 8) false (u64 (RVC_RS2S insn .<< SH_RD)))
  else if matches insn MASK_C_LDSP MATCH_C_LDSP && nz ((insn .>> SH_RD) .& 0x1f) then
    Some (LoadKind 8 (shift 8) false insn)
  else if matches insn MASK_C_LW MATCH_C_LW then
    Some (LoadKind 4 (shift 4) false (u64 (RVC_RS2S insn .<< SH_RD)))
  else if matches insn MASK_C_LWSP MATCH_C_LWSP && nz ((insn .>> SH_RD) .& 0x1f) then
    Some (LoadKind 4 (shift 4) false insn)
  else if matches insn MASK_C_FLD MATCH_C_FLD then
    Some (LoadKind 8 0 true (u64 (RVC_RS2S insn .<< SH_RD)))
  else if matches insn MASK_C_FLDSP MATCH_C_FLDSP then Some (LoadKind 8 0 true insn)
  else None.

(** [val.int64 = 0] and the loop that fills [val.bytes]. *)
Fixpoint load_bytes (n : nat) (addr mepc : Z) : M Z :=
  match n with
  | O => done 0
  | S n =>
      let! b := load_uint8_t addr mepc in
      let! v := load_bytes n (addr + 1) mepc in
      done (b + 256 * v)
  end.

Definition misaligned_load_trap (mcause mepc : Z) : M unit :=
  let! fetched := get_insn mepc in
  let '(insn, mstatus) := fetched in
  let npc := mepc + insn_len insn in
  let! addr := read_csr Mbadaddr in
  match misaligned_load_decode insn with
  | None => truly_illegal_insn mcause mepc mstatus insn
  | Some k =>
      let! val := load_bytes (lk_len k) addr mepc in
      do! (if negb (lk_fp k) then
             SET_RD (lk_insn k) (i64 (val .<< lk_shift k) .>> lk_shift k)
           else if (lk_len k =? 8)%nat then SET_F64_RD (lk_insn k) val
           else SET_F32_RD (lk_insn k) val) in
      write_csr Mepc npc
  end.

(** The chain of tests of [misaligned_store_trap]: the length and the value. *)
Definition misaligned_store_decode (insn : Z) : option (nat * M Z) :=
  if matches insn MASK_SW MATCH_SW then Some (4%nat, GET_RS2 insn)
  else if matches insn MASK_SD MATCH_SD then Some (8%nat, GET_RS2 insn)
  else if matches insn MASK_FSD MATCH_FSD then Some (8%nat, GET_F64_RS2 insn)
  else if matches insn MASK_FSW MATCH_FSW then Some (4%nat, GET_F32_RS2 insn)
  else if matches insn MASK_SH MATCH_SH then Some (2%nat, GET_RS2 insn)
  else if matches insn MASK_C_SD MATCH_C_SD then Some (8%nat, GET_RS2S insn)
  else if matches insn MASK_C_SDSP MATCH_C_SDSP && nz ((insn .>> SH_RD) .& 0x1f) then
    Some (8%nat, GET_RS2C insn)
  else if matches insn MASK_C_SW MATCH_C_SW then Some (4%nat, GET_RS2S insn)
  else if matches insn MASK_C_SWSP MATCH_C_SWSP && nz ((insn .>> SH_RD) .& 0x1f) then
    Some (4%nat, GET_RS2C insn)
  else if matches insn MASK_C_FSD MATCH_C_FSD then Some (8%nat, GET_F64_RS2S insn)
  else if matches insn MASK_C_FSDSP MATCH_C_FSDSP then Some (8%nat, GET_F64_RS2C insn)
  else None.

(** The loop over [val.bytes]. *)
Fixpoint store_bytes (n : nat) (addr val mepc : Z) : M unit :=
  match n with
  | O => done tt
  | S n =>
      do! store_uint8_t addr (val mod 256) mepc in
      store_bytes n (addr + 1) (val / 256) mepc
  end.

Definition misaligned_store_trap (mcause mepc : Z) : M unit :=
  let! fetched := get_insn mepc in
  let '(insn, mstatus) := fetched in
  let npc := mepc + insn_len insn in
  match misaligned_store_decode insn with
  | None => truly_illegal_insn mcause mepc mstatus insn
  | Some (len, value) =>
      let! val := value in
      let! addr := read_csr Mbadaddr in
      do! store_bytes len addr val mepc in
      write_csr Mepc npc
  end.

(** ** Memory *)

Lemma peek_S m n addr v :
  peek m (S n) addr = Some v ->
  exists b w, m (u64 addr) = Some b /\ peek m n (addr + 1) = Some w /\ v = b + 256 * w.
Proof.
  cbn [peek]; destruct (m (u64 addr)) as [b|]; [|discriminate].
  destruct (peek m n (addr + 1)) as [w|]; [|discriminate].
  intros H; exists b, w; repeat split; congruence.
Qed.

Lemma peek_range m n addr v :
  (forall a b, m a = Some b -> 0 <= b < 256) -> peek m n addr = Some v ->
  0 <= v < 2 ^ (8 * Z.of_nat n).
Proof.
  intros Hm; revert addr v; induction n as [|n IH]; intros addr v.
  - intros [= <-]; cbn; lia.
  - intros (b & w & E & P & ->)%peek_S.
    apply Hm in E; apply IH in P.
    rewrite Nat2Z.inj_succ, Z.mul_succ_r, Z.pow_add_r by lia; change (2 ^ 8) with 256; lia.
Qed.

(** The handler's loop reads what one wide access would. *)
Lemma run_load_bytes n addr mepc m v :
  peek (mem m) n addr = Some v -> load_bytes n addr mepc m = Done v m.
Proof.
  revert addr v; induction n as [|n IH]; intros addr v.
  - intros [= <-]; reflexivity.
  - intros (b & w & E & P & ->)%peek_S; cbn [load_bytes].
    unfold mbind, load_uint8_t, unprivileged_load; cbn [peek]; rewrite E, Z.mul_0_r, Z.add_0_r.
    rewrite (IH _ _ P); reflexivity.
Qed.

(** A byte that faults ends the loop with a delegated page fault at its address. *)
Lemma run_load_bytes_fault n addr mepc m :
  peek (mem m) n addr = None ->
  exists i, 0 <= i < Z.of_nat n /\ mem m (u64 (addr + i)) = None /\
    load_bytes n addr mepc m =
      Redirected (delegated mepc (csrs m Mstatus) (u64 (addr + i))
                    (faulted CAUSE_LOAD_PAGE_FAULT (addr + i) MSTATUS_MPRV m)).
Proof.
  revert addr; induction n as [|n IH]; intros addr; cbn [peek load_bytes]; [discriminate|].
  unfold mbind, load_uint8_t, unprivileged_load; cbn [peek].
  destruct (mem m (u64 addr)) as [b|] eqn:E.
  - destruct (peek (mem m) n (addr + 1)) as [w|] eqn:P; [discriminate|]; intros _.
    destruct (IH _ P) as (i & Hi & Hn & Hr); exists (i + 1).
    replace (addr + (i + 1)) with (addr + 1 + i) by lia.
    rewrite Hr; repeat split; auto; lia.
  - intros _; exists 0; rewrite Z.add_0_r.
    rewrite run_access_fault by (auto; reflexivity).
    repeat split; auto; lia.
Qed.

(** ** Fetching *)

(** The instruction at [pc]: four bytes when its low two bits are set, two otherwise.  The
    aligned word that holds a compressed instruction is in one page with it. *)
Definition insn_at (m : machine) (pc insn : Z) : Prop :=
  if insn .& 3 =? 3 then peek (mem m) 4 pc = Some insn
  else peek (mem m) 2 pc = Some insn /\ (pc .& 2 = 0 -> exists w, peek (mem m) 4 pc = Some w).

Lemma peek_app m n1 n2 addr w :
  peek m (n1 + n2) addr = Some w ->
  exists lo hi, peek m n1 addr = Some lo /\ peek m n2 (addr + Z.of_nat n1) = Some hi /\
                w = lo + 2 ^ (8 * Z.of_nat n1) * hi.
Proof.
  revert addr w; induction n1 as [|n1 IH]; intros addr w.
  - cbn [Nat.add Z.of_nat]; rewrite Z.add_0_r; intros E; exists 0, w.
    repeat split; [assumption|rewrite Z.mul_0_r; lia].
  - intros (b & w' & E & (lo & hi & E1 & E2 & ->)%IH & ->)%peek_S.
    exists (b + 256 * lo), hi; cbn [peek]; rewrite E, E1.
    replace (addr + Z.of_nat (S n1)) with (addr + 1 + Z.of_nat n1) by lia.
    repeat split; auto.
    rewrite Nat2Z.inj_succ, Z.mul_succ_r, Z.pow_add_r by lia; change (2 ^ 8) with 256; lia.
Qed.

Lemma run_get_insn m pc insn :
  wf m -> insn_at m pc insn -> get_insn pc m = Done (insn, csrs m Mstatus) m.
Proof.
  intros W; unfold insn_at, get_insn, unprivileged_load; mrun.
  rewrite !land_3_mod.
  assert (R : forall n a v, peek (mem m) n a = Some v -> 0 <= v < 2 ^ (8 * Z.of_nat n))
    by (intros; eapply peek_range; [apply W|eassumption]).
  destruct (Z.eqb_spec (insn mod 4) 3) as [E3|E3].
  - intros P; destruct (nz (pc .& 2)).
    + destruct (peek_app _ 2 2 _ _ P) as (lo & hi & Plo & Phi & ->).
      change (2 ^ (8 * Z.of_nat 2)) with 65536 in *; change (pc + Z.of_nat 2) with (pc + 2) in Phi.
      pose proof (R _ _ _ Plo); pose proof (R _ _ _ Phi).
      change (2 ^ (8 * Z.of_nat 2)) with 65536 in *.
      assert (M : lo mod 4 = 3) by (rewrite <- E3; Z.div_mod_to_equations; lia).
      rewrite Plo, land_3_mod, M; cbn [Z.eqb Pos.eqb negb]; rewrite Phi.
      rewrite shiftl_mul by lia; change (2 ^ 16) with 65536.
      rewrite (u64_small (hi * 65536)), u64_small by lia; do 2 f_equal; lia.
    + rewrite P, land_3_mod, E3; reflexivity.
  - intros [P Pw]; unfold nz; destruct (Z.eqb_spec (pc .& 2) 0) as [E|E]; cbn [negb].
    + destruct (Pw E) as [w Pw4]; rewrite Pw4, land_3_mod.
      destruct (peek_app _ 2 2 _ _ Pw4) as (lo & hi & Plo & Phi & ->).
      rewrite P in Plo; injection Plo as <-.
      pose proof (R _ _ _ P); pose proof (R _ _ _ Phi).
      change (2 ^ (8 * Z.of_nat 2)) with 65536 in *.
      assert (M : (insn + 65536 * hi) mod 4 = insn mod 4) by (Z.div_mod_to_equations; lia).
      rewrite M, (proj2 (Z.eqb_neq _ _) E3).
      replace (u64 ((insn + 65536 * hi) .<< 48) .>> 48) with insn; [reflexivity|].
      rewrite shiftl_mul, shiftr_div by lia; unfold u64, wrap.
      change (2 ^ 64) with (2 ^ 16 * 2 ^ 48); rewrite Z.mul_mod_distr_r, Z.div_mul by lia.
      change (2 ^ 16) with 65536; rewrite Z.mul_comm, Z.mod_add, Z.mod_small; lia.
    + rewrite P, land_3_mod, (proj2 (Z.eqb_neq _ _) E3); reflexivity.
Qed.

(** ** The loads and stores of the ISA *)

(** The length, the signedness, the register file and the destination of a load. *)
Record isa_load := IsaLoad {
  il_len : nat;
  il_signed : bool;
  il_fp : bool;
  il_rd : Z
}.

Definition decode_load (insn : Z) : option isa_load :=
  let quadrant := insn mod 4 in
  let f := field insn 13 3 in
  if quadrant =? 3 then
    let f3 := funct3 insn in
    if opcode insn =? 0x03 then
      if f3 =? 1 then Some (IsaLoad 2 true false (rd insn))
      else if f3 =? 2 then Some (IsaLoad 4 true false (rd insn))
      else if f3 =? 3 then Some (IsaLoad 8 true false (rd insn))
      else if f3 =? 5 then Some (IsaLoad 2 false false (rd insn))
      else if f3 =? 6 then Some (IsaLoad 4 false false (rd insn))
      else None
    else if opcode insn =? 0x07 then
      if f3 =? 2 then Some (IsaLoad 4 false true (rd insn))
      else if f3 =? 3 then Some (IsaLoad 8 false true (rd insn))
      else None
    else None
  else if quadrant =? 0 then
    let rd' := 8 + field insn 2 3 in
    if f =? 1 then Some (IsaLoad 8 false true rd')
    else if f =? 2 then Some (IsaLoad 4 true false rd')
    else if f =? 3 then Some (IsaLoad 8 true false rd')
    else None
  else if quadrant =? 2 then
    if f =? 1 then Some (IsaLoad 8 false true (rd insn))
    else if (f =? 2) && nz (rd insn) then Some (IsaLoad 4 true false (rd insn))
    else if (f =? 3) && nz (rd insn) then Some (IsaLoad 8 true false (rd insn))
    else None
  else None.

(** The handler's chain of masks is the ISA's decoding. *)
Definition load_kind_of (k : isa_load) (insn : Z) : load_kind :=
  LoadKind (il_len k) (if il_signed k then 8 * (8 - Z.of_nat (il_len k)) else 0) (il_fp k) insn.

Definition moved (insn : Z) : Z :=
  if insn mod 4 =? 0 then u64 (RVC_RS2S insn .<< SH_RD) else insn.

Lemma misaligned_load_decode_isa insn :
  misaligned_load_decode insn =
    match decode_load insn with
    | Some k => Some (load_kind_of k (moved insn))
    | None => None
    end.
Proof.
  unfold misaligned_load_decode, decode_load, moved.
  change ((insn .>> SH_RD) .& 0x1f) with ((insn .>> 7) .& (2 ^ 5 - 1)).
  rewrite shift_land_field by lia; fold (rd insn); mask_fields insn.
  pose proof (opcode_quadrant insn) as Q.
  destruct (Z.eqb_spec (opcode insn) 0x03) as [O|O];
    [|destruct (Z.eqb_spec (opcode insn) 0x07) as [O'|O']].
  - rewrite <- Q, O; ceval.
    destruct (funct3_cases insn) as [E|[E|[E|[E|[E|[E|[E|E]]]]]]]; rewrite E; reflexivity.
  - rewrite <- Q, O'; ceval.
    destruct (funct3_cases insn) as [E|[E|[E|[E|[E|[E|[E|E]]]]]]]; rewrite E; reflexivity.
  - cbn [andb].
    destruct (quadrant_cases insn) as [E|[E|[E|E]]]; rewrite E; ceval; try reflexivity;
      destruct (field3_cases insn 13) as [F|[F|[F|[F|[F|[F|[F|F]]]]]]]; rewrite F; ceval;
      destruct (nz (rd insn)); reflexivity.
Qed.

(** ** Correctness *)

Lemma freg_index_field insn pos : 3 <= pos -> freg_index insn pos = field insn pos 5.
Proof. apply GET_REG_field. Qed.

(** The register that receives the value, and its value. *)
Definition write_load (k : isa_load) (v : Z) (m : machine) : machine :=
  let dirty m := put_csr Mstatus (csrs m Mstatus .| MSTATUS_FS) m in
  if il_fp k then
    dirty (set_freg (il_rd k)
             (if (il_len k =? 8)%nat then v else fregs m (il_rd k) / 2 ^ 32 * 2 ^ 32 + v) m)
  else set_xreg (il_rd k) (if il_signed k then u64 (swrap (8 * Z.of_nat (il_len k)) v) else v) m.

(** The shifts of the handler sign-extend. *)
Lemma sign_extend len v :
  (len = 2 \/ len = 4 \/ len = 8)%nat ->
  let s := 8 * (8 - Z.of_nat len) in
  u64 (i64 (v .<< s) .>> s) = u64 (swrap (8 * Z.of_nat len) v).
Proof.
  intros H; cbv zeta; rewrite shiftl_mul, shiftr_div by lia; unfold i64.
  replace 64 with (8 * Z.of_nat len + 8 * (8 - Z.of_nat len)) at 1 by lia.
  rewrite swrap_shift, Z.div_mul by (try apply Z.pow_nonzero; lia); reflexivity.
Qed.

Lemma decode_load_len insn k :
  decode_load insn = Some k ->
  (il_len k = 2 \/ il_len k = 4 \/ il_len k = 8)%nat /\
  (il_fp k = true -> (il_len k = 4 \/ il_len k = 8)%nat) /\
  GET_REG (moved insn) SH_RD = il_rd k.
Proof.
  unfold decode_load, moved.
  destruct (quadrant_cases insn) as [E|[E|[E|E]]]; rewrite E; ceval;
    rewrite ?moved_rd, ?(GET_REG_field insn SH_RD) by (unfold SH_RD; lia);
    change (field insn SH_RD 5) with (rd insn);
    repeat match goal with
           | |- (if ?b then _ else _) = Some k -> _ => destruct b
           end;
    intros H; inversion H; subst; cbn [il_len il_fp il_rd];
    (split; [auto|split; [intros; try discriminate; auto|reflexivity]]).
Qed.

Lemma run_write_back insn k v m :
  decode_load insn = Some k -> 0 <= v < 2 ^ (8 * Z.of_nat (il_len k)) ->
  (if negb (il_fp k) then
     SET_RD (moved insn) (i64 (v .<< lk_shift (load_kind_of k (moved insn)))
                          .>> lk_shift (load_kind_of k (moved insn)))
   else if (il_len k =? 8)%nat then SET_F64_RD (moved insn) v
   else SET_F32_RD (moved insn) v) m = Done tt (write_load k v m).
Proof.
  intros D Hv; destruct (decode_load_len insn k D) as (L & LF & R).
  unfold write_load, load_kind_of, lk_shift.
  destruct (il_fp k) eqn:F; cbn [negb].
  - unfold SET_F64_RD, SET_F32_RD, SET_F64_REG, SET_F32_REG, SET_FS_DIRTY; mrun.
    change (freg_index (moved insn) 7) with (GET_REG (moved insn) SH_RD); rewrite R.
    destruct LF as [L'|L']; auto; rewrite L' in *; cbn [Nat.eqb].
    + rewrite u32_small by (change (2 ^ _) with (2 ^ 32) in Hv; lia); reflexivity.
    + rewrite u64_small by (change (2 ^ _) with (2 ^ 64) in Hv; lia); reflexivity.
  - unfold SET_RD, set_reg; rewrite R.
    destruct (il_signed k); [rewrite sign_extend by assumption; reflexivity|].
    assert (v < 2 ^ 64).
    { apply (Z.lt_le_trans _ (2 ^ (8 * Z.of_nat (il_len k)))); [lia|apply pow2_le; lia]. }
    rewrite Z.shiftl_0_r, Z.shiftr_0_r, u64_swrap, u64_small by lia; reflexivity.
Qed.

Lemma run_misaligned_load_trap mcause mepc insn m :
  wf m -> insn_at m mepc insn ->
  misaligned_load_trap mcause mepc m =
    match decode_load insn with
    | None => Redirected (delegated mepc (csrs m Mstatus) insn m)
    | Some k =>
        match load_bytes (il_len k) (csrs m Mbadaddr) mepc m with
        | Done v m' => 
            mbind (if negb (il_fp k) then
                     SET_RD (moved insn) (i64 (v .<< lk_shift (load_kind_of k (moved insn)))
                                            .>> lk_shift (load_kind_of k (moved insn)))
                   else if (il_len k =? 8)%nat then SET_F64_RD (moved insn) v
                   else SET_F32_RD (moved insn) v)
              (fun _ => write_csr Mepc (mepc + insn_len insn)) m'
        | Redirected m' => Redirected m'
        | Dead => Dead
        | Undefined => Undefined
        end
    end.
Proof.
  intros W I; unfold misaligned_load_trap; erewrite run_bind by (apply run_get_insn; eassumption).
  cbv beta iota; rewrite misaligned_load_decode_isa; mrun.
  destruct (decode_load insn); mrun; reflexivity.
Qed.

Lemma run_misaligned_load (mcause mepc insn : Z) (m : machine) :
  wf m -> 0 <= mepc < 2 ^ 64 -> insn_at m mepc insn ->
  let addr := csrs m Mbadaddr in
  match decode_load insn with
  | Some k =>
      match peek (mem m) (il_len k) addr with
      | Some v =>
          misaligned_load_trap mcause mepc m =
            Done tt (put_csr Mepc (u64 (mepc + insn_len insn)) (write_load k v m))
      | None =>
          exists i m',
            0 <= i < Z.of_nat (il_len k) /\ mem m (u64 (addr + i)) = None /\
            misaligned_load_trap mcause mepc m = Redirected m' /\
            sees_trap mepc CAUSE_LOAD_PAGE_FAULT (u64 (addr + i)) m m' /\ same_context m m'
      end
  | None =>
      misaligned_load_trap mcause mepc m = Redirected (delegated mepc (csrs m Mstatus) insn m)
  end.
Proof.
  intros W Hpc I addr; rewrite (run_misaligned_load_trap mcause mepc insn m) by assumption.
  destruct (decode_load insn) as [k|] eqn:D; [|reflexivity]; fold addr.
  destruct (peek (mem m) (il_len k) addr) as [v|] eqn:P.
  - rewrite (run_load_bytes _ _ _ _ _ P).
    erewrite run_bind; [reflexivity|].
    apply run_write_back; [assumption|]; eapply peek_range; [apply W|eassumption].
  - destruct (run_load_bytes_fault _ _ mepc _ P) as (i & Hi & Hn & ->).
    eexists i, _; split; [assumption|]; split; [assumption|]; split; [reflexivity|].
    apply faulted_sees; auto; unfold CAUSE_LOAD_PAGE_FAULT; lia.
Qed.

(** C7: misaligned loads.  When the bytes of the access are readable the handler writes to
    the destination register what an aligned access would have loaded, sign- or
    zero-extended as the instruction asks, or into the floating-point register with the
    unit marked dirty, and steps over the instruction; when one of them faults the trap is
    delegated as a load page fault at that byte with nothing changed; an instruction that
    is not a load of the ISA is delegated as it was. *)
Theorem misaligned_load_correct (mcause mepc insn : Z) (m : machine) :
  wf m -> 0 <= mepc < 2 ^ 64 -> insn_at m mepc insn ->
  let addr := csrs m Mbadaddr in
  match decode_load insn with
  | Some k =>
      match peek (mem m) (il_len k) addr with
      | Some v =>
          misaligned_load_trap mcause mepc m =
            Done tt (put_csr Mepc (u64 (mepc + insn_len insn)) (write_load k v m))
      | None =>
          exists i m',
            0 <= i < Z.of_nat (il_len k) /\ mem m (u64 (addr + i)) = None /\
            misaligned_load_trap mcause mepc m = Redirected m' /\
            sees_trap mepc CAUSE_LOAD_PAGE_FAULT (u64 (addr + i)) m m' /\ same_context m m'
      end
  | None =>
      misaligned_load_trap mcause mepc m = Redirected (delegated mepc (csrs m Mstatus) insn m)
  end.
Proof. apply run_misaligned_load. Qed.

(** [lw x5, 0(x6)] at [0x100] with [x6 = 0x105], where the word is [-2]. *)
Lemma misaligned_load_correct_witness :
  let m := put_csr Mbadaddr 0x105
             (with_bytes 0x100 [0x83; 0x22; 0x03; 0x00; 0x00; 0xfe; 0xff; 0xff; 0xff] blank) in
  exists m', misaligned_load_trap CAUSE_MISALIGNED_LOAD 0x100 m = Done tt m' /\
             xregs m' 5 = 2 ^ 64 - 2 /\ csrs m' Mepc = 0x104.
Proof.
  intros m; assert (W : wf m) by (apply wf_put_csr; [apply wf_with_bytes; auto with wf|lia]).
  pose proof (misaligned_load_correct CAUSE_MISALIGNED_LOAD 0x100 0x00032283 m W
                ltac:(lia) eq_refl) as T.
  eexists; split; [exact T|split; reflexivity].
Defined.

(** ** Stores *)

(** The length, the register file and the source register of a store. *)
Definition decode_store (insn : Z) : option (nat * bool * Z) :=
  let quadrant := insn mod 4 in
  let f := field insn 13 3 in
  if quadrant =? 3 then
    let f3 := funct3 insn in
    if opcode insn =? 0x23 then
      if f3 =? 1 then Some (2%nat, false, rs2 insn)
      else if f3 =? 2 then Some (4%nat, false, rs2 insn)
      else if f3 =? 3 then Some (8%nat, false, rs2 insn)
      else None
    else if opcode insn =? 0x27 then
      if f3 =? 2 then Some (4%nat, true, rs2 insn)
      else if f3 =? 3 then Some (8%nat, true, rs2 insn)
      else None
    else None
  else if quadrant =? 0 then
    if f =? 5 then Some (8%nat, true, 8 + field insn 2 3)
    else if f =? 6 then Some (4%nat, false, 8 + field insn 2 3)
    else if f =? 7 then Some (8%nat, false, 8 + field insn 2 3)
    else None
  else if quadrant =? 2 then
    if f =? 5 then Some (8%nat, true, field insn 2 5)
    else if f =? 6 then Some (4%nat, false, field insn 2 5)
    else if f =? 7 then Some (8%nat, false, field insn 2 5)
    else None
  else None.

(** The stack-pointer stores [C.SWSP] and [C.SDSP] whose bits in the position of [rd] are
    clear; those bits belong to the offset. *)
Definition sp_store_rd0 (insn : Z) : bool :=
  (insn mod 4 =? 2) && ((field insn 13 3 =? 6) || (field insn 13 3 =? 7)) && (rd insn =? 0).

Definition store_source (m : machine) (fp : bool) (r : Z) : Z :=
  if fp then fregs m r else xregs m r.

Lemma RVC_RS2S_reg insn : GET_REG (RVC_RS2S insn) 0 = 8 + field insn 2 3.
Proof.
  unfold RVC_RS2S, SH_RS2C; rewrite RV_X_field by lia.
  pose proof (field_range insn 2 3 ltac:(lia)).
  rewrite GET_REG_low by lia; unfold field at 1; rewrite Z.div_1_r, Z.mod_small by lia; reflexivity.
Qed.

(** A reading of a register that has its low bytes. *)
Definition reads (value : M Z) (len : nat) (m : machine) (src : Z) : Prop :=
  exists v, value m = Done v m /\
            v mod 2 ^ (8 * Z.of_nat len) = src mod 2 ^ (8 * Z.of_nat len).

Section Reads.
Context (insn : Z) (m : machine) (Hi : 0 <= insn < 2 ^ 32).

Lemma reads_reg i len : reads (reg i) len m (xregs m i).
Proof. eexists; split; reflexivity. Qed.

Lemma reads_RS2 len : reads (GET_RS2 insn) len m (xregs m (rs2 insn)).
Proof. exists (xregs m (rs2 insn)); rewrite run_GET_RS2; auto. Qed.

Lemma reads_RS2S len : reads (GET_RS2S insn) len m (xregs m (8 + field insn 2 3)).
Proof. unfold GET_RS2S; rewrite RVC_RS2S_reg; apply reads_reg. Qed.

Lemma reads_RS2C len : reads (GET_RS2C insn) len m (xregs m (field insn 2 5)).
Proof using Hi. unfold GET_RS2C, SH_RS2C; rewrite GET_REG_low by lia; apply reads_reg. Qed.

Lemma reads_F64 i pos : 
  GET_REG i pos = field i pos 5 -> reads (GET_F64_REG i pos) 8 m (fregs m (field i pos 5)).
Proof.
  intros E; unfold GET_F64_REG; change (freg_index i pos) with (GET_REG i pos); rewrite E.
  eexists; split; [reflexivity|]; apply u64_swrap.
Qed.

Lemma reads_F64_RS2 : reads (GET_F64_RS2 insn) 8 m (fregs m (rs2 insn)).
Proof. apply (reads_F64 insn 20), GET_REG_field; lia. Qed.

Lemma reads_F64_RS2C : reads (GET_F64_RS2C insn) 8 m (fregs m (field insn 2 5)).
Proof using Hi. apply (reads_F64 insn 2), GET_REG_low; lia. Qed.

Lemma reads_F64_RS2S : reads (GET_F64_RS2S insn) 8 m (fregs m (8 + field insn 2 3)).
Proof.
  unfold GET_F64_RS2S, GET_F64_REG.
  change (freg_index (RVC_RS2S insn) 0) with (GET_REG (RVC_RS2S insn) 0).
  rewrite RVC_RS2S_reg; eexists; split; [reflexivity|]; apply u64_swrap.
Qed.

Lemma reads_F32_RS2 : reads (GET_F32_RS2 insn) 4 m (fregs m (rs2 insn)).
Proof.
  unfold GET_F32_RS2, GET_F32_REG; rewrite freg_index_field by lia; fold (rs2 insn).
  eexists; split; [reflexivity|]; apply (wrap_swrap 32); lia.
Qed.
End Reads.

Create HintDb reads.
#[export] Hint Resolve reads_RS2 reads_RS2S reads_RS2C reads_F64_RS2 reads_F64_RS2C reads_F64_RS2S
  reads_F32_RS2 : reads.

(** What the handler stores has the bytes of the source register. *)
Lemma misaligned_store_decode_isa insn m :
  0 <= insn < 2 ^ 32 ->
  match decode_store insn with
  | Some (len, fp, r) =>
      if sp_store_rd0 insn then misaligned_store_decode insn = None
      else exists value,
        misaligned_store_decode insn = Some (len, value) /\
        reads value len m (store_source m fp r)
  | None => misaligned_store_decode insn = None
  end.
Proof.
  intros Hi; unfold misaligned_store_decode, decode_store, sp_store_rd0.
  change ((insn .>> SH_RD) .& 0x1f) with ((insn .>> 7) .& (2 ^ 5 - 1)).
  rewrite shift_land_field by lia; fold (rd insn); mask_fields insn.
  pose proof (opcode_quadrant insn) as Q.
  destruct (Z.eqb_spec (opcode insn) 0x23) as [O|O];
    [|destruct (Z.eqb_spec (opcode insn) 0x27) as [O'|O']].
  - rewrite <- Q, O; ceval.
    destruct (funct3_cases insn) as [E|[E|[E|[E|[E|[E|[E|E]]]]]]]; rewrite E; ceval;
      eauto with reads.
  - rewrite <- Q, O'; ceval.
    destruct (funct3_cases insn) as [E|[E|[E|[E|[E|[E|[E|E]]]]]]]; rewrite E; ceval;
      eauto with reads.
  - cbn [andb].
    destruct (quadrant_cases insn) as [E|[E|[E|E]]]; rewrite E; ceval; try reflexivity;
      destruct (field3_cases insn 13) as [F|[F|[F|[F|[F|[F|[F|F]]]]]]]; rewrite F; ceval;
      unfold nz; destruct (rd insn =? 0); cbn [negb andb]; eauto with reads.
Qed.

Lemma can_write_set_mem f m n addr : can_write (set_mem f m) n addr = can_write m n addr.
Proof. revert addr; induction n as [|n IH]; intros; cbn [can_write]; [|rewrite IH];
  reflexivity. Qed.

Lemma poke_byte m n addr val :
  (forall a b, m a = Some b -> 0 <= b < 256) ->
  forall a b, poke m n addr val a = Some b -> 0 <= b < 256.
Proof.
  revert m addr val; induction n as [|n IH]; intros m addr val Hm; [exact Hm|].
  cbn [poke]; apply IH; intros a b; destruct (a =? u64 addr); [|apply Hm].
  intros [= <-]; apply Z.mod_pos_bound; lia.
Qed.

(** Congruence modulo a power of two is inherited by a smaller power. *)
Lemma mod_pow2_le x y n k : 0 <= k <= n -> x mod 2 ^ n = y mod 2 ^ n -> x mod 2 ^ k = y mod 2 ^ k.
Proof.
  intros Hk E; rewrite (pow2_split n k) in E by lia.
  pose proof (pow2_pos k ltac:(lia)); pose proof (pow2_pos (n - k) ltac:(lia)).
  rewrite !Z.rem_mul_r in E by lia.
  pose proof (Z.mod_pos_bound x (2 ^ k) ltac:(lia));
    pose proof (Z.mod_pos_bound y (2 ^ k) ltac:(lia)).
  apply (f_equal (fun z => z mod 2 ^ k)) in E.
  rewrite !(Z.mul_comm (2 ^ k)), !Z.mod_add, !Z.mod_mod in E by lia; exact E.
Qed.

Lemma run_store_bytes n addr val mepc m :
  can_write m n addr = true ->
  store_bytes n addr val mepc m = Done tt (set_mem (poke (mem m) n addr val) m).
Proof.
  revert addr val m; induction n as [|n IH]; intros addr val m H; cbn [store_bytes poke].
  - destruct m; reflexivity.
  - cbn [can_write] in H; apply andb_true_iff in H as [H1 H2].
    unfold mbind, store_uint8_t, unprivileged_store; cbn [can_write poke]; rewrite H1.
    cbn [andb]; rewrite Z.mod_mod, IH by (lia || rewrite can_write_set_mem; assumption).
    reflexivity.
Qed.

(** A byte that may not be written ends the loop with a delegated page fault at its
    address; the bytes before it have been stored. *)
Lemma run_store_bytes_fault n addr val mepc m :
  can_write m n addr = false ->
  exists i, (i < n)%nat /\ writable m (u64 (addr + Z.of_nat i)) = false /\
    let m' := set_mem (poke (mem m) i addr val) m in
    store_bytes n addr val mepc m =
      Redirected (delegated mepc (csrs m Mstatus) (u64 (addr + Z.of_nat i))
                    (faulted CAUSE_STORE_PAGE_FAULT (addr + Z.of_nat i) MSTATUS_MPRV m')).
Proof.
  revert addr val m; induction n as [|n IH]; intros addr val m; cbn [can_write]; [discriminate|].
  cbn [store_bytes]; unfold mbind, store_uint8_t at 1, unprivileged_store; cbn [can_write].
  rewrite andb_true_r; destruct (writable m (u64 addr)) eqn:E; cbn [andb].
  - intros H; cbn [poke]; rewrite Z.mod_mod by lia.
    set (m1 := set_mem _ m).
    destruct (IH (addr + 1) (val / 256) m1) as (i & Hi & Hw & Hr);
      [rewrite <- H; apply can_write_set_mem|exists (S i)].
    replace (addr + Z.of_nat (S i)) with (addr + 1 + Z.of_nat i) by lia.
    split; [lia|]; split; [exact Hw|]; cbv zeta; rewrite Hr; reflexivity.
  - intros _; exists O; cbn [Z.of_nat poke]; rewrite Z.add_0_r.
    split; [lia|]; split; [assumption|].
    rewrite run_access_fault by (auto; reflexivity); destruct m; reflexivity.
Qed.

Lemma poke_mod m n addr x y :
  x mod 2 ^ (8 * Z.of_nat n) = y mod 2 ^ (8 * Z.of_nat n) -> poke m n addr x = poke m n addr y.
Proof.
  revert m addr x y; induction n as [|n IH]; intros m addr x y; [reflexivity|].
  rewrite Nat2Z.inj_succ, Z.mul_succ_r, Z.add_comm, Z.pow_add_r by lia; change (2 ^ 8) with 256.
  pose proof (pow2_pos (8 * Z.of_nat n) ltac:(lia)).
  rewrite !Z.rem_mul_r by lia; intros E; cbn [poke].
  pose proof (Z.mod_pos_bound x 256 ltac:(lia)); pose proof (Z.mod_pos_bound y 256 ltac:(lia)).
  assert (E1 : x mod 256 = y mod 256) by lia.
  rewrite E1; apply IH; lia.
Qed.

Lemma run_misaligned_store_trap mcause mepc insn m len value v :
  wf m -> insn_at m mepc insn -> misaligned_store_decode insn = Some (len, value) ->
  value m = Done v m ->
  misaligned_store_trap mcause mepc m =
    mbind (store_bytes len (csrs m Mbadaddr) v mepc)
      (fun _ => write_csr Mepc (mepc + insn_len insn)) m.
Proof.
  intros W I D V; unfold misaligned_store_trap.
  erewrite run_bind by (apply run_get_insn; eassumption); cbv beta iota; rewrite D.
  erewrite run_bind by eassumption; reflexivity.
Qed.

Lemma run_misaligned_store_illegal mcause mepc insn m :
  wf m -> insn_at m mepc insn -> misaligned_store_decode insn = None ->
  misaligned_store_trap mcause mepc m = Redirected (delegated mepc (csrs m Mstatus) insn m).
Proof.
  intros W I D; unfold misaligned_store_trap.
  erewrite run_bind by (apply run_get_insn; eassumption); cbv beta iota; rewrite D; mrun.
  reflexivity.
Qed.

Lemma insn_at_range m pc insn : wf m -> insn_at m pc insn -> 0 <= insn < 2 ^ 32.
Proof.
  intros W; unfold insn_at.
  assert (R : forall n a v, peek (mem m) n a = Some v -> 0 <= v < 2 ^ (8 * Z.of_nat n))
    by (intros; eapply peek_range; [apply W|eassumption]).
  destruct (_ =? 3); [intros P|intros [P _]]; apply R in P;
    [change (8 * Z.of_nat 4) with 32 in P|change (8 * Z.of_nat 2) with 16 in P]; lia.
Qed.

Lemma run_misaligned_store (mcause mepc insn : Z) (m : machine) len fp r :
  wf m -> 0 <= mepc < 2 ^ 64 -> insn_at m mepc insn ->
  decode_store insn = Some (len, fp, r) -> sp_store_rd0 insn = false ->
  let addr := csrs m Mbadaddr in
  let v := store_source m fp r in
  if can_write m len addr then
    misaligned_store_trap mcause mepc m =
      Done tt (put_csr Mepc (u64 (mepc + insn_len insn)) (set_mem (poke (mem m) len addr v) m))
  else
    exists i m',
      (i < len)%nat /\ writable m (u64 (addr + Z.of_nat i)) = false /\
      misaligned_store_trap mcause mepc m = Redirected m' /\
      sees_trap mepc CAUSE_STORE_PAGE_FAULT (u64 (addr + Z.of_nat i)) m m' /\
      same_context (set_mem (poke (mem m) i addr v) m) m'.
Proof.
  intros W Hpc I D G addr v; pose proof (insn_at_range m mepc insn W I) as Hi.
  pose proof (misaligned_store_decode_isa insn m Hi) as T; rewrite D, G in T.
  destruct T as (value & DV & x & V & E).
  rewrite (run_misaligned_store_trap mcause mepc insn m len value x) by assumption; fold addr.
  destruct (can_write m len addr) eqn:C.
  - erewrite run_bind by (apply run_store_bytes; assumption).
    rewrite (poke_mod _ _ _ _ _ E); reflexivity.
  - destruct (run_store_bytes_fault len addr x mepc m C) as (i & Hi' & Hw & R).
    cbv zeta in R; unfold mbind; rewrite R.
    eexists i, _; split; [assumption|]; split; [assumption|]; split; [reflexivity|].
    assert (P : poke (mem m) i addr x = poke (mem m) i addr v).
    { apply poke_mod, (mod_pow2_le _ _ (8 * Z.of_nat len)); [lia|exact E]. }
    rewrite P; apply (faulted_sees _ _ _ _ (set_mem (poke (mem m) i addr v) m));
      [|assumption|unfold CAUSE_STORE_PAGE_FAULT; lia].
    split; cbn; try apply W; apply poke_byte, W.
Qed.

(** C21: misaligned stores.  For every store of the ISA but the stack-pointer stores whose
    offset clears the position of [rd], the handler writes the low bytes of the source
    register to the bytes of the access and steps over the instruction when they may all
    be written; otherwise it delegates a store page fault at the first byte that may not,
    with only the bytes before it stored. *)
Theorem misaligned_store_correct (mcause mepc insn : Z) (m : machine) len fp r :
  wf m -> 0 <= mepc < 2 ^ 64 -> insn_at m mepc insn ->
  decode_store insn = Some (len, fp, r) -> sp_store_rd0 insn = false ->
  let addr := csrs m Mbadaddr in
  let v := store_source m fp r in
  if can_write m len addr then
    misaligned_store_trap mcause mepc m =
      Done tt (put_csr Mepc (u64 (mepc + insn_len insn)) (set_mem (poke (mem m) len addr v) m))
  else
    exists i m',
      (i < len)%nat /\ writable m (u64 (addr + Z.of_nat i)) = false /\
      misaligned_store_trap mcause mepc m = Redirected m' /\
      sees_trap mepc CAUSE_STORE_PAGE_FAULT (u64 (addr + Z.of_nat i)) m m' /\
      same_context (set_mem (poke (mem m) i addr v) m) m'.
Proof. apply run_misaligned_store. Qed.

(** [sd x5, 0(x6)] at [0x100] with [mbadaddr = 0x105]. *)
Lemma misaligned_store_correct_witness :
  let m := set_xreg 5 0x1122334455667788 (put_csr Mbadaddr 0x105
             (with_bytes 0x100 [0x23; 0x30; 0x53; 0x00; 0; 0; 0; 0; 0; 0; 0; 0; 0] blank)) in
  exists m', misaligned_store_trap CAUSE_MISALIGNED_STORE 0x100 m = Done tt m' /\
             mem m' 0x105 = Some 0x88 /\ mem m' 0x10c = Some 0x11 /\ csrs m' Mepc = 0x104.
Proof.
  intros m.
  assert (W : wf m)
    by (apply wf_set_xreg; [apply wf_put_csr; [apply wf_with_bytes; auto with wf|lia]|lia]).
  pose proof (misaligned_store_correct CAUSE_MISALIGNED_STORE 0x100 0x00533023 m 8 false 5 W
                ltac:(lia) eq_refl eq_refl eq_refl) as T.
  eexists; split; [exact T|repeat split; reflexivity].
Defined.

(** C36: a defect of the handler: [C.SWSP] and [C.SDSP] with offset [0] or [32] are taken for
    instructions without a destination.  The handler does not perform the store and
    delegates the trap with the instruction in place of the address, although the access
    could be made. *)
Theorem misaligned_sp_store_rejected (mcause mepc insn : Z) (m : machine) :
  wf m -> insn_at m mepc insn -> sp_store_rd0 insn = true ->
  (exists len r, decode_store insn = Some (len, false, r)) /\
  misaligned_store_trap mcause mepc m = Redirected (delegated mepc (csrs m Mstatus) insn m).
Proof.
  intros W I G; pose proof (insn_at_range m mepc insn W I) as Hi.
  pose proof (misaligned_store_decode_isa insn m Hi) as T; rewrite G in T.
  assert (D : exists len r, decode_store insn = Some (len, false, r)).
  { unfold sp_store_rd0 in G; unfold decode_store.
    apply andb_true_iff in G as [G _]; apply andb_true_iff in G as [Q F].
    apply Z.eqb_eq in Q; rewrite Q; ceval.
    destruct (field3_cases insn 13) as [E|[E|[E|[E|[E|[E|[E|E]]]]]]]; rewrite E in *;
      try discriminate F; ceval; eauto. }
  split; [exact D|]; destruct D as (len & r & D); rewrite D in T.
  apply run_misaligned_store_illegal; assumption.
Qed.

(** [c.sdsp x1, 0(sp)]. *)
Lemma misaligned_sp_store_rejected_witness :
  let m := with_bytes 0x100 [0x06; 0xe0; 0; 0] blank in
  misaligned_store_trap CAUSE_MISALIGNED_STORE 0x100 m = Redirected (delegated 0x100 0 0xe006 m).
Proof.
  intros m; assert (W : wf m) by (apply wf_with_bytes; auto with wf).
  apply (misaligned_sp_store_rejected CAUSE_MISALIGNED_STORE 0x100 0xe006 m W); [|reflexivity].
  split; [reflexivity|intros _; eexists; reflexivity].
Defined.

(** ** Round trip *)

Lemma u64_distinct addr i j :
  0 <= i < 2 ^ 64 -> 0 <= j < 2 ^ 64 -> i <> j -> u64 (addr + i) <> u64 (addr + j).
Proof.
  intros Hi Hj N E; apply N; unfold u64, wrap in E.
  rewrite <- (Z.mod_small i (2 ^ 64)), <- (Z.mod_small j (2 ^ 64)) by lia.
  replace i with (addr + i - addr) by lia; replace j with (addr + j - addr) by lia.
  rewrite (Zminus_mod (addr + i)), (Zminus_mod (addr + j)), E; reflexivity.
Qed.

Lemma poke_other m n addr val a :
  (forall i, 0 <= i < Z.of_nat n -> a <> u64 (addr + i)) -> poke m n addr val a = m a.
Proof.
  revert m addr val; induction n as [|n IH]; intros m addr val H; [reflexivity|].
  cbn [poke]; rewrite IH.
  - rewrite (proj2 (Z.eqb_neq a (u64 addr))); [reflexivity|].
    rewrite <- (Z.add_0_r addr); apply H; lia.
  - intros i Hi; replace (addr + 1 + i) with (addr + (i + 1)) by lia; apply H; lia.
Qed.

(** Loading back what was stored. *)
Lemma peek_poke m n addr val :
  Z.of_nat n <= 2 ^ 64 -> peek (poke m n addr val) n addr = Some (val mod 2 ^ (8 * Z.of_nat n)).
Proof.
  revert m addr val; induction n as [|n IH]; intros m addr val H.
  - cbn; rewrite Z.mod_1_r; reflexivity.
  - cbn [peek poke]; rewrite IH by lia.
    rewrite poke_other, Z.eqb_refl.
    + replace (8 * Z.of_nat (S n)) with (8 + 8 * Z.of_nat n) by lia.
      rewrite Z.pow_add_r by lia; change (2 ^ 8) with 256.
      rewrite Z.rem_mul_r by (try apply Z.pow_nonzero; lia); reflexivity.
    + intros i Hi; rewrite <- (Z.add_0_r addr) at 1.
      replace (addr + 1 + i) with (addr + (i + 1)) by lia; apply u64_distinct; lia.
Qed.

(** A misaligned store followed by a misaligned load of the same width at the same
    address gives the low bytes of the stored register, extended as the load asks. *)
Lemma misaligned_roundtrip (c1 c2 pc1 pc2 i1 i2 : Z) (m m1 m2 : machine) fp r k :
  wf m -> 0 <= pc1 < 2 ^ 64 -> 0 <= pc2 < 2 ^ 64 ->
  insn_at m pc1 i1 -> decode_store i1 = Some (il_len k, fp, r) -> sp_store_rd0 i1 = false ->
  can_write m (il_len k) (csrs m Mbadaddr) = true ->
  misaligned_store_trap c1 pc1 m = Done tt m1 ->
  insn_at m1 pc2 i2 -> decode_load i2 = Some k -> il_fp k = false ->
  misaligned_load_trap c2 pc2 m1 = Done tt m2 ->
  let v := store_source m fp r mod 2 ^ (8 * Z.of_nat (il_len k)) in
  xregs m2 (il_rd k) =
    if il_signed k then u64 (swrap (8 * Z.of_nat (il_len k)) v) else v.
Proof.
  intros W H1 H2 I1 D1 G C S I2 D2 F L v; pose proof (insn_at_range m pc1 i1 W I1) as Hi.
  pose proof (misaligned_store_decode_isa i1 m Hi) as T; rewrite D1, G in T.
  destruct T as (value & DV & x & V & E).
  rewrite (run_misaligned_store_trap c1 pc1 i1 m (il_len k) value x) in S by assumption.
  erewrite run_bind in S by (apply run_store_bytes; assumption).
  injection S as <-; rewrite (poke_mod _ _ _ _ _ E) in *; clear E.
  set (m1 := put_csr _ _ _) in *.
  assert (W1 : wf m1).
  { apply wf_put_csr; [|apply u64_range]; split; cbn; try apply W; apply poke_byte, W. }
  rewrite (run_misaligned_load_trap c2 pc2 i2 m1 W1 I2), D2 in L.
  assert (P : peek (mem m1) (il_len k) (csrs m1 Mbadaddr) = Some v).
  { apply peek_poke; destruct (decode_load_len i2 k D2) as ([-> | [-> | ->]] & _); lia. }
  rewrite (run_load_bytes _ _ _ _ _ P) in L.
  erewrite run_bind in L by
    (apply run_write_back; [assumption|apply Z.mod_pos_bound, pow2_pos; lia]).
  injection L as <-; unfold write_load; rewrite F; cbn; unfold upd; rewrite Z.eqb_refl.
  reflexivity.
Qed.
