(* ===== verification/FpLdst.v ===== *)
(** * Floating-point loads and stores ([machine/fp_ldst.c]) *)

From S2P Require Import Prelude Encoding Machine Misaligned.
From Stdlib Require Import ZArith Lia Bool List.

(** ** Definitions *)

(** [punt_to_misaligned_handler]: a misaligned address goes to the other handler, which
    finds it in [mbadaddr]. *)
Definition punt_to_misaligned_handler (addr align : Z) (handler k : M unit) : M unit :=
  if negb (addr mod align =? 0) then do! write_csr Mbadaddr addr in handler else k.

Definition emulate_float_load : emulation_func := fun mcause mepc mstatus insn =>
  let! base := GET_RS1 insn in
  let addr := u64 (base + IMM_I insn) in
  if mstatus .& MSTATUS_FS =? 0 then truly_illegal_insn mcause mepc mstatus insn
  else if insn .& MASK_FUNCT3 =? MATCH_FLW .& MASK_FUNCT3 then
    punt_to_misaligned_handler addr 4 (misaligned_load_trap mcause mepc)
      (let! v := load_int32_t addr mepc in SET_F32_RD insn v)
  else if insn .& MASK_FUNCT3 =? MATCH_FLD .& MASK_FUNCT3 then
    punt_to_misaligned_handler addr 8 (misaligned_load_trap mcause mepc)
      (let! v := load_uint64_t addr mepc in SET_F64_RD insn v)
  else truly_illegal_insn mcause mepc mstatus insn.

Definition emulate_float_store : emulation_func := fun mcause mepc mstatus insn =>
  let! base := GET_RS1 insn in
  let addr := u64 (base + IMM_S insn) in
  if mstatus .& MSTATUS_FS =? 0 then truly_illegal_insn mcause mepc mstatus insn
  else if insn .& MASK_FUNCT3 =? MATCH_FSW .& MASK_FUNCT3 then
    punt_to_misaligned_handler addr 4 (misaligned_store_trap mcause mepc)
      (let! v := GET_F32_RS2 insn in store_uint32_t addr (u32 v) mepc)
  else if insn .& MASK_FUNCT3 =? MATCH_FSD .& MASK_FUNCT3 then
    punt_to_misaligned_handler addr 8 (misaligned_store_trap mcause mepc)
      (let! v := GET_F64_RS2 insn in store_uint64_t addr (u64 v) mepc)
  else truly_illegal_insn mcause mepc mstatus insn.
