(* ===== verification/FpEmulation.v ===== *)
(** * Floating-point emulation ([machine/fp_emulation.c])

    The F and D instructions for harts without an FPU: registers from the save area,
    SoftFloat on them, the rounding mode and the flags in [tp]. *)

From S2P Require Import Prelude FpSpec SfEnv SfAdd SfAddF64 SfMul SfCompare SfConvert SfToInt.
From S2P Require Import SfDiv SfSqrt SfMulAdd SfMulAddF64 Encoding Machine.
From Stdlib Require Import ZArith Lia Bool List.
Import ListNotations.

(** ** Definitions *)

Definition INT32_MIN : Z := - 2 ^ 31.
Definition INT64_MIN : Z := - 2 ^ 63.

Definition emulate_any_fadd (mcause mepc mstatus insn neg_b : Z) : M unit :=
  if GET_PRECISION insn =? PRECISION_S then
    let! rs1 := GET_F32_RS1 insn in
    let! rs2 := GET_F32_RS2 insn in
    let! r := softfloat (f32_add (u32 rs1) (u32 (rs2 .^ neg_b))) in
    SET_F32_RD insn r
  else if GET_PRECISION insn =? PRECISION_D then
    let! rs1 := GET_F64_RS1 insn in
    let! rs2 := GET_F64_RS2 insn in
    let! r := softfloat (f64_add (u64 rs1) (u64 (u64 rs2 .^ u64 (u64 neg_b .<< 32)))) in
    SET_F64_RD insn r
  else truly_illegal_insn mcause mepc mstatus insn.

Definition emulate_fadd : emulation_func := fun mcause mepc mstatus insn =>
  emulate_any_fadd mcause mepc mstatus insn 0.

Definition emulate_fsub : emulation_func := fun mcause mepc mstatus insn =>
  emulate_any_fadd mcause mepc mstatus insn INT32_MIN.

Definition emulate_fmul : emulation_func := fun mcause mepc mstatus insn =>
  if GET_PRECISION insn =? PRECISION_S then
    let! rs1 := GET_F32_RS1 insn in
    let! rs2 := GET_F32_RS2 insn in
    let! r := softfloat (f32_mul (u32 rs1) (u32 rs2)) in
    SET_F32_RD insn r
  else if GET_PRECISION insn =? PRECISION_D then
    let! rs1 := GET_F64_RS1 insn in
    let! rs2 := GET_F64_RS2 insn in
    let! r := softfloat (f64_mul (u64 rs1) (u64 rs2)) in
    SET_F64_RD insn r
  else truly_illegal_insn mcause mepc mstatus insn.

Definition emulate_fdiv : emulation_func := fun mcause mepc mstatus insn =>
  if GET_PRECISION insn =? PRECISION_S then
    let! rs1 := GET_F32_RS1 insn in
    let! rs2 := GET_F32_RS2 insn in
    let! r := softfloat (f32_div (u32 rs1) (u32 rs2)) in
    SET_F32_RD insn r
  else if GET_PRECISION insn =? PRECISION_D then
    let! rs1 := GET_F64_RS1 insn in
    let! rs2 := GET_F64_RS2 insn in
    let! r := softfloat (f64_div (u64 rs1) (u64 rs2)) in
    SET_F64_RD insn r
  else truly_illegal_insn mcause mepc mstatus insn.

Definition emulate_fsqrt : emulation_func := fun mcause mepc mstatus insn =>
  if nz ((insn .>> 20) .& 0x1f) then truly_illegal_insn mcause mepc mstatus insn
  else if GET_PRECISION insn =? PRECISION_S then
    let! rs1 := GET_F32_RS1 insn in
    let! r := softfloat (f32_sqrt (u32 rs1)) in
    SET_F32_RD insn r
  else if GET_PRECISION insn =? PRECISION_D then
    let! rs1 := GET_F64_RS1 insn in
    let! r := softfloat (f64_sqrt (u64 rs1)) in
    SET_F64_RD insn r
  else truly_illegal_insn mcause mepc mstatus insn.

(** [DO_FSGNJ] at width [w]. *)
Definition DO_FSGNJ (w rs1 rs2 rm : Z) : Z :=
  let rs1_sign := rs1 .>> (w - 1) in
  let rs2_sign := rs2 .>> (w - 1) in
  let rs1_sign := rs1_sign .& (rm .>> 1) in
  let rs1_sign := rs1_sign .^ (rm .^ rs2_sign) in
  (wrap w (rs1 .<< 1) .>> 1) .| wrap w (rs1_sign .<< (w - 1)).

Definition emulate_fsgnj : emulation_func := fun mcause mepc mstatus insn =>
  let rm := GET_RM insn in
  if 3 <=? rm then truly_illegal_insn mcause mepc mstatus insn
  else if GET_PRECISION insn =? PRECISION_S then
    let! rs1 := GET_F32_RS1 insn in
    let! rs2 := GET_F32_RS2 insn in
    SET_F32_RD insn (DO_FSGNJ 32 (u32 rs1) (u32 rs2) rm)
  else if GET_PRECISION insn =? PRECISION_D then
    let! rs1 := GET_F64_RS1 insn in
    let! rs2 := GET_F64_RS2 insn in
    SET_F64_RD insn (DO_FSGNJ 64 (u64 rs1) (u64 rs2) rm)
  else truly_illegal_insn mcause mepc mstatus insn.

Definition emulate_fmin : emulation_func := fun mcause mepc mstatus insn =>
  let rm := GET_RM insn in
  if 2 <=? rm then truly_illegal_insn mcause mepc mstatus insn
  else if GET_PRECISION insn =? PRECISION_S then
    let! rs1 := GET_F32_RS1 insn in
    let! rs2 := GET_F32_RS2 insn in
    let rs1 := u32 rs1 in
    let rs2 := u32 rs2 in
    let arg1 := if nz rm then rs2 else rs1 in
    let arg2 := if nz rm then rs1 else rs2 in
    let! lt := softfloat (f32_lt_quiet arg1 arg2) in
    let use_rs1 := lt || isNaNF32UI rs2 in
    SET_F32_RD insn (if use_rs1 then rs1 else rs2)
  else if GET_PRECISION insn =? PRECISION_D then
    let! rs1 := GET_F64_RS1 insn in
    let! rs2 := GET_F64_RS2 insn in
    let rs1 := u64 rs1 in
    let rs2 := u64 rs2 in
    let arg1 := if nz rm then rs2 else rs1 in
    let arg2 := if nz rm then rs1 else rs2 in
    let! lt := softfloat (f64_lt_quiet arg1 arg2) in
    let use_rs1 := lt || isNaNF64UI rs2 in
    SET_F64_RD insn (if use_rs1 then rs1 else rs2)
  else truly_illegal_insn mcause mepc mstatus insn.

Definition emulate_fcvt_ff : emulation_func := fun mcause mepc mstatus insn =>
  let rs2_num := (insn .>> 20) .& 0x1f in
  if GET_PRECISION insn =? PRECISION_S then
    if negb (rs2_num =? 1) then truly_illegal_insn mcause mepc mstatus insn
    else
      let! rs1 := GET_F64_RS1 insn in
      let! r := softfloat (f64_to_f32 (u64 rs1)) in
      SET_F32_RD insn r
  else if GET_PRECISION insn =? PRECISION_D then
    if negb (rs2_num =? 0) then truly_illegal_insn mcause mepc mstatus insn
    else
      let! rs1 := GET_F32_RS1 insn in
      let! r := softfloat (f32_to_f64 (u32 rs1)) in
      SET_F64_RD insn r
  else truly_illegal_insn mcause mepc mstatus insn.

(** The [switch] of [emulate_fcvt_fi]: the sign and the magnitude of the integer. *)
Definition fcvt_fi_operand (kind uint_val : Z) : option (bool * Z) :=
  if kind =? 0 then
    let negative := i32 uint_val <? 0 in
    Some (negative, u32 (if negative then u64 (- uint_val) else uint_val))
  else if kind =? 1 then Some (false, u32 uint_val)
  else if kind =? 2 then
    let negative := i64 uint_val <? 0 in
    Some (negative, if negative then u64 (- uint_val) else uint_val)
  else if kind =? 3 then Some (false, uint_val)
  else None.

Definition emulate_fcvt_fi : emulation_func := fun mcause mepc mstatus insn =>
  if negb (GET_PRECISION insn =? PRECISION_S) && negb (GET_PRECISION insn =? PRECISION_D)
  then truly_illegal_insn mcause mepc mstatus insn
  else
    let! rs1 := GET_RS1 insn in
    match fcvt_fi_operand ((insn .>> 20) .& 0x1f) rs1 with
    | None => truly_illegal_insn mcause mepc mstatus insn
    | Some (negative, uint_val) =>
        let! float64 := softfloat (ui64_to_f64 uint_val) in
        let float64 := if negative then u64 (float64 .^ u64 INT64_MIN) else float64 in
        if GET_PRECISION insn =? PRECISION_S then
          let! r := softfloat (f64_to_f32 float64) in
          SET_F32_RD insn r
        else SET_F64_RD insn float64
    end.

(** The [switch] of [emulate_fcvt_if]: the result, the limit and the result beyond it. *)
Definition fcvt_if_result (rs2_num : Z) (negative : bool) (uint_val : Z) : Z * Z * Z :=
  if rs2_num =? 0 then
    if negative then (u64 (i32 (- uint_val)), u32 INT32_MIN, u32 INT32_MIN)
    else (u64 (i32 uint_val), 2 ^ 31 - 1, 2 ^ 31 - 1)
  else if rs2_num =? 1 then
    if negative then (0, 0, 2 ^ 32 - 1) else (u32 uint_val, 2 ^ 32 - 1, 2 ^ 32 - 1)
  else if rs2_num =? 2 then
    if negative then (u64 (- uint_val), u64 INT64_MIN, u64 INT64_MIN)
    else (uint_val, 2 ^ 63 - 1, 2 ^ 63 - 1)
  else
    if negative then (0, 0, 2 ^ 64 - 1) else (uint_val, 2 ^ 64 - 1, 2 ^ 64 - 1).

Definition emulate_fcvt_if : emulation_func := fun mcause mepc mstatus insn =>
  let rs2_num := (insn .>> 20) .& 0x1f in
  if 4 <=? rs2_num then truly_illegal_insn mcause mepc mstatus insn
  else
    let! float64 :=
      if GET_PRECISION insn =? PRECISION_S then
        let! rs1 := GET_F32_RS1 insn in
        softfloat (f32_to_f64 (u32 rs1))
      else if GET_PRECISION insn =? PRECISION_D then
        let! rs1 := GET_F64_RS1 insn in
        done (u64 rs1)
      else truly_illegal_insn mcause mepc mstatus insn in
    let negative := i64 float64 <? 0 in
    let float64 := if negative then u64 (float64 .^ u64 INT64_MIN) else float64 in
    let! mode := (fun m => Done (rounding_mode m) m) in
    let! uint_val := softfloat (f64_to_ui64 float64 mode true) in
    let '(result, limit, limit_result) := fcvt_if_result rs2_num negative uint_val in
    let! result :=
      if limit <? uint_val then
        do! softfloat (softfloat_raiseFlags softfloat_flag_invalid) in
        done limit_result
      else done result in
    do! SET_FS_DIRTY in
    SET_RD insn result.

(** [rm] selects [fle], [flt] and [feq]; [result] is the flag of an uncalled comparison
    only where the code does not read it. *)
Definition emulate_fcmp : emulation_func := fun mcause mepc mstatus insn =>
  let rm := GET_RM insn in
  let compare (eq lt : fp bool) : M bool :=
    let! result := if negb (rm =? 1) then softfloat eq else done false in
    if (rm =? 1) || ((rm =? 0) && negb result) then softfloat lt else done result in
  let success (result : bool) : M unit :=
    do! SET_FS_DIRTY in SET_RD insn (b2z result) in
  if 3 <=? rm then truly_illegal_insn mcause mepc mstatus insn
  else if GET_PRECISION insn =? PRECISION_S then
    let! rs1 := GET_F32_RS1 insn in
    let! rs2 := GET_F32_RS2 insn in
    let! result := compare (f32_eq (u32 rs1) (u32 rs2)) (f32_lt (u32 rs1) (u32 rs2)) in
    success result
  else if GET_PRECISION insn =? PRECISION_D then
    let! rs1 := GET_F64_RS1 insn in
    let! rs2 := GET_F64_RS2 insn in
    let! result := compare (f64_eq (u64 rs1) (u64 rs2)) (f64_lt (u64 rs1) (u64 rs2)) in
    success result
  else truly_illegal_insn mcause mepc mstatus insn.

Definition emulate_fmv_if : emulation_func := fun mcause mepc mstatus insn =>
  let success (result : Z) : M unit := do! SET_FS_DIRTY in SET_RD insn result in
  if nz ((insn .>> 20) .& 0x1f) then truly_illegal_insn mcause mepc mstatus insn
  else if GET_PRECISION insn =? PRECISION_S then
    let! result := GET_F32_RS1 insn in
    if GET_RM insn =? GET_RM MATCH_FMV_X_W then success result
    else if GET_RM insn =? GET_RM MATCH_FCLASS_S then success (f32_classify (u32 result))
    else truly_illegal_insn mcause mepc mstatus insn
  else if GET_PRECISION insn =? PRECISION_D then
    let! result := GET_F64_RS1 insn in
    if GET_RM insn =? GET_RM MATCH_FMV_X_D then success result
    else if GET_RM insn =? GET_RM MATCH_FCLASS_D then success (f64_classify (u64 result))
    else truly_illegal_insn mcause mepc mstatus insn
  else truly_illegal_insn mcause mepc mstatus insn.

Definition emulate_fmv_fi : emulation_func := fun mcause mepc mstatus insn =>
  let! rs1 := GET_RS1 insn in
  if matches insn MASK_FMV_W_X MATCH_FMV_W_X then SET_F32_RD insn rs1
  else if matches insn MASK_FMV_D_X MATCH_FMV_D_X then SET_F64_RD insn rs1
  else truly_illegal_insn mcause mepc mstatus insn.

Definition GET_F32_RS3 (insn : Z) : M Z := GET_F32_REG insn 27.
Definition GET_F64_RS3 (insn : Z) : M Z := GET_F64_REG insn 27.

Definition emulate_fmadd : emulation_func := fun mcause mepc mstatus insn =>
  if mstatus .& MSTATUS_FS =? 0 then truly_illegal_insn mcause mepc mstatus insn
  else
    let negA := nz ((insn .>> 3) .& 1) in
    let negC := nz ((insn .>> 2) .& 1) in
    let! ok := SETUP_STATIC_ROUNDING insn in
    if negb ok then truly_illegal_insn mcause mepc mstatus insn
    else if GET_PRECISION insn =? PRECISION_S then
      let! f1 := GET_F32_RS1 insn in
      let! f2 := GET_F32_RS2 insn in
      let! f3 := GET_F32_RS3 insn in
      let rs1 := u32 (f1 .^ (if negA then INT32_MIN else 0)) in
      let rs2 := u32 f2 in
      let rs3 := u32 (f3 .^ (if negC then INT32_MIN else 0)) in
      let! r := softfloat (softfloat_mulAddF32 rs1 rs2 rs3 0) in
      SET_F32_RD insn r
    else if GET_PRECISION insn =? PRECISION_D then
      let! f1 := GET_F64_RS1 insn in
      let! f2 := GET_F64_RS2 insn in
      let! f3 := GET_F64_RS3 insn in
      let rs1 := u64 (f1 .^ (if negA then INT64_MIN else 0)) in
      let rs2 := u64 f2 in
      let rs3 := u64 (f3 .^ (if negC then INT64_MIN else 0)) in
      let! r := softfloat (softfloat_mulAddF64 rs1 rs2 rs3 0) in
      SET_F64_RD insn r
    else truly_illegal_insn mcause mepc mstatus insn.

(** [fp_emulation_table], indexed by the upper five bits of [funct7]. *)
Definition fp_emulation_table : list emulation_func := [
  emulate_fadd; emulate_fsub; emulate_fmul; emulate_fdiv;
  emulate_fsgnj; emulate_fmin; truly_illegal_insn; truly_illegal_insn;
  emulate_fcvt_ff; truly_illegal_insn; truly_illegal_insn; emulate_fsqrt;
  truly_illegal_insn; truly_illegal_insn; truly_illegal_insn; truly_illegal_insn;
  truly_illegal_insn; truly_illegal_insn; truly_illegal_insn; truly_illegal_insn;
  emulate_fcmp; truly_illegal_insn; truly_illegal_insn; truly_illegal_insn;
  emulate_fcvt_if; truly_illegal_insn; emulate_fcvt_fi; truly_illegal_insn;
  emulate_fmv_if; truly_illegal_insn; emulate_fmv_fi; truly_illegal_insn].

Definition emulate_fp : emulation_func := fun mcause mepc mstatus insn =>
  if mstatus .& MSTATUS_FS =? 0 then truly_illegal_insn mcause mepc mstatus insn
  else
    let f := nth (Z.to_nat (((insn .>> 25) .& 0x7c) / 4)) fp_emulation_table truly_illegal_insn in
    let! ok := SETUP_STATIC_ROUNDING insn in
    if negb ok then truly_illegal_insn mcause mepc mstatus insn
    else f mcause mepc mstatus insn.
