(* ===== verification/Emulation.v ===== *)
(** * Illegal-instruction traps ([machine/emulation.c])

    The dispatch of an illegal instruction to its emulation, the compressed
    floating-point loads and stores, and the control and status registers. *)

From S2P Require Import Prelude Encoding Machine MulDiv Misaligned FpLdst FpEmulation.
From Stdlib Require Import ZArith Lia Bool List.
Import ListNotations.

(** ** Definitions *)

Definition emulate_rvc : emulation_func := fun mcause mepc mstatus insn =>
  do! write_csr Mepc (mepc + 2) in
  if mstatus .& MSTATUS_FS =? 0 then truly_illegal_insn mcause mepc mstatus insn
  else if matches insn MASK_C_FLD MATCH_C_FLD then
    let! base := GET_RS1S insn in
    let addr := u64 (base + RVC_LD_IMM insn) in
    if nz (addr mod 8) then misaligned_load_trap mcause mepc
    else let! v := load_uint64_t addr mepc in SET_F64_RD (u64 (RVC_RS2S insn .<< SH_RD)) v
  else if matches insn MASK_C_FLDSP MATCH_C_FLDSP then
    let! base := GET_SP in
    let addr := u64 (base + RVC_LDSP_IMM insn) in
    if nz (addr mod 8) then misaligned_load_trap mcause mepc
    else let! v := load_uint64_t addr mepc in SET_F64_RD insn v
  else if matches insn MASK_C_FSD MATCH_C_FSD then
    let! base := GET_RS1S insn in
    let addr := u64 (base + RVC_LD_IMM insn) in
    if nz (addr mod 8) then misaligned_store_trap mcause mepc
    else let! v := GET_F64_RS2 (u64 (RVC_RS2S insn .<< SH_RS2)) in store_uint64_t addr (u64 v) mepc
  else if matches insn MASK_C_FSDSP MATCH_C_FSDSP then
    let! base := GET_SP in
    let addr := u64 (base + RVC_SDSP_IMM insn) in
    if nz (addr mod 8) then misaligned_store_trap mcause mepc
    else let! v := GET_F64_RS2 (u64 (RVC_RS2 insn .<< SH_RS2)) in store_uint64_t addr (u64 v) mepc
  else truly_illegal_insn mcause mepc mstatus insn.

(** [None]: the function returns [-1]. *)
Definition emulate_read_csr (num mstatus : Z) : M (option Z) :=
  let! counteren :=
    if EXTRACT_FIELD mstatus MSTATUS_MPP =? PRV_U then read_csr Scounteren
    else done (u64 (-1)) in
  let counter (bit : Z) (read : M Z) : M (option Z) :=
    if negb (nz ((counteren .>> bit) .& 1)) then done None
    else let! v := read in done (Some v) in
  let fcsr (read : M Z) : M (option Z) :=
    if mstatus .& MSTATUS_FS =? 0 then done None
    else let! v := read in done (Some v) in
  if num =? CSR_CYCLE then counter (CSR_CYCLE - CSR_CYCLE) (read_csr Mcycle)
  else if num =? CSR_TIME then counter (CSR_TIME - CSR_CYCLE) (fun m => Done (mtime m) m)
  else if num =? CSR_INSTRET then counter (CSR_INSTRET - CSR_CYCLE) (read_csr Minstret)
  else if num =? CSR_MHPMCOUNTER3 then
    counter (3 + CSR_MHPMCOUNTER3 - CSR_MHPMCOUNTER3) (read_csr Mhpmcounter3)
  else if num =? CSR_MHPMCOUNTER4 then
    counter (3 + CSR_MHPMCOUNTER4 - CSR_MHPMCOUNTER3) (read_csr Mhpmcounter4)
  else if num =? CSR_MHPMEVENT3 then let! v := read_csr Mhpmevent3 in done (Some v)
  else if num =? CSR_MHPMEVENT4 then let! v := read_csr Mhpmevent4 in done (Some v)
  else if num =? CSR_FRM then fcsr GET_FRM
  else if num =? CSR_FFLAGS then fcsr GET_FFLAGS
  else if num =? CSR_FCSR then fcsr GET_FCSR
  else done None.

(** [true]: the function returns [0]; [false]: [-1]. *)
Definition emulate_write_csr (num value mstatus : Z) : M bool :=
  if num =? CSR_CYCLE then do! write_csr Mcycle value in done true
  else if num =? CSR_INSTRET then do! write_csr Minstret value in done true
  else if num =? CSR_MHPMCOUNTER3 then do! write_csr Mhpmcounter3 value in done true
  else if num =? CSR_MHPMCOUNTER4 then do! write_csr Mhpmcounter4 value in done true
  else if num =? CSR_MHPMEVENT3 then do! write_csr Mhpmevent3 value in done true
  else if num =? CSR_MHPMEVENT4 then do! write_csr Mhpmevent4 value in done true
  else if num =? CSR_FRM then do! SET_FRM value in done true
  else if num =? CSR_FFLAGS then do! SET_FFLAGS value in done true
  else if num =? CSR_FCSR then do! SET_FCSR value in done true
  else done false.

(** The [switch] on [GET_RM]: the new value and whether it is written. *)
Definition system_new_csr_val (rm csr_val rs1_val rs1_num : Z) : option (Z * bool) :=
  let do_write := nz rs1_num in
  if rm =? 1 then Some (rs1_val, true)
  else if rm =? 2 then Some (csr_val .| rs1_val, do_write)
  else if rm =? 3 then Some (csr_val .& u64 (.~ rs1_val), do_write)
  else if rm =? 5 then Some (rs1_num, true)
  else if rm =? 6 then Some (csr_val .| rs1_num, do_write)
  else if rm =? 7 then Some (csr_val .& u64 (.~ rs1_num), do_write)
  else None.

Definition emulate_system_opcode : emulation_func := fun mcause mepc mstatus insn =>
  let rs1_num := (insn .>> 15) .& 0x1f in
  let! rs1_val := GET_RS1 insn in
  let csr_num := u32 insn .>> 20 in
  let! read := emulate_read_csr csr_num mstatus in
  match read with
  | None => truly_illegal_insn mcause mepc mstatus insn
  | Some csr_val =>
      match system_new_csr_val (GET_RM insn) csr_val rs1_val rs1_num with
      | None => truly_illegal_insn mcause mepc mstatus insn
      | Some (new_csr_val, do_write) =>
          let! ok := if do_write then emulate_write_csr csr_num new_csr_val mstatus
                     else done true in
          if negb ok then truly_illegal_insn mcause mepc mstatus insn
          else SET_RD insn csr_val
      end
  end.

(** [illegal_insn_trap_table], indexed by the upper five bits of the major opcode. *)
Definition illegal_insn_trap_table : list emulation_func := [
  truly_illegal_insn; emulate_float_load; truly_illegal_insn; truly_illegal_insn;
  truly_illegal_insn; truly_illegal_insn; truly_illegal_insn; truly_illegal_insn;
  truly_illegal_insn; emulate_float_store; truly_illegal_insn; truly_illegal_insn;
  emulate_mul_div; truly_illegal_insn; emulate_mul_div32; truly_illegal_insn;
  emulate_fmadd; emulate_fmadd; emulate_fmadd; emulate_fmadd;
  emulate_fp; truly_illegal_insn; truly_illegal_insn; truly_illegal_insn;
  truly_illegal_insn; truly_illegal_insn; truly_illegal_insn; truly_illegal_insn;
  emulate_system_opcode; truly_illegal_insn; truly_illegal_insn; truly_illegal_insn].

Definition illegal_insn_trap (mcause mepc : Z) : M unit :=
  let! mstatus := read_csr Mstatus in
  let! insn := read_csr Mbadaddr in
  let dispatch (mstatus insn : Z) : M unit :=
    do! write_csr Mepc (mepc + 4) in
    let f := nth (Z.to_nat ((insn .& 0x7c) / 4)) illegal_insn_trap_table truly_illegal_insn in
    f mcause mepc mstatus insn in
  if negb (insn .& 3 =? 3) then
    let! fetched := if insn =? 0 then get_insn mepc else done (insn, mstatus) in
    let '(insn, mstatus) := fetched in
    if negb (insn .& 3 =? 3) then emulate_rvc mcause mepc mstatus insn
    else dispatch mstatus insn
  else dispatch mstatus insn.
