(* ===== verification/Csr.v ===== *)
(** * The emulated control and status registers

    What [emulate_read_csr], [emulate_write_csr] and [emulate_system_opcode] of
    [machine/emulation.c] do, against the registers seen as fields of the state. *)

From S2P Require Import Prelude Encoding Machine Emulation.
From Stdlib Require Import ZArith Lia Bool List.

(** ** The register file, as the interrupted context sees it *)

Definition user_trap (mstatus : Z) : bool := field mstatus 11 2 =? 0.
Definition fp_off (mstatus : Z) : bool := field mstatus 13 2 =? 0.

(** In user mode a counter is visible when its bit of [scounteren] is set. *)
Definition visible (m : machine) (mstatus bit : Z) : bool :=
  negb (user_trap mstatus) || Z.testbit (csrs m Scounteren) bit.

Definition csr_read (m : machine) (mstatus num : Z) : option Z :=
  let counter bit v := if visible m mstatus bit then Some v else None in
  let fcsr v := if fp_off mstatus then None else Some v in
  if num =? 0xc00 then counter 0 (csrs m Mcycle)
  else if num =? 0xc01 then counter 1 (mtime m)
  else if num =? 0xc02 then counter 2 (csrs m Minstret)
  else if num =? 0xb03 then counter 3 (csrs m Mhpmcounter3)
  else if num =? 0xb04 then counter 4 (csrs m Mhpmcounter4)
  else if num =? 0x323 then Some (csrs m Mhpmevent3)
  else if num =? 0x324 then Some (csrs m Mhpmevent4)
  else if num =? 2 then fcsr (field (tp m) 5 3)
  else if num =? 1 then fcsr (field (tp m) 0 5)
  else if num =? 3 then fcsr (field (tp m) 0 8)
  else None.

Definition set_fcsr (v : Z) (m : machine) : machine :=
  put_csr Mstatus (csrs m Mstatus .| MSTATUS_FS) (set_tp v m).

Definition csr_write (m : machine) (num v : Z) : option machine :=
  if num =? 0xc00 then Some (put_csr Mcycle v m)
  else if num =? 0xc02 then Some (put_csr Minstret v m)
  else if num =? 0xb03 then Some (put_csr Mhpmcounter3 v m)
  else if num =? 0xb04 then Some (put_csr Mhpmcounter4 v m)
  else if num =? 0x323 then Some (put_csr Mhpmevent3 v m)
  else if num =? 0x324 then Some (put_csr Mhpmevent4 v m)
  else if num =? 2 then Some (set_fcsr (v mod 8 * 32 + field (tp m) 0 5) m)
  else if num =? 1 then Some (set_fcsr (field (tp m) 5 3 * 32 + v mod 32) m)
  else if num =? 3 then Some (set_fcsr (v mod 256) m)
  else None.

(** Replace, set or clear bits. *)
Definition csr_combine (op old src : Z) : Z :=
  if op =? 1 then src else if op =? 2 then old .| src else Z.ldiff old src.

(** The instructions of the major opcode [SYSTEM] on the register file. *)
Definition csr_insn (m : machine) (mstatus insn : Z) : option machine :=
  let num := field insn 20 12 in
  let op := funct3 insn mod 4 in
  let immediate := 4 <=? funct3 insn in
  let src := if immediate then rs1 insn else xregs m (rs1 insn) in
  match csr_read m mstatus num with
  | None => None
  | Some old =>
      if op =? 0 then None
      else if (op =? 1) || nz (rs1 insn) then
        match csr_write m num (csr_combine op old src) with
        | Some m' => Some (set_xreg (rd insn) old m')
        | None => None
        end
      else Some (set_xreg (rd insn) old m)
  end.

(** ** The code computes it *)

Lemma field_and_zero x lo n : 0 <= lo -> 0 <= n ->
  (x .& ((2 ^ n - 1) * 2 ^ lo) =? 0) = (field x lo n =? 0).
Proof.
  intros Hl Hn; rewrite <- (Z.add_0_r (_ * 2 ^ lo)), land_split, Z.land_0_r, land_ones_mod by
    (try split; try apply pow2_pos; lia).
  fold (field x lo n); pose proof (pow2_pos lo Hl).
  apply eq_true_iff_eq; rewrite !Z.eqb_eq; rewrite Z.add_0_r; split; [|intros ->; reflexivity].
  intros E; apply Z.eq_mul_0 in E; lia.
Qed.

Lemma fp_off_test mstatus : (mstatus .& MSTATUS_FS =? 0) = fp_off mstatus.
Proof. apply (field_and_zero mstatus 13 2); lia. Qed.

Lemma mpp_test mstatus : (EXTRACT_FIELD mstatus MSTATUS_MPP =? PRV_U) = user_trap mstatus.
Proof.
  unfold EXTRACT_FIELD, user_trap, PRV_U.
  change (MSTATUS_MPP .& u64 (.~ (MSTATUS_MPP - 1))) with (2 ^ 11).
  change MSTATUS_MPP with ((2 ^ 2 - 1) * 2 ^ 11 + 0).
  rewrite land_split, Z.land_0_r, Z.add_0_r, Z.div_mul, land_ones_mod by lia; reflexivity.
Qed.

Lemma bit_test x i : 0 <= i -> nz ((x .>> i) .& 1) = Z.testbit x i.
Proof.
  intros Hi; rewrite (land_ones_mod _ 1) by lia; unfold nz.
  rewrite <- (Z.add_0_l i) at 2; rewrite <- Z.shiftr_spec by lia.
  rewrite Z.bit0_odd; change (2 ^ 1) with 2; rewrite Zmod_odd.
  destruct (Z.odd _); reflexivity.
Qed.

Lemma minus_one_bits i : 0 <= i < 64 -> Z.testbit (u64 (-1)) i = true.
Proof.
  intros; change (u64 (-1)) with (Z.ones 64); apply Z.ones_spec_low; lia.
Qed.

Lemma fcsr_field x : x .& 0xFF = field x 0 8.
Proof. unfold field; rewrite Z.div_1_r; apply (land_ones_mod x 8); lia. Qed.

Lemma frm_field x : (x .& 0xFF) .>> 5 = field x 5 3.
Proof.
  rewrite fcsr_field, shiftr_div by lia; unfold field; rewrite Z.div_1_r.
  change (2 ^ 8) with (2 ^ 5 * 2 ^ 3); rewrite Z.rem_mul_r, Z.mul_comm, Z.div_add by lia.
  rewrite Z.div_small; [reflexivity|apply Z.mod_pos_bound; lia].
Qed.

Lemma fflags_field x : (x .& 0xFF) .& 0x1F = field x 0 5.
Proof.
  rewrite <- Z.land_assoc; change (0xFF .& 0x1F) with (2 ^ 5 - 1).
  unfold field; rewrite Z.div_1_r; apply land_ones_mod; lia.
Qed.

Lemma run_GET_FCSR m : GET_FCSR m = Done (field (tp m) 0 8) m.
Proof. unfold GET_FCSR; rewrite fcsr_field; reflexivity. Qed.

Lemma run_GET_FRM m : GET_FRM m = Done (field (tp m) 5 3) m.
Proof. unfold GET_FRM, GET_FCSR; mrun; rewrite frm_field; reflexivity. Qed.

Lemma run_GET_FFLAGS m : GET_FFLAGS m = Done (field (tp m) 0 5) m.
Proof. unfold GET_FFLAGS, GET_FCSR; mrun; rewrite fflags_field; reflexivity. Qed.

Lemma run_SET_FCSR v m : SET_FCSR v m = Done tt (set_fcsr (v mod 256) m).
Proof.
  unfold SET_FCSR, SET_FS_DIRTY; mrun.
  change (v .& 0xFF) with (v .& (2 ^ 8 - 1)); rewrite land_ones_mod by lia; reflexivity.
Qed.
#[local] Hint Rewrite run_GET_FCSR run_GET_FRM run_GET_FFLAGS run_SET_FCSR : mach.

Lemma run_emulate_read_csr num mstatus m :
  emulate_read_csr num mstatus m = Done (csr_read m mstatus num) m.
Proof.
  unfold emulate_read_csr, csr_read, visible; rewrite mpp_test, fp_off_test.
  destruct (user_trap mstatus); mrun; rewrite !bit_test by (vm_compute; congruence);
    rewrite ?minus_one_bits by (vm_compute; intuition congruence); cbn [negb orb];
    unfold CSR_CYCLE, CSR_TIME, CSR_INSTRET, CSR_MHPMCOUNTER3, CSR_MHPMCOUNTER4, CSR_MHPMEVENT3,
      CSR_MHPMEVENT4, CSR_FRM, CSR_FFLAGS, CSR_FCSR;
    repeat (case (num =? _); mrun; [try reflexivity; cbn [Z.add Z.sub];
      try (destruct (Z.testbit _ _); reflexivity);
      destruct (fp_off mstatus); mrun; reflexivity|]); reflexivity.
Qed.

(** Recombining the two fields of the FCSR. *)
Lemma frm_combine v t : (field t 0 5 .| u64 (v .<< 5)) mod 256 = v mod 8 * 32 + field t 0 5.
Proof.
  rewrite shiftl_mul by lia.
  pose proof (field_range t 0 5 ltac:(lia)) as R; change (2 ^ 5) with 32 in *.
  replace (u64 (v * 32)) with (v mod 2 ^ 59 * 2 ^ 5)
    by (unfold u64, wrap; change (2 ^ 64) with (2 ^ 59 * 32); rewrite Z.mul_mod_distr_r; lia).
  rewrite Z.lor_comm, lor_add_disjoint by (change (2 ^ 5) with 32; lia).
  change (2 ^ 5) with 32; change 256 with (32 * 8).
  rewrite (Z.add_comm (v mod 2 ^ 59 * 32)), Z.rem_mul_r, Z.mod_add, Z.div_add by lia.
  rewrite (Z.div_small (field t 0 5)), (Z.mod_small (field t 0 5)), Z.add_0_l by lia.
  change (2 ^ 59) with (8 * 2 ^ 56); rewrite Z.rem_mul_r by lia.
  rewrite (Z.mul_comm 8 (_ mod _)), Z.mod_add, Z.mod_mod by lia; lia.
Qed.

Lemma fflags_combine v t :
  ((field t 5 3 .<< 5) .| (v .& 0x1F)) mod 256 = field t 5 3 * 32 + v mod 32.
Proof.
  change (v .& 0x1F) with (v .& (2 ^ 5 - 1)); rewrite shiftl_mul, land_ones_mod by lia.
  pose proof (field_range t 5 3 ltac:(lia)) as R; pose proof (Z.mod_pos_bound v 32 ltac:(lia)).
  rewrite lor_add_disjoint by (change (2 ^ 5) with 32; lia).
  change (2 ^ 5) with 32; change (2 ^ 3) with 8 in R; rewrite Z.mod_small by lia; reflexivity.
Qed.

Lemma run_emulate_write_csr num value mstatus m :
  0 <= value < 2 ^ 64 ->
  emulate_write_csr num value mstatus m =
    match csr_write m num value with
    | Some m' => Done true m'
    | None => Done false m
    end.
Proof.
  intros Hv; unfold emulate_write_csr, csr_write, SET_FRM, SET_FFLAGS; mrun.
  unfold CSR_CYCLE, CSR_INSTRET, CSR_MHPMCOUNTER3, CSR_MHPMCOUNTER4, CSR_MHPMEVENT3,
    CSR_MHPMEVENT4, CSR_FRM, CSR_FFLAGS, CSR_FCSR.
  repeat (case (num =? _); mrun;
    [rewrite ?(u64_small value), ?frm_combine, ?fflags_combine by lia; reflexivity|]).
  reflexivity.
Qed.

Lemma csr_read_range m mstatus num v :
  wf m -> csr_read m mstatus num = Some v -> 0 <= v < 2 ^ 64.
Proof.
  intros W; unfold csr_read.
  pose proof (field_range (tp m) 0 8 ltac:(lia)); pose proof (field_range (tp m) 0 5 ltac:(lia));
    pose proof (field_range (tp m) 5 3 ltac:(lia)).
  repeat match goal with
         | |- (if ?b then _ else _) = Some v -> _ => destruct b
         end; intros [= <-]; try apply W; lia.
Qed.

Lemma csr_combine_range op old src :
  0 <= old < 2 ^ 64 -> 0 <= src < 2 ^ 64 -> 0 <= csr_combine op old src < 2 ^ 64.
Proof.
  intros Ho Hs; unfold csr_combine; destruct (op =? 1); [assumption|]; destruct (op =? 2).
  - apply lor_range; lia.
  - rewrite Z.ldiff_land; apply land_range_l; lia.
Qed.

Lemma land_u64_lnot a b : 0 <= a < 2 ^ 64 -> a .& u64 (.~ b) = Z.ldiff a b.
Proof.
  intros Ha; rewrite Z.ldiff_land; apply Z.bits_inj'; intros i Hi.
  rewrite !Z.land_spec; unfold u64, wrap; destruct (Z.lt_ge_cases i 64).
  - rewrite Z.mod_pow2_bits_low by lia; reflexivity.
  - rewrite (range_bits 64 a) by lia; reflexivity.
Qed.

(** The write and the result of an instruction, once the old value is known. *)
Lemma run_csr_update mcause mepc mstatus insn num op old src (do_write : bool) m :
  0 <= old < 2 ^ 64 -> 0 <= src < 2 ^ 64 ->
  mbind (if do_write then emulate_write_csr num (csr_combine op old src) mstatus else done true)
    (fun ok => if negb ok then truly_illegal_insn mcause mepc mstatus insn
               else SET_RD insn old) m =
  match (if do_write then
           match csr_write m num (csr_combine op old src) with
           | Some m' => Some (set_xreg (rd insn) old m')
           | None => None
           end
         else Some (set_xreg (rd insn) old m)) with
  | Some m' => Done tt m'
  | None => Redirected (delegated mepc mstatus insn m)
  end.
Proof.
  intros Ho Hs; destruct do_write; mrun.
  - rewrite run_emulate_write_csr by (apply csr_combine_range; assumption).
    destruct (csr_write _ _ _); cbn [negb]; mrun; [rewrite u64_small by lia|]; reflexivity.
  - cbn [negb]; mrun; rewrite u64_small by lia; reflexivity.
Qed.

Lemma run_emulate_system_opcode mcause mepc mstatus insn m :
  wf m -> 0 <= insn < 2 ^ 32 ->
  emulate_system_opcode mcause mepc mstatus insn m =
    match csr_insn m mstatus insn with
    | Some m' => Done tt m'
    | None => Redirected (delegated mepc mstatus insn m)
    end.
Proof.
  intros W Hi; unfold emulate_system_opcode, csr_insn.
  change ((insn .>> 15) .& 0x1f) with ((insn .>> 15) .& (2 ^ 5 - 1)).
  rewrite shift_land_field, GET_RM_field, (u32_small insn) by lia.
  fold (rs1 insn).
  replace (insn .>> 20) with (field insn 20 12)
    by (unfold field; rewrite shiftr_div, Z.mod_small; auto; Z.div_mod_to_equations; lia).
  erewrite run_bind by apply run_GET_RS1; erewrite run_bind by apply run_emulate_read_csr.
  destruct (csr_read m mstatus (field insn 20 12)) as [old|] eqn:R; [|reflexivity].
  pose proof (csr_read_range m mstatus _ old W R) as Ho.
  pose proof (wf_xregs m W (rs1 insn)) as Hx.
  pose proof (field_range insn 15 5 ltac:(lia)) as Hr; fold (rs1 insn) in Hr.
  unfold system_new_csr_val; rewrite !land_u64_lnot by lia.
  destruct (funct3_cases insn) as [E|[E|[E|[E|[E|[E|[E|E]]]]]]]; rewrite E; ceval; try reflexivity.
  - apply (run_csr_update _ _ _ _ _ 1 old (xregs m (rs1 insn)) true); assumption.
  - apply (run_csr_update _ _ _ _ _ 2 old (xregs m (rs1 insn))); assumption.
  - apply (run_csr_update _ _ _ _ _ 3 old (xregs m (rs1 insn))); assumption.
  - apply (run_csr_update _ _ _ _ _ 1 old (rs1 insn) true); [assumption|lia].
  - apply (run_csr_update _ _ _ _ _ 2 old (rs1 insn)); [assumption|lia].
  - apply (run_csr_update _ _ _ _ _ 3 old (rs1 insn)); [assumption|lia].
Qed.

(** ** Properties *)

(** C23: the CSR instructions.  For every 32-bit word of the major opcode [SYSTEM] the
    handler performs the read, the replacement, setting or clearing of bits and the write
    on the register file as the context sees it (the counters that [scounteren] shows to
    user mode, the floating-point registers when the unit is on), with the old value in
    [rd], or it delegates the trap with the state unchanged. *)
Theorem csr_emulation_correct mcause mepc mstatus insn m :
  wf m -> 0 <= insn < 2 ^ 32 ->
  emulate_system_opcode mcause mepc mstatus insn m =
    match csr_insn m mstatus insn with
    | Some m' => Done tt m'
    | None => Redirected (delegated mepc mstatus insn m)
    end.
Proof. apply run_emulate_system_opcode. Qed.

(** [csrrs x5, cycle, x0] in user mode, with the counter visible. *)
Lemma csr_emulation_correct_witness :
  let m := put_csr Scounteren 1 (put_csr Mcycle 1234 blank) in
  exists m', emulate_system_opcode 2 0 0 0xc00022f3 m = Done tt m' /\ xregs m' 5 = 1234.
Proof.
  intros m; assert (W : wf m) by (apply wf_put_csr; [apply wf_put_csr; auto with wf; lia|lia]).
  eexists; split; [rewrite (csr_emulation_correct 2 0 0 0xc00022f3 m W ltac:(lia)); reflexivity|].
  reflexivity.
Defined.

Lemma fcsr_fields hi lo :
  0 <= hi < 8 -> 0 <= lo < 32 ->
  field (hi * 32 + lo) 5 3 = hi /\ field (hi * 32 + lo) 0 5 = lo /\
  field (hi * 32 + lo) 0 8 = hi * 32 + lo.
Proof.
  intros; unfold field; change (2 ^ 0) with 1; change (2 ^ 5) with 32; change (2 ^ 3) with 8;
    change (2 ^ 8) with 256.
  rewrite !Z.div_1_r, (Z.add_comm (hi * 32)), Z.div_add, Z.mod_add, (Z.div_small lo) by lia.
  rewrite !Z.mod_small by lia; lia.
Qed.

Lemma set_fcsr_tp v m : tp (set_fcsr v m) = v.
Proof. reflexivity. Qed.

(** The emulated FCSR is its two fields.  Writing [frm] or [fflags] sets that field,
    truncated, and keeps the other; writing [fcsr] sets both; each reads back. *)
Lemma fcsr_write_read (v mstatus : Z) (m : machine) :
  0 <= v < 2 ^ 64 -> fp_off mstatus = false ->
  let frm := field (tp m) 5 3 in
  let fflags := field (tp m) 0 5 in
  let reads m frm fflags :=
    emulate_read_csr CSR_FRM mstatus m = Done (Some frm) m /\
    emulate_read_csr CSR_FFLAGS mstatus m = Done (Some fflags) m /\
    emulate_read_csr CSR_FCSR mstatus m = Done (Some (frm * 32 + fflags)) m in
  (exists m', emulate_write_csr CSR_FRM v mstatus m = Done true m' /\
              reads m' (v mod 8) fflags) /\
  (exists m', emulate_write_csr CSR_FFLAGS v mstatus m = Done true m' /\
              reads m' frm (v mod 32)) /\
  (exists m', emulate_write_csr CSR_FCSR v mstatus m = Done true m' /\
              reads m' (v / 32 mod 8) (v mod 32)).
Proof.
  intros Hv Hf frm fflags reads.
  assert (R : forall hi lo, 0 <= hi < 8 -> 0 <= lo < 32 -> reads (set_fcsr (hi * 32 + lo) m) hi lo).
  { intros hi lo Hh Hl; unfold reads; rewrite !run_emulate_read_csr.
    unfold csr_read; rewrite set_fcsr_tp, Hf; ceval.
    destruct (fcsr_fields hi lo Hh Hl) as (-> & -> & ->); auto. }
  pose proof (field_range (tp m) 0 5 ltac:(lia)); pose proof (field_range (tp m) 5 3 ltac:(lia)).
  pose proof (Z.mod_pos_bound v 8 ltac:(lia)); pose proof (Z.mod_pos_bound v 32 ltac:(lia)).
  rewrite !run_emulate_write_csr by assumption; unfold csr_write; ceval.
  split; [|split]; (eexists; split; [reflexivity|]).
  - apply R; [lia|exact H].
  - apply R; [exact H0|lia].
  - change 256 with (32 * 8); rewrite Z.rem_mul_r, (Z.add_comm (v mod 32)), (Z.mul_comm 32) by lia.
    apply R; [apply Z.mod_pos_bound; lia|lia].
Qed.


