(* ===== verification/FpInsn.v ===== *)
(** * What the floating-point instructions do

    The handlers of [machine/fp_emulation.c] against the F and D extensions: an instruction
    reads its operands at its precision, computes with the effective rounding mode, writes
    the result and accrues the exception flags in the FCSR.  The two precisions share one
    description; what the handlers need of the SoftFloat routines is the interface
    [FpRoutines], with one instance per precision. *)

From S2P Require Import Prelude FpSpec FpTheory SfEnv SfAdd SfAddF64 SfMul SfCompare SfConvert.
From S2P Require Import SfDiv SfSqrt Encoding Machine Misaligned FpEmulation Emulation Csr.
From Stdlib Require Import ZArith Lia Bool List.
Import ListNotations.

(** ** Encodings *)

Definition fwidth (F : fmt) : Z := 1 + ebits F + fbits F.
Definition encoding (F : fmt) (a : Z) : Prop := 0 <= a < 2 ^ fwidth F.

(** ** Registers and the FCSR *)

Definition fread (F : fmt) (m : machine) (i : Z) : Z := fregs m i mod 2 ^ fwidth F.

Definition dirty (m : machine) : machine := put_csr Mstatus (csrs m Mstatus .| MSTATUS_FS) m.

(** A single is written to the low half of its register. *)
Definition fwrite (F : fmt) (i v : Z) (m : machine) : machine :=
  dirty (set_freg i (fregs m i / 2 ^ fwidth F * 2 ^ fwidth F + v) m).

Definition xwrite (i v : Z) (m : machine) : machine := set_xreg i v (dirty m).

Definition accrue (fl : Z) (m : machine) : machine := set_tp (tp m .| fl) m.

(** The rounding mode of an instruction: its own, or the FCSR's. *)
Definition effective_rm (insn : Z) (m : machine) : Z :=
  if funct3 insn =? 7 then field (tp m) 5 3 else funct3 insn.

(** [tp] as the handlers set it up: the FCSR, and the effective rounding mode from bit 13. *)
Definition setup (insn : Z) (m : machine) : machine :=
  set_tp (field (tp m) 0 8
          + if funct3 insn =? 7 then field (tp m) 0 8 * 2 ^ 8 else funct3 insn * 2 ^ 13) m.

(** ** The instructions *)

Definition fp_format (insn : Z) : option fmt :=
  if field insn 25 2 =? 0 then Some F32 else if field insn 25 2 =? 1 then Some F64 else None.

Definition farith (op : Z) (F : fmt) (rm a b : Z) : Z * Z :=
  if op =? 0 then ieee_add F rm a b
  else if op =? 1 then ieee_sub F rm a b
  else if op =? 2 then ieee_mul F rm a b
  else ieee_div F rm a b.

(** Sign injection: the magnitude of [a] with the sign of [b], its complement, or the
    product of the signs. *)
Definition fsgnj (F : fmt) (k a b : Z) : Z :=
  let s := if k =? 0 then fsign F b else if k =? 1 then negb (fsign F b)
           else xorb (fsign F a) (fsign F b) in
  signbit F s + a mod 2 ^ (fbits F + ebits F).

Definition fcompare (F : fmt) (k a b : Z) : bool * Z :=
  if k =? 0 then ieee_compare F Z.leb true a b
  else if k =? 1 then ieee_compare F Z.ltb true a b
  else ieee_compare F Z.eqb false a b.

(** One instruction of the major opcode [OP-FP] on a state whose rounding mode is set up;
    [None] for the encodings that are not instructions.  [FMIN], [FMAX] and the conversions
    from and to integers are left to their own theorems. *)
Definition fp_insn (insn : Z) (m : machine) : option machine :=
  let op := field insn 27 5 in
  let rm := effective_rm insn m in
  match fp_format insn with
  | None => None
  | Some F =>
      let a := fread F m (rs1 insn) in
      let b := fread F m (rs2 insn) in
      let put (r : Z * Z) := Some (fwrite F (rd insn) (fst r) (accrue (snd r) (setup insn m))) in
      let putx (v fl : Z) := Some (xwrite (rd insn) v (accrue fl (setup insn m))) in
      if op <? 4 then put (farith op F rm a b)
      else if op =? 4 then
        if funct3 insn <? 3 then put (fsgnj F (funct3 insn) a b, 0) else None
      else if op =? 8 then
        let G := if field insn 25 2 =? 0 then F64 else F32 in
        if rs2 insn =? (1 - field insn 25 2)
        then put (ieee_convert G F rm (fread G m (rs1 insn))) else None
      else if op =? 11 then
        if nz (rs2 insn) then None else put (ieee_sqrt F rm a)
      else if op =? 20 then
        if funct3 insn <? 3
        then putx (b2z (fst (fcompare F (funct3 insn) a b))) (snd (fcompare F (funct3 insn) a b))
        else None
      else if op =? 28 then
        if nz (rs2 insn) then None
        else if funct3 insn =? 0 then putx (u64 (swrap (fwidth F) a)) 0
        else if funct3 insn =? 1 then putx (ieee_class F a) 0
        else None
      else if op =? 30 then
        if nz (rs2 insn) || nz (funct3 insn) then None
        else put (xregs m (rs1 insn) mod 2 ^ fwidth F, 0)
      else None
  end.

Definition covered (op : Z) : bool :=
  negb ((op =? 5) || (op =? 24) || (op =? 26)).

(** ** Running the accessors *)

Lemma wrap_lxor w a b : 0 <= w -> wrap w (a .^ b) = wrap w a .^ wrap w b.
Proof.
  intros Hw; unfold wrap; apply Z.bits_inj'; intros i Hi; rewrite Z.lxor_spec.
  destruct (Z.ltb_spec i w).
  - rewrite !Z.mod_pow2_bits_low, Z.lxor_spec by lia; reflexivity.
  - rewrite !Z.mod_pow2_bits_high by lia; reflexivity.
Qed.

Lemma u32_fread m i : u32 (i32 (fregs m i)) = fread F32 m i.
Proof. apply (wrap_swrap 32). Qed.

Lemma u64_fread m i : u64 (i64 (fregs m i)) = fread F64 m i.
Proof. apply (wrap_swrap 64). Qed.

Lemma fread_encoding F m i : 0 <= fwidth F -> encoding F (fread F m i).
Proof. intros; apply Z.mod_pos_bound, pow2_pos; assumption. Qed.

Ltac by_freg_index :=
  unfold GET_F32_REG, GET_F64_REG, SET_F32_REG, SET_F64_REG; rewrite freg_index_field by lia;
  reflexivity.

Lemma run_GET_F32_RS1 insn m : GET_F32_RS1 insn m = Done (i32 (fregs m (rs1 insn))) m.
Proof. unfold GET_F32_RS1; by_freg_index. Qed.
Lemma run_GET_F32_RS2 insn m : GET_F32_RS2 insn m = Done (i32 (fregs m (rs2 insn))) m.
Proof. unfold GET_F32_RS2; by_freg_index. Qed.
Lemma run_GET_F64_RS1 insn m : GET_F64_RS1 insn m = Done (i64 (fregs m (rs1 insn))) m.
Proof. unfold GET_F64_RS1; by_freg_index. Qed.
Lemma run_GET_F64_RS2 insn m : GET_F64_RS2 insn m = Done (i64 (fregs m (rs2 insn))) m.
Proof. unfold GET_F64_RS2; by_freg_index. Qed.

Lemma run_SET_F32_RD insn v m : SET_F32_RD insn v m = Done tt (fwrite F32 (rd insn) (u32 v) m).
Proof. unfold SET_F32_RD; mrun; by_freg_index. Qed.

Lemma run_SET_F64_RD insn v m :
  wf m -> SET_F64_RD insn v m = Done tt (fwrite F64 (rd insn) (u64 v) m).
Proof.
  intros W; unfold SET_F64_RD; mrun; unfold SET_F64_REG; rewrite freg_index_field by lia.
  cbv beta iota; unfold fwrite; change (fwidth F64) with 64; fold (rd insn).
  rewrite Z.div_small by apply W; reflexivity.
Qed.

Lemma run_SET_FS_DIRTY m : SET_FS_DIRTY m = Done tt (dirty m).
Proof. reflexivity. Qed.

#[export] Hint Rewrite run_GET_F32_RS1 run_GET_F32_RS2 run_GET_F64_RS1 run_GET_F64_RS2
  run_SET_F32_RD run_SET_FS_DIRTY : mach.

(** ** The rounding mode *)

Lemma fcsr_low m : field (tp m) 0 8 = tp m mod 2 ^ 8.
Proof. unfold field; rewrite Z.div_1_r; reflexivity. Qed.

Lemma mask_funct3 insn : (insn .& MASK_FUNCT3 =? MASK_FUNCT3) = (funct3 insn =? 7).
Proof.
  unfold MASK_FUNCT3; change 0x7000 with ((2 ^ 3 - 1) * 2 ^ 12); rewrite land_field by lia.
  unfold funct3, field; apply eq_true_iff_eq; rewrite !Z.eqb_eq; lia.
Qed.

Lemma run_SETUP_STATIC_ROUNDING insn m :
  SETUP_STATIC_ROUNDING insn m =
    if (funct3 insn =? 5) || (funct3 insn =? 6) then Done false (set_tp (field (tp m) 0 8) m)
    else Done true (setup insn m).
Proof.
  unfold SETUP_STATIC_ROUNDING, setup; rewrite mask_funct3, GET_RM_field, fcsr_field.
  pose proof (field_range (tp m) 0 8 ltac:(lia)) as R.
  pose proof (funct3_cases insn) as C.
  rewrite !shiftl_mul by lia; rewrite !(Z.lor_comm (field (tp m) 0 8)), !lor_add_disjoint by lia.
  rewrite !(Z.add_comm _ (field (tp m) 0 8)).
  destruct C as [E|[E|[E|[E|[E|[E|[E|E]]]]]]]; rewrite E; reflexivity.
Qed.

Lemma rounding_mode_setup insn m : rounding_mode (setup insn m) = effective_rm insn m.
Proof.
  unfold rounding_mode, setup, effective_rm; cbn [tp set_tp].
  pose proof (field_range (tp m) 0 8 ltac:(lia)) as R.
  rewrite shiftr_div by lia; destruct (funct3 insn =? 7).
  - assert (E : field (tp m) 5 3 = field (tp m) 0 8 / 2 ^ 5).
    { rewrite <- frm_field, fcsr_field, shiftr_div by lia; reflexivity. }
    rewrite E; change (2 ^ 13) with (2 ^ 8 * 2 ^ 5).
    rewrite <- Z.div_div, Z.div_add, (Z.div_small _ (2 ^ 8)), Z.add_0_l by lia; reflexivity.
  - rewrite Z.div_add, Z.div_small by lia; lia.
Qed.

Lemma run_softfloat {A} (c : fp A) spec m :
  meets c spec ->
  softfloat c m = Done (fst (spec (rounding_mode m))) (accrue (snd (spec (rounding_mode m))) m).
Proof. intros S; unfold softfloat; rewrite S; reflexivity. Qed.

(** ** One interface for the two precisions

    The register accessors of a precision and the SoftFloat routines on its encodings, with
    what the handlers rely on: the accessors read and write the register file, the routines
    meet the specification. *)

Class FpRoutines (F : fmt) := {
  sf_get1 : Z -> M Z;
  sf_get2 : Z -> M Z;
  sf_set : Z -> Z -> M unit;
  sf_add : Z -> Z -> fp Z;
  sf_mul : Z -> Z -> fp Z;
  sf_div : Z -> Z -> fp Z;
  sf_eq : Z -> Z -> fp bool;
  sf_lt : Z -> Z -> fp bool;
  sf_lt_quiet : Z -> Z -> fp bool;
  sf_bits : 2 <= fbits F /\ 2 <= ebits F;
  sf_get1_ok insn m : sf_get1 insn m = Done (swrap (fwidth F) (fregs m (rs1 insn))) m;
  sf_get2_ok insn m : sf_get2 insn m = Done (swrap (fwidth F) (fregs m (rs2 insn))) m;
  sf_set_ok insn v m : wf m ->
    sf_set insn v m = Done tt (fwrite F (rd insn) (wrap (fwidth F) v) m);
  sf_add_ok a b : encoding F a -> encoding F b -> meets (sf_add a b) (fun rm => ieee_add F rm a b);
  sf_mul_ok a b : encoding F a -> encoding F b -> meets (sf_mul a b) (fun rm => ieee_mul F rm a b);
  sf_div_ok a b : encoding F a -> encoding F b -> meets (sf_div a b) (fun rm => ieee_div F rm a b);
  sf_eq_ok a b : encoding F a -> encoding F b ->
    meets (sf_eq a b) (fun _ => ieee_compare F Z.eqb false a b);
  sf_lt_ok a b : encoding F a -> encoding F b ->
    meets (sf_lt a b) (fun _ => ieee_compare F Z.ltb true a b);
  sf_lt_quiet_ok a b : encoding F a -> encoding F b ->
    meets (sf_lt_quiet a b) (fun _ => ieee_compare F Z.ltb false a b)
}.

#[export] Instance single : FpRoutines F32.
Proof.
  refine {| sf_get1 := GET_F32_RS1; sf_get2 := GET_F32_RS2; sf_set := SET_F32_RD;
            sf_add := f32_add; sf_mul := f32_mul; sf_div := f32_div;
            sf_eq := f32_eq; sf_lt := f32_lt; sf_lt_quiet := f32_lt_quiet |};
    [cbn; lia | apply run_GET_F32_RS1 | apply run_GET_F32_RS2 | intros; apply run_SET_F32_RD
    | apply f32_add_spec | apply f32_mul_spec | apply f32_div_spec
    | apply f32_eq_spec | apply f32_lt_spec | apply f32_lt_quiet_spec].
Defined.

#[export] Instance double : FpRoutines F64.
Proof.
  refine {| sf_get1 := GET_F64_RS1; sf_get2 := GET_F64_RS2; sf_set := SET_F64_RD;
            sf_add := f64_add; sf_mul := f64_mul; sf_div := f64_div;
            sf_eq := f64_eq; sf_lt := f64_lt; sf_lt_quiet := f64_lt_quiet |};
    [cbn; lia | apply run_GET_F64_RS1 | apply run_GET_F64_RS2 | apply run_SET_F64_RD
    | apply f64_add_spec | apply f64_mul_spec | apply f64_div_spec
    | apply f64_eq_spec | apply f64_lt_spec | apply f64_lt_quiet_spec].
Defined.

(** ** Results are encodings *)

Section Ranges.
Context (F : fmt) (Hf : 2 <= fbits F) (He : 2 <= ebits F).

Lemma encoding_parts s x : 0 <= x < 2 ^ (fbits F + ebits F) -> encoding F (signbit F s + x).
Proof using Hf He.
  intros Hx; unfold encoding, signbit, fwidth.
  replace (1 + ebits F + fbits F) with (fbits F + ebits F + 1) by lia.
  rewrite pow2_succ by lia; destruct s; bsimpl; lia.
Qed.

Lemma inf_mag_bound : 0 < inf_mag F /\ inf_mag F + 2 ^ (fbits F - 1) < 2 ^ (fbits F + ebits F).
Proof using Hf He.
  unfold inf_mag, emax; rewrite Z.pow_add_r by lia.
  pose proof (pow2_half (fbits F) ltac:(lia)); pose proof (pow2_pos (fbits F - 1) ltac:(lia)).
  pose proof (pow2_le 2 (ebits F) ltac:(lia)); nia.
Qed.

Lemma encoding_signbit s : encoding F (signbit F s).
Proof using Hf He.
  rewrite <- (Z.add_0_r (signbit F s)); apply encoding_parts; pose proof inf_mag_bound.
  pose proof (pow2_pos (fbits F - 1) ltac:(lia)); lia.
Qed.

Lemma encoding_inf s : encoding F (signbit F s + inf_mag F).
Proof using Hf He.
  apply encoding_parts; pose proof inf_mag_bound; pose proof (pow2_pos (fbits F - 1) ltac:(lia)); lia.
Qed.

Lemma encoding_default_nan : encoding F (default_nan F).
Proof using Hf He.
  change (default_nan F) with (signbit F false + default_nan F); apply encoding_parts.
  unfold default_nan; pose proof inf_mag_bound; pose proof (pow2_pos (fbits F - 1) ltac:(lia)); lia.
Qed.

Lemma encoding_round rm s p q : 0 <= p -> 0 < q -> encoding F (fst (ieee_round F rm s p q)).
Proof using Hf He.
  intros Hp Hq; unfold ieee_round; pose proof inf_mag_bound.
  pose proof (pow2_pos (fbits F - 1) ltac:(lia)).
  destruct (Z.leb_spec (inf_mag F) (rmag F rm s p q)); cbn [fst]; apply encoding_parts.
  - destruct (rounds_away rm s); bsimpl; lia.
  - split; [|lia]; unfold rmag; set (e := qexp F p q).
    assert (0 <= e) by (unfold e, qexp; lia).
    pose proof (pow2_pos e ltac:(lia)); pose proof (pow2_pos (fbits F) ltac:(lia)).
    pose proof (rint_range rm s p (q * 2 ^ e) ltac:(nia)).
    pose proof (Z.div_pos p (q * 2 ^ e) ltac:(lia) ltac:(nia)); nia.
Qed.
End Ranges.

Section Results.
Context (F : fmt) (R : FpRoutines F).

Lemma one_exp_nonneg : 0 <= one_exp F.
Proof using R.
  destruct sf_bits as (Hf & He); unfold one_exp.
  pose proof (pow2_pos (ebits F - 1) ltac:(lia)); lia.
Qed.

(** A result is a NaN, an infinity, a zero or rounded. *)
Ltac result_range :=
  pose proof (pow2_pos (one_exp F) one_exp_nonneg);
  repeat match goal with |- context [if ?c then _ else _] => destruct c eqn:? end;
  repeat first
    [ apply encoding_default_nan | apply encoding_inf | apply encoding_signbit
    | apply encoding_round | progress cbn [fst snd nan_result invalid_result] | lia ].

Lemma farith_encoding op rm a b : encoding F (fst (farith op F rm a b)).
Proof using R.
  destruct sf_bits as (Hf & He); unfold farith, ieee_sub, ieee_add, ieee_mul, ieee_div.
  pose proof (mag_nonneg F a ltac:(lia) ltac:(lia)).
  pose proof (mag_nonneg F b ltac:(lia) ltac:(lia)).
  result_range; nia.
Qed.

Lemma convert_encoding G rm a :
  1 <= fbits G -> 2 <= ebits G -> encoding F (fst (ieee_convert G F rm a)).
Proof using R.
  destruct sf_bits as (Hf & He); unfold ieee_convert; intros Gf Ge.
  pose proof (mag_nonneg G a ltac:(lia) ltac:(lia)).
  pose proof (pow2_pos (ebits G - 1) ltac:(lia)).
  pose proof (pow2_pos (one_exp G) ltac:(unfold one_exp; lia)).
  result_range; nia.
Qed.

Lemma sqrt_encoding rm a : encoding F a -> encoding F (fst (ieee_sqrt F rm a)).
Proof using R.
  destruct sf_bits as (Hf & He); unfold ieee_sqrt; intros Ha.
  pose proof (Z.sqrt_nonneg (mag F a * 2 ^ one_exp F)).
  result_range; try assumption; destruct (nz _); cbn [b2z]; lia.
Qed.

Lemma fsgnj_encoding k a b : encoding F (fsgnj F k a b).
Proof using R.
  destruct sf_bits as (Hf & He); apply encoding_parts; try assumption.
  apply Z.mod_pos_bound, pow2_pos; lia.
Qed.

Lemma wrap_encoding v : encoding F v -> wrap (fwidth F) v = v.
Proof. apply wrap_small. Qed.
End Results.

(** Complementing the sign bit. *)
Lemma lxor_top n x :
  0 <= n -> 0 <= x < 2 ^ (n + 1) -> x .^ 2 ^ n = if x <? 2 ^ n then x + 2 ^ n else x - 2 ^ n.
Proof.
  intros Hn Hx; rewrite pow2_succ in Hx by lia.
  assert (A : forall y, 0 <= y < 2 ^ n -> y .^ 2 ^ n = y + 2 ^ n).
  { intros y Hy; rewrite <- (lor_pow2 y n) by lia; apply Z.lxor_lor.
    rewrite <- (Z.mul_1_l (2 ^ n)), <- (Z.mod_small y (2 ^ n)) by lia.
    apply Z.bits_inj'; intros i Hi; rewrite Z.land_spec, Z.bits_0.
    destruct (Z.ltb_spec i n); [rewrite Z.mul_pow2_bits_low, andb_false_r by lia; reflexivity|].
    rewrite Z.mod_pow2_bits_high by lia; reflexivity. }
  destruct (Z.ltb_spec x (2 ^ n)); [apply A; lia|].
  replace x with (x - 2 ^ n + 2 ^ n) at 1 by lia; rewrite <- A by lia.
  rewrite Z.lxor_assoc, Z.lxor_nilpotent, Z.lxor_0_r; reflexivity.
Qed.

Lemma fneg_lxor F x :
  1 <= fbits F -> 1 <= ebits F -> encoding F x -> x .^ 2 ^ (fbits F + ebits F) = fneg F x.
Proof.
  intros Hf He Hx; unfold encoding, fwidth in Hx.
  rewrite lxor_top by (replace (fbits F + ebits F + 1) with (1 + ebits F + fbits F) by lia; lia).
  unfold fneg; rewrite fsign_ltb by assumption.
  destruct (Z.ltb_spec x (2 ^ (fbits F + ebits F))), (Z.leb_spec (2 ^ (fbits F + ebits F)) x);
    lia.
Qed.

(** ** The handlers *)

Section Handlers.
Context (mcause mepc mstatus insn : Z) (m : machine) (W : wf m).

Lemma wf_setup fl : wf (accrue fl (setup insn m)).
Proof using W. unfold accrue, setup; auto with wf. Qed.

Definition finish (F : fmt) (r : Z * Z) : outcome unit :=
  Done tt (fwrite F (rd insn) (fst r) (accrue (snd r) (setup insn m))).

Section Generic.
Context (F : fmt) {R : FpRoutines F}.

Lemma operand_encoding i : encoding F (fread F m i).
Proof using R. destruct sf_bits; apply fread_encoding; unfold fwidth; lia. Qed.

Lemma operand_wrap i : wrap (fwidth F) (swrap (fwidth F) (fregs (setup insn m) i)) = fread F m i.
Proof using. apply wrap_swrap. Qed.

(** Compute and write. *)
Lemma run_compute c spec :
  meets c spec -> (forall rm, encoding F (fst (spec rm))) ->
  (let! r := softfloat c in sf_set insn r) (setup insn m) = finish F (spec (effective_rm insn m)).
Proof using W.
  intros S E; mrun; rewrite (run_softfloat c spec) by exact S; rewrite rounding_mode_setup.
  rewrite sf_set_ok by apply wf_setup; rewrite wrap_small by apply E; reflexivity.
Qed.

(** The arithmetic handlers at one precision. *)
Definition binary (op : Z -> Z -> fp Z) : M unit :=
  let! a := sf_get1 insn in
  let! b := sf_get2 insn in
  let! r := softfloat (op (wrap (fwidth F) a) (wrap (fwidth F) b)) in
  sf_set insn r.

Lemma run_binary op spec :
  (forall a b, encoding F a -> encoding F b -> meets (op a b) (fun rm => spec rm a b)) ->
  (forall rm a b, encoding F (fst (spec rm a b))) ->
  binary op (setup insn m)
  = finish F (spec (effective_rm insn m) (fread F m (rs1 insn)) (fread F m (rs2 insn))).
Proof using W.
  intros S E; unfold binary.
  rewrite (run_bind _ _ _ _ _ (sf_get1_ok _ _)), (run_bind _ _ _ _ _ (sf_get2_ok _ _)).
  rewrite !operand_wrap.
  apply (run_compute _ (fun rm => spec rm _ _)); [apply S; apply operand_encoding | intros; apply E].
Qed.
End Generic.

Definition expected : outcome unit :=
  match fp_insn insn m with
  | Some m' => Done tt m'
  | None => Redirected (delegated mepc mstatus insn (setup insn m))
  end.

(** Case analysis on the precision; the third case is not an instruction. *)
Ltac by_precision E :=
  unfold expected, fp_insn; rewrite E; unfold fp_format; rewrite ?GET_PRECISION_field;
  unfold PRECISION_S, PRECISION_D; cbn [Z.ltb Z.eqb Pos.eqb Z.compare Pos.compare Pos.compare_cont];
  destruct (Z.eqb_spec (field insn 25 2) 0);
  [|destruct (Z.eqb_spec (field insn 25 2) 1); [|try (mrun; reflexivity)]].

Lemma run_emulate_fmul :
  field insn 27 5 = 2 -> emulate_fmul mcause mepc mstatus insn (setup insn m) = expected.
Proof using W.
  intros E; unfold emulate_fmul; by_precision E.
  - exact (run_binary F32 f32_mul (ieee_mul F32) (sf_mul_ok (F := F32)) (farith_encoding F32 _ 2)).
  - exact (run_binary F64 f64_mul (ieee_mul F64) (sf_mul_ok (F := F64)) (farith_encoding F64 _ 2)).
Qed.

Lemma run_emulate_fdiv :
  field insn 27 5 = 3 -> emulate_fdiv mcause mepc mstatus insn (setup insn m) = expected.
Proof using W.
  intros E; unfold emulate_fdiv; by_precision E.
  - exact (run_binary F32 f32_div (ieee_div F32) (sf_div_ok (F := F32)) (farith_encoding F32 _ 3)).
  - exact (run_binary F64 f64_div (ieee_div F64) (sf_div_ok (F := F64)) (farith_encoding F64 _ 3)).
Qed.
Lemma run_emulate_fadd :
  field insn 27 5 = 0 -> emulate_fadd mcause mepc mstatus insn (setup insn m) = expected.
Proof using W.
  intros E; unfold emulate_fadd, emulate_any_fadd; by_precision E; mrun.
  - rewrite Z.lxor_0_r, !u32_fread.
    exact (run_compute F32 _ _ (sf_add_ok (F := F32) _ _ (operand_encoding F32 _) (operand_encoding F32 _))
             (fun rm => farith_encoding F32 _ 0 rm _ _)).
  - change (u64 (u64 0 .<< 32)) with 0; rewrite Z.lxor_0_r, u64_idem, !u64_fread.
    exact (run_compute F64 _ _ (sf_add_ok (F := F64) _ _ (operand_encoding F64 _) (operand_encoding F64 _))
             (fun rm => farith_encoding F64 _ 0 rm _ _)).
Qed.

Lemma fneg_encoding F x :
  2 <= fbits F -> 2 <= ebits F -> encoding F x -> encoding F (fneg F x).
Proof using.
  intros Hf He Hx; rewrite <- fneg_lxor by (lia || assumption).
  apply lxor_range; [unfold fwidth; lia | exact Hx |].
  unfold fwidth; split; [apply Z.pow_nonneg; lia | apply pow2_lt; lia].
Qed.

Lemma run_emulate_fsub :
  field insn 27 5 = 1 -> emulate_fsub mcause mepc mstatus insn (setup insn m) = expected.
Proof using W.
  pose proof (fneg_encoding F32 _ ltac:(cbn; lia) ltac:(cbn; lia)
                (operand_encoding F32 (rs2 insn))) as N32.
  pose proof (fneg_encoding F64 _ ltac:(cbn; lia) ltac:(cbn; lia)
                (operand_encoding F64 (rs2 insn))) as N64.
  intros E; unfold emulate_fsub, emulate_any_fadd; by_precision E; mrun.
  - rewrite !u32_fread.
    assert (N : u32 (i32 (fregs (setup insn m) (rs2 insn)) .^ INT32_MIN)
                = fneg F32 (fread F32 m (rs2 insn))).
    { unfold u32; rewrite wrap_lxor by lia; fold u32; rewrite u32_fread.
      apply (fneg_lxor F32); [cbn; lia | cbn; lia | apply (operand_encoding F32)]. }
    rewrite N; exact (run_compute F32 _ _ (sf_add_ok (F := F32) _ _ (operand_encoding F32 _) N32)
                        (fun rm => farith_encoding F32 _ 1 rm _ _)).
  - rewrite !u64_fread; change (u64 (u64 INT32_MIN .<< 32)) with (2 ^ (fbits F64 + ebits F64)).
    rewrite (fneg_lxor F64) by (cbn; lia || apply (operand_encoding F64)).
    rewrite (u64_small (fneg _ _)) by exact N64.
    exact (run_compute F64 _ _ (sf_add_ok (F := F64) _ _ (operand_encoding F64 _) N64)
             (fun rm => farith_encoding F64 _ 1 rm _ _)).
Qed.

(** Sign injection. *)
Lemma DO_FSGNJ_spec F k a b :
  1 <= fbits F -> 1 <= ebits F -> encoding F a -> encoding F b -> 0 <= k < 3 ->
  DO_FSGNJ (fwidth F) a b k = fsgnj F k a b.
Proof using.
  intros Hf He Ha Hb Hk; unfold DO_FSGNJ, fsgnj, signbit; cbv zeta.
  set (n := fbits F + ebits F); assert (En : fwidth F = n + 1) by (unfold n, fwidth; lia).
  assert (S : forall x, encoding F x -> x .>> (fwidth F - 1) = b2z (fsign F x)).
  { intros x Hx; rewrite shiftr_div, En by lia; replace (n + 1 - 1) with n by lia.
    rewrite (fsign_ltb F x Hf He Hx); fold n.
    unfold encoding in Hx; rewrite En, pow2_succ in Hx by lia.
    pose proof (pow2_pos n ltac:(lia)).
    destruct (Z.leb_spec (2 ^ n) x); bsimpl; [|apply Z.div_small; lia].
    symmetry; apply (Z.div_unique_pos _ _ _ (x - 2 ^ n)); lia. }
  rewrite !S by assumption; pose proof (pow2_pos n ltac:(lia)) as P.
  assert (L : wrap (fwidth F) (a .<< 1) .>> 1 = a mod 2 ^ n).
  { rewrite shiftl_mul, shiftr_div by lia; unfold wrap; rewrite En, pow2_succ by lia.
    change (2 ^ 1) with 2; rewrite (Z.mul_comm a 2), Z.mul_mod_distr_l, Z.mul_comm by lia.
    apply Z.div_mul; lia. }
  assert (U : forall x y, wrap (fwidth F) ((2 * y + b2z x) .<< (fwidth F - 1)) = b2z x * 2 ^ n).
  { intros x y; rewrite shiftl_mul, En by lia; replace (n + 1 - 1) with n by lia.
    replace ((2 * y + b2z x) * 2 ^ n) with (b2z x * 2 ^ n + y * 2 ^ (n + 1))
      by (rewrite pow2_succ by lia; ring).
    rewrite wrap_add by lia; apply wrap_small; rewrite pow2_succ by lia.
    destruct x; bsimpl; lia. }
  rewrite L, Z.lor_comm.
  assert (K : k = 0 \/ k = 1 \/ k = 2) by lia.
  set (x := if k =? 0 then _ else _).
  assert (X : b2z (fsign F a) .& (k .>> 1) .^ (k .^ b2z (fsign F b))
              = 2 * (if k =? 2 then 1 else 0) + b2z x)
    by (subst x; destruct K as [-> | [-> | ->]]; destruct (fsign F a), (fsign F b); reflexivity).
  rewrite X, U; apply lor_add_disjoint; [lia | apply Z.mod_pos_bound; lia].
Qed.

Lemma accrue_none s : accrue 0 s = set_tp (tp s) s.
Proof using. unfold accrue; rewrite Z.lor_0_r; reflexivity. Qed.

Lemma run_emulate_fsgnj :
  field insn 27 5 = 4 -> emulate_fsgnj mcause mepc mstatus insn (setup insn m) = expected.
Proof using W.
  intros E; unfold emulate_fsgnj; rewrite GET_RM_field; pose proof (funct3_cases insn) as C.
  assert (T : (3 <=? funct3 insn) = negb (funct3 insn <? 3))
    by (destruct (Z.leb_spec 3 (funct3 insn)), (Z.ltb_spec (funct3 insn) 3); lia || reflexivity).
  rewrite T; unfold expected, fp_insn; destruct (Z.ltb_spec (funct3 insn) 3); cbn [negb];
    by_precision E; try (mrun; reflexivity).
  - mrun; rewrite !u32_fread.
    rewrite (DO_FSGNJ_spec F32) by (cbn; lia || apply (operand_encoding F32) || lia).
    rewrite u32_small by apply (fsgnj_encoding F32 _); rewrite accrue_none; reflexivity.
  - mrun; rewrite !u64_fread.
    rewrite (DO_FSGNJ_spec F64) by (cbn; lia || apply (operand_encoding F64) || lia).
    rewrite run_SET_F64_RD by (unfold setup; auto with wf).
    rewrite u64_small by apply (fsgnj_encoding F64 _); rewrite accrue_none; reflexivity.
Qed.

(** Conversion between the precisions. *)
Lemma run_emulate_fcvt_ff :
  field insn 27 5 = 8 -> emulate_fcvt_ff mcause mepc mstatus insn (setup insn m) = expected.
Proof using W.
  intros E; unfold emulate_fcvt_ff; change 0x1f with (2 ^ 5 - 1).
  rewrite shift_land_field by lia; fold (rs2 insn); by_precision E.
  - rewrite e; change (1 - 0) with 1; destruct (rs2 insn =? 1); cbn [negb];
      mrun; [rewrite u64_fread | reflexivity].
    exact (run_compute F32 _ _ (f64_to_f32_spec _ (operand_encoding F64 _))
             (fun rm => convert_encoding F32 _ F64 rm _ ltac:(cbn; lia) ltac:(cbn; lia))).
  - rewrite e; change (1 - 1) with 0.
    destruct (rs2 insn =? 0); cbn [negb]; mrun; [rewrite u32_fread | reflexivity].
    exact (run_compute F64 _ _ (f32_to_f64_spec _ (operand_encoding F32 _))
             (fun rm => convert_encoding F64 _ F32 rm _ ltac:(cbn; lia) ltac:(cbn; lia))).
Qed.

(** Square root. *)
Lemma run_emulate_fsqrt :
  field insn 27 5 = 11 -> emulate_fsqrt mcause mepc mstatus insn (setup insn m) = expected.
Proof using W.
  intros E; unfold emulate_fsqrt; change 0x1f with (2 ^ 5 - 1).
  rewrite shift_land_field by lia; fold (rs2 insn); by_precision E;
    destruct (nz (rs2 insn)); try (mrun; reflexivity); mrun.
  - rewrite u32_fread; pose proof (operand_encoding F32 (rs1 insn)) as A.
    exact (run_compute F32 _ _ (f32_sqrt_spec _ A) (fun rm => sqrt_encoding F32 _ rm _ A)).
  - rewrite u64_fread; pose proof (operand_encoding F64 (rs1 insn)) as A.
    exact (run_compute F64 _ _ (f64_sqrt_spec _ A) (fun rm => sqrt_encoding F64 _ rm _ A)).
Qed.

(** Comparisons.  [FLE] is [eq] or [lt]; the flags of the two add up to those of [le]. *)
Lemma compare_le F a b fl :
  (fst (ieee_compare F Z.eqb false a b) = true ->
   ieee_compare F Z.leb true a b = (true, 0) /\ snd (ieee_compare F Z.eqb false a b) = 0) /\
  (fst (ieee_compare F Z.eqb false a b) = false ->
   fst (ieee_compare F Z.leb true a b) = fst (ieee_compare F Z.ltb true a b) /\
   fl .| snd (ieee_compare F Z.eqb false a b) .| snd (ieee_compare F Z.ltb true a b)
   = fl .| snd (ieee_compare F Z.leb true a b)).
Proof using.
  unfold ieee_compare; destruct (is_nan F a || is_nan F b); cbn [fst snd orb].
  - split; [discriminate|]; intros _; split; [reflexivity|].
    rewrite <- Z.lor_assoc; f_equal; destruct (_ || _); reflexivity.
  - split; intros E.
    + apply Z.eqb_eq in E; rewrite E, Z.leb_refl; auto.
    + apply Z.eqb_neq in E; split; [|rewrite !Z.lor_0_r; reflexivity].
      destruct (Z.leb_spec (fval F a) (fval F b)), (Z.ltb_spec (fval F a) (fval F b)); lia || reflexivity.
Qed.

Definition compare_code (eq lt : fp bool) : M bool :=
  let! result := if negb (funct3 insn =? 1) then softfloat eq else done false in
  if (funct3 insn =? 1) || ((funct3 insn =? 0) && negb result) then softfloat lt else done result.

Lemma run_compare F {R : FpRoutines F} a b s :
  encoding F a -> encoding F b -> funct3 insn < 3 ->
  compare_code (sf_eq a b) (sf_lt a b) s
  = Done (fst (fcompare F (funct3 insn) a b)) (accrue (snd (fcompare F (funct3 insn) a b)) s).
Proof using.
  intros Ha Hb Hk; unfold compare_code; mrun.
  pose proof (sf_eq_ok a b Ha Hb) as Q; pose proof (sf_lt_ok a b Ha Hb) as L.
  pose proof (funct3_cases insn) as C; unfold fcompare.
  destruct C as [E|[E|[E|C]]]; [| | |lia]; rewrite E; cbn [Z.eqb Pos.eqb negb orb andb].
  - rewrite (run_softfloat _ _ s Q); cbv beta iota.
    destruct (compare_le F a b (tp s)) as [T N].
    destruct (fst (ieee_compare F Z.eqb false a b)) eqn:X; cbn [negb].
    + destruct (T eq_refl) as [-> ->]; reflexivity.
    + destruct (N eq_refl) as [F1 F2]; rewrite (run_softfloat _ _ _ L), F1.
      unfold accrue; cbn [tp set_tp]; rewrite F2; reflexivity.
  - rewrite (run_softfloat _ _ _ L); reflexivity.
  - rewrite (run_softfloat _ _ _ Q); reflexivity.
Qed.

Lemma run_emulate_fcmp :
  field insn 27 5 = 20 -> emulate_fcmp mcause mepc mstatus insn (setup insn m) = expected.
Proof using W.
  intros E; unfold emulate_fcmp; rewrite GET_RM_field.
  assert (T : (3 <=? funct3 insn) = negb (funct3 insn <? 3))
    by (destruct (Z.leb_spec 3 (funct3 insn)), (Z.ltb_spec (funct3 insn) 3); lia || reflexivity).
  rewrite T; unfold expected, fp_insn; destruct (Z.ltb_spec (funct3 insn) 3) as [K|K]; cbn [negb];
    by_precision E; try (mrun; reflexivity); mrun.
  - rewrite !u32_fread; change (fread F32 (setup insn m)) with (fread F32 m).
    pose proof (run_compare F32 (fread F32 m (rs1 insn)) (fread F32 m (rs2 insn)) (setup insn m)
                  (operand_encoding F32 _) (operand_encoding F32 _) K) as P.
    unfold compare_code, mbind, done in P; cbn [sf_eq sf_lt single] in P; rewrite P.
    mrun; destruct (fst _); reflexivity.
  - rewrite !u64_fread; change (fread F64 (setup insn m)) with (fread F64 m).
    pose proof (run_compare F64 (fread F64 m (rs1 insn)) (fread F64 m (rs2 insn)) (setup insn m)
                  (operand_encoding F64 _) (operand_encoding F64 _) K) as P.
    unfold compare_code, mbind, done in P; cbn [sf_eq sf_lt double] in P; rewrite P.
    mrun; destruct (fst _); reflexivity.
Qed.

(** Moves and classification. *)
Lemma run_emulate_fmv_if :
  field insn 27 5 = 28 -> emulate_fmv_if mcause mepc mstatus insn (setup insn m) = expected.
Proof using W.
  intros E; unfold emulate_fmv_if; change 0x1f with (2 ^ 5 - 1).
  rewrite shift_land_field, !GET_RM_field by lia; fold (rs2 insn).
  change (funct3 MATCH_FMV_X_W) with 0; change (funct3 MATCH_FCLASS_S) with 1.
  change (funct3 MATCH_FMV_X_D) with 0; change (funct3 MATCH_FCLASS_D) with 1.
  unfold expected, fp_insn; destruct (nz (rs2 insn)); by_precision E; try (mrun; reflexivity);
    mrun; destruct (funct3 insn =? 0); mrun; try reflexivity.
  1, 3: rewrite accrue_none; unfold fread, fwidth; cbn [fbits ebits F32 F64];
    change (1 + 8 + 23) with 32; change (1 + 11 + 52) with 64;
    fold (wrap 32 (fregs m (rs1 insn))); fold (wrap 64 (fregs m (rs1 insn)));
    rewrite swrap_wrap by lia; reflexivity.
  all: destruct (funct3 insn =? 1); mrun; [|reflexivity]; rewrite ?u32_fread, ?u64_fread.
  1: rewrite f32_classify_spec by apply (operand_encoding F32).
  2: rewrite f64_classify_spec by apply (operand_encoding F64).
  all: rewrite accrue_none, u64_small; [reflexivity|];
    unfold ieee_class; repeat destruct (if _ then _ else _ : bool); 
    repeat match goal with |- context [if ?c then _ else _] => destruct c end; cbn; lia.
Qed.

Lemma matches_fff0707f o7 o3 o :
  0 <= o3 < 2 ^ 3 -> 0 <= o < 2 ^ 7 ->
  matches insn 0xfff0707f (o7 * 2 ^ 25 + o3 * 2 ^ 12 + o)
  = (funct7 insn =? o7) && (rs2 insn =? 0) && (funct3 insn =? o3) && (opcode insn =? o).
Proof using.
  intros H3 Ho; unfold matches.
  assert (L : insn .& 0xfff0707f
              = funct7 insn * 2 ^ 25 + rs2 insn * 2 ^ 20 + funct3 insn * 2 ^ 12 + opcode insn).
  { change 0xfff0707f with (0x7f * 2 ^ 25 + 0x1f0707f); rewrite land_split by lia.
    change 0x1f0707f with (0x1f * 2 ^ 20 + 0x707f); rewrite land_split, land_707f by lia.
    rewrite (land_ones_mod _ 7), (land_ones_mod _ 5) by lia.
    unfold funct3, opcode; rewrite !field_mod by lia.
    fold (field (insn mod 2 ^ 25) 20 5); rewrite field_mod by lia.
    unfold funct7, rs2, field; lia. }
  rewrite L; pose proof (field_range insn 0 7 ltac:(lia)) as R; fold (opcode insn) in R.
  pose proof (field_range insn 12 3 ltac:(lia)) as R3; fold (funct3 insn) in R3.
  pose proof (field_range insn 20 5 ltac:(lia)) as R5; fold (rs2 insn) in R5.
  apply eq_true_iff_eq; rewrite !andb_true_iff, !Z.eqb_eq; lia.
Qed.

Lemma funct7_split : funct7 insn = field insn 27 5 * 4 + field insn 25 2.
Proof using. unfold funct7, field; Z.div_mod_to_equations; lia. Qed.

Lemma run_emulate_fmv_fi :
  opcode insn = 0x53 -> field insn 27 5 = 30 ->
  emulate_fmv_fi mcause mepc mstatus insn (setup insn m) = expected.
Proof using W.
  intros O E; unfold emulate_fmv_fi.
  change (matches insn MASK_FMV_W_X MATCH_FMV_W_X)
    with (matches insn 0xfff0707f (0x78 * 2 ^ 25 + 0 * 2 ^ 12 + 0x53)).
  change (matches insn MASK_FMV_D_X MATCH_FMV_D_X)
    with (matches insn 0xfff0707f (0x79 * 2 ^ 25 + 0 * 2 ^ 12 + 0x53)).
  rewrite !matches_fff0707f, O, funct7_split, E by lia; mrun.
  change (0x53 =? 0x53) with true; rewrite !andb_true_r.
  by_precision E; [rewrite e | rewrite e |
    rewrite !(proj2 (Z.eqb_neq (30 * 4 + field insn 25 2) _)) by lia; cbn [andb]; mrun; reflexivity];
    unfold nz; destruct (rs2 insn =? 0), (funct3 insn =? 0);
    cbn -[setup fwrite accrue wrap Z.pow SET_F32_RD SET_F64_RD delegated]; mrun; try reflexivity.
  - rewrite accrue_none; reflexivity.
  - rewrite run_SET_F64_RD by (unfold setup; auto with wf); rewrite accrue_none; reflexivity.
Qed.

Lemma table_index : ((insn .>> 25) .& 0x7c) / 4 = field insn 27 5.
Proof using.
  change 0x7c with ((2 ^ 5 - 1) * 2 ^ 2); rewrite land_field, shiftr_div by lia.
  change 4 with (2 ^ 2); rewrite Z.div_mul, Z.div_div by lia; reflexivity.
Qed.

Lemma run_unassigned :
  ~ In (field insn 27 5) [0; 1; 2; 3; 4; 8; 11; 20; 28; 30] ->
  expected = Redirected (delegated mepc mstatus insn (setup insn m)).
Proof using.
  intros N; unfold expected, fp_insn; pose proof (field_range insn 27 5 ltac:(lia)).
  destruct (fp_format insn); [|reflexivity].
  assert (G : 4 <= field insn 27 5)
    by (destruct (Z.lt_ge_cases (field insn 27 5) 4); [|assumption]; exfalso; apply N; cbn; lia).
  rewrite (proj2 (Z.ltb_ge _ _)), !(proj2 (Z.eqb_neq (field insn 27 5) _)) by (cbn in N; lia).
  reflexivity.
Qed.

Lemma run_handler :
  opcode insn = 0x53 -> covered (field insn 27 5) = true ->
  nth (Z.to_nat (field insn 27 5)) fp_emulation_table truly_illegal_insn
    mcause mepc mstatus insn (setup insn m) = expected.
Proof using W.
  intros O C; pose proof (field_range insn 27 5 ltac:(lia)) as R.
  pose proof run_emulate_fadd; pose proof run_emulate_fsub; pose proof run_emulate_fmul.
  pose proof run_emulate_fdiv; pose proof run_emulate_fsgnj; pose proof run_emulate_fcvt_ff.
  pose proof run_emulate_fsqrt.
  pose proof run_emulate_fcmp; pose proof run_emulate_fmv_if; pose proof (run_emulate_fmv_fi O).
  pose proof run_unassigned as U.
  set (op := field insn 27 5) in *; clearbody op.
  assert (K : exists k, (k < 32)%nat /\ op = Z.of_nat k)
    by (exists (Z.to_nat op); rewrite Z2Nat.id; lia).
  destruct K as (k & Hk & ->); rewrite Nat2Z.id.
  do 32 (destruct k as [|k];
    [first [discriminate C | auto; fail
           | rewrite U by (cbn; lia); cbn [nth fp_emulation_table]; apply run_truly_illegal]|]).
  lia.
Qed.
End Handlers.

(** The handler of an [OP-FP] word. *)
Lemma run_emulate_fp mcause mepc mstatus insn m :
  wf m -> opcode insn = 0x53 -> covered (field insn 27 5) = true ->
  emulate_fp mcause mepc mstatus insn m =
    if fp_off mstatus then Redirected (delegated mepc mstatus insn m)
    else if (funct3 insn =? 5) || (funct3 insn =? 6) then
      Redirected (delegated mepc mstatus insn (set_tp (field (tp m) 0 8) m))
    else expected mepc mstatus insn m.
Proof.
  intros W O C; unfold emulate_fp; rewrite fp_off_test, table_index.
  destruct (fp_off mstatus); [mrun; reflexivity|]; cbv zeta.
  unfold mbind; rewrite run_SETUP_STATIC_ROUNDING.
  destruct (_ || _); cbv beta iota; cbn [negb]; [mrun; reflexivity|].
  apply (run_handler mcause mepc mstatus insn m W O C).
Qed.

(** ** The FCSR after an instruction *)

Ltac flag_range :=
  unfold ieee_round, nan_result, invalid_result, ieee_compare;
  repeat match goal with |- context [if ?c then _ else _] => destruct c end;
  cbn [fst snd]; try (vm_compute; split; congruence).

Lemma farith_flags op F rm a b : 0 <= snd (farith op F rm a b) < 2 ^ 5.
Proof. unfold farith, ieee_sub, ieee_add, ieee_mul, ieee_div; flag_range. Qed.

Lemma convert_flags F G rm a : 0 <= snd (ieee_convert F G rm a) < 2 ^ 5.
Proof. unfold ieee_convert; flag_range. Qed.

Lemma sqrt_flags F rm a : 0 <= snd (ieee_sqrt F rm a) < 2 ^ 5.
Proof. unfold ieee_sqrt; flag_range. Qed.

Lemma fcompare_flags F k a b : 0 <= snd (fcompare F k a b) < 2 ^ 5.
Proof. unfold fcompare; flag_range. Qed.

Lemma fp_insn_tp insn m m' :
  fp_insn insn m = Some m' -> exists fl, 0 <= fl < 2 ^ 5 /\ tp m' = tp (accrue fl (setup insn m)).
Proof.
  unfold fp_insn; destruct (fp_format insn) as [F|]; [|discriminate]; cbv zeta.
  repeat match goal with |- (if ?c then _ else _) = _ -> _ => destruct c end;
    intros [= <-]; eexists; (split; [|reflexivity]);
    auto using farith_flags, convert_flags, sqrt_flags, fcompare_flags; cbn; lia.
Qed.

Lemma setup_tp_bits insn m i :
  0 <= i < 8 -> Z.testbit (tp (setup insn m)) i = Z.testbit (tp m) i.
Proof.
  intros Hi; unfold setup; cbn [tp set_tp].
  set (h := if funct3 insn =? 7 then _ else _).
  assert (H : exists k, h = k * 2 ^ 8)
    by (subst h; destruct (funct3 insn =? 7); eexists;
        [reflexivity | change (2 ^ 13) with (2 ^ 5 * 2 ^ 8); apply Z.mul_assoc]).
  destruct H as (k & ->); pose proof (field_range (tp m) 0 8 ltac:(lia)).
  rewrite Z.add_comm, <- lor_add_disjoint, Z.lor_spec, Z.mul_pow2_bits_low by lia.
  rewrite fcsr_low, Z.mod_pow2_bits_low by lia; reflexivity.
Qed.

(** ** Theorems *)

(** C8: the floating-point instructions. For every word of the major opcode [OP-FP] that is
    not a minimum or maximum or a conversion from or to an integer: with the unit off the
    trap is delegated; otherwise the handler reads its operands, computes the IEEE 754
    result at the precision and rounding mode of the instruction, writes it to the
    destination, accrues the exception flags and marks the state dirty, or delegates the
    trap if the word is not an instruction. *)
Theorem fp_emulation_correct mcause mepc mstatus insn m :
  wf m -> opcode insn = 0x53 -> covered (field insn 27 5) = true ->
  emulate_fp mcause mepc mstatus insn m =
    if fp_off mstatus then Redirected (delegated mepc mstatus insn m)
    else if (funct3 insn =? 5) || (funct3 insn =? 6) then
      Redirected (delegated mepc mstatus insn (set_tp (field (tp m) 0 8) m))
    else match fp_insn insn m with
         | Some m' => Done tt m'
         | None => Redirected (delegated mepc mstatus insn (setup insn m))
         end.
Proof.
  apply run_emulate_fp.
Qed.

(** [fdiv.s f3, f1, f2] of 1 by 3, rounding upward. *)
Lemma fp_emulation_correct_witness :
  let m := set_freg 1 0x3F800000 (set_freg 2 0x40400000 blank) in
  wf m /\
  match emulate_fp 2 0x10000 MSTATUS_FS 0x1820B1D3 m with
  | Done _ m' => (fregs m' 3, field (tp m') 0 5)
  | _ => (0, 0)
  end = (0x3EAAAAAB, 1).
Proof.
  intros m; assert (W : wf m) by (repeat apply wf_set_freg; auto with wf; lia).
  split; [exact W|].
  rewrite (fp_emulation_correct 2 0x10000 MSTATUS_FS 0x1820B1D3 m W eq_refl eq_refl).
  vm_compute; reflexivity.
Defined.

(** The accrued exceptions are sticky.  An instruction of [OP-FP] that completes leaves
    the rounding mode of the FCSR as it was, and every flag that was set before it is set
    after it. *)
Lemma fp_flags_sticky mcause mepc mstatus insn m m' :
  wf m -> opcode insn = 0x53 -> covered (field insn 27 5) = true ->
  emulate_fp mcause mepc mstatus insn m = Done tt m' ->
  field (tp m') 5 3 = field (tp m) 5 3 /\
  forall i, 0 <= i < 5 -> Z.testbit (tp m) i = true -> Z.testbit (tp m') i = true.
Proof.
  intros W O C; rewrite run_emulate_fp by assumption; unfold expected.
  destruct (fp_off mstatus); [discriminate|]; destruct (_ || _); [discriminate|].
  destruct (fp_insn insn m) as [m1|] eqn:E; [|discriminate]; intros [= <-].
  destruct (fp_insn_tp insn m m1 E) as (fl & Hf & ->); unfold accrue; cbn [tp set_tp].
  split.
  - unfold field; rewrite <- !Z.land_ones, <- !shiftr_div by lia.
    apply Z.bits_inj'; intros i Hi.
    rewrite !Z.land_spec, !Z.shiftr_spec, Z.lor_spec, !Z.testbit_ones_nonneg by lia.
    destruct (Z.ltb_spec i 3); rewrite ?andb_false_r, ?andb_true_r; [|reflexivity].
    rewrite (range_bits 5 fl), orb_false_r, setup_tp_bits by lia; reflexivity.
  - intros i Hi T; rewrite Z.lor_spec, setup_tp_bits, T by lia; reflexivity.
Qed.
