(* ===== verification/FpFused.v ===== *)
(** * The fused multiply-add instructions

    [emulate_fmadd] of [machine/fp_emulation.c] against the F and D extensions: [FMADD],
    [FMSUB], [FNMSUB] and [FNMADD], which share one handler and are told apart by two bits of
    the major opcode. *)

From S2P Require Import Prelude FpSpec FpTheory SfEnv SfMulAdd SfMulAddF64 Encoding Machine Misaligned.
From S2P Require Import FpEmulation Emulation Csr FpInsn.
From Stdlib Require Import ZArith Lia Bool List.
Import ListNotations.

(** ** The instructions *)

(** The product is negated by [FNMADD] and [FNMSUB], the addend by [FMSUB] and [FNMADD]. *)
Inductive fused := FMADD | FMSUB | FNMSUB | FNMADD.

Definition fused_of (insn : Z) : option fused :=
  if opcode insn =? 0x43 then Some FMADD else if opcode insn =? 0x47 then Some FMSUB
  else if opcode insn =? 0x4B then Some FNMSUB else if opcode insn =? 0x4F then Some FNMADD
  else None.

Definition fused_result (k : fused) (F : fmt) (rm a b c : Z) : Z * Z :=
  match k with
  | FMADD => ieee_mul_add F rm a b c
  | FMSUB => ieee_mul_add F rm a b (fneg F c)
  | FNMSUB => ieee_mul_add F rm (fneg F a) b c
  | FNMADD => ieee_mul_add F rm (fneg F a) b (fneg F c)
  end.

(** What an instruction does on a state whose rounding mode is set up; [None] for a reserved
    precision. *)
Definition fused_insn (k : fused) (insn : Z) (m : machine) : option machine :=
  match fp_format insn with
  | None => None
  | Some F =>
      let r := fused_result k F (effective_rm insn m) (fread F m (rs1 insn)) (fread F m (rs2 insn))
                 (fread F m (rs3 insn)) in
      Some (fwrite F (rd insn) (fst r) (accrue (snd r) (setup insn m)))
  end.

(** ** The handler *)

Lemma run_GET_F32_RS3 insn m : GET_F32_RS3 insn m = Done (i32 (fregs m (rs3 insn))) m.
Proof. unfold GET_F32_RS3; by_freg_index. Qed.
Lemma run_GET_F64_RS3 insn m : GET_F64_RS3 insn m = Done (i64 (fregs m (rs3 insn))) m.
Proof. unfold GET_F64_RS3; by_freg_index. Qed.

#[export] Hint Rewrite run_GET_F32_RS3 run_GET_F64_RS3 : mach.

(** The bits of the opcode that select the signs. *)
Definition negates_product (k : fused) : bool := match k with FNMSUB | FNMADD => true
  | _ => false end.
Definition negates_addend (k : fused) : bool := match k with FMSUB | FNMADD => true
  | _ => false end.

Lemma fused_signs insn k :
  fused_of insn = Some k ->
  nz ((insn .>> 3) .& 1) = negates_product k /\ nz ((insn .>> 2) .& 1) = negates_addend k.
Proof.
  intros H; change 1 with (2 ^ 1 - 1); rewrite !shift_land_field by lia.
  assert (E : field insn 3 1 = field (opcode insn) 3 1 /\ field insn 2 1 = field (opcode insn) 2 1).
  { unfold opcode, field; change (2 ^ 0) with 1; rewrite Z.div_1_r; split; Z.div_mod_to_equations;
      lia. }
  destruct E as [-> ->]; unfold fused_of in H.
  repeat match type of H with context [?a =? ?b] => destruct (Z.eqb_spec a b) as [-> |] end;
    try discriminate H; injection H as <-; split; reflexivity.
Qed.

Lemma fused_result_signs k F rm a b c :
  fused_result k F rm a b c
  = ieee_mul_add F rm (if negates_product k then fneg F a else a) b
      (if negates_addend k then fneg F c else c).
Proof. destruct k; reflexivity. Qed.

Section Fused.
Context (F : fmt) (R : FpRoutines F).

Lemma mul_add_encoding rm a b c : encoding F c -> encoding F (fst (ieee_mul_add F rm a b c)).
Proof using R.
  destruct sf_bits as (Hf & He); unfold ieee_mul_add; intros Hc.
  pose proof (pow2_pos (one_exp F) (one_exp_nonneg F R)).
  repeat match goal with |- context [if ?c then _ else _] => destruct c eqn:? end;
    repeat first
      [ apply encoding_default_nan | apply encoding_inf | apply encoding_signbit
      | apply encoding_round | exact Hc | progress cbn [fst snd nan_result invalid_result] | lia ].
Qed.

Lemma sign_encoding (b : bool) x : encoding F x -> encoding F (if b then fneg F x else x).
Proof using R. destruct sf_bits; destruct b; auto using fneg_encoding. Qed.
End Fused.

Lemma operandF32 m i (b : bool) :
  u32 (i32 (fregs m i) .^ (if b then INT32_MIN else 0))
  = if b then fneg F32 (fread F32 m i) else fread F32 m i.
Proof.
  destruct b; [|rewrite Z.lxor_0_r; apply u32_fread].
  unfold u32; rewrite wrap_lxor by lia; fold u32; rewrite u32_fread.
  apply (fneg_lxor F32); [cbn; lia | cbn; lia | apply fread_encoding; cbn; lia].
Qed.

Lemma operandF64 m i (b : bool) :
  u64 (i64 (fregs m i) .^ (if b then INT64_MIN else 0))
  = if b then fneg F64 (fread F64 m i) else fread F64 m i.
Proof.
  destruct b; [|rewrite Z.lxor_0_r; apply u64_fread].
  unfold u64; rewrite wrap_lxor by lia; fold u64; rewrite u64_fread.
  apply (fneg_lxor F64); [cbn; lia | cbn; lia | apply fread_encoding; cbn; lia].
Qed.

(** ** Theorem *)

(** C9: the fused multiply-add instructions.  For every word of the opcodes [MADD], [MSUB],
    [NMSUB] and [NMADD]: with the unit off the trap is delegated; otherwise the handler
    multiplies and adds the three source registers with one rounding, in the precision and
    rounding mode of the instruction and with the signs of its opcode, writes the result,
    accrues the flags and marks the state dirty, or delegates the trap if the precision or
    the rounding mode is reserved. *)
Theorem fmadd_emulation_correct mcause mepc mstatus insn k m :
  wf m -> fused_of insn = Some k ->
  emulate_fmadd mcause mepc mstatus insn m =
    if fp_off mstatus then Redirected (delegated mepc mstatus insn m)
    else if (funct3 insn =? 5) || (funct3 insn =? 6) then
      Redirected (delegated mepc mstatus insn (set_tp (field (tp m) 0 8) m))
    else match fused_insn k insn m with
         | Some m' => Done tt m'
         | None => Redirected (delegated mepc mstatus insn (setup insn m))
         end.
Proof.
  intros W K; unfold emulate_fmadd; rewrite fp_off_test; destruct (fused_signs insn k K) as [-> ->].
  destruct (fp_off mstatus); [mrun; reflexivity|]; cbv zeta.
  unfold mbind at 1; rewrite run_SETUP_STATIC_ROUNDING.
  destruct (_ || _); cbv beta iota; cbn [negb]; [mrun; reflexivity|].
  unfold fused_insn, fp_format; rewrite GET_PRECISION_field; unfold PRECISION_S, PRECISION_D.
  destruct (field insn 25 2 =? 0); [|destruct (field insn 25 2 =? 1)]; [| |mrun; reflexivity].
  - mrun; rewrite !operandF32, u32_fread, fused_result_signs.
    pose proof (fun i => fread_encoding F32 m i ltac:(cbn; lia)) as E.
    pose proof (mulAddF32_spec _ _ _ (sign_encoding F32 _ (negates_product k) _ (E (rs1 insn)))
                  (E (rs2 insn)) (sign_encoding F32 _ (negates_addend k) _ (E (rs3 insn)))) as M.
    exact (run_compute insn m W F32 _ _ M
             (fun rm => mul_add_encoding F32 _ rm _ _ _ (sign_encoding F32 _ _ _ (E _)))).
  - mrun; rewrite !operandF64, u64_fread, fused_result_signs.
    pose proof (fun i => fread_encoding F64 m i ltac:(cbn; lia)) as E.
    pose proof (mulAddF64_spec _ _ _ (sign_encoding F64 _ (negates_product k) _ (E (rs1 insn)))
                  (E (rs2 insn)) (sign_encoding F64 _ (negates_addend k) _ (E (rs3 insn)))) as M.
    exact (run_compute insn m W F64 _ _ M
             (fun rm => mul_add_encoding F64 _ rm _ _ _ (sign_encoding F64 _ _ _ (E _)))).
Qed.

(** [fnmsub.s f4, f1, f2, f3] of 3, 5 and 1: [-15 + 1]. *)
Lemma fmadd_emulation_correct_witness :
  let m := set_freg 1 0x40400000 (set_freg 2 0x40A00000 (set_freg 3 0x3F800000 blank)) in
  wf m /\
  match emulate_fmadd 2 0x10000 MSTATUS_FS 0x1820824B m with
  | Done _ m' => (fregs m' 4, field (tp m') 0 5)
  | _ => (0, 1)
  end = (0xC1600000, 0).
Proof.
  intros m; assert (W : wf m) by (repeat apply wf_set_freg; auto with wf; lia).
  split; [exact W|].
  rewrite (fmadd_emulation_correct 2 0x10000 MSTATUS_FS 0x1820824B FNMSUB m W eq_refl).
  vm_compute; reflexivity.
Defined.
