(* ===== verification/FpConv.v ===== *)
(** * Minimum, maximum and the integer conversions

    [emulate_fmin], [emulate_fcvt_fi] and [emulate_fcvt_if] of [machine/fp_emulation.c].
    The conversions go through an unsigned 64-bit integer and a double: they are right where
    that detour is exact, and where it is not the theorems say what comes out. *)

From S2P Require Import Prelude FpSpec FpTheory SfEnv SfAdd SfMul SfCompare SfConvert SfToInt.
From S2P Require Import FpNearest Encoding Machine FpEmulation Csr FpInsn.
From Stdlib Require Import ZArith Lia Bool List.
Import ListNotations.

(** ** Minimum and maximum *)

(** [k] is 0 for the minimum and 1 for the maximum; an operand that is not a NaN is
    preferred to one that is. *)
Definition fminmax (F : fmt) (k a b : Z) : Z :=
  if is_nan F b then a
  else if is_nan F a then b
  else if k =? 0 then (if fval F a <? fval F b then a else b)
  else (if fval F b <? fval F a then a else b).

Definition snan_flag (F : fmt) (a b : Z) : Z :=
  if is_snan F a || is_snan F b then softfloat_flag_invalid else 0.

Lemma fminmax_select F k a b lt :
  k = 0 \/ k = 1 ->
  lt = fst (if nz k then ieee_compare F Z.ltb false b a else ieee_compare F Z.ltb false a b) ->
  (if lt || is_nan F b then a else b) = fminmax F k a b.
Proof.
  intros [-> | ->] ->; unfold fminmax, ieee_compare, nz; cbn [Z.eqb negb];
    destruct (is_nan F a), (is_nan F b); cbn [orb fst]; rewrite ?orb_true_r, ?orb_false_r;
    reflexivity.
Qed.

Lemma fminmax_flags F k a b :
  k = 0 \/ k = 1 ->
  snd (if nz k then ieee_compare F Z.ltb false b a else ieee_compare F Z.ltb false a b)
  = snan_flag F a b.
Proof.
  assert (N : is_nan F a || is_nan F b = false -> is_snan F a || is_snan F b = false).
  { unfold is_snan; destruct (is_nan F a), (is_nan F b); auto; discriminate. }
  intros [-> | ->]; unfold snan_flag, ieee_compare, nz; cbn [Z.eqb negb orb];
    rewrite ?(orb_comm (is_nan F b)), ?(orb_comm (is_snan F b));
    destruct (is_nan F a || is_nan F b); cbn [snd]; rewrite ?N by reflexivity; reflexivity.
Qed.

(** The handler at one precision. *)
Definition minmax (F : fmt) {R : FpRoutines F} (is_nan_code : Z -> bool) (insn : Z) : M unit :=
  let! rs1 := sf_get1 insn in
  let! rs2 := sf_get2 insn in
  let rs1 := wrap (fwidth F) rs1 in
  let rs2 := wrap (fwidth F) rs2 in
  let arg1 := if nz (GET_RM insn) then rs2 else rs1 in
  let arg2 := if nz (GET_RM insn) then rs1 else rs2 in
  let! lt := softfloat (sf_lt_quiet arg1 arg2) in
  sf_set insn (if lt || is_nan_code rs2 then rs1 else rs2).

Lemma run_minmax F {R : FpRoutines F} is_nan_code insn m :
  wf m -> (forall a, encoding F a -> is_nan_code a = is_nan F a) ->
  funct3 insn = 0 \/ funct3 insn = 1 ->
  let a := fread F m (rs1 insn) in
  let b := fread F m (rs2 insn) in
  minmax F is_nan_code insn (setup insn m)
  = Done tt (fwrite F (rd insn) (fminmax F (funct3 insn) a b)
               (accrue (snan_flag F a b) (setup insn m))).
Proof.
  intros W N K a b; unfold minmax; rewrite GET_RM_field.
  rewrite (run_bind _ _ _ _ _ (sf_get1_ok _ _)), (run_bind _ _ _ _ _ (sf_get2_ok _ _)).
  rewrite !operand_wrap; fold a b; cbv zeta.
  pose proof (operand_encoding m F (rs1 insn)) as Ha;
    pose proof (operand_encoding m F (rs2 insn)) as Hb.
  fold a in Ha; fold b in Hb.
  set (x := if nz (funct3 insn) then b else a); set (y := if nz (funct3 insn) then a else b).
  assert (S : meets (sf_lt_quiet x y)
    (fun _ => if nz (funct3 insn) then ieee_compare F Z.ltb false b a
              else ieee_compare F Z.ltb false a b))
    by (subst x y; destruct (nz (funct3 insn)); apply sf_lt_quiet_ok; assumption).
  rewrite (run_bind _ _ _ _ _ (run_softfloat _ _ _ S)), (N b Hb).
  rewrite (fminmax_select F (funct3 insn) a b _ K eq_refl), (fminmax_flags F _ a b K).
  rewrite sf_set_ok by (apply wf_setup; exact W); rewrite wrap_small; [reflexivity|].
  unfold fminmax; repeat match goal with |- context [if ?c then _ else _] => destruct c end;
    assumption.
Qed.

(** ** From integers *)

(** The integer a register holds, by the format field: [W], [WU], [L], [LU]. *)
Definition int_value (kind x : Z) : Z :=
  if kind =? 0 then i32 x else if kind =? 1 then u32 x else if kind =? 2 then i64 x else x.

Lemma fcvt_fi_operand_spec kind x :
  0 <= kind < 4 -> 0 <= x < 2 ^ 64 ->
  fcvt_fi_operand kind x = Some (int_value kind x <? 0, Z.abs (int_value kind x)).
Proof.
  intros Hk Hx; unfold fcvt_fi_operand, int_value.
  assert (K : kind = 0 \/ kind = 1 \/ kind = 2 \/ kind = 3) by lia.
  destruct K as [-> | [-> | [-> | ->]]]; cbn [Z.eqb Pos.eqb].
  - do 2 f_equal; pose proof (swrap_range 32 x ltac:(lia)) as R; fold (i32 x) in R.
    rewrite <- (abs_u32 (i32 x)) by lia; unfold u32, i32; rewrite wrap_swrap.
    destruct (swrap 32 x <? 0); [|reflexivity].
    fold (u32 (u64 (- x))); rewrite u32_u64; symmetry; apply wrap_opp; lia.
  - pose proof (u32_range x); rewrite (proj2 (Z.ltb_ge _ _)), Z.abs_eq by lia; reflexivity.
  - do 2 f_equal; pose proof (swrap_range 64 x ltac:(lia)) as R; fold (i64 x) in R.
    rewrite <- (abs_u64 (i64 x)) by lia; unfold u64, i64; rewrite wrap_swrap.
    rewrite (wrap_small 64 x) by lia; reflexivity.
  - rewrite (proj2 (Z.ltb_ge _ _)), Z.abs_eq by lia; reflexivity.
Qed.

(** What the code computes: the magnitude to a double, its sign, and the double to a single. *)
Definition through_double (rm n : Z) : Z * Z :=
  let r := ieee_from_int F64 rm (Z.abs n) in
  (if n <? 0 then fneg F64 (fst r) else fst r, snd r).

Definition fcvt_from_int (single : bool) (rm n : Z) : Z * Z :=
  let d := through_double rm n in
  if single then
    let r := ieee_convert F64 F32 rm (fst d) in (fst r, snd d .| snd r)
  else d.

Lemma from_int_flags F rm n : 0 <= snd (ieee_from_int F rm n) < 2 ^ 5.
Proof. unfold ieee_from_int; flag_range. Qed.

Lemma from_int_encoding F {R : FpRoutines F} rm n : encoding F (fst (ieee_from_int F rm n)).
Proof.
  destruct (sf_bits (F := F)) as (Hf & He); unfold ieee_from_int; destruct (n =? 0).
  - apply (encoding_signbit F Hf He false).
  - apply encoding_round; lia.
Qed.

Lemma rounding_mode_accrue fl m :
  0 <= fl < 2 ^ 5 -> rounding_mode (accrue fl m) = rounding_mode m.
Proof.
  intros H; unfold rounding_mode, accrue; cbn [tp set_tp].
  rewrite Z.shiftr_lor, (shiftr_div fl), (Z.div_small fl), Z.lor_0_r by lia; reflexivity.
Qed.

Lemma accrue_accrue f g m : accrue g (accrue f m) = accrue (f .| g) m.
Proof. unfold accrue; cbn [tp set_tp]; rewrite Z.lor_assoc; reflexivity. Qed.

Lemma fneg_sign_bit x : encoding F64 x -> u64 (x .^ u64 INT64_MIN) = fneg F64 x.
Proof.
  intros Hx; change (u64 INT64_MIN) with (2 ^ (fbits F64 + ebits F64)).
  rewrite fneg_lxor by (cbn; lia || assumption).
  apply u64_small, (fneg_encoding F64); [cbn; lia | cbn; lia | assumption].
Qed.

Lemma int_value_range kind x :
  0 <= x < 2 ^ 64 -> 0 <= kind < 4 -> 0 <= Z.abs (int_value kind x) < 2 ^ 64.
Proof.
  intros Hx Hk; unfold int_value; pose proof (swrap_range 32 x ltac:(lia)).
  pose proof (swrap_range 64 x ltac:(lia)); pose proof (u32_range x).
  unfold i32, i64 in *; destruct (kind =? 0); [lia|]; destruct (kind =? 1); [lia|].
  destruct (kind =? 2); lia.
Qed.

Section FromInt.
Context (mcause mepc mstatus insn : Z) (m : machine) (W : wf m).
Let n := int_value (rs2 insn) (xregs m (rs1 insn)).
Let rm := effective_rm insn m.

Lemma through_double_encoding : encoding F64 (fst (through_double rm n)).
Proof using.
  unfold through_double; pose proof (from_int_encoding F64 rm (Z.abs n)) as E.
  destruct (n <? 0); [apply fneg_encoding; [cbn; lia | cbn; lia |]|]; exact E.
Qed.

Lemma run_emulate_fcvt_fi F :
  fp_format insn = Some F -> rs2 insn < 4 ->
  let r := fcvt_from_int (field insn 25 2 =? 0) rm n in
  emulate_fcvt_fi mcause mepc mstatus insn (setup insn m)
  = Done tt (fwrite F (rd insn) (fst r) (accrue (snd r) (setup insn m))).
Proof using W.
  intros HF HK r; pose proof (field_range insn 20 5 ltac:(lia)) as HR; fold (rs2 insn) in HR.
  pose proof (wf_xregs m W (rs1 insn)) as HX.
  pose proof (int_value_range (rs2 insn) _ HX ltac:(lia)) as HN; fold n in HN.
  unfold emulate_fcvt_fi; change 0x1f with (2 ^ 5 - 1); rewrite shift_land_field by lia.
  fold (rs2 insn); rewrite !GET_PRECISION_field; unfold PRECISION_S, PRECISION_D.
  pose proof through_double_encoding as HD; pose proof (from_int_flags F64 rm (Z.abs n)) as Hfl.
  unfold fp_format in HF; subst r; unfold fcvt_from_int.
  assert (V : (negb (field insn 25 2 =? 0) && negb (field insn 25 2 =? 1)) = false)
    by (destruct (field insn 25 2 =? 0), (field insn 25 2 =? 1); discriminate HF || reflexivity).
  rewrite V; mrun; change (xregs (setup insn m)) with (xregs m).
  rewrite fcvt_fi_operand_spec by lia; fold n; mrun.
  rewrite (run_softfloat _ _ _ (ui64_to_f64_spec (Z.abs n) HN)), rounding_mode_setup; fold rm.
  cbv beta iota; rewrite fneg_sign_bit by apply (from_int_encoding F64).
  change (if n <? 0 then _ else _) with (fst (through_double rm n)).
  destruct (field insn 25 2 =? 0).
  - injection HF as <-; mrun.
    rewrite (run_softfloat _ _ _ (f64_to_f32_spec _ HD)), rounding_mode_accrue, rounding_mode_setup
      by assumption; fold rm; mrun.
    rewrite u32_small by (apply (convert_encoding F32 _ F64); cbn; lia).
    rewrite accrue_accrue; reflexivity.
  - destruct (field insn 25 2 =? 1); [|discriminate HF]; injection HF as <-.
    rewrite run_SET_F64_RD, u64_small by (apply wf_setup, W || apply HD); reflexivity.
Qed.
End FromInt.

(** *** Where the detour is exact *)

Lemma fval_pos_mag F x v :
  1 <= fbits F -> 1 <= ebits F -> 0 < v ->
  (fval F x = v -> fsign F x = false /\ mag F x = v) /\
  (fval F x = - v -> fsign F x = true /\ mag F x = v).
Proof.
  intros Hf He Hv; pose proof (mag_nonneg F x Hf He); unfold fval.
  destruct (fsign F x); split; intros; split; lia || reflexivity.
Qed.

(** [53] significant bits in the normal range are a double, whatever the rounding mode. *)
Lemma double_exact n j :
  0 < n < 2 ^ 53 -> 52 <= j <= 2000 ->
  exists x, 0 <= x < 2 ^ 63 /\ forall rm s,
    ieee_round F64 rm s (n * 2 ^ j) 1 = (signbit F64 s + x, 0) /\
    fsign F64 (signbit F64 s + x) = s /\
    mag F64 (signbit F64 s + x) = n * 2 ^ j /\
    fexp F64 (signbit F64 s + x) <> emax F64.
Proof.
  intros Hn Hj; set (l := Z.log2 n); pose proof (Z.log2_spec n ltac:(lia)) as L; fold l in L.
  assert (Hl : 0 <= l < 53) by (split; [apply Z.log2_nonneg | apply Z.log2_lt_pow2; lia]).
  assert (P : 2 ^ 52 = 2 ^ l * 2 ^ (52 - l)) by (apply pow2_split; lia).
  set (c := n * 2 ^ (52 - l)); pose proof (pow2_pos (52 - l) ltac:(lia)).
  rewrite <- Z.add_1_r, pow2_succ in L by lia.
  assert (Hc : 2 ^ 52 <= c < 2 ^ 53) by (unfold c; change (2 ^ 53) with (2 * 2 ^ 52); nia).
  set (e := j + l - 52).
  assert (E : n * 2 ^ j = c * 2 ^ e).
  { unfold c; rewrite <- Z.mul_assoc, <- Z.pow_add_r by lia; do 2 f_equal; lia. }
  exists (e * 2 ^ 52 + c); rewrite E.
  assert (I : e * 2 ^ 52 + c < inf_mag F64)
    by (change (inf_mag F64) with (0x7FF * 2 ^ 52); lia).
  split; [change (inf_mag F64) with (0x7FF * 2 ^ 52) in I; lia|]; intros rm s'.
  split; [apply (ieee_round_exact F64); cbn [fbits F64]; lia|].
  destruct (mag_encoding F64 ltac:(cbn; lia) ltac:(cbn; lia) s' e c) as [V X];
    try (cbn [fbits F64]; lia).
  pose proof (pow2_pos e ltac:(lia)).
  destruct (fval_pos_mag F64 (signbit F64 s' + (e * 2 ^ 52 + c)) (c * 2 ^ e)
              ltac:(cbn; lia) ltac:(cbn; lia) ltac:(nia)) as [A B].
  cbn [fbits F64] in V, X.
  destruct s'; [destruct B as [-> ->] | destruct A as [-> ->]]; auto; lia.
Qed.

Lemma fneg_signbit x : 0 <= x < 2 ^ 63 -> fneg F64 x = signbit F64 true + x.
Proof.
  intros Hx; unfold fneg; rewrite fsign_ltb by (cbn; lia).
  change (2 ^ (fbits F64 + ebits F64)) with (2 ^ 63).
  rewrite (proj2 (Z.leb_gt _ _)) by lia; unfold signbit; cbn [Z.b2z].
  change (2 ^ (fbits F64 + ebits F64)) with (2 ^ 63); lia.
Qed.

Lemma through_double_small rm n :
  0 < Z.abs n < 2 ^ 53 ->
  through_double rm n = ieee_from_int F64 rm n /\
  snd (ieee_from_int F64 rm n) = 0 /\
  let x := fst (ieee_from_int F64 rm n) in
  fsign F64 x = (n <? 0) /\ mag F64 x = Z.abs n * 2 ^ one_exp F64 /\ fexp F64 x <> emax F64.
Proof.
  intros Hn; unfold through_double, ieee_from_int.
  rewrite (proj2 (Z.eqb_neq n 0)), (proj2 (Z.eqb_neq (Z.abs n) 0)), Z.abs_idemp by lia.
  rewrite (proj2 (Z.ltb_ge (Z.abs n) 0)) by lia.
  change (one_exp F64) with 1074; destruct (double_exact (Z.abs n) 1074 Hn ltac:(lia)) as (x & Hx & P).
  destruct (P rm false) as (-> & _), (P rm (n <? 0)) as (-> & S & V & X); cbn [fst snd].
  split; [|auto]; f_equal; destruct (n <? 0); [|reflexivity].
  rewrite <- fneg_signbit by assumption; f_equal; apply Z.add_0_l.
Qed.

Lemma fcvt_small single rm n :
  Z.abs n < 2 ^ 53 ->
  fcvt_from_int single rm n = ieee_from_int (if single then F32 else F64) rm n.
Proof.
  intros Hn; destruct (Z.eq_dec n 0) as [->|N]; [destruct single; reflexivity|].
  unfold fcvt_from_int.
  destruct (through_double_small rm n ltac:(lia)) as (-> & F0 & S & V & X).
  destruct single; [|reflexivity]; rewrite F0, Z.lor_0_l.
  set (x := fst (ieee_from_int F64 rm n)) in *; unfold ieee_convert.
  destruct (finite_fields F64 x) as [-> ->]; [exact X|].
  pose proof (pow2_pos (one_exp F64) ltac:(cbn; lia)) as P.
  rewrite (proj2 (Z.eqb_neq (mag F64 x) 0)), S, V by nia; unfold ieee_from_int.
  rewrite (proj2 (Z.eqb_neq n 0)) by lia.
  rewrite (ieee_round_ratio F32 rm (n <? 0) _ _ (Z.abs n * 2 ^ one_exp F32) 1) by (lia || ring).
  destruct (ieee_round _ _ _ _ _); reflexivity.
Qed.

(** The modes that treat both signs alike. *)
Definition symmetric (rm : Z) : bool :=
  negb ((rm =? softfloat_round_min) || (rm =? softfloat_round_max)).

Lemma rint_symmetric rm s p d : symmetric rm = true -> rint rm s p d = rint rm false p d.
Proof.
  unfold symmetric, rint, rounds_up; intros H.
  destruct (rm =? softfloat_round_min), (rm =? softfloat_round_max); discriminate H || reflexivity.
Qed.

Lemma ieee_round_symmetric F rm p q :
  symmetric rm = true ->
  ieee_round F rm true p q
  = (2 ^ (fbits F + ebits F) + fst (ieee_round F rm false p q), snd (ieee_round F rm false p q)).
Proof.
  intros H; unfold ieee_round, rmag, tiny; rewrite !(rint_symmetric rm true) by assumption.
  assert (A : rounds_away rm true = rounds_away rm false).
  { unfold rounds_away, symmetric in *.
    destruct (rm =? softfloat_round_min), (rm =? softfloat_round_max); try discriminate H.
    rewrite !andb_false_l; reflexivity. }
  rewrite A; unfold signbit; destruct (_ <=? _); cbn [fst snd Z.b2z]; f_equal; lia.
Qed.

Lemma fcvt_double_symmetric rm n :
  0 <= n \/ symmetric rm = true -> Z.abs n < 2 ^ 64 ->
  fcvt_from_int false rm n = ieee_from_int F64 rm n.
Proof.
  intros C Hn; unfold fcvt_from_int, through_double, ieee_from_int.
  destruct (Z.eqb_spec n 0) as [->|N]; [reflexivity|].
  rewrite (proj2 (Z.eqb_neq (Z.abs n) 0)), Z.abs_idemp by lia.
  rewrite (proj2 (Z.ltb_ge (Z.abs n) 0)) by lia.
  destruct (Z.ltb_spec n 0) as [L|L]; [|symmetry; apply surjective_pairing].
  destruct C as [C|C]; [lia|]; rewrite (ieee_round_symmetric F64 rm) by assumption.
  pose proof (encoding_round F64 ltac:(cbn; lia) ltac:(cbn; lia) rm true
                (Z.abs n * 2 ^ one_exp F64) 1 ltac:(cbn; lia) ltac:(lia)) as E.
  rewrite (ieee_round_symmetric F64 rm) in E by assumption; cbn [fst] in E.
  pose proof (encoding_round F64 ltac:(cbn; lia) ltac:(cbn; lia) rm false
                (Z.abs n * 2 ^ one_exp F64) 1 ltac:(cbn; lia) ltac:(lia)) as E'.
  unfold encoding, fwidth in E, E'.
  change (2 ^ (1 + ebits F64 + fbits F64)) with (2 ^ 64) in *.
  change (2 ^ (fbits F64 + ebits F64)) with (2 ^ 63) in *.
  rewrite fneg_signbit by lia; reflexivity.
Qed.

(** ** To integers *)

(** The integer a value rounds to. *)
Definition fround (F : fmt) (rm a : Z) : Z :=
  let n := rint rm (fsign F a) (mag F a) (2 ^ one_exp F) in if fsign F a then - n else n.

(** The limits of the integer formats [W], [WU], [L] and [LU]. *)
Definition int_min (kind : Z) : Z :=
  if kind =? 0 then - 2 ^ 31 else if kind =? 2 then - 2 ^ 63 else 0.
Definition int_max (kind : Z) : Z :=
  if kind =? 0 then 2 ^ 31 - 1 else if kind =? 1 then 2 ^ 32 - 1
  else if kind =? 2 then 2 ^ 63 - 1 else 2 ^ 64 - 1.

(** What the code computes from a double: its magnitude to an unsigned integer, then the
    sign and the limits. *)
Definition fcvt_to_int (kind rm x : Z) : Z * Z :=
  let r := ieee_to_uint F64 64 true rm (x mod 2 ^ 63) in
  let '(result, limit, limit_result) := fcvt_if_result kind (fsign F64 x) (fst r) in
  if limit <? fst r then (limit_result, snd r .| softfloat_flag_invalid) else (result, snd r).

Lemma drop_sign x :
  encoding F64 x ->
  (if i64 x <? 0 then u64 (x .^ u64 INT64_MIN) else x) = x mod 2 ^ 63 /\
  (i64 x <? 0) = fsign F64 x.
Proof.
  intros Hx; rewrite fneg_sign_bit by assumption; unfold fneg.
  rewrite (fsign_ltb F64 x) by (cbn; lia || assumption).
  change (2 ^ (fbits F64 + ebits F64)) with (2 ^ 63).
  unfold encoding in Hx; change (2 ^ fwidth F64) with (2 ^ 64) in Hx.
  pose proof (swrap_range 64 x ltac:(lia)) as R; fold (i64 x) in R.
  pose proof (wrap_swrap 64 x) as Q; fold (i64 x) in Q; unfold wrap in Q.
  rewrite (Z.mod_small x) in Q by lia.
  destruct (Z.leb_spec (2 ^ 63) x), (Z.ltb_spec (i64 x) 0).
  - split; [|reflexivity]; apply (Z.mod_unique_pos _ _ 1); lia.
  - rewrite Z.mod_small in Q by lia; lia.
  - rewrite <- (Z.mod_add (i64 x) 1), Z.mod_small in Q by lia; lia.
  - split; [|reflexivity]; symmetry; apply Z.mod_small; lia.
Qed.

Lemma to_uint_flags F w e rm a : 0 <= snd (ieee_to_uint F w e rm a) < 2 ^ 5.
Proof. unfold ieee_to_uint; flag_range. Qed.

Lemma abs_fields x :
  fexp F64 (x mod 2 ^ 63) = fexp F64 x /\ ffrac F64 (x mod 2 ^ 63) = ffrac F64 x /\
  fsign F64 (x mod 2 ^ 63) = false.
Proof.
  unfold fexp, ffrac, fsign; cbn [fbits ebits F64].
  repeat split; try (Z.div_mod_to_equations; lia).
  rewrite Z.div_small by (apply Z.mod_pos_bound; lia); reflexivity.
Qed.

Lemma fround_abs F rm x :
  fsign F x = false \/ symmetric rm = true -> 1 <= fbits F -> 1 <= ebits F -> 0 <= one_exp F ->
  rint rm false (mag F x) (2 ^ one_exp F) = Z.abs (fround F rm x) /\
  (0 < fround F rm x -> fsign F x = false) /\ (fround F rm x < 0 -> fsign F x = true).
Proof.
  intros C Hf He Ho; unfold fround; pose proof (mag_nonneg F x Hf He).
  pose proof (pow2_pos (one_exp F) Ho) as P.
  assert (N : forall s, 0 <= rint rm s (mag F x) (2 ^ one_exp F)).
  { intros s; pose proof (rint_range rm s (mag F x) _ P).
    pose proof (Z.div_pos (mag F x) (2 ^ one_exp F) ltac:(lia) P); lia. }
  assert (S : rint rm (fsign F x) (mag F x) (2 ^ one_exp F) = rint rm false (mag F x) (2 ^ one_exp F))
    by (destruct C as [-> | C]; [reflexivity | apply rint_symmetric, C]).
  rewrite S; specialize (N false); destruct (fsign F x); rewrite ?Z.abs_opp, Z.abs_eq by lia;
    repeat split; lia.
Qed.

(** A finite double whose rounded value fits. *)
Lemma fcvt_to_int_fits kind rm x :
  0 <= kind < 4 -> fexp F64 x <> emax F64 ->
  fsign F64 x = false \/ symmetric rm = true ->
  int_min kind <= fround F64 rm x <= int_max kind ->
  (kind = 1 -> fround F64 rm x < 2 ^ 31) ->
  fcvt_to_int kind rm x
  = (u64 (fround F64 rm x),
     if inexact (mag F64 x) (2 ^ one_exp F64) then softfloat_flag_inexact else 0).
Proof.
  intros Hk Hx C R W; unfold fcvt_to_int, ieee_to_uint.
  destruct (abs_fields x) as (E1 & E2 & E3).
  destruct (finite_fields F64 (x mod 2 ^ 63)) as [-> ->]; [congruence|].
  assert (M : mag F64 (x mod 2 ^ 63) = mag F64 x) by (unfold mag; rewrite E1, E2; reflexivity).
  destruct (fround_abs F64 rm x C ltac:(cbn; lia) ltac:(cbn; lia) ltac:(cbn; lia)) as (A & P & N).
  rewrite E3, M, A; set (n := fround F64 rm x) in *; clearbody n; unfold int_min, int_max in R.
  assert (B : Z.abs n < 2 ^ 64)
    by (destruct (kind =? 0), (kind =? 1), (kind =? 2); lia).
  rewrite (proj2 (Z.leb_gt _ _)) by lia; cbn [andb orb fst snd]; unfold fcvt_if_result.
  change (u32 INT32_MIN) with (2 ^ 31); change (u64 INT64_MIN) with (2 ^ 63).
  assert (K : kind = 0 \/ kind = 1 \/ kind = 2 \/ kind = 3) by lia.
  destruct K as [-> | [-> | [-> | ->]]]; cbn [Z.eqb Pos.eqb] in R |- *;
    destruct (fsign F64 x); rewrite (proj2 (Z.ltb_ge _ _)) by lia; f_equal.
  - unfold i32; rewrite swrap_small by lia; f_equal; lia.
  - unfold i32; rewrite swrap_small by lia; f_equal; lia.
  - replace n with 0 by lia; reflexivity.
  - rewrite u32_small, u64_small by lia; lia.
  - rewrite <- Z.abs_opp; f_equal; lia.
  - rewrite u64_small by lia; lia.
  - replace n with 0 by lia; reflexivity.
  - rewrite u64_small by lia; lia.
Qed.

(** A negative double to an unsigned format. *)
Lemma fcvt_to_int_negative kind rm x :
  kind = 1 \/ kind = 3 -> fsign F64 x = true -> is_nan F64 x = false ->
  2 ^ one_exp F64 <= mag F64 x ->
  fst (fcvt_to_int kind rm x) = int_max kind.
Proof.
  intros Hk S N G; unfold fcvt_to_int; rewrite S.
  destruct (abs_fields x) as (E1 & E2 & E3).
  assert (M : mag F64 (x mod 2 ^ 63) = mag F64 x) by (unfold mag; rewrite E1, E2; reflexivity).
  assert (P : 0 < fst (ieee_to_uint F64 64 true rm (x mod 2 ^ 63))).
  { unfold ieee_to_uint, is_nan in *; rewrite E1, E2, N, E3, M.
    pose proof (rint_range rm false (mag F64 x) (2 ^ one_exp F64) ltac:(cbn; lia)) as R.
    pose proof (Z.div_le_lower_bound (mag F64 x) (2 ^ one_exp F64) 1 ltac:(cbn; lia) ltac:(lia)).
    destruct (_ || _); cbn [fst]; lia. }
  destruct Hk as [-> | ->]; unfold fcvt_if_result; cbn [Z.eqb Pos.eqb];
    rewrite (proj2 (Z.ltb_lt _ _) P); reflexivity.
Qed.

(** A negative double with a fraction, rounding downward. *)
Lemma fcvt_to_int_downward kind x :
  kind = 0 \/ kind = 2 -> fsign F64 x = true -> fexp F64 x <> emax F64 ->
  let n := mag F64 x / 2 ^ one_exp F64 in
  n <= 2 ^ 31 -> fst (fcvt_to_int kind softfloat_round_min x) = u64 (- n).
Proof.
  intros Hk S X n B; unfold fcvt_to_int, ieee_to_uint.
  destruct (abs_fields x) as (E1 & E2 & E3).
  destruct (finite_fields F64 (x mod 2 ^ 63)) as [-> ->]; [congruence|].
  assert (M : mag F64 (x mod 2 ^ 63) = mag F64 x) by (unfold mag; rewrite E1, E2; reflexivity).
  pose proof (mag_nonneg F64 x ltac:(cbn; lia) ltac:(cbn; lia)) as P.
  pose proof (Z.div_pos _ _ P (pow2_pos (one_exp F64) ltac:(cbn; lia))) as Q; fold n in Q.
  assert (R : rint softfloat_round_min false (mag F64 x) (2 ^ one_exp F64) = n)
    by apply Z.add_0_r.
  rewrite E3, M, R, S; clearbody n; rewrite (proj2 (Z.leb_gt _ _)) by lia; cbn [andb orb fst snd].
  unfold fcvt_if_result; change (u32 INT32_MIN) with (2 ^ 31); change (u64 INT64_MIN) with (2 ^ 63).
  destruct Hk as [-> | ->]; cbn [Z.eqb Pos.eqb]; rewrite (proj2 (Z.ltb_ge _ _)) by lia; cbn [fst].
  - unfold i32; rewrite swrap_small by lia; reflexivity.
  - reflexivity.
Qed.

(** The widening in front of the conversion of a single. *)
Lemma widen_exact rm a :
  encoding F32 a -> fexp F32 a <> emax F32 ->
  snd (ieee_convert F32 F64 rm a) = 0 /\ let x := fst (ieee_convert F32 F64 rm a) in
  fsign F64 x = fsign F32 a /\ mag F64 x = mag F32 a * 2 ^ (one_exp F64 - one_exp F32) /\
    fexp F64 x <> emax F64.
Proof.
  intros Ha Hx; unfold ieee_convert; destruct (finite_fields F32 a Hx) as [-> ->].
  destruct (Z.eqb_spec (mag F32 a) 0) as [Z0|NZ].
  - rewrite Z0; destruct (fsign F32 a); repeat split; vm_compute; discriminate.
  - assert (D : exists c e, 0 < c < 2 ^ 53 /\ 0 <= e <= 253 /\ mag F32 a = c * 2 ^ e).
    { pose proof (ffrac_range F32 a ltac:(cbn; lia)); pose proof (fexp_range F32 a ltac:(cbn; lia)).
      cbn [fbits F32] in *; change (emax F32) with 255 in *; unfold mag in *; cbn [fbits F32] in *.
      destruct (Z.eqb_spec (fexp F32 a) 0).
      - exists (ffrac F32 a), 0; lia.
      - exists (2 ^ 23 + ffrac F32 a), (fexp F32 a - 1); lia. }
    destruct D as (c & e & Hc & He & M).
    destruct (double_exact c (925 + e) Hc ltac:(lia)) as (y & _ & P).
    specialize (P rm (fsign F32 a)).
    rewrite (ieee_round_ratio F64 rm _ _ _ (c * 2 ^ (925 + e)) 1);
      [| cbn; lia | lia | rewrite M; change (one_exp F64) with (925 + 149);
                          change (one_exp F32) with 149; rewrite !Z.pow_add_r by lia; ring].
    destruct P as (-> & S & V & X); cbn [fst snd]; repeat split; try assumption.
    rewrite V, M; change (one_exp F64 - one_exp F32) with 925.
    rewrite Z.pow_add_r by lia; ring.
Qed.

Lemma fround_widen rm a x :
  fsign F64 x = fsign F32 a -> mag F64 x = mag F32 a * 2 ^ (one_exp F64 - one_exp F32) ->
  fround F64 rm x = fround F32 rm a /\ inexact (mag F64 x) (2 ^ one_exp F64) = inexact (mag F32 a) (2 ^ one_exp F32).
Proof.
  intros S M; unfold fround; rewrite S, M.
  assert (E : mag F32 a * 2 ^ (one_exp F64 - one_exp F32) * 2 ^ one_exp F32
              = mag F32 a * 2 ^ one_exp F64) by (cbn; ring).
  pose proof (pow2_pos (one_exp F64) ltac:(cbn; lia)) as P64.
  pose proof (pow2_pos (one_exp F32) ltac:(cbn; lia)) as P32.
  rewrite (rint_ratio rm (fsign F32 a) _ _ _ _ P64 P32 E), (inexact_ratio _ _ _ _ P64 P32 E).
  auto.
Qed.

(** The double [emulate_fcvt_if] works on. *)
Definition as_double (F : fmt) (rm a : Z) : Z * Z :=
  if fbits F =? 23 then ieee_convert F32 F64 rm a else (a, 0).

Lemma fp_format_cases insn F :
  fp_format insn = Some F ->
  (F = F32 /\ field insn 25 2 = 0) \/ (F = F64 /\ field insn 25 2 = 1).
Proof.
  unfold fp_format; destruct (Z.eqb_spec (field insn 25 2) 0); [intros [= <-]; auto|].
  destruct (Z.eqb_spec (field insn 25 2) 1); [intros [= <-]; auto | discriminate].
Qed.

Lemma format_encoding insn F m i : fp_format insn = Some F -> encoding F (fread F m i).
Proof.
  intros HF; apply fread_encoding; destruct (fp_format_cases insn F HF) as [[-> _] | [-> _]];
    cbn; lia.
Qed.

Lemma as_double_fields insn F rm a :
  fp_format insn = Some F -> encoding F a -> fexp F a <> emax F ->
  let x := fst (as_double F rm a) in
  snd (as_double F rm a) = 0 /\ fexp F64 x <> emax F64 /\ fsign F64 x = fsign F a /\
  mag F64 x = mag F a * 2 ^ (one_exp F64 - one_exp F) /\
  fround F64 rm x = fround F rm a /\
  inexact (mag F64 x) (2 ^ one_exp F64) = inexact (mag F a) (2 ^ one_exp F).
Proof.
  intros HF Ha Hx; destruct (fp_format_cases insn F HF) as [[-> _] | [-> _]];
    [|rewrite Z.sub_diag, Z.mul_1_r; auto 10].
  unfold as_double; cbn [fbits F32 Z.eqb Pos.eqb].
  destruct (widen_exact rm a Ha Hx) as (Z0 & S & M & X).
  destruct (fround_widen rm a _ S M); auto 10.
Qed.

Section ToInt.
Context (mcause mepc mstatus insn : Z) (m : machine) (W : wf m).
Let rm := effective_rm insn m.

Lemma run_fcvt_if_tail x s :
  encoding F64 x -> rounding_mode s = rm -> 0 <= rs2 insn < 4 ->
  let r := fcvt_to_int (rs2 insn) rm x in
  (let negative := i64 x <? 0 in
   let float64 := if negative then u64 (x .^ u64 INT64_MIN) else x in
   let! mode := (fun m => Done (rounding_mode m) m) in
   let! uint_val := softfloat (f64_to_ui64 float64 mode true) in
   let '(result, limit, limit_result) := fcvt_if_result (rs2 insn) negative uint_val in
   let! result :=
     if limit <? uint_val then
       do! softfloat (softfloat_raiseFlags softfloat_flag_invalid) in
       done limit_result
     else done result in
   do! SET_FS_DIRTY in
   SET_RD insn result) s
  = Done tt (xwrite (rd insn) (u64 (fst r)) (accrue (snd r) s)).
Proof using.
  intros Hx Hr Hk; cbv zeta; destruct (drop_sign x Hx) as [-> ->].
  pose proof (Z.mod_pos_bound x (2 ^ 63) ltac:(lia)) as B.
  mrun; rewrite Hr; rewrite (run_softfloat _ _ s (f64_to_ui64_spec (x mod 2 ^ 63) rm true ltac:(lia))).
  unfold fcvt_to_int; set (u := ieee_to_uint F64 64 true rm (x mod 2 ^ 63)); cbv beta iota.
  destruct (fcvt_if_result _ _ _) as [[result limit] limit_result].
  destruct (limit <? fst u); mrun; [|reflexivity].
  unfold softfloat at 1, softfloat_raiseFlags; cbv beta iota; mrun.
  cbn [fst snd]; rewrite <- accrue_accrue; reflexivity.
Qed.

Lemma run_emulate_fcvt_if F :
  fp_format insn = Some F -> rs2 insn < 4 ->
  let a := fread F m (rs1 insn) in
  let r := fcvt_to_int (rs2 insn) rm (fst (as_double F rm a)) in
  emulate_fcvt_if mcause mepc mstatus insn (setup insn m)
  = Done tt (xwrite (rd insn) (u64 (fst r))
               (accrue (snd (as_double F rm a) .| snd r) (setup insn m))).
Proof using W.
  intros HF HK a r; pose proof (field_range insn 20 5 ltac:(lia)) as HR; fold (rs2 insn) in HR.
  unfold emulate_fcvt_if; change 0x1f with (2 ^ 5 - 1); rewrite shift_land_field by lia.
  fold (rs2 insn); rewrite (proj2 (Z.leb_gt 4 _)) by lia; cbv zeta.
  rewrite !GET_PRECISION_field; unfold PRECISION_S, PRECISION_D.
  pose proof (rounding_mode_setup insn m) as Hrm; fold rm in Hrm.
  destruct (fp_format_cases insn F HF) as [[-> E] | [-> E]]; rewrite E; cbn [Z.eqb Pos.eqb].
  - pose proof (convert_encoding F64 _ F32 rm a ltac:(cbn; lia) ltac:(cbn; lia)) as Hx.
    pose proof (convert_flags F32 F64 rm a) as Hfl.
    rewrite (run_bind _ _ (fst (as_double F32 rm a)) _
               (accrue (snd (as_double F32 rm a)) (setup insn m))).
    + rewrite (run_fcvt_if_tail _ _ Hx); [|rewrite rounding_mode_accrue by exact Hfl;
        exact Hrm | lia].
      rewrite accrue_accrue; reflexivity.
    + mrun; rewrite u32_fread, <- Hrm.
      exact (run_softfloat _ _ _ (f32_to_f64_spec a (operand_encoding m F32 (rs1 insn)))).
  - rewrite (run_bind _ _ a _ (setup insn m)).
    + exact (run_fcvt_if_tail a _ (operand_encoding m F64 (rs1 insn)) Hrm ltac:(lia)).
    + mrun; rewrite u64_fread; reflexivity.
Qed.
End ToInt.

(** ** The dispatch *)

Lemma run_emulate_fp_table mcause mepc mstatus insn m :
  fp_off mstatus = false -> funct3 insn <> 5 -> funct3 insn <> 6 ->
  emulate_fp mcause mepc mstatus insn m
  = nth (Z.to_nat (field insn 27 5)) fp_emulation_table truly_illegal_insn
      mcause mepc mstatus insn (setup insn m).
Proof.
  intros O N5 N6; unfold emulate_fp; rewrite fp_off_test, O, table_index; cbv zeta.
  unfold mbind; rewrite run_SETUP_STATIC_ROUNDING, !(proj2 (Z.eqb_neq (funct3 insn) _)) by lia.
  reflexivity.
Qed.

Lemma run_emulate_fmin mcause mepc mstatus insn m F :
  wf m -> fp_format insn = Some F -> funct3 insn = 0 \/ funct3 insn = 1 ->
  let a := fread F m (rs1 insn) in
  let b := fread F m (rs2 insn) in
  emulate_fmin mcause mepc mstatus insn (setup insn m)
  = Done tt (fwrite F (rd insn) (fminmax F (funct3 insn) a b)
               (accrue (snan_flag F a b) (setup insn m))).
Proof.
  intros W HF K a b; unfold emulate_fmin, PRECISION_S, PRECISION_D; rewrite GET_PRECISION_field.
  assert (T : (2 <=? GET_RM insn) = false) by (rewrite GET_RM_field; apply Z.leb_gt; lia).
  rewrite T; clear T.
  destruct (fp_format_cases insn F HF) as [[-> E] | [-> E]]; rewrite E; cbn [Z.eqb Pos.eqb].
  - exact (run_minmax F32 isNaNF32UI insn m W (fun x Hx => isNaNF32UI_spec x Hx) K).
  - exact (run_minmax F64 isNaNF64UI insn m W (fun x Hx => isNaNF64UI_spec x Hx) K).
Qed.

(** ** Theorems *)

(** C26: [FMIN] and [FMAX].  With the unit on, the handler writes the smaller (the larger) of
    the two values, or the operand that is a number when the other is a NaN, and raises
    invalid exactly when an operand is a signaling NaN. *)
Theorem fminmax_correct mcause mepc mstatus insn m F :
  wf m -> fp_off mstatus = false -> fp_format insn = Some F -> field insn 27 5 = 5 ->
  funct3 insn = 0 \/ funct3 insn = 1 ->
  let a := fread F m (rs1 insn) in
  let b := fread F m (rs2 insn) in
  exists r,
  emulate_fp mcause mepc mstatus insn m
  = Done tt (fwrite F (rd insn) r (accrue (snan_flag F a b) (setup insn m))) /\
  (is_nan F a = false -> is_nan F b = false ->
   fval F r = if funct3 insn =? 0 then Z.min (fval F a) (fval F b) else Z.max (fval F a) (fval F b)) /\
  (is_nan F a = false -> is_nan F b = true -> r = a) /\
  (is_nan F a = true -> is_nan F b = false -> r = b).
Proof.
  intros W O HF E K a b; exists (fminmax F (funct3 insn) a b).
  rewrite run_emulate_fp_table, E by lia || assumption.
  split; [apply (run_emulate_fmin _ _ _ _ _ F W HF K)|].
  unfold fminmax; repeat split; intros Na Nb; rewrite Na, Nb; try reflexivity.
  destruct (funct3 insn =? 0).
  - destruct (Z.ltb_spec (fval F a) (fval F b)); lia.
  - destruct (Z.ltb_spec (fval F b) (fval F a)); lia.
Qed.

(** [fmin.d f3, f1, f2] of 2 and -1. *)
Lemma fminmax_correct_witness :
  let m := set_freg 1 0x4000000000000000 (set_freg 2 0xBFF0000000000000 blank) in
  exists r,
    emulate_fp 2 0x10000 MSTATUS_FS 0x2A2081D3 m = Done tt (fwrite F64 3 r (accrue 0 (setup 0x2A2081D3 m)))
    /\ fval F64 r = - 2 ^ one_exp F64.
Proof.
  intros m; assert (W : wf m) by (repeat apply wf_set_freg; auto with wf; lia).
  destruct (fminmax_correct 2 0x10000 MSTATUS_FS 0x2A2081D3 m F64 W eq_refl eq_refl eq_refl
              (or_introl eq_refl)) as (r & E & V & _).
  exists r; split; [exact E|]; rewrite V by reflexivity; vm_compute; reflexivity.
Defined.

(** Conversions from integers.  [FCVT.S] and [FCVT.D] from [W], [WU], [L] and [LU] give
    the IEEE 754 result and flags for every integer of magnitude below [2^53] in every
    rounding mode; [FCVT.D] gives them for every integer that is not negative, and for the
    negative ones in the modes that treat both signs alike. *)
Lemma fcvt_from_int_correct mcause mepc mstatus insn m F :
  wf m -> fp_off mstatus = false -> fp_format insn = Some F -> field insn 27 5 = 26 ->
  rs2 insn < 4 -> funct3 insn <> 5 -> funct3 insn <> 6 ->
  let n := int_value (rs2 insn) (xregs m (rs1 insn)) in
  let rm := effective_rm insn m in
  Z.abs n < 2 ^ 53 \/ (F = F64 /\ (0 <= n \/ symmetric rm = true)) ->
  let r := ieee_from_int F rm n in
  emulate_fp mcause mepc mstatus insn m
  = Done tt (fwrite F (rd insn) (fst r) (accrue (snd r) (setup insn m))).
Proof.
  intros W O HF E K N5 N6 n rm C r; rewrite run_emulate_fp_table, E by assumption.
  change (nth (Z.to_nat 26) fp_emulation_table truly_illegal_insn) with emulate_fcvt_fi.
  rewrite (run_emulate_fcvt_fi _ _ _ _ _ W F HF K); fold n rm.
  pose proof (field_range insn 20 5 ltac:(lia)) as R; fold (rs2 insn) in R.
  pose proof (int_value_range (rs2 insn) _ (wf_xregs m W (rs1 insn)) ltac:(lia)) as B; fold n in B.
  assert (Q : fcvt_from_int (field insn 25 2 =? 0) rm n = r).
  { subst r; destruct (fp_format_cases insn F HF) as [[-> X] | [-> X]]; rewrite X;
      cbn [Z.eqb Pos.eqb].
    - destruct C as [C | [C _]]; [exact (fcvt_small true rm n C) | discriminate C].
    - destruct C as [C | [_ C]]; [exact (fcvt_small false rm n C)|].
      apply fcvt_double_symmetric; [exact C | lia]. }
  rewrite Q; reflexivity.
Qed.

(** The tie between [2^62] and its successor among the singles, missed by less than the
    precision of a double. *)
Definition near_tie (k : Z) : Z := 2 ^ 62 + 2 ^ 38 + k.

Lemma near_tie_round F k n :
  0 < k < 512 -> 0 <= one_exp F -> 0 <= fbits F <= 62 ->
  rint 0 false (near_tie k) (2 ^ (62 - fbits F)) = n ->
  let e := (62 + one_exp F - fbits F) * 2 ^ fbits F + n in
  0 <= one_exp F - fbits F -> e < inf_mag F -> fst (ieee_from_int F 0 (near_tie k)) = e.
Proof.
  intros Hk Ho Hf <- e Hq HI; unfold ieee_from_int.
  assert (B : 2 ^ 62 <= near_tie k < 2 ^ 63) by (unfold near_tie; lia).
  rewrite (proj2 (Z.eqb_neq _ 0)), (proj2 (Z.ltb_ge _ 0)), Z.abs_eq by lia.
  pose proof (pow2_pos (one_exp F) Ho); unfold ieee_round.
  assert (L : qexp F (near_tie k * 2 ^ one_exp F) 1 = 62 + one_exp F - fbits F).
  { unfold qexp; rewrite Z.div_1_r, Z.log2_mul_pow2 by lia.
    rewrite (Z.log2_unique (near_tie k) 62 ltac:(lia) B); lia. }
  assert (R : rmag F 0 false (near_tie k * 2 ^ one_exp F) 1 = e).
  { unfold rmag; rewrite L; unfold e; f_equal; apply rint_ratio.
    - rewrite Z.mul_1_l; apply pow2_pos; lia.
    - apply pow2_pos; lia.
    - rewrite Z.mul_1_l, <- Z.mul_assoc, <- Z.pow_add_r by lia; do 2 f_equal; lia. }
  rewrite R, (proj2 (Z.leb_gt _ _)) by lia; reflexivity.
Qed.

Lemma near_tie_rounding k :
  0 < k < 512 ->
  fst (fcvt_from_int true 0 (near_tie k)) = 0x5E800000 /\
  fst (ieee_from_int F32 0 (near_tie k)) = 0x5E800001.
Proof.
  intros Hk; assert (D : forall d q r, 0 <= r < d -> near_tie k = q * d + r ->
    rint 0 false (near_tie k) d = q + b2z (rounds_up 0 false q r d)).
  { intros d q r Hr E; unfold rint.
    rewrite <- (Z.div_unique_pos (near_tie k) d q r), <- (Z.mod_unique_pos (near_tie k) d q r) by lia.
    reflexivity. }
  split.
  - unfold fcvt_from_int, through_double; cbn [fst].
    rewrite Z.abs_eq, (proj2 (Z.ltb_ge _ 0)) by (unfold near_tie; lia).
    assert (N : rint 0 false (near_tie k) (2 ^ 10) = 2 ^ 52 + 2 ^ 28).
    { rewrite (D _ (2 ^ 52 + 2 ^ 28) k) by (unfold near_tie; lia).
      unfold rounds_up; cbn [Z.eqb softfloat_round_near_even].
      rewrite (proj2 (Z.ltb_ge _ _)), (proj2 (Z.eqb_neq _ _)) by lia; reflexivity. }
    rewrite (near_tie_round F64 k _ Hk ltac:(vm_compute; discriminate) ltac:(cbn; lia) N
               ltac:(vm_compute; discriminate) ltac:(vm_compute; reflexivity)).
    vm_compute; reflexivity.
  - assert (N : rint 0 false (near_tie k) (2 ^ 39) = 2 ^ 23 + 1).
    { rewrite (D _ (2 ^ 23) (2 ^ 38 + k)) by (unfold near_tie; lia).
      unfold rounds_up; cbn [Z.eqb softfloat_round_near_even].
      rewrite (proj2 (Z.ltb_lt _ _)) by lia; reflexivity. }
    rewrite (near_tie_round F32 k _ Hk ltac:(vm_compute; discriminate) ltac:(cbn; lia) N
               ltac:(vm_compute; discriminate) ltac:(vm_compute; reflexivity)).
    reflexivity.
Qed.

(** [FCVT.S.L] rounds twice.  In the default rounding mode the integers just above the
    tie between the singles [2^62] and [2^62 + 2^39] must convert to the second; through
    the double they convert to the first. *)
Lemma fcvt_s_l_rounds_twice mcause mepc mstatus insn m k :
  wf m -> fp_off mstatus = false -> field insn 25 2 = 0 -> field insn 27 5 = 26 ->
  rs2 insn = 2 -> funct3 insn = 0 -> 0 < k < 512 -> xregs m (rs1 insn) = near_tie k ->
  (exists fl, emulate_fp mcause mepc mstatus insn m
              = Done tt (fwrite F32 (rd insn) 0x5E800000 (accrue fl (setup insn m)))) /\
  fst (ieee_from_int F32 softfloat_round_near_even (near_tie k)) = 0x5E800001.
Proof.
  intros W O HF E K R0 Hk X.
  destruct (near_tie_rounding k Hk) as [N1 N2].
  split; [|exact N2]; rewrite run_emulate_fp_table, E by lia || assumption.
  change (nth (Z.to_nat 26) fp_emulation_table truly_illegal_insn) with emulate_fcvt_fi.
  rewrite (run_emulate_fcvt_fi _ _ _ _ _ W F32) by (unfold fp_format; rewrite ?HF;
    reflexivity || lia).
  rewrite HF, K, X; unfold effective_rm; rewrite R0; cbn [Z.eqb].
  change (int_value 2 (near_tie k)) with (i64 (near_tie k)).
  unfold i64, near_tie in *; rewrite swrap_small, N1 by lia; eexists; reflexivity.
Qed.

(** Conversions to integers.  [FCVT.W], [FCVT.WU], [FCVT.L] and [FCVT.LU] of a finite
    single or double write the value rounded to an integer, and raise inexact exactly when
    it is not one: for values whose rounding fits the format ([WU] up to [2^31]), negative
    ones in the modes that treat both signs alike. *)
Lemma fcvt_to_int_correct mcause mepc mstatus insn m F :
  wf m -> fp_off mstatus = false -> fp_format insn = Some F -> field insn 27 5 = 24 ->
  rs2 insn < 4 -> funct3 insn <> 5 -> funct3 insn <> 6 ->
  let a := fread F m (rs1 insn) in
  let n := fround F (effective_rm insn m) a in
  fexp F a <> emax F -> fsign F a = false \/ symmetric (effective_rm insn m) = true ->
  int_min (rs2 insn) <= n <= int_max (rs2 insn) -> (rs2 insn = 1 -> n < 2 ^ 31) ->
  emulate_fp mcause mepc mstatus insn m
  = Done tt (xwrite (rd insn) (u64 n)
      (accrue (if inexact (mag F a) (2 ^ one_exp F) then softfloat_flag_inexact else 0)
         (setup insn m))).
Proof.
  intros W O HF E K N5 N6 a n X C R WU; rewrite run_emulate_fp_table, E by assumption.
  change (nth (Z.to_nat 24) fp_emulation_table truly_illegal_insn) with emulate_fcvt_if.
  rewrite (run_emulate_fcvt_if _ _ _ _ _ W F HF K); fold a.
  pose proof (field_range insn 20 5 ltac:(lia)) as HR; fold (rs2 insn) in HR.
  destruct (as_double_fields insn F (effective_rm insn m) a HF
              (format_encoding insn F m _ HF) X) as (Z0 & X' & S & _ & V & I).
  fold n in V; rewrite fcvt_to_int_fits; rewrite ?V, ?S, ?I; try assumption; try lia.
  rewrite Z0, Z.lor_0_l; cbn [fst snd]; unfold u64, wrap; rewrite Z.mod_mod by lia; reflexivity.
Qed.


(** A negative number to an unsigned integer.  A value of -1 or below (and minus
    infinity) is out of the range of [WU] and [LU], whose result the F and D extensions fix
    to be 0; the handler writes the largest unsigned integer, the limit of the positive
    side. *)
Lemma fcvt_unsigned_of_negative mcause mepc mstatus insn m F :
  wf m -> fp_off mstatus = false -> fp_format insn = Some F -> field insn 27 5 = 24 ->
  rs2 insn = 1 \/ rs2 insn = 3 -> funct3 insn <> 5 -> funct3 insn <> 6 ->
  let a := fread F m (rs1 insn) in
  fexp F a <> emax F -> fsign F a = true -> 2 ^ one_exp F <= mag F a ->
  exists fl, emulate_fp mcause mepc mstatus insn m
  = Done tt (xwrite (rd insn) (int_max (rs2 insn)) (accrue fl (setup insn m))).
Proof.
  intros W O HF E K N5 N6 a X S G; rewrite run_emulate_fp_table, E by assumption.
  change (nth (Z.to_nat 24) fp_emulation_table truly_illegal_insn) with emulate_fcvt_if.
  rewrite (run_emulate_fcvt_if _ _ _ _ _ W F HF) by lia; fold a.
  destruct (as_double_fields insn F (effective_rm insn m) a HF (format_encoding insn F m _ HF) X)
    as (_ & X' & S' & M & _).
  rewrite (fcvt_to_int_negative (rs2 insn)); [eexists | assumption | congruence | |].
  - rewrite u64_small by (destruct K as [-> | ->]; cbn; lia); reflexivity.
  - apply finite_fields, X'.
  - rewrite M; destruct (fp_format_cases insn F HF) as [[-> _] | [-> _]]; cbn in G |- *; lia.
Qed.

(** Negative numbers, rounding downward.  The sign is taken off before the magnitude is
    rounded with the mode of the instruction, so a negative number that is not an integer
    rounds toward zero: its conversion to [W] or [L] is one more than its floor. *)
Lemma fcvt_negative_downward mcause mepc mstatus insn m F :
  wf m -> fp_off mstatus = false -> fp_format insn = Some F -> field insn 27 5 = 24 ->
  rs2 insn = 0 \/ rs2 insn = 2 -> funct3 insn <> 5 -> funct3 insn <> 6 ->
  effective_rm insn m = softfloat_round_min ->
  let a := fread F m (rs1 insn) in
  let floor := fval F a / 2 ^ one_exp F in
  fexp F a <> emax F -> fsign F a = true -> inexact (mag F a) (2 ^ one_exp F) = true ->
  - 2 ^ 31 <= floor ->
  exists fl, emulate_fp mcause mepc mstatus insn m
  = Done tt (xwrite (rd insn) (u64 (floor + 1)) (accrue fl (setup insn m))).
Proof.
  intros W O HF E K N5 N6 RM a floor X S I B; rewrite run_emulate_fp_table, E by assumption.
  change (nth (Z.to_nat 24) fp_emulation_table truly_illegal_insn) with emulate_fcvt_if.
  rewrite (run_emulate_fcvt_if _ _ _ _ _ W F HF), RM by lia; fold a.
  destruct (as_double_fields insn F softfloat_round_min a HF (format_encoding insn F m _ HF) X)
    as (_ & X' & S' & M & _).
  assert (D : 0 < 2 ^ one_exp F)
    by (destruct (fp_format_cases insn F HF) as [[-> _] | [-> _]]; reflexivity).
  assert (N : mag F64 (fst (as_double F softfloat_round_min a)) / 2 ^ one_exp F64 = - (floor + 1)).
  { transitivity (mag F a / 2 ^ one_exp F).
    - rewrite M; apply div_ratio; [reflexivity | exact D |].
      destruct (fp_format_cases insn F HF) as [[-> _] | [-> _]]; cbn; ring.
    - subst floor; unfold fval; rewrite S; unfold inexact, nz in I.
      rewrite negb_true_iff, Z.eqb_neq in I; rewrite Z.div_opp_l_nz by lia; lia. }
  rewrite fcvt_to_int_downward; rewrite ?N; try assumption; try congruence; try lia.
  eexists; unfold u64, wrap; rewrite Z.opp_involutive, Z.mod_mod by lia; reflexivity.
Qed.

(** Conversions of negative numbers to integers.  A value of -1 or below is out of the range
    of [WU] and [LU], whose result the F and D extensions fix to be 0: the handler writes the
    largest unsigned integer, the limit of the positive side.  Rounding downward, a negative
    number that is not an integer converts to [W] or [L] as one more than its floor: the sign is
    taken off before the magnitude is rounded with the mode of the instruction. *)
Lemma fcvt_negative_defects mcause mepc mstatus insn m F :
  wf m -> fp_off mstatus = false -> fp_format insn = Some F -> field insn 27 5 = 24 ->
  funct3 insn <> 5 -> funct3 insn <> 6 ->
  let a := fread F m (rs1 insn) in
  let floor := fval F a / 2 ^ one_exp F in
  let writes v := exists fl, emulate_fp mcause mepc mstatus insn m
    = Done tt (xwrite (rd insn) v (accrue fl (setup insn m))) in
  fexp F a <> emax F -> fsign F a = true ->
  (rs2 insn = 1 \/ rs2 insn = 3 -> 2 ^ one_exp F <= mag F a -> writes (int_max (rs2 insn))) /\
  (rs2 insn = 0 \/ rs2 insn = 2 -> effective_rm insn m = softfloat_round_min ->
   inexact (mag F a) (2 ^ one_exp F) = true -> - 2 ^ 31 <= floor -> writes (u64 (floor + 1))).
Proof.
  intros W O HF E N5 N6 a floor writes X S; split; intros.
  - apply (fcvt_unsigned_of_negative mcause mepc mstatus insn m F); assumption.
  - apply (fcvt_negative_downward mcause mepc mstatus insn m F); assumption.
Qed.

(** C34: defects of the conversions.  A value of -1 or below is out of the range of [WU] and [LU],
    whose result the F and D extensions fix to be 0: the handler writes the largest unsigned
    integer, the limit of the positive side.  Rounding downward, a negative number that is not
    an integer converts to [W] or [L] as one more than its floor: the sign is taken off before
    the magnitude is rounded with the mode of the instruction.  And [FCVT.S.L] rounds twice: in
    the default rounding mode the integers just above the tie between the singles [2^62] and
    [2^62 + 2^39] must convert to the second; through the double they convert to the first. *)
Theorem fcvt_defects mcause mepc mstatus insn m F :
  wf m -> fp_off mstatus = false -> fp_format insn = Some F ->
  funct3 insn <> 5 -> funct3 insn <> 6 ->
  let a := fread F m (rs1 insn) in
  let floor := fval F a / 2 ^ one_exp F in
  let writes v := exists fl, emulate_fp mcause mepc mstatus insn m
    = Done tt (xwrite (rd insn) v (accrue fl (setup insn m))) in
  (field insn 27 5 = 24 -> fexp F a <> emax F -> fsign F a = true ->
   (rs2 insn = 1 \/ rs2 insn = 3 -> 2 ^ one_exp F <= mag F a -> writes (int_max (rs2 insn))) /\
   (rs2 insn = 0 \/ rs2 insn = 2 -> effective_rm insn m = softfloat_round_min ->
    inexact (mag F a) (2 ^ one_exp F) = true -> - 2 ^ 31 <= floor -> writes (u64 (floor + 1)))) /\
  (forall k, field insn 27 5 = 26 -> field insn 25 2 = 0 -> rs2 insn = 2 -> funct3 insn = 0 ->
   0 < k < 512 -> xregs m (rs1 insn) = near_tie k ->
   (exists fl, emulate_fp mcause mepc mstatus insn m
               = Done tt (fwrite F32 (rd insn) 0x5E800000 (accrue fl (setup insn m)))) /\
   fst (ieee_from_int F32 softfloat_round_near_even (near_tie k)) = 0x5E800001).
Proof.
  intros W O F1 N5 N6 a floor writes; split.
  - intros Op E S; exact (fcvt_negative_defects mcause mepc mstatus insn m F W O F1 Op N5 N6 E S).
  - intros k Op F2 R2 F3 K X.
    exact (fcvt_s_l_rounds_twice mcause mepc mstatus insn m k W O F2 Op R2 F3 K X).
Qed.


(** [fcvt.wu.s x3, f1] of -5, [fcvt.w.s x3, f1, rdn] of -1.5: -1, and [fcvt.s.l f3, x1]. *)
Lemma fcvt_defects_witness :
  let m1 := set_freg 1 0xC0A00000 blank in
  let m2 := set_freg 1 0xBFC00000 blank in
  let m3 := set_xreg 1 (near_tie 1) blank in
  (exists fl, emulate_fp 2 0x10000 MSTATUS_FS 0xC01081D3 m1
              = Done tt (xwrite 3 (2 ^ 32 - 1) (accrue fl (setup 0xC01081D3 m1)))) /\
  (exists fl, emulate_fp 2 0x10000 MSTATUS_FS 0xC000A1D3 m2
              = Done tt (xwrite 3 (u64 (-1)) (accrue fl (setup 0xC000A1D3 m2)))) /\
  exists fl, emulate_fp 2 0x10000 MSTATUS_FS 0xD02081D3 m3
             = Done tt (fwrite F32 3 0x5E800000 (accrue fl (setup 0xD02081D3 m3))).
Proof.
  intros m1 m2 m3; split; [|split].
  - assert (W : wf m1) by (apply wf_set_freg; auto with wf; lia).
    apply (fcvt_defects 2 0x10000 MSTATUS_FS 0xC01081D3 m1 F32 W);
      try reflexivity; try (left; reflexivity); vm_compute; discriminate.
  - assert (W : wf m2) by (apply wf_set_freg; auto with wf; lia).
    apply (fcvt_defects 2 0x10000 MSTATUS_FS 0xC000A1D3 m2 F32 W);
      try reflexivity; try (left; reflexivity); vm_compute; discriminate.
  - assert (W : wf m3) by (apply wf_set_xreg; auto with wf; cbn; lia).
    apply (proj2 (fcvt_defects 2 0x10000 MSTATUS_FS 0xD02081D3 m3 F32 W eq_refl eq_refl
                    ltac:(discriminate) ltac:(discriminate)) 1); reflexivity || lia.
Defined.
