(* ===== verification/FpMemory.v ===== *)
(** * The loads and stores of the F and D extensions

    [emulate_float_load] and [emulate_float_store] of [machine/fp_ldst.c] and the compressed
    forms in [emulate_rvc] of [machine/emulation.c].  An aligned access is made in one
    piece, a misaligned one goes to the handlers of [machine/misaligned_ldst.c], which take
    the address from [mbadaddr]; the theorems do not tell the two apart. *)

From S2P Require Import Prelude FpSpec Encoding Machine Misaligned FpLdst FpEmulation Emulation Csr.
From S2P Require Import FpInsn.
From Stdlib Require Import ZArith Lia Bool List.
Import ListNotations.

(** ** Immediates *)

Definition imm_i (insn : Z) : Z := swrap 12 (field insn 20 12).
Definition imm_s (insn : Z) : Z := swrap 12 (field insn 25 7 * 2 ^ 5 + field insn 7 5).

Lemma swrap_div w k x : 0 <= k -> 0 < w - k -> swrap w x / 2 ^ k = swrap (w - k) (x / 2 ^ k).
Proof.
  intros Hk Hw; unfold swrap; pose proof (pow2_pos k Hk); pose proof (pow2_pos (w - k) ltac:(lia)).
  set (h := 2 ^ (w - k - 1)).
  assert (E : 2 ^ (w - 1) = h * 2 ^ k) by (unfold h; rewrite <- Z.pow_add_r by lia; f_equal; lia).
  assert (E' : 2 ^ w = 2 ^ k * 2 ^ (w - k)) by (rewrite <- Z.pow_add_r by lia; f_equal; lia).
  rewrite E, E', Z.rem_mul_r, Z.div_add, Z.mod_add by lia.
  pose proof (Z.mod_pos_bound x (2 ^ k) ltac:(lia)).
  symmetry; apply (Z.div_unique_pos _ _ _ (x mod 2 ^ k)); lia.
Qed.

Lemma IMM_I_spec insn : IMM_I insn = imm_i insn.
Proof.
  unfold IMM_I, imm_i, i32; rewrite shiftr_div, swrap_div by lia.
  symmetry; apply (swrap_wrap 12); lia.
Qed.

Lemma IMM_S_spec insn : IMM_S insn = imm_s insn.
Proof.
  unfold IMM_S, imm_s; change 0x1f with (2 ^ 5 - 1); rewrite shift_land_field by lia.
  pose proof (field_range insn 7 5 ltac:(lia)) as R.
  pose proof (field_range insn 25 7 ltac:(lia)) as R'.
  unfold i32; rewrite (swrap_small 32 (field _ _ _)), shiftl_mul, shiftr_div, lor_add_disjoint by lia.
  rewrite swrap_div by lia; change (32 - 25) with 7.
  rewrite <- (swrap_wrap 7) by lia; change (wrap 7 (insn / 2 ^ 25)) with (field insn 25 7).
  rewrite !swrap_unsigned by lia.
  destruct (Z.ltb_spec (field insn 25 7) (2 ^ (7 - 1))),
    (Z.ltb_spec (field insn 25 7 * 2 ^ 5 + field insn 7 5) (2 ^ (12 - 1))); lia.
Qed.

(** ** Loads *)

(** Up to [mbadaddr], which a misaligned access overwrites. *)
Definition same_but_badaddr (m m' : machine) : Prop :=
  xregs m' = xregs m /\ fregs m' = fregs m /\ tp m' = tp m /\ mem m' = mem m /\
  forall c, c <> Mbadaddr -> csrs m' c = csrs m c.

Lemma wf_badaddr m a : wf m -> wf (put_csr Mbadaddr (u64 a) m).
Proof. intros W; apply wf_put_csr; [exact W | apply Z.mod_pos_bound; lia]. Qed.

Lemma decode_float_load insn :
  opcode insn = 0x07 ->
  decode_load insn = if funct3 insn =? 2 then Some (IsaLoad 4 false true (rd insn))
                     else if funct3 insn =? 3 then Some (IsaLoad 8 false true (rd insn))
                     else None.
Proof.
  intros O; unfold decode_load; rewrite <- opcode_quadrant, O; reflexivity.
Qed.

Lemma insn_len_word insn k : opcode insn = 4 * k + 3 -> insn_len insn = 4.
Proof.
  intros O; unfold insn_len; rewrite land_3_mod, <- opcode_quadrant, O.
  replace ((4 * k + 3) mod 4) with 3 by (Z.div_mod_to_equations; lia); reflexivity.
Qed.

Lemma run_load n addr mepc m :
  wf m -> 0 <= mepc < 2 ^ 64 ->
  match peek (mem m) n addr with
  | Some v => unprivileged_load n addr mepc MSTATUS_MPRV m = Done v m
  | None => exists m', unprivileged_load n addr mepc MSTATUS_MPRV m = Redirected m' /\
      sees_trap mepc CAUSE_LOAD_PAGE_FAULT (u64 addr) m m' /\ same_context m m'
  end.
Proof.
  intros W H; unfold unprivileged_load; destruct (peek (mem m) n addr); [reflexivity|].
  rewrite run_access_fault by (auto; reflexivity); eexists; split; [reflexivity|].
  apply faulted_sees; auto; unfold CAUSE_LOAD_PAGE_FAULT; lia.
Qed.

(** The part of the handler after the decoding, for either width. *)
Lemma run_float_load k access mcause mepc insn m :
  wf m -> 0 <= mepc < 2 ^ 64 -> insn_at m mepc insn -> opcode insn = 0x07 ->
  decode_load insn = Some k -> csrs m Mepc = u64 (mepc + 4) ->
  (forall addr v, peek (mem m) (il_len k) addr = Some v ->
     access addr m = Done tt (write_load k v m)) ->
  (forall addr, peek (mem m) (il_len k) addr = None ->
     exists m', access addr m = Redirected m' /\
       sees_trap mepc CAUSE_LOAD_PAGE_FAULT (u64 addr) m m' /\ same_context m m') ->
  let addr := u64 (xregs m (rs1 insn) + imm_i insn) in
  let run := punt_to_misaligned_handler addr (Z.of_nat (il_len k))
               (misaligned_load_trap mcause mepc) (access addr) m in
  match peek (mem m) (il_len k) addr with
  | Some v => exists m', run = Done tt m' /\ same_but_badaddr (write_load k v m) m'
  | None => exists i m', 0 <= i < Z.of_nat (il_len k) /\ run = Redirected m' /\
      sees_trap mepc CAUSE_LOAD_PAGE_FAULT (u64 (addr + i)) m m' /\ same_context m m'
  end.
Proof.
  intros W Hpc I O D Hn A1 A2 addr run; unfold run, punt_to_misaligned_handler.
  assert (L : 0 < Z.of_nat (il_len k)) by (destruct (decode_load_len insn k D); lia).
  assert (U : u64 addr = addr) by (apply u64_small, Z.mod_pos_bound; lia).
  destruct (negb _); mrun.
  - pose proof (run_misaligned_load mcause mepc insn _ (wf_badaddr m addr W) Hpc I) as T.
    cbv zeta in T; rewrite D in T; cbn [csrs put_csr set_csrs mem] in T.
    change (if csr_eq_dec Mbadaddr Mbadaddr then u64 addr else csrs m Mbadaddr) with (u64 addr) in T.
    rewrite U in T |- *.
    destruct (peek (mem m) (il_len k) addr) as [v|].
    + eexists; split; [exact T|]; rewrite (insn_len_word insn 1) by lia.
      unfold write_load; destruct (il_fp k); repeat split; intros c Hc; cbn;
        repeat destruct (csr_eq_dec _ _); subst; congruence || reflexivity.
    + destruct T as (i & m' & Hi & _ & R & S & C); exists i, m'; auto.
  - destruct (peek (mem m) (il_len k) addr) as [v|] eqn:P.
    + eexists; split; [apply A1, P|]; repeat split.
    + destruct (A2 _ P) as (m' & R & S); exists 0, m'; rewrite Z.add_0_r; auto with zarith.
Qed.

(** ** Stores *)

Lemma decode_float_store insn :
  opcode insn = 0x27 ->
  decode_store insn = (if funct3 insn =? 2 then Some (4%nat, true, rs2 insn)
                       else if funct3 insn =? 3 then Some (8%nat, true, rs2 insn)
                       else None) /\ sp_store_rd0 insn = false.
Proof.
  intros O; unfold decode_store, sp_store_rd0; rewrite <- opcode_quadrant, O; split; reflexivity.
Qed.

Lemma can_write_put_csr c v m n addr : can_write (put_csr c v m) n addr = can_write m n addr.
Proof. revert addr; induction n as [|n IH]; intros; cbn [can_write]; [|rewrite IH];
  reflexivity. Qed.

Lemma run_float_store len access mcause mepc insn m :
  wf m -> 0 <= mepc < 2 ^ 64 -> insn_at m mepc insn -> opcode insn = 0x27 ->
  (0 < len)%nat -> decode_store insn = Some (len, true, rs2 insn) ->
  csrs m Mepc = u64 (mepc + 4) ->
  let v := fregs m (rs2 insn) in
  (forall addr, can_write m len addr = true ->
     access addr m = Done tt (set_mem (poke (mem m) len addr v) m)) ->
  (forall addr, can_write m len addr = false ->
     exists m', access addr m = Redirected m' /\
       sees_trap mepc CAUSE_STORE_PAGE_FAULT (u64 addr) m m' /\ same_context m m') ->
  let addr := u64 (xregs m (rs1 insn) + imm_s insn) in
  let run := punt_to_misaligned_handler addr (Z.of_nat len)
               (misaligned_store_trap mcause mepc) (access addr) m in
  if can_write m len addr then
    exists m', run = Done tt m' /\ same_but_badaddr (set_mem (poke (mem m) len addr v) m) m'
  else exists i m', (i < len)%nat /\ run = Redirected m' /\
    sees_trap mepc CAUSE_STORE_PAGE_FAULT (u64 (addr + Z.of_nat i)) m m' /\
    same_context (set_mem (poke (mem m) i addr v) m) m'.
Proof.
  intros W Hpc I O L D Hn v A1 A2 addr run; unfold run, punt_to_misaligned_handler.
  destruct (decode_float_store insn O) as [_ SP].
  assert (U : u64 addr = addr) by (apply u64_small, Z.mod_pos_bound; lia).
  destruct (negb _); mrun.
  - pose proof (run_misaligned_store mcause mepc insn _ len true (rs2 insn)
                  (wf_badaddr m addr W) Hpc I D SP) as T.
    cbv zeta in T; cbn [csrs put_csr set_csrs mem] in T.
    change (if csr_eq_dec Mbadaddr Mbadaddr then u64 addr else csrs m Mbadaddr) with (u64 addr) in T.
    rewrite U, can_write_put_csr in T; rewrite U.
    destruct (can_write m len addr).
    + eexists; split; [exact T|]; rewrite (insn_len_word insn 9) by lia.
      repeat split; intros c Hc; cbn; repeat destruct (csr_eq_dec _ _); subst;
        congruence || reflexivity.
    + destruct T as (i & m' & Hi & _ & R & S & C); exists i, m'; split; [lia | auto].
  - destruct (can_write m len addr) eqn:P.
    + eexists; split; [apply A1, P|]; repeat split.
    + destruct (A2 _ P) as (m' & R & S & C); exists 0%nat, m'; rewrite Z.add_0_r.
      split; [lia|]; split; [exact R|]; split; [exact S|]; exact C.
Qed.

Lemma run_store n addr val mepc m :
  wf m -> 0 <= mepc < 2 ^ 64 ->
  if can_write m n addr
  then unprivileged_store n addr val mepc m = Done tt (set_mem (poke (mem m) n addr val) m)
  else exists m', unprivileged_store n addr val mepc m = Redirected m' /\
      sees_trap mepc CAUSE_STORE_PAGE_FAULT (u64 addr) m m' /\ same_context m m'.
Proof.
  intros W H; unfold unprivileged_store; destruct (can_write m n addr); [reflexivity|].
  rewrite run_access_fault by (auto; reflexivity); eexists; split; [reflexivity|].
  apply faulted_sees; auto; unfold CAUSE_STORE_PAGE_FAULT; lia.
Qed.

Lemma mask_funct3_test insn k :
  0 <= k < 8 -> (insn .& MASK_FUNCT3 =? k * 2 ^ 12) = (funct3 insn =? k).
Proof.
  intros Hk; unfold MASK_FUNCT3; change 0x7000 with ((2 ^ 3 - 1) * 2 ^ 12).
  rewrite land_field by lia; unfold funct3, field; apply eq_true_iff_eq; rewrite !Z.eqb_eq; lia.
Qed.

(** ** Theorems *)

(** [FLW] and [FLD].  For every word of the major opcode [LOAD-FP], once the program
    counter has been moved past it and with the unit on, the handler loads the bytes at
    base plus offset into the floating-point register, aligned or not; a byte that cannot
    be read delegates a load page fault for the instruction with no register changed; any
    other width delegates the trap. *)
Lemma float_load_correct mcause mepc insn m :
  wf m -> 0 <= mepc < 2 ^ 64 -> insn_at m mepc insn -> opcode insn = 0x07 ->
  fp_off (csrs m Mstatus) = false -> csrs m Mepc = u64 (mepc + 4) ->
  let addr := u64 (xregs m (rs1 insn) + imm_i insn) in
  let run := emulate_float_load mcause mepc (csrs m Mstatus) insn m in
  match decode_load insn with
  | Some k =>
      match peek (mem m) (il_len k) addr with
      | Some v => exists m', run = Done tt m' /\ same_but_badaddr (write_load k v m) m'
      | None => exists i m', 0 <= i < Z.of_nat (il_len k) /\ run = Redirected m' /\
          sees_trap mepc CAUSE_LOAD_PAGE_FAULT (u64 (addr + i)) m m' /\ same_context m m'
      end
  | None => run = Redirected (delegated mepc (csrs m Mstatus) insn m)
  end.
Proof.
  intros W Hpc I O On Hn addr run; unfold run, emulate_float_load; mrun.
  rewrite fp_off_test, On, IMM_I_spec; fold addr.
  change (MATCH_FLW .& MASK_FUNCT3) with (2 * 2 ^ 12);
    change (MATCH_FLD .& MASK_FUNCT3) with (3 * 2 ^ 12).
  rewrite !mask_funct3_test by lia; pose proof (decode_float_load insn O) as D.
  destruct (funct3 insn =? 2); [|destruct (funct3 insn =? 3)]; rewrite D; [| |mrun; reflexivity].
  - apply (run_float_load _ (fun addr => let! v := load_int32_t addr mepc in SET_F32_RD insn v)
             mcause mepc insn m W Hpc I O D Hn); intros a;
               pose proof (run_load 4 a mepc m W Hpc) as T;
      intros v P || intros P; cbn [il_len] in P; rewrite P in T; unfold load_int32_t; mrun.
    + rewrite T; mrun; unfold fwrite, u32, i32; rewrite wrap_swrap, wrap_small; [reflexivity|].
      apply (peek_range (mem m) 4 a); [apply W | exact P].
    + destruct T as (m' & -> & S); eauto.
  - apply (run_float_load _ (fun addr => let! v := load_uint64_t addr mepc in SET_F64_RD insn v)
             mcause mepc insn m W Hpc I O D Hn); intros a;
               pose proof (run_load 8 a mepc m W Hpc) as T;
      intros v P || intros P; cbn [il_len] in P; rewrite P in T; unfold load_uint64_t; mrun.
    + rewrite T; unfold SET_F64_RD, SET_F64_REG, SET_FS_DIRTY; mrun.
      rewrite freg_index_field, u64_small; [reflexivity | | lia].
      apply (peek_range (mem m) 8 a); [apply W | exact P].
    + destruct T as (m' & -> & S); eauto.
Qed.

(** [FSW] and [FSD].  For every word of the major opcode [STORE-FP] the handler writes
    the low bytes of the floating-point register at base plus offset, aligned or not; a
    byte that cannot be written delegates a store page fault at that byte, with only the
    bytes before it stored. *)
Lemma float_store_correct mcause mepc insn m :
  wf m -> 0 <= mepc < 2 ^ 64 -> insn_at m mepc insn -> opcode insn = 0x27 ->
  fp_off (csrs m Mstatus) = false -> csrs m Mepc = u64 (mepc + 4) ->
  let addr := u64 (xregs m (rs1 insn) + imm_s insn) in
  let v := fregs m (rs2 insn) in
  let run := emulate_float_store mcause mepc (csrs m Mstatus) insn m in
  match decode_store insn with
  | Some (len, _, _) =>
      if can_write m len addr then
        exists m', run = Done tt m' /\ same_but_badaddr (set_mem (poke (mem m) len addr v) m) m'
      else exists i m', (i < len)%nat /\ run = Redirected m' /\
        sees_trap mepc CAUSE_STORE_PAGE_FAULT (u64 (addr + Z.of_nat i)) m m' /\
        same_context (set_mem (poke (mem m) i addr v) m) m'
  | None => run = Redirected (delegated mepc (csrs m Mstatus) insn m)
  end.
Proof.
  intros W Hpc I O On Hn addr v run; unfold run, emulate_float_store; mrun.
  rewrite fp_off_test, On, IMM_S_spec; fold addr.
  change (MATCH_FSW .& MASK_FUNCT3) with (2 * 2 ^ 12);
    change (MATCH_FSD .& MASK_FUNCT3) with (3 * 2 ^ 12).
  rewrite !mask_funct3_test by lia; destruct (decode_float_store insn O) as [D _].
  destruct (funct3 insn =? 2); [|destruct (funct3 insn =? 3)]; rewrite D; [| |mrun; reflexivity].
  - apply (run_float_store 4 (fun addr => let! v := GET_F32_RS2 insn in store_uint32_t addr (u32 v) mepc)
             mcause mepc insn m W Hpc I O ltac:(lia) D Hn); intros a P; mrun;
      pose proof (run_store 4 a (u32 (i32 (fregs m (rs2 insn)))) mepc m W Hpc) as T; rewrite P in T;
      unfold store_uint32_t; [rewrite T | exact T].
    rewrite (poke_mod _ _ _ _ (fregs m (rs2 insn))); [reflexivity|].
    unfold u32, wrap, i32; rewrite Z.mod_mod by (vm_compute; discriminate); apply (wrap_swrap 32).
  - apply (run_float_store 8 (fun addr => let! v := GET_F64_RS2 insn in store_uint64_t addr (u64 v) mepc)
             mcause mepc insn m W Hpc I O ltac:(lia) D Hn); intros a P; mrun;
      pose proof (run_store 8 a (u64 (i64 (fregs m (rs2 insn)))) mepc m W Hpc) as T; rewrite P in T;
      unfold store_uint64_t; [rewrite T | exact T].
    rewrite u64_swrap, u64_small by apply W; reflexivity.
Qed.

(** [FLW], [FLD], [FSW] and [FSD].  For every word of the major opcodes [LOAD-FP] and
    [STORE-FP], once the program counter has been moved past it and with the unit on, the handler
    loads the bytes at base plus offset into the floating-point register, or stores its low bytes
    there, aligned or not; a byte that cannot be accessed delegates a page fault at that byte with
    no register changed, and only the bytes before it stored; any other width delegates the
    trap. *)
Lemma float_memory_correct mcause mepc insn m :
  wf m -> 0 <= mepc < 2 ^ 64 -> insn_at m mepc insn ->
  fp_off (csrs m Mstatus) = false -> csrs m Mepc = u64 (mepc + 4) ->
  (opcode insn = 0x07 ->
   let addr := u64 (xregs m (rs1 insn) + imm_i insn) in
   let run := emulate_float_load mcause mepc (csrs m Mstatus) insn m in
   match decode_load insn with
   | Some k =>
       match peek (mem m) (il_len k) addr with
       | Some v => exists m', run = Done tt m' /\ same_but_badaddr (write_load k v m) m'
       | None => exists i m', 0 <= i < Z.of_nat (il_len k) /\ run = Redirected m' /\
           sees_trap mepc CAUSE_LOAD_PAGE_FAULT (u64 (addr + i)) m m' /\ same_context m m'
       end
   | None => run = Redirected (delegated mepc (csrs m Mstatus) insn m)
   end) /\
  (opcode insn = 0x27 ->
   let addr := u64 (xregs m (rs1 insn) + imm_s insn) in
   let v := fregs m (rs2 insn) in
   let run := emulate_float_store mcause mepc (csrs m Mstatus) insn m in
   match decode_store insn with
   | Some (len, _, _) =>
       if can_write m len addr then
         exists m', run = Done tt m' /\ same_but_badaddr (set_mem (poke (mem m) len addr v) m) m'
       else exists i m', (i < len)%nat /\ run = Redirected m' /\
         sees_trap mepc CAUSE_STORE_PAGE_FAULT (u64 (addr + Z.of_nat i)) m m' /\
         same_context (set_mem (poke (mem m) i addr v) m) m'
   | None => run = Redirected (delegated mepc (csrs m Mstatus) insn m)
   end).
Proof.
  intros W Hpc I On Hn; split; intros O;
    [apply float_load_correct | apply float_store_correct]; assumption.
Qed.

(** ** The compressed forms *)

Record rvc_access := RvcAccess { ra_store : bool; ra_base : Z; ra_offset : Z; ra_freg : Z }.

(** [C.FLD], [C.FLDSP], [C.FSD] and [C.FSDSP] as the ISA manual draws them. *)
Definition decode_rvc (insn : Z) : option rvc_access :=
  let quadrant := insn mod 4 in
  let f := field insn 13 3 in
  let offset := field insn 10 3 * 2 ^ 3 + field insn 5 2 * 2 ^ 6 in
  if (quadrant =? 0) && (f =? 1) then
    Some (RvcAccess false (8 + field insn 7 3) offset (8 + field insn 2 3))
  else if (quadrant =? 2) && (f =? 1) then
    Some (RvcAccess false 2 (field insn 5 2 * 2 ^ 3 + field insn 12 1 * 2 ^ 5 + field insn 2 3 * 2 ^ 6)
            (rd insn))
  else if (quadrant =? 0) && (f =? 5) then
    Some (RvcAccess true (8 + field insn 7 3) offset (8 + field insn 2 3))
  else if (quadrant =? 2) && (f =? 5) then
    Some (RvcAccess true 2 (field insn 10 3 * 2 ^ 3 + field insn 7 3 * 2 ^ 6) (field insn 2 5))
  else None.

Definition rvc_address (m : machine) (a : rvc_access) : Z :=
  u64 (xregs m (ra_base a) + ra_offset a).

Lemma RVC_LD_IMM_spec insn : RVC_LD_IMM insn = field insn 10 3 * 2 ^ 3 + field insn 5 2 * 2 ^ 6.
Proof.
  unfold RVC_LD_IMM; rewrite !RV_X_field, !shiftl_mul, Z.lor_comm by lia.
  pose proof (field_range insn 10 3 ltac:(lia)); rewrite lor_add_disjoint by lia; lia.
Qed.

Lemma RVC_SDSP_IMM_spec insn : RVC_SDSP_IMM insn = field insn 10 3 * 2 ^ 3 + field insn 7 3 * 2 ^ 6.
Proof.
  unfold RVC_SDSP_IMM; rewrite !RV_X_field, !shiftl_mul, Z.lor_comm by lia.
  pose proof (field_range insn 10 3 ltac:(lia)); rewrite lor_add_disjoint by lia; lia.
Qed.

Lemma RVC_LDSP_IMM_spec insn :
  RVC_LDSP_IMM insn = field insn 5 2 * 2 ^ 3 + field insn 12 1 * 2 ^ 5 + field insn 2 3 * 2 ^ 6.
Proof.
  unfold RVC_LDSP_IMM; rewrite !RV_X_field, !shiftl_mul by lia.
  pose proof (field_range insn 5 2 ltac:(lia)); pose proof (field_range insn 12 1 ltac:(lia)).
  rewrite (Z.lor_comm (field insn 5 2 * 2 ^ 3)), lor_add_disjoint by lia.
  rewrite Z.lor_comm, lor_add_disjoint by lia; lia.
Qed.

Lemma run_GET_RS1S insn m : GET_RS1S insn m = Done (xregs m (8 + field insn 7 3)) m.
Proof.
  unfold GET_RS1S, reg, RVC_RS1S, SH_RD; rewrite RV_X_field by lia.
  pose proof (field_range insn 7 3 ltac:(lia)).
  rewrite GET_REG_low by lia; unfold field at 1; rewrite Z.div_1_r, Z.mod_small by lia; reflexivity.
Qed.

Lemma run_GET_SP m : GET_SP m = Done (xregs m 2) m.
Proof. reflexivity. Qed.

#[local] Hint Rewrite run_GET_RS1S run_GET_SP : mach.

Lemma run_F64_RS2_moved x m :
  0 <= x < 32 -> GET_F64_RS2 (u64 (x .<< SH_RS2)) m = Done (i64 (fregs m x)) m.
Proof.
  intros Hx; rewrite run_GET_F64_RS2; unfold SH_RS2, rs2, field.
  rewrite shiftl_mul, u64_small, Z.div_mul, Z.mod_small by lia; reflexivity.
Qed.

Lemma run_F64_RD_moved insn v m :
  SET_F64_RD (u64 (RVC_RS2S insn .<< SH_RD)) v m
  = Done tt (dirty (set_freg (8 + field insn 2 3) (u64 v) m)).
Proof.
  unfold SET_F64_RD, SET_F64_REG, SET_FS_DIRTY; mrun.
  change (freg_index ?x 7) with (GET_REG x SH_RD); rewrite moved_rd; reflexivity.
Qed.

Lemma run_F64_RD insn v m :
  SET_F64_RD insn v m = Done tt (dirty (set_freg (rd insn) (u64 v) m)).
Proof.
  unfold SET_F64_RD, SET_F64_REG, SET_FS_DIRTY; mrun; rewrite freg_index_field by lia; reflexivity.
Qed.

(** The handler, by the decoding of the ISA. *)
Lemma run_emulate_rvc mcause mepc mstatus insn m :
  wf m -> fp_off mstatus = false -> insn mod 4 <> 3 ->
  let m1 := put_csr Mepc (u64 (mepc + 2)) m in
  emulate_rvc mcause mepc mstatus insn m =
    match decode_rvc insn with
    | None => Redirected (delegated mepc mstatus insn m1)
    | Some a =>
        let addr := rvc_address m a in
        if nz (addr mod 8) then
          (if ra_store a then misaligned_store_trap else misaligned_load_trap) mcause mepc m1
        else if ra_store a then store_uint64_t addr (fregs m (ra_freg a)) mepc m1
        else mbind (load_uint64_t addr mepc)
               (fun v m => Done tt (dirty (set_freg (ra_freg a) (u64 v) m))) m1
    end.
Proof.
  intros W On Q m1; unfold emulate_rvc; mrun; fold m1; rewrite fp_off_test, On.
  unfold decode_rvc, rvc_address; mask_fields insn.
  assert (F64 : forall x, u64 (i64 (fregs m1 x)) = fregs m x)
    by (intros; rewrite u64_swrap; apply u64_small, W).
  pose proof (field_range insn 2 3 ltac:(lia)); pose proof (field_range insn 2 5 ltac:(lia)).
  rewrite RVC_LD_IMM_spec, RVC_LDSP_IMM_spec, RVC_SDSP_IMM_spec.
  assert (S8 : RVC_RS2S insn = 8 + field insn 2 3)
    by (unfold RVC_RS2S; rewrite RV_X_field by (unfold SH_RS2C; lia); reflexivity).
  assert (S5 : RVC_RS2 insn = field insn 2 5)
    by (unfold RVC_RS2; rewrite RV_X_field by (unfold SH_RS2C; lia); reflexivity).
  destruct ((insn mod 4 =? 0) && (field insn 13 3 =? 1)); [|
    destruct ((insn mod 4 =? 2) && (field insn 13 3 =? 1)); [|
      destruct ((insn mod 4 =? 0) && (field insn 13 3 =? 5)); [|
        destruct ((insn mod 4 =? 2) && (field insn 13 3 =? 5)); [|mrun; reflexivity]]]];
    cbn [ra_store ra_base ra_offset ra_freg]; mrun; change (xregs m1) with (xregs m);
    destruct (nz _); try reflexivity.
  - unfold mbind; destruct (load_uint64_t _ _ m1); [apply run_F64_RD_moved | reflexivity..].
  - unfold mbind; destruct (load_uint64_t _ _ m1); [apply run_F64_RD | reflexivity..].
  - rewrite S8, run_F64_RS2_moved by lia; cbv beta iota; rewrite F64; reflexivity.
  - rewrite S5, run_F64_RS2_moved by lia; cbv beta iota; rewrite F64; reflexivity.
Qed.

Lemma decode_rvc_load insn a :
  decode_rvc insn = Some a -> ra_store a = false ->
  decode_load insn = Some (IsaLoad 8 false true (ra_freg a)) /\ insn mod 4 <> 3.
Proof.
  unfold decode_rvc, decode_load.
  destruct (quadrant_cases insn) as [E|[E|[E|E]]]; rewrite E; cbn [Z.eqb Pos.eqb andb];
    try discriminate; destruct (field insn 13 3 =? 1);
    try (intros [= <-] _; split; [reflexivity | lia]);
    destruct (field insn 13 3 =? 5); intros [= <-]; discriminate.
Qed.

(** The compressed floating-point loads and stores at an aligned address.  [C.FLD],
    [C.FLDSP], [C.FSD] and [C.FSDSP] move the eight bytes at base plus offset, a fault is
    delegated as a page fault of the instruction with nothing changed, and every other
    compressed word is delegated as it was. *)
Lemma rvc_float_correct mcause mepc insn m :
  wf m -> 0 <= mepc < 2 ^ 64 -> fp_off (csrs m Mstatus) = false -> insn mod 4 <> 3 ->
  let m1 := put_csr Mepc (u64 (mepc + 2)) m in
  let run := emulate_rvc mcause mepc (csrs m Mstatus) insn m in
  match decode_rvc insn with
  | None => run = Redirected (delegated mepc (csrs m Mstatus) insn m1)
  | Some a =>
      let addr := rvc_address m a in
      let faults cause := exists m', run = Redirected m' /\
        sees_trap mepc cause (u64 addr) m1 m' /\ same_context m m' in
      addr mod 8 = 0 ->
      if ra_store a then
        if can_write m 8 addr
        then run = Done tt (set_mem (poke (mem m) 8 addr (fregs m (ra_freg a))) m1)
        else faults CAUSE_STORE_PAGE_FAULT
      else match peek (mem m) 8 addr with
           | Some v => run = Done tt (dirty (set_freg (ra_freg a) v m1))
           | None => faults CAUSE_LOAD_PAGE_FAULT
           end
  end.
Proof.
  intros W Hpc On Q m1 run; unfold run; rewrite run_emulate_rvc by assumption; fold m1.
  assert (W1 : wf m1) by (apply wf_put_csr; [exact W | apply Z.mod_pos_bound; lia]).
  destruct (decode_rvc insn) as [a|]; [|reflexivity]; cbv zeta; set (addr := rvc_address m a).
  intros A; rewrite A; cbn [nz Z.eqb negb]; destruct (ra_store a).
  - pose proof (run_store 8 addr (fregs m (ra_freg a)) mepc m1 W1 Hpc) as T; unfold store_uint64_t.
    unfold m1 in T at 1; rewrite can_write_put_csr in T; destruct (can_write m 8 addr); exact T.
  - pose proof (run_load 8 addr mepc m1 W1 Hpc) as T; change (mem m1) with (mem m) in T.
    unfold mbind, load_uint64_t; destruct (peek (mem m) 8 addr) as [v|] eqn:P.
    + rewrite T, u64_small; [reflexivity|].
      apply (peek_range (mem m) 8 addr); [apply W | exact P].
    + destruct T as (m' & -> & S); eauto.
Qed.

(** C25: floating-point loads and stores.  For every word of the major opcodes [LOAD-FP] and
    [STORE-FP], once the program counter has been moved past it and with the unit on, the handler
    loads the bytes at base plus offset into the floating-point register, or stores its low bytes
    there, aligned or not; a byte that cannot be accessed delegates a page fault at that byte with
    no register changed, and only the bytes before it stored; any other width delegates the
    trap.  The compressed [C.FLD], [C.FLDSP], [C.FSD] and [C.FSDSP] move the eight bytes at base
    plus offset when that is aligned, a fault is delegated as a page fault of the instruction with
    nothing changed, and every other compressed word is delegated as it was. *)
Theorem fp_loads_stores_correct mcause mepc insn m :
  wf m -> 0 <= mepc < 2 ^ 64 -> fp_off (csrs m Mstatus) = false ->
  (insn_at m mepc insn -> csrs m Mepc = u64 (mepc + 4) ->
    (opcode insn = 0x07 ->
     let addr := u64 (xregs m (rs1 insn) + imm_i insn) in
     let run := emulate_float_load mcause mepc (csrs m Mstatus) insn m in
     match decode_load insn with
     | Some k =>
         match peek (mem m) (il_len k) addr with
         | Some v => exists m', run = Done tt m' /\ same_but_badaddr (write_load k v m) m'
         | None => exists i m', 0 <= i < Z.of_nat (il_len k) /\ run = Redirected m' /\
             sees_trap mepc CAUSE_LOAD_PAGE_FAULT (u64 (addr + i)) m m' /\ same_context m m'
         end
     | None => run = Redirected (delegated mepc (csrs m Mstatus) insn m)
     end) /\
    (opcode insn = 0x27 ->
     let addr := u64 (xregs m (rs1 insn) + imm_s insn) in
     let v := fregs m (rs2 insn) in
     let run := emulate_float_store mcause mepc (csrs m Mstatus) insn m in
     match decode_store insn with
     | Some (len, _, _) =>
         if can_write m len addr then
           exists m', run = Done tt m' /\ same_but_badaddr (set_mem (poke (mem m) len addr v) m) m'
         else exists i m', (i < len)%nat /\ run = Redirected m' /\
           sees_trap mepc CAUSE_STORE_PAGE_FAULT (u64 (addr + Z.of_nat i)) m m' /\
           same_context (set_mem (poke (mem m) i addr v) m) m'
     | None => run = Redirected (delegated mepc (csrs m Mstatus) insn m)
     end)) /\
  (insn mod 4 <> 3 ->
    let m1 := put_csr Mepc (u64 (mepc + 2)) m in
    let run := emulate_rvc mcause mepc (csrs m Mstatus) insn m in
    match decode_rvc insn with
    | None => run = Redirected (delegated mepc (csrs m Mstatus) insn m1)
    | Some a =>
        let addr := rvc_address m a in
        let faults cause := exists m', run = Redirected m' /\
          sees_trap mepc cause (u64 addr) m1 m' /\ same_context m m' in
        addr mod 8 = 0 ->
        if ra_store a then
          if can_write m 8 addr
          then run = Done tt (set_mem (poke (mem m) 8 addr (fregs m (ra_freg a))) m1)
          else faults CAUSE_STORE_PAGE_FAULT
        else match peek (mem m) 8 addr with
             | Some v => run = Done tt (dirty (set_freg (ra_freg a) v m1))
             | None => faults CAUSE_LOAD_PAGE_FAULT
             end
    end).
Proof.
  intros W P O; split.
  - intros I E; exact (float_memory_correct mcause mepc insn m W P I O E).
  - intros M; exact (rvc_float_correct mcause mepc insn m W P O M).
Qed.

(** C35: a misaligned compressed floating-point load reads the wrong address.  The misaligned
    handler takes the address of the access from [mbadaddr]; [emulate_rvc] calls it without
    writing it there, as [fp_ldst.c] does, so it still holds the trap value of the illegal
    instruction, its own bits, and the register is loaded from that address. *)
Theorem rvc_misaligned_load_address mcause mepc insn m a v :
  wf m -> 0 <= mepc < 2 ^ 64 -> fp_off (csrs m Mstatus) = false ->
  insn_at m mepc insn -> csrs m Mbadaddr = insn ->
  decode_rvc insn = Some a -> ra_store a = false -> rvc_address m a mod 8 <> 0 ->
  peek (mem m) 8 insn = Some v ->
  exists m', emulate_rvc mcause mepc (csrs m Mstatus) insn m = Done tt m' /\
             fregs m' (ra_freg a) = v.
Proof.
  intros W Hpc On I B D L A P; destruct (decode_rvc_load insn a D L) as [K Q].
  rewrite run_emulate_rvc, D, L by assumption; cbv zeta; unfold nz.
  rewrite (proj2 (Z.eqb_neq _ 0) A); cbn [negb].
  set (m1 := put_csr Mepc (u64 (mepc + 2)) m).
  assert (W1 : wf m1) by (apply wf_put_csr; [exact W | apply Z.mod_pos_bound; lia]).
  pose proof (run_misaligned_load mcause mepc insn m1 W1 Hpc I) as T; cbv zeta in T.
  change (csrs m1 Mbadaddr) with (csrs m Mbadaddr) in T; change (mem m1) with (mem m) in T.
  rewrite K in T; cbn [il_len] in T; rewrite B, P in T.
  eexists; split; [exact T|]; cbn; unfold upd; rewrite Z.eqb_refl; reflexivity.
Qed.

(** [c.fld f8, 0(x9)] with [x9 = 0x201]: the eight bytes from [0x2080]. *)
Lemma rvc_misaligned_load_address_witness :
  let m := put_csr Mbadaddr 0x2080 (put_csr Mstatus MSTATUS_FS (set_xreg 9 0x201
             (with_bytes 0x2080 [7; 0; 0; 0; 0; 0; 0; 0] (with_bytes 0x100 [0x80; 0x20; 0;
               0] blank)))) in
  exists m', emulate_rvc 2 0x100 MSTATUS_FS 0x2080 m = Done tt m' /\ fregs m' 8 = 7.
Proof.
  intros m.
  assert (W : wf m) by (repeat (apply wf_put_csr || apply wf_set_xreg || apply wf_with_bytes);
                        auto with wf; split; vm_compute; congruence).
  apply (rvc_misaligned_load_address 2 0x100 0x2080 m (RvcAccess false 9 0 8) 7 W ltac:(lia));
    try reflexivity; [|vm_compute; discriminate].
  split; [reflexivity|]; intros _; eexists; reflexivity.
Defined.

(** [fld f1, 1(x2)] and [fsw f1, 3(x2)]: misaligned addresses. *)
Lemma fp_loads_stores_correct_witness :
  let m1 := put_csr Mepc 0x104 (put_csr Mstatus MSTATUS_FS (set_xreg 2 0x100
              (with_bytes 0x100 [0x87; 0x30; 0x11; 0x00; 0; 0; 0; 0; 0; 0] blank))) in
  let m2 := put_csr Mepc 0x104 (put_csr Mstatus MSTATUS_FS (set_xreg 2 0x102
              (set_freg 1 0x3F800000
                (with_bytes 0x100 [0xa7; 0x21; 0x11; 0x00; 0; 0; 0; 0; 0; 0] blank)))) in
  (exists m', emulate_float_load 2 0x100 MSTATUS_FS 0x00113087 m1 = Done tt m' /\
              fregs m' 1 = 0x001130) /\
  (exists m', emulate_float_store 2 0x100 MSTATUS_FS 0x001121a7 m2 = Done tt m' /\
              mem m' 0x108 = Some 0x3F).
Proof.
  intros m1 m2.
  assert (W : wf m1 /\ wf m2)
    by (split; repeat (apply wf_put_csr || apply wf_set_xreg || apply wf_set_freg
                       || apply wf_with_bytes); auto with wf; split; vm_compute; congruence).
  destruct W as [W1 W2]; split.
  - destruct (proj1 (fp_loads_stores_correct 2 0x100 0x00113087 m1 W1 ltac:(lia) eq_refl) eq_refl eq_refl)
      as [L _]; destruct (L eq_refl) as (m' & E & S).
    exists m'; split; [exact E|]; destruct S as (_ & -> & _); vm_compute; reflexivity.
  - destruct (proj1 (fp_loads_stores_correct 2 0x100 0x001121a7 m2 W2 ltac:(lia) eq_refl) eq_refl eq_refl)
      as [_ S]; destruct (S eq_refl) as (m' & E & Q).
    exists m'; split; [exact E|]; destruct Q as (_ & _ & _ & -> & _); vm_compute; reflexivity.
Defined.
