(* ===== verification/TrapEntry.v ===== *)
(** * Trap entry and exit ([machine/mentry.S])

    The path of a synchronous trap from a lower privilege level: the emulated FCSR moves
    from the save slot of [x0] to [tp], the slot is cleared, the handler the cause selects
    runs, and on a normal return [tp] goes back to the slot.  A handler that delegates the
    trap leaves through [__redirect_trap], which joins the exit path after that store. *)

From S2P Require Import Prelude FpSpec SfEnv Encoding Machine MulDiv Misaligned FpLdst FpEmulation.
From S2P Require Import Emulation Csr FpInsn FpConv.
From Stdlib Require Import ZArith Lia Bool List.
Import ListNotations.

(** ** Definitions *)

(** [trap_table].  The environment call handler is a parameter: it works on the state of
    several harts. *)
Section TrapTable.
Context (mcall_trap : Z -> Z -> M unit).

(** [__trap_from_machine_mode], with the saved [a2] and [a3]. *)
Definition trap_from_machine_mode_regs (mcause mepc : Z) : M unit :=
  let! a2 := reg 12 in
  let! a3 := reg 13 in
  trap_from_machine_mode a2 a3.

Definition trap_table : list (Z -> Z -> M unit) := [
  (fun _ _ => bad_trap); pmp_trap; illegal_insn_trap; (fun _ _ => bad_trap);
  misaligned_load_trap; pmp_trap; misaligned_store_trap; pmp_trap;
  (fun _ _ => bad_trap); mcall_trap; (fun _ _ => bad_trap); (fun _ _ => bad_trap);
  (fun _ _ => bad_trap); trap_from_machine_mode_regs; (fun _ _ => bad_trap);
  (fun _ _ => bad_trap)].

(** [.Lhandle_trap_in_machine_mode] up to the call: [lw tp, (sp)] and [STORE x0, (sp)]. *)
Definition trap_enter : M unit :=
  fun m => Done tt (set_xreg 0 0 (set_tp (u64 (i32 (xregs m 0))) m)).

(** [sw tp, (sp)] after the call: the low half of the slot. *)
Definition trap_leave : M unit :=
  fun m => Done tt (set_xreg 0 ((xregs m 0 / 2 ^ 32) * 2 ^ 32 + u32 (tp m)) m).

(** A trap whose cause is an exception below the page faults, which the monitor delegates
    in hardware. *)
Definition handle_trap : M unit :=
  let! mcause := read_csr Mcause in
  let! mepc := read_csr Mepc in
  do! trap_enter in
  do! nth (Z.to_nat mcause) trap_table (fun _ _ => bad_trap) mcause mepc in
  trap_leave.
End TrapTable.

(** ** Running a trap *)

Definition entered (m : machine) : machine := set_xreg 0 0 (set_tp (u64 (i32 (xregs m 0))) m).

Definition left (m : machine) : machine :=
  set_xreg 0 ((xregs m 0 / 2 ^ 32) * 2 ^ 32 + u32 (tp m)) m.

(** The state in which the handler of a 32-bit illegal instruction runs. *)
Definition stepped (m : machine) : machine := put_csr Mepc (u64 (csrs m Mepc + 4)) (entered m).

Lemma wf_stepped m : wf m -> wf (stepped m).
Proof.
  intros W; unfold stepped, entered; apply wf_put_csr; [|apply Z.mod_pos_bound; lia].
  apply wf_set_xreg; [apply wf_set_tp, W | lia].
Qed.

Lemma opcode_index insn k :
  0 <= k < 32 -> opcode insn = 4 * k + 3 ->
  (insn .& 3 =? 3) = true /\ (insn .& 0x7c) / 4 = k.
Proof.
  intros Hk O; unfold opcode in O.
  assert (F : field insn 0 7 = insn mod 2 ^ 7) by (unfold field; rewrite Z.div_1_r; reflexivity).
  rewrite F in O; split.
  - change 3 with (2 ^ 2 - 1) at 1; rewrite land_ones_mod by lia; apply Z.eqb_eq.
    Z.div_mod_to_equations; lia.
  - change 0x7c with ((2 ^ 5 - 1) * 2 ^ 2); rewrite land_field by lia.
    change 4 with (2 ^ 2); rewrite Z.div_mul by lia; Z.div_mod_to_equations; lia.
Qed.

Section Illegal.
Context (mcall_trap : Z -> Z -> M unit) (m : machine) (insn : Z).
Context (HC : csrs m Mcause = 2) (HB : csrs m Mbadaddr = insn).

(** An illegal-instruction trap of a 32-bit word, by its major opcode. *)
Lemma run_illegal k :
  0 <= k < 32 -> opcode insn = 4 * k + 3 ->
  handle_trap mcall_trap m =
    match nth (Z.to_nat k) illegal_insn_trap_table truly_illegal_insn
            2 (csrs m Mepc) (csrs m Mstatus) insn (stepped m) with
    | Done _ m' => Done tt (left m')
    | Redirected m' => Redirected m'
    | Dead => Dead
    | Undefined => Undefined
    end.
Proof using HC HB.
  intros Hk O; destruct (opcode_index insn k Hk O) as [L I].
  unfold handle_trap, trap_enter; mrun; rewrite HC.
  change (nth (Z.to_nat 2) _ _) with illegal_insn_trap.
  unfold illegal_insn_trap; mrun; fold (entered m).
  change (csrs (entered m)) with (csrs m); rewrite HB, L, I; cbn [negb]; fold (stepped m).
  destruct (nth (Z.to_nat k) illegal_insn_trap_table truly_illegal_insn 2 (csrs m Mepc)
              (csrs m Mstatus) insn (stepped m)); reflexivity.
Qed.
End Illegal.

(** ** The emulated FCSR *)

Lemma field_low x y n i w :
  0 <= i -> 0 <= w -> i + w <= n -> x mod 2 ^ n = y mod 2 ^ n -> field x i w = field y i w.
Proof.
  intros Hi Hw Hn E; rewrite <- (field_mod x n), <- (field_mod y n), E by lia; reflexivity.
Qed.

Lemma field_slot x i w : 0 <= i -> 0 <= w -> i + w <= 32 -> field (u64 (i32 x)) i w = field x i w.
Proof.
  intros; apply (field_low _ _ 32); try assumption.
  transitivity (i32 x mod 2 ^ 32); [|apply (wrap_swrap 32)].
  exact (u32_u64 (i32 x)).
Qed.

Lemma mod_lor a b n : 0 <= n -> (a .| b) mod 2 ^ n = a mod 2 ^ n .| b mod 2 ^ n.
Proof.
  intros Hn; rewrite <- !Z.land_ones by lia; apply Z.bits_inj'; intros i Hi.
  rewrite !Z.land_spec, !Z.lor_spec, !Z.land_spec; destruct (Z.testbit (Z.ones n) i);
    rewrite ?andb_true_r, ?andb_false_r; reflexivity.
Qed.

Lemma effective_rm_stepped insn m :
  effective_rm insn (stepped m)
  = if funct3 insn =? 7 then field (xregs m 0) 5 3 else funct3 insn.
Proof.
  unfold effective_rm, stepped, entered; cbn [tp set_tp set_xreg put_csr set_csrs].
  rewrite field_slot by lia; reflexivity.
Qed.

(** The FCSR a completed instruction leaves in the slot. *)
Lemma slot_after insn m fl m' :
  0 <= fl < 2 ^ 5 -> tp m' = tp (accrue fl (setup insn (stepped m))) -> xregs m' 0 = 0 ->
  field (xregs (left m') 0) 0 8 = field (xregs m 0) 0 8 .| fl.
Proof.
  intros Hf T X; unfold left; cbn [xregs set_xreg]; unfold upd; rewrite Z.eqb_refl, X, T.
  change (0 / 2 ^ 32 * 2 ^ 32) with 0; rewrite Z.add_0_l; unfold u32, wrap.
  rewrite (field_mod _ 32) by lia; unfold accrue; cbn [tp set_tp].
  rewrite <- (field_slot (xregs m 0)) by lia; unfold field; rewrite !Z.div_1_r, mod_lor by lia.
  rewrite (Z.mod_small fl) by lia; f_equal; apply Z.bits_inj'; intros i Hi.
  destruct (Z.ltb_spec i 8); [|rewrite !Z.mod_pow2_bits_high by lia; reflexivity].
  rewrite !Z.mod_pow2_bits_low, setup_tp_bits by lia; reflexivity.
Qed.

Lemma fread_fwrite F i v m : 0 <= fwidth F -> encoding F v -> fread F (fwrite F i v m) i = v.
Proof.
  intros Hw Hv; unfold fread, fwrite; cbn [dirty fregs set_freg put_csr set_csrs]; unfold upd.
  rewrite Z.eqb_refl, Z.add_comm, Z.mod_add by (apply Z.pow_nonzero; lia).
  apply Z.mod_small, Hv.
Qed.

(** ** Theorems *)



(** C33: the FCSR is lost when a trap is delegated.  The entry path clears the slot that
    holds the emulated FCSR, and a handler that delegates the trap does not pass the store
    that puts it back: after an illegal instruction the monitor does not know, the next
    trap finds an FCSR of 0, whatever it was. *)
Theorem fcsr_lost_on_delegation mcall_trap m insn :
  csrs m Mcause = 2 -> csrs m Mbadaddr = insn ->
  opcode insn mod 4 = 3 ->
  ~ In (opcode insn) [0x07; 0x27; 0x33; 0x3b; 0x43; 0x47; 0x4b; 0x4f; 0x53; 0x73] ->
  exists m', handle_trap mcall_trap m = Redirected m' /\ xregs m' 0 = 0 /\ tp (entered m') = 0.
Proof.
  intros HC HB M4 N; set (k := opcode insn / 4).
  pose proof (field_range insn 0 7 ltac:(lia)) as R; fold (opcode insn) in R.
  assert (O : opcode insn = 4 * k + 3) by (unfold k; Z.div_mod_to_equations; lia).
  assert (Hk : 0 <= k < 32) by lia.
  rewrite (run_illegal mcall_trap m insn HC HB k Hk O).
  assert (T : nth (Z.to_nat k) illegal_insn_trap_table truly_illegal_insn = truly_illegal_insn).
  { rewrite O in N; clearbody k; assert (K : exists j, (j < 32)%nat /\ k = Z.of_nat j)
      by (exists (Z.to_nat k); lia).
    destruct K as (j & Hj & ->); rewrite Nat2Z.id.
    do 32 (destruct j as [|j]; [first [reflexivity | exfalso; apply N; cbn; lia]|]); lia. }
  rewrite T, run_truly_illegal; eexists; repeat split.
Qed.

Lemma fcsr_lost_on_delegation_witness :
  let m := put_csr Mcause 2 (put_csr Mbadaddr 0x0000000B (set_xreg 0 0x60 blank)) in
  exists m', handle_trap (fun _ _ => bad_trap) m = Redirected m' /\ xregs m' 0 = 0 /\
             tp (entered m') = 0.
Proof.
  intros m; apply (fcsr_lost_on_delegation (fun _ _ => bad_trap) m 0x0000000B);
    try reflexivity; cbn; lia.
Defined.
