(* ===== verification/Confine.v ===== *)
(** * What a trap may change

    Every handler the trap table of [mentry.S] reaches, on every instruction, keeps the state
    well formed and stays within the rights of the interrupted context: it changes no
    memory that context may not write, leaves the privilege level of the return alone or
    hands the trap to the supervisor's own vector, and never leaves accesses made on behalf
    of the context switched on. *)

From S2P Require Import Prelude FpSpec SfEnv Encoding Machine MulDiv Misaligned FpLdst FpEmulation.
From S2P Require Import Emulation TrapEntry.
From Stdlib Require Import ZArith Lia Bool List.
Import ListNotations.

(** ** The rights of the interrupted context *)

(** The trap comes from below machine mode ([MPP] is user or supervisor) and [MPRV] is off. *)
Definition low (s : Z) : Prop :=
  0 <= s < 2 ^ 64 /\ Z.testbit s 12 = false /\ Z.testbit s 17 = false.

(** What any handler preserves. *)
Record within (m m' : machine) : Prop := {
  within_wf : wf m';
  within_writable : writable m' = writable m;
  within_mem : forall a, writable m a = false -> mem m' a = mem m a;
  within_stvec : csrs m' Stvec = csrs m Stvec;
  within_mtime : mtime m' = mtime m
}.

(** A handler that returns: [mstatus] is the same but for the dirty bits of the
    floating-point state. *)
Definition returns (m m' : machine) : Prop :=
  within m m' /\
  forall i, 0 <= i -> i <> 13 -> i <> 14 ->
    Z.testbit (csrs m' Mstatus) i = Z.testbit (csrs m Mstatus) i.

(** A handler that delegates: to supervisor mode, at its vector. *)
Definition delegates (m m' : machine) : Prop :=
  within m m' /\ csrs m' Mepc = csrs m Stvec /\ field (csrs m' Mstatus) 11 2 = 1 /\
  Z.testbit (csrs m' Mstatus) 17 = false.

(** [safe P c]: [c] stays within the rights, and its results satisfy [P]. *)
Definition safe {A : Type} (P : A -> Prop) (c : M A) : Prop :=
  forall m, wf m -> low (csrs m Mstatus) ->
    match c m with
    | Done a m' => P a /\ returns m m'
    | Redirected m' => delegates m m'
    | Dead | Undefined => True
    end.

Definition any {A : Type} (_ : A) : Prop := True.

(** ** Composition *)

Lemma within_refl m : wf m -> within m m.
Proof. split; auto. Qed.

Lemma within_trans m1 m2 m3 : within m1 m2 -> within m2 m3 -> within m1 m3.
Proof.
  intros [A1 A2 A3 A4 A5] [B1 B2 B3 B4 B5]; split; auto; try congruence.
  intros a Ha; rewrite B3, A3; congruence.
Qed.

Lemma returns_refl m : wf m -> returns m m.
Proof. intros W; split; [apply within_refl; exact W | reflexivity]. Qed.

Lemma returns_trans m1 m2 m3 : returns m1 m2 -> returns m2 m3 -> returns m1 m3.
Proof.
  intros [A1 A2] [B1 B2]; split; [exact (within_trans _ _ _ A1 B1)|].
  intros i H0 H1 H2; rewrite B2, A2; auto.
Qed.

Lemma returns_low m m' : low (csrs m Mstatus) -> returns m m' -> low (csrs m' Mstatus).
Proof.
  intros (_ & L1 & L2) [W E]; split; [apply (wf_csrs m'), W|]; rewrite !E by lia; auto.
Qed.

Lemma returns_delegates m1 m2 m3 : returns m1 m2 -> delegates m2 m3 -> delegates m1 m3.
Proof.
  intros [A _] (B & E & P & V); split; [exact (within_trans _ _ _ A B)|].
  split; [rewrite E; apply A | auto].
Qed.

Lemma safe_done {A} (P : A -> Prop) a : P a -> safe P (done a).
Proof. intros HP m W L; split; [exact HP | apply returns_refl; exact W]. Qed.

Lemma safe_bind {A B} (P : A -> Prop) (Q : B -> Prop) c k :
  safe P c -> (forall a, P a -> safe Q (k a)) -> safe Q (mbind c k).
Proof.
  intros Hc Hk m W L; unfold mbind; specialize (Hc m W L); destruct (c m) as [a m1 | m1 | |]; auto.
  destruct Hc as [HP R]; specialize (Hk a HP m1 ltac:(apply R) (returns_low _ _ L R)).
  destruct (k a m1) as [b m2 | m2 | |]; auto; [destruct Hk as [HQ R2]; split; [exact HQ|]|].
  - exact (returns_trans _ _ _ R R2).
  - exact (returns_delegates _ _ _ R Hk).
Qed.

Lemma safe_weaken {A} (P Q : A -> Prop) c : (forall a, P a -> Q a) -> safe P c -> safe Q c.
Proof. intros H S m W L; specialize (S m W L); destruct (c m); auto; destruct S; auto. Qed.

Lemma safe_any {A} (P : A -> Prop) c : safe P c -> safe any c.
Proof. apply safe_weaken; intros; exact I. Qed.

(** ** The primitives *)

Lemma safe_read_status : safe low (read_csr Mstatus).
Proof. intros m W L; split; [exact L | apply returns_refl; exact W]. Qed.

Lemma safe_query {A} (f : machine -> A) : safe any (fun m => Done (f m) m).
Proof. intros m W L; split; [exact I | apply returns_refl; exact W]. Qed.

(** An update that keeps memory, [stvec] and [mstatus]. *)
Lemma safe_update {A} (a : A) f :
  (forall m, wf m -> wf (f m) /\ writable (f m) = writable m /\ mem (f m) = mem m /\
     mtime (f m) = mtime m /\ csrs (f m) Stvec = csrs m Stvec /\
       csrs (f m) Mstatus = csrs m Mstatus) ->
  safe any (fun m => Done a (f m)).
Proof.
  intros H m W L; destruct (H m W) as (W' & E1 & E2 & E3 & E4 & E5); split; [exact I|].
  split; [split; auto; intros; rewrite E2; reflexivity|]; intros; rewrite E5; reflexivity.
Qed.

Lemma put_csr_other c d v m : d <> c -> csrs (put_csr c v m) d = csrs m d.
Proof. intros N; unfold put_csr; cbn [csrs set_csrs]; destruct (csr_eq_dec d c); congruence. Qed.

Lemma safe_write_csr c v : c <> Mstatus -> c <> Stvec -> safe any (write_csr c v).
Proof.
  intros N1 N2; apply safe_update; intros m W; split; [auto with wf|].
  repeat split; apply put_csr_other; congruence.
Qed.

Lemma safe_set_reg i v : safe any (set_reg i v).
Proof. apply safe_update; intros m W; split; [auto with wf | auto]. Qed.

Lemma testbit_fs i : 0 <= i -> i <> 13 -> i <> 14 -> Z.testbit MSTATUS_FS i = false.
Proof.
  intros; change MSTATUS_FS with (2 ^ 13 .| 2 ^ 14); rewrite Z.lor_spec, !Z.pow2_bits_eqb by lia.
  rewrite !(proj2 (Z.eqb_neq _ _)) by lia; reflexivity.
Qed.

Lemma safe_dirty : safe any SET_FS_DIRTY.
Proof.
  intros m W L; cbn; split; [exact I|]; split.
  - split; auto.
    apply wf_put_csr; [exact W|]; apply (lor_range 64); try lia;
      [apply (wf_csrs m W) | vm_compute; split; congruence].
  - intros i H0 H1 H2; cbn -[Z.testbit]; rewrite Z.lor_spec.
    rewrite (testbit_fs i) by assumption; apply orb_false_r.
Qed.

Lemma safe_freg64 insn pos v : safe any (SET_F64_REG insn pos v).
Proof. apply safe_update; intros m W; split; [auto with wf | auto]. Qed.

Lemma safe_freg32 insn pos v : safe any (SET_F32_REG insn pos v).
Proof.
  unfold SET_F32_REG; cbv zeta; apply safe_update; intros m W; split; [|auto].
  apply wf_set_freg; [exact W|]; pose proof (wf_fregs m W (freg_index insn pos)) as R.
  pose proof (u32_range v); pose proof (div_bounds (fregs m (freg_index insn pos)) (2 ^ 32) ltac:(lia)).
  assert (0 <= fregs m (freg_index insn pos) / 2 ^ 32 < 2 ^ 32)
    by (split; [apply Z.div_pos | apply Z.div_lt_upper_bound]; lia).
  lia.
Qed.

Lemma safe_set_tp v : safe any (fun m => Done tt (set_tp v m)).
Proof. apply safe_update; intros m W; split; [auto with wf | auto]. Qed.

Lemma safe_softfloat {A} (c : fp A) : safe any (softfloat c).
Proof.
  intros m W L; unfold softfloat; destruct (c (rounding_mode m) (tp m)) as [a fl]; split;
    [exact I|].
  split; [split; auto with wf | reflexivity].
Qed.

Lemma safe_rounding insn : safe any (SETUP_STATIC_ROUNDING insn).
Proof.
  intros m W L; unfold SETUP_STATIC_ROUNDING; cbv zeta.
  destruct (_ =? _); [|destruct (_ <? _)]; (split; [exact I|]; split; [split;
    auto with wf | reflexivity]).
Qed.

(** Delegation. *)
Lemma delegated_low epc mstatus badaddr m m0 :
  wf m -> low mstatus -> within m0 m -> delegates m0 (delegated epc mstatus badaddr m).
Proof.
  intros W (R & L1 & L2) H; split; [|split; [|split]].
  - apply (within_trans _ m); [exact H|]; split; auto with wf.
  - transitivity (u64 (csrs m Stvec)); [reflexivity|].
    rewrite u64_small by apply (wf_csrs m W); apply H.
  - change (csrs (delegated epc mstatus badaddr m) Mstatus) with (u64 (redirected_mstatus mstatus)).
    rewrite u64_small by (apply redirected_mstatus_range; exact R).
    apply Z.bits_inj'; intros i Hi; unfold field.
    destruct (Z.ltb_spec i 2); [|rewrite Z.mod_pow2_bits_high by lia; symmetry;
      apply Z.bits_above_log2; cbn; lia].
    rewrite Z.mod_pow2_bits_low, <- shiftr_div, Z.shiftr_spec, redirected_mstatus_bits by lia.
    assert (C : i = 0 \/ i = 1) by lia; destruct C as [-> | ->]; [reflexivity | exact L1].
  - change (csrs (delegated epc mstatus badaddr m) Mstatus) with (u64 (redirected_mstatus mstatus)).
    rewrite u64_small, redirected_mstatus_bits by (try apply redirected_mstatus_range; lia).
    exact L2.
Qed.

Lemma safe_redirect {A} (P : A -> Prop) epc mstatus badaddr :
  low mstatus -> safe P (redirect_trap (A := A) epc mstatus badaddr).
Proof.
  intros L m W _; rewrite run_redirect_trap; apply delegated_low; auto using within_refl.
Qed.

Lemma safe_illegal {A} (P : A -> Prop) mcause mepc mstatus insn :
  low mstatus -> safe P (truly_illegal_insn (A := A) mcause mepc mstatus insn).
Proof.
  intros L m W _; rewrite run_truly_illegal; apply delegated_low; auto using within_refl.
Qed.

Lemma safe_bad_trap {A} (P : A -> Prop) : safe P (bad_trap (A := A)).
Proof. intros m W L; exact I. Qed.

Lemma safe_undefined {A} (P : A -> Prop) : safe P (undefined (A := A)).
Proof. intros m W L; exact I. Qed.

(** ** Memory accesses *)

Lemma safe_access_fault {A} (P : A -> Prop) cause addr mepc mprv :
  cause = CAUSE_LOAD_PAGE_FAULT \/ cause = CAUSE_STORE_PAGE_FAULT ->
  Z.testbit mprv 17 = true -> 0 <= mprv < 2 ^ 64 ->
  safe P (access_fault (A := A) cause addr mepc mprv).
Proof.
  intros Hc Hp Hr m W L; rewrite run_access_fault by assumption.
  assert (F : wf (faulted cause addr mprv m)).
  { unfold faulted; repeat apply wf_put_csr; try apply u64_range; [exact W|].
    apply (lor_range 64); try lia; apply (wf_csrs m W). }
  apply delegated_low; [exact F | exact L | split; auto].
Qed.

Lemma safe_load n addr mepc mprv :
  Z.testbit mprv 17 = true -> 0 <= mprv < 2 ^ 64 -> safe any (unprivileged_load n addr mepc mprv).
Proof.
  intros Hp Hr m W L; unfold unprivileged_load; destruct (peek (mem m) n addr).
  - split; [exact I | apply returns_refl; exact W].
  - apply (safe_access_fault any); auto.
Qed.

Lemma poke_range f n addr val :
  (forall a b, f a = Some b -> 0 <= b < 256) ->
  forall a b, poke f n addr val a = Some b -> 0 <= b < 256.
Proof.
  revert f addr val; induction n as [|n IH]; intros f addr val H; [exact H|]; cbn [poke].
  apply IH; intros a b; destruct (a =? u64 addr); [|apply H].
  intros [= <-]; apply Z.mod_pos_bound; lia.
Qed.

Lemma poke_outside m f n addr val a :
  can_write m n addr = true -> writable m a = false -> poke f n addr val a = f a.
Proof.
  intros C Ha; revert f addr val C; induction n as [|n IH]; intros f addr val C; [reflexivity|].
  cbn [can_write poke] in *; apply andb_prop in C as [C1 C2]; rewrite IH by exact C2.
  destruct (Z.eqb_spec a (u64 addr)); [congruence | reflexivity].
Qed.

Lemma safe_store n addr val mepc : safe any (unprivileged_store n addr val mepc).
Proof.
  intros m W L; unfold unprivileged_store; destruct (can_write m n addr) eqn:C.
  - split; [exact I|]; split; [|reflexivity]; split; auto.
    + split; cbn; try apply W; apply poke_range, (wf_mem m W).
    + intros a Ha; cbn; apply (poke_outside m); assumption.
  - apply (safe_access_fault any); auto; vm_compute; split; congruence.
Qed.

Create HintDb safe.
#[export] Hint Resolve safe_done safe_query safe_set_reg safe_dirty safe_freg64 safe_freg32 safe_set_tp
  safe_softfloat safe_rounding safe_redirect safe_illegal safe_bad_trap safe_undefined safe_store
  safe_read_status : safe.
#[export] Hint Extern 1 (safe any (write_csr _ _)) => apply safe_write_csr; discriminate : safe.
#[export] Hint Extern 1 (safe any (read_csr _)) => apply safe_query : safe.
#[export] Hint Extern 1 (safe any (unprivileged_load _ _ _ _)) =>
  apply safe_load; [reflexivity | vm_compute; split; congruence] : safe.
#[export] Hint Extern 1 (any _) => exact I : safe.

(** Follows the structure of a handler; a status read from the machine is [low]. *)
Ltac safe_step :=
  match goal with
  | |- safe _ (mbind (read_csr Mstatus) _) =>
      apply (safe_bind low); [apply safe_read_status | intros ? ?]
  | |- safe _ (mbind _ _) => apply (safe_bind any); [|intros ? _]
  | |- safe _ (if ?c then _ else _) => destruct c
  | |- safe _ (match ?x with _ => _ end) => destruct x
  end.
Ltac safe_tac := cbv zeta; repeat (first [solve [auto with safe] | safe_step; cbv beta zeta]).

Lemma safe_get_insn mepc : safe (fun r => low (snd r)) (get_insn mepc).
Proof.
  unfold get_insn; cbv zeta; apply (safe_bind low); [apply safe_read_status | intros s L].
  apply (safe_bind any); [safe_tac | intros v _; apply safe_done; exact L].
Qed.

(** ** The accessors *)

Lemma safe_GET_RS1 insn : safe any (GET_RS1 insn).
Proof. apply safe_query. Qed.
Lemma safe_GET_RS2 insn : safe any (GET_RS2 insn).
Proof. apply safe_query. Qed.
Lemma safe_SET_RD insn v : safe any (SET_RD insn v).
Proof. apply safe_set_reg. Qed.
Lemma safe_SET_F32_RD insn v : safe any (SET_F32_RD insn v).
Proof. unfold SET_F32_RD; safe_tac. Qed.
Lemma safe_SET_F64_RD insn v : safe any (SET_F64_RD insn v).
Proof. unfold SET_F64_RD; safe_tac. Qed.
Lemma safe_SET_FCSR v : safe any (SET_FCSR v).
Proof. unfold SET_FCSR; safe_tac. Qed.
#[export] Hint Resolve safe_GET_RS1 safe_GET_RS2 safe_SET_RD safe_SET_F32_RD safe_SET_F64_RD safe_SET_FCSR
  : safe.

(** Reading a register, a floating-point register or the [fcsr] does not change the machine. *)
#[export] Hint Extern 1 (safe any (reg _)) => apply safe_query : safe.
#[export] Hint Extern 1 (safe any (GET_RS1S _)) => apply safe_query : safe.
#[export] Hint Extern 1 (safe any (GET_RS2S _)) => apply safe_query : safe.
#[export] Hint Extern 1 (safe any (GET_RS2C _)) => apply safe_query : safe.
#[export] Hint Extern 1 (safe any GET_SP) => apply safe_query : safe.
#[export] Hint Extern 1 (safe any (GET_F32_RS1 _)) => apply safe_query : safe.
#[export] Hint Extern 1 (safe any (GET_F32_RS2 _)) => apply safe_query : safe.
#[export] Hint Extern 1 (safe any (GET_F32_RS3 _)) => apply safe_query : safe.
#[export] Hint Extern 1 (safe any (GET_F64_RS1 _)) => apply safe_query : safe.
#[export] Hint Extern 1 (safe any (GET_F64_RS2 _)) => apply safe_query : safe.
#[export] Hint Extern 1 (safe any (GET_F64_RS3 _)) => apply safe_query : safe.
#[export] Hint Extern 1 (safe any (GET_F64_RS2C _)) => apply safe_query : safe.
#[export] Hint Extern 1 (safe any (GET_F64_RS2S _)) => apply safe_query : safe.
#[export] Hint Extern 1 (safe any GET_FCSR) => apply safe_query : safe.

(** ** The handlers *)

(** An emulation routine given the status [get_insn] or the trap saw. *)
Definition sound (f : emulation_func) : Prop :=
  forall mcause mepc mstatus insn, low mstatus -> safe any (f mcause mepc mstatus insn).

Lemma safe_load_bytes n addr mepc : safe any (load_bytes n addr mepc).
Proof. revert addr; induction n; intros addr; cbn [load_bytes]; unfold load_uint8_t; safe_tac. Qed.

Lemma safe_store_bytes n addr val mepc : safe any (store_bytes n addr val mepc).
Proof.
  revert addr val; induction n; intros addr val; cbn [store_bytes]; unfold store_uint8_t; safe_tac.
Qed.
#[export] Hint Resolve safe_load_bytes safe_store_bytes : safe.

Ltac fetch :=
  apply (safe_bind (fun r => low (snd r))); [apply safe_get_insn|];
  intros [insn' mstatus'] L'; cbn [snd] in L'.

Lemma safe_misaligned_load mcause mepc : safe any (misaligned_load_trap mcause mepc).
Proof. unfold misaligned_load_trap; fetch; safe_tac. Qed.

Lemma safe_store_source insn k : misaligned_store_decode insn = Some k -> safe any (snd k).
Proof.
  unfold misaligned_store_decode.
  repeat (destruct (matches _ _ _); cbn [andb]; [try (intros [= <-]; cbn [snd]; auto with safe)|]).
  all: repeat (match goal with |- context [if ?c then _ else _] => destruct c end);
    try (intros [= <-]; cbn [snd]; auto with safe); discriminate.
Qed.

Lemma safe_misaligned_store mcause mepc : safe any (misaligned_store_trap mcause mepc).
Proof.
  unfold misaligned_store_trap; fetch.
  destruct (misaligned_store_decode insn') as [[len value]|] eqn:D; [|safe_tac].
  pose proof (safe_store_source _ _ D); safe_tac.
Qed.
#[export] Hint Resolve safe_misaligned_load safe_misaligned_store : safe.

Lemma sound_illegal : sound truly_illegal_insn.
Proof. red; intros; auto with safe. Qed.

Lemma sound_float_load : sound emulate_float_load.
Proof. red; intros; unfold emulate_float_load, punt_to_misaligned_handler, load_int32_t, load_uint64_t; safe_tac. Qed.

Lemma sound_float_store : sound emulate_float_store.
Proof. red; intros; unfold emulate_float_store, punt_to_misaligned_handler, store_uint32_t, store_uint64_t; safe_tac. Qed.

Lemma sound_rvc : sound emulate_rvc.
Proof. red; intros; unfold emulate_rvc, load_uint64_t, store_uint64_t; safe_tac. Qed.

Lemma sound_mul_div : sound emulate_mul_div.
Proof. red; intros; unfold emulate_mul_div, c_sdiv, c_srem, c_udiv, c_urem; safe_tac. Qed.

Lemma sound_mul_div32 : sound emulate_mul_div32.
Proof. red; intros; unfold emulate_mul_div32, c_sdiv, c_srem, c_udiv, c_urem; safe_tac. Qed.

Lemma safe_read num mstatus : safe any (emulate_read_csr num mstatus).
Proof. unfold emulate_read_csr, GET_FRM, GET_FFLAGS; safe_tac. Qed.

Lemma safe_write num value mstatus : safe any (emulate_write_csr num value mstatus).
Proof. unfold emulate_write_csr, SET_FRM, SET_FFLAGS, GET_FRM, GET_FFLAGS; safe_tac. Qed.
#[export] Hint Resolve safe_read safe_write : safe.

Lemma sound_system_opcode : sound emulate_system_opcode.
Proof. red; intros; unfold emulate_system_opcode; safe_tac. Qed.

Lemma sound_any_fadd neg_b :
  sound (fun mcause mepc mstatus insn => emulate_any_fadd mcause mepc mstatus insn neg_b).
Proof. red; intros; unfold emulate_any_fadd; safe_tac. Qed.

Lemma sound_fmul : sound emulate_fmul.
Proof. red; intros; unfold emulate_fmul; safe_tac. Qed.

Lemma sound_fdiv : sound emulate_fdiv.
Proof. red; intros; unfold emulate_fdiv; safe_tac. Qed.

Lemma sound_fsqrt : sound emulate_fsqrt.
Proof. red; intros; unfold emulate_fsqrt; safe_tac. Qed.

Lemma sound_fsgnj : sound emulate_fsgnj.
Proof. red; intros; unfold emulate_fsgnj; safe_tac. Qed.

Lemma sound_fmin : sound emulate_fmin.
Proof. red; intros; unfold emulate_fmin; safe_tac. Qed.

Lemma sound_fcvt_ff : sound emulate_fcvt_ff.
Proof. red; intros; unfold emulate_fcvt_ff; safe_tac. Qed.

Lemma sound_fcvt_fi : sound emulate_fcvt_fi.
Proof. red; intros; unfold emulate_fcvt_fi; safe_tac. Qed.

Lemma sound_fcvt_if : sound emulate_fcvt_if.
Proof. red; intros; unfold emulate_fcvt_if; safe_tac. Qed.

Lemma sound_fcmp : sound emulate_fcmp.
Proof. red; intros; unfold emulate_fcmp; safe_tac. Qed.

Lemma sound_fmv_if : sound emulate_fmv_if.
Proof. red; intros; unfold emulate_fmv_if; safe_tac. Qed.

Lemma sound_fmv_fi : sound emulate_fmv_fi.
Proof. red; intros; unfold emulate_fmv_fi; safe_tac. Qed.

Lemma sound_fadd : sound emulate_fadd.
Proof. exact (sound_any_fadd 0). Qed.

Lemma sound_fsub : sound emulate_fsub.
Proof. exact (sound_any_fadd INT32_MIN). Qed.

Create HintDb sound.
#[export] Hint Resolve sound_illegal sound_fadd sound_fsub sound_fmul sound_fdiv sound_fsqrt sound_fsgnj
  sound_fmin sound_fcvt_ff sound_fcvt_fi sound_fcvt_if sound_fcmp sound_fmv_if sound_fmv_fi
  sound_float_load sound_float_store sound_mul_div sound_mul_div32 sound_system_opcode
  Forall_cons Forall_nil : sound.

Lemma sound_fp_table : Forall sound fp_emulation_table.
Proof. unfold fp_emulation_table; auto 40 with sound nocore. Qed.

Lemma sound_nth l n : Forall sound l -> sound (nth n l truly_illegal_insn).
Proof.
  intros H; destruct (nth_in_or_default n l truly_illegal_insn) as [I | ->]; [|exact sound_illegal].
  exact (proj1 (Forall_forall _ _) H _ I).
Qed.

Lemma sound_fp : sound emulate_fp.
Proof.
  red; intros; unfold emulate_fp; pose proof (fun n => sound_nth _ n sound_fp_table) as T.
  cbv zeta; repeat safe_step; auto with safe; apply T; assumption.
Qed.

Lemma sound_fmadd : sound emulate_fmadd.
Proof. red; intros; unfold emulate_fmadd; safe_tac. Qed.
#[export] Hint Resolve sound_fp sound_fmadd : sound.

Lemma sound_illegal_table : Forall sound illegal_insn_trap_table.
Proof. unfold illegal_insn_trap_table; auto 40 with sound nocore. Qed.

Lemma safe_illegal_insn_trap mcause mepc : safe any (illegal_insn_trap mcause mepc).
Proof.
  assert (D : forall mstatus insn, low mstatus -> safe any
    (do! write_csr Mepc (mepc + 4) in
     nth (Z.to_nat ((insn .& 0x7c) / 4)) illegal_insn_trap_table truly_illegal_insn
       mcause mepc mstatus insn)).
  { intros mstatus insn L; apply (safe_bind any); [auto with safe | intros _ _].
    apply sound_nth; [exact sound_illegal_table | exact L]. }
  unfold illegal_insn_trap; apply (safe_bind low); [apply safe_read_status | intros s L].
  apply (safe_bind any); [auto with safe | intros insn _; cbv zeta].
  destruct (negb _); [|apply D, L].
  apply (safe_bind (fun r => low (snd r))).
  - destruct (insn =? 0); [apply safe_get_insn | apply safe_done, L].
  - intros [insn' s'] L'; destruct (negb _); [apply sound_rvc, L' | apply D, L'].
Qed.

Lemma safe_pmp_trap mcause mepc : safe any (pmp_trap mcause mepc).
Proof. unfold pmp_trap; safe_tac. Qed.

Lemma mprv_clear s : low s -> nz (s .& MSTATUS_MPRV) = false.
Proof.
  intros (_ & _ & H); unfold nz; change MSTATUS_MPRV with (2 ^ 17).
  replace (s .& 2 ^ 17) with 0; [reflexivity|]; symmetry; apply Z.bits_inj'; intros i Hi.
  rewrite Z.land_spec, Z.pow2_bits_eqb, Z.bits_0 by lia.
  destruct (Z.eqb_spec 17 i) as [<-|]; [rewrite H | rewrite andb_comm]; reflexivity.
Qed.

(** A page fault of the guest that was not delegated kills the hart: [MPRV] is clear. *)
Lemma safe_machine_mode mcause mepc : safe any (trap_from_machine_mode_regs mcause mepc).
Proof.
  assert (F : forall a2 a3, safe any (machine_page_fault (A := unit) a2 a3)).
  { intros a2 a3; unfold machine_page_fault; safe_step; rewrite mprv_clear by assumption;
      safe_tac. }
  unfold trap_from_machine_mode_regs, trap_from_machine_mode; safe_tac; apply F.
Qed.

(** ** The trap *)

Lemma safe_enter : safe any trap_enter.
Proof.
  apply safe_update; intros m W; split; [|auto].
  apply wf_set_xreg; [apply wf_set_tp; auto with wf | lia].
Qed.

Lemma safe_leave : safe any trap_leave.
Proof.
  apply safe_update; intros m W; split; [|auto]; apply wf_set_xreg; [exact W|].
  pose proof (wf_xregs m W 0); pose proof (u32_range (tp m)).
  pose proof (div_bounds (xregs m 0) (2 ^ 32) ltac:(lia)); lia.
Qed.

(** Every handler of the table but that of environment calls, which works on the state of the
    other harts and on devices. *)
Lemma safe_trap_table :
  Forall (fun f => forall mcause mepc, safe any (f mcause mepc)) (trap_table (fun _ _ => bad_trap)).
Proof.
  repeat apply Forall_cons; try apply Forall_nil; intros.
  all: first [exact (safe_bad_trap any) | apply safe_pmp_trap | apply safe_illegal_insn_trap |
    apply safe_misaligned_load | apply safe_misaligned_store | apply safe_machine_mode].
Qed.

Lemma table_without_call mcall_trap n d :
  n <> 9%nat -> nth n (trap_table mcall_trap) d = nth n (trap_table (fun _ _ => bad_trap)) d.
Proof. intros N; do 16 (destruct n as [|n]; [congruence || reflexivity|]); reflexivity. Qed.

Lemma safe_handler mcall_trap mcause mepc :
  mcause <> 9 ->
  safe any (nth (Z.to_nat mcause) (trap_table mcall_trap) (fun _ _ => bad_trap) mcause mepc).
Proof.
  intros N; rewrite table_without_call by lia.
  destruct (nth_in_or_default (Z.to_nat mcause) (trap_table (fun _ _ => bad_trap)) (fun _ _ => bad_trap))
    as [I | ->]; [|exact (safe_bad_trap any)].
  exact (proj1 (Forall_forall _ _) safe_trap_table _ I _ _).
Qed.

Lemma run_handle_trap mcall_trap m :
  handle_trap mcall_trap m =
  (do! trap_enter in
   do! nth (Z.to_nat (csrs m Mcause)) (trap_table mcall_trap) (fun _ _ => bad_trap)
         (csrs m Mcause) (csrs m Mepc) in
   trap_leave) m.
Proof. reflexivity. Qed.


(** A misaligned word store by user code to a page it may write, and the same store to a read-only
    page. *)
Definition guest (w : bool) : machine :=
  let m := with_bytes 0x1000 [0x23; 0xa0; 0xa5; 0x00] (with_bytes 0x2000 (repeat 0 16) blank) in
  let m := Machine (upd (upd (xregs m) 10 0xdeadbeef) 11 0x2001) (fregs m) (tp m)
             (fun c => match c with Mcause => 6 | Mepc => 0x1000 | Mbadaddr => 0x2001
               | Stvec => 0x80 | _ => 0 end)
             (mtime m) (mem m) (fun a => w && writable m a) in m.

Lemma wf_guest w : wf (guest w).
Proof.
  split; cbn; try lia.
  - intros i; unfold upd; repeat destruct (_ =? _); lia.
  - intros []; lia.
  - intros a b; repeat destruct (_ && _); intros E; try discriminate; apply nth_error_In in E;
      cbn in E;
      repeat destruct E as [<- | E]; try lia; contradiction.
Qed.

(** The byte at 0x2002 after a trap that returned, [None] after one that was delegated. *)
Definition ending (o : outcome unit) : option (option Z) :=
  match o with
  | Done _ m' => Some (mem m' 0x2002)
  | Redirected _ => Some None
  | _ => None
  end.

