(* ===== verification/Ipi.v ===== *)
(** * Inter-processor interrupts ([machine/mtrap.c], [machine/mentry.S])

    [send_ipi] and [send_ipi_many] on the sending hart, the software-interrupt path of the
    trap vector on the receiving one, as a step relation over all harts.  A step is one
    access to the memory the harts share: the [ipi] word of a hart (its software-interrupt
    pending bit) and its [mipi_pending] mask; accesses are interleaved arbitrarily.  Machine
    mode runs with interrupts disabled, so a hart takes the interrupt only below it. *)

From S2P Require Import Prelude.
From stdpp Require Import base list relations.
From Stdlib Require Import ZArith Lia.
#[local] Open Scope Z_scope.
#[local] Open Scope c_scope.
#[local] Open Scope bool_scope.

(** ** Events ([mtrap.h]) and calls ([mcall.h]) *)

Definition IPI_SOFT : Z := 0x1.
Definition IPI_FENCE_I : Z := 0x2.
Definition IPI_SFENCE_VMA : Z := 0x4.
Definition IPI_HALT : Z := 0x8.

Definition SBI_SEND_IPI : Z := 4.
Definition SBI_REMOTE_FENCE_I : Z := 5.
Definition SBI_REMOTE_SFENCE_VMA : Z := 6.
Definition SBI_REMOTE_SFENCE_VMA_ASID : Z := 7.

(** The [ipi_type] [mcall_trap] selects for the call number [n]. *)
Definition ipi_type (n : Z) : option Z :=
  if n =? SBI_SEND_IPI then Some IPI_SOFT
  else if (n =? SBI_REMOTE_SFENCE_VMA) || (n =? SBI_REMOTE_SFENCE_VMA_ASID)
  then Some IPI_SFENCE_VMA
  else if n =? SBI_REMOTE_FENCE_I then Some IPI_FENCE_I
  else None.

(** ** Harts *)

(** What serving an event does to the hart. *)
Inductive action := SetSsip | FenceI | SfenceVma.

(** Where a hart is.  [i] and [m] are the loop variables of [send_ipi_many]. *)
Inductive pc :=
  | Below                                   (* not in machine mode *)
  | Send (event mask : Z) (i : nat) (m : Z) (* first loop, at its test *)
  | Ring (event mask : Z) (i : nat) (m : Z) (* in [send_ipi], before the store to [ipi] *)
  | Wait (event : Z) (i : nat) (m incoming : Z) (* second loop, at its test *)
  | Swap (event : Z) (i : nat) (m incoming : Z) (* before [atomic_swap(HLS()->ipi, 0)] *)
  | Restore (event incoming : Z)            (* before [*HLS()->ipi = incoming_ipi] *)
  | Clear                                   (* interrupt taken, before [sw x0, (a0)] *)
  | Decode                                  (* before [amoswap.w a0, x0, (a0)] *)
  | Serve (stage : nat) (causes : Z)        (* the tests of the causes, in order *)
  | Halted.

Record hart := Hart {
  at_ : pc;
  ipi : Z;
  mipi_pending : Z;
  log : list action
}.

Definition set_at (p : pc) (h : hart) : hart := Hart p (ipi h) (mipi_pending h) (log h).
Definition set_ipi (v : Z) (h : hart) : hart := Hart (at_ h) v (mipi_pending h) (log h).
Definition set_pending (v : Z) (h : hart) : hart := Hart (at_ h) (ipi h) v (log h).
Definition perform (a : action) (h : hart) : hart :=
  Hart (at_ h) (ipi h) (mipi_pending h) (log h ++ [a]).

Section Harts.
Context (hart_mask disabled_hart_mask : Z).

(** ** One step of the code *)

Definition move (s : list hart) (h : nat) (p : pc) : list hart := alter (set_at p) h s.

(** The test of [causes] at each stage of the interrupt path. *)
Definition serve (stage : nat) (causes : Z) (h : hart) : hart :=
  match stage with
  | 0%nat => set_at (Serve 1 causes) (if nz (causes .& IPI_SOFT) then perform SetSsip h else h)
  | 1%nat => set_at (Serve 2 causes) (if nz (causes .& IPI_FENCE_I) then perform FenceI h else h)
  | 2%nat => set_at (Serve 3 causes) (if nz (causes .& IPI_SFENCE_VMA) then perform SfenceVma h else h)
  | _ => set_at (if nz (causes .& IPI_HALT) then Halted else Below) h
  end.

(** After [send_ipi_many]: [mcall_trap] returns, [poweroff] waits forever. *)
Definition after (event : Z) : pc := if event =? IPI_HALT then Halted else Below.

(** [send_ipi]: the test of its first line, and its two accesses. *)
Definition skips (recipient : nat) : bool :=
  nz ((disabled_hart_mask .>> Z.of_nat recipient) .& 1).
Definition post (event : Z) (you : hart) : hart := set_pending (mipi_pending you .| event) you.
Definition ring : hart -> hart := set_ipi 1.

(** The next shared access of hart [h] in [send_ipi_many], with what the code does up to it. *)
Definition send_ipi_many (s : list hart) (h : nat) (p : pc) : option (list hart) :=
  match p with
  | Send event mask i m =>
      if m =? 0 then
        Some (move s h (if event =? IPI_SOFT then Below else Wait event 0 mask 0))
      else if nz (m .& 1) && negb (skips i) then
        _ ← s !! i; Some (move (alter (post event) i s) h (Ring event mask i m))
      else Some (move s h (Send event mask (S i) (m .>> 1)))
  | Ring event mask i m =>
      _ ← s !! i; Some (move (alter ring i s) h (Send event mask (S i) (m .>> 1)))
  | Wait event i m incoming =>
      if m =? 0 then Some (move s h (if nz incoming then Restore event incoming else after event))
      else if nz (m .& 1) then
        you ← s !! i;
        Some (move s h (if nz (ipi you) then Swap event i m incoming
                        else Wait event (S i) (m .>> 1) incoming))
      else Some (move s h (Wait event (S i) (m .>> 1) incoming))
  | Swap event i m incoming =>
      Some (alter (fun me => set_at (Wait event i m (incoming .| ipi me)) (set_ipi 0 me)) h s)
  | Restore event incoming =>
      Some (alter (fun me => set_at (after event) (set_ipi incoming me)) h s)
  | _ => None
  end.

(** The same on the path of a software interrupt. *)
Definition ipi_interrupt (s : list hart) (h : nat) (p : pc) : option (list hart) :=
  match p with
  | Clear => Some (alter (fun me => set_at Decode (set_ipi 0 me)) h s)
  | Decode => Some (alter (fun me => set_at (Serve 0 (mipi_pending me)) (set_pending 0 me)) h s)
  | Serve stage causes => Some (alter (serve stage causes) h s)
  | _ => None
  end.

(** The next access of hart [h]; [None] outside machine mode. *)
Definition advance (s : list hart) (h : nat) : option (list hart) :=
  me ← s !! h;
  match at_ me with
  | Below | Halted => None
  | Clear | Decode | Serve _ _ => ipi_interrupt s h (at_ me)
  | _ => send_ipi_many s h (at_ me)
  end.

(** The harts in any order; a hart below machine mode may be interrupted or make a call.  The
    mask of a call is read through the pointer [arg0], or all harts when it is null. *)
Inductive step : list hart -> list hart -> Prop :=
  | step_advance s h s' : advance s h = Some s' -> step s s'
  | step_interrupt s h me :
      s !! h = Some me -> at_ me = Below -> nz (ipi me) = true -> step s (move s h Clear)
  | step_call s h me n event arg :
      s !! h = Some me -> at_ me = Below -> ipi_type n = Some event -> 0 <= arg ->
      step s (move s h (Send event (hart_mask .& arg) 0 (hart_mask .& arg))).

(** [poweroff] sends every hart the request to halt. *)
Inductive step_off : list hart -> list hart -> Prop :=
  | step_any s s' : step s s' -> step_off s s'
  | step_poweroff s h me :
      s !! h = Some me -> at_ me = Below ->
      step_off s (move s h (Send IPI_HALT hart_mask 0 hart_mask)).
End Harts.

(** ** Nothing is lost *)

(** The hart has taken its interrupt off the line and will look at its pending events. *)
Definition holds (p : pc) : bool :=
  match p with
  | Decode => true
  | Wait _ _ _ incoming | Swap _ _ _ incoming | Restore _ incoming => nz incoming
  | _ => false
  end.

(** Some hart is about to raise the interrupt of hart [i]. *)
Definition rung (s : list hart) (i : nat) : Prop :=
  exists g me event mask m, s !! g = Some me /\ at_ me = Ring event mask i m.

Definition announced (s : list hart) (h : nat) (me : hart) : Prop :=
  mipi_pending me <> 0 -> nz (ipi me) = true \/ holds (at_ me) = true \/ rung s h.

Definition restores (me : hart) : Prop :=
  forall event incoming, at_ me = Restore event incoming -> nz incoming = true.

Definition no_event_lost (s : list hart) : Prop :=
  forall h me, s !! h = Some me -> announced s h me /\ restores me.

Definition is_ring (p : pc) : bool := match p with Ring _ _ _ _ => true | _ => false end.

Lemma rung_alter s h me f i :
  s !! h = Some me -> is_ring (at_ me) = false -> rung s i -> rung (alter f h s) i.
Proof.
  intros Hme N (g & you & event & mask & m & Hg & E); exists g, you, event, mask, m.
  rewrite list_lookup_alter; destruct (decide (h = g)) as [->|]; [|auto].
  rewrite Hme in Hg; injection Hg as ->; rewrite E in N; discriminate N.
Qed.

(** A step of one hart on its own words. *)
Lemma alter_keeps s h me f :
  no_event_lost s -> s !! h = Some me -> is_ring (at_ me) = false -> restores (f me) ->
  (mipi_pending (f me) <> 0 ->
   nz (ipi (f me)) = true \/ holds (at_ (f me)) = true \/
   (mipi_pending me <> 0 /\ nz (ipi me) = false /\ holds (at_ me) = false)) ->
  no_event_lost (alter f h s).
Proof.
  intros I Hme N R A k you Hk; rewrite list_lookup_alter in Hk.
  destruct (decide (h = k)) as [<-|].
  - rewrite Hme in Hk; injection Hk as <-; split; [|exact R].
    intros P; destruct (A P) as [|[|(P' & Z1 & Z2)]]; [tauto | tauto |].
    destruct (I h me Hme) as [An _]; destruct (An P') as [|[|G]]; [congruence | congruence |].
    right; right; eapply rung_alter; eassumption.
  - destruct (I k you Hk) as [An Re]; split; [|exact Re].
    intros P; destruct (An P) as [|[|G]]; [tauto | tauto |].
    right; right; eapply rung_alter; eassumption.
Qed.

(** A step that keeps the words and moves between places that hold nothing. *)
Lemma move_keeps s h me p :
  no_event_lost s -> s !! h = Some me -> is_ring (at_ me) = false ->
  (holds (at_ me) = true -> holds p = true) ->
  (forall event incoming, p = Restore event incoming -> nz incoming = true) ->
  no_event_lost (move s h p).
Proof.
  intros I Hme N K R; apply (alter_keeps s h me); try assumption.
  cbn; intros P; destruct (nz (ipi me)); [tauto|]; destruct (holds (at_ me)); [tauto | auto].
Qed.

Lemma post_keeps s h me event mask i m you :
  no_event_lost s -> s !! h = Some me -> is_ring (at_ me) = false -> holds (at_ me) = false ->
  s !! i = Some you ->
  no_event_lost (move (alter (post event) i s) h
                   (Ring event mask i m)).
Proof.
  intros I Hme N Z Hi; set (s1 := alter _ i s).
  assert (R : rung (move s1 h (Ring event mask i m)) i).
  { destruct (s1 !! h) as [me'|] eqn:E.
    - exists h, (set_at (Ring event mask i m) me'), event, mask, m; split; [|reflexivity].
      unfold move; rewrite list_lookup_alter_eq, E; reflexivity.
    - subst s1; rewrite list_lookup_alter in E; destruct (decide (i = h)) as [->|].
      + rewrite Hme in E; discriminate E.
      + congruence. }
  assert (G : forall k, rung s k -> rung (move s1 h (Ring event mask i m)) k).
  { intros k (g & u & e & mk & m' & Hg & E).
    destruct (decide (g = h)) as [->|Ng]; [rewrite Hme in Hg; injection Hg as ->; rewrite E in N;
      discriminate N|].
    unfold move, s1; exists g; setoid_rewrite list_lookup_alter_ne; [|congruence].
    setoid_rewrite list_lookup_alter; destruct (decide (i = g)) as [->|].
    - rewrite Hg; eexists _, e, mk, m'; split; [reflexivity | exact E].
    - exists u, e, mk, m'; auto. }
  intros k u Hk; unfold move, s1 in Hk; rewrite list_lookup_alter in Hk.
  destruct (decide (h = k)) as [<-|Nk].
  - rewrite list_lookup_alter in Hk; destruct (decide (i = h)) as [->|Ni].
    + rewrite Hme in Hk; injection Hk as <-; split; [intros _; auto | intros ??; discriminate].
    + rewrite Hme in Hk; injection Hk as <-; split; [|intros ??; discriminate].
      cbn; intros P; destruct (I h me Hme) as [An _]; destruct (An P) as [|[|]];
        [tauto|congruence|auto].
  - rewrite list_lookup_alter in Hk; destruct (decide (i = k)) as [->|Ni].
    + rewrite Hi in Hk; injection Hk as <-; split; [intros _; auto|].
      exact (proj2 (I k you Hi)).
    + destruct (I k u Hk) as [An Re]; split; [|exact Re].
      intros P; destruct (An P) as [|[|]]; auto.
Qed.

Lemma ring_keeps s h me event mask i m p you :
  no_event_lost s -> s !! h = Some me -> at_ me = Ring event mask i m -> s !! i = Some you ->
  is_ring p = false -> (forall e incoming, p <> Restore e incoming) ->
  no_event_lost (move (alter ring i s) h p).
Proof.
  intros I Hme E Hi N R.
  assert (G : forall k, k <> i -> rung s k -> rung (move (alter ring i s) h p) k).
  { intros k Hk (g & u & e & mk & m' & Hg & E').
    destruct (decide (g = h)) as [->|Ng]; [rewrite Hme in Hg; injection Hg as ->; congruence|].
    unfold move; exists g; setoid_rewrite list_lookup_alter_ne; [|congruence].
    setoid_rewrite list_lookup_alter; destruct (decide (i = g)) as [->|].
    - rewrite Hg; eexists _, e, mk, m'; split; [reflexivity | exact E'].
    - exists u, e, mk, m'; auto. }
  intros k u Hk; unfold move in Hk; rewrite list_lookup_alter in Hk.
  destruct (decide (h = k)) as [<-|Nk]; rewrite list_lookup_alter in Hk.
  - destruct (decide (i = h)) as [->|Ni]; rewrite Hme in Hk; injection Hk as <-;
      (split; [|intros ?? X; destruct (R _ _ X)]); [intros _; left; reflexivity|].
    cbn; intros P; destruct (I h me Hme) as [An _]; destruct (An P) as [|[Z|]]; [tauto| |auto].
    rewrite E in Z; discriminate Z.
  - destruct (decide (i = k)) as [->|Ni].
    + rewrite Hi in Hk; injection Hk as <-; split; [intros _; left; reflexivity|].
      exact (proj2 (I k you Hi)).
    + destruct (I k u Hk) as [An Re]; split; [|exact Re].
      intros P; destruct (An P) as [|[|]]; auto.
Qed.

Lemma serve_words stage causes me :
  ipi (serve stage causes me) = ipi me /\ mipi_pending (serve stage causes me) = mipi_pending me /\
  (at_ (serve stage causes me) = Serve (S stage) causes \/
   at_ (serve stage causes me) = Below \/ at_ (serve stage causes me) = Halted).
Proof.
  destruct stage as [|[|[|stage]]]; cbn; destruct (nz _); cbn; auto.
Qed.

Lemma after_cases event : after event = Halted \/ after event = Below.
Proof. unfold after; destruct (_ =? _); auto. Qed.

Lemma advance_keeps disabled s h s' :
  no_event_lost s -> advance disabled s h = Some s' -> no_event_lost s'.
Proof.
  intros I; unfold advance, send_ipi_many, ipi_interrupt; destruct (s !! h) as [me|] eqn:Hme;
    [|discriminate]; cbn [mbind option_bind].
  destruct (at_ me) eqn:E; try discriminate.
  - destruct (m =? 0).
    + intros [= <-]; apply (move_keeps s h me); rewrite ?E; try assumption; try discriminate;
        destruct (event =? IPI_SOFT); discriminate || reflexivity.
    + destruct (_ && _).
      * destruct (s !! i) as [you|] eqn:Hi; [|discriminate]; intros [= <-].
        apply (post_keeps s h me _ _ _ _ you); rewrite ?E; try assumption; reflexivity.
      * intros [= <-]; apply (move_keeps s h me); rewrite ?E; try assumption;
          discriminate || reflexivity.
  - destruct (s !! i) as [you|] eqn:Hi; [|discriminate]; intros [= <-].
    eapply ring_keeps; try eassumption; [reflexivity | discriminate].
  - destruct (m =? 0); [|destruct (nz (m .& 1)); [destruct (s !! i) as [you|]; [|discriminate]|]];
      intros [= <-]; apply (move_keeps s h me); rewrite ?E; try assumption; try reflexivity;
      try discriminate; cbn [holds].
    + intros Z; rewrite Z; exact Z.
    + destruct (nz incoming) eqn:Z; [intros ?? [= <- <-]; exact Z|].
      intros ??; destruct (after_cases event) as [-> | ->]; discriminate.
    + destruct (nz (ipi you)); auto.
    + destruct (nz (ipi you)); discriminate.
    + auto.
  - intros [= <-]; apply (alter_keeps s h me); rewrite ?E; try assumption; try reflexivity;
      [intros ??; discriminate|].
    cbn [holds at_ set_at ipi set_ipi mipi_pending]; rewrite nz_lor; intros P.
    destruct (nz incoming), (nz (ipi me)); cbn; auto.
  - intros [= <-]; apply (alter_keeps s h me); rewrite ?E; try assumption; try reflexivity.
    + intros ??; cbn; destruct (after_cases event) as [-> | ->]; discriminate.
    + cbn; intros _; left; apply (proj2 (I h me Hme) event incoming E).
  - intros [= <-]; apply (alter_keeps s h me); rewrite ?E; try assumption; try reflexivity;
      [intros ??; discriminate | cbn; auto].
  - intros [= <-]; apply (alter_keeps s h me); rewrite ?E; try assumption; try reflexivity;
      [intros ??; discriminate | cbn; congruence].
  - destruct (serve_words stage causes me) as (W1 & W2 & W3).
    intros [= <-]; apply (alter_keeps s h me); rewrite ?E, ?W1, ?W2; try assumption;
      try reflexivity.
    + intros ?? X; destruct W3 as [W3|[W3|W3]]; rewrite W3 in X; discriminate X.
    + intros P; destruct (nz (ipi me)); auto.
Qed.

Lemma step_keeps hart_mask disabled s s' :
  no_event_lost s -> step_off hart_mask disabled s s' -> no_event_lost s'.
Proof.
  assert (M : forall s h me p, no_event_lost s -> s !! h = Some me -> at_ me = Below ->
    (forall e incoming, p <> Restore e incoming) -> no_event_lost (move s h p)).
  { intros r h me p I Hme E R; apply (move_keeps _ h me); rewrite ?E; try assumption.
    - reflexivity.
    - discriminate.
    - intros e incoming X; destruct (R _ _ X). }
  intros I S; revert I; destruct S as [? ? S|? h me Hme E]; intros I; [revert I; destruct S
    as [? h ? A|? h me Hme E _|? h me n event arg Hme E _ _]; intros I|];
    try (eapply M; try eassumption; discriminate).
  eapply advance_keeps; eassumption.
Qed.

(** The harts at rest. *)
Definition at_rest (n : nat) : list hart := replicate n (Hart Below 0 0 []).

Lemma at_rest_keeps n : no_event_lost (at_rest n).
Proof.
  intros h me Hme; apply lookup_replicate in Hme as [-> _].
  split; [intros []; reflexivity | intros ??; discriminate].
Qed.

(** ** The harts always come to rest *)

(** A mask whose bits, read from hart [i] on, name harts below [n]. *)
Definition in_range (n i : nat) (m : Z) : Prop :=
  0 <= m /\ forall k, 0 <= k -> Z.testbit m k = true -> (i + Z.to_nat k < n)%nat.

Definition halts (event : Z) : bool := nz (event .& IPI_HALT).

Definition hart_ok (n : nat) (me : hart) : Prop :=
  halts (mipi_pending me) = false /\
  match at_ me with
  | Send event mask i m =>
      halts event = false /\ in_range n 0 mask /\ in_range n i m
  | Ring event mask i m =>
      halts event = false /\ in_range n 0 mask /\ in_range n i m /\ 0 < m /\ (i < n)%nat
  | Wait event i m _ => halts event = false /\ in_range n i m
  | Swap event i m _ => halts event = false /\ in_range n i m
  | Restore event _ => halts event = false
  | Serve _ causes => halts causes = false
  | Halted => False
  | _ => True
  end.

Definition harts_ok (s : list hart) : Prop := Forall (hart_ok (length s)) s.

Lemma in_range_shift n i m : in_range n i m -> in_range n (S i) (m .>> 1).
Proof.
  intros [H B]; split; [apply Z.shiftr_nonneg, H|]; intros k Hk T.
  rewrite Z.shiftr_spec in T by lia; specialize (B (k + 1) ltac:(lia) T); lia.
Qed.

Lemma in_range_odd n i m : in_range n i m -> nz (m .& 1) = true -> (i < n)%nat.
Proof.
  intros [H B] O; specialize (B 0 ltac:(lia)); rewrite Nat.add_0_r in B; apply B.
  pose proof (Z.bit0_mod m) as E; destruct (Z.testbit m 0); [reflexivity|].
  change 1 with (Z.ones 1) in O; rewrite Z.land_ones in O by lia; unfold nz in O.
  change (2 ^ 1) with 2 in O; rewrite <- E in O; discriminate O.
Qed.

Lemma in_range_land n hart_mask arg :
  in_range n 0 hart_mask -> in_range n 0 (hart_mask .& arg).
Proof.
  intros [H B]; split; [apply Z.land_nonneg; auto|]; intros k Hk T.
  rewrite Z.land_spec in T; apply andb_true_iff in T as [T _]; auto.
Qed.

Lemma halts_lor a b : halts (a .| b) = halts a || halts b.
Proof. unfold halts; rewrite Z.land_lor_distr_l; apply nz_lor. Qed.

Lemma halts_after event : halts event = false -> after event = Below.
Proof.
  unfold halts, after; destruct (Z.eqb_spec event IPI_HALT) as [->|]; [discriminate | reflexivity].
Qed.

Lemma ipi_type_halts n event : ipi_type n = Some event -> halts event = false.
Proof.
  unfold ipi_type; repeat destruct (_ =? _); cbn; intros [= <-]; reflexivity.
Qed.

Lemma alter_ok s h f :
  harts_ok s -> (forall me, s !! h = Some me -> hart_ok (length s) me ->
    hart_ok (length s) (f me)) ->
  harts_ok (alter f h s).
Proof. intros H P; unfold harts_ok; rewrite length_alter; apply Forall_alter; assumption. Qed.

Lemma alter2_ok s i f h p :
  harts_ok s -> (forall me, hart_ok (length s) me -> hart_ok (length s) (f me)) ->
  (forall me, hart_ok (length s) me -> hart_ok (length s) (set_at p me)) ->
  harts_ok (move (alter f i s) h p).
Proof.
  intros H P Q; apply alter_ok; [apply alter_ok; auto|]; rewrite length_alter; auto.
Qed.

Lemma advance_ok disabled s h s' :
  harts_ok s -> advance disabled s h = Some s' -> harts_ok s'.
Proof.
  intros H; unfold advance, send_ipi_many, ipi_interrupt; destruct (s !! h) as [me|] eqn:Hme;
    [|discriminate]; cbn [mbind option_bind].
  pose proof (Forall_lookup_1 _ _ _ _ H Hme) as [Hp Hm]; destruct (at_ me) eqn:E; try discriminate.
  - destruct Hm as (He & Hk & Hr); destruct (Z.eqb_spec m 0); [|destruct (_ && _) eqn:B].
    + intros [= <-]; apply alter_ok; [assumption|]; intros ? _ [? _]; split; [assumption|].
      cbn; destruct (event =? IPI_SOFT); cbn; auto.
    + destruct (s !! i) as [you|] eqn:Hi; [|discriminate]; intros [= <-].
      assert (Hn : (i < length s)%nat) by (apply lookup_lt_Some in Hi; exact Hi).
      destruct Hr as [Hm Hb]; apply alter2_ok; [assumption | |].
      * intros u [U V]; split; [|exact V]; cbn; rewrite halts_lor, U, He; reflexivity.
      * intros u [U V]; repeat split; try assumption; try apply Hk; lia.
    + intros [= <-]; apply alter_ok; [assumption|]; intros ? _ [? _]; split; [assumption|].
      cbn; auto using in_range_shift.
  - destruct Hm as (He & Hk & Hr & _); destruct (s !! i) as [you|]; [|discriminate].
    intros [= <-]; apply alter2_ok; [assumption | |].
    + intros u [U V]; split; [exact U | exact V].
    + intros u [U _]; split; [exact U|]; cbn; auto using in_range_shift.
  - destruct Hm as (He & Hr); pose proof (halts_after event He) as Ha.
    destruct (m =? 0); [|destruct (nz (m .& 1)); [destruct (s !! i) as [you|]; [|discriminate]|]];
      intros [= <-]; apply alter_ok; try assumption; intros ? _ [? _]; (split; [assumption|]); cbn;
      rewrite ?Ha; [destruct (nz incoming)|destruct (nz (ipi you))|]; cbn;
        auto using in_range_shift.
  - intros [= <-]; apply alter_ok; [assumption|]; intros ? _ [? _]; split; assumption.
  - intros [= <-]; apply alter_ok; [assumption|]; intros ? _ [? _]; split; [assumption|].
    cbn; rewrite (halts_after event Hm); exact I.
  - intros [= <-]; apply alter_ok; [assumption|]; intros ? _ [? _]; split; [assumption | exact I].
  - intros [= <-]; apply alter_ok; [assumption|]; intros ? _ [? _]; split;
      [reflexivity | assumption].
  - intros [= <-]; apply alter_ok; [assumption|]; intros u _ [U _].
    destruct stage as [|[|[|stage]]]; cbn [serve]; [destruct (nz _); split; assumption..|].
    unfold halts in Hm; rewrite Hm; split; [exact U | exact I].
Qed.

Lemma step_ok hart_mask disabled s s' :
  in_range (length s) 0 hart_mask -> harts_ok s -> step hart_mask disabled s s' ->
  harts_ok s' /\ length s' = length s.
Proof.
  intros R H S; revert R H; destruct S as [? h ? A|? h me Hme E _|? h me n event arg Hme E Ty _];
    intros R H.
  - split; [eapply advance_ok; eassumption|].
    unfold advance, send_ipi_many, ipi_interrupt in A; destruct (s !! h); [|discriminate A];
      cbn [mbind option_bind] in A.
    repeat (case_match; try discriminate A); simplify_option_eq; unfold move; rewrite ?length_alter;
      reflexivity.
  - split; [|apply length_alter]; apply alter_ok; [assumption|]; intros ? _ [? _]; split; auto;
      exact I.
  - split; [|apply length_alter]; apply alter_ok; [assumption|]; intros ? _ [? _]; split; auto.
    split; [eapply ipi_type_halts; eassumption | split; apply in_range_land; assumption].
Qed.

(** The work left to a hart.  Raising its interrupt adds at most 16. *)
Definition size (m : Z) : nat := match m with Zpos p => Pos.size_nat p | _ => 0 end.

Definition pay (b : bool) (c : nat) : nat := if b then c else 0.

Definition cost (me : hart) : nat :=
  let raised := nz (ipi me) in
  (match at_ me with
   | Below => pay raised 10
   | Clear => 6
   | Decode => 5 + pay raised 10
   | Serve stage _ => 4 - Nat.min stage 3 + pay raised 10
   | Send _ mask _ m => 20 * size m + 4 * size mask + 20 + pay raised 16
   | Ring _ mask _ m => 20 * size m + 4 * size mask + 19 + pay raised 16
   | Wait _ _ m incoming => 4 * size m + 1 + pay raised 3 + pay (raised || nz incoming) 13
   | Swap _ _ m incoming => 4 * size m + 2 + pay raised 1 + pay (raised || nz incoming) 13
   | Restore _ _ => 12
   | Halted => 0
   end)%nat.

Definition total (s : list hart) : nat := sum_list_with cost s.

Lemma size_shift m : 0 < m -> size m = S (size (m .>> 1)).
Proof. destruct m as [|p|]; try lia; destruct p; reflexivity. Qed.

Lemma total_alter s h me f :
  s !! h = Some me -> (total (alter f h s) + cost me = total s + cost (f me))%nat.
Proof.
  revert h; induction s as [|x s IH]; intros [|h]; cbn; try discriminate.
  - intros [= ->]; cbn; lia.
  - intros E; specialize (IH h E); cbn in *; unfold total in *; lia.
Qed.

Lemma raise_cost me : (cost (ring me) <= cost me + 16)%nat.
Proof.
  unfold cost; destruct me as [p v w l]; cbn; destruct p; cbn;
    repeat (destruct (nz _); cbn); lia.
Qed.

Lemma total_alter_le s i f k :
  (forall me, cost (f me) <= cost me + k)%nat -> (total (alter f i s) <= total s + k)%nat.
Proof.
  intros H; destruct (s !! i) as [me|] eqn:E.
  - pose proof (total_alter s i me f E); specialize (H me); lia.
  - assert (X : alter f i s = s); [|rewrite X; lia].
    apply list_eq; intros j; rewrite list_lookup_alter; destruct (decide (i = j)) as [<-|];
      [|reflexivity].
    rewrite E; reflexivity.
Qed.

(** A hart that can make progress: every one that is not at rest, but one that waits for
    another hart with no interrupt of its own to take. *)
Definition useful (s : list hart) (me : hart) : bool :=
  match at_ me with
  | Below => nz (ipi me)
  | Wait _ i m _ =>
      nz (ipi me) || (m =? 0) || negb (nz (m .& 1))
      || match s !! i with Some you => negb (nz (ipi you)) | None => false end
  | _ => true
  end.

Lemma progress_alter hm disabled s h me f :
  s !! h = Some me -> (cost (f me) < cost me)%nat ->
  (advance disabled s h = Some (alter f h s) \/ step hm disabled s (alter f h s)) ->
  exists s', step hm disabled s s' /\ (total s' < total s)%nat.
Proof.
  intros Hme C A; exists (alter f h s); split; [destruct A as [A|A]; [eapply step_advance|];
    exact A|].
  pose proof (total_alter s h me f Hme); lia.
Qed.

Lemma progress_both hm disabled s i f h me p k :
  s !! h = Some me -> (forall u, at_ (f u) = at_ u) -> (forall u, cost (f u) <= cost u + k)%nat ->
  (forall u, at_ u = at_ me -> cost (set_at p u) + k < cost u)%nat ->
  advance disabled s h = Some (move (alter f i s) h p) ->
  exists s', step hm disabled s s' /\ (total s' < total s)%nat.
Proof.
  intros Hme Fa Fk C A; eexists; split; [eapply step_advance, A|].
  pose proof (total_alter_le s i f k Fk) as T.
  assert (M : exists u, alter f i s !! h = Some u /\ at_ u = at_ me).
  { rewrite list_lookup_alter; destruct (decide (i = h)) as [->|]; [|exists me; auto].
    rewrite Hme; exists (f me); auto. }
  destruct M as (u & Hu & Eu); pose proof (total_alter _ h u (set_at p) Hu) as T'.
  specialize (C u Eu); unfold move; lia.
Qed.

Lemma serve_cost stage causes me :
  halts causes = false -> at_ me = Serve stage causes ->
  (cost (serve stage causes me) < cost me)%nat.
Proof.
  intros Hc E; unfold cost at 2; rewrite E; unfold halts in Hc.
  destruct stage as [|[|[|stage]]]; cbn [serve]; rewrite ?Hc;
    [match goal with |- context [if ?b then _ else _] => destruct b end; unfold cost; cbn; lia..|].
  unfold cost; cbn; lia.
Qed.

Lemma useful_progress hm disabled s h me :
  harts_ok s -> no_event_lost s -> s !! h = Some me -> useful s me = true ->
  exists s', step hm disabled s s' /\ (total s' < total s)%nat.
Proof.
  intros K L Hme U; pose proof (Forall_lookup_1 _ _ _ _ K Hme) as [_ Hk].
  assert (A : advance disabled s h = advance disabled s h) by reflexivity.
  unfold advance at 2 in A; unfold send_ipi_many, ipi_interrupt in A; rewrite Hme in A;
    cbn [mbind option_bind] in A.
  destruct (at_ me) as [|event mask i m|event mask i m|event i m incoming|event i m incoming
    |event incoming| | |stage causes|] eqn:E.
  - unfold useful in U; rewrite E in U.
    apply (progress_alter hm disabled s h me (set_at Clear) Hme).
    + unfold cost; rewrite E, U; cbn; lia.
    + right; eapply step_interrupt; eassumption.
  - destruct Hk as (He & Hk & Hr); destruct (Z.eqb_spec m 0) as [->|Nm].
    + eapply (progress_alter hm disabled s h me _ Hme); [|left; exact A].
      unfold cost; rewrite E; destruct (event =? IPI_SOFT); cbn; rewrite ?orb_false_r;
        destruct (nz (ipi me)); cbn; lia.
    + destruct Hr as [Hm Hb]; pose proof (size_shift m ltac:(lia)) as Sz.
      destruct (nz (m .& 1) && _) eqn:B.
      * apply andb_true_iff in B as [B _].
        destruct (lookup_lt_is_Some_2 s i (in_range_odd _ _ _ (conj Hm Hb) B)) as [you Hi].
        rewrite Hi in A; cbn [mbind option_bind] in A.
        eapply (progress_both hm disabled s i _ h me _ 0 Hme); [| | |exact A].
        -- reflexivity.
        -- intros u; unfold cost; cbn; lia.
        -- intros u Eu; unfold cost; cbn; rewrite Eu, E; lia.
      * eapply (progress_alter hm disabled s h me _ Hme); [|left; exact A].
        unfold cost; rewrite E; cbn; rewrite Sz; lia.
  - destruct Hk as (He & Hk & Hr & Hm & Hi); pose proof (size_shift m ltac:(lia)) as Sz.
    destruct (lookup_lt_is_Some_2 s i Hi) as [you Hy]; rewrite Hy in A;
      cbn [mbind option_bind] in A.
    eapply (progress_both hm disabled s i _ h me _ 16 Hme); [| | |exact A].
    + reflexivity.
    + apply raise_cost.
    + intros u Eu; unfold cost; cbn; rewrite Eu, E, Sz; lia.
  - destruct Hk as (He & Hr); unfold useful in U; rewrite E in U.
    destruct (Z.eqb_spec m 0) as [Zm|Nm]; [rewrite Zm in *|].
    + eapply (progress_alter hm disabled s h me _ Hme); [|left; exact A].
      unfold cost; rewrite E; destruct (nz incoming) eqn:Z; cbn;
        rewrite ?(halts_after event He), ?Z;
        destruct (nz (ipi me)); cbn; lia.
    + destruct Hr as [Hm Hb]; pose proof (size_shift m ltac:(lia)) as Sz.
      destruct (nz (m .& 1)) eqn:B.
      * destruct (lookup_lt_is_Some_2 s i (in_range_odd _ _ _ (conj Hm Hb) B)) as [you Hi].
        rewrite Hi in A, U; cbn [mbind option_bind] in A.
        eapply (progress_alter hm disabled s h me _ Hme); [|left; exact A].
        unfold cost; rewrite E; destruct (nz (ipi you)); cbn in *; rewrite ?Sz.
        -- rewrite !orb_false_r in U; rewrite U; cbn; lia.
        -- lia.
      * eapply (progress_alter hm disabled s h me _ Hme); [|left; exact A].
        unfold cost; rewrite E; cbn; rewrite Sz; lia.
  - eapply (progress_alter hm disabled s h me _ Hme); [|left; exact A].
    unfold cost; rewrite E; cbn; rewrite nz_lor.
    destruct (nz (ipi me)), (nz incoming); cbn; lia.
  - eapply (progress_alter hm disabled s h me _ Hme); [|left; exact A].
    unfold cost; rewrite E; cbn; rewrite (halts_after event Hk); destruct (nz incoming); cbn; lia.
  - eapply (progress_alter hm disabled s h me _ Hme); [|left; exact A].
    unfold cost; rewrite E; cbn; lia.
  - eapply (progress_alter hm disabled s h me _ Hme); [|left; exact A].
    unfold cost; rewrite E; cbn; destruct (nz (ipi me)); cbn; lia.
  - eapply (progress_alter hm disabled s h me _ Hme); [|left; exact A].
    apply serve_cost; assumption.
  - destruct Hk.
Qed.

Definition quiet (s : list hart) : Prop :=
  Forall (fun me => at_ me = Below /\ ipi me = 0 /\ mipi_pending me = 0) s.

(** When no hart can make progress, none has anything left to do. *)
Lemma stuck_quiet s :
  harts_ok s -> no_event_lost s -> Forall (fun me => useful s me = false) s -> quiet s.
Proof.
  intros K L U.
  assert (Z : forall h me, s !! h = Some me -> nz (ipi me) = false).
  { intros h me Hme; pose proof (Forall_lookup_1 _ _ _ _ U Hme) as E; unfold useful in E; cbn in E.
    destruct (at_ me); try discriminate E; [exact E|].
    destruct (nz (ipi me)); [discriminate E | reflexivity]. }
  assert (B : forall h me, s !! h = Some me -> at_ me = Below).
  { intros h me Hme; pose proof (Forall_lookup_1 _ _ _ _ U Hme) as E; unfold useful in E; cbn in E.
    pose proof (Forall_lookup_1 _ _ _ _ K Hme) as [_ Hk].
    destruct (at_ me) as [| | |event i m incoming| | | | | |]; try discriminate E; [reflexivity|].
    destruct (s !! i) as [you|] eqn:Hi; [rewrite (Z i you Hi), orb_true_r in E; discriminate E|].
    rewrite orb_false_r in E; apply orb_false_iff in E as [_ O]; apply negb_false_iff in O.
    pose proof (in_range_odd _ _ _ (proj2 Hk) O) as T; apply lookup_ge_None in Hi; lia. }
  apply Forall_lookup; intros h me Hme; split; [eapply B, Hme|].
  pose proof (Z h me Hme) as Zi; split.
  { unfold nz in Zi; destruct (Z.eqb_spec (ipi me) 0); [assumption | discriminate Zi]. }
  destruct (Z.eqb_spec (mipi_pending me) 0) as [|P]; [assumption|exfalso].
  destruct (proj1 (L h me Hme) P) as [X|[X|(g & u & e & mk & m & Hg & X)]].
  - congruence.
  - rewrite (B h me Hme) in X; discriminate X.
  - rewrite (B g u Hg) in X; discriminate X.
Qed.

Lemma comes_to_rest hm disabled s :
  in_range (length s) 0 hm -> harts_ok s -> no_event_lost s ->
  exists s', rtc (step hm disabled) s s' /\ quiet s'.
Proof.
  remember (total s) as n eqn:N; revert s N.
  induction n as [n IH] using lt_wf_ind; intros s -> R K L.
  destruct (decide (Exists (fun me => useful s me = true) s)) as [X|X].
  - apply Exists_exists in X as (me & Hin & U); apply list_elem_of_lookup in Hin as [h Hme].
    destruct (useful_progress hm disabled s h me K L Hme U) as (s1 & S & T).
    destruct (step_ok hm disabled s s1 R K S) as [K1 E1].
    destruct (IH (total s1) T s1 eq_refl) as (s' & P & Q).
    + rewrite E1; exact R.
    + exact K1.
    + eapply step_keeps; [exact L|]; apply step_any; exact S.
    + exists s'; split; [eapply rtc_l; eassumption | exact Q].
  - exists s; split; [reflexivity|]; apply stuck_quiet; try assumption.
    apply not_Exists_Forall in X; [|typeclasses eauto].
    eapply Forall_impl; [exact X|]; intros me H; apply not_true_is_false, H.
Qed.

(** ** Pending events are served *)

Definition event_of (a : action) : Z :=
  match a with SetSsip => IPI_SOFT | FenceI => IPI_FENCE_I | SfenceVma => IPI_SFENCE_VMA end.
Definition stage_of (a : action) : nat :=
  match a with SetSsip => 0 | FenceI => 1 | SfenceVma => 2 end.

(** The hart has still to perform [a]. *)
Definition owes (me : hart) (a : action) : Prop :=
  nz (mipi_pending me .& event_of a) = true \/
  exists stage causes, at_ me = Serve stage causes /\ (stage <= stage_of a)%nat /\
                       nz (causes .& event_of a) = true.

(** [me'] comes after [me]: it has performed more, and all that [me] owed or still owes it. *)
Definition later (me me' : hart) : Prop :=
  exists l, log me' = log me ++ l /\ forall a, owes me a -> owes me' a \/ a ∈ l.

Lemma later_refl me : later me me.
Proof. exists []; rewrite app_nil_r; auto. Qed.

Lemma later_trans a b c : later a b -> later b c -> later a c.
Proof.
  intros (l & E & O) (l' & E' & O'); exists (l ++ l'); split; [rewrite E', E, app_assoc;
    reflexivity|].
  intros x Hx; destruct (O x Hx) as [Hb|Hl]; [destruct (O' x Hb)|]; rewrite ?elem_of_app; auto.
Qed.

(** A step that neither leaves the interrupt path nor takes events away. *)
Lemma later_words me me' :
  log me' = log me -> (forall stage causes, at_ me <> Serve stage causes) ->
  (forall a, nz (mipi_pending me .& event_of a) = true ->
    nz (mipi_pending me' .& event_of a) = true) ->
  later me me'.
Proof.
  intros E S P; exists []; rewrite app_nil_r; split; [exact E|].
  intros a [H|(stage & causes & X & _)]; [left; left; auto | destruct (S _ _ X)].
Qed.

Lemma later_serve me stage causes :
  at_ me = Serve stage causes -> later me (serve stage causes me).
Proof.
  intros E.
  assert (W : forall p l, log p = log me ++ l -> mipi_pending p = mipi_pending me ->
    (forall a, (stage <= stage_of a)%nat -> nz (causes .& event_of a) = true ->
       owes p a \/ a ∈ l) -> later me p).
  { intros p l Hl Hp Ho; exists l; split; [exact Hl|].
    intros a [H|(k & c & X & Hk & Hc)]; [left; left; rewrite Hp; exact H|].
    rewrite E in X; injection X as <- <-; apply Ho; assumption. }
  assert (N : forall a k p, (k <= stage_of a)%nat -> nz (causes .& event_of a) = true ->
    at_ p = Serve k causes -> owes p a)
    by (intros a k p; right; exists k, causes; auto).
  destruct stage as [|[|[|stage]]]; cbn [serve].
  - destruct (nz (causes .& IPI_SOFT)) eqn:B;
      [apply (W _ [SetSsip]) | apply (W _ [])]; try reflexivity; rewrite ?app_nil_r;
        try reflexivity;
      intros [] Hk Hc; cbn in Hc; try congruence; try (left; eapply N; [|exact Hc|reflexivity];
        cbn; lia).
    right; left.
  - destruct (nz (causes .& IPI_FENCE_I)) eqn:B;
      [apply (W _ [FenceI]) | apply (W _ [])]; try reflexivity; rewrite ?app_nil_r; try reflexivity;
      intros [] Hk Hc; cbn in Hk, Hc; try lia; try congruence;
      try (left; eapply N; [|exact Hc|reflexivity]; cbn; lia).
    right; left.
  - destruct (nz (causes .& IPI_SFENCE_VMA)) eqn:B;
      [apply (W _ [SfenceVma]) | apply (W _ [])]; try reflexivity; rewrite ?app_nil_r;
        try reflexivity;
      intros [] Hk Hc; cbn in Hk, Hc; try lia; try congruence.
    right; left.
  - apply (W _ []); [rewrite app_nil_r; destruct (nz _); reflexivity | destruct (nz _);
      reflexivity |].
    intros [] Hk; cbn in Hk; lia.
Qed.

Lemma later_move me p :
  (forall stage causes, at_ me <> Serve stage causes) -> later me (set_at p me).
Proof. intros S; apply later_words; auto. Qed.

(** Every hart of [s'] is a later one of [s]. *)
Definition all_later (s s' : list hart) : Prop :=
  forall h me, s !! h = Some me -> exists me', s' !! h = Some me' /\ later me me'.

Lemma all_later_alter s h f :
  (forall me, s !! h = Some me -> later me (f me)) -> all_later s (alter f h s).
Proof.
  intros L k me Hk; rewrite list_lookup_alter; destruct (decide (h = k)) as [<-|].
  - rewrite Hk; eexists; split; [reflexivity | apply L, Hk].
  - exists me; split; [exact Hk | apply later_refl].
Qed.

Lemma all_later_trans s s1 s2 : all_later s s1 -> all_later s1 s2 -> all_later s s2.
Proof.
  intros A B h me Hh; destruct (A h me Hh) as (m1 & H1 & L1);
    destruct (B h m1 H1) as (m2 & H2 & L2).
  exists m2; eauto using later_trans.
Qed.

(** A step of another hart on the words of [me]. *)
Lemma later_other me me' :
  log me' = log me -> at_ me' = at_ me ->
  (forall a, nz (mipi_pending me .& event_of a) = true ->
    nz (mipi_pending me' .& event_of a) = true) ->
  later me me'.
Proof.
  intros E A P; exists []; rewrite app_nil_r; split; [exact E|].
  intros a [H|(stage & causes & X)]; left; [left; auto|].
  right; exists stage, causes; rewrite A; exact X.
Qed.

Lemma advance_later disabled s h s' : advance disabled s h = Some s' -> all_later s s'.
Proof.
  unfold advance, send_ipi_many, ipi_interrupt; destruct (s !! h) as [me|] eqn:Hme;
    [|discriminate]; cbn [mbind option_bind].
  assert (M : forall p, (forall stage causes, at_ me <> Serve stage causes) ->
    all_later s (move s h p)).
  { intros p N; apply all_later_alter; intros ? X; rewrite Hme in X; injection X as <-.
    apply later_move, N. }
  assert (M2 : forall i f p, (forall stage causes, at_ me <> Serve stage causes) ->
    (forall u, at_ (f u) = at_ u) -> (forall u, later u (f u)) ->
      all_later s (move (alter f i s) h p)).
  { intros i f p N Fa Fl; eapply all_later_trans; [apply all_later_alter; intros; apply Fl|].
    apply all_later_alter; intros u Hu; apply later_move; rewrite list_lookup_alter in Hu.
    destruct (decide (i = h)) as [->|]; rewrite Hme in Hu; injection Hu as <-; [rewrite Fa|];
      exact N. }
  destruct (at_ me) as [|event mask i m|event mask i m|event i m incoming|event i m incoming
    |event incoming| | |stage causes|] eqn:E; try discriminate.
  - destruct (m =? 0); [|destruct (_ && _)].
    + intros [= <-]; apply M; congruence.
    + destruct (s !! i); [|discriminate]; intros [= <-]; apply M2; [congruence | reflexivity |].
      intros u; apply later_other; try reflexivity; intros a H; cbn.
      rewrite Z.land_lor_distr_l, nz_lor, H; reflexivity.
    + intros [= <-]; apply M; congruence.
  - destruct (s !! i); [|discriminate]; intros [= <-]; apply M2; [congruence | reflexivity |].
    intros u; apply later_other; auto.
  - destruct (m =? 0); [|destruct (nz (m .& 1)); [destruct (s !! i); [|discriminate]|]];
      intros [= <-]; apply M; congruence.
  - intros [= <-]; apply all_later_alter; intros u Hu; rewrite Hme in Hu; injection Hu as <-.
    apply later_words; auto; congruence.
  - intros [= <-]; apply all_later_alter; intros u Hu; rewrite Hme in Hu; injection Hu as <-.
    apply later_words; auto; congruence.
  - intros [= <-]; apply all_later_alter; intros u Hu; rewrite Hme in Hu; injection Hu as <-.
    apply later_words; auto; congruence.
  - intros [= <-]; apply all_later_alter; intros u Hu; rewrite Hme in Hu; injection Hu as <-.
    exists []; rewrite app_nil_r; split; [reflexivity|]; intros a [H|(k & c & X & _)];
      [|congruence].
    left; right; exists 0%nat, (mipi_pending me); repeat split; auto; lia.
  - intros [= <-]; apply all_later_alter; intros u Hu; rewrite Hme in Hu; injection Hu as <-.
    apply later_serve, E.
Qed.

Lemma step_later hm disabled s s' : step hm disabled s s' -> all_later s s'.
Proof.
  intros [? h ? A|? h me Hme E _|? h me n event arg Hme E _ _].
  - eapply advance_later, A.
  - apply all_later_alter; intros u Hu; rewrite Hme in Hu; injection Hu as <-.
    apply later_move; congruence.
  - apply all_later_alter; intros u Hu; rewrite Hme in Hu; injection Hu as <-.
    apply later_move; congruence.
Qed.

Lemma steps_later hm disabled s s' : rtc (step hm disabled) s s' -> all_later s s'.
Proof.
  induction 1 as [s|s s1 s' S _ IH]; [intros h me H; exists me; split;
    [exact H | apply later_refl]|].
  eapply all_later_trans; [eapply step_later, S | exact IH].
Qed.

Lemma steps_ok hm disabled n s :
  in_range n 0 hm -> rtc (step hm disabled) (at_rest n) s ->
  harts_ok s /\ length s = n /\ no_event_lost s.
Proof.
  intros R; assert (G : forall s0 s, rtc (step hm disabled) s0 s -> harts_ok s0 -> length s0 = n ->
    no_event_lost s0 -> harts_ok s /\ length s = n /\ no_event_lost s).
  { intros s0 s1 X; induction X as [s0|s0 s1 s2 S1 _ IH]; [auto|]; intros K E L.
    rewrite <- E in R; destruct (step_ok hm disabled s0 s1 R K S1) as [K1 E1]; rewrite E in R.
    apply IH; [exact K1 | congruence |].
    eapply step_keeps; [exact L | apply step_any, S1]. }
  intros S; apply (G (at_rest n) s S); [| apply length_replicate | apply at_rest_keeps].
  apply Forall_replicate; repeat split.
Qed.

(** ** Theorems *)

(** C19: no interrupt is lost.  In every state the harts reach from rest, by calls, shutdowns
    and interrupts in any interleaving, a hart with pending events has its interrupt raised,
    or has taken it off the line and will still look at them, or some hart is about to raise
    it. *)
Theorem ipi_never_lost hart_mask disabled n s h me :
  rtc (step_off hart_mask disabled) (at_rest n) s -> s !! h = Some me -> mipi_pending me <> 0 ->
  nz (ipi me) = true \/ holds (at_ me) = true \/ rung s h.
Proof.
  intros S Hme P; assert (L : no_event_lost s); [|exact (proj1 (L h me Hme) P)].
  assert (G : forall s0 s, rtc (step_off hart_mask disabled) s0 s -> no_event_lost s0 ->
    no_event_lost s)
    by (intros s0 s1 X; induction X; eauto using step_keeps).
  apply (G _ _ S), at_rest_keeps.
Qed.

(** C18: every call is completed and every event is served.  From every state the harts reach
    from rest without a shutdown there is a continuation to a state in which all harts are
    back below machine mode with no interrupt raised and no event pending, and in which each
    of them has performed all it owed: senders that wait for each other do not block each
    other. *)
Theorem ipi_comes_to_rest hart_mask disabled n s :
  in_range n 0 hart_mask -> rtc (step hart_mask disabled) (at_rest n) s ->
  exists s', rtc (step hart_mask disabled) s s' /\ quiet s' /\
    forall h me a, s !! h = Some me -> owes me a ->
      exists me' l, s' !! h = Some me' /\ log me' = log me ++ l /\ a ∈ l.
Proof.
  intros R S; destruct (steps_ok hart_mask disabled n s R S) as (K & E & L).
  destruct (comes_to_rest hart_mask disabled s) as (s' & S' & Q); [rewrite E;
    exact R | exact K | exact L|].
  exists s'; split; [exact S'|]; split; [exact Q|]; intros h me a Hme O.
  destruct (steps_later _ _ _ _ S' h me Hme) as (me' & Hme' & l & El & Ol).
  exists me', l; split; [exact Hme'|]; split; [exact El|].
  pose proof (Forall_lookup_1 _ _ _ _ Q Hme') as (B & _ & P).
  destruct (Ol a O) as [[X|(k & c & X & _)]|X]; [|congruence|exact X].
  rewrite P, Z.land_0_l in X; discriminate X.
Qed.

(** A schedule: the next hart to advance, or to take its interrupt. *)
Fixpoint run (disabled : Z) (schedule : list (bool * nat)) (s : list hart) : option (list hart) :=
  match schedule with
  | [] => Some s
  | (interrupt, h) :: rest =>
      if interrupt : bool then
        me ← s !! h;
        match at_ me with
        | Below => if nz (ipi me) then run disabled rest (move s h Clear) else None
        | _ => None
        end
      else s' ← advance disabled s h; run disabled rest s'
  end.

Lemma run_steps hm disabled schedule s s' :
  run disabled schedule s = Some s' -> rtc (step hm disabled) s s'.
Proof.
  revert s; induction schedule as [|[[] h] rest IH]; cbn [run]; intros s.
  - intros [= ->]; reflexivity.
  - destruct (s !! h) as [me|] eqn:Hme; [|discriminate]; cbn [mbind option_bind].
    destruct (at_ me) eqn:E; try discriminate; destruct (nz (ipi me)) eqn:Z; [|discriminate].
    intros R; eapply rtc_l; [eapply step_interrupt; eassumption | apply IH, R].
  - destruct (advance disabled s h) as [s1|] eqn:A; [|discriminate]; cbn [mbind option_bind].
    intros R; eapply rtc_l; [eapply step_advance, A | apply IH, R].
Qed.

(** Hart 0 asks hart 1 for an [sfence.vma]. *)
Definition asked : list hart := move (at_rest 2) 0 (Send IPI_SFENCE_VMA 2 0 2).

Lemma asked_step disabled : step 3 disabled (at_rest 2) asked.
Proof.
  apply (step_call 3 disabled (at_rest 2) 0 (Hart Below 0 0 []) SBI_REMOTE_SFENCE_VMA IPI_SFENCE_VMA 2);
    reflexivity || lia.
Qed.

Lemma ipi_never_lost_witness :
  exists s me, rtc (step_off 3 0) (at_rest 2) s /\ s !! 1%nat = Some me /\ mipi_pending me = 4 /\
    (nz (ipi me) = true \/ holds (at_ me) = true \/ rung s 1).
Proof.
  destruct (run 0 [(false, 0%nat); (false, 0%nat); (false, 0%nat)] asked) as [s|] eqn:R;
    [|vm_compute in R; discriminate R].
  assert (S : rtc (step_off 3 0) (at_rest 2) s).
  { eapply rtc_l; [apply step_any, asked_step|]; apply (run_steps 3) in R.
    clear - R; induction R; [reflexivity|]; eapply rtc_l; [apply step_any|]; eassumption. }
  vm_compute in R; injection R as <-; eexists _, _; split; [exact S|]; split; [reflexivity|].
  split; [reflexivity|]; apply (ipi_never_lost 3 0 2 _ 1 _ S eq_refl); discriminate.
Defined.

Lemma ipi_comes_to_rest_witness :
  exists s', rtc (step 3 0) asked s' /\ quiet s'.
Proof.
  destruct (ipi_comes_to_rest 3 0 2 asked) as (s' & S & Q & _).
  - split; [lia|]; intros k Hk T; destruct (Z.ltb_spec k 2); [lia|].
    change 3 with (Z.ones 2) in T; rewrite Z.ones_spec_high in T by lia; discriminate T.
  - eapply rtc_l; [apply asked_step | reflexivity].
  - exists s'; auto.
Defined.

(** C37: a remote fence returns too early.  The sender waits until the interrupt of the
    receiver is off the line, which the receiver does before it looks at its events: there
    is an execution in which the call for a remote [sfence.vma] has returned and the
    receiver has not performed it. *)
Theorem remote_sfence_returns_early :
  exists s me you, step 3 0 (at_rest 2) asked /\ rtc (step 3 0) asked s /\
    s !! 0%nat = Some me /\ at_ me = Below /\
    s !! 1%nat = Some you /\ log you = [] /\ owes you SfenceVma.
Proof.
  destruct (run 0 [(false, 0%nat); (false, 0%nat); (false, 0%nat); (false, 0%nat); (true, 1%nat);
                   (false, 1%nat); (false, 0%nat); (false, 0%nat);
                     (false, 0%nat)] asked) as [s|] eqn:R;
    [|vm_compute in R; discriminate R].
  pose proof (run_steps 3 _ _ _ _ R) as S; vm_compute in R; injection R as <-.
  eexists _, _, _; split; [apply asked_step|]; split; [exact S|]; split; [reflexivity|].
  split; [reflexivity|]; split; [reflexivity|]; split; [reflexivity|]; left; reflexivity.
Qed.
