(* ===== verification/File.v ===== *)
(** * Open files of the proxy kernel ([pk/file.c], [pk/syscall.c])

    The table of descriptors, the table of files with their reference counts, and the system
    calls on descriptors.  A file is open on the host while its count is not 0; the count
    starts at 2 and the last reference is the one that takes it from 2 to 1.  The host is a
    parameter: [frontend_syscall] on a state of its own.  The proxy kernel runs on one hart,
    so an operation is one step. *)

From S2P Require Import Prelude.
From stdpp Require Import base list.
From Stdlib Require Import ZArith Lia.
#[local] Open Scope Z_scope.
#[local] Open Scope c_scope.
#[local] Open Scope bool_scope.

(** ** State *)

Definition MAX_FDS : nat := 128.
Definition MAX_FILES : nat := 128.

Record file := File { kfd : Z; refcnt : Z }.

Record pk (H : Type) := Pk { fds : list (option nat); files : list file; host : H }.
Arguments Pk {_} _ _ _. Arguments fds {_} _. Arguments files {_} _. Arguments host {_} _.

Definition set_fds {H} (l : list (option nat)) (s : pk H) : pk H := Pk l (files s) (host s).
Definition set_files {H} (l : list file) (s : pk H) : pk H := Pk (fds s) l (host s).
Definition set_host {H} (h : H) (s : pk H) : pk H := Pk (fds s) (files s) h.

(** [file_t files[MAX_FILES]] and [fds] before [file_init]. *)
Definition boot {H} (h : H) : pk H :=
  Pk (replicate MAX_FDS None) (replicate MAX_FILES (File (-1) 0)) h.

(** An operation; [None] when a [kassert] fails. *)
Definition K (H A : Type) : Type := pk H -> option (A * pk H).

Definition kret {H A} (a : A) : K H A := fun s => Some (a, s).
Definition kbind {H A B} (c : K H A) (k : A -> K H B) : K H B :=
  fun s => match c s with Some (a, s') => k a s' | None => None end.
Notation "'let*' x ':=' c 'in' k" := (kbind c (fun x => k))
  (at level 10, x name, c at level 100, k at level 200).
Definition kassert {H} (b : bool) : K H unit := fun s => if b then Some (tt, s) else None.

(** ** Error numbers and system calls *)

Definition EBADF : Z := 9.
Definition ENOMEM : Z := 12.
Definition AT_FDCWD : Z := -100.

Definition SYS_fcntl : Z := 25.
Definition SYS_mkdirat : Z := 34.
Definition SYS_unlinkat : Z := 35.
Definition SYS_linkat : Z := 37.
Definition SYS_renameat : Z := 38.
Definition SYS_ftruncate : Z := 46.
Definition SYS_faccessat : Z := 48.
Definition SYS_openat : Z := 56.
Definition SYS_close : Z := 57.
Definition SYS_lseek : Z := 62.
Definition SYS_read : Z := 63.
Definition SYS_write : Z := 64.
Definition SYS_pread : Z := 67.
Definition SYS_fstatat : Z := 79.
Definition SYS_fstat : Z := 80.

Definition IS_ERR_VALUE (x : Z) : bool := u64 (-4096) <=? u64 x.

Section Files.
Context {H : Type} (frontend_syscall : Z -> list Z -> H -> Z * H).

Definition frontend (n : Z) (args : list Z) : K H Z :=
  fun s => let (r, h) := frontend_syscall n args (host s) in Some (r, set_host h s).

(** Reads and updates of a file; an index out of the table does not occur. *)
Definition get_file (f : nat) : K H file :=
  fun s => match files s !! f with Some x => Some (x, s) | None => None end.
Definition put_refcnt (f : nat) (v : Z) : K H unit :=
  fun s => Some (tt, set_files (alter (fun x => File (kfd x) v) f (files s)) s).
Definition put_kfd (f : nat) (v : Z) : K H unit :=
  fun s => Some (tt, set_files (alter (fun x => File v (refcnt x)) f (files s)) s).

(** ** [pk/file.c] *)

Definition file_incref (f : nat) : K H unit :=
  let* x := get_file f in
  let* _ := put_refcnt f (u32 (refcnt x + 1)) in
  kassert (0 <? refcnt x).

Definition file_decref (f : nat) : K H unit :=
  let* x := get_file f in
  let* _ := put_refcnt f (u32 (refcnt x - 1)) in
  if refcnt x =? 2 then
    let* _ := put_refcnt f 0 in
    let* _ := frontend SYS_close [kfd x; 0; 0; 0; 0; 0; 0] in
    kret tt
  else kret tt.

Definition file_get_free : K H (option nat) :=
  fun s =>
    match list_find (fun x => refcnt x = 0) (files s) with
    | Some (f, _) => Some (Some f, set_files (alter (fun x => File (kfd x) 2) f (files s)) s)
    | None => Some (None, s)
    end.

Definition file_dup (f : nat) : K H Z :=
  fun s =>
    match list_find (fun x => x = None) (fds s) with
    | Some (i, _) =>
        (let* _ := file_incref f in kret (Z.of_nat i)) (set_fds (<[i := Some f]> (fds s)) s)
    | None => Some (-1, s)
    end.

(** The loop body of [file_init]. *)
Definition file_init_one (i : Z) : K H unit :=
  let* f := file_get_free in
  match f with
  | Some f => let* _ := put_kfd f i in let* _ := file_dup f in kret tt
  | None => fun _ => None
  end.

Definition file_init : K H unit :=
  let* _ := file_init_one 0 in
  let* _ := file_init_one 1 in
  file_init_one 2.

Definition file_get (fd : Z) : K H (option nat) :=
  fun s =>
    if (fd <? 0) || (Z.of_nat MAX_FDS <=? fd) then Some (None, s)
    else match fds s !! Z.to_nat fd with
         | Some (Some f) =>
             (let* x := get_file f in
              if refcnt x =? 0 then kret None
              else let* _ := put_refcnt f (u32 (refcnt x + 1)) in kret (Some f)) s
         | _ => Some (None, s)
         end.

(** The file, or the error number. *)
Definition file_openat (dirfd fn fn_size flags mode : Z) : K H (nat + Z) :=
  let* f := file_get_free in
  match f with
  | None => kret (inr (- ENOMEM))
  | Some f =>
      let* ret := frontend SYS_openat [dirfd; fn; fn_size; flags; mode; 0; 0] in
      if 0 <=? ret then let* _ := put_kfd f (i32 ret) in kret (inl f)
      else let* _ := file_decref f in kret (inr ret)
  end.

Definition fd_close (fd : Z) : K H Z :=
  let* f := file_get fd in
  match f with
  | None => kret (-1)
  | Some f =>
      fun s =>
        let old := fds s !! Z.to_nat fd in
        let same := bool_decide (old = Some (Some f)) in
        (let* _ := file_decref f in
         if same then let* _ := file_decref f in kret 0 else kret (-1))
          (if same then set_fds (<[Z.to_nat fd := None]> (fds s)) s else s)
  end.

(** ** [pk/syscall.c] *)

(** The shape of the calls that pass a file to the host; [args] are the arguments after the
    file's host descriptor, addresses translated, and [conv] is the conversion of the host's
    result to the type of the call's. *)
Definition on_file (conv : Z -> Z) (n : Z) (fd : Z) (args : list Z) : K H Z :=
  let* f := file_get fd in
  match f with
  | None => kret (- EBADF)
  | Some f =>
      let* x := get_file f in
      let* r := frontend n (kfd x :: args) in
      let* _ := file_decref f in
      kret (conv r)
  end.

Definition sys_read (fd buf n : Z) : K H Z := on_file i64 SYS_read fd [buf; n; 0; 0; 0; 0].
Definition sys_pread (fd buf n offset : Z) : K H Z :=
  on_file i64 SYS_pread fd [buf; n; offset; 0; 0; 0].
Definition sys_write (fd buf n : Z) : K H Z := on_file i64 SYS_write fd [buf; n; 0; 0; 0; 0].
Definition sys_fstat (fd buf : Z) : K H Z := on_file i32 SYS_fstat fd [buf; 0; 0; 0; 0; 0].
Definition sys_fcntl (fd cmd arg : Z) : K H Z := on_file i32 SYS_fcntl fd [cmd; arg; 0; 0; 0; 0].
Definition sys_ftruncate (fd len : Z) : K H Z := on_file i32 SYS_ftruncate fd [len; 0; 0; 0; 0; 0].
Definition sys_lseek (fd ptr dir : Z) : K H Z := on_file i64 SYS_lseek fd [ptr; dir; 0; 0; 0; 0].

Definition sys_dup (fd : Z) : K H Z :=
  let* f := file_get fd in
  match f with
  | None => kret (- EBADF)
  | Some f => let* r := file_dup f in let* _ := file_decref f in kret r
  end.

Definition at_kfd (dirfd : Z) : K H Z :=
  if dirfd =? AT_FDCWD then kret AT_FDCWD
  else
    let* dir := file_get dirfd in
    match dir with
    | None => kret (-1)
    | Some f => let* x := get_file f in kret (kfd x)
    end.

Definition sys_openat (dirfd name name_size flags mode : Z) : K H Z :=
  let* k := at_kfd dirfd in
  if negb (k =? -1) then
    let* r := file_openat k name name_size flags mode in
    match r with
    | inr e => if IS_ERR_VALUE e then kret (i32 e) else fun _ => None
    | inl f =>
        let* fd := file_dup f in
        if fd <? 0 then let* _ := file_decref f in kret (- ENOMEM) else kret fd
    end
  else kret (- EBADF).

Definition sys_close (fd : Z) : K H Z :=
  let* ret := fd_close fd in
  kret (if ret <? 0 then - EBADF else ret).

(** The shape of the calls that name a file in a directory. *)
Definition on_dir (n : Z) (dirfd : Z) (args : list Z) : K H Z :=
  let* k := at_kfd dirfd in
  if negb (k =? -1) then let* r := frontend n (k :: args) in kret (i64 r) else kret (- EBADF).

Definition sys_fstatat (dirfd name name_size buf flags : Z) : K H Z :=
  on_dir SYS_fstatat dirfd [name; name_size; buf; flags; 0; 0].
Definition sys_faccessat (dirfd name name_size mode : Z) : K H Z :=
  on_dir SYS_faccessat dirfd [name; name_size; mode; 0; 0; 0].
Definition sys_unlinkat (dirfd name name_size flags : Z) : K H Z :=
  on_dir SYS_unlinkat dirfd [name; name_size; flags; 0; 0; 0].
Definition sys_mkdirat (dirfd name name_size mode : Z) : K H Z :=
  on_dir SYS_mkdirat dirfd [name; name_size; mode; 0; 0; 0].

(** And in two of them. *)
Definition on_dirs (conv : Z -> Z) (n : Z) (old_fd old_name old_size new_fd new_name new_size
    flags : Z)
    : K H Z :=
  let* old_kfd := at_kfd old_fd in
  let* new_kfd := at_kfd new_fd in
  if negb (old_kfd =? -1) && negb (new_kfd =? -1) then
    let* r := frontend n [old_kfd; old_name; old_size; new_kfd; new_name; new_size; flags] in
    kret (conv r)
  else kret (- EBADF).

Definition sys_renameat (old_fd old_path old_size new_fd new_path new_size : Z) : K H Z :=
  on_dirs i32 SYS_renameat old_fd old_path old_size new_fd new_path new_size 0.
Definition sys_linkat (old_fd old_name old_size new_fd new_name new_size flags : Z) : K H Z :=
  on_dirs i64 SYS_linkat old_fd old_name old_size new_fd new_name new_size flags.
End Files.

(** ** Counting references *)

Definition one (b : bool) : Z := if b then 1 else 0.

(** Descriptors that refer to file [f]. *)
Fixpoint refs (f : nat) (l : list (option nat)) : Z :=
  match l with [] => 0 | x :: l => one (bool_decide (x = Some f)) + refs f l end.

Lemma refs_nonneg f l : 0 <= refs f l <= Z.of_nat (length l).
Proof.
  induction l as [|x l IH]; [cbn; lia|]; rewrite length_cons, Nat2Z.inj_succ; cbn [refs].
  unfold one; destruct (bool_decide _); lia.
Qed.

Lemma refs_insert f l i x y :
  l !! i = Some x ->
  refs f (<[i := y]> l)
  = refs f l - one (bool_decide (x = Some f)) + one (bool_decide (y = Some f)).
Proof.
  revert i; induction l as [|z l IH]; intros [|i] E; try discriminate E.
  - injection E as ->; cbn; lia.
  - change (<[S i := y]> (z :: l)) with (z :: <[i := y]> l); cbn [refs]; rewrite (IH i E); lia.
Qed.

Lemma refs_pos f l i : l !! i = Some (Some f) -> 0 < refs f l.
Proof.
  revert i; induction l as [|z l IH]; intros [|i] E; try discriminate E; cbn [refs].
  - injection E as ->; rewrite bool_decide_true by reflexivity; pose proof (refs_nonneg f l); cbn;
      lia.
  - pose proof (IH i E); unfold one; destruct (bool_decide _); lia.
Qed.

(** The count of a file: 0 when nothing refers to it, one more than its references else.
    [held] counts the references that are not descriptors. *)
Definition count (n : Z) : Z := if n =? 0 then 0 else 1 + n.

Record refs_ok {H} (held : nat -> Z) (s : pk H) : Prop := {
  ok_length : length (fds s) = MAX_FDS;
  ok_target : forall i f, fds s !! i = Some (Some f) -> is_Some (files s !! f);
  ok_held : forall f, 0 <= held f < 2 ^ 31;
  ok_count : forall f x, files s !! f = Some x -> refcnt x = count (refs f (fds s) + held f)
}.

(** [held] with [k] more references to [f]. *)
Definition plus (held : nat -> Z) (f : nat) (k : Z) : nat -> Z :=
  fun g => held g + if decide (g = f) then k else 0.

Lemma refs_ok_ext {H} held held' (s : pk H) :
  (forall f, held' f = held f) -> refs_ok held s -> refs_ok held' s.
Proof.
  intros E [L T B C]; split; try assumption; intros; rewrite E; auto.
Qed.

Lemma refs_ok_host {H} held h (s : pk H) : refs_ok held s -> refs_ok held (set_host h s).
Proof. intros [L T B C]; split; assumption. Qed.

(** A change of one count. *)
Lemma refs_ok_files {H} held (s : pk H) f x k g :
  refs_ok held s -> files s !! f = Some x -> 0 <= held f + k < 2 ^ 31 ->
  refcnt (g x) = count (refs f (fds s) + held f + k) ->
  refs_ok (plus held f k) (set_files (alter g f (files s)) s).
Proof.
  intros [L T B C] Hx Hk E; split; cbn.
  - exact L.
  - intros i f' Hf; rewrite list_lookup_alter; destruct (decide _); [|eauto].
    subst; rewrite Hx; eexists; reflexivity.
  - intros f'; unfold plus; pose proof (B f'); destruct (decide (f' = f)); subst; lia.
  - intros f' x'; rewrite list_lookup_alter; unfold plus; destruct (decide (f = f')) as [<-|N].
    + rewrite Hx, decide_True by reflexivity; intros [= <-]; rewrite E; f_equal; lia.
    + rewrite decide_False by congruence; rewrite Z.add_0_r; apply C.
Qed.

Definition room (held : nat -> Z) : Prop := forall f, held f + 1 < 2 ^ 31.

Lemma count_small n : 0 <= n < 2 ^ 31 + 128 -> 0 <= count n < 2 ^ 32.
Proof. unfold count; destruct (Z.eqb_spec n 0); lia. Qed.

Section Specs.
Context {H : Type} (frontend_syscall : Z -> list Z -> H -> Z * H).

Definition closed (k : Z) (h : H) : H := snd (frontend_syscall SYS_close [k; 0; 0; 0; 0; 0; 0] h).

Lemma refs_bound held (s : pk H) f :
  refs_ok held s -> 0 <= refs f (fds s) + held f < 2 ^ 31 + 128.
Proof.
  intros [L _ B _]; pose proof (refs_nonneg f (fds s)); rewrite L in *; pose proof (B f).
  unfold MAX_FDS in *; lia.
Qed.

Lemma file_get_spec held (s : pk H) fd :
  refs_ok held s -> room held ->
  (file_get fd s = Some (None, s) /\ forall f, fds s !! Z.to_nat fd = Some (Some f) -> fd < 0) \/
  exists f x s', file_get fd s = Some (Some f, s') /\ fds s !! Z.to_nat fd = Some (Some f) /\
    0 <= fd < Z.of_nat MAX_FDS /\ files s !! f = Some x /\ refs_ok (plus held f 1) s' /\
    s' = set_files (alter (fun x => File (kfd x) (u32 (refcnt x + 1))) f (files s)) s.
Proof.
  intros I R; unfold file_get.
  destruct (Z.ltb_spec fd 0) as [N|N]; [left; auto|]; cbn [orb].
  destruct (Z.leb_spec (Z.of_nat MAX_FDS) fd) as [G|G].
  - left; split; [reflexivity|]; intros f E; apply lookup_lt_Some in E.
    rewrite (ok_length _ _ I) in E; lia.
  - destruct (fds s !! Z.to_nat fd) as [[f|]|] eqn:E; [|left; split; [reflexivity | congruence]..].
    right; destruct (ok_target _ _ I _ _ E) as [x Hx].
    pose proof (ok_count _ _ I f x Hx) as C; pose proof (refs_pos _ _ _ E) as P.
    pose proof (ok_held _ _ I f) as B; pose proof (refs_bound held s f I) as Q.
    unfold count in C; rewrite (proj2 (Z.eqb_neq _ 0)) in C by lia.
    unfold kbind, get_file, kret, put_refcnt; rewrite Hx, (proj2 (Z.eqb_neq (refcnt x) 0)) by lia.
    assert (A : alter (fun y => File (kfd y) (u32 (refcnt x + 1))) f (files s)
                = alter (fun y => File (kfd y) (u32 (refcnt y + 1))) f (files s)).
    { apply list_eq; intros j; rewrite !list_lookup_alter; destruct (decide (f = j)) as [<-|];
        [|reflexivity].
      rewrite Hx; reflexivity. }
    rewrite A; exists f, x; eexists; split; [reflexivity|]; split; [reflexivity|]; split; [lia|].
    split; [exact Hx|]; split; [|reflexivity].
    apply (refs_ok_files held s f x 1); try assumption; [pose proof (R f); lia|].
    cbn [refcnt]; unfold count; rewrite (proj2 (Z.eqb_neq _ 0)), u32_small by lia; lia.
Qed.

(** Dropping a held reference: the host is told exactly when it was the last one. *)
Lemma file_decref_spec held (s : pk H) f x :
  refs_ok held s -> files s !! f = Some x -> 0 < held f ->
  exists s', file_decref frontend_syscall f s = Some (tt, s') /\ refs_ok (plus held f (-1)) s' /\
    fds s' = fds s /\ (exists x', files s' !! f = Some x' /\ kfd x' = kfd x) /\
    host s' = if refs f (fds s) + held f =? 1 then closed (kfd x) (host s) else host s.
Proof.
  intros I Hx Hh; pose proof (ok_count _ _ I f x Hx) as C; pose proof (refs_bound held s f I) as Q.
  pose proof (ok_held _ _ I f) as B; pose proof (refs_nonneg f (fds s)) as P.
  unfold count in C; rewrite (proj2 (Z.eqb_neq _ 0)) in C by lia.
  unfold file_decref, kbind, get_file, put_refcnt, kret; rewrite Hx.
  destruct (Z.eqb_spec (refs f (fds s) + held f) 1) as [E|E].
  - rewrite (proj2 (Z.eqb_eq (refcnt x) 2)) by lia; cbn [frontend files set_files].
    unfold frontend, closed; cbn [host set_files].
    destruct (frontend_syscall SYS_close [kfd x; 0; 0; 0; 0; 0; 0] (host s)) as [r h].
    eexists; split; [reflexivity|].
    assert (A : alter (fun y => File (kfd y) 0) f (alter (fun y => File (kfd y) (u32 (refcnt x -
        1))) f (files s))
                = alter (fun y => File (kfd y) 0) f (files s)).
    { apply list_eq; intros j; rewrite !list_lookup_alter; destruct (decide (f = j)) as [<-|];
        [|reflexivity].
      rewrite ?decide_True, Hx by reflexivity; reflexivity. }
    unfold set_files at 1; cbn [fds files host set_files]; rewrite A; split.
    + apply refs_ok_host, (refs_ok_files held s f x (-1)); try assumption; [lia|].
      cbn [refcnt]; unfold count; rewrite (proj2 (Z.eqb_eq _ 0)) by lia; reflexivity.
    + split; [reflexivity|]; split; [|reflexivity].
      eexists; cbn; rewrite list_lookup_alter_eq, Hx; split; reflexivity.
  - rewrite (proj2 (Z.eqb_neq (refcnt x) 2)) by lia; eexists; split; [reflexivity|]; split.
    + apply (refs_ok_files held s f x (-1)); try assumption; [lia|].
      cbn [refcnt]; unfold count; rewrite (proj2 (Z.eqb_neq _ 0)), u32_small by lia; lia.
    + split; [reflexivity|]; split; [|reflexivity].
      eexists; cbn; rewrite list_lookup_alter_eq, Hx; split; reflexivity.
Qed.

(** A new descriptor for a file that is referred to. *)
Lemma file_dup_spec held (s : pk H) f x :
  refs_ok held s -> files s !! f = Some x -> 0 < refs f (fds s) + held f ->
  (file_dup f s = Some (-1, s) /\ Forall (fun y => y <> None) (fds s)) \/
  exists i s', file_dup f s = Some (Z.of_nat i, s') /\ fds s !! i = Some None /\
    fds s' = <[i := Some f]> (fds s) /\ host s' = host s /\
    (exists x', files s' !! f = Some x' /\ kfd x' = kfd x) /\ refs_ok held s'.
Proof.
  intros I Hx P; unfold file_dup.
  destruct (list_find _ (fds s)) as [[i y]|] eqn:F; [right | left; split; [reflexivity|];
    apply list_find_None in F; exact F].
  apply list_find_Some in F as (Hi & -> & _).
  pose proof (ok_count _ _ I f x Hx) as C; pose proof (refs_bound held s f I) as Q.
  unfold count in C; rewrite (proj2 (Z.eqb_neq _ 0)) in C by lia.
  unfold file_incref, kbind, get_file, put_refcnt, kassert, kret; cbn [files set_fds fds].
  rewrite Hx, (proj2 (Z.ltb_lt 0 (refcnt x))) by lia; exists i; eexists; split; [reflexivity|].
  split; [exact Hi|]; split; [reflexivity|]; split; [reflexivity|]; split.
  { eexists; cbn; rewrite list_lookup_alter_eq, Hx; split; reflexivity. }
  pose proof (fun g => refs_insert g (fds s) i None (Some f) Hi) as Rf; destruct I as [L T B Cn].
  split; cbn.
  - rewrite length_insert; exact L.
  - intros j g; rewrite list_lookup_insert, list_lookup_alter; intros Hg.
    assert (S : is_Some (files s !! g)).
    { destruct (decide _) in Hg; [injection Hg as <-; rewrite Hx; eexists;
        reflexivity | eapply T, Hg]. }
    destruct (decide (f = g)) as [<-|]; [rewrite Hx; eexists; reflexivity | exact S].
  - exact B.
  - intros g y; rewrite list_lookup_alter, Rf, (bool_decide_false (None = _)) by discriminate.
    destruct (decide (f = g)) as [<-|N].
    + rewrite Hx; intros [= <-]; rewrite bool_decide_true by reflexivity; cbn [refcnt one].
      unfold count; rewrite (proj2 (Z.eqb_neq _ 0)), u32_small by lia; lia.
    + rewrite bool_decide_false by congruence; cbn [one]; intros Hg; rewrite (Cn g y Hg); f_equal;
        lia.
Qed.

(** A free file, with one reference held. *)
Lemma file_get_free_spec held (s : pk H) :
  refs_ok held s ->
  (file_get_free s = Some (None, s) /\ Forall (fun x => refcnt x <> 0) (files s)) \/
  exists f x s', file_get_free s = Some (Some f, s') /\ files s !! f = Some x /\
    refs f (fds s) = 0 /\ held f = 0 /\ refs_ok (plus held f 1) s' /\
    s' = set_files (alter (fun x => File (kfd x) 2) f (files s)) s.
Proof.
  intros I; unfold file_get_free.
  destruct (list_find _ (files s)) as [[f x]|] eqn:F; [right | left; split; [reflexivity|];
    apply list_find_None in F; exact F].
  apply list_find_Some in F as (Hx & Z & _); pose proof (ok_count _ _ I f x Hx) as C.
  pose proof (refs_nonneg f (fds s)); pose proof (ok_held _ _ I f); unfold count in C.
  destruct (Z.eqb_spec (refs f (fds s) + held f) 0); [|lia].
  exists f, x; eexists; split; [reflexivity|]; split; [exact Hx|]; split; [lia|]; split; [lia|].
  split; [|reflexivity]; apply (refs_ok_files held s f x 1); try assumption; [lia|].
  cbn [refcnt]; unfold count; rewrite (proj2 (Z.eqb_neq _ 0)) by lia; lia.
Qed.

Lemma refs_ok_kfd held (s : pk H) f k :
  refs_ok held s -> refs_ok held (set_files (alter (fun x => File k (refcnt x)) f (files s)) s).
Proof.
  intros [L T B C]; split; cbn; try assumption.
  - intros i g Hg; rewrite list_lookup_alter; destruct (decide _); [|eauto].
    subst; destruct (T i g Hg) as [x ->]; eexists; reflexivity.
  - intros g x; rewrite list_lookup_alter; destruct (decide (f = g)) as [<-|]; [|apply C].
    destruct (files s !! f) as [y|] eqn:Hy; [|discriminate]; intros [= <-]; apply (C f y Hy).
Qed.
End Specs.

Section Calls.
Context {H : Type} (frontend_syscall : Z -> list Z -> H -> Z * H).
Context (held : nat -> Z) (s : pk H) (OK : refs_ok held s) (R : room held).

Lemma plus_undo f g : plus (plus held f 1) f (-1) g = held g.
Proof using. unfold plus; destruct (decide (g = f)); lia. Qed.

Lemma plus_self f k : plus held f k f = held f + k.
Proof using. unfold plus; rewrite decide_True by reflexivity; reflexivity. Qed.

(** A call on a descriptor passes the host's descriptor of its file and takes no reference. *)
Lemma on_file_spec conv n fd args :
  exists r s', on_file frontend_syscall conv n fd args s = Some (r, s') /\ refs_ok held s' /\
    fds s' = fds s /\
    ((r = - EBADF /\ s' = s /\ forall f, fds s !! Z.to_nat fd = Some (Some f) -> fd < 0) \/
     exists f x, fds s !! Z.to_nat fd = Some (Some f) /\ files s !! f = Some x /\
       let (ret, h) := frontend_syscall n (kfd x :: args) (host s) in r = conv ret /\ host s' = h).
Proof using OK R.
  unfold on_file, kbind.
  destruct (file_get_spec held s fd OK R) as [[E N]|(f & x & s1 & E & Hf & Hd & Hx & I1 & S1)];
    rewrite E.
  - exists (- EBADF), s; repeat split; auto; apply OK.
  - assert (X1 : files s1 !! f = Some (File (kfd x) (u32 (refcnt x + 1))))
      by (rewrite S1; cbn; rewrite list_lookup_alter_eq, Hx; reflexivity).
    unfold get_file; rewrite X1; cbn [kfd]; unfold frontend.
    assert (HH : host s1 = host s) by (rewrite S1; reflexivity); rewrite HH.
    assert (HF : fds s1 = fds s) by (rewrite S1; reflexivity).
    destruct (frontend_syscall n (kfd x :: args) (host s)) as [r h] eqn:F.
    destruct (file_decref_spec frontend_syscall (plus held f 1) (set_host h s1) f _
                (refs_ok_host _ _ _ I1) X1) as (s2 & D & I2 & F2 & _ & H2).
    + rewrite plus_self; pose proof (ok_held _ _ OK f); lia.
    + rewrite D; exists (conv r), s2; split; [reflexivity|]; split.
      { eapply refs_ok_ext; [|exact I2]; intros; symmetry; apply plus_undo. }
      split; [rewrite F2; exact HF|]; right; exists f, x; split; [exact Hf|]; split; [exact Hx|].
      rewrite F; split; [reflexivity|]; rewrite H2; cbn [fds set_host host]; rewrite HF, plus_self.
      pose proof (refs_pos _ _ _ Hf); pose proof (ok_held _ _ OK f).
      rewrite (proj2 (Z.eqb_neq _ 1)) by lia; reflexivity.
Qed.

Lemma sys_dup_spec fd :
  exists r s', sys_dup frontend_syscall fd s = Some (r, s') /\ refs_ok held s' /\
    host s' = host s /\
    ((r < 0 /\ fds s' = fds s) \/
     exists i f, r = Z.of_nat i /\ fds s !! Z.to_nat fd = Some (Some f) /\ fds s !! i = Some None /\
       fds s' = <[i := Some f]> (fds s)).
Proof using OK R.
  unfold sys_dup, kbind.
  destruct (file_get_spec held s fd OK R) as [[E N]|(f & x & s1 & E & Hf & Hd & Hx & I1 & S1)];
    rewrite E.
  - exists (- EBADF), s; split; [reflexivity|]; split; [exact OK|]; split; [reflexivity|].
    left; split; [reflexivity | reflexivity].
  - assert (X1 : files s1 !! f = Some (File (kfd x) (u32 (refcnt x + 1))))
      by (rewrite S1; cbn; rewrite list_lookup_alter_eq, Hx; reflexivity).
    assert (HH : host s1 = host s) by (rewrite S1; reflexivity).
    assert (HF : fds s1 = fds s) by (rewrite S1; reflexivity).
    pose proof (refs_pos _ _ _ Hf) as Rp; pose proof (ok_held _ _ OK f) as Hp.
    assert (U : forall g, held g = plus (plus held f 1) f (-1) g) by (intros; symmetry;
      apply plus_undo).
    destruct (file_dup_spec (plus held f 1) s1 f _ I1 X1)
        as [[D _]|(i & s2 & D & Hi & F2 & H2 & (x2 & X2 & _) & I2)];
      [rewrite HF, plus_self; lia | |]; rewrite D.
    + destruct (file_decref_spec frontend_syscall (plus held f 1) s1 f _ I1 X1)
          as (s3 & D3 & I3 & F3 & _ & H3);
        [rewrite plus_self; lia|].
      rewrite D3; exists (-1), s3; split; [reflexivity|].
      split; [eapply refs_ok_ext; [exact U | exact I3]|].
      rewrite H3, HF, plus_self, (proj2 (Z.eqb_neq _ 1)) by lia.
      split; [exact HH|]; left; split; [lia | rewrite F3; exact HF].
    + destruct (file_decref_spec frontend_syscall (plus held f 1) s2 f _ I2 X2)
          as (s3 & D3 & I3 & F3 & _ & H3);
        [rewrite plus_self; lia|].
      rewrite D3; exists (Z.of_nat i), s3; split; [reflexivity|].
      split; [eapply refs_ok_ext; [exact U | exact I3]|]; rewrite HF in Hi, F2.
      rewrite H3, F2, plus_self, (refs_insert f (fds s) i None (Some f) Hi).
      rewrite (bool_decide_false (None = _)), (bool_decide_true (Some f = _)) by congruence.
      cbn [one]; rewrite (proj2 (Z.eqb_neq _ 1)), H2 by lia.
      split; [exact HH|]; right; exists i, f; rewrite F3; auto.
Qed.

(** Taking a descriptor out of the table turns its reference into a held one. *)
Lemma refs_ok_clear i f :
  fds s !! i = Some (Some f) -> refs_ok (plus held f 1) (set_fds (<[i := None]> (fds s)) s).
Proof using OK R.
  intros Hi; pose proof (fun g => refs_insert g (fds s) i (Some f) None Hi) as Rf.
  destruct OK as [L T B C]; split; cbn.
  - rewrite length_insert; exact L.
  - intros j g; rewrite list_lookup_insert; destruct (decide _); [congruence | apply T].
  - intros g; unfold plus; pose proof (B g); pose proof (R g); destruct (decide (g = f)); lia.
  - intros g y Hg; rewrite (C g y Hg), Rf, (bool_decide_false (None = _)) by discriminate.
    unfold plus; f_equal; cbn [one]; destruct (decide (g = f)) as [->|N].
    + rewrite bool_decide_true by reflexivity; cbn [one]; lia.
    + rewrite bool_decide_false by congruence; cbn [one]; lia.
Qed.
End Calls.

Lemma sys_close_spec {H} (frontend_syscall : Z -> list Z -> H -> Z * H) held s fd :
  refs_ok held s -> (forall f, held f + 2 < 2 ^ 31) ->
  (sys_close frontend_syscall fd s = Some (- EBADF, s) /\
   forall f, fds s !! Z.to_nat fd = Some (Some f) -> fd < 0) \/
  exists f x s', sys_close frontend_syscall fd s = Some (0, s') /\
    fds s !! Z.to_nat fd = Some (Some f) /\ files s !! f = Some x /\
    fds s' = <[Z.to_nat fd := None]> (fds s) /\ refs_ok held s' /\ is_Some (files s' !! f) /\
    host s' = if refs f (fds s) + held f =? 1 then closed frontend_syscall (kfd x) (host s) else
        host s.
Proof.
  intros OK R2; assert (R : room held) by (intros f; pose proof (R2 f); lia).
  unfold sys_close, fd_close, kbind.
  destruct (file_get_spec held s fd OK R) as [[E N]|(f & x & s1 & E & Hf & Hd & Hx & I1 & S1)];
    rewrite E.
  - left; split; [reflexivity | exact N].
  - right; assert (X1 : files s1 !! f = Some (File (kfd x) (u32 (refcnt x + 1))))
      by (rewrite S1; cbn; rewrite list_lookup_alter_eq, Hx; reflexivity).
    assert (HH : host s1 = host s) by (rewrite S1; reflexivity).
    assert (HF : fds s1 = fds s) by (rewrite S1; reflexivity).
    pose proof (refs_pos _ _ _ Hf) as Rp; pose proof (ok_held _ _ OK f) as Hp.
    rewrite HF, bool_decide_true by exact Hf.
    assert (R1 : room (plus held f 1)) by (intros g; unfold plus; pose proof (R2 g);
      destruct (decide _); lia).
    assert (H1 : fds s1 !! Z.to_nat fd = Some (Some f)) by (rewrite HF; exact Hf).
    pose proof (refs_ok_clear (plus held f 1) s1 I1 R1 _ _ H1) as I2; rewrite HF in I2.
    set (s2 := set_fds _ s1) in *.
    pose proof (refs_insert f (fds s) _ _ None Hf) as Rf.
    rewrite bool_decide_true, bool_decide_false in Rf by congruence; cbn [one] in Rf.
    destruct (file_decref_spec frontend_syscall _ s2 f _ I2 X1)
        as (s3 & D3 & I3 & F3 & (x3 & X3 & K3) & H3);
      [rewrite !plus_self; lia|].
    rewrite D3; cbn [fds set_fds s2] in H3, F3; fold s2 in H3.
    rewrite !plus_self, Rf, (proj2 (Z.eqb_neq _ 1)) in H3 by lia.
    destruct (file_decref_spec frontend_syscall _ s3 f _ I3 X3)
        as (s4 & D4 & I4 & F4 & (x4 & X4 & _) & H4);
      [rewrite !plus_self; lia|].
    unfold kret; rewrite D4; exists f, x, s4; split; [reflexivity|]; split; [exact Hf|].
    split; [exact Hx|]; split; [rewrite F4; exact F3|]; split.
    { eapply refs_ok_ext; [|exact I4]; intros g; unfold plus; destruct (decide (g = f)); lia. }
    split; [rewrite X4; eexists; reflexivity|]; rewrite H4, F3, Rf, !plus_self, H3, K3; cbn [kfd];
      change (host s2) with (host s1); rewrite HH.
    replace (refs f (fds s) - 1 + 0 + (held f + 1 + 1 + -1)) with (refs f (fds s) + held f) by lia.
    reflexivity.
Qed.
Lemma err_value_neg x : IS_ERR_VALUE x = true -> i32 x < 0.
Proof.
  unfold IS_ERR_VALUE; rewrite Z.leb_le; intros V.
  unfold u64, wrap in V; unfold i32, swrap; change (-4096 mod 2 ^ 64) with (2 ^ 64 - 4096) in V.
  pose proof (Z.mod_pos_bound x (2 ^ 64) eq_refl);
    pose proof (Z.div_mod x (2 ^ 64) ltac:(lia)) as D.
  rewrite <- (Z.mod_unique_pos (x + 2 ^ (32 - 1)) (2 ^ 32) (x / 2 ^ 64 * 2 ^ 32 + 2 ^ 32)
                (x mod 2 ^ 64 - 2 ^ 64 + 2 ^ 31)); lia.
Qed.

(** Opening a file: on success its creation reference stays held; on failure the host is told
    to close whatever the slot of the file last stood for. *)
Lemma file_openat_spec {H} (frontend_syscall : Z -> list Z -> H ->
  Z * H) held s dirfd fn fn_size flags mode :
  refs_ok held s ->
  let (ret, h) := frontend_syscall SYS_openat [dirfd; fn; fn_size; flags; mode; 0; 0] (host s) in
  (file_openat frontend_syscall dirfd fn fn_size flags mode s = Some (inr (- ENOMEM), s)) \/
  exists f x s', files s !! f = Some x /\ refs f (fds s) = 0 /\ held f = 0 /\ fds s' = fds s /\
    if 0 <=? ret then
      file_openat frontend_syscall dirfd fn fn_size flags mode s = Some (inl f, s') /\
      refs_ok (plus held f 1) s' /\ host s' = h /\
      (exists x', files s' !! f = Some x' /\ kfd x' = i32 ret)
    else
      file_openat frontend_syscall dirfd fn fn_size flags mode s = Some (inr ret, s') /\
      refs_ok held s' /\ host s' = closed frontend_syscall (kfd x) h.
Proof.
  intros OK; destruct (frontend_syscall SYS_openat _ (host s)) as [ret h] eqn:E.
  unfold file_openat, kbind.
  destruct (file_get_free_spec held s OK) as [[G _]|(f & x & s1 & G & Hx & Z1 & Z2 & I1 & S1)];
    rewrite G.
  - left; reflexivity.
  - right; exists f, x; unfold frontend.
    assert (HH : host s1 = host s) by (rewrite S1; reflexivity); rewrite HH, E.
    assert (X1 : files s1 !! f = Some (File (kfd x) 2))
      by (rewrite S1; cbn; rewrite list_lookup_alter_eq, Hx; reflexivity).
    assert (HF : fds s1 = fds s) by (rewrite S1; reflexivity).
    destruct (0 <=? ret).
    + unfold put_kfd, kret; match goal with |- context [Some (inl f, ?s2)] => exists s2 end.
      split; [exact Hx|]; split; [exact Z1|]; split; [exact Z2|].
      split; [exact HF|]; split; [reflexivity|]; split; [apply refs_ok_kfd, refs_ok_host, I1|].
      split; [reflexivity|]; eexists; cbn; rewrite list_lookup_alter_eq, X1; split; reflexivity.
    + destruct (file_decref_spec frontend_syscall (plus held f 1) (set_host h s1) f _
                  (refs_ok_host _ _ _ I1) X1) as (s2 & D & I2 & F2 & _ & H2); [rewrite plus_self;
                    lia|].
      unfold kret; rewrite D; exists s2; do 3 (split; [assumption|]).
      split; [rewrite F2; exact HF|]; split; [reflexivity|]; split.
      * eapply refs_ok_ext; [|exact I2]; intros; symmetry; apply plus_undo.
      * rewrite H2; cbn [fds set_host host kfd]; rewrite HF, Z1, plus_self, Z2; reflexivity.
Qed.

Lemma sys_openat_spec {H} (frontend_syscall : Z -> list Z -> H ->
  Z * H) held s s' name name_size flags mode fd :
  refs_ok held s ->
  sys_openat frontend_syscall AT_FDCWD name name_size flags mode s = Some (fd, s') -> 0 <= fd ->
  exists f, refs f (fds s) = 0 /\ held f = 0 /\ fds s !! Z.to_nat fd = Some None /\
    fds s' = <[Z.to_nat fd := Some f]> (fds s) /\ refs_ok (plus held f 1) s'.
Proof.
  intros OK; unfold sys_openat, kbind, at_kfd; rewrite Z.eqb_refl; unfold kret at 1.
  change (negb (AT_FDCWD =? -1)) with true; cbv iota.
  pose proof (file_openat_spec frontend_syscall held s AT_FDCWD name name_size flags mode OK) as S.
  destruct (frontend_syscall SYS_openat _ (host s)) as [ret h].
  destruct S as [E|(f & x & s1 & Hx & Z1 & Z2 & F1 & S)].
  - rewrite E; change (IS_ERR_VALUE (- ENOMEM)) with true; change (i32 (- ENOMEM)) with (-12).
    unfold kret; intros [= <- <-]; lia.
  - destruct (Z.leb_spec 0 ret).
    + destruct S as (E & I1 & _ & x1 & X1 & _); rewrite E.
      destruct (file_dup_spec (plus held f 1) s1 f x1 I1 X1)
        as [[D _]|(i & s2 & D & Hi & F2 & _ & _ & I2)]; [rewrite F1, plus_self; lia| |]; rewrite D.
      * change (-1 <? 0) with true; cbv iota.
        destruct (file_decref_spec frontend_syscall _ s1 f x1 I1 X1) as (s3 & D3 & _);
          [rewrite plus_self; lia|].
        rewrite D3; unfold kret; intros [= <- <-]; unfold ENOMEM; lia.
      * rewrite (proj2 (Z.ltb_ge _ _)) by lia; unfold kret; intros [= <- <-] _.
        rewrite Nat2Z.id; rewrite F1 in Hi, F2; exists f; auto.
    + destruct S as (E & _); rewrite E; unfold kret; destruct (IS_ERR_VALUE ret) eqn:V;
        intros [= <- <-].
      pose proof (err_value_neg ret V); lia.
Qed.

(** Closing the only descriptor of a file with one more reference kept. *)
Lemma close_kept {H} (frontend_syscall : Z -> list Z -> H -> Z * H) held s fd f :
  refs_ok (plus held f 1) s -> (forall g, held g + 3 < 2 ^ 31) ->
  0 <= fd -> fds s !! Z.to_nat fd = Some (Some f) -> refs f (fds s) = 1 -> held f = 0 ->
  exists x s', sys_close frontend_syscall fd s = Some (0, s') /\ host s' = host s /\
    refs f (fds s') = 0 /\ files s' !! f = Some x /\ refcnt x = 2.
Proof.
  intros I1 R3 Hfd Hf C1 Z2.
  destruct (sys_close_spec frontend_syscall (plus held f 1) s fd I1)
    as [[_ N]|(f' & y & s2 & E2 & Hf' & Hy & F2 & I2 & [x X] & Hh)].
  - intros g; unfold plus; pose proof (R3 g); destruct (decide _); lia.
  - specialize (N f Hf); lia.
  - rewrite Hf in Hf'; injection Hf' as <-; rewrite C1, plus_self, Z2 in Hh.
    assert (C2 : refs f (fds s2) = 0).
    { rewrite F2, (refs_insert f _ _ _ _ Hf), bool_decide_true, bool_decide_false by congruence.
      cbn [one]; lia. }
    exists x, s2; repeat split; try assumption.
    rewrite (ok_count _ _ I2 f x X), C2, plus_self, Z2; reflexivity.
Qed.

(** A call that names a file in a directory keeps a reference to the directory. *)
Lemma on_dir_spec {H} (frontend_syscall : Z -> list Z -> H -> Z * H) held s n fd args f x :
  refs_ok held s -> (forall g, held g + 3 < 2 ^ 31) ->
  0 <= fd -> fds s !! Z.to_nat fd = Some (Some f) -> files s !! f = Some x -> kfd x <> -1 ->
  exists r s', on_dir frontend_syscall n fd args s = Some (r, s') /\ fds s' = fds s /\
    refs_ok (plus held f 1) s'.
Proof.
  intros OK R3 Hfd Hf Hx K; unfold on_dir, at_kfd, kbind.
  rewrite (proj2 (Z.eqb_neq fd AT_FDCWD)) by (unfold AT_FDCWD; lia).
  destruct (file_get_spec held s fd OK) as [[_ N]|(g & y & s1 & E & Hg & _ & Hy & I1 & S1)];
    [intros g; pose proof (R3 g); lia | specialize (N f Hf); lia|].
  rewrite Hf in Hg; injection Hg as <-; rewrite Hx in Hy; injection Hy as <-; rewrite E.
  assert (X1 : files s1 !! f = Some (File (kfd x) (u32 (refcnt x + 1))))
    by (rewrite S1; cbn; rewrite list_lookup_alter_eq, Hx; reflexivity).
  assert (HF : fds s1 = fds s) by (rewrite S1; reflexivity).
  unfold get_file, kret; rewrite X1; cbn [kfd].
  rewrite (proj2 (Z.eqb_neq (kfd x) (-1))) by exact K; cbn [negb]; unfold frontend.
  destruct (frontend_syscall n _ (host s1)) as [r h]; eexists _, _; split; [reflexivity|].
  split; [exact HF | apply refs_ok_host, I1].
Qed.

(** ** Theorems *)

(** [close] and the host.  Closing a descriptor frees its entry; the host is told to close
    the file exactly when that was the last reference to it, and the file is free then. *)
Lemma close_last_reference {H} (frontend_syscall : Z -> list Z -> H -> Z * H) held s fd f x :
  refs_ok held s -> (forall g, held g + 2 < 2 ^ 31) ->
  0 <= fd -> fds s !! Z.to_nat fd = Some (Some f) -> files s !! f = Some x ->
  exists s' x', sys_close frontend_syscall fd s = Some (0, s') /\
    fds s' = <[Z.to_nat fd := None]> (fds s) /\ files s' !! f = Some x' /\
    if refs f (fds s) + held f =? 1
    then host s' = closed frontend_syscall (kfd x) (host s) /\ refcnt x' = 0
    else host s' = host s /\ 0 < refcnt x'.
Proof.
  intros OK R2 Hfd Hf Hx.
  destruct (sys_close_spec frontend_syscall held s fd OK R2)
    as [[_ N]|(f' & y & s' & E & Hf' & Hy & F & I & [x' X] & Hh)]; [specialize (N f Hf); lia|].
  rewrite Hf in Hf'; injection Hf' as <-; rewrite Hx in Hy; injection Hy as <-.
  exists s', x'; split; [exact E|]; split; [exact F|]; split; [exact X|].
  pose proof (ok_count _ _ I f x' X) as C; rewrite F, (refs_insert f _ _ _ None Hf) in C.
  rewrite bool_decide_true, bool_decide_false in C by congruence; cbn [one] in C.
  pose proof (refs_pos _ _ _ Hf); pose proof (ok_held _ _ OK f); unfold count in C.
  destruct (Z.eqb_spec (refs f (fds s) + held f) 1); split; try exact Hh.
  - rewrite (proj2 (Z.eqb_eq _ 0)) in C by lia; exact C.
  - rewrite (proj2 (Z.eqb_neq _ 0)) in C by lia; lia.
Qed.

(** C20: the reference counts are exact.  While every count is one more than the descriptors
    and the held references to its file (or 0 without any), the calls on a descriptor, [dup]
    and [close] never fail an assertion and leave it so, with the same references held: no
    descriptor refers to a file that is closed.  Closing a descriptor frees its entry; the host
    is told to close the file exactly when that was the last reference to it, and the file is
    free then. *)
Theorem descriptor_calls_correct {H} (frontend_syscall : Z -> list Z -> H -> Z * H) held s fd :
  refs_ok held s -> (forall f, held f + 2 < 2 ^ 31) ->
  (forall conv n args, exists r s',
     on_file frontend_syscall conv n fd args s = Some (r, s') /\ refs_ok held s') /\
  (exists r s', sys_dup frontend_syscall fd s = Some (r, s') /\ refs_ok held s') /\
  (exists r s', sys_close frontend_syscall fd s = Some (r, s') /\ refs_ok held s') /\
  (forall f x, 0 <= fd -> fds s !! Z.to_nat fd = Some (Some f) -> files s !! f = Some x ->
   exists s' x', sys_close frontend_syscall fd s = Some (0, s') /\
     fds s' = <[Z.to_nat fd := None]> (fds s) /\ files s' !! f = Some x' /\
     if refs f (fds s) + held f =? 1
     then host s' = closed frontend_syscall (kfd x) (host s) /\ refcnt x' = 0
     else host s' = host s /\ 0 < refcnt x').
Proof.
  intros OK R2; assert (R : room held) by (intros f; pose proof (R2 f); lia); split; [|split;
    [|split]].
  - intros conv n args.
    destruct (on_file_spec frontend_syscall held s OK R conv n fd args) as (r1 & s1 & E1 & I1 & _).
    eauto.
  - destruct (sys_dup_spec frontend_syscall held s OK R fd) as (r2 & s2 & E2 & I2 & _); eauto.
  - destruct (sys_close_spec frontend_syscall held s fd OK R2)
      as [[E3 _]|(f & x & s3 & E3 & _ & _ & _ & I3 & _)]; eauto.
  - intros f x; exact (close_last_reference frontend_syscall held s fd f x OK R2).
Qed.

(** Opened files are never closed.  [sys_openat] does not give back the reference the file
    is created with, which only its error path does: when the descriptor
    of a file just opened is closed, the host is not told, and the file stays allocated with
    no descriptor for it. *)
Lemma open_close_leaks {H} (frontend_syscall : Z -> list Z -> H -> Z * H) held s s1
    name name_size flags mode fd :
  refs_ok held s -> (forall g, held g + 3 < 2 ^ 31) ->
  sys_openat frontend_syscall AT_FDCWD name name_size flags mode s = Some (fd, s1) -> 0 <= fd ->
  exists f x s2, sys_close frontend_syscall fd s1 = Some (0, s2) /\ host s2 = host s1 /\
    refs f (fds s2) = 0 /\ files s2 !! f = Some x /\ refcnt x = 2.
Proof.
  intros OK R3 E Hfd; destruct (sys_openat_spec _ _ _ _ _ _ _ _ _ OK E Hfd)
      as (f & Z1 & Z2 & Hi & F1 & I1).
  assert (Hf : fds s1 !! Z.to_nat fd = Some (Some f)).
  { rewrite F1, list_lookup_insert_eq; [reflexivity | apply lookup_lt_Some in Hi; exact Hi]. }
  assert (C1 : refs f (fds s1) = 1).
  { rewrite F1, (refs_insert f _ _ _ _ Hi), bool_decide_false, bool_decide_true by congruence.
    cbn [one]; lia. }
  destruct (close_kept frontend_syscall held s1 fd f I1 R3 Hfd Hf C1 Z2)
      as (x & s2 & ? & ? & ? & ? & ?).
  exists f, x, s2; auto.
Qed.

(** And neither are directories.  [at_kfd] keeps the reference it takes: after one call that
    names a file relative to a descriptor, closing that descriptor, the only one of its file,
    does not close the file on the host. *)
Lemma directory_never_closed {H} (frontend_syscall : Z -> list Z -> H -> Z * H) held s
    n fd args f x :
  refs_ok held s -> (forall g, held g + 3 < 2 ^ 31) ->
  0 <= fd -> fds s !! Z.to_nat fd = Some (Some f) -> files s !! f = Some x -> kfd x <> -1 ->
  refs f (fds s) = 1 -> held f = 0 ->
  exists r s1 s2, on_dir frontend_syscall n fd args s = Some (r, s1) /\
    sys_close frontend_syscall fd s1 = Some (0, s2) /\ host s2 = host s1 /\
    refs f (fds s2) = 0 /\ exists y, files s2 !! f = Some y /\ refcnt y = 2.
Proof.
  intros OK R3 Hfd Hf Hx K C1 Z2.
  destruct (on_dir_spec frontend_syscall held s n fd args f x OK R3 Hfd Hf Hx K)
    as (r & s1 & E1 & F1 & I1).
  rewrite <- F1 in Hf, C1.
  destruct (close_kept frontend_syscall held s1 fd f I1 R3 Hfd Hf C1 Z2)
      as (y & s2 & E2 & Hh & C2 & Y & Cy).
  exists r, s1, s2; repeat split; try assumption; exists y; auto.
Qed.

(** C38: files are not closed.  [sys_openat] does not give back the reference a file is created
    with, which only its error path does: when the descriptor of a file just opened is closed, the
    host is not told, and the file stays allocated with no descriptor for it.  [at_kfd] keeps the
    reference it takes: after one call that names a file relative to a descriptor, closing that
    descriptor, the only one of its file, does not close the file on the host. *)
Theorem files_not_closed {H} (frontend_syscall : Z -> list Z -> H -> Z * H) held s :
  refs_ok held s -> (forall g, held g + 3 < 2 ^ 31) ->
  (forall name name_size flags mode fd s1,
   sys_openat frontend_syscall AT_FDCWD name name_size flags mode s = Some (fd, s1) -> 0 <= fd ->
   exists f x s2, sys_close frontend_syscall fd s1 = Some (0, s2) /\ host s2 = host s1 /\
     refs f (fds s2) = 0 /\ files s2 !! f = Some x /\ refcnt x = 2) /\
  (forall n fd args f x,
   0 <= fd -> fds s !! Z.to_nat fd = Some (Some f) -> files s !! f = Some x -> kfd x <> -1 ->
   refs f (fds s) = 1 -> held f = 0 ->
   exists r s1 s2, on_dir frontend_syscall n fd args s = Some (r, s1) /\
     sys_close frontend_syscall fd s1 = Some (0, s2) /\ host s2 = host s1 /\
     refs f (fds s2) = 0 /\ exists y, files s2 !! f = Some y /\ refcnt y = 2).
Proof.
  intros OK R3; split; intros.
  - eapply open_close_leaks; eassumption.
  - eapply directory_never_closed; eassumption.
Qed.

(** A host that gives out a descriptor per call and counts the calls. *)
Definition counter (n : Z) (args : list Z) (h : Z) : Z * Z := (h, h + 1).

(** The state [file_init] leaves. *)
Definition started : pk Z :=
  match file_init (boot 3) with Some (_, s) => s | None => boot 0 end.

Definition standard (f : nat) : Z := if decide (f < 3)%nat then 1 else 0.

Lemma started_ok : refs_ok standard started.
Proof.
  assert (Ef : fds started = Some 0%nat :: Some 1%nat :: Some 2%nat :: replicate 125 None)
    by (vm_compute; reflexivity).
  assert (Es : files started = File 0 3 :: File 1 3 :: File 2 3 :: replicate 125 (File (-1) 0))
    by (vm_compute; reflexivity).
  assert (N : forall f k, refs f (replicate k None) = 0) by (intros f k; induction k; [|cbn;
    exact IHk]; reflexivity).
  assert (Rf : forall f, refs f (fds started) = standard f).
  { intros f; rewrite Ef; cbn [refs]; rewrite N; unfold standard, one.
    repeat case_bool_decide; destruct (decide _); simplify_eq; try lia.
    destruct f as [|[|[|]]]; simplify_eq; lia. }
  split.
  - rewrite Ef; reflexivity.
  - rewrite Ef, Es; generalize 125%nat; intros k [|[|[|i]]] f; cbn; [intros [= <-]; eexists;
      reflexivity..|].
    intros E; apply lookup_replicate in E as [E _]; discriminate.
  - intros f; unfold standard; destruct (decide _); lia.
  - intros f x; rewrite Rf, Es; unfold standard; generalize 125%nat; intros k.
    destruct f as [|[|[|f]]]; cbn; [intros [= <-]; reflexivity..|].
    intros E; apply lookup_replicate in E as [-> _]; destruct (decide _); [lia | reflexivity].
Qed.

(** And one with a file open on descriptor 3 that nothing else refers to. *)
Definition opened : pk Z :=
  Pk (<[3%nat := Some 3%nat]> (fds started)) (<[3%nat := File 7 2]> (files started)) (host started).

Lemma opened_ok : refs_ok standard opened.
Proof.
  destruct started_ok as [L T B C].
  assert (Hi : fds started !! 3%nat = Some None) by (vm_compute; reflexivity).
  assert (Hj : files started !! 3%nat = Some (File (-1) 0)) by (vm_compute; reflexivity).
  split; cbn [fds files host opened].
  - rewrite length_insert; exact L.
  - intros i f E; destruct (decide (f = 3%nat)) as [->|N].
    + rewrite list_lookup_insert_eq; [eexists; reflexivity | apply lookup_lt_Some in Hj; exact Hj].
    + rewrite list_lookup_insert_ne by congruence.
      destruct (decide (i = 3%nat)) as [->|M]; [|rewrite list_lookup_insert_ne in E by congruence;
        eauto].
      rewrite list_lookup_insert_eq in E by (apply lookup_lt_Some in Hi; exact Hi); congruence.
  - exact B.
  - intros f x E; rewrite (refs_insert f _ _ _ _ Hi), bool_decide_false by discriminate.
    destruct (decide (f = 3%nat)) as [->|N].
    + rewrite list_lookup_insert_eq in E by (apply lookup_lt_Some in Hj; exact Hj).
      injection E as <-; vm_compute; reflexivity.
    + rewrite list_lookup_insert_ne in E by congruence; rewrite bool_decide_false by congruence.
      cbn [one]; rewrite Z.sub_0_r, Z.add_0_r; exact (C f x E).
Qed.

Lemma standard_small k f : k <= 3 -> standard f + k < 2 ^ 31.
Proof. unfold standard; destruct (decide _); lia. Qed.

Lemma descriptor_calls_correct_witness :
  (exists r s', sys_dup counter 1 started = Some (r, s') /\ refs_ok standard s') /\
  exists s' x', sys_close counter 1 started = Some (0, s') /\ files s' !! 1%nat = Some x' /\
    host s' = 3 /\ 0 < refcnt x'.
Proof.
  destruct (descriptor_calls_correct counter standard started 1 started_ok) as (_ & D & _ & C);
    [intros f; apply standard_small; lia|]; split; [exact D|].
  destruct (C 1%nat (File 1 3)) as (s' & x' & E & _ & X & L); [lia | vm_compute; reflexivity..|].
  replace (refs 1 (fds started) + standard 1 =? 1) with false in L by (vm_compute; reflexivity).
  destruct L as [C1 C2]; exists s', x'; repeat split; [exact E | exact X | | exact C2].
  rewrite C1; vm_compute; reflexivity.
Defined.

Lemma files_not_closed_witness :
  (exists f x s1 s2, sys_openat counter AT_FDCWD 0 5 0 0 started = Some (3, s1) /\
    sys_close counter 3 s1 = Some (0, s2) /\ host s2 = host s1 /\
    files s2 !! f = Some x /\ refcnt x = 2) /\
  (exists s r s1 s2 y, on_dir counter SYS_unlinkat 3 [0; 5; 0; 0; 0; 0] s = Some (r, s1) /\
    sys_close counter 3 s1 = Some (0, s2) /\ host s2 = host s1 /\
    files s2 !! 3%nat = Some y /\ refcnt y = 2).
Proof.
  assert (R : forall f, standard f + 3 < 2 ^ 31) by (intros f; apply standard_small; lia).
  split.
  - destruct (sys_openat counter AT_FDCWD 0 5 0 0 started) as [[fd s1]|] eqn:E;
      [|discriminate (eq_sym E)].
    assert (fd = 3) as -> by (vm_compute in E; congruence).
    destruct (proj1 (files_not_closed counter standard started started_ok R) 0 5 0 0 3 s1 E)
      as (f & x & s2 & E2 & Hh & _ & X & C); [lia|].
    exists f, x, s1, s2; auto.
  - destruct (proj2 (files_not_closed counter standard opened opened_ok R)
                SYS_unlinkat 3 [0; 5; 0; 0; 0; 0] 3%nat (File 7 2))
      as (r & s1 & s2 & E1 & E2 & Hh & _ & y & Y & C);
      [lia | vm_compute; reflexivity | vm_compute; reflexivity | cbn; lia
      | vm_compute; reflexivity | vm_compute; reflexivity|].
    exists opened, r, s1, s2, y; repeat split; assumption.
Defined.
