(* ===== verification/CString.v ===== *)
(** * Memory and byte strings ([util/string.c])

    Memory is a byte for every address; the words that [memcpy] and [memset] move are eight
    of them, little-endian.  A loop is a recursion with fuel: the one of [memcpy] and [memset]
    is given by the length, that of the string functions is a parameter, and the theorems
    show that any fuel larger than the length of the strings is enough. *)

From S2P Require Import Prelude.
From Stdlib Require Import ZArith Lia Bool List.
Import ListNotations.
#[local] Open Scope c_scope.

(** ** Memory *)

Definition memory : Type := Z -> Z.

Definition store8 (m : memory) (a v : Z) : memory := fun x => if x =? a then u8 v else m x.

Fixpoint load_le (m : memory) (a : Z) (k : nat) : Z :=
  match k with O => 0 | S k => m a + 2 ^ 8 * load_le m (a + 1) k end.

Fixpoint store_le (m : memory) (a v : Z) (k : nat) : memory :=
  match k with O => m | S k => store_le (store8 m a v) (a + 1) (v / 2 ^ 8) k end.

(** Accesses through a [uintptr_t *]. *)
Definition load64 (m : memory) (a : Z) : Z := load_le m a 8.
Definition store64 (m : memory) (a v : Z) : memory := store_le m a v 8.

(** ** Loops *)

Fixpoint while {S} (fuel : nat) (test : S -> bool) (body : S -> S) (s : S) : option S :=
  match fuel with
  | O => None
  | Datatypes.S fuel => if test s then while fuel test body (body s) else Some s
  end.

Notation "'let?' x ':=' e 'in' k" := (match e with Some x => k | None => None end)
  (at level 10, x pattern, e at level 100, k at level 200).

(** ** [string.c] *)

Definition memcpy (m : memory) (dest src len : Z) : option (Z * memory) :=
  let fuel := S (Z.to_nat len) in
  let start := (m, dest, src) in
  let? st :=
    if (dest .| src) .& 7 =? 0 then
      while fuel (fun '(_, d, _) => d <? u64 (dest + len - 7))
        (fun '(m, d, s) => (store64 m d (load64 m s), u64 (d + 8), u64 (s + 8))) start
    else Some start in
  let? (m, _, _) :=
    while fuel (fun '(_, d, _) => d <? u64 (dest + len))
      (fun '(m, d, s) => (store8 m d (m s), u64 (d + 1), u64 (s + 1))) st in
  Some (dest, m).

Definition memset_word (byte : Z) : Z :=
  let word := byte .& 0xFF in
  let word := word .| u64 (word .<< 8) in
  let word := word .| u64 (word .<< 16) in
  word .| u64 (u64 (word .<< 16) .<< 16).

Definition memset (m : memory) (dest byte len : Z) : option (Z * memory) :=
  let fuel := S (Z.to_nat len) in
  let? (m, _) :=
    if (dest .| len) .& 7 =? 0 then
      while fuel (fun '(_, d) => d <? u64 (dest + len))
        (fun '(m, d) => (store64 m d (memset_word byte), u64 (d + 8))) (m, dest)
    else
      while fuel (fun '(_, d) => d <? u64 (dest + len))
        (fun '(m, d) => (store8 m d byte, u64 (d + 1))) (m, dest) in
  Some (dest, m).

Definition strlen (fuel : nat) (m : memory) (s : Z) : option Z :=
  let? p := while fuel (fun p => nz (m p)) (fun p => p + 1) s in Some (p - s).

Fixpoint strcmp (fuel : nat) (m : memory) (s1 s2 : Z) : option Z :=
  match fuel with
  | O => None
  | S fuel =>
      let c1 := m s1 in
      let c2 := m s2 in
      if negb (c1 =? 0) && (c1 =? c2) then strcmp fuel m (s1 + 1) (s2 + 1) else Some (c1 - c2)
  end.

Fixpoint strcpy_loop (fuel : nat) (m : memory) (d src : Z) : option memory :=
  match fuel with
  | O => None
  | S fuel =>
      let c := m src in
      let m := store8 m d c in
      if nz c then strcpy_loop fuel m (d + 1) (src + 1) else Some m
  end.

Definition strcpy (fuel : nat) (m : memory) (dest src : Z) : option (Z * memory) :=
  let? m := strcpy_loop fuel m dest src in Some (dest, m).

(** A [long], or nothing when signed arithmetic overflows. *)
Definition long (x : Z) : option Z := if (- 2 ^ 63 <=? x) && (x <? 2 ^ 63) then Some x else None.

Fixpoint atol_digits (fuel : nat) (m : memory) (str res : Z) : option Z :=
  match fuel with
  | O => None
  | S fuel =>
      if nz (m str) then
        let? res := long (res * 10) in
        let? res := long (res + (m str - 48)) in
        atol_digits fuel m (str + 1) res
      else Some res
  end.

Definition atol (fuel : nat) (m : memory) (str : Z) : option Z :=
  let? str := while fuel (fun p => m p =? 32) (fun p => p + 1) str in
  let signed := (m str =? 45) || (m str =? 43) in
  let sign := m str =? 45 in
  let? res := atol_digits fuel m (if signed then str + 1 else str) 0 in
  if sign then long (- res) else Some res.

(** ** Loops terminate *)

(** A loop of [k] iterations, with what holds of the state before each of them. *)
Lemma while_inv {S} (test : S -> bool) body (R : Z -> S -> Prop) k fuel s :
  (forall i s, 0 <= i < k -> R i s -> test s = true /\ R (i + 1) (body s)) ->
  (forall s, R k s -> test s = false) -> 0 <= k < Z.of_nat fuel -> R 0 s ->
  exists s', while fuel test body s = Some s' /\ R k s'.
Proof.
  intros B E K R0.
  enough (G : forall fuel i s, 0 <= i <= k -> k - i < Z.of_nat fuel -> R i s ->
            exists s', while fuel test body s = Some s' /\ R k s') by (apply (G fuel 0); auto; lia).
  clear fuel s K R0; induction fuel as [|fuel IH]; intros i s Hi F Rs; [lia|]; cbn [while].
  destruct (Z.eq_dec i k) as [->|N]; [rewrite (E s Rs); eauto|].
  destruct (B i s ltac:(lia) Rs) as [-> R']; apply (IH (i + 1)); auto; lia.
Qed.

(** ** Regions of memory *)

Definition bytes (m : memory) : Prop := forall a, 0 <= m a < 256.

Definition inside (a lo len : Z) : bool := (lo <=? a) && (a <? lo + len).

(** [m] with the [len] bytes at [lo] given by [f], from their offset. *)
Definition patched (m : memory) (lo len : Z) (f : Z -> Z) (m' : memory) : Prop :=
  forall a, m' a = if inside a lo len then f (a - lo) else m a.

Ltac regions :=
  unfold inside in *;
  repeat match goal with
         | |- context [?x <=? ?y] => destruct (Z.leb_spec x y); cbn [andb]
         | |- context [?x <? ?y] => destruct (Z.ltb_spec x y); cbn [andb]
         | |- context [?x =? ?y] => destruct (Z.eqb_spec x y); cbn [andb]
         end; try lia.

Lemma u8_byte x : 0 <= x < 256 -> u8 x = x.
Proof. intros; unfold u8, wrap; apply Z.mod_small; lia. Qed.

Lemma patched_0 m lo f : patched m lo 0 f m.
Proof. intros a; regions; reflexivity. Qed.

Lemma patched_store8 m lo k f m' v :
  patched m lo k f m' -> 0 <= k -> u8 v = f k -> patched m lo (k + 1) f (store8 m' (lo + k) v).
Proof.
  intros P K E a; unfold store8; rewrite (P a); regions; subst; rewrite ?E; f_equal; lia.
Qed.

Lemma patched_outside m lo k f m' a : patched m lo k f m' -> inside a lo k = false -> m' a = m a.
Proof. intros P E; rewrite (P a), E; reflexivity. Qed.

Lemma patched_bytes m lo k f m' :
  patched m lo k f m' -> bytes m -> (forall i, 0 <= i < k -> 0 <= f i < 256) -> bytes m'.
Proof. intros P B F a; rewrite (P a); regions; auto; apply F; lia. Qed.

(** Storing a word stores its bytes. *)
Lemma patched_store_le m lo f j : forall k m' v,
  patched m lo k f m' -> 0 <= k ->
  (forall i, 0 <= i < Z.of_nat j -> u8 (v / 2 ^ (8 * i)) = f (k + i)) ->
  patched m lo (k + Z.of_nat j) f (store_le m' (lo + k) v j).
Proof.
  induction j as [|j IH]; intros k m' v P K E; [rewrite Z.add_0_r; exact P|]; cbn [store_le].
  rewrite <- Z.add_assoc; replace (k + Z.of_nat (S j)) with (k + 1 + Z.of_nat j) by lia.
  apply IH; [|lia|].
  - apply patched_store8; auto; pose proof (E 0 ltac:(lia)) as E0.
    rewrite Z.mul_0_r, Z.div_1_r, Z.add_0_r in E0; exact E0.
  - intros i Hi; rewrite Z.div_div, <- Z.pow_add_r by lia.
    replace (k + 1 + i) with (k + (i + 1)) by lia; rewrite <- (E (i + 1) ltac:(lia)).
    do 3 f_equal; lia.
Qed.

(** The bytes of a loaded word. *)
Lemma load_le_byte m j : bytes m -> forall a i, 0 <= i < Z.of_nat j ->
  u8 (load_le m a j / 2 ^ (8 * i)) = m (a + i).
Proof.
  intros B; induction j as [|j IH]; intros a i Hi; [lia|]; cbn [load_le].
  destruct (Z.eq_dec i 0) as [->|N].
  - rewrite Z.mul_0_r, Z.div_1_r, Z.add_0_r; unfold u8, wrap.
    rewrite Z.mul_comm, Z_mod_plus_full; apply Z.mod_small, B.
  - replace (8 * i) with (8 + 8 * (i - 1)) by lia; rewrite Z.pow_add_r, <- Z.div_div by lia.
    rewrite (Z.mul_comm (2 ^ 8)), Z.div_add, (Z.div_small (m a)) by (try lia; apply B).
    rewrite Z.add_0_l, IH by lia; f_equal; lia.
Qed.

(** ** [memcpy] and [memset] *)

Definition disjoint (a la b lb : Z) : Prop := a + la <= b \/ b + lb <= a.

Section Copy.
Context (m : memory) (dest src len : Z).
Context (B : bytes m) (Hd : 8 <= dest) (Hl : 0 <= len).
Context (Hde : dest + len <= 2 ^ 64 - 8) (Hs : 0 <= src) (Hse : src + len <= 2 ^ 64 - 8).
Context (D : disjoint dest len src len).

Let from (i : Z) : Z := m (src + i).

(** After [i] bytes. *)
Let copied (i : Z) (st : memory * Z * Z) : Prop :=
  let '(m', d, s) := st in patched m dest i from m' /\ d = dest + i /\ s = src + i /\ 0 <= i <= len.

Let load_copied i m' j :
  patched m dest i from m' -> 0 <= i -> 0 <= j -> i + j < len -> m' (src + i + j) = from (i + j).
Proof.
  intros P Hi Hj Hk; rewrite (P (src + i + j)); unfold from.
  destruct D; regions; f_equal; lia.
Qed.
Let from_range i : 0 <= from i < 256.
Proof. apply B. Qed.

Lemma memcpy_words :
  exists st, while (S (Z.to_nat len)) (fun '(_, d, _) => d <? u64 (dest + len - 7))
    (fun '(m, d, s) => (store64 m d (load64 m s), u64 (d + 8), u64 (s + 8))) (m, dest, src) = Some st /\
    copied (8 * (len / 8)) st.
Proof using All.
  pose proof (Z.mod_pos_bound len 8 ltac:(lia)); pose proof (Z.div_mod len 8 ltac:(lia)).
  apply (while_inv _ _ (fun i => copied (8 * i)) (len / 8)); [| |lia|].
  - intros i [[m' d] s] Hi (P & -> & -> & Hk); rewrite !u64_small by lia.
    split; [apply Z.ltb_lt; lia|]; unfold copied; rewrite <- !Z.add_assoc.
    replace (8 * (i + 1)) with (8 * i + 8) by lia; repeat split; try lia.
    apply (patched_store_le m dest from 8 (8 * i)); [exact P | lia|]; intros j Hj.
    unfold load64; rewrite load_le_byte; [apply load_copied; auto; lia | | lia].
    eapply patched_bytes; eauto.
  - intros [[m' d] s] (P & -> & -> & Hk); rewrite u64_small by lia; apply Z.ltb_ge; lia.
  - repeat split; rewrite ?Z.mul_0_r, ?Z.add_0_r; try lia; apply patched_0.
Qed.

Lemma copy_bytes i st : copied i st ->
  exists st', while (S (Z.to_nat len)) (fun '(_, d, _) => d <? u64 (dest + len))
    (fun '(m, d, s) => (store8 m d (m s), u64 (d + 1), u64 (s + 1))) st = Some st' /\
      copied len st'.
Proof using All.
  intros C; assert (Hi : 0 <= i <= len) by (destruct st as [[] ?], C as (_ & _ & _ & ?);
    assumption).
  destruct (while_inv (fun '(_, d, _) => d <? u64 (dest + len))
    (fun '(m, d, s) => (store8 m d (m s), u64 (d + 1), u64 (s + 1)))
    (fun j => copied (i + j)) (len - i) (S (Z.to_nat len)) st) as (st' & W & C').
  - intros j [[m' d] s] Hj (P & -> & -> & Hk); rewrite !u64_small by lia.
    split; [apply Z.ltb_lt; lia|]; unfold copied; rewrite Z.add_assoc; repeat split; try lia.
    apply patched_store8; [exact P | lia|].
    rewrite <- (Z.add_0_r (src + _)), load_copied, Z.add_0_r by (auto; lia);
      apply u8_byte, from_range.
  - intros [[m' d] s] (P & -> & -> & Hk); rewrite u64_small by lia; apply Z.ltb_ge; lia.
  - lia.
  - rewrite Z.add_0_r; exact C.
  - exists st'; split; [exact W|]; replace len with (i + (len - i)) by lia; exact C'.
Qed.

Lemma memcpy_spec : exists m', memcpy m dest src len = Some (dest, m') /\
  patched m dest len from m'.
Proof using All.
  unfold memcpy.
  assert (W : exists i st, (if (dest .| src) .& 7 =? 0 then
      while (S (Z.to_nat len)) (fun '(_, d, _) => d <? u64 (dest + len - 7))
        (fun '(m, d, s) => (store64 m d (load64 m s), u64 (d + 8), u64 (s + 8))) (m, dest, src)
    else Some (m, dest, src)) = Some st /\ copied i st).
  { destruct (_ =? 0).
    - destruct memcpy_words as (st & E & C); eauto.
    - exists 0; eexists; split; [reflexivity|]; repeat split; rewrite ?Z.add_0_r; try lia;
        apply patched_0. }
  destruct W as (i & st & -> & C); destruct (copy_bytes i st C) as ([[m' d] s] & -> & P & _); eauto.
Qed.
End Copy.

(** The word of [memset] holds its byte eight times. *)
Lemma memset_word_spec byte : memset_word byte = u8 byte * 0x0101010101010101.
Proof.
  unfold memset_word; change 0xFF with (2 ^ 8 - 1); rewrite land_ones_mod by lia.
  fold (wrap 8 byte); fold (u8 byte).
  assert (Hb : 0 <= u8 byte < 2 ^ 8) by (apply Z.mod_pos_bound; lia); set (b := u8 byte) in *.
  assert (E : forall w x, 0 < w -> 0 <= x < 2 ^ w -> x * 2 ^ w < 2 ^ 64 ->
    x .| u64 (x .<< w) = x * (2 ^ w + 1)).
  { intros w x Hw Hx Hm; rewrite shiftl_mul, u64_small by lia.
    rewrite Z.lor_comm, lor_add_disjoint by lia; lia. }
  rewrite (E 8) by lia; rewrite (E 16) by lia; set (x := b * (2 ^ 8 + 1) * (2 ^ 16 + 1)).
  assert (0 <= x < 2 ^ 32) by lia; rewrite (shiftl_mul x), (u64_small (x * 2 ^ 16)) by lia.
  rewrite shiftl_mul, u64_small by lia; replace (x * 2 ^ 16 * 2 ^ 16) with (x * 2 ^ 32) by lia.
  rewrite Z.lor_comm, lor_add_disjoint by lia; subst x; lia.
Qed.

Lemma memset_word_byte byte i : 0 <= i < 8 -> u8 (memset_word byte / 2 ^ (8 * i)) = u8 byte.
Proof.
  intros Hi; rewrite memset_word_spec; assert (Hb : 0 <= u8 byte < 2 ^ 8) by (apply Z.mod_pos_bound; lia).
  unfold u8 at 1, wrap; generalize dependent (u8 byte); intros b Hb.
  assert (G : forall h l p, 0 < p -> 0 <= l * 255 < p ->
    (b * ((h * 256 + 1) * p + l) / p) mod 256 = b).
  { intros h l p Hp Hl; replace (b * ((h * 256 + 1) * p + l)) with (b * (h * 256 + 1) * p + b * l) by lia.
    rewrite Z.div_add_l, (Z.div_small (b * l)) by nia.
    replace (b * (h * 256 + 1) + 0) with (b + b * h * 256) by lia; rewrite Z_mod_plus_full.
    apply Z.mod_small; lia. }
  assert (C : i = 0 \/ i = 1 \/ i = 2 \/ i = 3 \/ i = 4 \/ i = 5 \/ i = 6 \/ i = 7) by lia.
  destruct C as [->|[->|[->|[->|[->|[->|[->| ->]]]]]]];
    [apply (G 0x01010101010101 0 (2 ^ (8 * 0))) | apply (G 0x010101010101 0x01 (2 ^ (8 * 1)))
    | apply (G 0x0101010101 0x0101 (2 ^ (8 * 2))) | apply (G 0x01010101 0x010101 (2 ^ (8 * 3)))
    | apply (G 0x010101 0x01010101 (2 ^ (8 * 4))) | apply (G 0x0101 0x0101010101 (2 ^ (8 * 5)))
    | apply (G 0x01 0x010101010101 (2 ^ (8 * 6))) | apply (G 0 0x01010101010101 (2 ^ (8 * 7)))];
    cbn; lia.
Qed.

Section Fill.
Context (m : memory) (dest byte len : Z).
Context (Hd : 0 <= dest) (Hl : 0 <= len) (Hde : dest + len <= 2 ^ 64 - 8).

Let filled (i : Z) (st : memory * Z) : Prop :=
  let '(m', d) := st in patched m dest i (fun _ => u8 byte) m' /\ d = dest + i /\ 0 <= i <= len.

Lemma memset_spec :
  exists m', memset m dest byte len = Some (dest, m') /\ patched m dest len (fun _ => u8 byte) m'.
Proof using All.
  assert (F0 : filled 0 (m, dest)) by (repeat split; try lia; apply patched_0).
  unfold memset; destruct (Z.eqb_spec ((dest .| len) .& 7) 0) as [A|_].
  - assert (Al : len mod 8 = 0).
    { change 7 with (2 ^ 3 - 1) in A; rewrite land_ones_mod in A by lia.
      apply Z.bits_inj'; intros i Hi; rewrite Z.bits_0.
      destruct (Z.ltb_spec i 3); [|apply Z.mod_pow2_bits_high with (n := 3); lia].
      pose proof (f_equal (fun x => Z.testbit x i) A) as T; cbn beta in T.
      rewrite Z.mod_pow2_bits_low, Z.lor_spec, Z.bits_0, orb_false_iff in T by lia.
      rewrite (Z.mod_pow2_bits_low len 3) by lia; tauto. }
    pose proof (Z.div_mod len 8 ltac:(lia)) as Dl; rewrite Al, Z.add_0_r in Dl; clear A Al.
    destruct (while_inv (fun '(_, d) => d <? u64 (dest + len))
      (fun '(m, d) => (store64 m d (memset_word byte), u64 (d + 8)))
      (fun i => filled (8 * i)) (len / 8) (S (Z.to_nat len)) (m, dest)) as ([m' d] & -> & P & _).
    + intros i [m' d] Hi (P & -> & Hk); rewrite !u64_small by lia; split; [apply Z.ltb_lt; lia|].
      unfold filled; replace (8 * (i + 1)) with (8 * i + 8) by lia; repeat split; try lia.
      apply (patched_store_le m dest _ 8 (8 * i)); [exact P | lia|]; intros;
        apply memset_word_byte; lia.
    + intros [m' d] (P & -> & Hk); rewrite u64_small by lia; apply Z.ltb_ge; lia.
    + lia.
    + exact F0.
    + exists m'; split; [reflexivity|]; replace len with (8 * (len / 8)) by lia; exact P.
  - destruct (while_inv (fun '(_, d) => d <? u64 (dest + len))
      (fun '(m, d) => (store8 m d byte, u64 (d + 1))) filled len (S (Z.to_nat len)) (m, dest))
      as ([m' d] & -> & P & _).
    + intros i [m' d] Hi (P & -> & Hk); rewrite !u64_small by lia; split; [apply Z.ltb_lt; lia|].
      repeat split; try lia; apply patched_store8; auto; lia.
    + intros [m' d] (P & -> & Hk); rewrite u64_small by lia; apply Z.ltb_ge; lia.
    + lia.
    + exact F0.
    + eauto.
Qed.
End Fill.

(** ** Strings *)

Definition zlen {A} (l : list A) : Z := Z.of_nat (length l).
Definition at_ (l : list Z) (i : Z) : Z := nth (Z.to_nat i) l 0.

(** The NUL-terminated string [l] at [a]. *)
Fixpoint cstring (m : memory) (a : Z) (l : list Z) : Prop :=
  match l with
  | [] => m a = 0
  | c :: l => m a = c /\ 0 < c < 256 /\ cstring m (a + 1) l
  end.

Lemma zlen_cons {A} (x : A) l : zlen (x :: l) = zlen l + 1.
Proof. unfold zlen; cbn [length]; lia. Qed.

Lemma zlen_app {A} (l l' : list A) : zlen (l ++ l') = zlen l + zlen l'.
Proof. unfold zlen; rewrite length_app; lia. Qed.

Lemma zlen_nonneg {A} (l : list A) : 0 <= zlen l.
Proof. unfold zlen; lia. Qed.

Lemma cstring_ext m m' l : forall a,
  (forall x, inside x a (zlen l + 1) = true -> m' x = m x) -> cstring m a l -> cstring m' a l.
Proof.
  induction l as [|c l IH]; intros a E; cbn [cstring].
  - intros <-; apply E; unfold zlen; cbn; regions; reflexivity.
  - pose proof (zlen_nonneg l); rewrite zlen_cons in E; intros (<- & Hc & Hl); split; [|split;
      [exact Hc|]].
    + apply E; regions; reflexivity.
    + apply IH; [|exact Hl]; intros x Hx; apply E; revert Hx; regions; congruence.
Qed.

Lemma strlen_spec m l : forall fuel s, cstring m s l -> (length l < fuel)%nat ->
  strlen fuel m s = Some (zlen l).
Proof.
  intros fuel s Hl F; unfold strlen.
  enough (G : forall fuel s, cstring m s l -> (length l < fuel)%nat ->
            while fuel (fun p => nz (m p)) (fun p => p + 1) s = Some (s + zlen l))
    by (rewrite G by assumption; f_equal; lia).
  clear fuel s Hl F; induction l as [|c l IH]; intros [|fuel] s Hl F; cbn in F, Hl; try lia;
    cbn [while].
  - rewrite Hl; unfold zlen; cbn; f_equal; lia.
  - destruct Hl as (E & Hc & Hl); unfold nz; rewrite E, (proj2 (Z.eqb_neq c 0)) by lia; cbn [negb].
    rewrite IH by (auto; lia); rewrite zlen_cons; f_equal; lia.
Qed.

(** The lexicographic order of strings of unsigned characters. *)
Fixpoint lex (l1 l2 : list Z) : comparison :=
  match l1, l2 with
  | [], [] => Eq
  | [], _ => Lt
  | _, [] => Gt
  | c1 :: l1, c2 :: l2 => match c1 ?= c2 with Eq => lex l1 l2 | o => o end
  end.

Lemma lex_eq l1 : forall l2, lex l1 l2 = Eq <-> l1 = l2.
Proof.
  induction l1 as [|c1 l1 IH]; intros [|c2 l2]; cbn; try (split; congruence).
  destruct (Z.compare_spec c1 c2) as [->| |]; [rewrite IH; split; congruence|..];
    split; try discriminate; intros [= -> _]; lia.
Qed.

Lemma strcmp_spec m l1 : forall l2 fuel s1 s2,
  cstring m s1 l1 -> cstring m s2 l2 -> (length l1 < fuel)%nat ->
  exists r, strcmp fuel m s1 s2 = Some r /\ (r ?= 0) = lex l1 l2.
Proof.
  induction l1 as [|c1 l1 IH]; intros l2 [|fuel] s1 s2 H1 H2 F; cbn in F, H1; try lia; cbn [strcmp].
  - rewrite H1; cbn; eexists; split; [reflexivity|].
    destruct l2 as [|c2 l2]; cbn in H2; [rewrite H2; reflexivity|].
    destruct H2 as (-> & Hc & _); apply Z.compare_lt_iff; lia.
  - destruct H1 as (-> & Hc & H1); rewrite (proj2 (Z.eqb_neq c1 0)) by lia; cbn [negb andb lex].
    destruct l2 as [|c2 l2]; cbn in H2.
    + rewrite H2, (proj2 (Z.eqb_neq c1 0)) by lia; eexists; split; [reflexivity|].
      apply Z.compare_gt_iff; lia.
    + destruct H2 as (-> & Hc2 & H2); destruct (Z.eqb_spec c1 c2) as [->|N].
      * rewrite Z.compare_refl; apply IH; auto; lia.
      * eexists; split; [reflexivity|].
        destruct (Z.compare_spec c1 c2), (Z.compare_spec (c1 - c2) 0); lia || reflexivity.
Qed.

Lemma strcpy_spec l : forall fuel m d src,
  cstring m src l -> disjoint d (zlen l + 1) src (zlen l + 1) -> (length l < fuel)%nat ->
  exists m', strcpy_loop fuel m d src = Some m' /\ cstring m' d l /\
    forall a, inside a d (zlen l + 1) = false -> m' a = m a.
Proof.
  induction l as [|c l IH]; intros [|fuel] m d src Hl D F; cbn in F, Hl; try lia; cbn [strcpy_loop].
  - rewrite Hl; eexists; split; [reflexivity|]; unfold zlen, store8; cbn; rewrite Z.eqb_refl.
    split; [reflexivity|]; intros a; regions; congruence.
  - destruct Hl as (-> & Hc & Hl); unfold nz; rewrite (proj2 (Z.eqb_neq c 0)) by lia; cbn [negb].
    rewrite zlen_cons in *; pose proof (zlen_nonneg l).
    destruct (IH fuel (store8 m d c) (d + 1) (src + 1)) as (m' & -> & Cl & O); [| |lia|].
    + apply (cstring_ext m); [|exact Hl]; intros x; unfold store8, disjoint in *; regions;
        congruence.
    + unfold disjoint in *; lia.
    + exists m'; split; [reflexivity|]; split.
      * split; [|split; [exact Hc | exact Cl]].
        rewrite O by (regions; reflexivity); unfold store8; rewrite Z.eqb_refl; apply u8_byte; lia.
      * intros a Ha; rewrite O by (revert Ha; regions; congruence).
        unfold store8; revert Ha; regions; congruence.
Qed.

(** ** Decimal numbers *)

Definition digit (d : Z) : Prop := 0 <= d < 10.

Definition value (ds : list Z) (acc : Z) : Z := fold_left (fun acc d => 10 * acc + d) ds acc.

(** The digits of [x], at most [fuel] of them. *)
Fixpoint digits_of (fuel : nat) (x : Z) : list Z :=
  match fuel with
  | O => []
  | S fuel => if x <? 10 then [x] else digits_of fuel (x / 10) ++ [x mod 10]
  end.

Definition decimal (x : Z) : list Z := digits_of 20 x.

Lemma digits_of_spec fuel : forall x, 0 <= x < 10 ^ Z.of_nat fuel ->
  Forall digit (digits_of fuel x) /\ (value (digits_of fuel x) 0 = x).
Proof.
  induction fuel as [|fuel IH]; intros x Hx; [cbn in *; split; [constructor | unfold value; cbn;
    lia]|]; cbn [digits_of].
  rewrite Nat2Z.inj_succ, Z.pow_succ_r in Hx by lia.
  destruct (Z.ltb_spec x 10).
  - split; [repeat constructor; lia | unfold value; cbn; lia].
  - pose proof (Z.div_mod x 10 ltac:(lia)); pose proof (Z.mod_pos_bound x 10 ltac:(lia)).
    destruct (IH (x / 10)) as [F V]; [split; [apply Z.div_pos; lia | apply Z.div_lt_upper_bound;
      lia]|].
    split; [apply Forall_app; repeat constructor; auto; lia|].
    unfold value in *; rewrite fold_left_app, V; cbn [fold_left]; lia.
Qed.

Lemma value_mono ds : Forall digit ds -> forall acc, 0 <= acc -> acc <= value ds acc.
Proof.
  induction 1 as [|d ds Hd _ IH]; intros acc Ha; unfold value in *; cbn [fold_left]; [lia|].
  unfold digit in Hd; specialize (IH (10 * acc + d) ltac:(lia)); lia.
Qed.

Lemma atol_digits_spec m ds : Forall digit ds -> forall fuel str acc,
  cstring m str (map (Z.add 48) ds) -> (length ds < fuel)%nat -> 0 <= acc ->
    value ds acc < 2 ^ 63 ->
  atol_digits fuel m str acc = Some (value ds acc).
Proof.
  induction 1 as [|d ds Hd Hds IH]; intros [|fuel] str acc Hl F Ha V; cbn [length] in F; try lia;
    cbn [atol_digits]; cbn [cstring map] in Hl.
  - rewrite Hl; reflexivity.
  - destruct Hl as (-> & Hc & Hl); unfold nz; rewrite (proj2 (Z.eqb_neq (48 + d) 0)) by lia.
    unfold digit in Hd; change (value (d :: ds) acc) with (value ds (10 * acc + d)) in V |- *.
    pose proof (value_mono ds Hds (10 * acc + d) ltac:(lia)).
    unfold long; rewrite (proj2 (Z.leb_le _ (acc * 10))), (proj2 (Z.ltb_lt (acc * 10) _)) by lia.
    cbn [negb andb]; replace (acc * 10 + (48 + d - 48)) with (10 * acc + d) by lia.
    rewrite (proj2 (Z.leb_le _ (10 * acc + d))), (proj2 (Z.ltb_lt (10 * acc + d) _)) by lia.
    apply IH; auto; lia.
Qed.

(** The text of a signed number. *)
Definition text (x : Z) : list Z :=
  if x <? 0 then 45 :: map (Z.add 48) (decimal (- x)) else map (Z.add 48) (decimal x).

Lemma zlen_digits fuel : forall x, zlen (digits_of fuel x) <= Z.of_nat fuel.
Proof.
  induction fuel as [|fuel IH]; intros x; cbn [digits_of]; [unfold zlen; cbn; lia|].
  destruct (x <? 10); [unfold zlen; cbn; lia|].
  rewrite zlen_app; change (zlen [_]) with 1; specialize (IH (x / 10)); lia.
Qed.

Lemma decimal_spec x : 0 <= x < 2 ^ 63 ->
  Forall digit (decimal x) /\ value (decimal x) 0 = x /\ decimal x <> [] /\ zlen (decimal x) <= 20.
Proof.
  intros Hx; destruct (digits_of_spec 20 x) as [F V];
    [change (10 ^ Z.of_nat 20) with 100000000000000000000; lia|].
  split; [exact F|]; split; [exact V|]; split; [|apply zlen_digits].
  unfold decimal; cbn [digits_of]; destruct (x <? 10); [discriminate|].
  intros E; apply (f_equal (@length Z)) in E; rewrite length_app in E; cbn in E; lia.
Qed.

Lemma atol_spec m fuel a x :
  - 2 ^ 63 < x < 2 ^ 63 -> cstring m a (text x) -> (22 <= fuel)%nat -> atol fuel m a = Some x.
Proof.
  intros Hx C F; unfold atol.
  assert (W : forall c, m a = c -> c <> 32 ->
    while fuel (fun p => m p =? 32) (fun p => p + 1) a = Some a).
  { intros c <- N; destruct fuel; [lia|]; cbn [while]; rewrite (proj2 (Z.eqb_neq _ _)) by exact N;
      reflexivity. }
  unfold text in C; destruct (Z.ltb_spec x 0).
  - destruct (decimal_spec (- x) ltac:(lia)) as (D & V & _ & L); destruct C as (E & _ & C).
    rewrite (W 45), E by (exact E || lia); cbn [Z.eqb Pos.eqb orb].
    unfold zlen in L; rewrite (atol_digits_spec m _ D), V by (try assumption; lia).
    unfold long; rewrite (proj2 (Z.leb_le _ (- - x))), (proj2 (Z.ltb_lt (- - x) _)) by lia.
    cbn [andb]; f_equal; lia.
  - destruct (decimal_spec x ltac:(lia)) as (D & V & N & L).
    assert (E : exists d, m a = 48 + d /\ 0 <= d).
    { destruct (decimal x) as [|d ds]; [congruence|]; destruct C as (E & _);
        inversion D as [|? ? Hd].
      exists d; split; [exact E | unfold digit in Hd; lia]. }
    destruct E as (d & E & Hd); rewrite (W (48 + d)), E by (exact E || lia).
    rewrite (proj2 (Z.eqb_neq (48 + d) 45)), (proj2 (Z.eqb_neq (48 + d) 43)) by lia; cbn [orb].
    unfold zlen in L; rewrite (atol_digits_spec m _ D), V by (try assumption; lia); reflexivity.
Qed.

(** A NUL-terminated text in memory. *)
Lemma cstring_bytes m l : forall a, Forall (fun c => 0 < c < 256) l ->
  (forall i, 0 <= i <= zlen l -> m (a + i) = at_ (l ++ [0]) i) -> cstring m a l.
Proof.
  induction l as [|c l IH]; intros a F E; cbn [cstring].
  - specialize (E 0 ltac:(unfold zlen; cbn; lia)); rewrite Z.add_0_r in E; exact E.
  - inversion F as [|? ? Hc Hl]; subst; pose proof (zlen_nonneg l); rewrite zlen_cons in E.
    split; [|split; [exact Hc|]].
    + specialize (E 0 ltac:(lia)); rewrite Z.add_0_r in E; exact E.
    + apply IH; [exact Hl|]; intros i Hi; rewrite <- Z.add_assoc, (E (1 + i)) by lia; unfold at_.
      replace (Z.to_nat (1 + i)) with (S (Z.to_nat i)) by lia; reflexivity.
Qed.

(** ** Theorems *)

(** [memcpy] and [memset].  Both return, whether they move words or bytes, and leave exactly
    the [len] bytes at [dest] changed: to the bytes at [src] for regions that do not overlap,
    and to the low byte of [byte]. *)
Lemma memory_functions_correct m dest src byte len :
  bytes m -> 8 <= dest -> 0 <= src -> 0 <= len ->
  dest + len <= 2 ^ 64 - 8 -> src + len <= 2 ^ 64 - 8 -> disjoint dest len src len ->
  (exists m', memcpy m dest src len = Some (dest, m') /\
    patched m dest len (fun i => m (src + i)) m') /\
  (exists m', memset m dest byte len = Some (dest, m') /\ patched m dest len (fun _ => u8 byte) m').
Proof. split; [apply memcpy_spec | apply memset_spec]; assumption || lia. Qed.

(** Strings.  With fuel for the length of the strings, [strlen] is their length, the sign of
    [strcmp] is their lexicographic order (0 exactly for equal strings), and [strcpy] leaves
    the string at [dest] and every byte outside of it as it was. *)
Lemma string_functions_correct m fuel a b l1 l2 dest :
  cstring m a l1 -> cstring m b l2 -> (length l1 < fuel)%nat ->
  disjoint dest (zlen l1 + 1) a (zlen l1 + 1) ->
  strlen fuel m a = Some (zlen l1) /\
  (exists r, strcmp fuel m a b = Some r /\ (r ?= 0) = lex l1 l2 /\ (r = 0 <-> l1 = l2)) /\
  (exists m', strcpy fuel m dest a = Some (dest, m') /\ cstring m' dest l1 /\
     forall x, inside x dest (zlen l1 + 1) = false -> m' x = m x).
Proof.
  intros C1 C2 F D; split; [apply strlen_spec; assumption|]; split.
  - destruct (strcmp_spec m l1 l2 fuel a b C1 C2 F) as (r & E & L); exists r.
    rewrite <- lex_eq, <- L, Z.compare_eq_iff; tauto.
  - destruct (strcpy_spec l1 fuel m dest a C1 D F) as (m' & E & C' & O).
    exists m'; unfold strcpy; rewrite E; auto.
Qed.

(** C30: the memory and string functions.  [memcpy] and [memset] return, whether they move words
    or bytes, and leave exactly the [len] bytes at [dest] changed: to the bytes at [src] for
    regions that do not overlap, and to the low byte of [byte].  With fuel for the length of the
    strings, [strlen] is their length, the sign of [strcmp] is their lexicographic order (0
    exactly for equal strings), and [strcpy] leaves the string at [dest] and every byte outside
    of it as it was. *)
Theorem string_h_correct m :
  (forall dest src byte len,
     bytes m -> 8 <= dest -> 0 <= src -> 0 <= len ->
     dest + len <= 2 ^ 64 - 8 -> src + len <= 2 ^ 64 - 8 -> disjoint dest len src len ->
     (exists m', memcpy m dest src len = Some (dest, m') /\
       patched m dest len (fun i => m (src + i)) m') /\
     (exists m', memset m dest byte len = Some (dest, m') /\
       patched m dest len (fun _ => u8 byte) m')) /\
  (forall fuel a b l1 l2 dest,
     cstring m a l1 -> cstring m b l2 -> (length l1 < fuel)%nat ->
     disjoint dest (zlen l1 + 1) a (zlen l1 + 1) ->
     strlen fuel m a = Some (zlen l1) /\
     (exists r, strcmp fuel m a b = Some r /\ (r ?= 0) = lex l1 l2 /\ (r = 0 <-> l1 = l2)) /\
     (exists m', strcpy fuel m dest a = Some (dest, m') /\ cstring m' dest l1 /\
        forall x, inside x dest (zlen l1 + 1) = false -> m' x = m x)).
Proof.
  split; [exact (memory_functions_correct m) | exact (string_functions_correct m)].
Qed.

(** ** Witnesses *)

(** A memory with the text [l] at [a]. *)
Definition with_text (a : Z) (l : list Z) : memory :=
  fun x => if inside x a (zlen l) then at_ l (x - a) else 0.

Lemma with_text_bytes a l : Forall (fun c => 0 <= c < 256) l -> bytes (with_text a l).
Proof.
  intros F x; unfold with_text, at_; destruct (inside x a (zlen l)); [|lia].
  destruct (nth_in_or_default (Z.to_nat (x - a)) l 0) as [I|E]; [|rewrite E; lia].
  rewrite Forall_forall in F; exact (F _ I).
Qed.

Lemma string_h_correct_witness :
  (exists m', memcpy (with_text 64 [1; 2; 3; 4; 5; 6; 7; 8; 9]) 128 64 9 = Some (128, m') /\
              m' 136 = 9) /\
  exists r, strcmp 4 (with_text 64 [104; 105; 0; 104; 111; 0]) 64 67 = Some r /\ (r ?= 0) = Lt.
Proof.
  split.
  - destruct (proj1 (string_h_correct (with_text 64 [1; 2; 3; 4; 5; 6; 7; 8; 9])) 128 64 0 9)
      as [(m' & E & P) _]; unfold disjoint; try lia.
    + apply with_text_bytes; repeat constructor; lia.
    + exists m'; split; [exact E|]; rewrite (P 136); reflexivity.
  - destruct (proj2 (string_h_correct (with_text 64 [104; 105; 0; 104; 111; 0])) 4%nat 64 67
      [104; 105] [104; 111] 0) as (_ & (r & E & L & _) & _);
      [vm_compute; repeat split; reflexivity | vm_compute; repeat split; reflexivity | cbn; lia
      | left; cbn; lia | exists r; split; [exact E | exact L]].
Defined.
