(* ===== verification/Snprintf.v ===== *)
(** * Formatted output ([util/snprintf.c])

    [vsnprintf] on the memory of [CString], its variable arguments as a list of 64-bit slots.
    What a format stands for is [render]; the loops over the format and over [%s] strings have
    fuel, and any fuel larger than the length of the strings is enough. *)

From S2P Require Import Prelude CString.
From Stdlib Require Import ZArith Lia Bool List.
Import ListNotations.
#[local] Open Scope c_scope.

(** ** [snprintf.c] *)

Section Format.
Context (out n : Z).

Record pstate := P { mem : memory; pos : Z; vl : list Z; format : bool; longarg : bool }.

(** [if (++pos < n) out[pos-1] = c] *)
Definition emit (c : Z) (st : memory * Z) : memory * Z :=
  let (m, pos) := st in
  let pos := u64 (pos + 1) in
  (if pos <? n then store8 m (out + pos - 1) c else m, pos).

(** [longarg ? va_arg(vl, long) : va_arg(vl, int)], from 64-bit argument slots. *)
Definition va_num (longarg : bool) (slot : Z) : Z := if longarg then i64 slot else i32 slot.

(** The loop of ['x'], from digit [k - 1] down. *)
Fixpoint hex_loop (k : nat) (num : Z) (st : memory * Z) : memory * Z :=
  match k with
  | O => st
  | S k =>
      let d := (num .>> (4 * Z.of_nat k)) .& 0xF in
      hex_loop k num (emit (if d <? 10 then 48 + d else 97 + d - 10) st)
  end.

(** [for (long nn = num; nn /= 10; digits++);] *)
Fixpoint count_digits (fuel : nat) (nn digits : Z) : option Z :=
  match fuel with
  | O => None
  | S fuel =>
      let nn := Z.quot nn 10 in
      if nz nn then count_digits fuel nn (digits + 1) else Some digits
  end.

(** The loop of ['d'], from digit [k - 1] of the number down. *)
Fixpoint dec_loop (k : nat) (num pos : Z) (m : memory) : memory :=
  match k with
  | O => m
  | S k =>
      let i := Z.of_nat k in
      dec_loop k (Z.quot num 10) pos
        (if u64 (pos + i + 1) <? n then store8 m (out + pos + i) (48 + Z.rem num 10) else m)
  end.

Definition print_dec (num : Z) (st : memory * Z) : option (memory * Z) :=
  let? (num, st) :=
    if num <? 0 then let? num := long (- num) in Some (num, emit 45 st) else Some (num, st) in
  let? digits := count_digits 20 num 1 in
  let (m, pos) := st in
  Some (dec_loop (Z.to_nat digits) num pos m, u64 (pos + digits)).

(** The loop of ['s']. *)
Fixpoint str_loop (fuel : nat) (s2 : Z) (st : memory * Z) : option (memory * Z) :=
  match fuel with
  | O => None
  | S fuel =>
      let c := fst st s2 in
      if nz c then str_loop fuel (s2 + 1) (emit c st) else Some st
  end.

Definition va_arg (st : pstate) (k : Z -> option (memory * Z)) : option pstate :=
  match vl st with
  | [] => None
  | v :: rest => let? (m, pos) := k v in Some (P m pos rest false false)
  end.

(** The body of the loop over the format, for the character [c]. *)
Definition format_char (fuel : nat) (c : Z) (st : pstate) : option pstate :=
  let here := (mem st, pos st) in
  if format st then
    if c =? 108 then Some (P (mem st) (pos st) (vl st) true true)
    else if c =? 112 then
      va_arg st (fun v => Some (hex_loop 16 (va_num true v) (emit 120 (emit 48 here))))
    else if c =? 120 then
      va_arg st (fun v => Some (hex_loop (if longarg st then 16 else 8) (va_num (longarg st) v) here))
    else if c =? 100 then va_arg st (fun v => print_dec (va_num (longarg st) v) here)
    else if c =? 115 then va_arg st (fun v => str_loop fuel v here)
    else if c =? 99 then va_arg st (fun v => Some (emit (i32 v) here))
    else Some st
  else if c =? 37 then Some (P (mem st) (pos st) (vl st) true (longarg st))
  else let (m, pos) := emit c here in Some (P m pos (vl st) (format st) (longarg st)).

Fixpoint format_loop (fuel k : nat) (s : Z) (st : pstate) : option pstate :=
  match k with
  | O => None
  | S k =>
      let c := mem st s in
      if nz c then let? st := format_char fuel c st in format_loop fuel k (s + 1) st else Some st
  end.

Definition vsnprintf (fuel : nat) (m : memory) (s : Z) (vl : list Z) : option (Z * memory) :=
  let? st := format_loop fuel fuel s (P m 0 vl false false) in
  let m := mem st in
  let m :=
    if pos st <? n then store8 m (out + pos st) 0
    else if nz n then store8 m (out + n - 1) 0 else m in
  Some (i32 (pos st), m).
End Format.

(** ** Formatted output *)

Definition hexchar (d : Z) : Z := if d <? 10 then 48 + d else 87 + d.

(** The [k] low hexadecimal digits of [num]. *)
Fixpoint hex (k : nat) (num : Z) : list Z :=
  match k with
  | O => []
  | S k => hexchar (num / 16 ^ Z.of_nat k mod 16) :: hex k num
  end.

(** What a format stands for.  [str] gives the string at an address; [l] is the only modifier,
    a character that is no conversion is skipped with the [%] still pending, and nothing is
    printed when an argument is missing or when a [long] has no absolute value. *)
Section Render.
Context (str : Z -> option (list Z)).

Fixpoint render (fmt args : list Z) (format longarg : bool) : option (list Z) :=
  match fmt with
  | [] => Some []
  | c :: fmt =>
      let convert (f : Z -> option (list Z)) :=
        match args with
        | [] => None
        | v :: args =>
            let? l := f v in
            let? r := render fmt args false false in
            Some (l ++ r)
        end in
      if format then
        if c =? 108 then render fmt args true true
        else if c =? 112 then convert (fun v => Some ([48; 120] ++ hex 16 (i64 v)))
        else if c =? 120 then
          convert (fun v => Some (if longarg then hex 16 (i64 v) else hex 8 (i32 v)))
        else if c =? 100 then
          convert (fun v => let x := if longarg then i64 v else i32 v in
                            if x =? - 2 ^ 63 then None else Some (text x))
        else if c =? 115 then convert str
        else if c =? 99 then convert (fun v => Some [u8 v])
        else render fmt args true longarg
      else if c =? 37 then render fmt args true longarg
      else let? r := render fmt args false longarg in Some (c :: r)
  end.
End Render.

Lemma at_app_l l l' i : 0 <= i < zlen l -> at_ (l ++ l') i = at_ l i.
Proof. unfold at_, zlen; intros; apply app_nth1; lia. Qed.

Lemma at_app_r l l' i : zlen l <= i -> at_ (l ++ l') i = at_ l' (i - zlen l).
Proof. unfold at_, zlen; intros; rewrite app_nth2 by lia; f_equal; lia. Qed.

Section Shown.
Context (m0 : memory) (out n : Z) (Hn : 0 <= n).

(** The text [r] has been produced: what fits has been stored. *)
Definition shown (r : list Z) (m : memory) : Prop :=
  patched m0 out (Z.min (zlen r) (n - 1)) (at_ r) m.

Definition upto (r : list Z) (st : memory * Z) : Prop := shown r (fst st) /\ snd st = zlen r.

Lemma patched_more k r l m :
  patched m0 out k (at_ r) m -> k <= zlen r -> patched m0 out k (at_ (r ++ l)) m.
Proof.
  intros P K a; rewrite (P a); destruct (inside a out k) eqn:I; [|reflexivity].
  symmetry; apply at_app_l; revert I; regions; congruence || lia.
Qed.

Lemma emit_spec r st c :
  upto r st -> zlen r + 1 < 2 ^ 64 -> upto (r ++ [u8 c]) (emit out n c st).
Proof using Hn.
  destruct st as [m p]; intros [S E] B; cbn in S, E; subst p; pose proof (zlen_nonneg r).
  unfold upto, emit, shown in *; rewrite u64_small, zlen_app by lia; change (zlen [u8 c]) with 1.
  split; [|reflexivity]; cbn [fst]; destruct (Z.ltb_spec (zlen r + 1) n).
  - rewrite Z.min_l in S |- * by lia; replace (out + (zlen r + 1) - 1) with (out + zlen r) by lia.
    apply patched_store8; [apply patched_more; [exact S | lia] | lia|].
    rewrite at_app_r, Z.sub_diag by lia; reflexivity.
  - rewrite Z.min_r in S |- * by lia; apply patched_more; [exact S | lia].
Qed.

Lemma hexchar_byte d : 0 <= d < 16 -> u8 (hexchar d) = hexchar d.
Proof. intros; apply u8_byte; unfold hexchar; destruct (d <? 10); lia. Qed.

Lemma zlen_hex k num : zlen (hex k num) = Z.of_nat k.
Proof. induction k as [|k IH]; [reflexivity|]; cbn [hex]; rewrite zlen_cons, IH; lia. Qed.

Lemma hex_loop_spec num k : forall r st,
  upto r st -> zlen r + Z.of_nat k < 2 ^ 64 -> upto (r ++ hex k num) (hex_loop out n k num st).
Proof using Hn.
  induction k as [|k IH]; intros r st U B; cbn [hex hex_loop]; [rewrite app_nil_r; exact U|].
  change (?x :: ?l) with ([x] ++ l); rewrite app_assoc.
  assert (D : (num .>> (4 * Z.of_nat k)) .& 0xF = num / 16 ^ Z.of_nat k mod 16).
  { change 0xF with (2 ^ 4 - 1); rewrite land_ones_mod, Z.shiftr_div_pow2 by lia.
    rewrite Z.pow_mul_r by lia; reflexivity. }
  rewrite D; pose proof (Z.mod_pos_bound (num / 16 ^ Z.of_nat k) 16 ltac:(lia)) as R.
  apply IH; [|rewrite zlen_app; change (zlen [_]) with 1; lia].
  rewrite <- hexchar_byte by exact R.
  replace (if _ <? 10 then 48 + _ else _) with (hexchar (num / 16 ^ Z.of_nat k mod 16)).
  - apply emit_spec; [exact U | lia].
  - unfold hexchar; destruct (_ <? 10); lia.
Qed.

Lemma str_loop_spec l : forall fuel s2 r st,
  upto r st -> zlen r + zlen l < 2 ^ 64 -> cstring m0 s2 l ->
  disjoint s2 (zlen l + 1) out n -> (length l < fuel)%nat ->
  exists st', str_loop out n fuel s2 st = Some st' /\ upto (r ++ l) st'.
Proof using Hn.
  induction l as [|c l IH]; intros [|fuel] s2 r st U B C D F; cbn [length] in F; try lia;
    cbn [str_loop].
  - assert (E : fst st s2 = 0).
    { rewrite (patched_outside _ _ _ _ _ _ (proj1 U)); [exact C|].
      unfold disjoint, zlen in D; cbn in D; regions; reflexivity. }
    rewrite E, app_nil_r; exists st; split; [reflexivity | exact U].
  - pose proof (zlen_nonneg l); pose proof (zlen_nonneg r); rewrite zlen_cons in *;
      destruct C as (C & Hc & Cl).
    assert (E : fst st s2 = c).
    { rewrite (patched_outside _ _ _ _ _ _ (proj1 U)); [exact C|].
      unfold disjoint in D; regions; reflexivity. }
    unfold nz; rewrite E, (proj2 (Z.eqb_neq c 0)) by lia; cbn [negb].
    change (c :: l) with ([c] ++ l); rewrite app_assoc.
    assert (Eu : [c] = [u8 c]) by (rewrite u8_byte by lia; reflexivity); rewrite Eu.
    apply IH; [apply emit_spec; [exact U | lia] | | exact Cl | | lia].
    + rewrite zlen_app; change (zlen [_]) with 1; lia.
    + unfold disjoint in *; lia.
Qed.

(** *** Decimal output *)

Lemma count_digits_spec fuel : forall x k, 0 <= x < 10 ^ Z.of_nat fuel -> (0 < fuel)%nat ->
  count_digits fuel x k = Some (k - 1 + zlen (digits_of fuel x)).
Proof using.
  induction fuel as [|fuel IH]; intros x k Hx F; [lia|]; cbn [count_digits digits_of].
  rewrite Nat2Z.inj_succ, Z.pow_succ_r in Hx by lia; rewrite Z.quot_div_nonneg by lia.
  pose proof (Z.div_mod x 10 ltac:(lia)); pose proof (Z.mod_pos_bound x 10 ltac:(lia)).
  destruct (Z.ltb_spec x 10).
  - rewrite (Z.div_small x 10) by lia; unfold zlen; cbn; f_equal; lia.
  - unfold nz; rewrite (proj2 (Z.eqb_neq (x / 10) 0)) by lia; cbn [negb].
    rewrite IH, zlen_app; [unfold zlen; cbn; f_equal; lia | split; [lia|] |].
    + apply Z.div_lt_upper_bound; lia.
    + destruct fuel; [cbn in Hx; lia | lia].
Qed.

Lemma dec_loop_spec fuel : forall x pos m, 0 <= x < 10 ^ Z.of_nat fuel -> 0 <= pos ->
  pos + Z.of_nat fuel < 2 ^ 64 ->
  forall a, dec_loop out n (length (digits_of fuel x)) x pos m a
  = if inside a (out + pos) (zlen (digits_of fuel x)) && (a - out + 1 <? n)
    then 48 + at_ (digits_of fuel x) (a - out - pos) else m a.
Proof using.
  induction fuel as [|fuel IH]; intros x pos m Hx Hp B a; cbn [digits_of].
  { unfold zlen; cbn; regions; reflexivity. }
  rewrite Nat2Z.inj_succ, Z.pow_succ_r in Hx by lia.
  pose proof (Z.div_mod x 10 ltac:(lia)); pose proof (Z.mod_pos_bound x 10 ltac:(lia)).
  destruct (Z.ltb_spec x 10).
  - cbn [length dec_loop]; rewrite u64_small, Z.rem_small by lia; change (zlen [x]) with 1.
    destruct (Z.ltb_spec (pos + Z.of_nat 0 + 1) n); unfold store8; regions; try reflexivity.
    + rewrite u8_byte by lia; replace (a - out - pos) with 0 by lia; reflexivity.
  - assert (Hq : 0 <= x / 10 < 10 ^ Z.of_nat fuel)
      by (split; [apply Z.div_pos | apply Z.div_lt_upper_bound]; lia).
    rewrite length_app, Nat.add_comm; cbn [length Nat.add dec_loop].
    rewrite Z.quot_div_nonneg, Z.rem_mod_nonneg, IH by lia.
    fold (zlen (digits_of fuel (x / 10))); set (ds := digits_of fuel (x / 10)).
    assert (L : 0 <= zlen ds <= Z.of_nat fuel) by (split; [apply zlen_nonneg | apply zlen_digits]).
    rewrite zlen_app, u64_small by lia; change (zlen [_]) with 1.
    destruct (Z.ltb_spec (pos + zlen ds + 1) n); unfold store8; regions; try reflexivity;
      try (rewrite at_app_l by lia; reflexivity).
    all: rewrite at_app_r, u8_byte by lia; replace (a - out - pos - zlen ds) with 0 by lia;
      reflexivity.
Qed.

Lemma print_nat_spec r m x : upto r (m, zlen r) -> 0 <= x < 2 ^ 63 -> zlen r + 21 < 2 ^ 64 ->
  upto (r ++ map (Z.add 48) (decimal x))
    (dec_loop out n (Z.to_nat (zlen (decimal x))) x (zlen r) m, u64 (zlen r + zlen (decimal x))).
Proof using Hn.
  intros [S _] Hx B; cbn [fst] in S; pose proof (zlen_nonneg r).
  pose proof (zlen_digits 20 x) as L; pose proof (zlen_nonneg (decimal x)); fold (decimal x) in L.
  assert (M : zlen (map (Z.add 48) (decimal x)) = zlen (decimal x)) by (unfold zlen;
    rewrite length_map; reflexivity).
  split; cbn [fst snd]; [|rewrite u64_small, zlen_app, M by lia; reflexivity].
  intros a; unfold zlen at 1; rewrite Nat2Z.id; unfold decimal at 1.
  rewrite dec_loop_spec by lia; fold (decimal x); rewrite (S a), zlen_app, M.
  assert (A : forall i, 0 <= i < zlen (decimal x) ->
    48 + at_ (decimal x) i = at_ (map (Z.add 48) (decimal x)) i).
  { intros i Hi; unfold at_; rewrite <- (map_nth (Z.add 48)); apply nth_indep; unfold zlen in *;
      rewrite length_map; lia. }
  regions; rewrite ?at_app_l, ?at_app_r by lia; try reflexivity; try lia.
  all: rewrite A by lia; f_equal; lia.
Qed.

Lemma print_dec_spec r st x : upto r st -> - 2 ^ 63 < x < 2 ^ 63 -> zlen r + 22 < 2 ^ 64 ->
  exists st', print_dec out n x st = Some st' /\ upto (r ++ text x) st'.
Proof using Hn.
  intros U Hx B; unfold print_dec, text, long; destruct (Z.ltb_spec x 0).
  - rewrite (proj2 (Z.leb_le _ (- x))), (proj2 (Z.ltb_lt (- x) _)) by lia; cbn [andb].
    rewrite count_digits_spec by (change (10 ^ Z.of_nat 20) with 100000000000000000000; lia);
      fold (decimal (- x)).
    pose proof (emit_spec r st 45 U ltac:(lia)) as U'; destruct (emit out n 45 st) as [m p].
    replace p with (zlen (r ++ [45])) in * by (symmetry; apply U').
    eexists; split; [reflexivity|]; change (45 :: ?l) with ([45] ++ l); rewrite app_assoc.
    rewrite Z.add_0_l.
    apply print_nat_spec; [exact U' | lia | rewrite zlen_app; unfold zlen in *; cbn [length app];
      lia].
  - rewrite count_digits_spec by (change (10 ^ Z.of_nat 20) with 100000000000000000000; lia);
      fold (decimal x); destruct st as [m p].
    replace p with (zlen r) in * by (symmetry; apply U).
    eexists; split; [reflexivity|]; rewrite Z.add_0_l; apply print_nat_spec; auto; lia.
Qed.
End Shown.

(** *** The loop over the format *)

Section Printing.
Context (str : Z -> option (list Z)) (m0 : memory) (out n : Z) (fuel : nat).
Context (Hn : 0 <= n).
Context (Hstr : forall v l, str v = Some l ->
  cstring m0 v l /\ disjoint v (zlen l + 1) out n /\ (length l < fuel)%nat).

(** The rest of the format after one character, and the text the character adds. *)
Definition steps_to (fmt : list Z) (r t : list Z) (next : option pstate) : Prop :=
  exists st l t', next = Some st /\ t = l ++ t' /\ upto m0 out n (r ++ l) (mem st, pos st) /\
    render str fmt (vl st) (format st) (longarg st) = Some t'.

Lemma convert_spec (k : Z -> memory * Z -> option (memory * Z)) f r st fmt t :
  (forall v l, f v = Some l -> zlen r + zlen l < 2 ^ 32 ->
     exists here, k v (mem st, pos st) = Some here /\ upto m0 out n (r ++ l) here) ->
  match vl st with
  | [] => None
  | v :: args => let? l := f v in let? r := render str fmt args false false in Some (l ++ r)
  end = Some t ->
  zlen r + zlen t < 2 ^ 32 ->
  steps_to fmt r t (va_arg st (fun v => k v (mem st, pos st))).
Proof using.
  intros K R B; unfold steps_to, va_arg; destruct (vl st) as [|v args]; [discriminate|].
  destruct (f v) as [l|] eqn:Fv; [|discriminate].
  destruct (render str fmt args false false) as [t'|] eqn:Rt; [|discriminate].
  injection R as <-; rewrite zlen_app in B; pose proof (zlen_nonneg t').
  destruct (K v l Fv ltac:(lia)) as ([m p] & -> & U); exists (P m p args false false), l, t'; auto.
Qed.

Lemma u8_i32 v : u8 (i32 v) = u8 v.
Proof using.
  unfold u8, i32, wrap, swrap; rewrite <- Zminus_mod_idemp_l.
  assert (E : forall x, (x mod 2 ^ 32) mod 2 ^ 8 = x mod 2 ^ 8)
    by (intros x; apply Z.mod_mod_divide; exists (2 ^ 24); reflexivity).
  rewrite E, Zminus_mod_idemp_l; f_equal; lia.
Qed.

Lemma print_p r here v :
  upto m0 out n r here -> zlen r + zlen ([48; 120] ++ hex 16 (i64 v)) < 2 ^ 32 ->
  upto m0 out n (r ++ [48; 120] ++ hex 16 (i64 v))
    (hex_loop out n 16 (va_num true v) (emit out n 120 (emit out n 48 here))).
Proof using Hn.
  intros U B; rewrite zlen_app, zlen_hex in B; change (zlen [48; 120]) with 2 in B.
  replace (r ++ [48; 120] ++ hex 16 (i64 v)) with (((r ++ [u8 48]) ++ [u8 120]) ++ hex 16 (i64 v))
    by (rewrite <- !app_assoc; reflexivity).
  assert (L : forall x : Z, zlen [x] = 1) by reflexivity.
  apply hex_loop_spec; [exact Hn | | rewrite !zlen_app, !L; lia].
  apply emit_spec; [exact Hn | | rewrite zlen_app, L; lia]; apply emit_spec; auto; lia.
Qed.

Lemma print_x r here (b : bool) v :
  upto m0 out n r here -> zlen r + zlen (if b then hex 16 (i64 v) else hex 8 (i32 v)) < 2 ^ 32 ->
  upto m0 out n (r ++ if b then hex 16 (i64 v) else hex 8 (i32 v))
    (hex_loop out n (if b then 16 else 8) (va_num b v) here).
Proof using Hn.
  intros U B; unfold va_num; destruct b; rewrite zlen_hex in B; apply hex_loop_spec; auto; lia.
Qed.

Lemma print_d r here (b : bool) v t :
  upto m0 out n r here ->
  (let x := if b then i64 v else i32 v in if x =? - 2 ^ 63 then None else Some (text x)) = Some t ->
  zlen r + zlen t < 2 ^ 32 ->
  exists here', print_dec out n (va_num b v) here = Some here' /\ upto m0 out n (r ++ t) here'.
Proof using Hn.
  intros U E B; unfold va_num; cbv zeta in E; set (x := if b then i64 v else i32 v) in *.
  destruct (Z.eqb_spec x (- 2 ^ 63)); [discriminate|]; injection E as <-;
    pose proof (zlen_nonneg (text x)).
  apply print_dec_spec; auto; [|lia]; subst x.
  pose proof (swrap_range 64 v ltac:(lia)); pose proof (swrap_range 32 v ltac:(lia)).
  unfold i64, i32 in *; destruct b; lia.
Qed.

Lemma format_char_spec c fmt st r t :
  0 < c < 256 -> upto m0 out n r (mem st, pos st) ->
  render str (c :: fmt) (vl st) (format st) (longarg st) = Some t -> zlen r + zlen t < 2 ^ 32 ->
  steps_to fmt r t (format_char out n fuel c st).
Proof using Hn Hstr.
  intros Hc U R B; cbn [render] in R; unfold format_char; cbv zeta in R |- *.
  assert (Skip : forall st', mem st' = mem st -> pos st' = pos st ->
    render str fmt (vl st') (format st') (longarg st') = Some t -> steps_to fmt r t (Some st')).
  { intros st' E1 E2 R'; exists st', [], t; rewrite E1, E2, app_nil_r; auto. }
  destruct (format st) eqn:Ft.
  - repeat match type of R with
           | (if c =? ?x then _ else _) = _ => destruct (Z.eqb_spec c x)
           end; [apply Skip; auto | | | | | | apply Skip; rewrite ?Ft; auto].
    + apply (convert_spec
        (fun v here => Some (hex_loop out n 16 (va_num true v) (emit out n 120 (emit out n 48 here))))
        (fun v => Some ([48; 120] ++ hex 16 (i64 v)))); auto.
      intros v l [= <-] Bl; eexists; split; [reflexivity|]; apply print_p; auto.
    + apply (convert_spec
        (fun v here => Some (hex_loop out n (if longarg st then 16 else 8) (va_num (longarg st) v) here))
        (fun v => Some (if longarg st then hex 16 (i64 v) else hex 8 (i32 v)))); auto.
      intros v l [= <-] Bl; eexists; split; [reflexivity|]; apply print_x; auto.
    + apply (convert_spec (fun v => print_dec out n (va_num (longarg st) v))
        (fun v => let x := if longarg st then i64 v else i32 v in
                  if x =? - 2 ^ 63 then None else Some (text x))); auto.
      intros v l E Bl; apply print_d; auto.
    + apply (convert_spec (str_loop out n fuel) str); auto.
      intros v l Sv Bl; destruct (Hstr v l Sv) as (Cv & Dv & Fv); apply str_loop_spec; auto; lia.
    + apply (convert_spec (fun v here => Some (emit out n (i32 v) here)) (fun v => Some [u8 v]));
        auto.
      intros v l [= <-] Bl; eexists; split; [reflexivity|]; rewrite <- u8_i32.
      apply emit_spec; auto; change (zlen [_]) with 1 in Bl; lia.
  - destruct (Z.eqb_spec c 37); [apply Skip; auto|].
    destruct (render str fmt (vl st) false (longarg st)) as [t'|] eqn:R'; [|discriminate].
    injection R as <-; rewrite zlen_cons in B; pose proof (zlen_nonneg t').
    pose proof (emit_spec m0 out n Hn r _ c U ltac:(lia)) as U'.
    destruct (emit out n c (mem st, pos st)) as [m p]; rewrite u8_byte in U' by lia.
    exists (P m p (vl st) false (longarg st)), [c], t'; auto.
Qed.

Lemma format_loop_spec fmt : forall k s st r t,
  cstring m0 s fmt -> disjoint s (zlen fmt + 1) out n -> (length fmt < k)%nat ->
  upto m0 out n r (mem st, pos st) ->
  render str fmt (vl st) (format st) (longarg st) = Some t -> zlen r + zlen t < 2 ^ 32 ->
  exists st', format_loop out n fuel k s st = Some st' /\ upto m0 out n (r ++ t) (mem st', pos st').
Proof using Hn Hstr.
  induction fmt as [|c fmt IH]; intros [|k] s st r t C D F U R B; cbn [length] in F; try lia;
    cbn [format_loop]; cbn [cstring] in C.
  - assert (E : mem st s = 0).
    { rewrite <- C; apply (patched_outside _ _ _ _ _ s (proj1 U)).
      unfold disjoint, zlen in D; cbn in D; regions; reflexivity. }
    rewrite E; injection R as <-; rewrite app_nil_r; exists st; split; [reflexivity | exact U].
  - destruct C as (C & Hc & Cf); pose proof (zlen_nonneg fmt); rewrite zlen_cons in D.
    assert (E : mem st s = c).
    { rewrite <- C; apply (patched_outside _ _ _ _ _ s (proj1 U)).
      unfold disjoint in D; regions; reflexivity. }
    unfold nz; rewrite E, (proj2 (Z.eqb_neq c 0)) by lia; cbn [negb].
    destruct (format_char_spec c fmt st r t Hc U R B) as (st' & l & t' & -> & -> & U' & R').
    rewrite zlen_app in B; rewrite app_assoc; apply IH; auto; [unfold disjoint in *; lia | lia|].
    rewrite zlen_app; lia.
Qed.
End Printing.

(** The bytes [vsnprintf] leaves in a buffer of size [n]: the text cut to [n - 1] and a NUL. *)
Definition printed (n : Z) (t : list Z) : list Z :=
  if n =? 0 then [] else firstn (Z.to_nat (n - 1)) t ++ [0].

Lemma vsnprintf_spec str m out n fuel s fmt args t :
  0 <= n < 2 ^ 63 -> cstring m s fmt -> disjoint s (zlen fmt + 1) out n ->
    (length fmt < fuel)%nat ->
  (forall v l, str v = Some l ->
     cstring m v l /\ disjoint v (zlen l + 1) out n /\ (length l < fuel)%nat) ->
  render str fmt args false false = Some t -> zlen t < 2 ^ 31 ->
  exists m', vsnprintf out n fuel m s args = Some (zlen t, m') /\
    patched m out (zlen (printed n t)) (at_ (printed n t)) m'.
Proof.
  intros Hn C D F Hstr R B; unfold vsnprintf; pose proof (zlen_nonneg t).
  destruct (format_loop_spec str m out n fuel ltac:(lia) Hstr fmt fuel s (P m 0 args false false) [] t)
    as (st & -> & U & E); auto; [| cbn; lia |].
  { split; [|reflexivity]; intros a; cbn; regions; reflexivity. }
  cbn [fst snd app] in U, E; rewrite E.
  assert (I : i32 (zlen t) = zlen t) by (unfold i32; apply swrap_small; lia); rewrite I.
  eexists; split; [reflexivity|]; unfold printed, nz.
  destruct (Z.eqb_spec n 0) as [->|N].
  - rewrite (proj2 (Z.ltb_ge (zlen t) 0)) by lia; cbn [negb].
    intros a; rewrite (U a); unfold zlen in *; cbn [length]; regions; reflexivity.
  - cbn [negb]; assert (L : zlen (firstn (Z.to_nat (n - 1)) t) = Z.min (zlen t) (n - 1))
      by (unfold zlen; rewrite length_firstn; lia).
    assert (P0 : patched m out (Z.min (zlen t) (n - 1)) (at_ (firstn (Z.to_nat (n - 1)) t ++ [0])) (mem st)).
    { intros a; rewrite (U a); destruct (inside a _ _) eqn:I'; [|reflexivity].
      assert (0 <= a - out < Z.min (zlen t) (n - 1)) by (revert I'; regions; congruence || lia).
      rewrite at_app_l by lia; unfold at_; rewrite nth_firstn.
      rewrite (proj2 (Nat.ltb_lt _ _)) by lia; reflexivity. }
    rewrite zlen_app, L; change (zlen [0]) with 1.
    replace (if zlen t <? n then _ else _) with (store8 (mem st) (out + Z.min (zlen t) (n - 1)) 0).
    + apply patched_store8; [exact P0 | lia|]; rewrite at_app_r, L, Z.sub_diag by lia; reflexivity.
    + destruct (Z.ltb_spec (zlen t) n); f_equal; lia.
Qed.

Lemma text_chars x : - 2 ^ 63 < x < 2 ^ 63 ->
  Forall (fun c => 0 < c < 256) (text x) /\ zlen (text x) <= 21.
Proof.
  intros Hx.
  assert (G : forall y, 0 <= y < 2 ^ 63 -> Forall (fun c => 0 < c < 256) (map (Z.add 48) (decimal y)) /\
    zlen (map (Z.add 48) (decimal y)) <= 20).
  { intros y Hy; destruct (decimal_spec y Hy) as (D & _ & _ & L); split.
    - apply Forall_map; eapply Forall_impl; [|exact D]; unfold digit; intros; lia.
    - unfold zlen in *; rewrite length_map; exact L. }
  unfold text; destruct (Z.ltb_spec x 0);
    [destruct (G (- x) ltac:(lia)) as [D L] | destruct (G x ltac:(lia)) as [D L]].
  - rewrite zlen_cons; split; [constructor; [lia | exact D] | lia].
  - split; [exact D | lia].
Qed.

(** ** Theorems *)



(** ** Witnesses *)


