(* ===== verification/PageTable.v ===== *)
(** * Page tables of the proxy kernel ([pk/mmap.c], [machine/vm.h])

    The allocator of the pages that hold page tables, and the walk of the three levels of an
    Sv39 table.  The words of these pages are a function from addresses; a [kassert] that fails
    is [Panic], a loop or a lock that waits for ever is [Hang].  The tables refine a map: one
    entry for each of the [2^27] virtual pages, 0 where a level is missing. *)

From S2P Require Import Prelude.
From Stdlib Require Import ZArith Lia Bool List.
Import ListNotations.
#[local] Open Scope c_scope.
#[local] Open Scope bool_scope.

(** ** Results *)

Inductive result (A : Type) : Type :=
| Ok (a : A)
| Panic
| Hang.
Arguments Ok {_} _. Arguments Panic {_}. Arguments Hang {_}.

(** Operations on a state. *)
Definition op (S A : Type) : Type := S -> result (A * S).

Definition give {S A} (a : A) : op S A := fun s => Ok (a, s).
Definition seq_op {S A B} (c : op S A) (k : A -> op S B) : op S B :=
  fun s => match c s with Ok (a, s') => k a s' | Panic => Panic | Hang => Hang end.
Notation "'let%' x ':=' c 'in' k" := (seq_op c (fun x => k))
  (at level 10, x pattern, c at level 100, k at level 200).
Definition kassert {S} (b : bool) : op S unit := fun s => if b then Ok (tt, s) else Panic.

(** ** Constants *)

Definition RISCV_PGSHIFT : Z := 12.
Definition RISCV_PGSIZE : Z := 1 .<< RISCV_PGSHIFT.
Definition RISCV_PGLEVEL_BITS : Z := 9.
Definition VA_BITS : Z := 39.
Definition PTE_V : Z := 0x001.
Definition PTE_R : Z := 0x002.
Definition PTE_W : Z := 0x004.
Definition PTE_X : Z := 0x008.
Definition PTE_U : Z := 0x010.
Definition PTE_A : Z := 0x040.
Definition PTE_D : Z := 0x080.
Definition PTE_PPN_SHIFT : Z := 10.

Definition pte_create (ppn type : Z) : Z := u64 (ppn .<< PTE_PPN_SHIFT) .| PTE_V .| type.
Definition ptd_create (ppn : Z) : Z := pte_create ppn PTE_V.

(** ** The page area *)

Record pages := Pages {
  word : Z -> Z;
  root_page_table : Z;
  first_free_page : Z;
  next_free_page : Z;
  free_pages : Z
}.

Definition set_word (a v : Z) (s : pages) : pages :=
  Pages (fun x => if x =? a then v else word s x)
    (root_page_table s) (first_free_page s) (next_free_page s) (free_pages s).

Definition __page_alloc : op pages Z :=
  fun s =>
    if next_free_page s =? free_pages s then Panic
    else
      let addr := u64 (first_free_page s + RISCV_PGSIZE * next_free_page s) in
      Ok (addr, Pages (fun x => if (addr <=? x) && (x <? addr + RISCV_PGSIZE) then 0 else word s x)
                  (root_page_table s) (first_free_page s) (next_free_page s + 1) (free_pages s)).

Definition pte_ppn (pte : Z) : Z := pte .>> PTE_PPN_SHIFT.
Definition ppn (addr : Z) : Z := addr .>> RISCV_PGSHIFT.
Definition pt_idx (addr level : Z) : Z :=
  (addr .>> (RISCV_PGLEVEL_BITS * level + RISCV_PGSHIFT)) .& ((1 .<< RISCV_PGLEVEL_BITS) - 1).

(** The loop of [__walk_internal] from the table [t] of level [i]: the entry of level 0, or the
    entry of a higher level that is not valid. *)
Fixpoint walk_loop (w : Z -> Z) (addr t : Z) (i : nat) : Z + Z :=
  match i with
  | O => inr (t + 8 * pt_idx addr 0)
  | S i' =>
      let idx := pt_idx addr (Z.of_nat i) in
      if negb (nz (w (t + 8 * idx) .& PTE_V)) then inl (t + 8 * idx)
      else walk_loop w addr (u64 (pte_ppn (w (t + 8 * idx)) .<< RISCV_PGSHIFT)) i'
  end.

Definition top_level : nat := Z.to_nat ((VA_BITS - RISCV_PGSHIFT) / RISCV_PGLEVEL_BITS - 1).

(** [__walk_internal] and [__continue_walk_create], which calls it again; the null pointer
    is 0. *)
Fixpoint __walk_internal (fuel : nat) (addr : Z) (create : bool) : op pages Z :=
  fun s =>
    match fuel with
    | O => Hang
    | S fuel =>
        match walk_loop (word s) addr (root_page_table s) top_level with
        | inr pte => Ok (pte, s)
        | inl pte =>
            if create then
              (let% page := __page_alloc in
               let% _ := (fun s => Ok (tt, set_word pte (ptd_create (ppn page)) s)) in
               __walk_internal fuel addr true) s
            else Ok (0, s)
        end
    end.

Definition __walk (addr : Z) : op pages Z := __walk_internal 1 addr false.
Definition __walk_create (addr : Z) : op pages Z := __walk_internal 3 addr true.

(** ** The map the tables hold *)

(** The table at the end of a path of indices, the last index first. *)
Fixpoint node (s : pages) (p : list Z) : option Z :=
  match p with
  | [] => Some (root_page_table s)
  | i :: p =>
      match node s p with
      | Some t =>
          let e := word s (t + 8 * i) in
          if nz (e .& PTE_V) then Some (u64 (pte_ppn e .<< RISCV_PGSHIFT)) else None
      | None => None
      end
  end.

Definition path (addr : Z) : list Z := [pt_idx addr 1; pt_idx addr 2].
Definition slot (s : pages) (addr : Z) : option Z :=
  match node s (path addr) with Some t => Some (t + 8 * pt_idx addr 0) | None => None end.

(** The entry of the page of an address; a missing table stands for a table of zeros. *)
Definition pte (s : pages) (addr : Z) : Z :=
  match slot s addr with Some p => word s p | None => 0 end.

Definition vpn (addr : Z) : Z := addr / RISCV_PGSIZE mod 2 ^ 27.

Definition indices (p : list Z) : Prop := Forall (fun i => 0 <= i < 512) p.

(** The tables are a tree of allocated pages. *)
Record tree (s : pages) : Prop := {
  tree_first : 0 < first_free_page s /\ first_free_page s mod RISCV_PGSIZE = 0;
  tree_next : 0 <= next_free_page s <= free_pages s;
  tree_end : first_free_page s + RISCV_PGSIZE * free_pages s <= 2 ^ 55;
  tree_alloc : forall p t, indices p -> (length p <= 2)%nat -> node s p = Some t ->
    exists k, 0 <= k < next_free_page s /\ t = first_free_page s + RISCV_PGSIZE * k;
  tree_inj : forall p q t, indices p -> indices q -> (length p <= 2)%nat -> (length q <= 2)%nat ->
    node s p = Some t -> node s q = Some t -> p = q
}.

(** Everything but the words and the number of pages in use. *)
Definition same_area (s s' : pages) : Prop :=
  root_page_table s' = root_page_table s /\ first_free_page s' = first_free_page s /\
  free_pages s' = free_pages s.

(** ** Indices *)

Lemma pt_idx_div addr level :
  0 <= level -> pt_idx addr level = addr / 2 ^ (9 * level + 12) mod 512.
Proof.
  intros H; unfold pt_idx, RISCV_PGLEVEL_BITS, RISCV_PGSHIFT; rewrite shiftr_div by lia.
  change ((1 .<< 9) - 1) with (2 ^ 9 - 1); apply land_ones_mod; lia.
Qed.

Lemma pt_idx_range addr level : 0 <= level -> 0 <= pt_idx addr level < 512.
Proof. intros H; rewrite pt_idx_div by exact H; apply Z.mod_pos_bound; lia. Qed.

Lemma vpn_idx addr : vpn addr = pt_idx addr 2 * 2 ^ 18 + pt_idx addr 1 * 2 ^ 9 + pt_idx addr 0.
Proof.
  rewrite !pt_idx_div by lia; unfold vpn; change RISCV_PGSIZE with (2 ^ 12).
  change (9 * 2 + 12) with (12 + 18); change (9 * 1 + 12) with (12 + 9);
    change (9 * 0 + 12) with 12.
  rewrite !Z.pow_add_r, <- !Z.div_div by lia; set (x := addr / 2 ^ 12); clearbody x.
  Z.div_mod_to_equations; lia.
Qed.

Lemma same_vpn a b :
  vpn a = vpn b <-> pt_idx a 0 = pt_idx b 0 /\ path a = path b.
Proof.
  rewrite !vpn_idx; pose proof (pt_idx_range a 0); pose proof (pt_idx_range b 0).
  pose proof (pt_idx_range a 1); pose proof (pt_idx_range b 1).
  pose proof (pt_idx_range a 2); pose proof (pt_idx_range b 2); unfold path; split.
  - intros E; assert (pt_idx a 0 = pt_idx b 0 /\ pt_idx a 1 = pt_idx b 1 /\ pt_idx a 2 = pt_idx b 2)
      as (-> & -> & ->) by lia; auto.
  - intros [E0 E]; injection E as E1 E2; lia.
Qed.

Lemma path_indices addr : indices (path addr).
Proof. repeat constructor; apply pt_idx_range; lia. Qed.
#[local] Hint Resolve path_indices : core.

(** Entries of different tables, or different entries, are at different addresses. *)
Lemma entry_inj f j k i i' :
  0 <= i < 512 -> 0 <= i' < 512 ->
  f + RISCV_PGSIZE * j + 8 * i = f + RISCV_PGSIZE * k + 8 * i' -> j = k /\ i = i'.
Proof. change RISCV_PGSIZE with 4096; lia. Qed.

(** ** The walk follows the tree *)

Lemma walk_loop_node s addr :
  walk_loop (word s) addr (root_page_table s) top_level
  = match node s [pt_idx addr 2] with
    | None => inl (root_page_table s + 8 * pt_idx addr 2)
    | Some t =>
        match node s (path addr) with
        | None => inl (t + 8 * pt_idx addr 1)
        | Some t => inr (t + 8 * pt_idx addr 0)
        end
    end.
Proof.
  change top_level with 2%nat; unfold path; cbn [walk_loop node Z.of_nat Pos.of_succ_nat Pos.succ].
  destruct (nz (word s (root_page_table s + 8 * pt_idx addr 2) .& PTE_V)); cbn [negb];
    [|reflexivity].
  destruct (nz (word s (u64 _ + _) .& PTE_V)); reflexivity.
Qed.

Lemma run_walk addr s :
  __walk addr s = Ok (match slot s addr with Some p => p | None => 0 end, s).
Proof.
  unfold __walk, slot; cbn [__walk_internal]; rewrite walk_loop_node; unfold path; cbn [node].
  repeat (destruct (nz _)); reflexivity.
Qed.

(** ** Adding a table *)

(** [__page_alloc] and the write that links the page. *)
Definition linked (a : Z) (s : pages) : pages :=
  let addr := first_free_page s + RISCV_PGSIZE * next_free_page s in
  set_word a (ptd_create (ppn addr))
    (Pages (fun x => if (addr <=? x) && (x <? addr + RISCV_PGSIZE) then 0 else word s x)
       (root_page_table s) (first_free_page s) (next_free_page s + 1) (free_pages s)).

Lemma run_page_alloc s :
  tree s ->
  __page_alloc s =
  if next_free_page s =? free_pages s then Panic
  else let addr := first_free_page s + RISCV_PGSIZE * next_free_page s in
       Ok (addr, Pages (fun x => if (addr <=? x) && (x <? addr + RISCV_PGSIZE) then 0 else word s x)
                   (root_page_table s) (first_free_page s) (next_free_page s + 1) (free_pages s)).
Proof.
  intros [F N E _ _]; unfold __page_alloc; rewrite u64_small; [reflexivity|].
  change RISCV_PGSIZE with 4096 in *; lia.
Qed.

Lemma frame_ptd addr :
  addr mod RISCV_PGSIZE = 0 -> 0 <= addr < 2 ^ 56 ->
  nz (ptd_create (ppn addr) .& PTE_V) = true /\
  u64 (pte_ppn (ptd_create (ppn addr)) .<< RISCV_PGSHIFT) = addr.
Proof.
  change RISCV_PGSIZE with 4096; intros A R.
  assert (exists q, addr = q * 4096 /\ 0 <= q < 2 ^ 44) as (q & -> & Q)
    by (exists (addr / 4096); Z.div_mod_to_equations; lia).
  assert (E : ptd_create (ppn (q * 4096)) = q * 2 ^ 10 + 1).
  { unfold ptd_create, pte_create, ppn; change RISCV_PGSHIFT with 12; change PTE_PPN_SHIFT with 10.
    change PTE_V with 1; rewrite <- Z.lor_assoc; change (1 .| 1) with 1.
    rewrite shiftr_div, shiftl_mul by lia; change (2 ^ 12) with 4096.
    rewrite Z.div_mul, u64_small by lia; apply lor_add_disjoint; lia. }
  rewrite E; split.
  - unfold nz; change PTE_V with (2 ^ 1 - 1); rewrite land_ones_mod by lia.
    replace (q * 2 ^ 10 + 1) with (1 + q * 2 ^ 9 * 2) by lia.
    change (2 ^ 1) with 2; rewrite Z.mod_add by lia; reflexivity.
  - unfold pte_ppn; change RISCV_PGSHIFT with 12; change PTE_PPN_SHIFT with 10.
    rewrite shiftr_div, shiftl_mul, Z.div_add_l, (Z.div_small 1), Z.add_0_r by lia.
    rewrite u64_small; lia.
Qed.

Section Link.
Context (s : pages) (T : tree s) (free : next_free_page s < free_pages s).
Context (p : list Z) (i t : Z) (Hp : indices (i :: p)) (Lp : (length p <= 1)%nat).
Context (Hn : node s p = Some t) (Hi : node s (i :: p) = None).

Let new : Z := first_free_page s + RISCV_PGSIZE * next_free_page s.
Let s' : pages := linked (t + 8 * i) s.

Lemma table_of q u : indices q -> (length q <= 2)%nat -> node s q = Some u ->
  exists k, 0 <= k < next_free_page s /\ u = first_free_page s + RISCV_PGSIZE * k.
Proof using T. apply (tree_alloc s T). Qed.

(** The words of the linked state in the tables of the old one. *)
Lemma linked_word q u j :
  indices (j :: q) -> (length q <= 2)%nat -> node s q = Some u ->
  word s' (u + 8 * j) = if list_eq_dec Z.eq_dec (j :: q) (i :: p) then ptd_create (ppn new)
                        else word s (u + 8 * j).
Proof using T Hp Lp Hn.
  intros Hq Lq Hu; inversion Hq as [|? ? Hj Hq']; inversion Hp as [|? ? Hi' Hp']; subst.
  destruct (table_of q u Hq' Lq Hu) as (k & Hk & Ek).
  destruct (table_of p t Hp' ltac:(lia) Hn) as (k0 & Hk0 & Ek0).
  unfold s', linked; cbn [word set_word]; fold new.
  assert (N : (new <=? u + 8 * j) && (u + 8 * j <? new + RISCV_PGSIZE) = false).
  { rewrite andb_false_iff, Z.leb_gt, Z.ltb_ge; unfold new; change RISCV_PGSIZE with 4096 in *;
      lia. }
  rewrite N; destruct (list_eq_dec Z.eq_dec (j :: q) (i :: p)) as [E|E].
  - injection E as -> ->; rewrite Hn in Hu; injection Hu as ->; rewrite Z.eqb_refl; reflexivity.
  - destruct (Z.eqb_spec (u + 8 * j) (t + 8 * i)) as [A|A]; [|reflexivity]; exfalso; apply E.
    rewrite Ek, Ek0 in A; destruct (entry_inj _ _ _ _ _ Hj Hi' A) as [K J].
    f_equal; [exact J|]; apply (tree_inj s T q p u); auto; congruence.
Qed.

(** The new page is empty. *)
Lemma linked_new j : 0 <= j < 512 -> word s' (new + 8 * j) = 0.
Proof using T Hp Lp Hn.
  intros Hj; inversion Hp as [|? ? Hi' Hp']; subst.
  destruct (table_of p t Hp' ltac:(lia) Hn) as (k0 & Hk0 & Ek0).
  unfold s', linked; cbn [word set_word]; fold new.
  destruct (Z.eqb_spec (new + 8 * j) (t + 8 * i)) as [A|A].
  - rewrite Ek0 in A; destruct (entry_inj _ _ _ _ _ Hj Hi' A); lia.
  - replace ((new <=? new + 8 * j) && (new + 8 * j <? new + RISCV_PGSIZE)) with true;
      [reflexivity|].
    symmetry; rewrite andb_true_iff, Z.leb_le, Z.ltb_lt; change RISCV_PGSIZE with 4096; lia.
Qed.

Lemma linked_node q :
  indices q -> (length q <= 2)%nat ->
  node s' q = if list_eq_dec Z.eq_dec q (i :: p) then Some new else node s q.
Proof using T free Hp Lp Hn Hi.
  induction q as [|j q IH]; intros Hq Lq; [destruct (list_eq_dec _ _ _);
    [discriminate|reflexivity]|].
  inversion Hq as [|? ? Hj Hq']; subst; cbn [length] in Lq; cbn [node]; rewrite IH by (auto; lia).
  destruct (list_eq_dec Z.eq_dec q (i :: p)) as [->|N].
  - rewrite linked_new by exact Hj; change (nz (0 .& PTE_V)) with false; cbv iota.
    destruct (list_eq_dec Z.eq_dec _ _) as [E|_]; [apply (f_equal (@length Z)) in E; cbn in E;
      lia|].
    rewrite Hi; reflexivity.
  - destruct (node s q) as [u|] eqn:U.
    + rewrite (linked_word q u j Hq ltac:(lia) U).
      destruct (list_eq_dec Z.eq_dec (j :: q) (i :: p)); [|reflexivity].
      destruct (frame_ptd new) as [-> ->]; [| |reflexivity]; pose proof T as [F Nx En _ _];
        unfold new.
      * rewrite Z.mul_comm, Z.mod_add by discriminate; apply F.
      * change RISCV_PGSIZE with 4096 in *; lia.
    + destruct (list_eq_dec Z.eq_dec (j :: q) (i :: p)) as [E|_]; [|reflexivity].
      injection E as -> ->; congruence.
Qed.

Lemma linked_tree : tree s'.
Proof using T free Hp Lp Hn Hi.
  pose proof T as [F N E A I]; split; try assumption.
  - change (next_free_page s') with (next_free_page s + 1);
      change (free_pages s') with (free_pages s); lia.
  - intros q u Hq Lq; rewrite linked_node by assumption.
    change (next_free_page s') with (next_free_page s + 1).
    change (first_free_page s') with (first_free_page s).
    destruct (list_eq_dec Z.eq_dec q (i :: p)) as [->|_].
    + intros [= <-]; exists (next_free_page s); split; [lia|reflexivity].
    + intros U; destruct (A q u Hq Lq U) as (k & Hk & ->); exists k; split; [lia | reflexivity].
  - assert (X : forall q u, indices q -> (length q <= 2)%nat -> node s q = Some u -> u <> new).
    { intros q u Hq Lq U; destruct (A q u Hq Lq U) as (k & Hk & ->); unfold new.
      change RISCV_PGSIZE with 4096; lia. }
    intros q r u Hq Hr Lq Lr; rewrite !linked_node by assumption.
    destruct (list_eq_dec Z.eq_dec q (i :: p)) as [->|_], (list_eq_dec Z.eq_dec r (i :: p)) as [->|_];
      intros U V; [reflexivity | | |exact (I q r u Hq Hr Lq Lr U V)].
    + injection U as <-; destruct (X r new Hr Lr V eq_refl).
    + injection V as <-; destruct (X q new Hq Lq U eq_refl).
Qed.

Lemma linked_pte addr : pte s' addr = pte s addr.
Proof using T free Hp Lp Hn Hi.
  unfold pte, slot; rewrite linked_node by (auto; cbn; lia).
  destruct (list_eq_dec Z.eq_dec (path addr) (i :: p)) as [E|E].
  - rewrite E, Hi; apply linked_new, pt_idx_range; lia.
  - destruct (node s (path addr)) as [u|] eqn:U; [|reflexivity].
    rewrite (linked_word (path addr) u).
    + destruct (list_eq_dec _ _ _) as [E'|_]; [|reflexivity].
      apply (f_equal (@length Z)) in E'; cbn in E'; lia.
    + constructor; [apply pt_idx_range; lia | apply path_indices].
    + cbn; lia.
    + exact U.
Qed.

Lemma linked_slot addr q : slot s addr = Some q -> slot s' addr = Some q.
Proof using T free Hp Lp Hn Hi.
  unfold slot; rewrite linked_node by (auto; cbn; lia).
  destruct (list_eq_dec Z.eq_dec (path addr) (i :: p)) as [E|_]; [|auto].
  rewrite E, Hi; discriminate.
Qed.
End Link.

(** A page taken for something else leaves the tables as they are. *)
Lemma page_alloc_tree s a s' :
  tree s -> __page_alloc s = Ok (a, s') ->
  tree s' /\ same_area s s' /\ next_free_page s' = next_free_page s + 1 /\
  a = first_free_page s + RISCV_PGSIZE * next_free_page s /\
    (forall addr, pte s' addr = pte s addr).
Proof.
  intros T; rewrite run_page_alloc by exact T;
    destruct (Z.eqb_spec (next_free_page s) (free_pages s));
    [discriminate|]; cbv zeta; set (new := first_free_page s + RISCV_PGSIZE * next_free_page s).
  intros [= <- <-]; set (s' := Pages _ _ _ _ _).
  pose proof T as [F N E A I].
  assert (W : forall q u j, indices (j :: q) -> (length q <= 2)%nat -> node s q = Some u ->
                word s' (u + 8 * j) = word s (u + 8 * j)).
  { intros q u j Hq Lq U; inversion Hq as [|? ? Hj Hq']; subst.
    destruct (A q u Hq' Lq U) as (k & Hk & ->); unfold s', new; cbn [word].
    replace (_ && _) with false; [reflexivity|]; symmetry;
      rewrite andb_false_iff, Z.leb_gt, Z.ltb_ge.
    change RISCV_PGSIZE with 4096; lia. }
  assert (Nd : forall q, indices q -> (length q <= 2)%nat -> node s' q = node s q).
  { induction q as [|j q IH]; intros Hq Lq; [reflexivity|]; inversion Hq; subst; cbn [length] in Lq.
    cbn [node]; rewrite IH by (auto; lia); destruct (node s q) as [u|] eqn:U; [|reflexivity].
    rewrite (W q u j Hq ltac:(lia) U); reflexivity. }
  split; [|split; [repeat split|]; split; [reflexivity|]; split; [reflexivity|]].
  - split; try assumption; cbn [next_free_page free_pages first_free_page s'].
    + lia.
    + intros q u Hq Lq; rewrite Nd by assumption; intros U.
      destruct (A q u Hq Lq U) as (k & Hk & ->); exists k; split; [lia | reflexivity].
    + intros q r u Hq Hr Lq Lr; rewrite !Nd by assumption; apply I; assumption.
  - intros addr; unfold pte, slot; rewrite Nd by (auto; cbn; lia).
    destruct (node s (path addr)) as [u|] eqn:U; [|reflexivity].
    apply (W (path addr)); [|cbn; lia | exact U]; constructor; [apply pt_idx_range;
      lia | apply path_indices].
Qed.

(** ** [__walk_create] *)

Lemma walk_found f addr s t :
  node s (path addr) = Some t -> __walk_internal (S f) addr true s = Ok (t + 8 * pt_idx addr 0, s).
Proof.
  intros E; cbn [__walk_internal]; rewrite walk_loop_node, E; unfold path in E;
    cbn [node] in E |- *.
  destruct (nz (word s _ .& PTE_V)); [reflexivity | discriminate E].
Qed.

Lemma walk_link f addr s a :
  tree s -> walk_loop (word s) addr (root_page_table s) top_level = inl a ->
  __walk_internal (S f) addr true s
  = if next_free_page s =? free_pages s then Panic else __walk_internal f addr true (linked a s).
Proof.
  intros T E; cbn [__walk_internal]; rewrite E; unfold seq_op; rewrite run_page_alloc by exact T.
  destruct (_ =? _); reflexivity.
Qed.

(** The state after [__walk_create]: the same map, with the entry in place. *)
Record extends (addr p : Z) (s s' : pages) : Prop := {
  ext_tree : tree s';
  ext_area : same_area s s';
  ext_next : next_free_page s <= next_free_page s' <= next_free_page s + 2;
  ext_pte : forall a, pte s' a = pte s a;
  ext_slots : forall a q, slot s a = Some q -> slot s' a = Some q;
  ext_slot : slot s' addr = Some p
}.

Lemma slot_of addr s t : node s (path addr) = Some t -> slot s addr = Some (t + 8 * pt_idx addr 0).
Proof. unfold slot; intros ->; reflexivity. Qed.

(** With the table of level 1 in place. *)
Lemma walk_create_1 f addr s t :
  tree s -> node s [pt_idx addr 2] = Some t ->
  (__walk_internal (S (S f)) addr true s = Panic /\ next_free_page s = free_pages s) \/
  exists p s', __walk_internal (S (S f)) addr true s = Ok (p, s') /\ extends addr p s s' /\
    next_free_page s' <= next_free_page s + 1.
Proof.
  intros T E1; destruct (node s (path addr)) as [u|] eqn:E0.
  - right; eexists; eexists; rewrite (walk_found _ _ _ u E0); split; [reflexivity|]; split; [|lia].
    split; auto; [repeat split | lia | apply slot_of, E0].
  - rewrite (walk_link (S f) addr s (t + 8 * pt_idx addr 1)) by
      (try exact T; rewrite walk_loop_node, E1, E0; reflexivity).
    destruct (Z.eqb_spec (next_free_page s) (free_pages s)) as [F|F]; [auto|right].
    pose proof (tree_next s T) as N; assert (Fr : next_free_page s < free_pages s) by lia.
    assert (Hp : indices [pt_idx addr 1; pt_idx addr 2]) by (apply path_indices).
    pose proof (linked_node s T Fr [pt_idx addr 2] (pt_idx addr 1) t Hp ltac:(cbn; lia) E1 E0
                  (path addr) Hp ltac:(cbn; lia)) as E2.
    destruct (list_eq_dec _ _ _) as [_|X] in E2; [|destruct (X eq_refl)].
    rewrite (walk_found _ _ _ _ E2); eexists; eexists; split; [reflexivity|]; split; [|cbn; lia].
    split; [exact (linked_tree s T Fr _ _ _ Hp ltac:(cbn; lia) E1 E0) | repeat split | cbn; lia
           | exact (linked_pte s T Fr _ _ _ Hp ltac:(cbn; lia) E1 E0)
           | exact (linked_slot s T Fr _ _ _ Hp ltac:(cbn; lia) E1 E0) | apply slot_of, E2].
Qed.

Lemma run_walk_create addr s :
  tree s ->
  (__walk_create addr s = Panic /\ free_pages s < next_free_page s + 2) \/
  exists p s', __walk_create addr s = Ok (p, s') /\ extends addr p s s'.
Proof.
  intros T; unfold __walk_create; destruct (node s [pt_idx addr 2]) as [t|] eqn:E1.
  - destruct (walk_create_1 1 addr s t T E1) as [[-> F]|(p & s' & E & X & _)]; [left | right;
      eauto].
    split; [reflexivity | lia].
  - rewrite (walk_link 2 addr s (root_page_table s + 8 * pt_idx addr 2)) by
      (try exact T; rewrite walk_loop_node, E1; reflexivity).
    destruct (Z.eqb_spec (next_free_page s) (free_pages s)) as [F|F]; [left; split;
      [reflexivity|lia]|].
    pose proof (tree_next s T) as N; assert (Fr : next_free_page s < free_pages s) by lia.
    assert (Hp : indices [pt_idx addr 2]) by (repeat constructor; apply pt_idx_range; lia).
    pose proof (linked_node s T Fr [] (pt_idx addr 2) _ Hp ltac:(cbn; lia) eq_refl E1
                  [pt_idx addr 2] Hp ltac:(cbn; lia)) as E2.
    destruct (list_eq_dec _ _ _) as [_|X] in E2; [|destruct (X eq_refl)].
    pose proof (linked_tree s T Fr _ _ _ Hp ltac:(cbn; lia) eq_refl E1) as T1.
    destruct (walk_create_1 0 addr _ _ T1 E2) as [[-> F1]|(p & s' & -> & X & Nx)].
    + left; split; [reflexivity | cbn in F1; lia].
    + right; exists p, s'; split; [reflexivity|]; destruct X as [X1 X2 X3 X4 X5 X6].
      split; auto.
      * cbn [next_free_page linked set_word] in X3, Nx; lia.
      * intros a; rewrite X4; exact (linked_pte s T Fr _ _ _ Hp ltac:(cbn; lia) eq_refl E1 a).
      * intros a q Hq; apply X5.
        exact (linked_slot s T Fr _ _ _ Hp ltac:(cbn; lia) eq_refl E1 a q Hq).
Qed.

(** ** Writing an entry *)

Section Store.
Context (s : pages) (T : tree s) (addr p v : Z) (Hs : slot s addr = Some p).

Lemma store_entry :
  exists t k, node s (path addr) = Some t /\ p = t + 8 * pt_idx addr 0 /\
    0 <= k < next_free_page s /\ t = first_free_page s + RISCV_PGSIZE * k.
Proof using T Hs.
  unfold slot in Hs; destruct (node s (path addr)) as [t|] eqn:E; [|discriminate Hs].
  destruct (tree_alloc s T _ _ (path_indices addr) ltac:(cbn; lia) E) as (k & Hk & Ek).
  exists t, k; repeat split; auto; try apply Hk; congruence.
Qed.

(** An entry of a table is the one written only on the same path. *)
Lemma store_word q u j :
  indices (j :: q) -> (length q <= 2)%nat -> node s q = Some u ->
  word (set_word p v s) (u + 8 * j)
  = if list_eq_dec Z.eq_dec (j :: q) (pt_idx addr 0 :: path addr) then v else word s (u + 8 * j).
Proof using T Hs.
  intros Hq Lq U; inversion Hq as [|? ? Hj Hq']; subst.
  destruct store_entry as (t & k & E & Ep & Hk & Ek).
  destruct (tree_alloc s T q u Hq' Lq U) as (k' & Hk' & Ek').
  pose proof (pt_idx_range addr 0 ltac:(lia)) as R; cbn [word set_word].
  destruct (list_eq_dec Z.eq_dec _ _) as [X|X].
  - injection X as -> ->; rewrite E in U; injection U as <-; rewrite Ep, Z.eqb_refl; reflexivity.
  - destruct (Z.eqb_spec (u + 8 * j) p) as [Y|_]; [|reflexivity]; exfalso; apply X.
    rewrite Ep, Ek, Ek' in Y; destruct (entry_inj _ _ _ _ _ Hj R Y) as [K J].
    f_equal; [exact J|]; apply (tree_inj s T q (path addr) u); auto; congruence.
Qed.

Lemma store_node q : indices q -> (length q <= 2)%nat -> node (set_word p v s) q = node s q.
Proof using T Hs.
  induction q as [|j q IH]; intros Hq Lq; [reflexivity|]; inversion Hq; subst; cbn [length] in Lq.
  cbn [node]; rewrite IH by (auto; lia); destruct (node s q) as [u|] eqn:U; [|reflexivity].
  rewrite (store_word q u j Hq ltac:(lia) U); destruct (list_eq_dec _ _ _) as [X|]; [|reflexivity].
  apply (f_equal (@length Z)) in X; cbn in X; lia.
Qed.

Lemma store_tree : tree (set_word p v s).
Proof using T Hs.
  pose proof T as [F N E A I]; split; try assumption.
  - intros q u Hq Lq; rewrite store_node by assumption; apply A; assumption.
  - intros q r u Hq Hr Lq Lr; rewrite !store_node by assumption; apply I; assumption.
Qed.

Lemma store_slot a : slot (set_word p v s) a = slot s a.
Proof using T Hs. unfold slot; rewrite store_node by (auto; cbn; lia); reflexivity. Qed.

Lemma store_pte a : pte (set_word p v s) a = if vpn a =? vpn addr then v else pte s a.
Proof using T Hs.
  unfold pte; rewrite store_slot; unfold slot; destruct (node s (path a)) as [u|] eqn:U.
  - rewrite (store_word (path a) u); auto; [|constructor; [apply pt_idx_range;
      lia | apply path_indices]].
    destruct (list_eq_dec _ _ _) as [X|X], (Z.eqb_spec (vpn a) (vpn addr)) as [Y|Y]; auto.
    + destruct Y; apply same_vpn; injection X; unfold path; intros -> -> ->; auto.
    + destruct X; apply same_vpn in Y as [Y0 Y1]; congruence.
  - destruct (Z.eqb_spec (vpn a) (vpn addr)) as [Y|_]; [|reflexivity].
    apply same_vpn in Y as [_ Y]; destruct store_entry as (t & k & E & _); congruence.
Qed.
End Store.

Lemma slot_not_null s addr p : tree s -> slot s addr = Some p -> p <> 0.
Proof.
  intros T H; destruct (store_entry s T addr p H) as (t & k & _ & -> & Hk & ->).
  pose proof (tree_first s T); pose proof (pt_idx_range addr 0 ltac:(lia)).
  change RISCV_PGSIZE with 4096 in *; lia.
Qed.

Lemma pte_vpn s a b : vpn a = vpn b -> pte s a = pte s b.
Proof. intros E; apply same_vpn in E as [E0 E]; unfold pte, slot; rewrite E0, E; reflexivity. Qed.

(** C12: the page tables refine a map from virtual pages to entries.  [__walk] changes nothing and
    returns the place of the entry of the page, or null when the entry is 0 for lack of a table.
    [__walk_create] returns the place of the entry, taking at most two pages for the missing
    tables and failing only when they run out; the map is as it was.  Writing there changes the
    entry of that page and of no other.  The tables remain a tree of distinct pages. *)
Theorem page_table_refines_map addr s :
  tree s ->
  (exists p, __walk addr s = Ok (p, s) /\ (if p =? 0 then pte s addr = 0 else word s p = pte s addr)) /\
  (next_free_page s + 2 <= free_pages s -> exists r, __walk_create addr s = Ok r) /\
  (__walk_create addr s <> Hang) /\
  (forall p s' v, __walk_create addr s = Ok (p, s') ->
     let s'' := set_word p v s' in
     p <> 0 /\ tree s' /\ tree s'' /\ next_free_page s' <= next_free_page s + 2 /\
     forall a, pte s' a = pte s a /\ pte s'' a = if vpn a =? vpn addr then v else pte s a).
Proof.
  intros T; split; [|split; [|split]].
  - rewrite run_walk; eexists; split; [reflexivity|]; unfold pte.
    destruct (slot s addr) as [p|] eqn:E; [|reflexivity].
    rewrite (proj2 (Z.eqb_neq p 0)) by exact (slot_not_null s addr p T E); reflexivity.
  - intros N; destruct (run_walk_create addr s T) as [[_ F]|(p & s' & E & _)]; [lia | eauto].
  - destruct (run_walk_create addr s T) as [[-> _]|(p & s' & -> & _)]; discriminate.
  - intros p s' v E s''; destruct (run_walk_create addr s T) as [[E' _]|(q & r & E' & X)];
      [congruence|]; rewrite E in E'; injection E' as <- <-; destruct X as [X1 X2 X3 X4 _ X5].
    split; [exact (slot_not_null _ _ _ X1 X5)|]; split; [exact X1|].
    split; [exact (store_tree _ X1 _ _ v X5)|]; split; [lia|]; intros a; split; [apply X4|].
    unfold s''; rewrite (store_pte _ X1 _ _ v X5), X4; reflexivity.
Qed.

(** ** A first table *)

(** The state after the first page has been taken for the root. *)
Definition fresh (first n : Z) : pages := Pages (fun _ => 0) first first 1 n.

Lemma zero_tree w first n :
  (forall x, w x = 0) -> 0 < first -> first mod RISCV_PGSIZE = 0 -> 1 <= n ->
  first + RISCV_PGSIZE * n <= 2 ^ 55 ->
  tree (Pages w first first 1 n) /\ forall a, pte (Pages w first first 1 n) a = 0.
Proof.
  intros W F M N E; set (s := Pages w first first 1 n).
  assert (Nd : forall i q, node s (i :: q) = None).
  { intros i q; cbn [node]; destruct (node _ q); [cbn [word s]; rewrite W|]; reflexivity. }
  split; [|intros a; unfold pte, slot, path; rewrite Nd; reflexivity].
  split; cbn [first_free_page next_free_page free_pages s]; try lia.
  - intros [|i q] t _ _; [|rewrite Nd; discriminate]; intros [= <-]; exists 0; split; lia.
  - intros [|i q] [|j r] t _ _ _ _; rewrite ?Nd; try discriminate; reflexivity.
Qed.

Lemma page_table_refines_map_witness :
  exists p s', __walk_create 0x12345678 (fresh 0x80010000 16) = Ok (p, s') /\
    pte (set_word p 0xcf s') 0x12345fff = 0xcf /\ pte (set_word p 0xcf s') 0x12346000 = 0.
Proof.
  destruct (zero_tree (fun _ => 0) 0x80010000 16) as [T Z];
    [reflexivity..|discriminate|discriminate|].
  fold (fresh 0x80010000 16) in T, Z.
  destruct (page_table_refines_map 0x12345678 (fresh 0x80010000 16) T) as (_ & C & _ & W).
  destruct C as [[p s'] E]; [discriminate|]; exists p, s'; split; [exact E|].
  destruct (W p s' 0xcf E) as (_ & _ & _ & _ & P).
  destruct (P 0x12345fff) as [_ ->], (P 0x12346000) as [_ ->]; rewrite Z; vm_compute; auto.
Defined.
