(* ===== verification/Mmap.v ===== *)
(** * Virtual memory of the proxy kernel ([pk/mmap.c], [pk/handlers.c])

    Regions ([vmr_t]) and the entries of the page tables that refer to them: an entry is 0, the
    address of the region of a page that has not been touched, or a valid entry.  The page
    tables are those of [PageTable.v] and the files those of [File.v].  The memory of user pages
    is a byte for every physical address.  The host is a parameter: its system calls, and the
    bytes that a read stores in the buffer. *)

From S2P Require Import Prelude File PageTable.
From stdpp Require Import base list.
From Stdlib Require Import ZArith Lia.
#[local] Open Scope Z_scope.
#[local] Open Scope c_scope.
#[local] Open Scope bool_scope.

(** ** Constants *)

Definition DRAM_BASE : Z := 0x80000000.
Definition PROT_READ : Z := 1.
Definition PROT_WRITE : Z := 2.
Definition PROT_EXEC : Z := 4.
Definition MAP_PRIVATE : Z := 0x2.
Definition MAP_FIXED : Z := 0x10.
Definition MAP_ANONYMOUS : Z := 0x20.
Definition MAP_POPULATE : Z := 0x8000.
Definition EACCES : Z := 13.
Definition EINVAL : Z := 22.
Definition ENOSYS : Z := 38.

Definition ROUNDUP (a b : Z) : Z := u64 ((u64 (a - 1) / b + 1) * b).

(** ** State *)

Record vmr_t := Vmr {
  v_addr : Z;
  v_length : Z;
  v_file : option nat;
  v_offset : Z;
  v_refcnt : Z;
  v_prot : Z
}.

Definition sizeof_vmr : Z := 40.
Definition MAX_VMR : nat := Z.to_nat (RISCV_PGSIZE / sizeof_vmr).

(** The fields of [current] that the code uses. *)
Record elf_info := ElfInfo {
  brk_min : Z;
  brk : Z;
  brk_max : Z;
  mmap_max : Z;
  stack_top : Z
}.

Record vm (H : Type) := Vm {
  area : pages;
  vmrs : Z;
  vmr : list vmr_t;
  vm_lock : bool;
  first_free_paddr : Z;
  demand_paging : bool;
  current : elf_info;
  umem : Z -> Z;
  kern : pk H
}.
Arguments Vm {_} _ _ _ _ _ _ _ _ _. Arguments area {_} _. Arguments vmrs {_} _.
Arguments vmr {_} _. Arguments vm_lock {_} _. Arguments first_free_paddr {_} _.
Arguments demand_paging {_} _. Arguments current {_} _. Arguments umem {_} _.
Arguments kern {_} _.

Definition set_area {H} (x : pages) (s : vm H) : vm H :=
  Vm x (vmrs s) (vmr s) (vm_lock s) (first_free_paddr s) (demand_paging s) (current s) (umem s)
    (kern s).
Definition set_vmrs {H} (p : Z) (l : list vmr_t) (s : vm H) : vm H :=
  Vm (area s) p l (vm_lock s) (first_free_paddr s) (demand_paging s) (current s) (umem s) (kern s).
Definition set_lock {H} (b : bool) (s : vm H) : vm H :=
  Vm (area s) (vmrs s) (vmr s) b (first_free_paddr s) (demand_paging s) (current s) (umem s)
    (kern s).
Definition set_current {H} (c : elf_info) (s : vm H) : vm H :=
  Vm (area s) (vmrs s) (vmr s) (vm_lock s) (first_free_paddr s) (demand_paging s) c (umem s)
    (kern s).
Definition set_umem {H} (f : Z -> Z) (s : vm H) : vm H :=
  Vm (area s) (vmrs s) (vmr s) (vm_lock s) (first_free_paddr s) (demand_paging s) (current s) f
    (kern s).
Definition set_kern {H} (k : pk H) (s : vm H) : vm H :=
  Vm (area s) (vmrs s) (vmr s) (vm_lock s) (first_free_paddr s) (demand_paging s) (current s)
    (umem s) k.

Definition set_brk (b : Z) (c : elf_info) : elf_info :=
  ElfInfo (brk_min c) b (brk_max c) (mmap_max c) (stack_top c).
Definition set_brk_max (b : Z) (c : elf_info) : elf_info :=
  ElfInfo (brk_min c) (brk c) b (mmap_max c) (stack_top c).

(** Bytes from a list, and zeros. *)
Definition put_bytes (m : Z -> Z) (a : Z) (l : list Z) : Z -> Z :=
  fun x => if (a <=? x) && (x <? a + Z.of_nat (length l)) then nth (Z.to_nat (x - a)) l 0 else m x.
Definition zero_bytes (m : Z -> Z) (a n : Z) : Z -> Z :=
  fun x => if (a <=? x) && (x <? a + n) then 0 else m x.

Section Mmap.
Context {H : Type} (frontend_syscall : Z -> list Z -> H -> Z * H).
Context (pread_bytes : list Z -> H -> list Z).

(** Operations of the parts. *)
Definition on_area {A} (c : op pages A) : op (vm H) A :=
  fun s => match c (area s) with
           | Ok (a, x) => Ok (a, set_area x s)
           | Panic => Panic
           | Hang => Hang
           end.
Definition on_kern {A} (c : K H A) : op (vm H) A :=
  fun s => match c (kern s) with Some (a, k) => Ok (a, set_kern k s) | None => Panic end.

(** The proxy kernel runs on one hart: a lock that is held is never released. *)
Definition spinlock_lock : op (vm H) unit :=
  fun s => if vm_lock s then Hang else Ok (tt, set_lock true s).
Definition spinlock_unlock : op (vm H) unit := fun s => Ok (tt, set_lock false s).

(** [*pte] and [*pte = v]. *)
Definition read_pte (p : Z) : op (vm H) Z := fun s => Ok (word (area s) p, s).
Definition write_pte (p v : Z) : op (vm H) unit := fun s => Ok (tt, set_area (set_word p v (area s)) s).

(** ** Regions *)

Definition put_vmr (i : nat) (v : vmr_t) : op (vm H) unit :=
  fun s => Ok (tt, set_vmrs (vmrs s) (<[i := v]> (vmr s)) s).
Definition get_vmr (i : nat) : op (vm H) vmr_t :=
  fun s => match vmr s !! i with Some v => Ok (v, s) | None => Panic end.

(** [(vmr_t* )x] as the index of a region. *)
Definition vmr_at (x : Z) : op (vm H) nat :=
  fun s => Ok (Z.to_nat ((x - vmrs s) / sizeof_vmr), s).

(** The page of the regions, on first use. *)
Definition vmr_page : op (vm H) unit :=
  fun s =>
    if vmrs s =? 0 then
      (let% _ := spinlock_lock in
       let% page := on_area __page_alloc in
       let% _ := (fun s => Ok (tt, set_vmrs page (replicate MAX_VMR (Vmr 0 0 None 0 0 0)) s)) in
       spinlock_unlock) s
    else Ok (tt, s).

Definition __vmr_alloc (addr length : Z) (file : option nat) (offset refcnt prot : Z)
    : op (vm H) Z :=
  let% _ := vmr_page in
  fun s =>
    match list_find (fun v => v_refcnt v = 0) (vmr s) with
    | Some (i, _) =>
        (let% _ := match file with Some f => on_kern (file_incref f) | None => give tt end in
         let% _ := put_vmr i (Vmr addr length file offset refcnt prot) in
         give (vmrs s + sizeof_vmr * Z.of_nat i)) s
    | None => Ok (0, s)
    end.

Definition __vmr_decref (i : nat) (dec : Z) : op (vm H) unit :=
  let% v := get_vmr i in
  let n := u32 (v_refcnt v - dec) in
  let% _ := put_vmr i (Vmr (v_addr v) (v_length v) (v_file v) (v_offset v) n (v_prot v)) in
  if n =? 0 then
    match v_file v with Some f => on_kern (file_decref frontend_syscall f) | None => give tt end
  else give tt.

(** ** Address space *)

Definition __va_avail (vaddr : Z) : op (vm H) bool :=
  let% pte := on_area (__walk vaddr) in
  let% e := read_pte pte in
  give ((pte =? 0) || (e =? 0)).

(** [for (a = last; a > first && __va_avail(a); a -= RISCV_PGSIZE)]. *)
Fixpoint avail_down (fuel : nat) (first a : Z) : op (vm H) Z :=
  match fuel with
  | O => fun _ => Hang
  | S fuel =>
      if first <? a then
        let% avail := __va_avail a in
        if avail then avail_down fuel first (u64 (a - RISCV_PGSIZE)) else give a
      else give a
  end.

Fixpoint vm_alloc_loop (fuel : nat) (npage last a : Z) : op (vm H) Z :=
  match fuel with
  | O => fun _ => Hang
  | S fuel =>
      if a <=? last then
        let% avail := __va_avail a in
        if negb avail then vm_alloc_loop fuel npage last (u64 (a + RISCV_PGSIZE))
        else
          let% b := avail_down (S (Z.to_nat npage)) a (u64 (a + (npage - 1) * RISCV_PGSIZE)) in
          if a <? b then vm_alloc_loop fuel npage last (u64 (b + RISCV_PGSIZE)) else give b
      else give 0
  end.

Definition __vm_alloc (npage : Z) : op (vm H) Z :=
  fun s =>
    let start := brk (current s) in
    let last := u64 (mmap_max (current s) - npage * RISCV_PGSIZE) in
    vm_alloc_loop (S (Z.to_nat ((last - start) / RISCV_PGSIZE + 1))) npage last start s.

Definition prot_to_type (prot user : Z) : Z :=
  let pte := 0 in
  let pte := if nz (prot .& PROT_READ) then pte .| (PTE_R .| PTE_A) else pte in
  let pte := if nz (prot .& PROT_WRITE) then pte .| (PTE_W .| PTE_D) else pte in
  let pte := if nz (prot .& PROT_EXEC) then pte .| (PTE_X .| PTE_A) else pte in
  let pte := if pte =? 0 then PTE_R else pte in
  if nz user then pte .| PTE_U else pte.

Definition __valid_user_range (vaddr len : Z) (s : vm H) : bool :=
  if u64 (vaddr + len) <? vaddr then false else u64 (vaddr + len) <=? mmap_max (current s).

Definition va2pa (va : Z) : op (vm H) Z :=
  fun s => Ok (if DRAM_BASE <=? va then va else u64 (va + first_free_paddr s), s).

(** [file_pread] into a page that is present, where [populate_mapping] changes nothing; the
    host stores the bytes. *)
Definition file_pread (f : nat) (buf size offset : Z) : op (vm H) Z :=
  let% x := on_kern (get_file f) in
  let% pa := va2pa buf in
  fun s =>
    let args := [kfd x; pa; size; offset; 0; 0; 0] in
    let bytes := pread_bytes args (host (kern s)) in
    (let% ret := on_kern (frontend frontend_syscall SYS_pread args) in
     let% _ := (fun s => Ok (tt, set_umem (put_bytes (umem s) pa bytes) s)) in
     give (i64 ret)) s.

(** [memset(va, 0, n)] in a page whose frame is at [pa]. *)
Definition clear_page (pa n : Z) : op (vm H) unit :=
  fun s => Ok (tt, set_umem (zero_bytes (umem s) pa n) s).

(** The contents of a page of region [v], at its first touch. *)
Definition fill_page (v : vmr_t) (vaddr pa : Z) : op (vm H) unit :=
  match v_file v with
  | Some f =>
      let flen := Z.min RISCV_PGSIZE (u64 (v_length v - (vaddr - v_addr v))) in
      let% ret := file_pread f vaddr flen (u64 (vaddr - v_addr v + v_offset v)) in
      let% _ := kassert (0 <? ret) in
      if ret <? RISCV_PGSIZE then clear_page (pa + ret) (RISCV_PGSIZE - ret) else give tt
  | None => clear_page pa RISCV_PGSIZE
  end.

(** The branch of [__handle_page_fault] for a page that has not been touched. *)
Definition touch_page (pte vpn vaddr : Z) : op (vm H) unit :=
  fun s =>
    let ppn := u64 (vpn + first_free_paddr s / RISCV_PGSIZE) in
    (let% e := read_pte pte in
     let% i := vmr_at e in
     let% _ := write_pte pte (pte_create ppn (prot_to_type (PROT_READ .| PROT_WRITE) 0)) in
     let% v := get_vmr i in
     let% _ := fill_page v vaddr (ppn * RISCV_PGSIZE) in
     let% _ := __vmr_decref i 1 in
     write_pte pte (pte_create ppn (prot_to_type (v_prot v) 1))) s.

Definition __handle_page_fault (vaddr prot : Z) : op (vm H) Z :=
  let vpn := vaddr .>> RISCV_PGSHIFT in
  let vaddr := u64 (vpn .<< RISCV_PGSHIFT) in
  let% pte := on_area (__walk vaddr) in
  let% e := read_pte pte in
  fun s =>
    if (pte =? 0) || (e =? 0) || negb (__valid_user_range vaddr 1 s) then Ok (-1, s)
    else
      (let% _ := if negb (nz (e .& PTE_V)) then touch_page pte vpn vaddr else give tt in
       let perms := pte_create 0 (prot_to_type prot 1) in
       let% e := read_pte pte in
       give (if negb (e .& perms =? perms) then -1 else 0)) s.

Definition handle_page_fault (vaddr prot : Z) : op (vm H) Z :=
  let% _ := spinlock_lock in
  let% ret := __handle_page_fault vaddr prot in
  let% _ := spinlock_unlock in
  give ret.

(** [for (a = first; a < last; a += RISCV_PGSIZE)]. *)
Fixpoint for_pages (fuel : nat) (a last : Z) (body : Z -> op (vm H) unit) : op (vm H) unit :=
  match fuel with
  | O => fun _ => Hang
  | S fuel =>
      if a <? last then
        let% _ := body a in for_pages fuel (u64 (a + RISCV_PGSIZE)) last body
      else give tt
  end.

(** Iterations of such a loop, and one more for the last test. *)
Definition page_fuel (len : Z) : nat := Z.to_nat (len / RISCV_PGSIZE + 2).

Definition munmap_page (a : Z) : op (vm H) unit :=
  let% pte := on_area (__walk a) in
  let% e := read_pte pte in
  if (pte =? 0) || (e =? 0) then give tt
  else
    let% _ := if negb (nz (e .& PTE_V)) then let% i := vmr_at e in __vmr_decref i 1
              else give tt in
    write_pte pte 0.

Definition __do_munmap (addr len : Z) : op (vm H) unit :=
  for_pages (page_fuel len) addr (u64 (addr + len)) munmap_page.

(** The loop body of [__do_mmap]. *)
Definition mmap_page (v a : Z) : op (vm H) unit :=
  let% pte := on_area (__walk_create a) in
  let% _ := kassert (nz pte) in
  let% e := read_pte pte in
  let% _ := if nz e then __do_munmap a RISCV_PGSIZE else give tt in
  write_pte pte v.

Definition populate_page (prot a : Z) : op (vm H) unit :=
  let% r := __handle_page_fault a prot in kassert (r =? 0).

Definition __do_mmap (addr length prot flags : Z) (f : option nat) (offset : Z) : op (vm H) Z :=
  let npage := u64 (u64 (length - 1) / RISCV_PGSIZE + 1) in
  let% addr :=
    (fun s =>
       if nz (flags .& MAP_FIXED) then
         Ok (if nz (addr .& (RISCV_PGSIZE - 1)) || negb (__valid_user_range addr length s)
             then None else Some addr, s)
       else (let% a := __vm_alloc npage in give (if a =? 0 then None else Some a)) s) in
  match addr with
  | None => give (u64 (-1))
  | Some addr =>
      let% v := __vmr_alloc addr length f offset (u32 npage) prot in
      if v =? 0 then give (u64 (-1))
      else
        let last := u64 (addr + length) in
        let% _ := for_pages (page_fuel length) addr last (mmap_page v) in
        let% _ := (fun s =>
          if negb (demand_paging s) || nz (flags .& MAP_POPULATE)
          then for_pages (page_fuel length) addr last (populate_page prot) s
          else Ok (tt, s)) in
        give addr
  end.

Definition do_munmap (addr length : Z) : op (vm H) Z :=
  fun s =>
    if nz (addr .& (RISCV_PGSIZE - 1)) || negb (__valid_user_range addr length s)
    then Ok (- EINVAL, s)
    else
      (let% _ := spinlock_lock in
       let% _ := __do_munmap addr length in
       let% _ := spinlock_unlock in
       give 0) s.

Definition do_mmap (addr length prot flags fd offset : Z) : op (vm H) Z :=
  if negb (nz (flags .& MAP_PRIVATE)) || (length =? 0) || nz (offset .& (RISCV_PGSIZE - 1))
  then give (u64 (- EINVAL))
  else
    let% f := if nz (flags .& MAP_ANONYMOUS) then give (Some None)
              else let% f := on_kern (file_get fd) in
                   give (match f with Some f => Some (Some f) | None => None end) in
    match f with
    | None => give (u64 (- EBADF))
    | Some f =>
        let% _ := spinlock_lock in
        let% addr := __do_mmap addr length prot flags f offset in
        let% _ := (fun s =>
          Ok (tt, if addr <? brk_max (current s) then set_current (set_brk_max addr (current s)) s
                  else s)) in
        let% _ := spinlock_unlock in
        let% _ := match f with Some f => on_kern (file_decref frontend_syscall f)
                  | None => give tt end in
        give addr
    end.

Definition __do_brk (addr : Z) : op (vm H) Z :=
  fun s =>
    let newbrk := if addr <? brk_min (current s) then brk_min (current s)
                  else if brk_max (current s) <? addr then brk_max (current s) else addr in
    (let% _ := (fun s =>
       Ok (tt, if brk (current s) =? 0
               then set_current (set_brk (ROUNDUP (brk_min (current s)) RISCV_PGSIZE) (current s)) s
               else s)) in
     let newbrk_page := ROUNDUP newbrk RISCV_PGSIZE in
     let% _ := (fun s =>
       let b := brk (current s) in
       if newbrk_page <? b then __do_munmap newbrk_page (b - newbrk_page) s
       else if b <? newbrk_page then
         (let% r := __do_mmap b (newbrk_page - b) (-1) (MAP_FIXED .| MAP_PRIVATE .| MAP_ANONYMOUS)
                      None 0 in
          kassert (r =? b)) s
       else Ok (tt, s)) in
     let% _ := (fun s => Ok (tt, set_current (set_brk newbrk_page (current s)) s)) in
     give newbrk) s.

Definition do_brk (addr : Z) : op (vm H) Z :=
  let% _ := spinlock_lock in
  let% addr := __do_brk addr in
  let% _ := spinlock_unlock in
  give addr.

Definition do_mremap (addr old_size new_size flags : Z) : op (vm H) Z := give (u64 (- ENOSYS)).

(** The loop body of [do_mprotect]: the error that ends the loop, or nothing. *)
Definition mprotect_page (prot a : Z) : op (vm H) (option Z) :=
  let% pte := on_area (__walk a) in
  let% e := read_pte pte in
  if (pte =? 0) || (e =? 0) then give (Some (- ENOMEM))
  else if negb (nz (e .& PTE_V)) then
    let% i := vmr_at e in
    let% v := get_vmr i in
    if nz ((v_prot v .^ prot) .& .~ (v_prot v)) then give (Some (- EACCES))
    else
      let% _ := put_vmr i (Vmr (v_addr v) (v_length v) (v_file v) (v_offset v) (v_refcnt v) prot) in
      give None
  else if negb (nz (e .& PTE_U)) || (nz (prot .& PROT_READ) && negb (nz (e .& PTE_R)))
          || (nz (prot .& PROT_WRITE) && negb (nz (e .& PTE_W)))
          || (nz (prot .& PROT_EXEC) && negb (nz (e .& PTE_X)))
  then give (Some (- EACCES))
  else
    let% _ := write_pte pte (pte_create (pte_ppn e) (prot_to_type prot 1)) in
    give None.

Fixpoint mprotect_loop (fuel : nat) (a last prot : Z) : op (vm H) Z :=
  match fuel with
  | O => fun _ => Hang
  | S fuel =>
      if a <? last then
        let% r := mprotect_page prot a in
        match r with
        | Some res => give (u64 res)
        | None => mprotect_loop fuel (u64 (a + RISCV_PGSIZE)) last prot
        end
      else give 0
  end.

Definition do_mprotect (addr length prot : Z) : op (vm H) Z :=
  if nz (addr .& (RISCV_PGSIZE - 1)) then give (u64 (- EINVAL))
  else
    let% _ := spinlock_lock in
    let% res := mprotect_loop (page_fuel length) addr (u64 (addr + length)) prot in
    let% _ := spinlock_unlock in
    give res.

(** [for (i = 0; i < n; i++, a += RISCV_PGSIZE)]. *)
Fixpoint map_kernel_loop (n : nat) (a offset prot : Z) : op (vm H) unit :=
  match n with
  | O => give tt
  | S n =>
      let% pte := on_area (__walk_create a) in
      let% _ := kassert (nz pte) in
      let% _ := write_pte pte (pte_create (u64 (a + offset) .>> RISCV_PGSHIFT)
                                 (prot_to_type prot 0)) in
      map_kernel_loop n (u64 (a + RISCV_PGSIZE)) offset prot
  end.

Definition __map_kernel_range (vaddr paddr len prot : Z) : op (vm H) unit :=
  map_kernel_loop (Z.to_nat (ROUNDUP len RISCV_PGSIZE / RISCV_PGSIZE)) vaddr (u64 (paddr - vaddr))
    prot.

(** ** Start-up *)

(** Memory when the proxy kernel starts; [_end] is the end of its image. *)
Definition reset (demand : bool) (k : pk H) : vm H :=
  Vm (Pages (fun _ => 0) 0 0 0 0) 0 [] false 0 demand (ElfInfo 0 0 0 0 0) (fun _ => 0) k.

Definition pk_vm_init (mem_size _end : Z) : op (vm H) Z :=
  let mem_size := Z.min mem_size (1 .<< 31) in
  let mem_pages := mem_size .>> RISCV_PGSHIFT in
  let free_pages := Z.max 8 (mem_pages .>> (RISCV_PGLEVEL_BITS - 1)) in
  let first_free_page := ROUNDUP _end RISCV_PGSIZE in
  let first_free_paddr := u64 (first_free_page + free_pages * RISCV_PGSIZE) in
  let% _ := (fun s => Ok (tt,
    Vm (Pages (word (area s)) (root_page_table (area s)) first_free_page (next_free_page (area s))
          free_pages)
      (vmrs s) (vmr s) (vm_lock s) first_free_paddr (demand_paging s) (current s) (umem s)
      (kern s))) in
  let% root := on_area __page_alloc in
  let% _ := (fun s => Ok (tt, set_area (Pages (word (area s)) root (PageTable.first_free_page (area s))
    (next_free_page (area s)) (PageTable.free_pages (area s))) s)) in
  let% _ := __map_kernel_range DRAM_BASE DRAM_BASE (u64 (first_free_paddr - DRAM_BASE))
              (PROT_READ .| PROT_WRITE .| PROT_EXEC) in
  let max := Z.min DRAM_BASE (u64 (mem_size - (first_free_paddr - DRAM_BASE))) in
  let% _ := (fun s => Ok (tt, set_current
    (ElfInfo (brk_min (current s)) (brk (current s)) max max (stack_top (current s))) s)) in
  let stack_size := Z.min (mem_pages .>> 5) 2048 * RISCV_PGSIZE in
  let% stack_bottom := __do_mmap (u64 (max - stack_size)) stack_size
    (PROT_READ .| PROT_WRITE .| PROT_EXEC) (MAP_PRIVATE .| MAP_ANONYMOUS .| MAP_FIXED) None 0 in
  let% _ := kassert (negb (stack_bottom =? u64 (-1))) in
  let% _ := (fun s => Ok (tt, set_current
    (ElfInfo (brk_min (current s)) (brk (current s)) (brk_max (current s)) (mmap_max (current s))
       (u64 (stack_bottom + stack_size))) s)) in
  let% page := on_area __page_alloc in
  give (u64 (page + RISCV_PGSIZE)).

End Mmap.
