(* ===== verification/MmapInv.v ===== *)
(** * The invariant of virtual memory

    Every entry of the page tables is 0, refers to a region, or is valid; a valid entry of the
    user's part maps a page to the frame reserved for it, so that no entry gives the program
    memory of the kernel.  The reference count of a region is the number of the entries that
    refer to it, and a file is kept open for the regions that map it.  The operations of
    [Mmap.v] are specified by weakest preconditions. *)

From S2P Require Import Prelude File PageTable Mmap.
From stdpp Require Import base list list_numbers.
From Stdlib Require Import ZArith Lia.
#[local] Open Scope Z_scope.
#[local] Open Scope c_scope.
#[local] Open Scope bool_scope.
#[local] Abbreviation plus := File.plus.

(** ** Weakest preconditions *)

(** [c] returns in a state that satisfies [Q]; it may fail an assertion if [P] holds, and it
    does not hang. *)
Definition wp {S A : Type} (P : Prop) (c : op S A) (Q : A -> S -> Prop) (s : S) : Prop :=
  match c s with Ok (a, s') => Q a s' | Panic => P | Hang => False end.

Lemma wp_seq {S A B} P (c : op S A) (k : A -> op S B) Q s :
  wp P c (fun a s' => wp P (k a) Q s') s -> wp P (seq_op c k) Q s.
Proof. unfold wp, seq_op; destruct (c s) as [[a s']| |]; auto. Qed.

Lemma wp_seq_inv {S A B} P (c : op S A) (k : A -> op S B) Q s :
  wp P (seq_op c k) Q s -> wp P c (fun a s' => wp P (k a) Q s') s.
Proof. unfold wp, seq_op; destruct (c s) as [[a s']| |]; auto. Qed.

Lemma wp_give {S A} P (a : A) Q (s : S) : Q a s -> wp P (give a) Q s.
Proof. auto. Qed.

Lemma wp_mono {S A} (P P' : Prop) (c : op S A) (Q Q' : A -> S -> Prop) s :
  (P -> P') -> (forall a s', Q a s' -> Q' a s') -> wp P c Q s -> wp P' c Q' s.
Proof. unfold wp; destruct (c s) as [[a s']| |]; auto. Qed.

Lemma wp_kassert {S} P b Q (s : S) : (b = true -> Q tt s) -> (b = false -> P) ->
  wp P (kassert b) Q s.
Proof. unfold wp, kassert; destruct b; auto. Qed.

(** ** Counting *)

Fixpoint tally {A} (f : A -> bool) (l : list A) : Z :=
  match l with [] => 0 | x :: l => b2z (f x) + tally f l end.

Lemma tally_nonneg {A} (f : A -> bool) l : 0 <= tally f l <= Z.of_nat (length l).
Proof. induction l as [|x l IH]; cbn [tally length]; [lia|]; destruct (f x); cbn [Z.b2z]; lia. Qed.

Lemma tally_ext {A} (f g : A -> bool) l : (forall x, x ∈ l -> g x = f x) -> tally g l = tally f l.
Proof.
  induction l as [|x l IH]; intros E; [reflexivity|]; cbn [tally]; rewrite E, IH; auto.
  - intros y Hy; apply E; right; exact Hy.
  - left.
Qed.

Lemma tally_update {A} (f g : A -> bool) l x :
  NoDup l -> x ∈ l -> (forall y, y ∈ l -> y <> x -> g y = f y) ->
  tally g l = tally f l - b2z (f x) + b2z (g x).
Proof.
  induction l as [|y l IH]; intros N I E; [inversion I|]; apply NoDup_cons in N as [Ny N].
  cbn [tally]; apply elem_of_cons in I as [<-|I].
  - rewrite (tally_ext f g l); [lia|]; intros z Hz; apply E; [right; exact Hz|congruence].
  - rewrite (IH N I), (E y); [lia | left | congruence |].
    intros z Hz Nz; apply E; [right; exact Hz | exact Nz].
Qed.

Lemma tally_pos {A} (f : A -> bool) l x : x ∈ l -> f x = true -> 0 < tally f l.
Proof.
  intros I E; induction l as [|y l IH]; [inversion I|]; cbn [tally].
  pose proof (tally_nonneg f l); apply elem_of_cons in I as [<-|I]; [rewrite E; cbn [Z.b2z]; lia|].
  specialize (IH I); destruct (f y); cbn [Z.b2z]; lia.
Qed.

Lemma tally_zero {A} (f : A -> bool) l x : tally f l = 0 -> x ∈ l -> f x = false.
Proof.
  intros E I; destruct (f x) eqn:F; [|reflexivity]; pose proof (tally_pos f l x I F); lia.
Qed.

Lemma tally_none {A} (f : A -> bool) l : (forall x, x ∈ l -> f x = false) -> tally f l = 0.
Proof.
  induction l as [|x l IH]; intros E; [reflexivity|]; cbn [tally]; rewrite E, IH;
    [reflexivity | |left].
  intros y Hy; apply E; right; exact Hy.
Qed.

Lemma tally_insert {A} (f : A -> bool) l i x y :
  l !! i = Some x -> tally f (<[i := y]> l) = tally f l - b2z (f x) + b2z (f y).
Proof.
  revert i; induction l as [|z l IH]; intros [|i] E; try discriminate E.
  - injection E as ->; cbn; lia.
  - change (<[S i := y]> (z :: l)) with (z :: <[i := y]> l); cbn [tally]; rewrite (IH i E); lia.
Qed.

(** The virtual pages. *)
Definition all_pages : list Z := seqZ 0 (2 ^ 27).

Lemma all_pages_in n : n ∈ all_pages <-> 0 <= n < 2 ^ 27.
Proof. unfold all_pages; rewrite elem_of_seqZ; lia. Qed.

Lemma all_pages_NoDup : NoDup all_pages.
Proof. apply NoDup_seqZ. Qed.

Lemma vpn_page n : 0 <= n < 2 ^ 27 -> vpn (n * RISCV_PGSIZE) = n.
Proof. intros R; unfold vpn; rewrite Z.div_mul by discriminate; apply Z.mod_small, R. Qed.

Lemma vpn_small a : 0 <= a < 2 ^ 39 -> vpn a = a / RISCV_PGSIZE.
Proof. intros R; unfold vpn; apply Z.mod_small; change RISCV_PGSIZE with 4096;
  Z.div_mod_to_equations; lia. Qed.

(** ** The invariant *)

(** The entry of a page, and the value of the entries that refer to a region. *)
Definition entry {H} (s : vm H) (n : Z) : Z := pte (area s) (n * RISCV_PGSIZE).
Definition region {H} (s : vm H) (i : nat) : Z := vmrs s + sizeof_vmr * Z.of_nat i.
Definition users {H} (s : vm H) (i : nat) : Z :=
  tally (fun n => entry s n =? region s i) all_pages.

(** The regions in use that map a file. *)
Definition maps (f : nat) (v : vmr_t) : bool :=
  nz (v_refcnt v) && bool_decide (v_file v = Some f).
Definition mapped (l : list vmr_t) (f : nat) : Z := tally (maps f) l.

Definition frame_of {H} (s : vm H) (n : Z) : Z := n + first_free_paddr s / RISCV_PGSIZE.

Definition entry_ok {H} (s : vm H) (n e : Z) : Prop :=
  e = 0 \/
  (n * RISCV_PGSIZE < mmap_max (current s) /\ exists i, (i < MAX_VMR)%nat /\ e = region s i) \/
  (n * RISCV_PGSIZE < mmap_max (current s) /\
   exists prot user, e = pte_create (frame_of s n) (prot_to_type prot user)) \/
  (DRAM_BASE <= n * RISCV_PGSIZE /\ nz (e .& PTE_V) = true /\ nz (e .& PTE_U) = false).

Record limits {H} (s : vm H) : Prop := {
  lim_frames : 0 <= first_free_paddr s <= 2 ^ 40 /\ first_free_paddr s mod RISCV_PGSIZE = 0;
  lim_max : 0 <= mmap_max (current s) <= DRAM_BASE /\ mmap_max (current s) mod RISCV_PGSIZE = 0;
  lim_brk : 0 <= brk (current s) <= mmap_max (current s) /\ brk (current s) mod RISCV_PGSIZE = 0;
  lim_brk_max : 0 <= brk_max (current s) <= mmap_max (current s)
}.

(** [pend] is the references that an operation under way has still to store in entries, [held]
    the references to files that are neither descriptors nor regions. *)
Record inv {H} (held : nat -> Z) (pend : nat -> Z) (s : vm H) : Prop := {
  inv_tree : tree (area s);
  inv_vmrs : 0 < vmrs s < 2 ^ 56 /\ vmrs s mod RISCV_PGSIZE = 0;
  inv_length : length (vmr s) = MAX_VMR;
  inv_limits : limits s;
  inv_entry : forall n, 0 <= n < 2 ^ 27 -> entry_ok s n (entry s n);
  inv_refcnt : forall i v, vmr s !! i = Some v ->
    v_refcnt v = users s i + pend i /\ 0 <= v_refcnt v < 2 ^ 32;
  inv_target : forall i v f, vmr s !! i = Some v -> v_refcnt v <> 0 -> v_file v = Some f ->
    (f < length (files (kern s)))%nat;
  inv_files : refs_ok (fun f => held f + mapped (vmr s) f) (kern s);
  inv_held : forall f, 0 <= held f < 2 ^ 30 /\ (held f <> 0 -> (f < length (files (kern s)))%nat)
}.

(** What the steps of an operation do not change. *)
Record keeps {H} (s s' : vm H) : Prop := {
  keeps_vmrs : vmrs s' = vmrs s;
  keeps_lock : vm_lock s' = vm_lock s;
  keeps_paddr : first_free_paddr s' = first_free_paddr s;
  keeps_demand : demand_paging s' = demand_paging s;
  keeps_current : current s' = current s;
  keeps_slot : forall a p, slot (area s) a = Some p -> slot (area s') a = Some p
}.

Lemma keeps_refl {H} (s : vm H) : keeps s s.
Proof. split; auto. Qed.

Lemma keeps_trans {H} (s1 s2 s3 : vm H) : keeps s1 s2 -> keeps s2 s3 -> keeps s1 s3.
Proof. intros [? ? ? ? ? ?] [? ? ? ? ? ?]; split; try congruence; auto. Qed.

Lemma keeps_region {H} (s s' : vm H) i : keeps s s' -> region s' i = region s i.
Proof. intros [E _ _ _ _ _]; unfold region; rewrite E; reflexivity. Qed.

Lemma keeps_limits {H} (s s' : vm H) : keeps s s' -> limits s -> limits s'.
Proof. intros [_ _ P _ C _] [? ? ? ?]; split; rewrite ?P, ?C; assumption. Qed.

Lemma keeps_entry_ok {H} (s s' : vm H) n e : keeps s s' -> entry_ok s n e -> entry_ok s' n e.
Proof.
  intros K; pose proof (keeps_region s s') as R; destruct K as [E1 E2 E3 E4 E5 E6].
  unfold entry_ok, frame_of; rewrite E3, E5.
  intros [?|[[? (i & ? & ?)]|[?|?]]]; auto; right; left; split; auto; exists i; split; auto.
  rewrite R; [assumption | split; auto].
Qed.

Lemma users_bound {H} (s : vm H) i : 0 <= users s i <= 2 ^ 27.
Proof.
  unfold users; pose proof (tally_nonneg (fun n => entry s n =? region s i) all_pages) as T.
  assert (L : length all_pages = Z.to_nat (2 ^ 27)) by apply length_seqZ; rewrite L in T; lia.
Qed.

#[global] Opaque all_pages.

Lemma mapped_bound l f : length l = MAX_VMR -> 0 <= mapped l f <= 102.
Proof.
  intros L; unfold mapped; pose proof (tally_nonneg (maps f) l) as T; rewrite L in T.
  change (Z.of_nat MAX_VMR) with 102 in T; exact T.
Qed.

(** Regions and valid entries. *)
Lemma region_inj {H} (s : vm H) i j : region s i = region s j -> i = j.
Proof. unfold region, sizeof_vmr; lia. Qed.

Lemma region_bits {H} (s : vm H) i :
  0 < vmrs s -> vmrs s mod RISCV_PGSIZE = 0 -> nz (region s i .& PTE_V) = false /\ region s i <> 0.
Proof.
  intros V M; split; [|unfold region, sizeof_vmr; lia].
  unfold nz, region, sizeof_vmr; change PTE_V with (2 ^ 1 - 1); rewrite land_ones_mod by lia.
  change RISCV_PGSIZE with 4096 in M; change (2 ^ 1) with 2.
  replace ((vmrs s + 40 * Z.of_nat i) mod 2) with 0; [reflexivity|].
  Z.div_mod_to_equations; lia.
Qed.

Lemma region_invalid {H} held pend (s : vm H) i :
  inv held pend s -> (i < MAX_VMR)%nat -> nz (region s i .& PTE_V) = false /\ region s i <> 0.
Proof. intros I _; pose proof (inv_vmrs _ _ _ I) as [V M]; apply region_bits;
  [apply V | exact M]. Qed.

Lemma region_index {H} (s : vm H) i : Z.to_nat ((region s i - vmrs s) / sizeof_vmr) = i.
Proof.
  unfold region, sizeof_vmr; replace (vmrs s + 40 * Z.of_nat i - vmrs s) with (Z.of_nat i * 40) by lia.
  rewrite Z.div_mul by lia; apply Nat2Z.id.
Qed.

Lemma prot_to_type_range prot user : 0 < prot_to_type prot user < 2 ^ 8.
Proof.
  unfold prot_to_type; destruct (nz (prot .& PROT_READ)), (nz (prot .& PROT_WRITE)),
    (nz (prot .& PROT_EXEC)), (nz user); split; reflexivity.
Qed.

(** Bits of an entry below the frame number. *)
Lemma pte_create_bits n type bit :
  0 <= n < 2 ^ 54 -> 0 <= type < 2 ^ 10 -> 0 <= bit < 2 ^ 10 ->
  pte_create n type .& bit = (type .| PTE_V) .& bit /\ pte_ppn (pte_create n type) = n.
Proof.
  intros Hn Ht Hb; unfold pte_create, pte_ppn; change PTE_PPN_SHIFT with 10.
  rewrite shiftl_mul, u64_small by lia.
  assert (R : 0 <= PTE_V .| type < 2 ^ 10).
  { apply (lor_range 10); [lia | unfold PTE_V; lia | exact Ht]. }
  rewrite <- Z.lor_assoc, (lor_add_disjoint _ _ 10) by (exact R || lia).
  rewrite shiftr_div by lia; split.
  - rewrite (Z.lor_comm type); set (x := PTE_V .| type) in *; clearbody x.
    rewrite <- (Z.mod_small bit (2 ^ 10) Hb) at 1 2; rewrite <- !land_ones_mod by lia.
    rewrite !Z.land_assoc, <- (Z.land_assoc _ bit), (Z.land_comm bit), Z.land_assoc, land_ones_mod
      by lia.
    rewrite Z.add_comm, Z.mod_add, Z.mod_small by lia; rewrite <- Z.land_assoc.
    f_equal; rewrite land_ones_mod, Z.mod_small by lia; reflexivity.
  - rewrite Z.div_add_l, Z.div_small by lia; lia.
Qed.

(** ** Files *)

Section Files.
Context {H : Type} (frontend_syscall : Z -> list Z -> H -> Z * H).

Lemma set_files_length (l : list file) (k : pk H) f g :
  l = files k -> length (files (set_files (alter g f l) k)) = length (files k).
Proof. intros ->; apply length_alter. Qed.

Lemma incref_spec held (k : pk H) f :
  refs_ok held k -> (f < length (files k))%nat -> 0 < refs f (fds k) + held f ->
  held f + 1 < 2 ^ 31 ->
  exists k', file_incref f k = Some (tt, k') /\ refs_ok (plus held f 1) k' /\
    length (files k') = length (files k).
Proof.
  intros OK L R B; destruct (lookup_lt_is_Some_2 _ _ L) as [x Hx].
  pose proof (ok_count _ _ OK f x Hx) as C; pose proof (refs_bound held k f OK) as Bd.
  pose proof (ok_held _ _ OK f) as Hh; unfold count in C.
  rewrite (proj2 (Z.eqb_neq _ 0)) in C by lia.
  unfold file_incref, kbind, get_file; rewrite Hx; unfold put_refcnt; cbn [fst snd].
  unfold File.kassert; rewrite (proj2 (Z.ltb_lt 0 (refcnt x))) by lia.
  eexists; split; [reflexivity|]; split; [|apply set_files_length; reflexivity].
  apply (refs_ok_files held k f x 1); auto; [lia|]; cbn [refcnt]; rewrite C, u32_small by lia.
  unfold count; rewrite (proj2 (Z.eqb_neq _ 0)) by lia; lia.
Qed.

Lemma decref_spec held (k : pk H) f :
  refs_ok held k -> (f < length (files k))%nat -> 0 < held f ->
  exists k', file_decref frontend_syscall f k = Some (tt, k') /\ refs_ok (plus held f (-1)) k' /\
    length (files k') = length (files k).
Proof.
  intros OK L R; destruct (lookup_lt_is_Some_2 _ _ L) as [x Hx].
  destruct (file_decref_spec frontend_syscall held k f x OK Hx R) as (k' & E & OK' & _).
  exists k'; split; [exact E|]; split; [exact OK'|]; revert E.
  unfold file_decref, kbind, get_file, put_refcnt, frontend, kret; rewrite Hx; cbn [fst snd].
  destruct (refcnt x =? 2); [destruct (frontend_syscall _ _ _)|]; intros [= <-];
    cbn [files set_host set_files]; rewrite ?length_alter; reflexivity.
Qed.
End Files.

(** ** Entries *)

Section Steps.
Context {H : Type}.

Lemma run_walk_area a (s : vm H) :
  on_area (__walk a) s = Ok (match slot (area s) a with Some p => p | None => 0 end, s).
Proof. unfold on_area; rewrite run_walk; destruct s; reflexivity. Qed.

Lemma vpn_range a : 0 <= vpn a < 2 ^ 27.
Proof. apply Z.mod_pos_bound; lia. Qed.

Lemma entry_vpn (s : vm H) a : pte (area s) a = entry s (vpn a).
Proof. apply pte_vpn; rewrite vpn_page by apply vpn_range; reflexivity. Qed.

Lemma entry_slot (s : vm H) a p : slot (area s) a = Some p -> word (area s) p = entry s (vpn a).
Proof. intros E; rewrite <- entry_vpn; unfold pte; rewrite E; reflexivity. Qed.

Lemma entry_no_slot (s : vm H) a : slot (area s) a = None -> entry s (vpn a) = 0.
Proof. intros E; rewrite <- entry_vpn; unfold pte; rewrite E; reflexivity. Qed.

Lemma inv_ext held pend pend' (s : vm H) :
  (forall i, (i < MAX_VMR)%nat -> pend' i = pend i) -> inv held pend s -> inv held pend' s.
Proof.
  intros E [I1 I2 I3 I4 I5 I6 I7 I8 I9]; split; auto; intros i v Hv.
  rewrite E by (rewrite <- I3; apply lookup_lt_Some in Hv; exact Hv); apply I6, Hv.
Qed.

(** The effect of a write on the counts. *)
Lemma write_entry held pend (s : vm H) a p v :
  inv held pend s -> slot (area s) a = Some p -> entry_ok s (vpn a) v ->
  let s' := set_area (set_word p v (area s)) s in
  inv held (fun i => pend i + b2z (entry s (vpn a) =? region s i) - b2z (v =? region s i)) s' /\
  keeps s s' /\
  (forall n, 0 <= n < 2 ^ 27 -> entry s' n = if n =? vpn a then v else entry s n).
Proof.
  intros I S V s'; pose proof (inv_tree _ _ _ I) as T.
  assert (K : keeps s s').
  { split; try reflexivity; intros b q; cbn [area s' set_area]; rewrite (store_slot _ T a p v S);
      auto. }
  assert (E : forall n, 0 <= n < 2 ^ 27 -> entry s' n = if n =? vpn a then v else entry s n).
  { intros n Hn; unfold entry; cbn [area s' set_area]; rewrite (PageTable.store_pte _ T a p v S).
    rewrite vpn_page by exact Hn; reflexivity. }
  split; [|auto]; destruct I as [I1 I2 I3 I4 I5 I6 I7 I8 I9]; split; auto.
  - apply (store_tree _ T a p v S).
  - apply (keeps_limits s); assumption.
  - intros n Hn; apply (keeps_entry_ok s); [exact K|]; rewrite E by exact Hn.
    destruct (Z.eqb_spec n (vpn a)); [subst; exact V | apply I5, Hn].
  - intros i w Hw; destruct (I6 i w Hw) as [C B]; split; [|exact B]; rewrite C.
    assert (U : users s' i = users s i - b2z (entry s (vpn a) =? region s i)
                             + b2z (v =? region s i)).
    { unfold users; rewrite (keeps_region s s' i K).
      rewrite (tally_update (fun n => entry s n =? region s i) _ _ (vpn a)).
      - cbv beta; rewrite E, Z.eqb_refl by apply vpn_range; lia.
      - apply all_pages_NoDup.
      - apply all_pages_in, vpn_range.
      - intros n Hn N; apply all_pages_in in Hn; rewrite E by exact Hn.
        rewrite (proj2 (Z.eqb_neq n _) N); reflexivity. }
    lia.
Qed.

(** ** References to regions *)

Lemma inv_lookup held pend (s : vm H) i :
  inv held pend s -> (i < MAX_VMR)%nat -> exists v, vmr s !! i = Some v.
Proof. intros I L; rewrite <- (inv_length _ _ _ I) in L; apply lookup_lt_is_Some_2, L. Qed.

Definition with_refcnt (v : vmr_t) (n : Z) : vmr_t :=
  Vmr (v_addr v) (v_length v) (v_file v) (v_offset v) n (v_prot v).

Lemma users_eq (s s' : vm H) i : area s' = area s -> vmrs s' = vmrs s -> users s' i = users s i.
Proof. unfold users, entry, region; intros -> ->; reflexivity. Qed.

(** A change of the reference count of a region, with the files it affects. *)
Lemma set_vmr_inv held pend (s : vm H) i v w k (k' : pk H) d :
  inv held pend s -> vmr s !! i = Some v -> v_refcnt w = v_refcnt v + d ->
  0 <= v_refcnt w < 2 ^ 32 -> k = kern s -> length (files k') = length (files k) ->
  (forall f, v_refcnt w <> 0 -> v_file w = Some f -> (f < length (files k))%nat) ->
  refs_ok (fun f => held f + mapped (<[i := w]> (vmr s)) f) k' ->
  inv held (plus pend i d) (set_kern k' (set_vmrs (vmrs s) (<[i := w]> (vmr s)) s)).
Proof.
  intros [I1 I2 I3 I4 I5 I6 I7 I8 I9] Hv E B -> L F OK; set (s' := set_kern _ _).
  assert (U : forall j, users s' j = users s j) by (intros j; apply users_eq; reflexivity).
  split; auto; cbn [vmr kern s' set_kern set_vmrs].
  - rewrite length_insert; exact I3.
  - destruct I4; split; assumption.
  - intros j u; rewrite list_lookup_insert_Some, U; intros [(<- & <- & _)|(N & Hu)]; unfold plus.
    + split; [|exact B]; rewrite E; destruct (I6 i v Hv) as [-> _].
      rewrite decide_True by reflexivity; lia.
    + destruct (I6 j u Hu) as [-> ?]; rewrite decide_False by congruence; split; [lia | assumption].
  - intros j u f; rewrite list_lookup_insert_Some, L; intros [(<- & <- & _)|(N & Hu)]; [apply F|].
    apply (I7 j u f Hu).
  - rewrite L; exact I9.
Qed.

Lemma mapped_insert l i v w f :
  l !! i = Some v -> mapped (<[i := w]> l) f = mapped l f - b2z (maps f v) + b2z (maps f w).
Proof. apply tally_insert. Qed.

(** ** User pages *)

Lemma user_page (s : vm H) a :
  limits s -> 0 <= a < mmap_max (current s) ->
  vpn a = a / RISCV_PGSIZE /\ vpn a * RISCV_PGSIZE < mmap_max (current s) /\
  vpn a * RISCV_PGSIZE < DRAM_BASE.
Proof.
  intros [_ [L _] _ _] Ha; unfold DRAM_BASE in *; rewrite vpn_small by lia.
  change RISCV_PGSIZE with 4096; Z.div_mod_to_equations; lia.
Qed.

Lemma frame_range (s : vm H) n : limits s -> 0 <= n < 2 ^ 27 -> 0 <= frame_of s n < 2 ^ 54.
Proof.
  intros [[L _] _ _ _] Hn; unfold frame_of; change RISCV_PGSIZE with 4096.
  Z.div_mod_to_equations; lia.
Qed.

Lemma frame_valid (s : vm H) n prot user :
  limits s -> 0 <= n < 2 ^ 27 ->
  nz (pte_create (frame_of s n) (prot_to_type prot user) .& PTE_V) = true /\
  pte_create (frame_of s n) (prot_to_type prot user) <> 0.
Proof.
  intros L Hn; pose proof (prot_to_type_range prot user) as R.
  assert (V : nz (pte_create (frame_of s n) (prot_to_type prot user) .& PTE_V) = true).
  { destruct (pte_create_bits (frame_of s n) (prot_to_type prot user) PTE_V) as [-> _];
      [apply frame_range; auto | lia | unfold PTE_V; lia|].
    unfold nz; rewrite negb_true_iff, Z.eqb_neq, Z.land_lor_distr_l, Z.lor_eq_0_iff.
    intros [_ X]; discriminate X. }
  split; [exact V|]; intros E; rewrite E in V; discriminate V.
Qed.

Lemma user_entry held pend (s : vm H) a :
  inv held pend s -> 0 <= a < mmap_max (current s) ->
  entry s (vpn a) = 0 \/
  (exists i v, (i < MAX_VMR)%nat /\ vmr s !! i = Some v /\ entry s (vpn a) = region s i) \/
  (nz (entry s (vpn a) .& PTE_V) = true /\
   exists prot user, entry s (vpn a) = pte_create (frame_of s (vpn a)) (prot_to_type prot user)).
Proof.
  intros I Ha; pose proof (inv_limits _ _ _ I) as L; destruct (user_page s a L Ha) as (_ & _ & D).
  destruct (inv_entry _ _ _ I (vpn a) (vpn_range a))
    as [E|[[_ (i & Hi & E)]|[[_ (prot & user & E)]|[X _]]]]; [auto | | | lia].
  - destruct (inv_lookup _ _ _ i I Hi) as [v Hv]; right; left; eauto 6.
  - right; right; rewrite E; split; [|eauto]; apply frame_valid; [exact L | apply vpn_range].
Qed.

(** A valid entry refers to no region. *)
Lemma valid_not_region held pend (s : vm H) i e :
  inv held pend s -> (i < MAX_VMR)%nat -> nz (e .& PTE_V) = true -> e <> region s i.
Proof. intros I Hi V ->; destruct (region_invalid _ _ _ i I Hi); congruence. Qed.

Lemma region_users held pend (s : vm H) i a :
  inv held pend s -> entry s (vpn a) = region s i -> 0 < users s i.
Proof.
  intros I E; apply (tally_pos _ _ (vpn a)); [apply all_pages_in, vpn_range|].
  rewrite E; apply Z.eqb_refl.
Qed.

(** Regions change at most in their counts. *)
Definition same_regions (l l' : list vmr_t) : Prop :=
  forall i v, l !! i = Some v -> exists n, l' !! i = Some (with_refcnt v n).

Lemma same_regions_refl l : same_regions l l.
Proof. intros i v E; exists (v_refcnt v); destruct v; exact E. Qed.

Lemma same_regions_trans l1 l2 l3 :
  same_regions l1 l2 -> same_regions l2 l3 -> same_regions l1 l3.
Proof. intros A B i v E; destruct (A i v E) as [n E1], (B i _ E1) as [m E2]; exists m;
  exact E2. Qed.

Lemma same_regions_insert l i v n :
  l !! i = Some v -> same_regions l (<[i := with_refcnt v n]> l).
Proof.
  intros E j w Hw; destruct (decide (i = j)) as [<-|N].
  - rewrite E in Hw; injection Hw as <-; exists n; apply list_lookup_insert_eq.
    apply lookup_lt_Some in E; exact E.
  - rewrite list_lookup_insert_ne by exact N; exists (v_refcnt w); destruct w; exact Hw.
Qed.

Context (frontend_syscall : Z -> list Z -> H -> Z * H).

Lemma vmr_decref_spec P held pend (s : vm H) i v :
  inv held pend s -> vmr s !! i = Some v -> 0 < v_refcnt v ->
  wp P (__vmr_decref frontend_syscall i 1)
    (fun _ s' => inv held (plus pend i (-1)) s' /\ keeps s s' /\ area s' = area s /\
                 umem s' = umem s /\ vmr s' = <[i := with_refcnt v (v_refcnt v - 1)]> (vmr s)) s.
Proof.
  intros I Hv R; pose proof (inv_refcnt _ _ _ I i v Hv) as [_ B].
  unfold __vmr_decref; apply wp_seq; unfold wp at 1, get_vmr; rewrite Hv.
  rewrite u32_small by lia; apply wp_seq; unfold wp at 1, put_vmr.
  set (w := Vmr _ _ _ _ _ _); change w with (with_refcnt v (v_refcnt v - 1)) in *; clear w.
  set (w := with_refcnt v (v_refcnt v - 1)); set (s1 := set_vmrs _ _ s).
  assert (Mv : forall f, maps f v = bool_decide (v_file v = Some f)).
  { intros f; unfold maps, nz; rewrite (proj2 (Z.eqb_neq _ 0)) by lia; reflexivity. }
  assert (Ext : forall g f, v_file v = Some f -> v_refcnt v = 1 ->
            held g + mapped (<[i := w]> (vmr s)) g = plus (fun f => held f + mapped (vmr s) f) f (-1) g).
  { intros g f Hf R1; rewrite (mapped_insert _ _ _ _ _ Hv), Mv; unfold plus, maps; rewrite Hf.
    unfold w, with_refcnt; cbn [v_refcnt v_file]; rewrite R1; change (nz (1 - 1)) with false;
      cbn [andb Z.b2z].
    destruct (decide (g = f)) as [->|N]; [rewrite bool_decide_true by reflexivity |
      rewrite bool_decide_false by congruence]; cbn [Z.b2z]; lia. }
  destruct (Z.eqb_spec (v_refcnt v - 1) 0) as [Z0|N0]; [destruct (v_file v) as [f|] eqn:Ef|].
  - assert (F : (f < length (files (kern s)))%nat) by (apply (inv_target _ _ _ I i v); auto; lia).
    destruct (decref_spec frontend_syscall _ (kern s) f (inv_files _ _ _ I) F) as (k' & Ek & OK & L).
    { pose proof (inv_held _ _ _ I f); enough (0 < mapped (vmr s) f) by lia.
      apply (tally_pos _ _ v); [apply list_elem_of_lookup; eauto|].
      rewrite Mv; apply bool_decide_true; reflexivity. }
    unfold wp, on_kern; change (kern s1) with (kern s); rewrite Ek.
    split; [|split; [split; auto | auto]].
    apply (set_vmr_inv held pend s i v w (kern s)); auto; [cbn; lia.. | |].
    + cbn; intros g Nz; lia.
    + apply (refs_ok_ext (plus (fun f => held f + mapped (vmr s) f) f (-1))); [|exact OK].
      intros g; apply Ext; auto; lia.
  - unfold wp, give; split; [|split; [split; auto | auto]].
    replace s1 with (set_kern (kern s) s1) by (destruct s; reflexivity).
    apply (set_vmr_inv held pend s i v w (kern s)); auto; [cbn; lia.. | |].
    + cbn; intros g Nz; lia.
    + apply (refs_ok_ext (fun f => held f + mapped (vmr s) f)); [|apply I].
      intros g; rewrite (mapped_insert _ _ _ _ _ Hv), Mv; unfold maps; cbn; rewrite Ef.
      rewrite bool_decide_false by congruence; rewrite andb_false_r; cbn; lia.
  - unfold wp, give; split; [|split; [split; auto | auto]].
    replace s1 with (set_kern (kern s) s1) by (destruct s; reflexivity).
    apply (set_vmr_inv held pend s i v w (kern s)); auto; [cbn; lia.. | |].
    + cbn; intros g _ Ef; apply (inv_target _ _ _ I i v); auto; lia.
    + apply (refs_ok_ext (fun f => held f + mapped (vmr s) f)); [|apply I].
      intros g; rewrite (mapped_insert _ _ _ _ _ Hv), Mv; unfold maps, nz; cbn.
      rewrite (proj2 (Z.eqb_neq _ 0) N0); cbn; lia.
Qed.

(** ** [__do_munmap] *)

Lemma munmap_page_spec P held pend (s : vm H) a :
  inv held pend s -> (forall i, 0 <= pend i) -> 0 <= a < mmap_max (current s) ->
  wp P (munmap_page frontend_syscall a)
    (fun _ s' => inv held pend s' /\ keeps s s' /\ umem s' = umem s /\
       same_regions (vmr s) (vmr s') /\
       (forall n, 0 <= n < 2 ^ 27 -> entry s' n = if n =? vpn a then 0 else entry s n) /\
       (forall i v, vmr s !! i = Some v -> entry s (vpn a) <> region s i ->
                    vmr s' !! i = Some v)) s.
Proof.
  intros I Pd Ha; unfold munmap_page; apply wp_seq; unfold wp at 1; rewrite run_walk_area.
  apply wp_seq; unfold wp at 1, read_pte.
  assert (Nothing : entry s (vpn a) = 0 ->
            forall n, 0 <= n < 2 ^ 27 -> entry s n = if n =? vpn a then 0 else entry s n).
  { intros Z0 n _; destruct (Z.eqb_spec n (vpn a)) as [->|_]; [exact Z0 | reflexivity]. }
  destruct (slot (area s) a) as [p|] eqn:S.
  2:{ cbn [Z.eqb orb]; apply wp_give; pose proof (entry_no_slot s a S).
      auto 9 using keeps_refl, same_regions_refl. }
  pose proof (slot_not_null _ _ _ (inv_tree _ _ _ I) S) as Np.
  rewrite (entry_slot s a p S), (proj2 (Z.eqb_neq p 0) Np); cbn [orb].
  destruct (Z.eqb_spec (entry s (vpn a)) 0) as [Z0|Nz];
    [apply wp_give; auto 9 using keeps_refl, same_regions_refl|].
  assert (R0 : forall i, (i < MAX_VMR)%nat -> (0 =? region s i) = false).
  { intros i Hi; apply Z.eqb_neq; destruct (region_invalid _ _ _ i I Hi); congruence. }
  apply wp_seq; destruct (user_entry _ _ s a I Ha) as [E|[(i & v & Hi & Hv & E)|[V _]]];
    [contradiction| |].
  - rewrite E; destruct (region_invalid _ _ _ i I Hi) as [-> _]; cbn [negb].
    apply wp_seq; unfold wp at 1, vmr_at; rewrite region_index.
    pose proof (inv_refcnt _ _ _ I i v Hv) as [C _]; pose proof (region_users _ _ _ _ _ I E) as U.
    specialize (Pd i); eapply wp_mono; [exact id |
      | apply (vmr_decref_spec P held pend s i v I Hv); lia].
    intros _ s1 (I1 & K1 & A1 & M1 & V1); unfold wp, write_pte.
    assert (S1 : slot (area s1) a = Some p) by (rewrite A1; exact S).
    destruct (write_entry _ _ s1 a p 0 I1 S1) as (I2 & K2 & E2); [left; reflexivity|].
    assert (Es : entry s1 = entry s) by (unfold entry; rewrite A1; reflexivity).
    split; [|split; [exact (keeps_trans _ _ _ K1 K2)|]; split; [exact M1|]; split].
    + eapply inv_ext; [|exact I2]; intros j Hj; cbv beta; rewrite Es, E, !(keeps_region s s1 _ K1).
      rewrite (R0 j Hj); unfold plus; destruct (decide (j = i)) as [->|N]; [rewrite Z.eqb_refl;
        cbn; lia|].
      rewrite (proj2 (Z.eqb_neq _ _)) by (intros X; apply region_inj in X; congruence); cbn; lia.
    + cbn [vmr set_area]; rewrite V1; apply same_regions_insert, Hv.
    + split; [intros n Hn; rewrite E2, Es by exact Hn; reflexivity|].
      intros j w Hw N; cbn [vmr set_area]; rewrite V1, list_lookup_insert_ne; [exact Hw|].
      intros ->; apply N; reflexivity.
  - rewrite V; cbn [negb]; apply wp_give; unfold wp, write_pte.
    destruct (write_entry _ _ s a p 0 I S) as (I2 & K2 & E2); [left; reflexivity|].
    split; [|split; [exact K2|]; split; [reflexivity|]; split; [apply same_regions_refl | auto]].
    eapply inv_ext; [|exact I2]; intros j Hj; cbv beta; rewrite (R0 j Hj).
    rewrite (proj2 (Z.eqb_neq _ _)) by exact (valid_not_region _ _ _ j _ I Hj V); cbn; lia.
Qed.

End Steps.

(** ** Loops over pages *)

Section Loops.
Context {H : Type}.

Fixpoint iter_pages (n : nat) (a : Z) (body : Z -> op (vm H) unit) : op (vm H) unit :=
  match n with
  | O => give tt
  | S n => let% _ := body a in iter_pages n (a + RISCV_PGSIZE) body
  end.

(** The number of pages of [len] bytes. *)
Definition page_count (len : Z) : nat := Z.to_nat ((len + RISCV_PGSIZE - 1) / RISCV_PGSIZE).

Lemma for_pages_iter fuel n a last body (s : vm H) :
  0 <= a -> a + RISCV_PGSIZE * Z.of_nat n < 2 ^ 63 -> (n < fuel)%nat ->
  RISCV_PGSIZE * (Z.of_nat n - 1) < last - a <= RISCV_PGSIZE * Z.of_nat n ->
  for_pages fuel a last body s = iter_pages n a body s.
Proof.
  revert fuel a s; change RISCV_PGSIZE with 4096; induction n as [|n IH];
    intros [|fuel] a s A B F L;
    try lia; cbn [for_pages iter_pages].
  - rewrite (proj2 (Z.ltb_ge a last)) by lia; reflexivity.
  - rewrite (proj2 (Z.ltb_lt a last)) by lia; unfold seq_op; destruct (body a s) as [[u s']| |];
      auto.
    change RISCV_PGSIZE with 4096; rewrite u64_small by lia; apply IH; lia.
Qed.

Lemma page_count_spec len :
  0 <= len ->
  RISCV_PGSIZE * (Z.of_nat (page_count len) - 1) < len <= RISCV_PGSIZE * Z.of_nat (page_count len) /\
  (page_count len < page_fuel len)%nat.
Proof.
  unfold page_count, page_fuel; change RISCV_PGSIZE with 4096; intros R.
  rewrite Z2Nat.id by (Z.div_mod_to_equations; lia); split; [Z.div_mod_to_equations; lia|].
  apply Z2Nat.inj_lt; Z.div_mod_to_equations; lia.
Qed.

Lemma for_pages_range a len body (s : vm H) :
  0 <= a -> 0 <= len -> a + len <= 2 ^ 40 ->
  for_pages (page_fuel len) a (u64 (a + len)) body s = iter_pages (page_count len) a body s.
Proof.
  intros A L B; destruct (page_count_spec len L) as [R F]; change RISCV_PGSIZE with 4096 in R.
  rewrite u64_small by lia; apply for_pages_iter; auto; change RISCV_PGSIZE with 4096; lia.
Qed.

(** An invariant of the loop, after the pages up to the [j]-th. *)
Lemma iter_pages_wp P (R : Z -> vm H -> Prop) n a body s :
  (forall j s, 0 <= j < Z.of_nat n -> R j s ->
     wp P (body (a + RISCV_PGSIZE * j)) (fun _ s' => R (j + 1) s') s) ->
  R 0 s -> wp P (iter_pages n a body) (fun _ s' => R (Z.of_nat n) s') s.
Proof.
  revert R a s; induction n as [|n IH]; intros R a s B R0; [exact R0|].
  cbn [iter_pages]; apply wp_seq; specialize (B 0 s ltac:(lia) R0) as B0.
  rewrite Z.mul_0_r, Z.add_0_r in B0; eapply wp_mono; [exact id | | exact B0].
  intros u s1 R1; cbv beta in R1; replace (Z.of_nat (S n)) with (1 + Z.of_nat n) by lia.
  apply (IH (fun j => R (1 + j))); [|rewrite Z.add_0_r; exact R1].
  intros j s' Hj Rj; specialize (B (1 + j) s' ltac:(lia) Rj).
  replace (a + RISCV_PGSIZE + RISCV_PGSIZE * j) with (a + RISCV_PGSIZE * (1 + j)) by lia.
  eapply wp_mono; [exact id | | exact B]; intros u2 s2; cbv beta; rewrite Z.add_assoc; auto.
Qed.
End Loops.
