(* ===== verification/MmapOps.v ===== *)
(** * The operations on virtual memory preserve its invariant

    Specifications of the operations of [Mmap.v], each with the entries it leaves. *)

From S2P Require Import Prelude File PageTable Mmap MmapInv.
From stdpp Require Import base list list_numbers.
From Stdlib Require Import ZArith Lia.
#[local] Open Scope Z_scope.
#[local] Open Scope c_scope.
#[local] Open Scope bool_scope.
#[local] Abbreviation plus := File.plus.

Section Ops.
Context {H : Type}.

(** ** Ranges of pages *)

Definition within (n base count : Z) : bool := (base <=? n) && (n <? base + count).

Lemma within_spec n base count : within n base count = true <-> base <= n < base + count.
Proof. unfold within; rewrite andb_true_iff, Z.leb_le, Z.ltb_lt; reflexivity. Qed.

Lemma within_next n base j :
  0 <= j -> within n base (j + 1) = (n =? base + j) || within n base j.
Proof.
  intros Hj; apply eq_true_iff_eq; rewrite orb_true_iff, !within_spec, Z.eqb_eq; lia.
Qed.

(** A page of a range of the user's part. *)
Lemma range_page (s : vm H) addr len j :
  limits s -> addr mod RISCV_PGSIZE = 0 -> 0 <= addr -> 0 <= len ->
  addr + len <= mmap_max (current s) -> 0 <= j < Z.of_nat (page_count len) ->
  let a := addr + RISCV_PGSIZE * j in
  0 <= a < mmap_max (current s) /\ a mod RISCV_PGSIZE = 0 /\
  vpn a = addr / RISCV_PGSIZE + j /\ a + RISCV_PGSIZE <= mmap_max (current s).
Proof.
  intros L A0 A1 A2 A3 Hj a; destruct (page_count_spec len A2) as [R _].
  pose proof (lim_max _ L) as [M1 M2]; assert (a < mmap_max (current s))
    by (unfold a; change RISCV_PGSIZE with 4096 in *; lia).
  assert (Ma : a mod RISCV_PGSIZE = 0).
  { unfold a; rewrite (Z.mul_comm RISCV_PGSIZE), Z.mod_add by discriminate; exact A0. }
  assert (0 <= a) by (unfold a; change RISCV_PGSIZE with 4096; lia).
  split; [lia|]; split; [exact Ma|]; split.
  - rewrite (proj1 (user_page s a L ltac:(lia))); unfold a.
    rewrite (Z.mul_comm RISCV_PGSIZE), Z.div_add by discriminate; reflexivity.
  - change RISCV_PGSIZE with 4096 in *; clearbody a; Z.div_mod_to_equations; lia.
Qed.

(** ** [__do_munmap] *)

(** What a change of entries leaves: the invariant, and everything but the entries and the
    counts of the regions. *)
Record changes (held pend : nat -> Z) (s s' : vm H) (f : Z -> Z) : Prop := {
  ch_inv : inv held pend s';
  ch_keeps : keeps s s';
  ch_umem : umem s' = umem s;
  ch_regions : same_regions (vmr s) (vmr s');
  ch_entry : forall n, 0 <= n < 2 ^ 27 -> entry s' n = f n
}.

Context (frontend_syscall : Z -> list Z -> H -> Z * H).

Lemma do_munmap_spec P held pend (s : vm H) addr len :
  inv held pend s -> (forall i, 0 <= pend i) -> addr mod RISCV_PGSIZE = 0 -> 0 <= addr ->
  0 <= len -> addr + len <= mmap_max (current s) ->
  let base := addr / RISCV_PGSIZE in
  let count := Z.of_nat (page_count len) in
  wp P (__do_munmap frontend_syscall addr len)
    (fun _ s' =>
       changes held pend s s' (fun n => if within n base count then 0 else entry s n) /\
       forall i v, vmr s !! i = Some v ->
         (forall n, within n base count = true -> entry s n <> region s i) ->
         vmr s' !! i = Some v) s.
Proof.
  intros I Pd A0 A1 A2 A3 base count; pose proof (inv_limits _ _ _ I) as L.
  pose proof (lim_max _ L) as [M _]; unfold DRAM_BASE in M.
  unfold wp, __do_munmap; rewrite for_pages_range by lia.
  set (R := fun j (s' : vm H) => changes held pend s s' (fun n => if within n base j then 0 else entry s n) /\
         forall i v, vmr s !! i = Some v ->
           (forall n, within n base j = true -> entry s n <> region s i) -> vmr s' !! i = Some v).
  apply (iter_pages_wp P R).
  - intros j s1 Hj [[I1 K1 U1 G1 E1] V1].
    destruct (range_page s addr len j L A0 A1 A2 A3 Hj) as (P1 & _ & P2 & _).
    set (a := addr + RISCV_PGSIZE * j) in *; rewrite <- (keeps_current _ _ K1) in P1.
    eapply wp_mono; [exact id | | apply (munmap_page_spec frontend_syscall P held pend s1 a I1 Pd P1)].
    intros u s2 (I2 & K2 & U2 & G2 & E2 & V2); cbv beta in *; rewrite P2 in E2, V2.
    assert (W : forall n, within n base (j + 1) = (n =? base + j) || within n base j)
      by (intros n; apply within_next; lia).
    assert (Eb : entry s1 (base + j) = entry s (base + j)).
    { rewrite E1 by (fold base in P2; rewrite <- P2; apply vpn_range).
      unfold within; rewrite (proj2 (Z.ltb_ge _ _)), andb_false_r by lia; reflexivity. }
    split; [split|].
    + exact I2.
    + exact (keeps_trans _ _ _ K1 K2).
    + congruence.
    + exact (same_regions_trans _ _ _ G1 G2).
    + intros n Hn; rewrite E2, W by exact Hn; fold base; destruct (n =? base + j); [reflexivity|].
      apply E1, Hn.
    + intros i v Hv N; apply V2.
      * apply V1; [exact Hv|]; intros n Hn; apply N; rewrite W, Hn; apply orb_true_r.
      * fold base; rewrite Eb, (keeps_region _ _ i K1); apply N; rewrite W, Z.eqb_refl; reflexivity.
  - split; [split; auto using keeps_refl, same_regions_refl|auto].
    intros n Hn; unfold within; rewrite Z.add_0_r.
    destruct (Z.leb_spec base n), (Z.ltb_spec n base); try lia; reflexivity.
Qed.

(** ** [__do_mmap]: the entries *)

Lemma walk_create_spec held pend (s : vm H) a :
  inv held pend s ->
  wp True (on_area (__walk_create a))
    (fun p s' => changes held pend s s' (entry s) /\ slot (area s') a = Some p /\ vmr s' = vmr s) s.
Proof.
  intros I; unfold wp, on_area.
  destruct (run_walk_create a (area s) (inv_tree _ _ _ I)) as [[-> _]|(p & x & -> & X)];
    [exact Logic.I|].
  destruct X as [X1 X2 X3 X4 X5 X6]; set (s' := set_area x s).
  assert (K : keeps s s') by (split; auto).
  assert (E : forall n, entry s' n = entry s n) by (intros n; apply X4).
  split; [split; auto using same_regions_refl | auto].
  destruct I as [I1 I2 I3 I4 I5 I6 I7 I8 I9]; split; auto.
  - apply (keeps_limits s); assumption.
  - intros n Hn; apply (keeps_entry_ok s); [exact K|]; rewrite E; apply I5, Hn.
  - intros i v Hv; replace (users s' i) with (users s i); [exact (I6 i v Hv)|].
    apply tally_ext; intros n _; rewrite E, (keeps_region _ _ i K); reflexivity.
Qed.

(** The page is free after the optional unmapping. *)
Lemma unmap_one_spec held pend (s : vm H) i v a p :
  inv held pend s -> (forall j, 0 <= pend j) -> vmr s !! i = Some v -> slot (area s) a = Some p ->
  0 <= a < mmap_max (current s) -> a mod RISCV_PGSIZE = 0 ->
  a + RISCV_PGSIZE <= mmap_max (current s) -> entry s (vpn a) <> region s i ->
  wp True (if nz (entry s (vpn a)) then __do_munmap frontend_syscall a RISCV_PGSIZE else give tt)
    (fun _ s' =>
       changes held pend s s' (fun n => if n =? vpn a then 0 else entry s n) /\
       vmr s' !! i = Some v /\ slot (area s') a = Some p) s.
Proof.
  intros I Pd Hv S Ha A0 A1 Ne; unfold nz.
  destruct (Z.eqb_spec (entry s (vpn a)) 0) as [Z0|Nz]; cbn [negb].
  - apply wp_give; split; [split; auto using keeps_refl, same_regions_refl | auto].
    intros n Hn; destruct (Z.eqb_spec n (vpn a)) as [->|_]; auto.
  - eapply wp_mono; [exact id | | apply (do_munmap_spec True held pend s a RISCV_PGSIZE);
      auto; lia || discriminate].
    intros u s2 ([I2 K2 U2 G2 E2] & V2); cbv beta in *.
    change (Z.of_nat (page_count RISCV_PGSIZE)) with 1 in *.
    rewrite <- (proj1 (user_page s a (inv_limits _ _ _ I) Ha)) in *.
    split; [split; auto|split; [|exact (keeps_slot _ _ K2 a p S)]].
    + intros n Hn; rewrite E2 by exact Hn; unfold within.
      destruct (Z.leb_spec (vpn a) n), (Z.ltb_spec n (vpn a + 1)), (Z.eqb_spec n (vpn a)); auto; lia.
    + apply V2; [exact Hv|]; intros n Hn; apply within_spec in Hn.
      replace n with (vpn a) by lia; exact Ne.
Qed.

Lemma mmap_page_spec held pend (s : vm H) i v a :
  inv held pend s -> (forall j, 0 <= pend j) -> 1 <= pend i -> vmr s !! i = Some v ->
  0 <= a < mmap_max (current s) -> a mod RISCV_PGSIZE = 0 ->
  a + RISCV_PGSIZE <= mmap_max (current s) -> entry s (vpn a) <> region s i ->
  wp True (mmap_page frontend_syscall (region s i) a)
    (fun _ s' =>
       changes held (plus pend i (-1)) s s'
         (fun n => if n =? vpn a then region s i else entry s n) /\
       vmr s' !! i = Some v) s.
Proof.
  intros I Pd Pi Hv Ha A0 A1 Ne; unfold mmap_page; apply wp_seq.
  eapply wp_mono; [exact id | | apply (walk_create_spec held pend s a I)].
  intros p s1 ([I1 K1 U1 G1 E1] & S1 & V1); cbv beta; apply wp_seq.
  pose proof (slot_not_null _ _ _ (inv_tree _ _ _ I1) S1) as Np.
  apply wp_kassert; [intros _ | auto]; apply wp_seq; unfold wp at 1, read_pte.
  rewrite (entry_slot s1 a p S1), E1 by apply vpn_range; apply wp_seq.
  assert (Hi : (i < MAX_VMR)%nat)
    by (rewrite <- (inv_length _ _ _ I); apply lookup_lt_Some in Hv; exact Hv).
  pose proof (unmap_one_spec held pend s1 i v a p I1 Pd ltac:(congruence) S1) as F.
  rewrite E1, (keeps_region _ _ i K1), (keeps_current _ _ K1) in F by apply vpn_range.
  specialize (F Ha A0 A1 Ne).
  eapply wp_mono; [exact id | | exact F]; intros u s2 ([I2 K2' U2 G2 E2] & V2 & S2).
  pose proof (keeps_trans _ _ _ K1 K2') as K2.
  unfold wp, write_pte.
  assert (OK : entry_ok s2 (vpn a) (region s i)).
  { right; left; rewrite (keeps_current _ _ K2).
    split; [apply (user_page s a (inv_limits _ _ _ I) Ha) | exists i; split; [exact Hi|]].
    rewrite (keeps_region _ _ i K2); reflexivity. }
  destruct (write_entry _ _ s2 a p (region s i) I2 S2 OK) as (I3 & K3 & E3).
  split; [split|].
  - eapply inv_ext; [|exact I3]; intros j Hj; cbv beta.
    rewrite E2, Z.eqb_refl, !(keeps_region _ _ _ K2) by apply vpn_range.
    destruct (region_invalid _ _ _ j I Hj) as [_ N0]; rewrite (proj2 (Z.eqb_neq 0 _)) by congruence.
    unfold plus; destruct (decide (j = i)) as [->|N]; [rewrite Z.eqb_refl; cbn; lia|].
    rewrite (proj2 (Z.eqb_neq _ _)) by (intros X; apply region_inj in X; congruence); cbn; lia.
  - exact (keeps_trans _ _ _ K2 K3).
  - change (umem s2 = umem s); congruence.
  - exact (same_regions_trans _ _ _ G1 G2).
  - intros n Hn; rewrite E3, E2, E1 by exact Hn; destruct (n =? vpn a); reflexivity.
  - exact V2.
Qed.

(** The loop of [__do_mmap] stores the references of a region that has none. *)
Lemma mmap_loop_spec held (s : vm H) i v addr len :
  inv held (plus (fun _ => 0) i (Z.of_nat (page_count len))) s -> vmr s !! i = Some v ->
  users s i = 0 -> addr mod RISCV_PGSIZE = 0 -> 0 <= addr -> 0 <= len ->
  addr + len <= mmap_max (current s) ->
  let base := addr / RISCV_PGSIZE in
  let count := Z.of_nat (page_count len) in
  wp True (for_pages (page_fuel len) addr (u64 (addr + len))
             (mmap_page frontend_syscall (region s i)))
    (fun _ s' =>
       changes held (fun _ => 0) s s'
         (fun n => if within n base count then region s i else entry s n) /\
       vmr s' !! i = Some v) s.
Proof.
  intros I Hv U A0 A1 A2 A3 base count; pose proof (inv_limits _ _ _ I) as L.
  pose proof (lim_max _ L) as [M _]; unfold DRAM_BASE in M.
  unfold wp; rewrite for_pages_range by lia.
  set (R := fun j (s' : vm H) =>
         changes held (plus (fun _ => 0) i (count - j)) s s'
           (fun n => if within n base j then region s i else entry s n) /\ vmr s' !! i = Some v).
  assert (Done : forall s', R count s' -> changes held (fun _ => 0) s s'
            (fun n => if within n base count then region s i else entry s n) /\
              vmr s' !! i = Some v).
  { intros s' [[C1 C2 C3 C4 C5] C6]; split; [split; auto|exact C6].
    eapply inv_ext; [|exact C1]; intros k _; unfold plus; destruct (decide _); lia. }
  eapply wp_mono; [exact id | intros a s'; exact (Done s')|].
  apply (iter_pages_wp True R).
  - intros j s1 Hj [[I1 K1 U1 G1 E1] V1].
    destruct (range_page s addr len j L A0 A1 A2 A3 Hj) as (P1 & P0 & P2 & P3).
    set (a := addr + RISCV_PGSIZE * j) in *; rewrite <- (keeps_current _ _ K1) in P1, P3.
    fold base in P2; assert (Rb : 0 <= base + j < 2 ^ 27) by (rewrite <- P2; apply vpn_range).
    rewrite <- (keeps_region _ _ i K1).
    eapply wp_mono; [exact id | | apply (mmap_page_spec held _ s1 i v a I1); auto].
    + intros u s2 ([I2 K2 U2 G2 E2] & V2); cbv beta in *; rewrite P2 in E2.
      split; [split|exact V2].
      * eapply inv_ext; [|exact I2]; intros k _; unfold plus; destruct (decide _); lia.
      * exact (keeps_trans _ _ _ K1 K2).
      * congruence.
      * exact (same_regions_trans _ _ _ G1 G2).
      * intros n Hn; rewrite E2, E1, within_next by (exact Hn || lia).
        rewrite (keeps_region _ _ i K1); destruct (n =? base + j); reflexivity.
    + intros k; unfold plus; destruct (decide _); fold count in Hj; lia.
    + unfold plus; rewrite decide_True by reflexivity; fold count in Hj; lia.
    + rewrite P2, E1, (keeps_region _ _ i K1) by exact Rb; unfold within.
      rewrite (proj2 (Z.ltb_ge _ _)), andb_false_r by lia.
      apply Z.eqb_neq; exact (tally_zero _ _ _ U (proj2 (all_pages_in _) Rb)).
  - split; [split; auto using keeps_refl, same_regions_refl|exact Hv].
    + rewrite Z.sub_0_r; exact I.
    + intros n Hn; unfold within; rewrite Z.add_0_r.
      destruct (Z.leb_spec base n), (Z.ltb_spec n base); try lia; reflexivity.
Qed.

(** ** [__vmr_alloc] *)

Lemma vmr_alloc_spec P held (s : vm H) addr length file offset refcnt prot :
  inv held (fun _ => 0) s -> 0 < refcnt < 2 ^ 32 ->
  (forall f, file = Some f -> (f < List.length (files (kern s)))%nat /\
     0 < refs f (fds (kern s)) + (held f + mapped (vmr s) f)) ->
  let v := Vmr addr length file offset refcnt prot in
  wp P (__vmr_alloc addr length file offset refcnt prot)
    (fun r s' =>
       (r = 0 /\ s' = s /\ Forall (fun v => v_refcnt v <> 0) (vmr s)) \/
       exists i, (i < MAX_VMR)%nat /\ r = region s i /\ users s' i = 0 /\
         vmr s' = <[i := v]> (vmr s) /\ vmr s' !! i = Some v /\
         inv held (plus (fun _ => 0) i refcnt) s' /\ keeps s s' /\ area s' = area s /\
         umem s' = umem s) s.
Proof.
  intros I R F v; unfold __vmr_alloc; apply wp_seq; unfold wp at 1, vmr_page.
  pose proof (inv_vmrs _ _ _ I) as [V _]; rewrite (proj2 (Z.eqb_neq (vmrs s) 0)) by lia.
  unfold wp; destruct (list_find _ _) as [[i w]|] eqn:Lf;
    [|left; apply list_find_None in Lf; auto].
  apply list_find_Some in Lf as (Hw & W0 & _).
  assert (Hi : (i < MAX_VMR)%nat)
    by (rewrite <- (inv_length _ _ _ I); apply lookup_lt_Some in Hw; exact Hw).
  assert (U0 : users s i = 0).
  { destruct (inv_refcnt _ _ _ I i w Hw) as [C _]; lia. }
  pose (s' := fun k => set_kern k (set_vmrs (vmrs s) (<[i := v]> (vmr s)) s)).
  assert (G : forall k, List.length (files k) = List.length (files (kern s)) ->
            refs_ok (fun f => held f + mapped (<[i := v]> (vmr s)) f) k ->
            (region s i = 0 /\ s' k = s /\ Forall (fun v => v_refcnt v <> 0) (vmr s)) \/
            exists j, (j < MAX_VMR)%nat /\ region s i = region s j /\ users (s' k) j = 0 /\
              vmr (s' k) = <[j := v]> (vmr s) /\ vmr (s' k) !! j = Some v /\
              inv held (plus (fun _ => 0) j refcnt) (s' k) /\
              keeps s (s' k) /\ area (s' k) = area s /\ umem (s' k) = umem s).
  { intros k Lk OK; right; exists i; split; [exact Hi|]; split; [reflexivity|].
    split; [rewrite <- U0; apply users_eq; reflexivity|]; split; [reflexivity|].
    split; [apply list_lookup_insert_eq; rewrite (inv_length _ _ _ I); exact Hi|].
    split; [|split; [split; auto | auto]].
    apply (set_vmr_inv held _ s i w v (kern s)); auto; cbn [v v_refcnt v_file]; try lia.
    intros f _ E; apply F, E. }
  assert (Mw : forall f, maps f w = false) by (intros f; unfold maps; rewrite W0; reflexivity).
  unfold seq_op, put_vmr, give, on_kern; destruct file as [f|].
  - destruct (F f eq_refl) as [Lf Rf]; pose proof (mapped_bound _ f (inv_length _ _ _ I)).
    pose proof (inv_held _ _ _ I f).
    destruct (incref_spec _ (kern s) f (inv_files _ _ _ I) Lf) as (k & -> & OK & Lk); [lia..|].
    apply (G k Lk); eapply refs_ok_ext; [|exact OK]; intros g.
    rewrite (mapped_insert _ _ _ _ _ Hw), Mw; unfold plus, maps, nz; cbn [v v_refcnt v_file].
    rewrite (proj2 (Z.eqb_neq refcnt 0)) by lia; cbn [negb andb Z.b2z].
    destruct (decide (g = f)) as [->|N]; [rewrite bool_decide_true by reflexivity |
      rewrite bool_decide_false by congruence]; cbn [Z.b2z]; lia.
  - replace (set_vmrs (vmrs s) (<[i := _]> (vmr s)) s) with (s' (kern s)) by (destruct s;
      reflexivity).
    apply (G (kern s) eq_refl); eapply refs_ok_ext; [|apply (inv_files _ _ _ I)].
    intros g; rewrite (mapped_insert _ _ _ _ _ Hw), Mw; unfold maps; cbn [v v_file].
    rewrite bool_decide_false by congruence; rewrite andb_false_r; cbn; lia.
Qed.

(** ** Page faults *)

Context (pread_bytes : list Z -> H -> list Z).

(** Memory after the first touch of a page of region [v]: zeros, or the bytes of the file. *)
Definition filled (s : vm H) (v : vmr_t) (a pa : Z) : Z -> Z :=
  match v_file v with
  | None => zero_bytes (umem s) pa RISCV_PGSIZE
  | Some f =>
      match files (kern s) !! f with
      | None => umem s
      | Some x =>
          let flen := Z.min RISCV_PGSIZE (u64 (v_length v - (a - v_addr v))) in
          let args := [kfd x; u64 (a + first_free_paddr s); flen; u64 (a - v_addr v + v_offset v);
                       0; 0; 0] in
          let ret := i64 (fst (frontend_syscall SYS_pread args (host (kern s)))) in
          let m := put_bytes (umem s) (u64 (a + first_free_paddr s))
                     (pread_bytes args (host (kern s))) in
          if ret <? RISCV_PGSIZE then zero_bytes m (pa + ret) (RISCV_PGSIZE - ret) else m
      end
  end.

Lemma inv_memory held pend (s : vm H) m h :
  inv held pend s -> inv held pend (set_umem m (set_kern (set_host h (kern s)) s)) /\
  keeps s (set_umem m (set_kern (set_host h (kern s)) s)).
Proof.
  intros [I1 I2 I3 I4 I5 I6 I7 I8 I9]; split; [|split; auto]; split; auto.
  - destruct I4; split; assumption.
  - apply refs_ok_host, I8.
Qed.

Lemma fill_page_spec (P : Prop) held pend (s : vm H) v a pa :
  inv held pend s -> 0 <= a < DRAM_BASE -> v_file v = None \/ P ->
  (forall f, v_file v = Some f -> (f < length (files (kern s)))%nat) ->
  wp P (fill_page frontend_syscall pread_bytes v a pa)
    (fun _ s' => inv held pend s' /\ keeps s s' /\ area s' = area s /\ vmr s' = vmr s /\
                 umem s' = filled s v a pa) s.
Proof.
  intros I Ha Hp F; unfold fill_page, filled; destruct (v_file v) as [f|].
  - destruct Hp as [Hp|Hp]; [discriminate Hp|].
    destruct (lookup_lt_is_Some_2 _ _ (F f eq_refl)) as [x Hx]; rewrite Hx; apply wp_seq.
    unfold file_pread; set (flen := Z.min _ _); set (off := u64 (a - v_addr v + v_offset v)).
    unfold wp at 1, seq_op, on_kern, get_file; rewrite Hx; unfold va2pa, give, frontend.
    rewrite (proj2 (Z.leb_gt DRAM_BASE a)) by lia; cbn [kern set_kern first_free_paddr host].
    set (args := [kfd x; u64 (a + first_free_paddr s); flen; off; 0; 0; 0]).
    destruct (frontend_syscall SYS_pread args (host (kern s))) as [r h] eqn:E; cbn [fst].
    apply wp_seq, wp_kassert; [intros _|auto].
    set (m := put_bytes (umem s) _ _); destruct (i64 r <? RISCV_PGSIZE).
    + unfold wp, clear_page; cbn [umem set_umem].
      destruct (inv_memory held pend s (zero_bytes m (pa + i64 r) (RISCV_PGSIZE - i64 r)) h I) as [J K].
      split; [exact J|]; split; [exact K | auto].
    + apply wp_give; destruct (inv_memory held pend s m h I) as [J K].
      split; [exact J|]; split; [exact K | auto].
  - unfold wp, clear_page.
    destruct (inv_memory held pend s (zero_bytes (umem s) pa RISCV_PGSIZE) (host (kern s)) I) as [J K].
    replace (set_umem _ s) with
      (set_umem (zero_bytes (umem s) pa RISCV_PGSIZE) (set_kern (set_host (host (kern s)) (kern s)) s))
      by (destruct s as [? ? ? ? ? ? ? ? []]; reflexivity).
    split; [exact J|]; split; [exact K | auto].
Qed.

(** The entry of a page after its first touch. *)
Definition user_pte (s : vm H) (n prot : Z) : Z := pte_create (frame_of s n) (prot_to_type prot 1).

Lemma touch_page_spec (P : Prop) held pend (s : vm H) a p i v :
  inv held pend s -> (forall j, 0 <= pend j) -> slot (area s) a = Some p ->
  0 <= a < mmap_max (current s) -> a mod RISCV_PGSIZE = 0 -> vmr s !! i = Some v ->
  entry s (vpn a) = region s i -> v_file v = None \/ P ->
  wp P (touch_page frontend_syscall pread_bytes p (vpn a) a)
    (fun _ s' =>
       inv held pend s' /\ keeps s s' /\
       umem s' = filled s v a (frame_of s (vpn a) * RISCV_PGSIZE) /\
       vmr s' = <[i := with_refcnt v (v_refcnt v - 1)]> (vmr s) /\
       forall n, 0 <= n < 2 ^ 27 ->
         entry s' n = if n =? vpn a then user_pte s (vpn a) (v_prot v) else entry s n) s.
Proof.
  intros I Pd S Ha A0 Hv E Hp; pose proof (inv_limits _ _ _ I) as L.
  destruct (user_page s a L Ha) as (_ & P1 & P2); pose proof (vpn_range a) as Vr.
  pose proof (frame_range s (vpn a) L Vr) as Fr.
  assert (Hi : (i < MAX_VMR)%nat)
    by (rewrite <- (inv_length _ _ _ I); apply lookup_lt_Some in Hv; exact Hv).
  assert (Nr : forall (t : vm H) prot user j, vmrs t = vmrs s -> (j < MAX_VMR)%nat ->
            (pte_create (frame_of s (vpn a)) (prot_to_type prot user) =? region t j) = false).
  { intros t prot user j Et Hj; apply Z.eqb_neq; unfold region; rewrite Et.
    apply (valid_not_region _ _ _ j _ I Hj), frame_valid; assumption. }
  assert (OKv : forall (t : vm H) prot user, keeps s t ->
            entry_ok t (vpn a) (pte_create (frame_of s (vpn a)) (prot_to_type prot user))).
  { intros t prot user K; apply (keeps_entry_ok s t _ _ K); right; right; left; eauto. }
  unfold wp, touch_page; fold (frame_of s (vpn a)); rewrite u64_small by lia.
  apply wp_seq; unfold wp at 1, read_pte; rewrite (entry_slot s a p S), E.
  apply wp_seq; unfold wp at 1, vmr_at; rewrite region_index; apply wp_seq.
  set (tmp := pte_create _ _); unfold wp at 1, write_pte.
  destruct (write_entry held pend s a p tmp I S (OKv s _ _ (keeps_refl s))) as (I1 & K1 & E1).
  set (s1 := set_area _ s) in *; apply wp_seq; unfold wp at 1, get_vmr.
  change (vmr s1) with (vmr s); rewrite Hv; apply wp_seq.
  assert (I1' : inv held (plus pend i 1) s1).
  { eapply inv_ext; [|exact I1]; intros j Hj; cbv beta; unfold tmp;
      rewrite E, (Nr s _ _ j eq_refl Hj).
    unfold plus; destruct (decide (j = i)) as [->|N]; [rewrite Z.eqb_refl; cbn; lia|].
    rewrite (proj2 (Z.eqb_neq _ _)) by (intros X; apply region_inj in X; congruence); cbn; lia. }
  pose proof (inv_refcnt _ _ _ I i v Hv) as [C _]; pose proof (region_users _ _ _ _ _ I E) as U.
  specialize (Pd i).
  assert (Fv : forall f, v_file v = Some f -> (f < length (files (kern s1)))%nat)
    by (intros f; apply (inv_target _ _ _ I i v f Hv); lia).
  assert (Da : 0 <= a < DRAM_BASE) by (pose proof (lim_max _ L); lia).
  eapply wp_mono; [exact id | | exact (fill_page_spec P held (plus pend i 1) s1 v a
    (frame_of s (vpn a) * RISCV_PGSIZE) I1' Da Hp Fv)].
  intros u s2 (I2 & K2 & A2 & V2 & M2); cbv beta; apply wp_seq.
  eapply wp_mono; [exact id | | apply (vmr_decref_spec frontend_syscall P held (plus pend i 1) s2 i v I2);
    [rewrite V2; exact Hv | lia]].
  intros u3 s3 (I3 & K3 & A3 & M3 & V3); unfold wp, write_pte.
  pose proof (keeps_trans _ _ _ (keeps_trans _ _ _ K1 K2) K3) as K.
  assert (S3 : slot (area s3) a = Some p) by (apply (keeps_slot _ _ K), S).
  destruct (write_entry _ _ s3 a p (user_pte s (vpn a) (v_prot v)) I3 S3 (OKv s3 _ _ K))
    as (I4 & K4 & E4).
  assert (E3 : forall n, entry s3 n = entry s1 n) by (intros n; unfold entry; rewrite A3, A2;
    reflexivity).
  split; [|split; [exact (keeps_trans _ _ _ K K4)|]; split; [|split]].
  - eapply inv_ext; [|exact I4]; intros j Hj; cbv beta; unfold user_pte.
    rewrite (Nr s3 _ _ j (keeps_vmrs _ _ K) Hj), E3, E1, Z.eqb_refl by exact Vr.
    unfold tmp; rewrite (Nr s3 _ _ j (keeps_vmrs _ _ K) Hj); unfold plus; destruct (decide _);
      cbn; lia.
  - change (umem s3 = filled s v a (frame_of s (vpn a) * RISCV_PGSIZE)); rewrite M3, M2;
      reflexivity.
  - change (vmr s3 = <[i := with_refcnt v (v_refcnt v - 1)]> (vmr s)); rewrite V3, V2; reflexivity.
  - intros n Hn; rewrite E4, E3, E1 by exact Hn; destruct (n =? vpn a); reflexivity.
Qed.

(** Whether an entry of the given type permits an access. *)
Definition allows (type prot : Z) : bool := type .& prot_to_type prot 1 =? prot_to_type prot 1.

Lemma perms_test n type prot :
  0 <= n < 2 ^ 54 -> 0 <= type < 2 ^ 10 ->
  let perms := pte_create 0 (prot_to_type prot 1) in
  (pte_create n type .& perms =? perms) = allows type prot.
Proof.
  intros Hn Ht perms; pose proof (prot_to_type_range prot 1) as R.
  assert (Pe : perms = prot_to_type prot 1 .| 1) by (unfold perms, pte_create; apply Z.lor_comm).
  assert (Ev : forall x, (x .& prot_to_type prot 1) mod 2 = 0).
  { intros x; rewrite <- Z.bit0_mod, Z.land_spec.
    replace (Z.testbit (prot_to_type prot 1) 0) with false; [rewrite andb_false_r; reflexivity|].
    unfold prot_to_type; repeat destruct (nz _); reflexivity. }
  destruct (pte_create_bits n type perms Hn Ht) as [-> _].
  { rewrite Pe; apply (lor_range 10); lia. }
  rewrite Pe; change PTE_V with 1; rewrite <- Z.lor_land_distr_l; unfold allows; rewrite !lor_1.
  pose proof (Ev type) as E1; pose proof (Ev (prot_to_type prot 1)) as E2;
    rewrite Z.land_diag in E2.
  apply eq_true_iff_eq; rewrite !Z.eqb_eq; Z.div_mod_to_equations; lia.
Qed.

(** What [__handle_page_fault] does. *)
Inductive fault (s : vm H) (vaddr prot : Z) : Z -> vm H -> Prop :=
| fault_unmapped :
    mmap_max (current s) <= vaddr \/ entry s (vaddr / RISCV_PGSIZE) = 0 ->
    fault s vaddr prot (-1) s
| fault_present type :
    let n := vaddr / RISCV_PGSIZE in
    vaddr < mmap_max (current s) -> 0 <= type < 2 ^ 10 ->
    entry s n = pte_create (frame_of s n) type ->
    fault s vaddr prot (if allows type prot then 0 else -1) s
| fault_touch i v s' :
    let n := vaddr / RISCV_PGSIZE in
    vaddr < mmap_max (current s) -> vmr s !! i = Some v -> entry s n = region s i ->
    umem s' = filled s v (n * RISCV_PGSIZE) (frame_of s n * RISCV_PGSIZE) ->
    vmr s' = <[i := with_refcnt v (v_refcnt v - 1)]> (vmr s) ->
    (forall k, 0 <= k < 2 ^ 27 -> entry s' k = if k =? n then user_pte s n (v_prot v) else entry s k) ->
    fault s vaddr prot (if allows (prot_to_type (v_prot v) 1) prot then 0 else -1) s'.

(** Every untouched page of the address has a file, or none. *)
Definition anonymous_at (s : vm H) (n : Z) : Prop :=
  forall i v, entry s n = region s i -> vmr s !! i = Some v -> v_file v = None.

Lemma page_address vaddr :
  0 <= vaddr < 2 ^ 64 ->
  let a := u64 ((vaddr .>> RISCV_PGSHIFT) .<< RISCV_PGSHIFT) in
  a = vaddr / RISCV_PGSIZE * RISCV_PGSIZE /\ vaddr .>> RISCV_PGSHIFT = vaddr / RISCV_PGSIZE.
Proof using.
  intros R a; unfold a; change RISCV_PGSHIFT with 12; rewrite shiftr_div, shiftl_mul by lia.
  change (2 ^ 12) with RISCV_PGSIZE; split; [|reflexivity]; apply u64_small.
  change RISCV_PGSIZE with 4096; clear - R; Z.div_mod_to_equations; lia.
Qed.

Lemma valid_page (s : vm H) n :
  limits s -> 0 <= n * RISCV_PGSIZE < 2 ^ 64 - 1 ->
  __valid_user_range (n * RISCV_PGSIZE) 1 s = (n * RISCV_PGSIZE <? mmap_max (current s)).
Proof using.
  intros L R; unfold __valid_user_range; rewrite u64_small by lia.
  rewrite (proj2 (Z.ltb_ge _ _)) by lia; apply eq_true_iff_eq; rewrite Z.leb_le, Z.ltb_lt; lia.
Qed.

(** The part of [__handle_page_fault] after its guard, on the page [n] at [a]. *)
Definition fault_tail (p n a prot e : Z) : op (vm H) Z :=
  let% _ := if negb (nz (e .& PTE_V)) then touch_page frontend_syscall pread_bytes p n a
            else give tt in
  let perms := pte_create 0 (prot_to_type prot 1) in
  let% e := read_pte p in
  give (if negb (e .& perms =? perms) then -1 else 0).

Lemma fault_tail_spec (P : Prop) held (s : vm H) vaddr prot p :
  let n := vaddr / RISCV_PGSIZE in
  let a := n * RISCV_PGSIZE in
  inv held (fun _ => 0) s -> slot (area s) a = Some p -> 0 <= a -> vaddr < mmap_max (current s) ->
  a <= vaddr -> vpn a = n -> entry s n <> 0 -> P \/ anonymous_at s n ->
  wp P (fault_tail p n a prot (entry s n))
    (fun r s' => inv held (fun _ => 0) s' /\ keeps s s' /\ fault s vaddr prot r s') s.
Proof.
  intros n a I S A0 V Av Vn E0 Hp; pose proof (inv_limits _ _ _ I) as L.
  assert (Ha : 0 <= a < mmap_max (current s)) by lia; unfold fault_tail.
  pose proof (entry_slot s a p S) as W; rewrite Vn in W.
  pose proof (user_entry _ _ s a I Ha) as C; rewrite Vn in C.
  pose proof (vpn_range a) as Rn; rewrite Vn in Rn; pose proof (frame_range s n L Rn) as Fr.
  destruct C as [E|[(i & v & Hi & Hv & E)|[Vd (vp & user & E)]]]; [contradiction| |].
  - replace (nz (entry s n .& PTE_V)) with false
      by (rewrite E; symmetry; apply (region_invalid _ _ _ i I Hi)); cbn [negb].
    apply wp_seq; rewrite <- Vn at 1.
    eapply wp_mono; [exact id | | apply (touch_page_spec P held _ s a p i v I); auto; try lia].
    2:{ apply Z.mod_mul; discriminate. }
    2:{ rewrite Vn; exact E. }
    2:{ destruct Hp as [Hp|Hp]; [auto | left; apply (Hp i v); [exact E | exact Hv]]. }
    intros u s' (I' & K & U' & V' & E'); cbv beta; rewrite Vn in U', E'.
    unfold wp, seq_op, read_pte, give; split; [exact I'|]; split; [exact K|].
    rewrite (entry_slot s' a p) by (apply (keeps_slot _ _ K), S).
    rewrite Vn, E', Z.eqb_refl by exact Rn; unfold user_pte.
    pose proof (prot_to_type_range (v_prot v) 1); rewrite perms_test by (exact Fr || lia).
    replace (if negb (allows _ prot) then -1 else 0)
      with (if allows (prot_to_type (v_prot v) 1) prot then 0 else -1)
      by (destruct (allows _ _); reflexivity).
    exact (fault_touch s vaddr prot i v s' V Hv E U' V' E').
  - rewrite Vd; cbn [negb]; unfold wp, seq_op, give, read_pte; rewrite W, E.
    pose proof (prot_to_type_range vp user); rewrite perms_test by (exact Fr || lia).
    replace (if negb (allows _ prot) then -1 else 0)
      with (if allows (prot_to_type vp user) prot then 0 else -1)
      by (destruct (allows _ _); reflexivity).
    split; [exact I|]; split; [apply keeps_refl|].
    apply fault_present; auto; lia.
Qed.

Lemma page_fault_spec (P : Prop) held (s : vm H) vaddr prot :
  inv held (fun _ => 0) s -> 0 <= vaddr < 2 ^ 64 -> P \/ anonymous_at s (vaddr / RISCV_PGSIZE) ->
  wp P (__handle_page_fault frontend_syscall pread_bytes vaddr prot)
    (fun r s' => inv held (fun _ => 0) s' /\ keeps s s' /\ fault s vaddr prot r s') s.
Proof.
  intros I Hr Hp; pose proof (inv_limits _ _ _ I) as L; pose proof (lim_max _ L) as [M M0].
  unfold __handle_page_fault; destruct (page_address vaddr Hr) as [-> ->].
  set (n := vaddr / RISCV_PGSIZE) in *; set (a := n * RISCV_PGSIZE).
  assert (B : 0 <= a <= vaddr /\ vaddr < a + RISCV_PGSIZE /\ a mod RISCV_PGSIZE = 0 /\
    a < 2 ^ 64 - 1).
  { unfold a, n; change RISCV_PGSIZE with 4096; clear - Hr; Z.div_mod_to_equations; lia. }
  assert (Lt : (a <? mmap_max (current s)) = (vaddr <? mmap_max (current s))).
  { apply eq_true_iff_eq; rewrite !Z.ltb_lt; change RISCV_PGSIZE with 4096 in *; clear - B M0.
    Z.div_mod_to_equations; lia. }
  apply wp_seq; unfold wp at 1; rewrite run_walk_area; apply wp_seq; unfold wp at 1, read_pte.
  unfold wp; change (__valid_user_range a 1 s) with (__valid_user_range (n * RISCV_PGSIZE) 1 s).
  rewrite valid_page by (try exact L; fold a; lia); fold a.
  rewrite Lt.
  destruct (Z.ltb_spec vaddr (mmap_max (current s))) as [V|V]; cbn [negb].
  2:{ rewrite orb_true_r; auto using keeps_refl, fault_unmapped. }
  rewrite orb_false_r; assert (Ha : 0 <= a < mmap_max (current s)) by lia.
  assert (Vn : vpn a = n).
  { rewrite (proj1 (user_page s a L Ha)); unfold a; apply Z.div_mul; discriminate. }
  destruct (slot (area s) a) as [p|] eqn:S.
  2:{ pose proof (entry_no_slot s a S) as E0; rewrite Vn in E0.
      cbn [Z.eqb orb]; auto using keeps_refl, fault_unmapped. }
  rewrite (proj2 (Z.eqb_neq p 0) (slot_not_null _ _ _ (inv_tree _ _ _ I) S)); cbn [orb].
  pose proof (entry_slot s a p S) as W; rewrite Vn in W; rewrite W.
  destruct (Z.eqb_spec (entry s n) 0) as [E0|E0]; [auto using keeps_refl, fault_unmapped|].
  exact (fault_tail_spec P held s vaddr prot p I S (proj1 Ha) V (proj2 (proj1 B)) Vn E0 Hp).
Qed.

End Ops.
