(* ===== verification/MmapAlloc.v ===== *)
(** * The search for free addresses ([__vm_alloc])

    [__vm_alloc] looks for [npage] pages without an entry, from the break to the end of the
    user's part.  It tests the first page of a window and then the others from the last one
    down, and continues after a page that is in use; it returns the lowest window there is. *)

From S2P Require Import Prelude File PageTable Mmap MmapInv.
From stdpp Require Import base list list_numbers.
From Stdlib Require Import ZArith Lia.
#[local] Open Scope Z_scope.
#[local] Open Scope c_scope.
#[local] Open Scope bool_scope.

Section Alloc.
Context {H : Type}.

Definition free_page (s : vm H) (a : Z) : bool := entry s (vpn a) =? 0.

(** A window of [npage] free pages at [a]. *)
Definition free_window (s : vm H) (npage a : Z) : Prop :=
  forall i, 0 <= i < npage -> free_page s (a + RISCV_PGSIZE * i) = true.

Lemma run_va_avail (s : vm H) a : tree (area s) -> __va_avail a s = Ok (free_page s a, s).
Proof.
  intros T; unfold __va_avail, seq_op; rewrite run_walk_area; unfold read_pte, give, free_page.
  destruct (slot (area s) a) as [p|] eqn:S.
  - rewrite (entry_slot s a p S), (proj2 (Z.eqb_neq p 0) (slot_not_null _ _ _ T S)); reflexivity.
  - rewrite (entry_no_slot s a S); reflexivity.
Qed.

(** The inner loop stops at the last page in use after the first one. *)
Lemma run_avail_down (s : vm H) fuel first k :
  tree (area s) -> 0 <= first -> first + RISCV_PGSIZE * Z.of_nat k < 2 ^ 63 -> (k < fuel)%nat ->
  exists j, 0 <= j <= Z.of_nat k /\
    avail_down fuel first (first + RISCV_PGSIZE * Z.of_nat k) s = Ok (first + RISCV_PGSIZE * j, s) /\
    (0 < j -> free_page s (first + RISCV_PGSIZE * j) = false) /\
    (forall i, j < i <= Z.of_nat k -> free_page s (first + RISCV_PGSIZE * i) = true).
Proof.
  intros T F; revert fuel; induction k as [|k IH]; intros [|fuel] B Hk; try lia; cbn [avail_down].
  - exists 0; rewrite Z.mul_0_r, Z.add_0_r, Z.ltb_irrefl; split; [lia|].
    split; [unfold give; do 3 f_equal; lia|]; split; intros; lia.
  - change RISCV_PGSIZE with 4096 in B; set (a := first + RISCV_PGSIZE * Z.of_nat (S k)).
    rewrite (proj2 (Z.ltb_lt first a)) by (unfold a; change RISCV_PGSIZE with 4096; lia).
    unfold seq_op; rewrite run_va_avail by exact T; destruct (free_page s a) eqn:E.
    + replace (u64 (a - RISCV_PGSIZE)) with (first + RISCV_PGSIZE * Z.of_nat k)
        by (unfold a; change RISCV_PGSIZE with 4096; rewrite u64_small; lia).
      destruct (IH fuel) as (j & Hj & Ej & Nj & Aj);
        [change RISCV_PGSIZE with 4096; lia | lia |]; exists j.
      split; [lia|]; split; [exact Ej|]; split; [exact Nj|]; intros i Hi.
      destruct (Z.eq_dec i (Z.of_nat (S k))) as [->|N]; [exact E | apply Aj; lia].
    + exists (Z.of_nat (S k)); split; [lia|]; split; [reflexivity|]; split; [auto | intros; lia].
Qed.

(** The outer loop: the lowest window from [a] on. *)
Lemma run_vm_alloc_loop (s : vm H) npage last fuel a :
  tree (area s) -> 1 <= npage -> 0 <= a -> last + RISCV_PGSIZE * npage <= 2 ^ 40 ->
  a <= last + RISCV_PGSIZE * npage -> last - a < RISCV_PGSIZE * (Z.of_nat fuel - 1) ->
  (1 <= fuel)%nat ->
  exists r, vm_alloc_loop fuel npage last a s = Ok (r, s) /\
    ((r = 0 /\ forall i, 0 <= i -> a + RISCV_PGSIZE * i <= last ->
                 ~ free_window s npage (a + RISCV_PGSIZE * i)) \/
     exists j, 0 <= j /\ r = a + RISCV_PGSIZE * j /\ r <= last /\ free_window s npage r /\
       forall i, 0 <= i < j -> ~ free_window s npage (a + RISCV_PGSIZE * i)).
Proof.
  intros T N; revert a; induction fuel as [|fuel IH]; intros a A0 B A1 F F1; [lia|].
  cbn [vm_alloc_loop]; destruct (Z.leb_spec a last) as [La|La].
  2:{ exists 0; split; [reflexivity|]; left; split; [reflexivity|]; intros i Hi.
      change RISCV_PGSIZE with 4096; lia. }
  (* the search goes on after the page a + k, which no window in between avoids *)
  assert (Go : forall k, 0 <= k < npage ->
            (forall i, 0 <= i <= k -> ~ free_window s npage (a + RISCV_PGSIZE * i)) ->
            exists r, vm_alloc_loop fuel npage last (u64 (a + RISCV_PGSIZE * k + RISCV_PGSIZE)) s
                        = Ok (r, s) /\
    ((r = 0 /\ forall i, 0 <= i -> a + RISCV_PGSIZE * i <= last ->
                 ~ free_window s npage (a + RISCV_PGSIZE * i)) \/
     exists j, 0 <= j /\ r = a + RISCV_PGSIZE * j /\ r <= last /\ free_window s npage r /\
       forall i, 0 <= i < j -> ~ free_window s npage (a + RISCV_PGSIZE * i))).
  { intros k Hk W; assert (Sh : forall i, a + RISCV_PGSIZE * k + RISCV_PGSIZE + RISCV_PGSIZE * i
                                        = a + RISCV_PGSIZE * (k + 1 + i)) by (intros; ring).
    change RISCV_PGSIZE with 4096 in *; rewrite u64_small by lia.
    destruct (IH (a + 4096 * k + 4096)) as (r & Er & Hr); try lia; exists r; split; [exact Er|].
    destruct Hr as [[R0 Nw]|(j & J0 & J1 & J2 & J3 & J4)].
    - left; split; [exact R0|]; intros i Hi Li; destruct (Z.le_gt_cases i k); [apply W; lia|].
      specialize (Nw (i - k - 1)); rewrite Sh in Nw;
        replace (k + 1 + (i - k - 1)) with i in Nw by lia.
      apply Nw; lia.
    - right; exists (k + 1 + j); rewrite Sh in J1; repeat split; try assumption; try lia.
      intros i Hi; destruct (Z.le_gt_cases i k); [apply W; lia|].
      specialize (J4 (i - k - 1)); rewrite Sh in J4;
        replace (k + 1 + (i - k - 1)) with i in J4 by lia.
      apply J4; lia. }
  unfold seq_op; rewrite run_va_avail by exact T; destruct (free_page s a) eqn:E; cbn [negb].
  - destruct (run_avail_down s (S (Z.to_nat npage)) a (Z.to_nat (npage - 1)) T A0)
      as (j & Hj & Ej & Nj & Aj); [change RISCV_PGSIZE with 4096 in *; lia | lia |].
    rewrite Z2Nat.id in * by lia.
    replace (u64 (a + (npage - 1) * RISCV_PGSIZE)) with (a + RISCV_PGSIZE * (npage - 1))
      by (change RISCV_PGSIZE with 4096 in *; rewrite u64_small; lia).
    rewrite Ej; destruct (Z.ltb_spec a (a + RISCV_PGSIZE * j)) as [J|J].
    + apply (Go j); [lia|]; intros i Hi W; specialize (W (j - i) ltac:(lia)).
      replace (a + RISCV_PGSIZE * i + RISCV_PGSIZE * (j - i)) with (a + RISCV_PGSIZE * j) in W by ring.
      rewrite Nj in W; [discriminate|]; change RISCV_PGSIZE with 4096 in J; lia.
    + assert (j = 0) as -> by (change RISCV_PGSIZE with 4096 in J; lia).
      rewrite Z.mul_0_r, Z.add_0_r; exists a; split; [reflexivity|]; right; exists 0.
      rewrite Z.mul_0_r, Z.add_0_r; repeat split; try lia; intros i Hi.
      destruct (Z.eq_dec i 0) as [->|Ni]; [rewrite Z.mul_0_r, Z.add_0_r; exact E | apply Aj; lia].
  - specialize (Go 0); rewrite Z.mul_0_r, Z.add_0_r in Go; apply Go; [lia|]; intros i Hi W.
    specialize (W 0 ltac:(lia)); assert (i = 0) as -> by lia; rewrite Z.mul_0_r, !Z.add_0_r in W.
    congruence.
Qed.

(** The lowest window from the break on that ends by [mmap_max]. *)
Definition first_fit (s : vm H) (npage a : Z) : Prop :=
  exists j, 0 <= j /\ a = brk (current s) + RISCV_PGSIZE * j /\
    a + RISCV_PGSIZE * npage <= mmap_max (current s) /\ free_window s npage a /\
    forall i, 0 <= i < j -> ~ free_window s npage (brk (current s) + RISCV_PGSIZE * i).

Definition no_fit (s : vm H) (npage : Z) : Prop :=
  forall i, 0 <= i ->
    brk (current s) + RISCV_PGSIZE * i + RISCV_PGSIZE * npage <= mmap_max (current s) ->
    ~ free_window s npage (brk (current s) + RISCV_PGSIZE * i).

Lemma run_vm_alloc (s : vm H) npage :
  tree (area s) -> 0 <= brk (current s) <= mmap_max (current s) -> mmap_max (current s) <= 2 ^ 40 ->
  1 <= npage -> RISCV_PGSIZE * npage <= mmap_max (current s) ->
  exists r, __vm_alloc npage s = Ok (r, s) /\ ((r = 0 /\ no_fit s npage) \/ first_fit s npage r).
Proof.
  intros T B M N F; set (last := mmap_max (current s) - RISCV_PGSIZE * npage).
  unfold __vm_alloc; replace (u64 (mmap_max (current s) - npage * RISCV_PGSIZE)) with last
    by (unfold last; change RISCV_PGSIZE with 4096 in *; rewrite u64_small; lia).
  edestruct (run_vm_alloc_loop s npage last) as (r & E & C); [exact T | exact N | apply B | ..].
  5:{ exists r; split; [exact E|]; destruct C as [[R0 W]|(j & J0 & J1 & J2 & J3 & J4)].
      - left; split; [exact R0|]; intros i Hi Li; apply W; [exact Hi | unfold last; lia].
      - right; exists j; repeat split; try assumption; unfold last in J2; lia. }
  1-2, 4: try (unfold last; lia); lia.
  set (start := brk (current s)); clearbody start last; clear; change RISCV_PGSIZE with 4096.
  Z.div_mod_to_equations; lia.
Qed.
End Alloc.
