(* ===== verification/MmapCalls.v ===== *)
(** * The calls of virtual memory

    [__do_mmap], the calls of the program, and the start of virtual memory. *)

From S2P Require Import Prelude File PageTable Mmap MmapInv MmapOps MmapAlloc.
From stdpp Require Import base list list_numbers.
From Stdlib Require Import ZArith Lia.
#[local] Open Scope Z_scope.
#[local] Open Scope c_scope.
#[local] Open Scope bool_scope.
#[local] Abbreviation plus := File.plus.

Section Calls.
Context {H : Type}.

(** ** Populating a mapping *)

Lemma zero_next (m : Z -> Z) b j x :
  0 <= j ->
  (if within x ((b + j) * RISCV_PGSIZE) RISCV_PGSIZE then 0
   else if within x (b * RISCV_PGSIZE) (RISCV_PGSIZE * j) then 0 else m x)
  = if within x (b * RISCV_PGSIZE) (RISCV_PGSIZE * (j + 1)) then 0 else m x.
Proof.
  intros Hj; replace (within x (b * RISCV_PGSIZE) (RISCV_PGSIZE * (j + 1)))
    with (within x ((b + j) * RISCV_PGSIZE) RISCV_PGSIZE || within x (b * RISCV_PGSIZE)
      (RISCV_PGSIZE * j)).
  - destruct (within x ((b + j) * RISCV_PGSIZE) RISCV_PGSIZE); reflexivity.
  - apply eq_true_iff_eq; rewrite orb_true_iff, !within_spec; change RISCV_PGSIZE with 4096; lia.
Qed.

Context (frontend_syscall : Z -> list Z -> H -> Z * H).
Context (pread_bytes : list Z -> H -> list Z).

(** The pages [base], [base + 1], ... of region [v] after [j] of them have been touched. *)
Record populated (held : nat -> Z) (s : vm H) (i : nat) (v : vmr_t) (base j : Z) (s' : vm H)
    : Prop := {
  pop_inv : inv held (fun _ => 0) s';
  pop_keeps : keeps s s';
  pop_entry : forall n, 0 <= n < 2 ^ 27 ->
    entry s' n = if within n base j then user_pte s n (v_prot v) else entry s n;
  pop_region : exists m, vmr s' = <[i := with_refcnt v m]> (vmr s);
  pop_umem : v_file v = None -> forall x,
    umem s' x = if within x (frame_of s base * RISCV_PGSIZE) (RISCV_PGSIZE * j) then 0 else umem s x
}.

(** A fault on an untouched page of region [i]. *)
Lemma fault_region held pend (s s' : vm H) vaddr prot r i v n :
  inv held pend s -> vaddr / RISCV_PGSIZE = n ->
    fault frontend_syscall pread_bytes s vaddr prot r s' ->
  vaddr < mmap_max (current s) -> 0 <= n < 2 ^ 27 -> vmr s !! i = Some v ->
  entry s n = region s i ->
  umem s' = filled frontend_syscall pread_bytes s v (n * RISCV_PGSIZE) (frame_of s n * RISCV_PGSIZE) /\
  vmr s' = <[i := with_refcnt v (v_refcnt v - 1)]> (vmr s) /\
  (forall k, 0 <= k < 2 ^ 27 ->
     entry s' k = if k =? n then user_pte s n (v_prot v) else entry s k) /\
  r = if allows (prot_to_type (v_prot v) 1) prot then 0 else -1.
Proof.
  intros I En F B Rn Hv E.
  assert (Hi : (i < MAX_VMR)%nat)
    by (rewrite <- (inv_length _ _ _ I); apply lookup_lt_Some in Hv; exact Hv).
  destruct (region_invalid _ _ _ i I Hi) as [Rv R0].
  destruct F as [[X|X]|type m X Ht X1|k w s' m X Hw X1 X2 X3 X4]; try unfold m in *;
    rewrite ?En in *.
  - lia.
  - congruence.
  - exfalso; rewrite E in X1; rewrite X1 in Rv.
    destruct (pte_create_bits (frame_of s n) type PTE_V) as [Bt _];
      [apply frame_range; [apply I | exact Rn] | lia | unfold PTE_V; lia|].
    rewrite Bt in Rv; unfold nz in Rv; rewrite negb_false_iff, Z.eqb_eq, Z.land_lor_distr_l,
      Z.lor_eq_0_iff in Rv; destruct Rv as [_ Rv]; discriminate Rv.
  - rewrite E in X1; apply region_inj in X1; subst k.
    rewrite Hv in Hw; injection Hw as <-; auto.
Qed.

Lemma populate_step held (s s1 : vm H) i v base j a :
  vmr s !! i = Some v -> entry s (base + j) = region s i -> 0 <= j ->
  populated held s i v base j s1 -> vpn a = base + j -> a = (base + j) * RISCV_PGSIZE ->
  0 <= a < mmap_max (current s) ->
  wp True (populate_page frontend_syscall pread_bytes (v_prot v) a)
    (fun _ s' => populated held s i v base (j + 1) s') s1.
Proof.
  intros Hv Ei Hj [I1 K1 E1 [m R1] U1] Va Ea Ha; unfold populate_page; apply wp_seq.
  pose proof (lim_max _ (inv_limits _ _ _ I1)) as [M _]; rewrite (keeps_current _ _ K1) in M.
  assert (Rn : 0 <= base + j < 2 ^ 27) by (rewrite <- Va; apply vpn_range).
  assert (Dv : a / RISCV_PGSIZE = base + j) by (rewrite Ea; apply Z.div_mul; discriminate).
  assert (Ej : entry s1 (base + j) = region s1 i).
  { rewrite E1, (keeps_region _ _ i K1) by exact Rn; unfold within.
    rewrite (proj2 (Z.ltb_ge _ _)), andb_false_r by lia; exact Ei. }
  assert (Hi : (i < MAX_VMR)%nat).
  { rewrite <- (inv_length _ _ _ I1), R1, length_insert; apply lookup_lt_Some in Hv; exact Hv. }
  eapply wp_mono; [exact id | | apply (page_fault_spec frontend_syscall pread_bytes True held s1 a);
    [exact I1 | unfold DRAM_BASE in M; lia | auto]].
  intros r s2 (I2 & K2 & F); apply wp_kassert; [intros _ | auto].
  assert (Hw : vmr s1 !! i = Some (with_refcnt v m)).
  { rewrite R1; apply list_lookup_insert_eq; apply lookup_lt_Some in Hv; exact Hv. }
  destruct (fault_region held _ s1 s2 a (v_prot v) r i (with_refcnt v m) _ I1 Dv F) as (U2 & R2 & E2 & _);
    rewrite ?(keeps_current _ _ K1); auto; [lia|].
  assert (Fr : forall n, frame_of s1 n = frame_of s n)
    by (intros n; unfold frame_of; rewrite (keeps_paddr _ _ K1); reflexivity).
  split.
  - exact I2.
  - exact (keeps_trans _ _ _ K1 K2).
  - intros n Hn; rewrite E2, within_next by assumption; unfold user_pte; rewrite Fr.
    destruct (Z.eqb_spec n (base + j)) as [->|_]; [reflexivity | apply E1, Hn].
  - eexists; rewrite R2, R1, list_insert_insert_eq; reflexivity.
  - intros Nf x; rewrite U2; unfold filled; change (v_file (with_refcnt v m)) with (v_file v).
    rewrite Nf, Fr; unfold zero_bytes; rewrite <- (zero_next (umem s) (frame_of s base) j x Hj).
    replace (frame_of s (base + j)) with (frame_of s base + j) by (unfold frame_of; lia).
    unfold within at 1; destruct (_ && _); [reflexivity | apply U1, Nf].
Qed.

(** The loop of [__do_mmap] for [MAP_POPULATE]. *)
Lemma populate_spec held (s : vm H) i v addr len :
  inv held (fun _ => 0) s -> vmr s !! i = Some v -> addr mod RISCV_PGSIZE = 0 -> 0 <= addr ->
  0 <= len -> addr + len <= mmap_max (current s) ->
  let base := addr / RISCV_PGSIZE in
  let count := Z.of_nat (page_count len) in
  (forall n, within n base count = true -> entry s n = region s i) ->
  wp True (for_pages (page_fuel len) addr (u64 (addr + len))
             (populate_page frontend_syscall pread_bytes (v_prot v)))
    (fun _ s' => populated held s i v base count s') s.
Proof.
  intros I Hv A0 A1 A2 A3 base count En; pose proof (inv_limits _ _ _ I) as L.
  pose proof (lim_max _ L) as [M _]; unfold DRAM_BASE in M.
  unfold wp; rewrite for_pages_range by lia; apply (iter_pages_wp True).
  - intros j s1 Hj C; destruct (range_page s addr len j L A0 A1 A2 A3 Hj) as (P1 & _ & P2 & _).
    apply populate_step; auto.
    + apply En, within_spec; unfold count; lia.
    + lia.
    + unfold base; change RISCV_PGSIZE with 4096 in *; clear - A0; Z.div_mod_to_equations; lia.
  - assert (W : forall n b, within n b 0 = false)
      by (intros n b; apply not_true_iff_false; rewrite within_spec; lia).
    split; auto using keeps_refl.
    + intros n _; rewrite W; reflexivity.
    + exists (v_refcnt v); replace (with_refcnt v (v_refcnt v)) with v by (destruct v; reflexivity).
      symmetry; apply list_insert_id, Hv.
    + intros _ x; rewrite Z.mul_0_r, W; reflexivity.
Qed.

(** ** [__do_mmap] *)

(** The address of a new mapping. *)
Inductive placed (s : vm H) (addr length flags : Z) : option Z -> Prop :=
| placed_fixed :
    nz (flags .& MAP_FIXED) = true -> addr mod RISCV_PGSIZE = 0 ->
    addr + length <= mmap_max (current s) -> placed s addr length flags (Some addr)
| placed_refused :
    nz (flags .& MAP_FIXED) = true ->
    addr mod RISCV_PGSIZE <> 0 \/ mmap_max (current s) < addr + length ->
    placed s addr length flags None
| placed_first a :
    nz (flags .& MAP_FIXED) = false -> first_fit s (Z.of_nat (page_count length)) a -> a <> 0 ->
    placed s addr length flags (Some a)
| placed_null :
    nz (flags .& MAP_FIXED) = false -> first_fit s (Z.of_nat (page_count length)) 0 ->
    placed s addr length flags None
| placed_full :
    nz (flags .& MAP_FIXED) = false -> no_fit s (Z.of_nat (page_count length)) ->
    placed s addr length flags None.

(** Whether the pages of a new mapping are touched at once. *)
Definition eager (s : vm H) (flags : Z) : bool :=
  negb (demand_paging s) || nz (flags .& MAP_POPULATE).

(** Region [i] maps [length] bytes at [a], and nothing else has changed. *)
Record mmapped (s : vm H) (a length prot flags : Z) (f : option nat) (offset : Z) (i : nat)
    (s' : vm H) : Prop := {
  mm_new : forall n, 0 <= n < 2 ^ 27 -> entry s n <> region s i;
  mm_region : exists n,
    vmr s' !! i = Some (Vmr a length f offset n prot);
  mm_others : forall j v, j <> i -> vmr s !! j = Some v ->
    exists n, vmr s' !! j = Some (with_refcnt v n);
  mm_entry : forall n, 0 <= n < 2 ^ 27 ->
    entry s' n = if within n (a / RISCV_PGSIZE) (Z.of_nat (page_count length))
                 then if eager s flags then user_pte s n prot else region s i
                 else entry s n;
  mm_umem : eager s flags = false -> umem s' = umem s;
  mm_zero : eager s flags = true -> f = None -> forall x,
    umem s' x = if within x (frame_of s (a / RISCV_PGSIZE) * RISCV_PGSIZE)
                     (RISCV_PGSIZE * Z.of_nat (page_count length)) then 0 else umem s x
}.

Inductive mmap_result (s : vm H) (addr length prot flags : Z) (f : option nat) (offset : Z)
    : Z -> vm H -> Prop :=
| mmap_no_place :
    placed s addr length flags None -> mmap_result s addr length prot flags f offset (u64 (-1)) s
| mmap_no_region a :
    placed s addr length flags (Some a) -> Forall (fun v => v_refcnt v <> 0) (vmr s) ->
    mmap_result s addr length prot flags f offset (u64 (-1)) s
| mmap_mapped a i s' :
    placed s addr length flags (Some a) -> 0 <= a -> a mod RISCV_PGSIZE = 0 ->
    a + length <= mmap_max (current s) -> mmapped s a length prot flags f offset i s' ->
    mmap_result s addr length prot flags f offset a s'.

Lemma npage_count length :
  0 < length < 2 ^ 64 ->
  u64 (u64 (length - 1) / RISCV_PGSIZE + 1) = Z.of_nat (page_count length).
Proof using.
  clear; intros L; unfold page_count; change RISCV_PGSIZE with 4096;
    rewrite (u64_small (length - 1))
    by lia.
  rewrite Z2Nat.id, u64_small by (Z.div_mod_to_equations; lia); Z.div_mod_to_equations; lia.
Qed.

Lemma page_aligned addr :
  0 <= addr -> nz (addr .& (RISCV_PGSIZE - 1)) = negb (addr mod RISCV_PGSIZE =? 0).
Proof using.
  intros A; unfold nz; change (RISCV_PGSIZE - 1) with (2 ^ 12 - 1).
  rewrite land_ones_mod by lia; reflexivity.
Qed.

Lemma valid_range (s : vm H) addr length :
  0 <= addr < 2 ^ 64 -> 0 <= length < 2 ^ 64 -> limits s ->
  __valid_user_range addr length s = (addr + length <=? mmap_max (current s)).
Proof using.
  intros A B L; pose proof (lim_max _ L) as [M _]; unfold DRAM_BASE in M.
  unfold __valid_user_range; destruct (Z.lt_ge_cases (addr + length) (2 ^ 64)) as [C|C].
  - rewrite u64_small, (proj2 (Z.ltb_ge _ _)) by lia; reflexivity.
  - replace (u64 (addr + length)) with (addr + length - 2 ^ 64).
    + rewrite (proj2 (Z.ltb_lt _ _)) by lia; symmetry; apply Z.leb_gt; lia.
    + unfold u64, wrap; apply (Z.mod_unique_pos _ _ 1); lia.
Qed.

(** The first step of [__do_mmap]. *)
Lemma placed_spec P held pend (s : vm H) addr length flags :
  inv held pend s -> 0 <= addr < 2 ^ 64 -> 0 < length < 2 ^ 64 ->
  nz (flags .& MAP_FIXED) = true \/ length <= mmap_max (current s) ->
  wp P (fun s =>
       if nz (flags .& MAP_FIXED) then
         Ok (if nz (addr .& (RISCV_PGSIZE - 1)) || negb (__valid_user_range addr length s)
             then None else Some addr, s)
       else (let% a := __vm_alloc (u64 (u64 (length - 1) / RISCV_PGSIZE + 1)) in
             give (if a =? 0 then None else Some a)) s)
    (fun p s' => s' = s /\ placed s addr length flags p) s.
Proof using.
  intros I A B F; pose proof (inv_limits _ _ _ I) as L; unfold wp.
  pose proof (lim_max _ L) as [M M0]; pose proof (lim_brk _ L) as [Bk _].
  destruct (nz (flags .& MAP_FIXED)) eqn:E.
  - rewrite page_aligned, valid_range by (auto; lia); split; [reflexivity|].
    destruct (Z.eqb_spec (addr mod RISCV_PGSIZE) 0) as [X|X],
      (Z.leb_spec (addr + length) (mmap_max (current s))) as [Y|Y]; cbn [negb orb];
      auto using placed_fixed, placed_refused.
  - destruct F as [F|F]; [discriminate F|]; rewrite npage_count by lia.
    destruct (page_count_spec length) as [R _]; [lia|].
    destruct (run_vm_alloc s (Z.of_nat (page_count length))) as (r & Er & C);
      [apply I | exact Bk | unfold DRAM_BASE in M; lia | change RISCV_PGSIZE with 4096 in *;
        lia | |].
    { change RISCV_PGSIZE with 4096 in *; clear - R F M0; Z.div_mod_to_equations; lia. }
    unfold seq_op; rewrite Er; unfold give; split; [reflexivity|].
    destruct (Z.eqb_spec r 0) as [->|N]; destruct C as [[R0 C]|C]; auto using placed_full,
      placed_null, placed_first; contradiction.
Qed.

Lemma placed_at (s : vm H) held pend addr length flags a :
  inv held pend s -> 0 <= addr -> 0 < length -> placed s addr length flags (Some a) ->
  0 <= a /\ a mod RISCV_PGSIZE = 0 /\ a + length <= mmap_max (current s).
Proof using.
  intros I A B Pl; pose proof (lim_brk _ (inv_limits _ _ _ I)) as [Bk B0].
  destruct (page_count_spec length) as [R _]; [lia|];
    inversion Pl as [| |x _ (j & J & Ej & Jm & _) _ Ex| |];
    subst; [auto|].
  split; [change RISCV_PGSIZE with 4096; lia|]; split; [|lia].
  rewrite (Z.mul_comm RISCV_PGSIZE), Z.mod_add by discriminate; exact B0.
Qed.

(** The state of [__do_mmap] between its two loops. *)
Record reserved (s s2 : vm H) (i : nat) (a length : Z) (f : option nat) (offset prot : Z) : Prop := {
  res_new : forall n, 0 <= n < 2 ^ 27 -> entry s n <> region s i;
  res_region : exists n, vmr s2 !! i = Some (Vmr a length f offset n prot);
  res_others : forall j v, j <> i -> vmr s !! j = Some v ->
    exists n, vmr s2 !! j = Some (with_refcnt v n);
  res_entry : forall n, 0 <= n < 2 ^ 27 ->
    entry s2 n = if within n (a / RISCV_PGSIZE) (Z.of_nat (page_count length)) then region s i
                 else entry s n;
  res_umem : umem s2 = umem s
}.

Lemma reserved_lazy (s s2 : vm H) i a length f offset prot flags :
  reserved s s2 i a length f offset prot -> eager s flags = false ->
  mmapped s a length prot flags f offset i s2.
Proof using.
  intros [R0 R1 R2 R3 R4] E; split; auto; [|congruence]; intros n Hn; rewrite E; apply R3, Hn.
Qed.

Lemma reserved_eager held (s s2 s3 : vm H) i a length f offset prot flags m :
  reserved s s2 i a length f offset prot -> eager s flags = true -> keeps s s2 ->
  populated held s2 i (Vmr a length f offset m prot) (a / RISCV_PGSIZE)
    (Z.of_nat (page_count length)) s3 ->
  mmapped s a length prot flags f offset i s3.
Proof using.
  intros [R0 [k R1] R2 R3 R4] E K [_ _ P3 [q P4] P5]; cbn [v_prot v_file] in *.
  assert (Fr : forall n, frame_of s2 n = frame_of s n)
    by (intros n; unfold frame_of; rewrite (keeps_paddr _ _ K); reflexivity).
  split.
  - exact R0.
  - exists q; rewrite P4; apply list_lookup_insert_eq; apply lookup_lt_Some in R1; exact R1.
  - intros j v Nj Hv; rewrite P4, list_lookup_insert_ne by congruence; apply R2; auto.
  - intros n Hn; rewrite E, P3 by exact Hn; unfold user_pte; rewrite Fr.
    destruct (within _ _ _) eqn:W; [reflexivity|]; rewrite R3, W by exact Hn; reflexivity.
  - congruence.
  - intros _ Hf x; rewrite (P5 Hf), Fr, R4; reflexivity.
Qed.

Lemma do_mmap_spec held (s : vm H) addr length prot flags f offset :
  inv held (fun _ => 0) s -> 0 <= addr < 2 ^ 64 -> 0 < length < 2 ^ 64 ->
  nz (flags .& MAP_FIXED) = true \/ length <= mmap_max (current s) ->
  (forall g, f = Some g -> (g < List.length (files (kern s)))%nat /\
     0 < refs g (fds (kern s)) + (held g + mapped (vmr s) g)) ->
  wp True (__do_mmap frontend_syscall pread_bytes addr length prot flags f offset)
    (fun r s' => inv held (fun _ => 0) s' /\ keeps s s' /\
                 mmap_result s addr length prot flags f offset r s') s.
Proof.
  intros I A B F G; unfold __do_mmap; apply wp_seq.
  eapply wp_mono; [exact id | | exact (placed_spec True held _ s addr length flags I A B F)].
  intros [a|] s0 [-> Pl]; [|apply wp_give; auto using keeps_refl, mmap_no_place].
  destruct (placed_at s held _ addr length flags a I (proj1 A) (proj1 B) Pl) as (A1 & A2 & A3).
  pose proof (lim_max _ (inv_limits _ _ _ I)) as [M _]; unfold DRAM_BASE in M.
  destruct (page_count_spec length) as [R _]; [lia|].
  rewrite npage_count, u32_small by (change RISCV_PGSIZE with 4096 in *; lia).
  set (count := Z.of_nat (page_count length)) in *; apply wp_seq.
  eapply wp_mono; [exact id | | apply (vmr_alloc_spec True held s a length f offset count prot I);
    [change RISCV_PGSIZE with 4096 in *; lia | exact G]].
  intros r s1 [(-> & -> & Fl)|(i & Hi & -> & U1 & V1 & W1 & I1 & K1 & R1 & M1)].
  { apply wp_give; eauto using keeps_refl, mmap_no_region. }
  destruct (region_invalid _ _ _ i I Hi) as [_ N0]; rewrite (proj2 (Z.eqb_neq _ 0) N0).
  apply wp_seq; rewrite <- (keeps_region _ _ i K1).
  eapply wp_mono; [exact id | | apply (mmap_loop_spec frontend_syscall held s1 i _ a length I1 W1 U1 A2 A1);
    rewrite ?(keeps_current _ _ K1); lia].
  intros u s2 ([I2 K2 M2 G2 E2] & V2); cbv beta; apply wp_seq; fold count in E2.
  pose proof (keeps_trans _ _ _ K1 K2) as K; unfold wp at 1.
  change (negb (demand_paging s2) || nz (flags .& MAP_POPULATE)) with (eager s2 flags).
  replace (eager s2 flags) with (eager s flags)
    by (unfold eager; rewrite (keeps_demand _ _ K); reflexivity).
  assert (J : reserved s s2 i a length f offset prot).
  { split; [|exists count; exact V2 | | | congruence].
    - intros n Hn; rewrite <- (keeps_region _ _ i K1); unfold entry; rewrite <- R1.
      apply Z.eqb_neq; exact (tally_zero _ _ n U1 (proj2 (all_pages_in n) Hn)).
    - intros j v Nj Hv; apply (G2 j v); rewrite V1, list_lookup_insert_ne by congruence; exact Hv.
    - intros n Hn; rewrite E2, (keeps_region _ _ i K1) by exact Hn; unfold entry; rewrite R1.
      reflexivity. }
  destruct (eager s flags) eqn:Eg.
  - eapply wp_mono; [exact id | | apply (populate_spec held s2 i _ a length I2 V2 A2 A1);
      rewrite ?(keeps_current _ _ K); try lia].
    + intros u3 s3 Pop; apply wp_give; split; [apply Pop|].
      split; [exact (keeps_trans _ _ _ K (pop_keeps _ _ _ _ _ _ _ Pop))|].
      apply (mmap_mapped _ _ _ _ _ _ _ a i); auto.
      exact (reserved_eager _ _ _ _ _ _ _ _ _ _ _ _ J Eg K Pop).
    + intros n Hn; fold count in Hn; rewrite E2, Hn, (keeps_region _ _ i K2); [reflexivity|].
      apply within_spec in Hn; split;
        [clear - Hn A1; change RISCV_PGSIZE with 4096 in *; Z.div_mod_to_equations; lia|].
      clear - Hn A1 A3 M R; change RISCV_PGSIZE with 4096 in *; Z.div_mod_to_equations; lia.
  - unfold wp; split; [exact I2|]; split; [exact K|].
    apply (mmap_mapped _ _ _ _ _ _ _ a i); auto using reserved_lazy.
Qed.
End Calls.
