(* ===== verification/MmapProtect.v ===== *)
(** * [do_mprotect] *)

From S2P Require Import Prelude File PageTable Mmap MmapInv MmapOps.
From stdpp Require Import base list list_numbers.
From Stdlib Require Import ZArith Lia.
#[local] Open Scope Z_scope.
#[local] Open Scope c_scope.
#[local] Open Scope bool_scope.
#[local] Abbreviation plus := File.plus.

Section Protect.
Context {H : Type}.

Definition with_prot (v : vmr_t) (prot : Z) : vmr_t :=
  Vmr (v_addr v) (v_length v) (v_file v) (v_offset v) (v_refcnt v) prot.

Lemma set_prot_inv held pend (s : vm H) i v prot :
  inv held pend s -> vmr s !! i = Some v ->
  let s' := set_vmrs (vmrs s) (<[i := with_prot v prot]> (vmr s)) s in
  inv held pend s' /\ keeps s s'.
Proof.
  intros I Hv s'; split; [|split; auto].
  replace s' with (set_kern (kern s) s') by (destruct s; reflexivity).
  eapply inv_ext; [|apply (set_vmr_inv held pend s i v (with_prot v prot) (kern s) (kern s) 0);
    auto].
  - intros j _; unfold plus; destruct (decide _); lia.
  - cbn; lia.
  - apply (inv_refcnt _ _ _ I i v Hv).
  - cbn; intros f N E; apply (inv_target _ _ _ I i v f Hv N E).
  - eapply refs_ok_ext; [|apply (inv_files _ _ _ I)]; intros f; cbv beta.
    rewrite (mapped_insert _ _ _ _ _ Hv); unfold maps; cbn [v_refcnt v_file with_prot]; lia.
Qed.

(** Page [n] has the protection [prot]. *)
Definition protected (s : vm H) (prot n : Z) : Prop :=
  (exists i v, entry s n = region s i /\ vmr s !! i = Some v /\ v_prot v = prot) \/
  entry s n = user_pte s n prot.

(** What one iteration leaves; [r] is the error that ends the loop. *)
Record protects (held : nat -> Z) (s : vm H) (prot a : Z) (r : option Z) (s' : vm H) : Prop := {
  pr_inv : inv held (fun _ => 0) s';
  pr_keeps : keeps s s';
  pr_umem : umem s' = umem s;
  pr_error : forall e, r = Some e -> s' = s /\ (e = - ENOMEM \/ e = - EACCES);
  pr_done : r = None -> vpn a * RISCV_PGSIZE < mmap_max (current s) /\ protected s' prot (vpn a);
  pr_entry : forall n, 0 <= n < 2 ^ 27 -> n <> vpn a -> entry s' n = entry s n;
  pr_mono : forall n, 0 <= n < 2 ^ 27 -> protected s prot n -> protected s' prot n
}.

Lemma protects_error held (s : vm H) prot a e :
  inv held (fun _ => 0) s -> e = - ENOMEM \/ e = - EACCES -> protects held s prot a (Some e) s.
Proof.
  intros I E; split; auto using keeps_refl; [|discriminate]; intros e' [= <-]; auto.
Qed.

Lemma keeps_user_pte (s s' : vm H) n prot : keeps s s' -> user_pte s' n prot = user_pte s n prot.
Proof. intros K; unfold user_pte, frame_of; rewrite (keeps_paddr _ _ K); reflexivity. Qed.

Lemma mprotect_page_spec P held (s : vm H) prot a :
  inv held (fun _ => 0) s ->
  wp P (mprotect_page prot a) (fun r s' => protects held s prot a r s') s.
Proof.
  intros I; pose proof (inv_limits _ _ _ I) as L; pose proof (vpn_range a) as Rn.
  unfold mprotect_page; apply wp_seq; unfold wp at 1; rewrite run_walk_area.
  apply wp_seq; unfold wp at 1, read_pte.
  destruct (slot (area s) a) as [p|] eqn:S; [|apply wp_give, protects_error; auto].
  rewrite (proj2 (Z.eqb_neq p 0) (slot_not_null _ _ _ (inv_tree _ _ _ I) S)); cbn [orb].
  rewrite (entry_slot s a p S); destruct (Z.eqb_spec (entry s (vpn a)) 0) as [E0|E0];
    [apply wp_give, protects_error; auto|].
  destruct (inv_entry _ _ _ I (vpn a) Rn) as [E|[[B (i & Hi & E)]|[[B (vp & user & E)]|[_ [V U]]]]].
  - contradiction.
  - destruct (region_invalid _ _ _ i I Hi) as [Vi _]; rewrite E, Vi; cbn [negb].
    apply wp_seq; unfold wp at 1, vmr_at; rewrite region_index.
    destruct (inv_lookup _ _ _ i I Hi) as [v Hv]; apply wp_seq; unfold wp at 1, get_vmr; rewrite Hv.
    clear Vi; destruct (nz _); [apply wp_give, protects_error; auto|].
    apply wp_seq; unfold wp at 1, put_vmr; apply wp_give; fold (with_prot v prot).
    destruct (set_prot_inv _ _ s i v prot I Hv) as [I' K']; set (s' := set_vmrs _ _ s) in *.
    assert (Vi' : vmr s' !! i = Some (with_prot v prot)).
    { apply list_lookup_insert_eq; apply lookup_lt_Some in Hv; exact Hv. }
    split; auto; [discriminate | |].
    + intros _; split; [exact B|]; left; exists i, (with_prot v prot); auto.
    + intros n Hn [(j & w & Ej & Hj & Pj)|Ej]; [|right; exact Ej]; left.
      destruct (decide (j = i)) as [->|N]; [exists i, (with_prot v prot); auto|].
      exists j, w; cbn [vmr s' set_vmrs]; rewrite list_lookup_insert_ne by congruence; auto.
  - assert (Vd : nz (entry s (vpn a) .& PTE_V) = true)
      by (rewrite E; apply frame_valid; assumption).
    rewrite Vd; cbn [negb]; destruct (_ || _ || _ || _); [apply wp_give, protects_error; auto|].
    replace (pte_ppn (entry s (vpn a))) with (frame_of s (vpn a)).
    2:{ rewrite E; symmetry; apply (pte_create_bits _ _ 0); [apply frame_range; assumption | |];
          pose proof (prot_to_type_range vp user); lia. }
    apply wp_seq; unfold wp at 1, write_pte; apply wp_give; fold (user_pte s (vpn a) prot).
    destruct (write_entry held _ s a p (user_pte s (vpn a) prot) I S) as (I' & K' & E').
    { right; right; left; split; [exact B|]; exists prot, 1; reflexivity. }
    set (s' := set_area _ s) in *; split; auto; [| discriminate | | |].
    + eapply inv_ext; [|exact I']; intros j Hj; cbv beta.
      rewrite !(proj2 (Z.eqb_neq _ (region s j))); [reflexivity | |].
      * apply (valid_not_region _ _ _ j _ I Hj), frame_valid; assumption.
      * exact (valid_not_region _ _ _ j _ I Hj Vd).
    + intros _; split; [exact B|]; right;
        rewrite E', Z.eqb_refl, (keeps_user_pte s s') by assumption.
      reflexivity.
    + intros n Hn N; rewrite E', (proj2 (Z.eqb_neq n _) N) by exact Hn; reflexivity.
    + intros n Hn Pn; destruct (Z.eqb_spec n (vpn a)) as [->|N].
      * right; rewrite E', Z.eqb_refl, (keeps_user_pte s s') by assumption; reflexivity.
      * unfold protected; rewrite E', (proj2 (Z.eqb_neq n _) N), (keeps_user_pte s s') by assumption.
        destruct Pn as [(j & w & Ej & Hj & Pj)|Ej]; [left; exists j, w | right]; auto.
  - rewrite V; cbn [negb]; rewrite U; cbn [negb orb]; apply wp_give, protects_error; auto.
Qed.

(** The loop. *)
Lemma mprotect_loop_spec P held prot last fuel : forall a (s : vm H),
  inv held (fun _ => 0) s -> 0 <= a < 2 ^ 64 -> a mod RISCV_PGSIZE = 0 -> last < 2 ^ 64 ->
  last - a <= RISCV_PGSIZE * (Z.of_nat fuel - 1) -> (1 <= fuel)%nat ->
  wp P (mprotect_loop fuel a last prot)
    (fun r s' =>
       inv held (fun _ => 0) s' /\ keeps s s' /\ umem s' = umem s /\
       (r = 0 \/ r = u64 (- ENOMEM) \/ r = u64 (- EACCES)) /\
       (forall n, 0 <= n < 2 ^ 27 -> (forall b, a <= b < last -> vpn b <> n) ->
                  entry s' n = entry s n) /\
       (forall n, 0 <= n < 2 ^ 27 -> protected s prot n -> protected s' prot n) /\
       (r = 0 -> forall b, a <= b < last -> b mod RISCV_PGSIZE = 0 -> protected s' prot (vpn b))) s.
Proof.
  induction fuel as [|fuel IH]; intros a s I A A0 B F F1; [lia|]; cbn [mprotect_loop].
  destruct (Z.ltb_spec a last) as [Lt|Ge].
  2:{ apply wp_give; split; [exact I|]; split; [apply keeps_refl|]; do 4 (split; [auto|]).
      intros; lia. }
  apply wp_seq; eapply wp_mono; [exact id | | apply (mprotect_page_spec P held s prot a I)].
  intros [e|] s1 [I1 K1 U1 R1 D1 E1 M1].
  - apply wp_give; destruct (R1 e eq_refl) as [-> [->| ->]];
      (split; [exact I|]; split; [exact K1|]; do 4 (split; [auto|]); discriminate).
  - destruct (D1 eq_refl) as [Bd D]; pose proof (lim_max _ (inv_limits _ _ _ I)) as [M _].
    assert (Na : a + RISCV_PGSIZE < 2 ^ 64).
    { unfold vpn, DRAM_BASE in *; clear - Bd M A A0; change RISCV_PGSIZE with 4096 in *.
      Z.div_mod_to_equations; lia. }
    rewrite u64_small by (change RISCV_PGSIZE with 4096 in *; lia).
    eapply wp_mono; [exact id | | apply IH; auto].
    + intros r s2 (I2 & K2 & U2 & R2 & E2 & M2 & D2); cbv beta.
      split; [exact I2|]; split; [exact (keeps_trans _ _ _ K1 K2)|]; split; [congruence|].
      split; [exact R2|]; split; [|split].
      * intros n Hn N; rewrite E2, E1; auto; [apply not_eq_sym, N; lia|].
        intros b Hb; apply N; change RISCV_PGSIZE with 4096 in *; lia.
      * auto.
      * intros Z0 b Hb Hm; destruct (Z.lt_ge_cases b (a + RISCV_PGSIZE)) as [X|X];
          [|apply D2; auto; lia].
        replace b with a; [apply M2; auto; apply vpn_range|].
        change RISCV_PGSIZE with 4096 in *; clear - A0 Hb Hm X; Z.div_mod_to_equations; lia.
    + change RISCV_PGSIZE with 4096 in *; lia.
    + change RISCV_PGSIZE with 4096 in *; clear - A0; Z.div_mod_to_equations; lia.
    + change RISCV_PGSIZE with 4096 in *; lia.
    + change RISCV_PGSIZE with 4096 in *; lia.
Qed.
End Protect.
