(* ===== verification/VirtualMemory.v ===== *)
(** * Virtual memory of the proxy kernel *)

From S2P Require Import Prelude File PageTable Mmap MmapInv MmapOps MmapAlloc MmapCalls MmapProtect.
From stdpp Require Import base list list_numbers.
From Stdlib Require Import ZArith Lia.
#[local] Open Scope Z_scope.
#[local] Open Scope c_scope.
#[local] Open Scope bool_scope.
#[local] Abbreviation plus := File.plus.

Section VirtualMemory.
Context {H : Type}.

Definition none : nat -> Z := fun _ => 0.

(** Between two calls: no operation is under way, and the lock is free. *)
Record vm_ok (held : nat -> Z) (s : vm H) : Prop := {
  ok_inv : inv held none s;
  ok_lock : vm_lock s = false;
  ok_brk_min : 0 <= brk_min (current s) <= mmap_max (current s);
  ok_few : forall f, held f < 2 ^ 29
}.

(** ** States that differ in parts the invariant does not read *)

Lemma inv_set_lock held pend (s : vm H) b : inv held pend s -> inv held pend (set_lock b s).
Proof. intros [I1 I2 I3 [L1 L2 L3 L4] I5 I6 I7 I8 I9]; split; auto; split; auto. Qed.

Lemma inv_set_current held pend (s : vm H) c :
  inv held pend s -> mmap_max c = mmap_max (current s) ->
  0 <= brk c <= mmap_max c -> brk c mod RISCV_PGSIZE = 0 -> 0 <= brk_max c <= mmap_max c ->
  inv held pend (set_current c s).
Proof.
  intros [I1 I2 I3 [L1 L2 L3 L4] I5 I6 I7 I8 I9] M B1 B2 B3; split; auto.
  - split; cbn [current set_current]; auto; rewrite M; exact L2.
  - intros n Hn; specialize (I5 n Hn); unfold entry_ok in *; cbn [current set_current]; rewrite M.
    exact I5.
Qed.

Lemma inv_set_kern held held' pend (s : vm H) k :
  inv held pend s -> length (files k) = length (files (kern s)) ->
  refs_ok (fun f => held' f + mapped (vmr s) f) k ->
  (forall f, 0 <= held' f < 2 ^ 30 /\ (held' f <> 0 -> (f < length (files (kern s)))%nat)) ->
  inv held' pend (set_kern k s).
Proof.
  intros [I1 I2 I3 [L1 L2 L3 L4] I5 I6 I7 I8 I9] L R B; split; auto; cbn [kern set_kern];
    rewrite ?L; auto; split; auto.
Qed.

Lemma inv_held_ext held held' pend (s : vm H) :
  (forall f, held' f = held f) -> inv held pend s -> inv held' pend s.
Proof.
  intros E [I1 I2 I3 I4 I5 I6 I7 I8 I9]; split; auto.
  - eapply refs_ok_ext; [|exact I8]; intros f; cbv beta; rewrite E; reflexivity.
  - intros f; rewrite E; apply I9.
Qed.

Context (frontend_syscall : Z -> list Z -> H -> Z * H).
Context (pread_bytes : list Z -> H -> list Z).

(** ** Page faults *)

Lemma fault_lock (s s' : vm H) vaddr prot r :
  fault frontend_syscall pread_bytes (set_lock true s) vaddr prot r s' ->
  fault frontend_syscall pread_bytes s vaddr prot r (set_lock (vm_lock s) s').
Proof.
  intros F; inversion F as [X|type n X Ht X1|k w t n X Hw X1 X2 X3 X4]; subst.
  - replace (set_lock _ _) with s by (destruct s; reflexivity); apply fault_unmapped, X.
  - replace (set_lock _ _) with s by (destruct s; reflexivity).
    apply (fault_present _ _ s vaddr prot type X Ht X1).
  - exact (fault_touch _ _ s vaddr prot k w (set_lock (vm_lock s) s') X Hw X1 X2 X3 X4).
Qed.

Lemma handle_page_fault_spec (P : Prop) held (s : vm H) vaddr prot :
  vm_ok held s -> 0 <= vaddr < 2 ^ 64 -> P \/ anonymous_at s (vaddr / RISCV_PGSIZE) ->
  wp P (handle_page_fault frontend_syscall pread_bytes vaddr prot)
    (fun r s' => vm_ok held s' /\ current s' = current s /\
                 fault frontend_syscall pread_bytes s vaddr prot r s') s.
Proof.
  intros [I L B W] V A; unfold handle_page_fault, spinlock_lock; apply wp_seq; unfold wp at 1.
  rewrite L; apply wp_seq; eapply wp_mono; [exact id | |
    apply (page_fault_spec frontend_syscall pread_bytes P held); auto using inv_set_lock].
  intros r s' (I' & K & F); unfold wp, seq_op, spinlock_unlock, give; rewrite <- L at 3.
  pose proof (keeps_current _ _ K) as C; cbn [current set_lock] in C.
  split; [split; auto using inv_set_lock; cbn [current set_lock]; rewrite C; exact B|].
  split; [exact C | apply fault_lock, F].
Qed.

(** ** [do_munmap] *)

Lemma munmap_call_spec P held (s : vm H) addr length :
  vm_ok held s -> 0 <= addr < 2 ^ 64 -> 0 <= length < 2 ^ 64 ->
  wp P (do_munmap frontend_syscall addr length)
    (fun r s' => vm_ok held s' /\
       ((r = - EINVAL /\ s' = s /\
         (addr mod RISCV_PGSIZE <> 0 \/ mmap_max (current s) < addr + length)) \/
        (r = 0 /\ current s' = current s /\ umem s' = umem s /\
         same_regions (vmr s) (vmr s') /\ addr mod RISCV_PGSIZE = 0 /\
         addr + length <= mmap_max (current s) /\
         forall n, 0 <= n < 2 ^ 27 ->
           entry s' n = if within n (addr / RISCV_PGSIZE) (Z.of_nat (page_count length)) then 0
                        else entry s n))) s.
Proof.
  intros [I L B W] A0 A1; unfold wp, do_munmap.
  rewrite page_aligned, valid_range by (auto; try lia; apply I).
  destruct (Z.eqb_spec (addr mod RISCV_PGSIZE) 0) as [X|X],
    (Z.leb_spec (addr + length) (mmap_max (current s))) as [Y|Y]; cbn [negb orb];
    try (split; [split; auto | auto]).
  apply wp_seq; unfold wp at 1, spinlock_lock; rewrite L; apply wp_seq.
  eapply wp_mono; [exact id | | apply (do_munmap_spec frontend_syscall P held none (set_lock true s));
    auto using inv_set_lock; unfold none; lia].
  intros u s' ([I' K U G E] & _); unfold wp, seq_op, spinlock_unlock, give.
  pose proof (keeps_current _ _ K) as C; cbn [current set_lock] in C.
  split; [split; auto using inv_set_lock; cbn [current set_lock]; rewrite C; exact B|].
  right; auto 9.
Qed.

(** ** [do_mmap] *)

Lemma placed_frame (s : vm H) b k addr length flags p :
  placed (set_lock b (set_kern k s)) addr length flags p -> placed s addr length flags p.
Proof using.
  intros Pl; inversion Pl as [X1 X2 X3|X1 X2|a X1 X2 X3|X1 X2|X1 X2]; subst.
  - exact (placed_fixed s addr length flags X1 X2 X3).
  - exact (placed_refused s addr length flags X1 X2).
  - exact (placed_first s addr length flags a X1 X2 X3).
  - exact (placed_null s addr length flags X1 X2).
  - exact (placed_full s addr length flags X1 X2).
Qed.

Lemma mmap_result_frame (s s2 : vm H) b k addr length prot flags f offset r :
  mmap_result (set_lock b (set_kern k s)) addr length prot flags f offset r s2 ->
  mmap_result s addr length prot flags f offset r (set_lock (vm_lock s) (set_kern (kern s) s2)) /\
  0 <= r.
Proof using.
  intros R; inversion R as [Pl|a Pl F|a i t Pl A0 A1 A2 [M0 M1 M2 M3 M4 M5]]; subst;
    apply placed_frame in Pl.
  - split; [|discriminate]; replace (set_lock _ _) with s by (destruct s; reflexivity).
    apply mmap_no_place, Pl.
  - split; [|discriminate]; replace (set_lock _ _) with s by (destruct s; reflexivity).
    exact (mmap_no_region s addr length prot flags f offset a Pl F).
  - split; [|exact A0]; apply (mmap_mapped s addr length prot flags f offset r i _ Pl A0 A1 A2).
    exact (Build_mmapped s r length prot flags f offset i
             (set_lock (vm_lock s) (set_kern (kern s) s2)) M0 M1 M2 M3 M4 M5).
Qed.

(** The file of a mapping. *)
Definition mmap_file (s : vm H) (flags fd : Z) (f : option nat) : Prop :=
  if nz (flags .& MAP_ANONYMOUS) then f = None
  else exists g, f = Some g /\ 0 <= fd /\ fds (kern s) !! Z.to_nat fd = Some (Some g).

Definition mmap_invalid (length flags offset : Z) : bool :=
  negb (nz (flags .& MAP_PRIVATE)) || (length =? 0) || nz (offset .& (RISCV_PGSIZE - 1)).

(** What [do_mmap] does. *)
Inductive mmap_call (s : vm H) (addr length prot flags fd offset : Z) : Z -> vm H -> Prop :=
| mmap_einval :
    mmap_invalid length flags offset = true ->
    mmap_call s addr length prot flags fd offset (u64 (- EINVAL)) s
| mmap_ebadf :
    mmap_invalid length flags offset = false -> (forall f, ~ mmap_file s flags fd f) ->
    mmap_call s addr length prot flags fd offset (u64 (- EBADF)) s
| mmap_done f r s2 s' :
    mmap_invalid length flags offset = false -> mmap_file s flags fd f ->
    mmap_result s addr length prot flags f offset r s2 ->
    area s' = area s2 -> vmr s' = vmr s2 -> umem s' = umem s2 ->
    current s' = (if r <? brk_max (current s) then set_brk_max r (current s) else current s) ->
    mmap_call s addr length prot flags fd offset r s'.

(** [held'] is [held] and the reference of the call itself to [f]. *)
Definition with_file (held held' : nat -> Z) (k : pk H) (f : option nat) : Prop :=
  match f with
  | None => forall g, held' g = held g
  | Some f => (f < length (files k))%nat /\ forall g, held' g = plus held f 1 g
  end.

Lemma release_file P held held' (s : vm H) f :
  inv held' none s -> with_file held held' (kern s) f -> (forall g, 0 <= held g < 2 ^ 30) ->
  wp P (match f with Some f => on_kern (file_decref frontend_syscall f) | None => give tt end)
    (fun _ s' => inv held none s' /\ exists k, s' = set_kern k s) s.
Proof.
  intros I F B; destruct f as [f|]; cbn [with_file] in F.
  - destruct F as [Lf E]; unfold wp, on_kern.
    destruct (decref_spec frontend_syscall _ (kern s) f (inv_files _ _ _ I) Lf) as (k & -> & R & L).
    { pose proof (mapped_bound _ f (inv_length _ _ _ I)); pose proof (B f).
      rewrite E; unfold plus; rewrite decide_True by reflexivity; lia. }
    split; [|eauto]; apply (inv_set_kern held' held none s k I L).
    + eapply refs_ok_ext; [|exact R]; intros g; unfold plus; rewrite E; unfold plus.
      destruct (decide (g = f)); lia.
    + intros g; split; [apply B|]; intros N; apply (inv_held _ _ _ I g); rewrite E; unfold plus.
      destruct (decide (g = f)); pose proof (B g); lia.
  - apply wp_give; split; [apply (inv_held_ext held'); auto|].
    exists (kern s); destruct s; reflexivity.
Qed.

(** The calls under the lock, and the release of the file. *)
Lemma mmap_body_spec held held' (s : vm H) k addr length prot flags f offset :
  vm_ok held s -> inv held' none (set_kern k s) -> with_file held held' k f ->
  0 <= addr < 2 ^ 64 -> 0 < length < 2 ^ 64 ->
  nz (flags .& MAP_FIXED) = true \/ length <= mmap_max (current s) ->
  wp True
    (let% _ := spinlock_lock in
     let% addr := __do_mmap frontend_syscall pread_bytes addr length prot flags f offset in
     let% _ := (fun s =>
       Ok (tt, if addr <? brk_max (current s) then set_current (set_brk_max addr (current s)) s
               else s)) in
     let% _ := spinlock_unlock in
     let% _ := match f with Some f => on_kern (file_decref frontend_syscall f)
               | None => give tt end in
     give addr)
    (fun r s' => vm_ok held s' /\ exists s2,
       mmap_result s addr length prot flags f offset r s2 /\
       area s' = area s2 /\ vmr s' = vmr s2 /\ umem s' = umem s2 /\
       current s' = (if r <? brk_max (current s) then set_brk_max r (current s) else current s))
    (set_kern k s).
Proof.
  intros [I L B W] I1 F A0 A1 A2; apply wp_seq; unfold wp at 1, spinlock_lock;
    cbn [vm_lock set_kern].
  rewrite L; apply wp_seq; pose proof (inv_set_lock _ _ _ true I1) as I2.
  eapply wp_mono; [exact id | | apply (do_mmap_spec frontend_syscall pread_bytes held' _ addr length
    prot flags f offset I2 A0 A1 A2)].
  2:{ intros g ->; destruct F as [Fl E]; cbn [kern set_lock set_kern vmr]; split; [exact Fl|].
      pose proof (mapped_bound _ g (inv_length _ _ _ I)); pose proof (refs_nonneg g (fds k)).
      destruct (inv_held _ _ _ I g); rewrite E; unfold plus; rewrite decide_True by reflexivity;
        lia. }
  intros r s2 (I3 & K & R); apply mmap_result_frame in R as [R R0]; rewrite L in R.
  pose proof (keeps_current _ _ K) as C; cbn [current set_lock set_kern] in C.
  apply wp_seq; unfold wp at 1; rewrite C; apply wp_seq; unfold wp at 1, spinlock_unlock.
  set (c := if r <? brk_max (current s) then set_brk_max r (current s) else current s).
  set (s3 := set_lock false _); assert (E3 : s3 = set_lock false (set_current c s2)).
  { unfold s3, c; destruct (r <? _); [reflexivity|]; rewrite <- C; destruct s2; reflexivity. }
  pose proof (inv_limits _ _ _ I) as [_ _ [B1 B2] B3].
  assert (Mc : mmap_max c = mmap_max (current s) /\ brk c = brk (current s) /\
            brk_min c = brk_min (current s) /\ 0 <= brk_max c <= mmap_max (current s)).
  { unfold c; destruct (Z.ltb_spec r (brk_max (current s))); cbn; lia. }
  destruct Mc as (M1 & M2 & M3 & M4).
  assert (I4 : inv held' none s3).
  { rewrite E3; apply inv_set_lock, inv_set_current; rewrite ?M1, ?M2, ?C; auto. }
  apply wp_seq; eapply wp_mono; [exact id | | apply (release_file True held held' s3 f I4)].
  - intros u s4 [I5 [k' ->]]; apply wp_give; rewrite E3 in *.
    split; [split; auto; cbn [current set_kern set_lock set_current]; rewrite M1, M3; exact B|].
    exists (set_lock false (set_kern (kern s) s2)); auto.
  - destruct f as [f|]; [|exact F]; destruct F as [Fl E]; split; [|exact E].
    apply (inv_held _ _ _ I4 f); rewrite E; unfold plus; rewrite decide_True by reflexivity.
    destruct (inv_held _ _ _ I f); lia.
  - intros g; apply (inv_held _ _ _ I g).
Qed.

Lemma mmap_call_spec held (s : vm H) addr length prot flags fd offset :
  vm_ok held s -> 0 <= addr < 2 ^ 64 -> 0 <= length < 2 ^ 64 ->
  nz (flags .& MAP_FIXED) = true \/ length <= mmap_max (current s) ->
  wp True (do_mmap frontend_syscall pread_bytes addr length prot flags fd offset)
    (fun r s' => vm_ok held s' /\ mmap_call s addr length prot flags fd offset r s') s.
Proof.
  intros OK A0 A1 A2; unfold do_mmap; fold (mmap_invalid length flags offset).
  destruct (mmap_invalid length flags offset) eqn:V; [apply wp_give; auto using mmap_einval|].
  assert (Ln : 0 < length < 2 ^ 64).
  { apply orb_false_iff in V as [V _]; apply orb_false_iff in V as [_ V]; apply Z.eqb_neq in V;
      lia. }
  destruct OK as [I L B W]; pose proof (inv_files _ _ _ I) as RO.
  assert (Post : forall f r s', mmap_file s flags fd f -> (vm_ok held s' /\ exists s2,
            mmap_result s addr length prot flags f offset r s2 /\
            area s' = area s2 /\ vmr s' = vmr s2 /\ umem s' = umem s2 /\
            current s' = (if r <? brk_max (current s) then set_brk_max r (current s)
                          else current s)) ->
            vm_ok held s' /\ mmap_call s addr length prot flags fd offset r s').
  { intros f r s' Mf (O & s2 & R & E1 & E2 & E3 & E4); split; [exact O|].
    exact (mmap_done s addr length prot flags fd offset f r s2 s' V Mf R E1 E2 E3 E4). }
  assert (OK : vm_ok held s) by (split; assumption).
  apply wp_seq; unfold mmap_file in Post; destruct (nz (flags .& MAP_ANONYMOUS)) eqn:An.
  - apply wp_give; replace s with (set_kern (kern s) s) at 1 by (destruct s; reflexivity).
    eapply wp_mono; [exact id | intros r s'; exact (Post None r s' eq_refl)|].
    apply (mmap_body_spec held held); auto; [destruct s; exact I | intros g; reflexivity].
  - apply wp_seq; unfold wp at 1, on_kern.
    destruct (file_get_spec (fun f => held f + mapped (vmr s) f) (kern s) fd RO)
      as [[-> N]|(f & x & k & -> & Hd & Fd & Hf & R & Ek)].
    + intros f; pose proof (mapped_bound _ f (inv_length _ _ _ I)); destruct (inv_held _ _ _ I f);
        lia.
    + replace (set_kern (kern s) s) with s by (destruct s; reflexivity); apply wp_give, wp_give.
      split; [exact OK|]; apply mmap_ebadf; [exact V|]; unfold mmap_file; rewrite An.
      intros f (g & _ & F0 & Hg); specialize (N g Hg); lia.
    + apply wp_give; assert (Lk : List.length (files k) = List.length (files (kern s)))
        by (rewrite Ek; apply length_alter).
      assert (Lf : (f < List.length (files (kern s)))%nat) by (apply lookup_lt_Some in Hf;
        exact Hf).
      eapply wp_mono; [exact id | intros r s'; apply (Post (Some f) r s')|].
      * exists f; split; [reflexivity|]; split; [lia | exact Hd].
      * apply (mmap_body_spec held (plus held f 1)); auto; [|split; [rewrite Lk; exact Lf | auto]].
        apply (inv_set_kern held _ none s k I Lk).
        -- eapply refs_ok_ext; [|exact R]; intros g; unfold plus; destruct (decide _); lia.
        -- intros g; unfold plus; pose proof (inv_held _ _ _ I g) as [Bg Tg]; pose proof (W g).
           destruct (decide (g = f)) as [->|_]; [split; [lia | auto] | split;
             [lia | rewrite Z.add_0_r; auto]].
Qed.

(** ** [do_mprotect] *)

(** The outcome of [do_mprotect]. *)
Definition mprotect_result (s : vm H) (addr length prot r : Z) (s' : vm H) : Prop :=
  let last := u64 (addr + length) in
  (r = u64 (- EINVAL) /\ s' = s /\ addr mod RISCV_PGSIZE <> 0) \/
  (addr mod RISCV_PGSIZE = 0 /\ umem s' = umem s /\
   (r = 0 \/ r = u64 (- ENOMEM) \/ r = u64 (- EACCES)) /\
   (forall n, 0 <= n < 2 ^ 27 -> (forall b, addr <= b < last -> vpn b <> n) ->
              entry s' n = entry s n) /\
   (r = 0 -> forall b, addr <= b < last -> b mod RISCV_PGSIZE = 0 -> protected s' prot (vpn b))).

Lemma mprotect_spec P held (s : vm H) addr length prot :
  inv held none s -> vm_lock s = false -> 0 <= addr < 2 ^ 64 -> 0 <= length < 2 ^ 64 ->
  wp P (do_mprotect addr length prot)
    (fun r s' => inv held none s' /\ keeps s s' /\ mprotect_result s addr length prot r s') s.
Proof.
  intros I L A0 A1; unfold mprotect_result; set (last := u64 (addr + length)).
  unfold do_mprotect; rewrite page_aligned by lia.
  destruct (Z.eqb_spec (addr mod RISCV_PGSIZE) 0) as [X|X]; cbn [negb];
    [|apply wp_give; auto 8 using keeps_refl].
  apply wp_seq; unfold wp at 1, spinlock_lock; rewrite L; apply wp_seq; fold last.
  assert (R : 0 <= last < 2 ^ 64 /\ last <= addr + length).
  { unfold last, u64, wrap; split; [apply Z.mod_pos_bound; lia | apply Z.mod_le; lia]. }
  eapply wp_mono; [exact id | | apply (mprotect_loop_spec P held prot last (page_fuel length) addr
    (set_lock true s)); auto using inv_set_lock; try lia].
  - intros r s' (I' & [K1 K2 K3 K4 K5 K6] & U & Rr & E & _ & D).
    unfold wp, seq_op, spinlock_unlock, give; split; [auto using inv_set_lock|].
    split; [split; auto; cbn; congruence | right; auto 9].
  - unfold page_fuel; change RISCV_PGSIZE with 4096; clearbody last; clear - R A1 A0.
    Z.div_mod_to_equations; lia.
  - unfold page_fuel; apply (Z2Nat.inj_le 1); change RISCV_PGSIZE with 4096; clear - A1;
      Z.div_mod_to_equations; lia.
Qed.

Lemma mprotect_call_spec P held (s : vm H) addr length prot :
  vm_ok held s -> 0 <= addr < 2 ^ 64 -> 0 <= length < 2 ^ 64 ->
  wp P (do_mprotect addr length prot)
    (fun r s' => vm_ok held s' /\ current s' = current s /\
                 mprotect_result s addr length prot r s') s.
Proof.
  intros [I L B W] A0 A1; eapply wp_mono;
    [exact id | | exact (mprotect_spec P held s addr length prot
    I L A0 A1)].
  intros r s' (I' & K & R); pose proof (keeps_current _ _ K) as C.
  split; [split; auto; [rewrite (keeps_lock _ _ K); exact L | rewrite C; exact B] | auto].
Qed.

(** ** [do_brk] *)

Lemma roundup_page x :
  0 <= x <= 2 ^ 40 ->
  ROUNDUP x RISCV_PGSIZE = (x + RISCV_PGSIZE - 1) / RISCV_PGSIZE * RISCV_PGSIZE.
Proof using.
  clear; intros X; unfold ROUNDUP; change RISCV_PGSIZE with 4096.
  destruct (Z.eq_dec x 0) as [->|N]; [reflexivity|].
  rewrite (u64_small (x - 1)), u64_small by (Z.div_mod_to_equations; lia).
  Z.div_mod_to_equations; lia.
Qed.

Lemma roundup_bound x m :
  0 <= x <= m -> m <= 2 ^ 40 -> m mod RISCV_PGSIZE = 0 ->
  x <= ROUNDUP x RISCV_PGSIZE <= m /\ ROUNDUP x RISCV_PGSIZE < x + RISCV_PGSIZE /\
  ROUNDUP x RISCV_PGSIZE mod RISCV_PGSIZE = 0.
Proof using.
  clear; intros X M M0; rewrite roundup_page, Z.mod_mul by (discriminate || lia).
  change RISCV_PGSIZE with 4096 in *; Z.div_mod_to_equations; lia.
Qed.

(** The new break, and the page where the heap ends before the call. *)
Definition brk_to (c : elf_info) (addr : Z) : Z :=
  if addr <? brk_min c then brk_min c else if brk_max c <? addr then brk_max c else addr.
Definition heap_end (c : elf_info) : Z :=
  if brk c =? 0 then ROUNDUP (brk_min c) RISCV_PGSIZE else brk c.

(** What [do_brk] does to the pages between the old end of the heap and the new one. *)
Definition brk_pages (s s' : vm H) (old new : Z) : Prop :=
  if new <? old then
    umem s' = umem s /\ same_regions (vmr s) (vmr s') /\
    forall n, 0 <= n < 2 ^ 27 ->
      entry s' n = if within n (new / RISCV_PGSIZE) (Z.of_nat (page_count (old - new))) then 0
                   else entry s n
  else if old <? new then
    exists i, mmapped s old (new - old) (-1) (MAP_FIXED .| MAP_PRIVATE .| MAP_ANONYMOUS) None 0 i s'
  else umem s' = umem s /\ vmr s' = vmr s /\ area s' = area s.

Lemma brk_pages_frame (s t s' t' : vm H) old new :
  area t = area s -> vmr t = vmr s -> umem t = umem s -> vmrs t = vmrs s ->
  first_free_paddr t = first_free_paddr s -> demand_paging t = demand_paging s ->
  area t' = area s' -> vmr t' = vmr s' -> umem t' = umem s' ->
  brk_pages s s' old new -> brk_pages t t' old new.
Proof using.
  intros E1 E2 E3 E4 E5 E6 F1 F2 F3; unfold brk_pages, same_regions, entry.
  rewrite E1, E2, E3, F1, F2, F3; destruct (new <? old); [auto|]; destruct (old <? new); [|auto].
  intros [i [M0 M1 M2 M3 M4 M5]]; exists i; unfold entry, eager, user_pte, frame_of, region in *.
  split; unfold entry, eager, user_pte, frame_of, region; rewrite ?E1, ?E2, ?E3, ?E4, ?E5, ?E6,
    ?F1, ?F2, ?F3; auto.
Qed.

Lemma do_brk_spec held (s : vm H) addr :
  inv held none s -> 0 <= brk_min (current s) <= mmap_max (current s) -> 0 <= addr ->
  let new := ROUNDUP (brk_to (current s) addr) RISCV_PGSIZE in
  wp True (__do_brk frontend_syscall pread_bytes addr)
    (fun r s' => r = brk_to (current s) addr /\ inv held none s' /\ vm_lock s' = vm_lock s /\
       current s' = set_brk new (current s) /\ brk_pages s s' (heap_end (current s)) new) s.
Proof.
  intros I Bm A new; pose proof (inv_limits _ _ _ I) as [_ [M Ma] [B1 B2] B3].
  unfold DRAM_BASE in M; unfold wp, __do_brk; fold (brk_to (current s) addr); fold new.
  assert (R : 0 <= brk_to (current s) addr <= mmap_max (current s)).
  { unfold brk_to; destruct (Z.ltb_spec addr (brk_min (current s))),
      (Z.ltb_spec (brk_max (current s)) addr); lia. }
  destruct (roundup_bound _ _ R) as (N1 & _ & N2); [lia | exact Ma|]; fold new in N1, N2.
  destruct (roundup_bound _ _ Bm) as (O1 & _ & O2); [lia | exact Ma|].
  set (old := heap_end (current s)); assert (O : 0 <= old <= mmap_max (current s) /\
    old mod RISCV_PGSIZE = 0) by (unfold old, heap_end; destruct (_ =? _); lia).
  set (s1 := set_current (set_brk old (current s)) s).
  apply wp_seq; unfold wp at 1; set (x := if _ =? 0 then _ else s); assert (x = s1) as ->.
  { unfold x, s1, old, heap_end; destruct (_ =? 0); [reflexivity|].
    destruct s as [? ? ? ? ? ? [] ? ?]; reflexivity. }
  assert (I1 : inv held none s1) by (apply inv_set_current; cbn; auto; lia).
  assert (Fin : forall s2 : vm H, inv held none s2 -> keeps s1 s2 -> brk_pages s s2 old new ->
            wp True (let% _ := (fun s => Ok (tt, set_current (set_brk new (current s)) s)) in
                     give (brk_to (current s) addr))
              (fun r s' => r = brk_to (current s) addr /\ inv held none s' /\
                 vm_lock s' = vm_lock s /\ current s' = set_brk new (current s) /\
                 brk_pages s s' old new) s2).
  { intros s2 I2 K Pg; pose proof (keeps_current _ _ K) as C; unfold wp, seq_op, give.
    rewrite C; split; [reflexivity|]; split; [|split; [exact (keeps_lock _ _ K)|]].
    2:{ split; [reflexivity | apply (brk_pages_frame s s s2); auto]. }
    apply inv_set_current; auto; rewrite ?C; cbn; auto; lia. }
  apply wp_seq; unfold wp at 1; change (brk (current s1)) with old.
  destruct (Z.ltb_spec new old) as [Lt|Ge]; [|destruct (Z.ltb_spec old new) as [Lt'|Ge']].
  - eapply wp_mono; [exact id | | apply (do_munmap_spec frontend_syscall True held none s1 new);
      auto; cbn; unfold none; lia].
    intros u s2 ([I2 K U G E] & _); apply Fin; auto; unfold brk_pages.
    rewrite (proj2 (Z.ltb_lt _ _) Lt); auto.
  - apply wp_seq; eapply wp_mono; [exact id |
      | apply (do_mmap_spec frontend_syscall pread_bytes held
      s1); auto; try (cbn; lia); discriminate].
    intros r s2 (I2 & K & Mr); apply wp_kassert; [|auto]; intros Er; apply Z.eqb_eq in Er.
    apply Fin; auto; unfold brk_pages; rewrite (proj2 (Z.ltb_ge _ _) Ge), (proj2 (Z.ltb_lt _ _) Lt').
    inversion Mr as [Pl E|a Pl F E|a i t Pl A0 A1 A2 [M0 M1 M2 M3 M4 M5]]; subst;
      [change (u64 (-1)) with (2 ^ 64 - 1) in E; lia.. |].
    exists i.
    exact (Build_mmapped s old (new - old) (-1) _ None 0 i s2 M0 M1 M2 M3 M4 M5).
  - apply Fin; auto using keeps_refl; unfold brk_pages.
    rewrite (proj2 (Z.ltb_ge _ _) Ge), (proj2 (Z.ltb_ge _ _) Ge'); auto.
Qed.

Lemma brk_call_spec held (s : vm H) addr :
  vm_ok held s -> 0 <= addr ->
  let new := ROUNDUP (brk_to (current s) addr) RISCV_PGSIZE in
  wp True (do_brk frontend_syscall pread_bytes addr)
    (fun r s' => vm_ok held s' /\ r = brk_to (current s) addr /\
       current s' = set_brk new (current s) /\ brk_pages s s' (heap_end (current s)) new) s.
Proof.
  intros [I L B W] A new; unfold do_brk; apply wp_seq; unfold wp at 1, spinlock_lock; rewrite L.
  apply wp_seq; eapply wp_mono; [exact id | | apply (do_brk_spec held (set_lock true s) addr);
    auto using inv_set_lock].
  intros r s' (Er & I' & _ & C & Pg); unfold wp, seq_op, spinlock_unlock, give.
  split; [split; auto using inv_set_lock; cbn [current set_lock]; rewrite C; exact B|].
  split; [exact Er|]; split; [exact C|].
  apply (brk_pages_frame (set_lock true s) s s'); auto.
Qed.
End VirtualMemory.
