(* ===== verification/VmBoot.v ===== *)
(** * The start of virtual memory ([pk_vm_init])

    The kernel's own range is mapped first, before there is a page for the regions; then the
    stack is mapped as the first region.  The state it leaves satisfies the invariant. *)

From S2P Require Import Prelude File PageTable Mmap MmapInv MmapOps MmapAlloc MmapCalls MmapProtect VirtualMemory.
From stdpp Require Import base list list_numbers.
From Stdlib Require Import ZArith Lia.
#[local] Open Scope Z_scope.
#[local] Open Scope c_scope.
#[local] Open Scope bool_scope.

Section Boot.
Context {H : Type}.

(** ** Before there are regions *)

Definition kernel_entry (n e : Z) : Prop :=
  e = 0 \/ (DRAM_BASE <= n * RISCV_PGSIZE /\ nz (e .& PTE_V) = true /\ nz (e .& PTE_U) = false).

(** [s] has page tables for the kernel only, and differs from [s0] in them. *)
Record bare (s0 s : vm H) : Prop := {
  bare_tree : tree (area s);
  bare_entry : forall n, 0 <= n < 2 ^ 27 -> kernel_entry n (entry s n);
  bare_rest : s = set_area (area s) s0
}.

Lemma bare_write s0 (s : vm H) a p v :
  bare s0 s -> slot (area s) a = Some p -> kernel_entry (vpn a) v ->
  bare s0 (set_area (set_word p v (area s)) s).
Proof.
  intros [T E R] S V; split; [apply (store_tree _ T a p v S) | |rewrite R; reflexivity].
  intros n Hn; unfold entry; cbn [area set_area]; rewrite (store_pte _ T a p v S).
  rewrite vpn_page by exact Hn; destruct (Z.eqb_spec n (vpn a)) as [->|_]; [exact V | apply E, Hn].
Qed.

Lemma bare_walk s0 (s : vm H) a :
  bare s0 s ->
  wp True (on_area (__walk_create a)) (fun p s' => bare s0 s' /\ slot (area s') a = Some p) s.
Proof.
  intros [T E R]; unfold wp, on_area.
  destruct (run_walk_create a (area s) T) as [[-> _]|(p & x & -> & X)]; [exact I|].
  destruct X as [X1 X2 X3 X4 X5 X6]; split; [|exact X6]; split; [exact X1| |rewrite R; reflexivity].
  intros n Hn; unfold entry; cbn [area set_area]; rewrite X4; apply E, Hn.
Qed.

Lemma kernel_pte n a prot :
  0 <= n < 2 ^ 54 -> DRAM_BASE <= vpn a * RISCV_PGSIZE ->
  kernel_entry (vpn a) (pte_create n (prot_to_type prot 0)).
Proof.
  intros Hn D; pose proof (prot_to_type_range prot 0) as R; right; split; [exact D|].
  destruct (pte_create_bits n (prot_to_type prot 0) PTE_V) as [-> _];
    [exact Hn | lia | unfold PTE_V; lia|].
  destruct (pte_create_bits n (prot_to_type prot 0) PTE_U) as [-> _];
    [exact Hn | lia | unfold PTE_U; lia|].
  unfold prot_to_type; destruct (nz (prot .& PROT_READ)), (nz (prot .& PROT_WRITE)),
    (nz (prot .& PROT_EXEC)); split; reflexivity.
Qed.

(** The loop of [__map_kernel_range]. *)
Lemma map_kernel_spec s0 prot n : forall a (s : vm H),
  bare s0 s -> DRAM_BASE <= a -> a + RISCV_PGSIZE * Z.of_nat n <= 2 ^ 38 ->
  wp True (map_kernel_loop n a 0 prot) (fun _ s' => bare s0 s') s.
Proof.
  induction n as [|n IH]; intros a s B D U; cbn [map_kernel_loop]; [exact B|].
  unfold DRAM_BASE in *; change RISCV_PGSIZE with 4096 in U.
  apply wp_seq; eapply wp_mono; [exact id | | apply (bare_walk s0 s a B)].
  intros p s1 [B1 S1]; apply wp_seq, wp_kassert; [intros _ | auto].
  apply wp_seq; unfold wp at 1, write_pte.
  rewrite Z.add_0_r, (u64_small a), u64_small by (change RISCV_PGSIZE with 4096; lia).
  apply IH; [|change RISCV_PGSIZE with 4096; lia..].
  apply (bare_write s0 s1 a p _ B1 S1), kernel_pte.
  - change RISCV_PGSHIFT with 12; rewrite shiftr_div by lia; clear - D U; Z.div_mod_to_equations;
      lia.
  - rewrite vpn_small by lia; unfold DRAM_BASE; change RISCV_PGSIZE with 4096; clear - D;
      Z.div_mod_to_equations; lia.
Qed.

(** ** The first region *)

Lemma page_alloc_spec (x : pages) :
  tree x ->
  match __page_alloc x with
  | Ok (p, x') => tree x' /\ 0 < p < 2 ^ 56 /\ p mod RISCV_PGSIZE = 0 /\
    forall a, pte x' a = pte x a
  | Panic => True
  | Hang => False
  end.
Proof.
  intros T; destruct (__page_alloc x) as [[p x']| |] eqn:E; [|exact I|].
  - destruct (page_alloc_tree x p x' T E) as (T' & _ & _ & -> & P'); split; [exact T'|].
    destruct T as [[F1 F2] N U _ _]; split; [change RISCV_PGSIZE with 4096 in *; lia|].
    split; [|exact P']; rewrite (Z.mul_comm RISCV_PGSIZE), Z.mod_add by discriminate; exact F2.
  - unfold __page_alloc in E; destruct (_ =? _); discriminate E.
Qed.

Lemma vmr_page_spec held s0 (s : vm H) :
  bare s0 s -> vmrs s = 0 -> vm_lock s = false -> limits s -> refs_ok held (kern s) ->
  (forall f, 0 <= held f < 2 ^ 30 /\ (held f <> 0 -> (f < length (files (kern s)))%nat)) ->
  wp True vmr_page
    (fun _ s' => inv held none s' /\ vmrs s' <> 0 /\ vm_lock s' = false /\
       current s' = current s /\ demand_paging s' = demand_paging s /\ kern s' = kern s /\
       first_free_paddr s' = first_free_paddr s /\ umem s' = umem s /\
       forall n, entry s' n = entry s n) s.
Proof.
  intros [T E _] V L Lm R B; unfold wp, vmr_page; rewrite V; cbn [Z.eqb].
  apply wp_seq; unfold wp at 1, spinlock_lock; rewrite L; apply wp_seq; unfold wp at 1, on_area.
  cbn [area set_lock]; pose proof (page_alloc_spec _ T) as X.
  destruct (__page_alloc (area s)) as [[p x]| |]; [|exact I|contradiction].
  destruct X as (T' & P0 & P1 & E'); unfold wp, seq_op, spinlock_unlock.
  set (s' := set_lock false _); assert (En : forall n, entry s' n = entry s n)
    by (intros n; apply E').
  assert (Z0 : forall i v, vmr s' !! i = Some v -> v = Vmr 0 0 None 0 0 0).
  { intros i v Hv; apply lookup_replicate in Hv as [-> _]; reflexivity. }
  split; [|repeat split; auto; cbn; lia]; split; auto.
  - destruct Lm; split; assumption.
  - intros n Hn; rewrite En; destruct (E n Hn) as [X|X]; [left; exact X | do 3 right; exact X].
  - intros i v Hv; rewrite (Z0 i v Hv); cbn [v_refcnt]; split; [|lia]; unfold none.
    rewrite Z.add_0_r; symmetry; apply tally_none; intros n Hn; apply all_pages_in in Hn.
    rewrite En; apply Z.eqb_neq; destruct (region_bits s' i (proj1 P0) P1) as [Rv R0].
    destruct (E n Hn) as [->|(_ & Vn & _)]; congruence.
  - intros i v f Hv N; exfalso; apply N; rewrite (Z0 i v Hv); reflexivity.
  - eapply refs_ok_ext; [|exact R]; intros f; cbv beta.
    enough (mapped (vmr s') f = 0) by lia; apply tally_none; intros v Hv.
    apply list_elem_of_lookup in Hv as [i Hv]; rewrite (Z0 i v Hv); reflexivity.
Qed.

Context (frontend_syscall : Z -> list Z -> H -> Z * H).
Context (pread_bytes : list Z -> H -> list Z).

(** [__do_mmap] at a fixed address: the page of the regions may be allocated before it. *)
Lemma do_mmap_first (Q : Z -> vm H -> Prop) (s : vm H) addr length prot flags f offset :
  nz (flags .& MAP_FIXED) = true -> Q (u64 (-1)) s ->
  wp True vmr_page (fun _ s1 => vmrs s1 <> 0 /\ current s1 = current s /\
    wp True (__do_mmap frontend_syscall pread_bytes addr length prot flags f offset) Q s1) s ->
  wp True (__do_mmap frontend_syscall pread_bytes addr length prot flags f offset) Q s.
Proof.
  intros F Z0; unfold wp, __do_mmap, seq_op; rewrite F; intros W.
  destruct (_ || _) eqn:G; [exact Z0|]; unfold __vmr_alloc, seq_op in *.
  destruct (vmr_page s) as [[u s1]| |]; [|exact I|contradiction].
  destruct W as (N & C & W); unfold __valid_user_range in *; rewrite C, G in W.
  replace (vmr_page s1) with (Ok (tt, s1)) in W; [exact W|].
  unfold vmr_page; rewrite (proj2 (Z.eqb_neq _ 0) N); reflexivity.
Qed.

(** ** [pk_vm_init] *)

(** The end of the pages for the kernel, and of the user's part. *)
Definition kernel_end (mem_size _end : Z) : Z :=
  ROUNDUP _end RISCV_PGSIZE +
  RISCV_PGSIZE * Z.max 8 (Z.min mem_size (2 ^ 31) / RISCV_PGSIZE / 2 ^ 8).
Definition user_end (mem_size _end : Z) : Z :=
  Z.min DRAM_BASE (Z.min mem_size (2 ^ 31) - (kernel_end mem_size _end - DRAM_BASE)).

(** The image and the pages of the kernel fit the memory, which is whole pages. *)
Record fits (mem_size _end : Z) : Prop := {
  fits_image : DRAM_BASE <= _end <= DRAM_BASE + 2 ^ 31;
  fits_memory : 2 ^ 17 <= mem_size < 2 ^ 64 /\ mem_size mod RISCV_PGSIZE = 0;
  fits_kernel : kernel_end mem_size _end - DRAM_BASE <= Z.min mem_size (2 ^ 31)
}.

Definition stack_size (mem_size : Z) : Z :=
  Z.min (Z.min mem_size (2 ^ 31) / RISCV_PGSIZE / 2 ^ 5) 2048 * RISCV_PGSIZE.

Lemma fits_bounds mem_size _end :
  fits mem_size _end ->
  let k := kernel_end mem_size _end in
  let u := user_end mem_size _end in
  DRAM_BASE < ROUNDUP _end RISCV_PGSIZE + RISCV_PGSIZE /\
  ROUNDUP _end RISCV_PGSIZE mod RISCV_PGSIZE = 0 /\ DRAM_BASE <= ROUNDUP _end RISCV_PGSIZE /\
  k mod RISCV_PGSIZE = 0 /\ DRAM_BASE < k <= DRAM_BASE + 2 ^ 31 /\
  0 <= u <= DRAM_BASE /\ u mod RISCV_PGSIZE = 0 /\ 0 < stack_size mem_size < 2 ^ 24.
Proof using.
  intros [F1 [F2 F3] F4] k u; subst k u; unfold user_end, stack_size in *.
  assert (E : exists q, ROUNDUP _end RISCV_PGSIZE = q * 4096 /\ _end <= q * 4096 < _end + 4096).
  { exists ((_end + 4095) / 4096); rewrite roundup_page by (unfold DRAM_BASE in F1; lia).
    change RISCV_PGSIZE with 4096; clear; Z.div_mod_to_equations; lia. }
  destruct E as (q & E & Bq); unfold kernel_end in *; rewrite E in *.
  set (m := Z.min mem_size (2 ^ 31)) in *.
  assert (Em : exists r, m = 4096 * r /\ 32 <= r <= 2 ^ 19).
  { unfold m; change RISCV_PGSIZE with 4096 in F3; exists (Z.min (mem_size / 4096) (2 ^ 19)).
    clear - F2 F3; Z.div_mod_to_equations; lia. }
  destruct Em as (r & Er & Br); rewrite Er in *; change RISCV_PGSIZE with 4096 in *.
  unfold DRAM_BASE in *; clear - F1 Bq F4 Br; rewrite (Z.mul_comm 4096 r), Z.div_mul in * by lia.
  set (p := r / 2 ^ 8) in *; assert (0 <= p <= 2 ^ 11) by (unfold p; Z.div_mod_to_equations; lia).
  set (t := r / 2 ^ 5) in *; assert (1 <= t) by (unfold t; Z.div_mod_to_equations; lia).
  clearbody p t; Z.div_mod_to_equations; lia.
Qed.

(** The state after the root page table is allocated and the kernel's range is mapped. *)
Lemma boot_kernel mem_size _end demand (k : pk H) :
  fits mem_size _end ->
  let fp := ROUNDUP _end RISCV_PGSIZE in
  let free := Z.max 8 (Z.min mem_size (2 ^ 31) / RISCV_PGSIZE / 2 ^ 8) in
  let ke := kernel_end mem_size _end in
  let s0 := Vm (Pages (fun _ => 0) 0 fp 0 free) 0 [] false ke demand (ElfInfo 0 0 0 0 0) (fun _ => 0)
              k in
  wp True
    (let% root := on_area __page_alloc in
     let% _ := (fun s => Ok (tt, set_area (Pages (word (area s)) root
       (PageTable.first_free_page (area s)) (next_free_page (area s))
       (PageTable.free_pages (area s))) s)) in
     __map_kernel_range DRAM_BASE DRAM_BASE (u64 (ke - DRAM_BASE))
       (PROT_READ .| PROT_WRITE .| PROT_EXEC))
    (fun _ s' => bare s0 s') s0.
Proof using.
  intros F fp free ke s0; destruct (fits_bounds _ _ F) as (P1 & P2 & P3 & P4 & P5 & _).
  fold fp in P1, P2, P3; fold ke in P4, P5; unfold DRAM_BASE in P1, P3, P5.
  assert (Ef : ke = fp + RISCV_PGSIZE * free) by reflexivity.
  apply wp_seq; unfold wp at 1, on_area, __page_alloc; cbn [area s0 next_free_page free_pages].
  rewrite (proj2 (Z.eqb_neq 0 free)) by (unfold free; lia).
  cbn [PageTable.first_free_page word root_page_table].
  rewrite Z.mul_0_r, Z.add_0_r, u64_small by (unfold free in *;
    change RISCV_PGSIZE with 4096 in *; lia).
  apply wp_seq; unfold wp at 1; cbn [area set_area word PageTable.first_free_page next_free_page
    PageTable.free_pages].
  set (w := fun x : Z => if (fp <=? x) && (x <? fp + RISCV_PGSIZE) then 0 else 0);
    change (0 + 1) with 1.
  destruct (zero_tree w fp free) as [T E]; [intros x; unfold w; destruct (_ && _);
    reflexivity | ..];
    try (unfold free in *; change RISCV_PGSIZE with 4096 in *; lia).
  unfold __map_kernel_range; rewrite Z.sub_diag; change (u64 0) with 0.
  rewrite (u64_small (ke - DRAM_BASE)) by (unfold DRAM_BASE; lia).
  apply map_kernel_spec; [split; [exact T | | reflexivity] | discriminate |].
  - intros n Hn; left; unfold entry; cbn [area set_area]; apply E.
  - rewrite roundup_page by (unfold DRAM_BASE; lia); rewrite Z.div_mul by discriminate.
    unfold DRAM_BASE; clear - P5; change RISCV_PGSIZE with 4096; Z.div_mod_to_equations; lia.
Qed.

(** The stack is mapped; the first region is its. *)
Lemma boot_stack held s0 (s : vm H) size :
  bare s0 s -> vmrs s = 0 -> vm_lock s = false -> limits s -> refs_ok held (kern s) ->
  (forall f, 0 <= held f < 2 ^ 30 /\ (held f <> 0 -> (f < length (files (kern s)))%nat)) ->
  0 < size < 2 ^ 24 ->
  let u := mmap_max (current s) in
  wp True
    (let% b := __do_mmap frontend_syscall pread_bytes (u64 (u - size)) size
                 (PROT_READ .| PROT_WRITE .| PROT_EXEC)
                 (MAP_PRIVATE .| MAP_ANONYMOUS .| MAP_FIXED) None 0 in
     let% _ := kassert (negb (b =? u64 (-1))) in give b)
    (fun b s' => inv held none s' /\ vm_lock s' = false /\ current s' = current s /\
       first_free_paddr s' = first_free_paddr s /\ b = u - size /\ 0 <= b /\
       forall n, 0 <= n -> n * RISCV_PGSIZE < u ->
         if within n (b / RISCV_PGSIZE) (Z.of_nat (page_count size))
         then protected s' (PROT_READ .| PROT_WRITE .| PROT_EXEC) n else entry s' n = 0) s.
Proof.
  intros B V L Lm R Hh Sz u; pose proof (lim_max _ Lm) as [M _]; unfold DRAM_BASE in M; fold u in M.
  apply wp_seq, do_mmap_first; [reflexivity | exact I|].
  eapply wp_mono; [exact id | | exact (vmr_page_spec held s0 s B V L Lm R Hh)].
  intros _ s1 (I1 & N1 & L1 & C1 & D1 & K1 & A1 & U1 & E1); split; [exact N1|]; split; [exact C1|].
  eapply wp_mono; [exact id | | apply (do_mmap_spec frontend_syscall pread_bytes held s1 (u64 (u - size)) size);
    auto; [unfold u64, wrap; apply Z.mod_pos_bound | ..]; try lia; discriminate].
  intros b s2 (I2 & K2 & R2); apply wp_seq, wp_kassert; [|auto]; intros Nb.
  apply negb_true_iff, Z.eqb_neq in Nb; apply wp_give.
  inversion R2 as [Pl E|a Pl Fl E|a i t Pl A0 A2 A3 [M0 M1 M2 M3 M4 M5]]; [congruence..|];
    subst a t.
  assert (Eb : b = u - size).
  { inversion Pl as [X1 X2 X3| |x X1| |]; [subst b|discriminate X1].
    rewrite C1 in X3; fold u in X3; destruct (Z.le_gt_cases size u) as [Y|Y]; [apply u64_small;
      lia|].
    replace (u64 (u - size)) with (u - size + 2 ^ 64) in X3 by
      (unfold u64, wrap; apply (Z.mod_unique_pos _ _ (-1)); lia); lia. }
  pose proof (keeps_current _ _ K2) as C2; rewrite C1 in C2.
  split; [exact I2|]; split; [rewrite (keeps_lock _ _ K2); exact L1|]; split; [exact C2|].
  split; [rewrite (keeps_paddr _ _ K2); exact A1|]; split; [exact Eb|]; split; [exact A0|].
  intros n N0 Nu; assert (Hn : 0 <= n < 2 ^ 27) by (change RISCV_PGSIZE with 4096 in Nu; lia).
  pose proof (M3 n Hn) as En; destruct (within _ _ _).
  - destruct (eager s1 _).
    + right; rewrite (keeps_user_pte s1 s2) by exact K2; exact En.
    + left; destruct M1 as [m M1]; eexists i, _; rewrite (keeps_region _ _ i K2); eauto.
  - rewrite En, E1; destruct (bare_entry _ _ B n Hn) as [X|[X _]]; [exact X|].
    unfold DRAM_BASE in X; lia.
Qed.

(** The page of the kernel's stack. *)
Lemma page_alloc_inv held (s : vm H) :
  inv held none s ->
  wp True (on_area __page_alloc)
    (fun _ s' => inv held none s' /\ s' = set_area (area s') s /\
      forall n, entry s' n = entry s n) s.
Proof using.
  intros [I1 I2 I3 I4 I5 I6 I7 I8 I9]; pose proof (page_alloc_spec _ I1) as X; unfold wp, on_area.
  destruct (__page_alloc (area s)) as [[p x]| |]; [|exact I|contradiction].
  destruct X as (T & _ & _ & E); set (s' := set_area x s).
  assert (En : forall n, entry s' n = entry s n) by (intros n; apply E).
  split; [|auto]; split; auto.
  - destruct I4; split; assumption.
  - intros n Hn; rewrite En; exact (I5 n Hn).
  - intros i v Hv; replace (users s' i) with (users s i); [exact (I6 i v Hv)|].
    apply tally_ext; intros n _; rewrite En; reflexivity.
Qed.

Lemma vm_init_spec held demand (k : pk H) mem_size _end :
  fits mem_size _end -> refs_ok held k ->
  (forall f, 0 <= held f < 2 ^ 29 /\ (held f <> 0 -> (f < length (files k))%nat)) ->
  let u := user_end mem_size _end in
  let b := u - stack_size mem_size in
  wp True (pk_vm_init frontend_syscall pread_bytes mem_size _end)
    (fun _ s' => vm_ok held s' /\ first_free_paddr s' = kernel_end mem_size _end /\
       current s' = ElfInfo 0 0 u u u /\
       forall n, 0 <= n -> n * RISCV_PGSIZE < u ->
         if within n (b / RISCV_PGSIZE) (Z.of_nat (page_count (stack_size mem_size)))
         then protected s' (PROT_READ .| PROT_WRITE .| PROT_EXEC) n else entry s' n = 0)
    (reset demand k).
Proof.
  intros F R Hh u b; destruct (fits_bounds _ _ F) as (P1 & P2 & P3 & P4 & P5 & P6 & P7 & P8).
  fold u in P6, P7; unfold pk_vm_init; change (1 .<< 31) with (2 ^ 31).
  change RISCV_PGSHIFT with 12; change (RISCV_PGLEVEL_BITS - 1) with 8.
  rewrite (shiftr_div _ 12), (shiftr_div _ 8), (shiftr_div _ 5) by lia.
  change (2 ^ 12) with RISCV_PGSIZE; fold (stack_size mem_size).
  rewrite (Z.mul_comm _ RISCV_PGSIZE); fold (kernel_end mem_size _end).
  unfold DRAM_BASE in P1, P3, P5, P6; rewrite (u64_small (kernel_end mem_size _end)) by lia.
  rewrite (u64_small (Z.min mem_size (2 ^ 31) - _)) by
    (destruct F as [_ F2 F3]; unfold DRAM_BASE in *; lia).
  fold (user_end mem_size _end); fold u; apply wp_seq; unfold wp at 1; cbn [reset area word
    root_page_table next_free_page vmrs vmr vm_lock demand_paging current umem kern].
  pose proof (boot_kernel mem_size _end demand k F) as X; apply wp_seq_inv in X; apply wp_seq.
  eapply wp_mono; [exact id | | exact X]; clear X; intros root s1 X; apply wp_seq_inv in X.
  apply wp_seq; eapply wp_mono; [exact id | | exact X]; clear X; intros u1 s2 X; apply wp_seq.
  eapply wp_mono; [exact id | | exact X]; clear X; intros u2 s3 [T E Rs]; cbv zeta in Rs.
  apply wp_seq; unfold wp at 1; set (s4 := set_current _ s3).
  assert (C4 : s4 = Vm (area s3) 0 [] false (kernel_end mem_size _end) demand
                      (ElfInfo 0 0 u u 0) (fun _ => 0) k) by (unfold s4; rewrite Rs; reflexivity).
  assert (B4 : bare s4 s4) by (rewrite C4; split; [exact T | exact E | reflexivity]).
  assert (L4 : limits s4) by (rewrite C4; repeat split;
    cbn [first_free_paddr current mmap_max brk brk_max];
      unfold DRAM_BASE; auto; lia).
  assert (Hf : forall f, 0 <= held f < 2 ^ 30 /\ (held f <> 0 -> (f < length (files k))%nat))
    by (intros f; destruct (Hh f); split; [lia | assumption]).
  pose proof (boot_stack held s4 s4 (stack_size mem_size) B4) as X.
  replace (mmap_max (current s4)) with u in X by (rewrite C4; reflexivity).
  do 6 (specialize (X ltac:(first [exact L4 | rewrite ?C4; auto]))).
  apply wp_seq_inv in X; apply wp_seq; eapply wp_mono; [exact id | | exact X]; clear X.
  intros b1 s5 X; apply wp_seq_inv in X; apply wp_seq; eapply wp_mono; [exact id | | exact X].
  clear X; intros u3 s6 (I6 & L6 & C6 & A6 & Eb & B0 & En); apply wp_seq; unfold wp at 1.
  set (s7 := set_current _ s6); assert (C7 : current s7 = ElfInfo 0 0 u u u).
  { unfold s7; rewrite C6, C4, Eb; cbn; rewrite u64_small by lia; f_equal; lia. }
  assert (I7 : inv held none s7).
  { apply inv_set_current; auto; rewrite C6, C4; cbn [brk brk_max mmap_max current]; auto; lia. }
  apply wp_seq; eapply wp_mono; [exact id | | exact (page_alloc_inv held s7 I7)].
  intros pg s8 (I8 & E8 & N8); apply wp_give.
  assert (C8 : current s8 = ElfInfo 0 0 u u u) by (rewrite E8; exact C7).
  split; [split; [exact I8 | rewrite E8; exact L6 | rewrite C8; cbn; lia | apply Hh]|].
  split; [rewrite E8; cbn [first_free_paddr set_area s7 set_current]; rewrite A6, C4; reflexivity|].
  split; [exact C8|]; intros n X1 X2; specialize (En n X1 X2); subst b1; fold b in En.
  destruct (within _ _ _); [|rewrite N8; exact En].
  unfold protected, user_pte, frame_of, region in *; rewrite N8, E8; exact En.
Qed.
End Boot.
