(* ===== verification/Elf.v ===== *)
(** * Loading a program ([pk/elf.c])

    The headers are read from the host; each loadable segment is mapped from the file and, past
    the end of its bytes in the file, from no file at all.  [load_elf] leaves the break at the
    end of the highest segment.  [pread_bytes] gives the bytes the host stores, also for the
    reads into the kernel's own buffers at [eh_buf] and [phdr_buf]. *)

From S2P Require Import Prelude File PageTable Mmap MmapInv MmapOps MmapAlloc MmapCalls MmapProtect VirtualMemory.
From stdpp Require Import base list list_numbers.
From Stdlib Require Import ZArith Lia.
#[local] Open Scope Z_scope.
#[local] Open Scope c_scope.
#[local] Open Scope bool_scope.
#[local] Abbreviation plus := File.plus.

(** ** Headers *)

Definition PF_X : Z := 1.
Definition PF_W : Z := 2.
Definition PF_R : Z := 4.
Definition PROT_NONE : Z := 0.
Definition PT_LOAD : Z := 1.
Definition ET_DYN : Z := 3.
Definition O_RDONLY : Z := 0.

Record Elf_Phdr := Phdr {
  p_type : Z;
  p_flags : Z;
  p_offset : Z;
  p_vaddr : Z;
  p_filesz : Z;
  p_memsz : Z
}.

Definition sizeof_Ehdr : Z := 64.
Definition sizeof_Phdr : Z := 56.

(** The little-endian field of [n] bytes at [off]. *)
Definition le_field (bytes : list Z) (off : Z) (n : nat) : Z :=
  fold_right (fun b acc => b mod 2 ^ 8 + 2 ^ 8 * acc) 0
    (map (fun i => nth (Z.to_nat off + i) bytes 0) (seq 0 n)).

Definition phdr_at (bytes : list Z) (i : nat) : Elf_Phdr :=
  let off := sizeof_Phdr * Z.of_nat i in
  Phdr (le_field bytes off 4) (le_field bytes (off + 4) 4) (le_field bytes (off + 8) 8)
    (le_field bytes (off + 16) 8) (le_field bytes (off + 32) 8) (le_field bytes (off + 40) 8).

Definition get_prot (p_flags : Z) : Z :=
  let prot_x := if nz (p_flags .& PF_X) then PROT_EXEC else PROT_NONE in
  let prot_w := if nz (p_flags .& PF_W) then PROT_WRITE else PROT_NONE in
  let prot_r := if nz (p_flags .& PF_R) then PROT_READ else PROT_NONE in
  prot_x .| prot_w .| prot_r.

Section Elf.
Context {H : Type} (frontend_syscall : Z -> list Z -> H -> Z * H).
Context (pread_bytes : list Z -> H -> list Z).

(** [goto fail]: the panic. *)
Definition fail_if (b : bool) : op (vm H) unit := kassert (negb b).

(** [file_pread] into a buffer of the kernel: the host's result and bytes. *)
Definition kernel_pread (f : nat) (buf size offset : Z) : op (vm H) (Z * list Z) :=
  let% x := on_kern (get_file f) in
  let% pa := va2pa buf in
  fun s =>
    let args := [kfd x; pa; size; offset; 0; 0; 0] in
    (let% ret := on_kern (frontend frontend_syscall SYS_pread args) in
     give (i64 ret, pread_bytes args (host (kern s)))) s.

(** [memset((void* )va, 0, n)] below the end of a page that is present. *)
Definition memset_user (va n : Z) : op (vm H) unit :=
  if n =? 0 then give tt
  else
    let% pte := on_area (__walk va) in
    let% e := read_pte pte in
    clear_page (pte_ppn e * RISCV_PGSIZE + va mod RISCV_PGSIZE) n.

(** The body of the loop of [load_elf]: the part of a segment that is in the file, at [start]
    with [prepad] bytes before it, *)
Definition load_file_part (file : nat) (start size prepad prot flags2 offset : Z)
    : op (vm H) unit :=
  let% r := __do_mmap frontend_syscall pread_bytes start size (prot .| PROT_WRITE) flags2
              (Some file) offset in
  let% _ := fail_if (negb (r =? start)) in
  let% _ := memset_user start prepad in
  if negb (nz (prot .& PROT_WRITE)) then
    let% r := do_mprotect start size prot in fail_if (nz r)
  else give tt.

(** the part that is not, *)
Definition load_bss (start size prot flags : Z) : op (vm H) unit :=
  let% r := __do_mmap frontend_syscall pread_bytes start size prot (flags .| MAP_ANONYMOUS) None 0 in
  fail_if (negb (r =? start)).

(** and both, after the break. *)
Definition load_segment (file : nat) (bias : Z) (ph : Elf_Phdr) : op (vm H) unit :=
  let flags := MAP_FIXED .| MAP_PRIVATE in
  let prepad := p_vaddr ph mod RISCV_PGSIZE in
  let vaddr := u64 (p_vaddr ph + bias) in
  let% _ := (fun s => Ok (tt,
    let c := current s in
    let e := u64 (vaddr + p_memsz ph) in
    if brk_min c <? e then set_current (ElfInfo e (brk c) (brk_max c) (mmap_max c) (stack_top c)) s
    else s)) in
  let flags2 := flags .| (if nz prepad then MAP_POPULATE else 0) in
  let prot := get_prot (p_flags ph) in
  let size := u64 (p_filesz ph + prepad) in
  let% _ := load_file_part file (u64 (vaddr - prepad)) size prepad prot flags2
              (u64 (p_offset ph - prepad)) in
  let mapped := u64 (ROUNDUP size RISCV_PGSIZE - prepad) in
  if mapped <? p_memsz ph then load_bss (u64 (vaddr + mapped)) (u64 (p_memsz ph - mapped)) prot flags
  else give tt.

(** [for (int i = eh.e_phnum - 1; i >= 0; i--)], on the headers in the order of the loop. *)
Fixpoint load_segments (file : nat) (bias : Z) (phs : list Elf_Phdr) : op (vm H) unit :=
  match phs with
  | [] => give tt
  | ph :: phs =>
      let% _ := if (p_type ph =? PT_LOAD) && nz (p_memsz ph) then load_segment file bias ph
                else give tt in
      load_segments file bias phs
  end.

(** The entry point and the number of program headers; [phdr_size] is the size of the buffer. *)
Definition load_elf (fn fn_size eh_buf phdr_buf phdr_size : Z) : op (vm H) (Z * Z) :=
  let% r := on_kern (file_openat frontend_syscall AT_FDCWD fn fn_size O_RDONLY 0) in
  match r with
  | inr _ => fun _ => Panic
  | inl file =>
      let% eh := kernel_pread file eh_buf sizeof_Ehdr 0 in
      let id i := nth i (snd eh) 0 in
      let% _ := fail_if ((fst eh <? sizeof_Ehdr) ||
                         negb ((id 0%nat =? 0x7f) && (id 1%nat =? 0x45) && (id 2%nat =? 0x4c) &&
                               (id 3%nat =? 0x46))) in
      let% _ := kassert (id 4%nat =? 2) in
      let e_type := le_field (snd eh) 16 2 in
      let e_entry := le_field (snd eh) 24 8 in
      let e_phoff := le_field (snd eh) 32 8 in
      let e_phnum := le_field (snd eh) 56 2 in
      let size := e_phnum * sizeof_Phdr in
      let% _ := fail_if (phdr_size <? size) in
      let% ph := kernel_pread file phdr_buf size e_phoff in
      let% _ := fail_if (fst ph <? size) in
      let bias := if e_type =? ET_DYN then RISCV_PGSIZE else 0 in
      let% _ := load_segments file bias (rev (map (phdr_at (snd ph)) (seq 0 (Z.to_nat e_phnum)))) in
      let% _ := on_kern (file_decref frontend_syscall file) in
      give (u64 (e_entry + bias), e_phnum)
  end.


(** ** Mappings at a fixed address *)

Lemma fixed_mapped (s s' : vm H) addr length prot flags f offset :
  nz (flags .& MAP_FIXED) = true -> addr mod RISCV_PGSIZE = 0 ->
  mmap_result s addr length prot flags f offset addr s' ->
  0 <= addr /\ addr + length <= mmap_max (current s) /\
  exists i, mmapped s addr length prot flags f offset i s'.
Proof using.
  intros F A R; inversion R as [Pl E|a Pl Fl E|a i t Pl A0 A1 A2 M]; subst; [discriminate A..|].
  eauto.
Qed.

Lemma protected_new (s s' : vm H) a length prot flags f offset i n :
  keeps s s' -> mmapped s a length prot flags f offset i s' -> 0 <= n < 2 ^ 27 ->
  within n (a / RISCV_PGSIZE) (Z.of_nat (page_count length)) = true -> protected s' prot n.
Proof using.
  intros K [_ [m M1] _ M3 _ _] Hn W; specialize (M3 n Hn); rewrite W in M3.
  destruct (eager s flags).
  - right; rewrite (keeps_user_pte s s') by exact K; exact M3.
  - left; eexists i, _; rewrite (keeps_region _ _ i K); eauto.
Qed.

Lemma protected_old (s s' : vm H) a length prot flags f offset i p n :
  keeps s s' -> mmapped s a length prot flags f offset i s' -> 0 <= n < 2 ^ 27 ->
  within n (a / RISCV_PGSIZE) (Z.of_nat (page_count length)) = false ->
  protected s p n -> protected s' p n.
Proof using.
  intros K [M0 _ M2 M3 _ _] Hn W; specialize (M3 n Hn); rewrite W in M3; unfold protected.
  rewrite (keeps_user_pte s s'), M3 by exact K.
  intros [(j & v & E & Hv & P)|E]; [left | right; exact E].
  destruct (M2 j v) as [m Hm]; [intros ->; exact (M0 n Hn E) | exact Hv|].
  exists j, (with_refcnt v m); rewrite (keeps_region _ _ j K); auto.
Qed.

Lemma memset_user_spec P held (s : vm H) va n :
  inv held none s ->
  wp P (memset_user va n)
    (fun _ s' => inv held none s' /\ keeps s s' /\ area s' = area s /\ vmr s' = vmr s) s.
Proof using.
  intros I; unfold memset_user; destruct (n =? 0); [apply wp_give; auto using keeps_refl|].
  apply wp_seq; unfold wp at 1; rewrite run_walk_area; apply wp_seq;
    unfold wp, read_pte, clear_page.
  set (m := zero_bytes _ _ _); destruct (inv_memory held none s m (host (kern s)) I) as [J K].
  replace (set_umem m s) with (set_umem m (set_kern (set_host (host (kern s)) (kern s)) s))
    by (destruct s as [? ? ? ? ? ? ? ? []]; reflexivity).
  auto.
Qed.

Lemma fail_if_spec (b : bool) (Q : unit -> vm H -> Prop) s :
  (b = false -> Q tt s) -> wp True (fail_if b) Q s.
Proof using. intros E; apply wp_kassert; [rewrite negb_true_iff; exact E | auto]. Qed.

(** Pages [a, a + length) after they are mapped with [prot], and the other entries. *)
Definition mapped_with (s s' : vm H) (a length prot : Z) : Prop :=
  forall n, 0 <= n < 2 ^ 27 ->
    if within n (a / RISCV_PGSIZE) (Z.of_nat (page_count length)) then protected s' prot n
    else entry s' n = entry s n.

Lemma get_prot_write p_flags :
  nz (get_prot p_flags .& PROT_WRITE) = true -> get_prot p_flags .| PROT_WRITE = get_prot p_flags.
Proof using.
  unfold get_prot; destruct (nz (p_flags .& PF_X)), (nz (p_flags .& PF_W)), (nz (p_flags .& PF_R));
    intros X; try discriminate X; reflexivity.
Qed.

Lemma load_file_part_spec held (s : vm H) file start size prepad p_flags flags2 offset :
  inv held none s -> vm_lock s = false -> 0 < held file -> 0 <= start < 2 ^ 64 ->
  start mod RISCV_PGSIZE = 0 -> 0 < size < 2 ^ 64 -> nz (flags2 .& MAP_FIXED) = true ->
  wp True (load_file_part file start size prepad (get_prot p_flags) flags2 offset)
    (fun _ s' => inv held none s' /\ keeps s s' /\ start + size <= mmap_max (current s) /\
                 mapped_with s s' start size (get_prot p_flags)) s.
Proof.
  intros I L F A A0 Sz Fx; unfold load_file_part; set (prot := get_prot p_flags); apply wp_seq.
  assert (G : forall g, Some file = Some g -> (g < length (files (kern s)))%nat /\
            0 < refs g (fds (kern s)) + (held g + mapped (vmr s) g)).
  { intros g [= <-]; destruct (inv_held _ _ _ I file) as [_ T]; split; [apply T; lia|].
    pose proof (refs_nonneg file (fds (kern s)));
      pose proof (mapped_bound _ file (inv_length _ _ _ I)); lia. }
  eapply wp_mono; [exact id | | exact (do_mmap_spec frontend_syscall pread_bytes held s start size
    (prot .| PROT_WRITE) flags2 (Some file) offset I A Sz (or_introl Fx) G)].
  intros r s1 (I1 & K1 & R1); apply wp_seq, fail_if_spec; intros E.
  apply negb_false_iff, Z.eqb_eq in E; subst r.
  destruct (fixed_mapped _ _ _ _ _ _ _ _ Fx A0 R1) as (S0 & S1 & i & M1).
  apply wp_seq; eapply wp_mono; [exact id |
    | exact (memset_user_spec True held s1 start prepad I1)].
  intros u s2 (I2 & K2 & A2 & V2); pose proof (keeps_trans _ _ _ K1 K2) as K.
  assert (E2 : forall n, entry s2 n = entry s1 n) by (intros n; unfold entry; rewrite A2;
    reflexivity).
  assert (En : forall n, 0 <= n < 2 ^ 27 ->
            within n (start / RISCV_PGSIZE) (Z.of_nat (page_count size)) = false ->
            entry s2 n = entry s n).
  { intros n Hn W; rewrite E2, (mm_entry _ _ _ _ _ _ _ _ _ M1 n Hn), W; reflexivity. }
  destruct (nz (prot .& PROT_WRITE)) eqn:Wr; cbn [negb].
  - apply wp_give; split; [exact I2|]; split; [exact K|]; split; [exact S1|]; intros n Hn.
    destruct (within _ _ _) eqn:W; [|apply En; auto].
    pose proof (protected_new _ _ _ _ _ _ _ _ _ n K1 M1 Hn W) as Pn.
    unfold prot in Pn; rewrite get_prot_write in Pn by exact Wr; fold prot in Pn.
    unfold protected, region, user_pte, frame_of in *.
    rewrite E2, V2, (keeps_vmrs _ _ K2), (keeps_paddr _ _ K2); exact Pn.
  - apply wp_seq; eapply wp_mono; [exact id | | apply (mprotect_spec True held s2 start size prot);
      auto; [rewrite (keeps_lock _ _ K); exact L | lia]].
    intros r s3 (I3 & K3 & R3); apply fail_if_spec; intros Zr.
    apply negb_false_iff, Z.eqb_eq in Zr; subst r.
    split; [exact I3|]; split; [exact (keeps_trans _ _ _ K K3)|]; split; [exact S1|].
    destruct R3 as [(X & _)|(_ & _ & _ & E3 & D3)]; [discriminate X|].
    pose proof (lim_max _ (inv_limits _ _ _ I)) as [M _]; unfold DRAM_BASE in M.
    rewrite u64_small in E3, D3 by lia; destruct (page_count_spec size) as [Pc _]; [lia|].
    intros n Hn; destruct (within _ _ _) eqn:W.
    + apply within_spec in W; rewrite <- (vpn_page n Hn); apply D3;
        [reflexivity | | apply Z.mod_mul; discriminate].
      change RISCV_PGSIZE with 4096 in *; clear - W A0 Pc; Z.div_mod_to_equations; lia.
    + rewrite E3; [apply En; assumption | exact Hn|]; intros b Hb <-.
      apply not_true_iff_false in W; apply W, within_spec; rewrite vpn_small by lia.
      change RISCV_PGSIZE with 4096 in *; clear - A0 Hb Pc; Z.div_mod_to_equations; lia.
Qed.

Lemma load_bss_spec held (s : vm H) start size prot flags :
  inv held none s -> 0 <= start < 2 ^ 64 -> start mod RISCV_PGSIZE = 0 -> 0 < size < 2 ^ 64 ->
  nz ((flags .| MAP_ANONYMOUS) .& MAP_FIXED) = true ->
  wp True (load_bss start size prot flags)
    (fun _ s' => inv held none s' /\ keeps s s' /\ start + size <= mmap_max (current s) /\
       mapped_with s s' start size prot /\
       forall p n, 0 <= n < 2 ^ 27 ->
         within n (start / RISCV_PGSIZE) (Z.of_nat (page_count size)) = false ->
         protected s p n -> protected s' p n) s.
Proof.
  intros I A A0 Sz Fx; unfold load_bss; apply wp_seq.
  eapply wp_mono; [exact id | | apply (do_mmap_spec frontend_syscall pread_bytes held s start size
    prot (flags .| MAP_ANONYMOUS) None 0 I A Sz (or_introl Fx)); discriminate].
  intros r s1 (I1 & K1 & R1); apply fail_if_spec; intros E.
  apply negb_false_iff, Z.eqb_eq in E; subst r.
  destruct (fixed_mapped _ _ _ _ _ _ _ _ Fx A0 R1) as (S0 & S1 & i & M1).
  split; [exact I1|]; split; [exact K1|]; split; [exact S1|]; split.
  - intros n Hn; destruct (within _ _ _) eqn:W; [eapply protected_new; eauto|].
    rewrite (mm_entry _ _ _ _ _ _ _ _ _ M1 n Hn), W; reflexivity.
  - intros p n Hn W; eapply protected_old; eauto.
Qed.

(** ** Segments *)

Definition prepad (ph : Elf_Phdr) : Z := p_vaddr ph mod RISCV_PGSIZE.

(** The fields are 64-bit, and the file has bytes for the segment or for the page it starts in. *)
Record segment_ok (ph : Elf_Phdr) : Prop := {
  seg_vaddr : 0 <= p_vaddr ph < 2 ^ 64;
  seg_memsz : 0 <= p_memsz ph < 2 ^ 64;
  seg_filesz : 0 <= p_filesz ph /\ 0 < p_filesz ph + prepad ph < 2 ^ 64
}.

(** The first address that a segment is mapped at, and its size from there. *)
Definition segment_start (bias : Z) (ph : Elf_Phdr) : Z := u64 (p_vaddr ph + bias) - prepad ph.
Definition segment_size (ph : Elf_Phdr) : Z := Z.max (p_filesz ph) (p_memsz ph) + prepad ph.

Lemma segment_start_page bias ph :
  bias = 0 \/ bias = RISCV_PGSIZE -> segment_ok ph ->
  0 <= segment_start bias ph /\ segment_start bias ph mod RISCV_PGSIZE = 0 /\
  0 <= prepad ph < RISCV_PGSIZE.
Proof using.
  clear; intros B [V _ _]; unfold segment_start, prepad, u64, wrap;
    change RISCV_PGSIZE with 4096 in *.
  destruct B as [-> | ->]; Z.div_mod_to_equations; lia.
Qed.

Lemma page_count_more n x :
  0 <= n -> 0 <= x ->
  Z.of_nat (page_count (RISCV_PGSIZE * n + x)) = n + Z.of_nat (page_count x).
Proof using.
  clear; intros N X; unfold page_count; change RISCV_PGSIZE with 4096.
  rewrite !Z2Nat.id by (Z.div_mod_to_equations; lia); Z.div_mod_to_equations; lia.
Qed.

Lemma roundup_count size :
  0 < size <= 2 ^ 40 -> ROUNDUP size RISCV_PGSIZE = RISCV_PGSIZE * Z.of_nat (page_count size).
Proof using.
  clear; intros S; rewrite roundup_page by lia; unfold page_count; change RISCV_PGSIZE with 4096.
  rewrite Z2Nat.id by (Z.div_mod_to_equations; lia); lia.
Qed.

Lemma within_split n b c d :
  0 <= c -> 0 <= d -> within n b (c + d) = within n b c || within n (b + c) d.
Proof using.
  clear; intros C D; apply eq_true_iff_eq; rewrite orb_true_iff, !within_spec; lia.
Qed.

Definition with_brk_min (b : Z) (c : elf_info) : elf_info :=
  ElfInfo b (brk c) (brk_max c) (mmap_max c) (stack_top c).

(** The pages of a segment: those of the file part only, or those of both parts. *)
Lemma mapped_file_only (s s' : vm H) start size total prot :
  mapped_with s s' start size prot -> 0 < size <= total ->
  total <= RISCV_PGSIZE * Z.of_nat (page_count size) -> mapped_with s s' start total prot.
Proof using.
  clear; intros M T U; replace (mapped_with s s' start total prot)
    with (mapped_with s s' start size prot); [exact M|]; unfold mapped_with.
  replace (page_count total) with (page_count size); [reflexivity|].
  apply Nat2Z.inj; unfold page_count in *; change RISCV_PGSIZE with 4096 in *.
  rewrite !Z2Nat.id in * by (Z.div_mod_to_equations; lia); Z.div_mod_to_equations; lia.
Qed.

Lemma mapped_both (s s1 s2 : vm H) start size size2 prot :
  let c := Z.of_nat (page_count size) in
  mapped_with s s1 start size prot -> mapped_with s1 s2 (start + RISCV_PGSIZE * c) size2 prot ->
  (forall n, 0 <= n < 2 ^ 27 ->
     within n ((start + RISCV_PGSIZE * c) / RISCV_PGSIZE) (Z.of_nat (page_count size2)) = false ->
     protected s1 prot n -> protected s2 prot n) ->
  0 <= size2 -> mapped_with s s2 start (RISCV_PGSIZE * c + size2) prot.
Proof using.
  intros c M1 M2 P2 S2 n Hn; specialize (M1 n Hn); specialize (M2 n Hn); specialize (P2 n Hn).
  rewrite (Z.mul_comm RISCV_PGSIZE c), Z.div_add, (Z.mul_comm c) in * by discriminate.
  rewrite page_count_more, within_split by lia; fold c in M1.
  destruct (within n (start / RISCV_PGSIZE + c) _); rewrite ?orb_true_r, ?orb_false_r; [exact M2|].
  destruct (within n (start / RISCV_PGSIZE) c); [auto | congruence].
Qed.

(** The part that is not in the file, after the part that is. *)
Lemma load_rest_spec held (s s2 : vm H) start size pre memsz prot :
  let c := Z.of_nat (page_count size) in
  let mapped := u64 (RISCV_PGSIZE * c - pre) in
  inv held none s2 -> 0 <= start -> start mod RISCV_PGSIZE = 0 -> 0 <= pre < RISCV_PGSIZE ->
  0 < size -> start + size <= mmap_max (current s2) -> 0 <= memsz < 2 ^ 64 ->
  mapped_with s s2 start size prot ->
  wp True (if mapped <? memsz
           then load_bss (u64 (start + pre + mapped)) (u64 (memsz - mapped)) prot
                  (MAP_FIXED .| MAP_PRIVATE)
           else give tt)
    (fun _ s' => inv held none s' /\ keeps s2 s' /\ start + pre + memsz <= mmap_max (current s2) /\
                 mapped_with s s' start (Z.max size (memsz + pre)) prot) s2.
Proof.
  intros c mapped I A0 A1 Pr Sz U Ms M; pose proof (lim_max _ (inv_limits _ _ _ I)) as [Mx M0].
  unfold DRAM_BASE in Mx; destruct (page_count_spec size) as [Pc _]; [lia|]; fold c in Pc.
  assert (Uc : start + RISCV_PGSIZE * c <= mmap_max (current s2)).
  { change RISCV_PGSIZE with 4096 in *; clear - A1 U Pc M0; Z.div_mod_to_equations; lia. }
  assert (Bc : RISCV_PGSIZE <= RISCV_PGSIZE * c) by (change RISCV_PGSIZE with 4096 in *; lia).
  unfold mapped; rewrite (u64_small (RISCV_PGSIZE * c - pre)) by lia.
  destruct (Z.ltb_spec (RISCV_PGSIZE * c - pre) memsz) as [Lt|Ge].
  - rewrite !u64_small by lia; set (size2 := memsz - _).
    replace (start + pre + (RISCV_PGSIZE * c - pre)) with (start + RISCV_PGSIZE * c) by lia.
    eapply wp_mono; [exact id | | apply (load_bss_spec held s2); auto; unfold size2; try lia].
    + intros u s3 (I3 & K3 & U3 & M3 & P3); unfold size2 in U3.
      split; [exact I3|]; split; [exact K3|]; split; [lia|].
      replace (Z.max size (memsz + pre)) with (RISCV_PGSIZE * c + size2) by (unfold size2; lia).
      apply (mapped_both s s2 s3 start size size2); auto; unfold size2; lia.
    + rewrite (Z.mul_comm RISCV_PGSIZE c), Z.mod_add by discriminate; exact A1.
  - apply wp_give; split; [exact I|]; split; [apply keeps_refl|]; split; [lia|].
    apply (mapped_file_only s s2 start size); auto; fold c; lia.
Qed.

Lemma load_segment_spec held (s : vm H) file bias ph :
  inv held none s -> vm_lock s = false -> 0 < held file -> 0 <= brk_min (current s) ->
  bias = 0 \/ bias = RISCV_PGSIZE -> segment_ok ph ->
  let vend := u64 (p_vaddr ph + bias) + p_memsz ph in
  wp True (load_segment file bias ph)
    (fun _ s' => inv held none s' /\ vm_lock s' = false /\ vend <= mmap_max (current s) /\
       current s' = with_brk_min (Z.max (brk_min (current s)) vend) (current s) /\
       mapped_with s s' (segment_start bias ph) (segment_size ph) (get_prot (p_flags ph))) s.
Proof.
  intros I L F B Bs Sg vend; destruct (segment_start_page bias ph Bs Sg) as (T0 & T1 & T2).
  destruct Sg as [V M [F0 F1]]; unfold load_segment; fold (prepad ph).
  set (vaddr := u64 (p_vaddr ph + bias)) in *; set (start := segment_start bias ph) in *.
  assert (Ev : vaddr = start + prepad ph) by (unfold start, segment_start; fold vaddr; lia).
  assert (Rv : 0 <= vaddr < 2 ^ 64) by (unfold vaddr, u64, wrap; apply Z.mod_pos_bound; lia).
  rewrite (u64_small (vaddr - prepad ph)) by lia; replace (vaddr - prepad ph) with start by lia.
  rewrite (u64_small (p_filesz ph + prepad ph)) by lia; set (size := p_filesz ph + prepad ph) in *.
  apply wp_seq; unfold wp at 1; set (s1 := if _ <? _ then _ else s).
  set (e := u64 (vaddr + p_memsz ph)).
  assert (Es : s1 = set_current (with_brk_min (Z.max (brk_min (current s)) e) (current s)) s).
  { unfold s1; fold e; destruct (Z.ltb_spec (brk_min (current s)) e).
    - rewrite Z.max_r by lia; reflexivity.
    - rewrite Z.max_l by lia; destruct s as [? ? ? ? ? ? [] ? ?]; reflexivity. }
  pose proof (inv_limits _ _ _ I) as [_ [Mx M0] [B1 B2] B3]; unfold DRAM_BASE in Mx.
  assert (I1 : inv held none s1) by (rewrite Es; apply inv_set_current; auto).
  apply wp_seq; eapply wp_mono; [exact id | | apply (load_file_part_spec held s1 file start size);
    auto; try lia; [rewrite Es; exact L | destruct (nz (prepad ph)); reflexivity]].
  intros u s2 (I2 & K2 & U2 & M2); replace (mmap_max (current s1)) with (mmap_max (current s)) in U2
    by (rewrite Es; reflexivity).
  rewrite roundup_count, Ev by lia.
  assert (C2 : mmap_max (current s2) = mmap_max (current s))
    by (rewrite (keeps_current _ _ K2), Es; reflexivity).
  assert (M1 : mapped_with s s2 start size (get_prot (p_flags ph)))
    by (intros n Hn; specialize (M2 n Hn); rewrite Es in M2; exact M2).
  eapply wp_mono; [exact id | | apply (load_rest_spec held s s2 start size); rewrite ?C2; auto; lia].
  intros u3 s3 (I3 & K3 & Ve & M3); rewrite C2 in Ve; replace vend with (start + prepad ph + p_memsz ph)
    by (unfold vend; lia).
  split; [exact I3|]; split; [rewrite (keeps_lock _ _ K3), (keeps_lock _ _ K2), Es; exact L|].
  split; [exact Ve|]; split.
  - rewrite (keeps_current _ _ K3), (keeps_current _ _ K2), Es; unfold e; rewrite Ev.
    rewrite u64_small by lia; reflexivity.
  - replace (segment_size ph) with (Z.max size (p_memsz ph + prepad ph))
      by (unfold segment_size, size; lia).
    exact M3.
Qed.

(** ** [load_elf] *)

Definition loadable (ph : Elf_Phdr) : bool := (p_type ph =? PT_LOAD) && nz (p_memsz ph).

Lemma load_segments_spec held file bias phs : forall (s : vm H),
  inv held none s -> vm_lock s = false -> 0 < held file ->
  0 <= brk_min (current s) <= mmap_max (current s) -> bias = 0 \/ bias = RISCV_PGSIZE ->
  Forall (fun ph => loadable ph = true -> segment_ok ph) phs ->
  wp True (load_segments file bias phs)
    (fun _ s' => inv held none s' /\ vm_lock s' = false /\ exists b,
       current s' = with_brk_min b (current s) /\
         brk_min (current s) <= b <= mmap_max (current s) /\
       Forall (fun ph => loadable ph = true -> u64 (p_vaddr ph + bias) + p_memsz ph <= b) phs) s.
Proof.
  induction phs as [|ph phs IH]; intros s I L F B Bs Fa; cbn [load_segments].
  - apply wp_give; split; [exact I|]; split; [exact L|]; exists (brk_min (current s)).
    split; [destruct (current s); reflexivity|]; split; [lia | constructor].
  - inversion Fa as [|x l Ok Fb]; subst; apply wp_seq; fold (loadable ph).
    set (vend := u64 (p_vaddr ph + bias) + p_memsz ph).
    assert (Go : forall s1 b1, inv held none s1 -> vm_lock s1 = false ->
              current s1 = with_brk_min b1 (current s) ->
                brk_min (current s) <= b1 <= mmap_max (current s) ->
              (loadable ph = true -> vend <= b1) ->
              wp True (load_segments file bias phs) (fun _ s' => inv held none s' /\
                vm_lock s' = false /\ exists b, current s' = with_brk_min b (current s) /\
                brk_min (current s) <= b <= mmap_max (current s) /\
                Forall (fun ph => loadable ph = true -> u64 (p_vaddr ph + bias) + p_memsz ph <= b)
                  (ph :: phs)) s1).
    { intros s1 b1 I1 L1 C1 B1 V1; eapply wp_mono; [exact id | | apply IH; auto].
      - intros u s2 (I2 & L2 & b & C2 & B2 & F2); split; [exact I2|]; split; [exact L2|]; exists b.
        rewrite C1 in C2, B2; cbn [with_brk_min brk_min mmap_max] in B2.
        split; [exact C2|]; split; [lia|]; constructor; [|exact F2].
        intros Lo; specialize (V1 Lo); fold vend; lia.
      - rewrite C1; cbn [with_brk_min brk_min mmap_max]; lia. }
    destruct (loadable ph) eqn:Lo.
    + eapply wp_mono; [exact id | | apply (load_segment_spec held s file bias ph); auto; lia].
      intros u s1 (I1 & L1 & V1 & C1 & _); fold vend in V1, C1.
      apply (Go s1 (Z.max (brk_min (current s)) vend)); auto; lia.
    + apply wp_give; apply (Go s (brk_min (current s))); auto; try lia.
      destruct (current s); reflexivity.
Qed.

Lemma file_openat_length (k k' : pk H) dirfd fn n flags mode r :
  file_openat frontend_syscall dirfd fn n flags mode k = Some (r, k') ->
  length (files k') = length (files k).
Proof using.
  unfold file_openat, kbind, file_get_free, kret, frontend, put_kfd.
  destruct (list_find _ (files k)) as [[f x]|] eqn:E; [|intros [= _ <-]; reflexivity].
  destruct (frontend_syscall _ _ _) as [ret h]; destruct (0 <=? ret).
  - intros [= _ <-]; cbn [files set_files set_host]; rewrite !length_alter; reflexivity.
  - unfold file_decref, kbind, get_file, put_refcnt, frontend, kret; cbn [files set_files set_host].
    destruct (_ !! f) as [y|]; [|discriminate]; cbn [fst snd].
    repeat case_match; intros; simplify_eq; cbn [files set_host set_files]; rewrite !length_alter;
      reflexivity.
Qed.

Lemma kernel_pread_spec held (s : vm H) f buf size offset :
  inv held none s -> vm_lock s = false ->
  wp True (kernel_pread f buf size offset)
    (fun r s' => inv held none s' /\ vm_lock s' = false /\ current s' = current s /\
       exists args h, snd r = pread_bytes args h) s.
Proof using.
  intros I L; unfold kernel_pread; apply wp_seq; unfold wp at 1, on_kern, get_file.
  destruct (_ !! f) as [x|]; [|exact Logic.I]; apply wp_seq; unfold wp at 1, va2pa.
  unfold wp, seq_op, on_kern, frontend, give; cbn [kern set_kern].
  destruct (frontend_syscall _ _ _) as [ret h]; cbn [snd].
  destruct (inv_memory held none s (umem s) h I) as [J _].
  split; [exact J|]; split; [exact L|]; eauto.
Qed.

(** Every segment that a file of the host has to load is sound. *)
Definition sound_headers : Prop :=
  forall args h i, loadable (phdr_at (pread_bytes args h) i) = true ->
    segment_ok (phdr_at (pread_bytes args h) i).

Lemma load_elf_spec held (s : vm H) fn fn_size eh_buf phdr_buf phdr_size :
  vm_ok held s -> sound_headers ->
  wp True (load_elf fn fn_size eh_buf phdr_buf phdr_size)
    (fun _ s' => vm_ok held s' /\ exists b,
       current s' = with_brk_min b (current s) /\ brk_min (current s) <= b) s.
Proof.
  intros [I L B W] Sh; unfold load_elf; apply wp_seq; unfold wp at 1, on_kern.
  pose proof (file_openat_spec frontend_syscall _ (kern s) AT_FDCWD fn fn_size O_RDONLY 0
    (inv_files _ _ _ I)) as O; destruct (frontend_syscall SYS_openat _ _) as [ret h].
  destruct O as [->|(f & x & k & Hx & R0 & H0 & Fd & O)]; [exact Logic.I|].
  pose proof (file_openat_length (kern s)) as Ln.
  destruct (0 <=? ret); [|destruct O as [-> _]; exact Logic.I]; destruct O as (E & RO & _ & _).
  specialize (Ln _ _ _ _ _ _ _ E); rewrite E; set (s1 := set_kern k s).
  pose proof (mapped_bound _ f (inv_length _ _ _ I)); destruct (inv_held _ _ _ I f) as [Hf _].
  assert (I1 : inv (plus held f 1) none s1).
  { apply (inv_set_kern held _ none s k I Ln).
    - eapply refs_ok_ext; [|exact RO]; intros g; unfold plus; destruct (decide _); lia.
    - intros g; unfold plus; destruct (inv_held _ _ _ I g) as [Bg Tg]; pose proof (W g).
      destruct (decide (g = f)) as [->|_]; [|rewrite Z.add_0_r; split; [lia | exact Tg]].
      split; [lia|]; intros _; apply lookup_lt_Some in Hx; exact Hx. }
  apply wp_seq; eapply wp_mono; [exact id | | apply (kernel_pread_spec (plus held f 1) s1); auto].
  intros eh s2 (I2 & L2 & C2 & _); apply wp_seq, fail_if_spec; intros _; apply wp_seq.
  apply wp_kassert; [intros _ | auto]; apply wp_seq, fail_if_spec; intros _; apply wp_seq.
  eapply wp_mono; [exact id | | apply (kernel_pread_spec (plus held f 1) s2); auto].
  intros ph s3 (I3 & L3 & C3 & args & h' & Eb); apply wp_seq, fail_if_spec; intros _; apply wp_seq.
  rewrite C2 in C3; change (current s1) with (current s) in C3.
  eapply wp_mono; [exact id | | apply (load_segments_spec (plus held f 1)); auto].
  - intros u s4 (I4 & L4 & b & C4 & B4 & _); apply wp_seq.
    eapply wp_mono; [exact id | | apply (release_file frontend_syscall True held (plus held f 1) s4 (Some f) I4)].
    + intros u5 s5 [I5 [k5 ->]]; apply wp_give; rewrite C3 in C4, B4.
      split; [split; auto; cbn [current set_kern]; rewrite C4;
        cbn [with_brk_min brk_min mmap_max]; lia|].
      exists b; split; [exact C4 | lia].
    + split; [|reflexivity]; apply (inv_held _ _ _ I4 f); unfold plus;
        rewrite decide_True by reflexivity.
      lia.
    + intros g; apply (inv_held _ _ _ I g).
  - unfold plus; rewrite decide_True by reflexivity; lia.
  - rewrite C3; exact B.
  - destruct (_ =? ET_DYN); auto.
  - apply Forall_forall; intros q Hq Lq; apply list_elem_of_In, in_rev, in_map_iff in Hq.
    destruct Hq as (i & <- & _); rewrite Eb in *; apply Sh, Lq.
Qed.
End Elf.
