(* ===== verification/VmFrames.v ===== *)
(** * The frames of the program do not move

    No operation of virtual memory changes [first_free_paddr], from which the frame of a page is
    computed; one lemma per operation, by the hints of the base [fixed]. *)

From S2P Require Import Prelude File PageTable Mmap MmapInv MmapOps MmapAlloc MmapCalls MmapProtect VirtualMemory VmBoot Elf.
From stdpp Require Import base list list_numbers.
From Stdlib Require Import ZArith Lia.
#[local] Open Scope Z_scope.
#[local] Open Scope c_scope.
#[local] Open Scope bool_scope.

Create HintDb fixed.

Section Fixed.
Context {H : Type} (frontend_syscall : Z -> list Z -> H -> Z * H).
Context (pread_bytes : list Z -> H -> list Z).

Definition fixed {A} (c : op (vm H) A) : Prop :=
  forall s, match c s with Ok (_, s') => first_free_paddr s' = first_free_paddr s | _ => True end.

Lemma fixed_seq {A B} (c : op (vm H) A) (k : A -> op (vm H) B) :
  fixed c -> (forall a, fixed (k a)) -> fixed (seq_op c k).
Proof.
  intros C K s; unfold seq_op; specialize (C s); destruct (c s) as [[a s1]| |]; auto.
  specialize (K a s1); destruct (k a s1) as [[b s2]| |]; congruence.
Qed.

Lemma fixed_on_area {A} (c : op pages A) : fixed (on_area c).
Proof. intros s; unfold on_area; destruct (c (area s)) as [[a x]| |]; auto. Qed.

Lemma fixed_on_kern {A} (c : K H A) : fixed (on_kern c).
Proof. intros s; unfold on_kern; destruct (c (kern s)) as [[a k]|]; auto. Qed.

Ltac fixed_step :=
  match goal with
  | |- fixed (seq_op _ _) => apply fixed_seq; [|intros ?]
  | |- fixed (on_area _) => apply fixed_on_area
  | |- fixed (on_kern _) => apply fixed_on_kern
  | |- fixed (if ?b then _ else _) => destruct b
  | |- fixed (match ?x with _ => _ end) => destruct x
  end.
Ltac fixed_tac := repeat (fixed_step || (solve [auto with fixed])).
(* an operation that looks at the state first *)
Ltac look :=
  match goal with
  | |- match ?c ?s with Ok _ => _ | Panic => _ | Hang => _ end =>
      cut (fixed c); [intros F; exact (F s)|]
  end.

Lemma fixed_give {A} (a : A) : fixed (give a).
Proof. intros s; reflexivity. Qed.
Lemma fixed_kassert b : fixed (kassert b).
Proof. intros s; unfold kassert; destruct b; auto. Qed.
Lemma fixed_lock : fixed spinlock_lock.
Proof. intros s; unfold spinlock_lock; destruct (vm_lock s); auto. Qed.
Lemma fixed_unlock : fixed spinlock_unlock.
Proof. intros s; reflexivity. Qed.
Lemma fixed_read p : fixed (read_pte p).
Proof. intros s; reflexivity. Qed.
Lemma fixed_write p v : fixed (write_pte p v).
Proof. intros s; reflexivity. Qed.
Lemma fixed_get_vmr i : fixed (get_vmr i).
Proof. intros s; unfold get_vmr; destruct (vmr s !! i); auto. Qed.
Lemma fixed_put_vmr i v : fixed (put_vmr i v).
Proof. intros s; reflexivity. Qed.
Lemma fixed_vmr_at x : fixed (vmr_at x).
Proof. intros s; reflexivity. Qed.
Lemma fixed_clear a n : fixed (clear_page a n).
Proof. intros s; reflexivity. Qed.
Hint Resolve fixed_give fixed_kassert fixed_lock fixed_unlock fixed_read fixed_write fixed_get_vmr
  fixed_put_vmr fixed_vmr_at fixed_clear fixed_on_area fixed_on_kern : fixed.

Lemma fixed_vmr_decref i n : fixed (__vmr_decref frontend_syscall i n).
Proof. unfold __vmr_decref; fixed_tac. Qed.
Lemma fixed_vmr_page : fixed vmr_page.
Proof.
  intros s; unfold vmr_page; destruct (vmrs s =? 0); [look; fixed_tac | reflexivity].
Qed.
Hint Resolve fixed_vmr_page : fixed.
Lemma fixed_vmr_alloc a l f o n p : fixed (__vmr_alloc a l f o n p).
Proof.
  unfold __vmr_alloc; fixed_tac; intros s.
  destruct (list_find _ (vmr s)) as [[i v]|]; [look; fixed_tac | reflexivity].
Qed.
Hint Resolve fixed_vmr_decref fixed_vmr_alloc : fixed.

Lemma fixed_for_pages fuel : forall a last body,
  (forall x, fixed (body x)) -> fixed (for_pages fuel a last body).
Proof. induction fuel as [|fuel IH]; intros a last body B; cbn [for_pages]; [intros s; exact I|];
  fixed_tac. Qed.

Lemma fixed_munmap a l : fixed (__do_munmap frontend_syscall a l).
Proof. apply fixed_for_pages; intros x; unfold munmap_page; fixed_tac. Qed.
Hint Resolve fixed_for_pages fixed_munmap : fixed.

Lemma fixed_pread f b n o : fixed (file_pread frontend_syscall pread_bytes f b n o).
Proof.
  unfold file_pread; fixed_tac; intros s; look; fixed_tac.
Qed.
Lemma fixed_fill v a pa : fixed (fill_page frontend_syscall pread_bytes v a pa).
Proof. unfold fill_page; pose proof fixed_pread; fixed_tac. Qed.
Hint Resolve fixed_fill : fixed.

Lemma fixed_fault a p : fixed (__handle_page_fault frontend_syscall pread_bytes a p).
Proof.
  unfold __handle_page_fault; fixed_tac; intros s; destruct (_ || _); [reflexivity|]; look;
    fixed_tac.
  intros t; unfold touch_page; look; fixed_tac.
Qed.
Hint Resolve fixed_fault : fixed.

Lemma fixed_handle_page_fault a p : fixed (handle_page_fault frontend_syscall pread_bytes a p).
Proof. unfold handle_page_fault; fixed_tac. Qed.

Lemma fixed_vm_alloc_loop n last fuel : forall a, fixed (vm_alloc_loop fuel n last a).
Proof.
  assert (Av : forall x, fixed (__va_avail x)) by (intros x; unfold __va_avail; fixed_tac).
  assert (D : forall k first x, fixed (avail_down k first x)).
  { induction k as [|k IH]; intros first x; cbn [avail_down]; [intros s; exact I | fixed_tac]. }
  induction fuel as [|fuel IH]; intros a; cbn [vm_alloc_loop]; [intros s; exact I | fixed_tac].
Qed.

Lemma fixed_mmap a l p fl f o : fixed (__do_mmap frontend_syscall pread_bytes a l p fl f o).
Proof.
  assert (M : forall v x, fixed (mmap_page frontend_syscall v x)) by (intros v x;
    unfold mmap_page; fixed_tac).
  assert (Pp : forall x, fixed (populate_page frontend_syscall pread_bytes p x))
    by (intros x; unfold populate_page; fixed_tac).
  unfold __do_mmap; fixed_tac.
  - intros s; destruct (nz _); [reflexivity|]; look; fixed_tac.
    intros t; unfold __vm_alloc; apply fixed_vm_alloc_loop.
  - intros s; destruct (_ || _); [|reflexivity]; look; fixed_tac.
Qed.
Hint Resolve fixed_mmap : fixed.

Lemma fixed_do_munmap a l : fixed (do_munmap frontend_syscall a l).
Proof. intros s; unfold do_munmap; destruct (_ || _); [reflexivity | look; fixed_tac]. Qed.

Lemma fixed_do_mmap a l p fl fd o : fixed (do_mmap frontend_syscall pread_bytes a l p fl fd o).
Proof. unfold do_mmap; fixed_tac; intros s; destruct (_ <? _); reflexivity. Qed.

Lemma fixed_do_brk a : fixed (do_brk frontend_syscall pread_bytes a).
Proof.
  unfold do_brk; fixed_tac; intros s; unfold __do_brk; look; fixed_tac; intros t.
  - destruct (_ =? _); reflexivity.
  - destruct (_ <? _); [look; fixed_tac|]; destruct (_ <? _); [look; fixed_tac | reflexivity].
Qed.

Lemma fixed_mprotect a l p : fixed (do_mprotect a l p).
Proof.
  assert (Pg : forall x, fixed (mprotect_page p x)) by (intros x; unfold mprotect_page; fixed_tac).
  assert (Lp : forall fuel x last, fixed (mprotect_loop fuel x last p)).
  { induction fuel as [|fuel IH]; intros x last; cbn [mprotect_loop]; [intros s;
      exact I | fixed_tac]. }
  unfold do_mprotect; fixed_tac.
Qed.
Hint Resolve fixed_do_munmap fixed_do_mmap fixed_do_brk fixed_mprotect : fixed.

Lemma fixed_load_elf fn n eb pb ps : fixed (load_elf frontend_syscall pread_bytes fn n eb pb ps).
Proof.
  assert (Kp : forall f b z o, fixed (kernel_pread frontend_syscall pread_bytes f b z o)).
  { intros f b z o; unfold kernel_pread; fixed_tac; intros s; look; fixed_tac. }
  assert (Fi : forall b, fixed (fail_if b)) by (intros b; unfold fail_if; fixed_tac).
  assert (Sg : forall f b ph, fixed (load_segment frontend_syscall pread_bytes f b ph)).
  { intros f b ph; unfold load_segment, load_file_part, load_bss, memset_user; fixed_tac.
    intros s; destruct (_ <? _); reflexivity. }
  assert (Ss : forall f b l, fixed (load_segments frontend_syscall pread_bytes f b l))
    by (intros f b l; induction l as [|ph l IH]; cbn [load_segments]; fixed_tac).
  unfold load_elf; fixed_tac; intros s; exact I.
Qed.
End Fixed.
