(* ===== verification/VmTheorems.v ===== *)
(** * What virtual memory guarantees the program

    The theorems on the calls of [Mmap.v], from the start of the proxy kernel on, and the cases
    in which the calls do not do what they should. *)

From S2P Require Import Prelude File PageTable Mmap MmapInv MmapOps MmapAlloc MmapCalls MmapProtect VirtualMemory VmBoot Elf VmFrames.
From stdpp Require Import base list list_numbers.
From Stdlib Require Import ZArith Lia.
#[local] Open Scope Z_scope.
#[local] Open Scope c_scope.
#[local] Open Scope bool_scope.

(** ** Runs of the program *)

Inductive vm_call :=
| Mmap (addr length prot flags fd offset : Z)
| Munmap (addr length : Z)
| Mprotect (addr length prot : Z)
| Mremap (addr old_size new_size flags : Z)
| Brk (addr : Z)
| Fault (vaddr prot : Z).

Definition word64 (x : Z) : Prop := 0 <= x < 2 ^ 64.

Section Runs.
Context {H : Type} (frontend_syscall : Z -> list Z -> H -> Z * H).
Context (pread_bytes : list Z -> H -> list Z).

Definition run_call (c : vm_call) : op (vm H) Z :=
  match c with
  | Mmap a l p fl fd off => do_mmap frontend_syscall pread_bytes a l p fl fd off
  | Munmap a l => do_munmap frontend_syscall a l
  | Mprotect a l p => do_mprotect a l p
  | Mremap a o n fl => do_mremap a o n fl
  | Brk a => do_brk frontend_syscall pread_bytes a
  | Fault a p => handle_page_fault frontend_syscall pread_bytes a p
  end.

(** The arguments are words; a mapping at no fixed address is no longer than the user's part. *)
Definition sane (s : vm H) (c : vm_call) : Prop :=
  match c with
  | Mmap a l _ fl _ _ =>
      word64 a /\ word64 l /\ (nz (fl .& MAP_FIXED) = true \/ l <= mmap_max (current s))
  | Munmap a l | Mprotect a l _ => word64 a /\ word64 l
  | Mremap _ _ _ _ => True
  | Brk a | Fault a _ => word64 a
  end.

(** The states from the start on: virtual memory is set up, a program may be loaded, and the
    program calls. *)
Inductive reachable (demand : bool) (k : pk H) (mem_size _end : Z) : vm H -> Prop :=
| reach_init r s :
    pk_vm_init frontend_syscall pread_bytes mem_size _end (reset demand k) = Ok (r, s) ->
    reachable demand k mem_size _end s
| reach_load fn fn_size eh_buf phdr_buf phdr_size r s s' :
    reachable demand k mem_size _end s ->
    load_elf frontend_syscall pread_bytes fn fn_size eh_buf phdr_buf phdr_size s = Ok (r, s') ->
    reachable demand k mem_size _end s'
| reach_call c r s s' :
    reachable demand k mem_size _end s -> sane s c -> run_call c s = Ok (r, s') ->
    reachable demand k mem_size _end s'.

Lemma wp_ok {S A} P (c : op S A) Q s a s' : wp P c Q s -> c s = Ok (a, s') -> Q a s'.
Proof. unfold wp; intros W E; rewrite E in W; exact W. Qed.

Lemma run_call_ok held (s : vm H) c :
  vm_ok held s -> sane s c -> wp True (run_call c) (fun _ s' => vm_ok held s') s.
Proof.
  intros OK S; destruct c as [a l p fl fd off|a l|a l p|a o n fl|a|a p]; cbn [run_call sane] in *;
    unfold word64 in S.
  - eapply wp_mono; [exact id | | apply (mmap_call_spec frontend_syscall pread_bytes held); tauto].
    intros r s' [OK' _]; exact OK'.
  - eapply wp_mono; [exact id | | apply (munmap_call_spec frontend_syscall True held); tauto].
    intros r s' [OK' _]; exact OK'.
  - eapply wp_mono; [exact id | | apply (mprotect_call_spec True held); tauto].
    intros r s' [OK' _]; exact OK'.
  - apply wp_give, OK.
  - eapply wp_mono; [exact id | | apply (brk_call_spec frontend_syscall pread_bytes held); tauto].
    intros r s' [OK' _]; exact OK'.
  - eapply wp_mono; [exact id | | apply (handle_page_fault_spec frontend_syscall pread_bytes True held); auto].
    intros r s' [OK' _]; exact OK'.
Qed.

Lemma reachable_ok held demand (k : pk H) mem_size _end s :
  fits mem_size _end -> refs_ok held k ->
  (forall f, 0 <= held f < 2 ^ 29 /\ (held f <> 0 -> (f < length (files k))%nat)) ->
  sound_headers pread_bytes -> reachable demand k mem_size _end s -> vm_ok held s.
Proof.
  intros F R Hh Sh Re; induction Re as [r s E|fn n eb pb ps r s s' _ OK E|c r s s' _ OK S E].
  - exact (proj1 (wp_ok _ _ _ _ _ _ (vm_init_spec frontend_syscall pread_bytes held demand k mem_size
      _end F R Hh) E)).
  - exact (proj1 (wp_ok _ _ _ _ _ _ (load_elf_spec frontend_syscall pread_bytes held s fn n eb pb ps
      OK Sh) E)).
  - exact (wp_ok _ _ _ _ _ _ (run_call_ok held s c OK S) E).
Qed.

Lemma fixed_ok {A} (c : op (vm H) A) s a s' :
  fixed c -> c s = Ok (a, s') -> first_free_paddr s' = first_free_paddr s.
Proof using. intros F E; specialize (F s); rewrite E in F; exact F. Qed.

Lemma reachable_base held demand (k : pk H) mem_size _end s :
  fits mem_size _end -> refs_ok held k ->
  (forall f, 0 <= held f < 2 ^ 29 /\ (held f <> 0 -> (f < length (files k))%nat)) ->
  reachable demand k mem_size _end s -> first_free_paddr s = kernel_end mem_size _end.
Proof.
  intros F R Hh Re; induction Re as [r s E|fn n eb pb ps r s s' _ <- E|c r s s' _ <- S E].
  - apply (wp_ok _ _ _ _ _ _ (vm_init_spec frontend_syscall pread_bytes held demand k mem_size _end
      F R Hh) E).
  - apply (fixed_ok _ _ _ _ (fixed_load_elf frontend_syscall pread_bytes fn n eb pb ps) E).
  - refine (fixed_ok _ _ _ _ _ E); destruct c as [a l p fl fd off|a l|a l p|a o n fl|a|a p];
      cbn [run_call].
    + apply fixed_do_mmap.
    + apply fixed_do_munmap.
    + apply fixed_mprotect.
    + intros t; reflexivity.
    + apply fixed_do_brk.
    + apply fixed_handle_page_fault.
Qed.

(** What the program can reach through an entry. *)
Lemma user_frame held pend (s : vm H) n :
  inv held pend s -> 0 <= n < 2 ^ 27 -> nz (entry s n .& PTE_V) = true ->
  nz (entry s n .& PTE_U) = true ->
  n * RISCV_PGSIZE < mmap_max (current s) /\ pte_ppn (entry s n) = frame_of s n.
Proof using.
  intros I Hn V U; destruct (inv_entry _ _ _ I n Hn) as [E|[[B (i & Hi & E)]|[[B (p & u & E)]|[_ [_ X]]]]].
  - rewrite E in V; discriminate V.
  - destruct (region_invalid _ _ _ i I Hi); congruence.
  - split; [exact B|]; rewrite E; apply (pte_create_bits _ _ 0);
      [apply frame_range; [apply I | exact Hn] | pose proof (prot_to_type_range p u); lia | lia].
  - congruence.
Qed.

End Runs.

(** ** Theorems *)


(** A machine with 16 MiB, with the standard files open and a host without other files. *)
Definition no_bytes (args : list Z) (h : Z) : list Z := [].

(** The state an operation leaves. *)
Definition final {S A} (c : op S A) (s : S) : S := match c s with Ok (_, s') => s' | _ => s end.
Definition returns {S A} (c : op S A) (s : S) : bool := match c s with Ok _ => true
  | _ => false end.

Lemma final_returns {S A} (c : op S A) s : returns c s = true -> exists a, c s = Ok (a, final c s).
Proof. unfold returns, final; destruct (c s) as [[a s']| |]; try discriminate; eauto. Qed.

Lemma wp_final {S A} P (c : op S A) (Q : S -> Prop) s :
  wp P c (fun _ s' => Q s') s -> returns c s = true -> Q (final c s).
Proof.
  intros W E; destruct (final_returns c s E) as [a X]; unfold wp in W; rewrite X in W; exact W.
Qed.

Definition booted : vm Z := final (pk_vm_init counter no_bytes (2 ^ 24) 0x80010000) (reset true started).

Lemma booted_reachable : reachable counter no_bytes true started (2 ^ 24) 0x80010000 booted.
Proof.
  destruct (final_returns (pk_vm_init counter no_bytes (2 ^ 24) 0x80010000) (reset true started))
    as [r E]; [vm_compute; reflexivity|].
  exact (reach_init _ _ _ _ _ _ r booted E).
Qed.

Lemma booted_fits : fits (2 ^ 24) 0x80010000.
Proof. split; [| |]; vm_compute; repeat split; discriminate. Qed.

Lemma le_field_nil off n : le_field [] off n = 0.
Proof.
  unfold le_field; induction (seq 0 n) as [|j l IH]; cbn [map fold_right]; [reflexivity|].
  rewrite IH; destruct (Z.to_nat off + j)%nat; reflexivity.
Qed.

Lemma no_headers : sound_headers no_bytes.
Proof.
  intros args h i; unfold loadable, phdr_at, no_bytes; cbn [p_type]; rewrite le_field_nil;
    discriminate.
Qed.

Lemma standard_few f : 0 <= standard f < 2 ^ 29 /\
  (standard f <> 0 -> (f < length (files started))%nat).
Proof.
  unfold standard; replace (length (files started)) with 128%nat by (vm_compute; reflexivity).
  destruct (decide _); split; try lia; intros _; lia.
Qed.

Lemma booted_ok : vm_ok standard booted.
Proof.
  exact (reachable_ok _ _ standard _ _ _ _ _ booted_fits started_ok standard_few no_headers
           booted_reachable).
Qed.




(** ** Page faults *)

Lemma allows_bits p :
  allows (prot_to_type p 1) PROT_READ = nz (p .& PROT_READ) /\
  allows (prot_to_type p 1) PROT_WRITE = nz (p .& PROT_WRITE) /\
  allows (prot_to_type p 1) PROT_EXEC = nz (p .& PROT_EXEC).
Proof.
  unfold allows, prot_to_type; destruct (nz (p .& PROT_READ)), (nz (p .& PROT_WRITE)),
    (nz (p .& PROT_EXEC)); repeat split; reflexivity.
Qed.

(** A page that waits to be read from a file. *)
Definition from_file {H} (s : vm H) (n : Z) : Prop :=
  exists i v f, entry s n = region s i /\ vmr s !! i = Some v /\ v_file v = Some f.

Lemma file_or_anonymous {H} held pend (s : vm H) n :
  inv held pend s -> from_file s n \/ anonymous_at s n.
Proof.
  intros I; assert (D : (exists i v, entry s n = region s i /\ vmr s !! i = Some v) \/
    forall i v, vmr s !! i = Some v -> entry s n <> region s i).
  { destruct (decide (Exists (fun i => entry s n = region s i) (List.seq 0 MAX_VMR))) as [X|X].
    - apply Exists_exists in X as (i & Hi & E); left; exists i.
      apply list_elem_of_In, in_seq in Hi; destruct (inv_lookup _ _ _ i I ltac:(lia)) as [v Hv];
        eauto.
    - right; intros i v Hv E; apply X, Exists_exists; exists i; split; [|exact E].
      apply lookup_lt_Some in Hv; rewrite (inv_length _ _ _ I) in Hv.
      apply list_elem_of_In, in_seq; lia. }
  destruct D as [(i & v & E & Hv)|D]; [|right; intros i v E Hv; destruct (D i v Hv E)].
  destruct (v_file v) as [f|] eqn:F; [left; exists i, v, f; auto|].
  right; intros j w Ej Hw; rewrite E in Ej; apply region_inj in Ej; subst; congruence.
Qed.

(** C15: [handle_page_fault].  A fault outside the mapped pages fails.  On a page that has its
    frame the answer is whether its entry permits the access.  The first touch of a page fills
    its frame, with zeros or with the bytes of the file and zeros after them, takes one
    reference from the region, and gives the entry the frame of the page and the rights of the
    region; the answer is whether those permit the access, that is, whether the region has the
    bit for it.  Nothing else changes, and only a page of a file can fail an assertion. *)
Theorem page_fault_correct {H} (frontend_syscall : Z -> list Z -> H -> Z * H)
    (pread_bytes : list Z -> H -> list Z) held (s : vm H) vaddr prot :
  vm_ok held s -> word64 vaddr ->
  wp (from_file s (vaddr / RISCV_PGSIZE))
    (handle_page_fault frontend_syscall pread_bytes vaddr prot)
    (fun r s' => vm_ok held s' /\ current s' = current s /\
                 fault frontend_syscall pread_bytes s vaddr prot r s') s /\
  (forall p, allows (prot_to_type p 1) PROT_READ = nz (p .& PROT_READ) /\
             allows (prot_to_type p 1) PROT_WRITE = nz (p .& PROT_WRITE) /\
             allows (prot_to_type p 1) PROT_EXEC = nz (p .& PROT_EXEC)).
Proof.
  intros OK V; split; [|exact allows_bits].
  apply handle_page_fault_spec; [exact OK | exact V | apply (file_or_anonymous held none), OK].
Qed.

Lemma page_fault_correct_witness :
  wp (from_file booted (0xfd0123 / RISCV_PGSIZE))
    (handle_page_fault counter no_bytes 0xfd0123 PROT_WRITE)
    (fun r s' => vm_ok standard s' /\ current s' = current booted /\
                 fault counter no_bytes booted 0xfd0123 PROT_WRITE r s') booted.
Proof.
  destruct (page_fault_correct counter no_bytes standard booted 0xfd0123 PROT_WRITE booted_ok)
    as [W _]; [split; [discriminate | reflexivity] | exact W].
Defined.

(** C16: the calls that take pages away or change their rights.  [do_munmap] clears exactly the
    entries of a valid range and refuses any other.  [do_mprotect] that returns 0 leaves every
    page of the range with the rights asked for, and whatever it returns, the entries outside
    the range as they were.  [do_brk] moves the break to the address asked for, within
    [brk_min] and [brk_max], and unmaps or maps exactly the pages between the old and the new
    end of the heap.  All keep the invariant. *)
Theorem unmap_protect_brk_correct {H} (frontend_syscall : Z -> list Z -> H -> Z * H)
    (pread_bytes : list Z -> H -> list Z) held (s : vm H) addr length prot :
  vm_ok held s -> word64 addr -> word64 length ->
  wp False (do_munmap frontend_syscall addr length)
    (fun r s' => vm_ok held s' /\
       ((r = - EINVAL /\ s' = s /\
         (addr mod RISCV_PGSIZE <> 0 \/ mmap_max (current s) < addr + length)) \/
        (r = 0 /\ current s' = current s /\ umem s' = umem s /\
         same_regions (vmr s) (vmr s') /\ addr mod RISCV_PGSIZE = 0 /\
         addr + length <= mmap_max (current s) /\
         forall n, 0 <= n < 2 ^ 27 ->
           entry s' n = if within n (addr / RISCV_PGSIZE) (Z.of_nat (page_count length)) then 0
                        else entry s n))) s /\
  wp False (do_mprotect addr length prot)
    (fun r s' => vm_ok held s' /\ current s' = current s /\
                 mprotect_result s addr length prot r s') s /\
  (let new := ROUNDUP (brk_to (current s) addr) RISCV_PGSIZE in
   wp True (do_brk frontend_syscall pread_bytes addr)
     (fun r s' => vm_ok held s' /\ r = brk_to (current s) addr /\
        current s' = set_brk new (current s) /\ brk_pages s s' (heap_end (current s)) new) s).
Proof.
  intros OK A L; split; [|split].
  - apply munmap_call_spec; assumption.
  - apply mprotect_call_spec; assumption.
  - apply brk_call_spec; [exact OK | apply A].
Qed.

Lemma unmap_protect_brk_correct_witness :
  wp False (do_mprotect 0xf60000 0x1000 PROT_READ)
    (fun r s' => vm_ok standard s' /\ current s' = current booted /\
                 mprotect_result booted 0xf60000 0x1000 PROT_READ r s') booted.
Proof.
  destruct (unmap_protect_brk_correct counter no_bytes standard booted 0xf60000 0x1000 PROT_READ
    booted_ok) as (_ & W & _); [split; [discriminate | reflexivity] .. | exact W].
Defined.

Lemma load_segment_ok {H} (frontend_syscall : Z -> list Z -> H -> Z * H)
    (pread_bytes : list Z -> H -> list Z) held (s : vm H) file bias ph :
  vm_ok held s -> 0 < held file -> bias = 0 \/ bias = RISCV_PGSIZE -> segment_ok ph ->
  wp True (load_segment frontend_syscall pread_bytes file bias ph) (fun _ s' => vm_ok held s') s.
Proof.
  intros [I L B W] F Bs Sg; eapply wp_mono; [exact id | |
    apply (load_segment_spec frontend_syscall pread_bytes held s file bias ph); auto; lia].
  intros u s' (I' & L' & V & C & _); split; auto; rewrite C; cbn [with_brk_min brk_min mmap_max];
    lia.
Qed.


(** A program of two pages, the second of them not in the file. *)
Definition program : Elf_Phdr := Phdr PT_LOAD (PF_R .| PF_W .| PF_X) 0 0x10000 0x1000 0x2000.

Lemma program_ok : segment_ok program.
Proof.
  split; [split; [discriminate | reflexivity] .. |].
  split; [discriminate | split; [reflexivity | reflexivity]].
Qed.


(** ** Defects *)

Section Defects.
Context {H : Type} (frontend_syscall : Z -> list Z -> H -> Z * H).
Context (pread_bytes : list Z -> H -> list Z).

Fixpoint run_calls (cs : list vm_call) : op (vm H) (list Z) :=
  match cs with
  | [] => give []
  | c :: cs =>
      let% r := run_call frontend_syscall pread_bytes c in
      let% rs := run_calls cs in
      give (r :: rs)
  end.

Definition results {A} (c : op (vm H) A) (s : vm H) : option A :=
  match c s with Ok (a, _) => Some a | _ => None end.

(** A length that rounds up to 2^64: the number of pages is 2^52, their size is 0. *)
Lemma huge_mmap (s : vm H) addr length prot flags offset i v :
  2 ^ 64 - RISCV_PGSIZE < length < 2 ^ 64 -> nz (flags .& MAP_FIXED) = false ->
  eager s flags = false -> tree (area s) ->
  2 * RISCV_PGSIZE <= brk (current s) <= mmap_max (current s) ->
  mmap_max (current s) <= 2 ^ 40 -> free_page s (brk (current s)) = true -> 0 < vmrs s ->
  list_find (fun v => v_refcnt v = 0) (vmr s) = Some (i, v) ->
  exists s', __do_mmap frontend_syscall pread_bytes addr length prot flags None offset s
             = Ok (brk (current s) - RISCV_PGSIZE, s') /\ area s' = area s /\
               current s' = current s.
Proof.
  intros L F E T B M A V Fi; set (b := brk (current s)) in *; unfold __do_mmap.
  assert (Np : u64 (u64 (length - 1) / RISCV_PGSIZE + 1) * RISCV_PGSIZE = 2 ^ 64).
  { change RISCV_PGSIZE with 4096 in *; clear - L; rewrite (u64_small (length - 1)) by lia.
    rewrite u64_small; Z.div_mod_to_equations; lia. }
  set (np := u64 (u64 (length - 1) / RISCV_PGSIZE + 1)) in *; clearbody np.
  assert (Al : __vm_alloc np s = Ok (b - RISCV_PGSIZE, s)).
  { unfold __vm_alloc; fold b; replace (u64 (mmap_max (current s) - np * RISCV_PGSIZE))
      with (mmap_max (current s)) by (unfold u64, wrap; change RISCV_PGSIZE with 4096 in *;
        apply (Z.mod_unique_pos _ _ (-1)); lia).
    cbn [vm_alloc_loop]; rewrite (proj2 (Z.leb_le b _)) by lia; unfold seq_op.
    rewrite run_va_avail, A by exact T; cbn [negb avail_down].
    replace (u64 (b + (np - 1) * RISCV_PGSIZE)) with (b - RISCV_PGSIZE)
      by (unfold u64, wrap; change RISCV_PGSIZE with 4096 in *; apply (Z.mod_unique_pos _ _ 1);
        lia).
    rewrite (proj2 (Z.ltb_ge b _)) by (change RISCV_PGSIZE with 4096; lia); unfold give.
    rewrite (proj2 (Z.ltb_ge b _)) by (change RISCV_PGSIZE with 4096; lia); reflexivity. }
  unfold seq_op; rewrite F, Al; unfold give.
  rewrite (proj2 (Z.eqb_neq (b - RISCV_PGSIZE) 0)) by (change RISCV_PGSIZE with 4096 in *; lia).
  unfold __vmr_alloc, seq_op, vmr_page; rewrite (proj2 (Z.eqb_neq (vmrs s) 0)), Fi by lia.
  unfold give, put_vmr; rewrite (proj2 (Z.eqb_neq (vmrs s + _) 0)) by (unfold sizeof_vmr; lia).
  set (s1 := set_vmrs _ _ s).
  replace (u64 (b - RISCV_PGSIZE + length)) with (b - RISCV_PGSIZE + length - 2 ^ 64)
    by (unfold u64, wrap; change RISCV_PGSIZE with 4096 in *; apply (Z.mod_unique_pos _ _ 1); lia).
  assert (Fu : exists n, page_fuel length = S n).
  { unfold page_fuel; exists (Z.to_nat (length / RISCV_PGSIZE + 1)); rewrite <- Z2Nat.inj_succ;
      [f_equal; lia|]; clear - L; change RISCV_PGSIZE with 4096 in *; Z.div_mod_to_equations; lia. }
  destruct Fu as [n ->]; cbn [for_pages].
  rewrite (proj2 (Z.ltb_ge _ _)) by (change RISCV_PGSIZE with 4096 in *; lia); unfold give.
  change (negb (demand_paging s1) || nz (flags .& MAP_POPULATE)) with (eager s flags); rewrite E.
  exists s1; auto.
Qed.
End Defects.

(** The program loaded, and then with a break. *)
Definition loaded : vm Z := final (load_segment counter no_bytes 0 0 program) booted.
Definition heap : vm Z := final (do_brk counter no_bytes 0x13000) loaded.

Definition rw : Z := PROT_READ .| PROT_WRITE.
Definition anon : Z := MAP_PRIVATE .| MAP_ANONYMOUS.

Lemma heap_ok : vm_ok standard heap.
Proof.
  apply (wp_final True (do_brk counter no_bytes 0x13000) (vm_ok standard) loaded); [|vm_compute;
    reflexivity].
  apply (run_call_ok counter no_bytes standard loaded (Brk 0x13000)); [|split; [discriminate |
    reflexivity]].
  apply (wp_final True (load_segment counter no_bytes 0 0 program) (vm_ok standard) booted);
    [|vm_compute; reflexivity].
  apply load_segment_ok; [exact booted_ok | reflexivity | left; reflexivity | exact program_ok].
Qed.

Lemma heap_facts :
  current heap = ElfInfo 0x12000 0x13000 0xfe0000 0xfe0000 0xfe0000 /\ eager heap anon = false /\
  free_page heap 0x13000 = true /\
  bool_decide (list_find (fun v => v_refcnt v = 0) (vmr heap) = None) = false.
Proof. vm_compute; auto. Qed.

Lemma heap_huge :
  exists s', __do_mmap counter no_bytes 0 (2 ^ 64 - 1) rw anon None 0 heap = Ok (0x12000, s') /\
    area s' = area heap.
Proof.
  pose proof heap_ok as OK; destruct heap_facts as (C & E & F & Fi); revert OK C E F Fi.
  generalize heap; intros s OK C E F Fi; pose proof (ok_inv _ _ OK) as I.
  destruct (list_find (fun v => v_refcnt v = 0) (vmr s)) as [[i v]|] eqn:Ef.
  2:{ rewrite bool_decide_true in Fi by reflexivity; discriminate Fi. }
  destruct (huge_mmap counter no_bytes s 0 (2 ^ 64 - 1) rw anon 0 i v) as (s' & Es & A & _);
    rewrite ?C; auto; cbn [brk mmap_max]; try (change RISCV_PGSIZE with 4096; lia).
  - apply I.
  - apply (inv_vmrs _ _ _ I).
  - rewrite C in Es; exists s'; auto.
Qed.

(** A segment with no bytes in the file. *)
Definition bss : Elf_Phdr := Phdr PT_LOAD (PF_R .| PF_W) 0 0x20000 0 0x1000.
Definition file_users (s : vm Z) : option Z := refcnt <$> files (kern s) !! 0%nat.

